(* ===== verification/_CoqProject ===== *)
-Q . S2P
Prelude.v
Config.v
WorkerSlot.v
Text.v
Protocol.v
Collect.v
Runtime.v
Supervisor.v
SupervisorSpec.v
Dispatch.v
Pool.v
PoolSpec.v
PoolLive.v
Executor.v
Bridge.v
BridgeSpec.v
BridgeProps.v
BridgeIso.v
BodySpec.v
ExtRuntime.v
PoolShutdown.v
WorkerThread.v
ThreadLive.v
ThreadLoop.v
System.v
SystemSpec.v
SystemOwn.v
SystemLive.v
SystemServes.v
StreamChannel.v
PhpCall.v
Logging.v
PluginRegistry.v
Registries.v
Watch.v
F64.v
Metrics.v
Server.v
ZvalConvert.v
ZtsWorker.v
PhpApi.v
Build.v
