(* ===== verification/Prelude.v ===== *)
(** Folk core: a verification of the worker pool, the PHP bridge and the server
    around them.

    Folk runs PHP workers inside a Rust server.  [folk-core] owns the pool:
    callers hand it requests, a dispatcher spreads them over slots, and one
    supervisor per slot keeps a worker alive and feeds it.  [folk-ext] is the PHP
    extension: it provides the workers (the main PHP thread and spawned ZTS
    threads), the bridge through which a PHP script takes requests and writes
    responses, and the functions PHP sees.  A request travels

      caller -> [Executor] -> request channel -> [Dispatch] -> slot inbox ->
      [Supervisor] -> task channel ([ExtRuntime]) -> [Bridge] -> PHP

    and its response comes back as a stream of chunks that the caller drains,
    itself or through a collector ([Collect]).

    * Files

    - [Prelude]: results, the state-and-error monad, event-driven machines and
      their invariants, machine integers, hash-map iteration, well-founded steps
      of a family, automation.
    - [Config] (folk-core/src/config.rs), [WorkerSlot] (worker_slot.rs): the
      records with their defaults, [normalize], the log filter, layered loading;
      the slot state machine.
    - [Text]: the standard library's UTF-8 validation and lossy conversion, ASCII
      case, the null-byte check of C strings.
    - [Protocol]: JSON values and the messages of [folk_api], by the constructors
      the sources match on; the framing a response stream must follow.
    - [Collect] (worker_pool.rs [collect_stream], folk-ext/src/runtime.rs
      [collect_stream_to_value]): the two collectors.
    - [Runtime] (folk-core/src/runtime.rs): the interface [WorkerHandle] with its
      laws, and [MockRuntime].
    - [Supervisor], [SupervisorSpec] (worker_pool.rs [slot_supervisor],
      [boot_worker]): the supervisor's loop as [sup_step], written against the
      interface; the life cycle it refines.
    - [Dispatch], [Pool], [PoolSpec], [PoolLive], [PoolShutdown], [Executor]
      (worker_pool.rs [pool_main], [WorkerPool] and its [Executor] methods): the
      pool, what it conserves, that it drains, and what its drop leaves.
    - [Bridge], [BridgeSpec], [BridgeProps], [BridgeIso], [BodySpec]
      (folk-ext/src/bridge.rs): the thread-local state, every function PHP can
      call, the dispatch loop; what holds for every PHP handler; that a request's
      response does not depend on what else the worker serves; reading request
      bodies.
    - [ExtRuntime] (folk-ext/src/runtime.rs): concurrent [spawn]s, the channel
      worker's handle (the second instance of the interface), the task channel.
    - [WorkerThread], [ThreadLive], [ThreadLoop]: the dispatch loop in single
      steps, with tasks arriving, the sender being dropped and the thread dying at
      any point; why a thread never stalls; that its steps are the sequential loop.
    - [System], [SystemSpec], [SystemOwn], [SystemLive], [SystemServes]: callers,
      pool, spawns, handles and worker threads as one machine; its safety, the
      ownership of workers, its liveness, and both together.
    - [StreamChannel] (worker_pool.rs [dispatch_streamed], [collect_stream]): the
      bounded response channel with both its ends, and the collecting call at one
      of them.  [PhpCall]: a PHP handler at the other.
    - [Logging], [PluginRegistry], [Registries], [Watch], [Metrics] (over [F64]),
      [Server] (logging.rs, plugin_registry.rs, health_registry.rs and
      folk-ext/src/registry.rs, watch.rs, metrics_registry.rs, server.rs).
    - [ZvalConvert], [ZtsWorker], [PhpApi] (zval_convert.rs, zts.rs and worker.rs,
      lib.rs); [Build] (folk-ext/build.rs).

    * How the code is modelled

    Asynchronous code is a step function between await points.  An event says
    what an await produced; [None] means the event cannot happen in that state.
    Concurrency is the interleaving of steps: of the supervisor with reloads
    ([svc_step]), of callers, dispatcher and all supervisors ([pool_step]), of
    concurrent spawns ([spawns_step]), of the two ends of the task channel
    ([queue_step]) and of a response channel ([call_step], [link_step]), of PHP
    with the rest of the program ([thread_step]), and of all of them ([sys_step]).
    Theorems about [run] hold for every such interleaving.  The supervisor's
    [select!] is its two polls, [changed()] and then [inbox.recv()], with room for
    a reload between them; with both pending the task sleeps until it is woken.  A
    sleeping supervisor is woken by a reload, the drop of the pool or a request;
    a wake-up without a cause, which finds both pending again, is left out.

    In [Pool] the outcome of a spawn, a boot, an execution or a teardown is part
    of the event, whatever the worker.  [System] composes: there an outcome is
    possible only if the spawn and the worker's thread are in a state that gives
    it ([ready_outcome], [exec_outcome], [torn_down]) and a send really enters the
    task channel.  The pool's part of a system step is a [pool_step], so that what
    is shown of the pool holds of the system.  A caller may be dropped while it
    waits to hand its request over ([EvCancel]); the last reference to the pool may
    be dropped ([EvDropPool]), in [Pool] only: the system keeps its pool.  A
    supervisor whose spawn panics, because the system refuses the thread, ends
    ([EvBootPanic], [SBootPanic]).

    Panics are [None] or the phase [PPanicked]; assertions and integer overflow
    panic, as in a build with debug assertions.  Errors carry the message of the
    source.  Time is read at the steps that read the clock, in nanoseconds.  The
    outcome of an operation outside the repository (spawning, the file system, C
    return codes, what arrives on a channel) is an argument or part of an event.
    Hash maps iterate in any order ([HashOrder]).  A 64-bit float is one of the
    Standard Library's [spec_float]s ([F64]).

    PHP code is a tree of bridge calls ([Handler]): it may call any function in
    any order and let what it does next depend on the results.  The tree is
    well-founded: a handler makes finitely many calls.  A worker script is such a
    tree that may also hand its thread to the dispatch loop ([Script]).

    Libraries the sources call ([serde_json], [folk_api], [figment],
    [ext_php_rs], [prometheus], [tracing_subscriber]) are classes of operations
    with laws that state what they document; every law class has an instance,
    used by the examples.

    * What is shown

    - The whole system: a completed request's channel holds what the PHP handler
      makes of this request alone, closed and framed ([system_answers]); no
      request is lost ([system_loses_nothing]); a worker's sender has one owner
      ([workers_have_one_owner]); every schedule that does not pause while
      something can proceed brings every request to its end, without fairness
      and without timeouts ([system_live]); and where no worker dies and no
      request times out, that end is the full response
      ([system_serves_everyone]).  Theorems that need every supervisor to stay
      assume that no spawn panics, and say so.
    - The pool: requests and permits are conserved over all interleavings,
      nothing is lost while the supervisors live, dispatch is round robin over
      live slots and decides in bounded time, a pool with work always has a step
      to take and drains, and a reload reaches every worker ([PoolSpec],
      [Dispatch], [PoolLive]); after the drop of the pool every request has ended
      and the replaceable workers are terminated, while the supervisor of the main
      thread's worker waits for ever ([PoolShutdown]).
    - A slot: workers, requests and permits follow the life cycle
      spawn, (start, release)*, terminate; no assertion fails; [max_jobs] (and at
      least one job) is a bound; a replaceable worker starts a request on the code
      of the last reload that had happened when its supervisor last polled the
      reload channel, and a worker that a later reload has made stale is replaced
      after this one request; an idle one is replaced without taking any
      ([SupervisorSpec]).
    - A worker: every response stream is framed whatever PHP does; the dispatch
      loop terminates and answers every request; returned values arrive verbatim
      and streamed ones complete; each request is served as if it were the only
      one; every caller is released when the thread ends ([BridgeProps],
      [BridgeIso], [WorkerThread], [ThreadLoop], [ZtsWorker]).
    - Request bodies: raw reads conserve the bytes, the multipart functions refine
      a cursor over the uploaded parts, empty chunks included, and give the form
      back ([BodySpec]).
    - Responses: what a collector returns for finished and for truncated streams,
      and that the two collectors agree ([Collect], [Executor]); that a collecting
      call ends with that value over the bounded channel, for responses of any
      length ([StreamChannel]); the whole way from a PHP handler to the caller's
      value, with the two running side by side ([PhpCall]).
    - Around them: spawn ids and pre-connected channels under races, when the task
      channel can block, plugin brackets, start-up and shutdown order, the
      registries, the metrics as exact integers, reload triggers, what an exception
      of a PHP function says and leaves behind, the trip through PHP values with
      what is lost on it, and that a worker script ends clean with any dispatch
      loops in it.

    * Bounds and fuel

    [dispatch_loop] and [read_loop] take fuel, the number of turns; the theorems
    give a sufficient number (one more than the requests, one more than the bytes)
    and show that the loop ends within it. [zval_to_value] takes the depth it may
    descend to. A dispatch loop of a worker script ([run_script]) has one turn
    more than there are requests, which is shown to be enough. [pool_drains]
    bounds the pool's own steps by [count * (count + 24)]; the system has no such
    bound, since a PHP handler is as long as it likes, and comes to rest by
    well-founded induction. Counters: [supervisor_never_panics] and the system's
    theorems cover 2^64 - 1 steps, [spawn_ids_and_channels] 2^32 - 2, the metrics
    totals below 2^53; the pool theorems assume twice [workers.count] fits in a
    [u64]. That the dispatcher never waits for a slot ([pool_dispatch_terminates])
    is shown for at most 8 workers, the capacity of an inbox; with more, one inbox
    can fill, and progress is then that slot's.

    A response channel holds 64 chunks.  In [Bridge], and so in [System], a send
    on it does not wait: the liveness of the system is that of callers who read
    their responses or drop them, as [dispatch_streamed] demands.  [StreamChannel]
    shows that collecting callers do, and that a sender whose caller does neither
    waits.  In the same way a read of a request body finds what the body holds, to
    its end: the liveness of the system is that of callers who send the bodies they
    stream, and close them.

    * Not modelled

    The scheduling of the tokio runtime and of threads (any enabled step may be
    next), wall-clock timeouts (they are events), log records, the
    attributes and imports of the sources, the C shim (its return codes are
    arguments), and a PHP handler that starts a dispatch loop inside the dispatch
    loop.  Handlers that take requests themselves with [folk_worker_recv] while the
    loop runs are modelled; the theorems on what a request is answered assume that
    they do not ([no_recv]). *)

From stdpp Require Export base decidable list gmap strings.
From Stdlib Require Export ZArith Lia.
From Stdlib Require Export Ascii.
From Stdlib.Strings Require Export Byte.


(** * Fallible results *)

(** [anyhow::Result<T>] and [Result<T, &'static str>].  An error is kept as the
    message the source gives it. *)
Inductive result (A : Type) : Type :=
| Ok (a : A)
| Err (e : string).
Arguments Ok {A} a.
Arguments Err {A} e.

#[export] Instance result_eq_dec {A} `{EqDecision A} : EqDecision (result A).
Proof. solve_decision. Defined.

(** [Result::is_ok]. *)
Definition is_ok {A} (r : result A) : bool :=
  match r with Ok _ => true | Err _ => false end.

(** [Result::map]. *)
Definition result_map {A B} (f : A -> B) (r : result A) : result B :=
  match r with Ok a => Ok (f a) | Err e => Err e end.

(** The [?] operator. *)
Definition result_bind {A B} (r : result A) (k : A -> result B) : result B :=
  match r with Ok a => k a | Err e => Err e end.

(** [anyhow::Context::context]: the message of the context, then the cause. *)
Definition context {A} (msg : string) (r : result A) : result A :=
  match r with Ok a => Ok a | Err e => Err (msg +:+ ": " +:+ e) end.

Declare Scope folk_scope.
Delimit Scope folk_scope with folk.
Open Scope folk_scope.

Notation "x <-? e ;; k" := (result_bind e (fun x => k))
  (at level 100, e at next level, k at level 200, right associativity) : folk_scope.

(** * Stateful computations that may return early

    A method that mutates [&mut self] and returns a [Result] keeps the
    mutations made before an early return: an error carries the state. *)
Definition SE (S A : Type) : Type := S -> S * result A.

Section state_error.
Context {S : Type}.

Definition se_ret {A} (a : A) : SE S A := fun s => (s, Ok a).
Definition se_fail {A} (e : string) : SE S A := fun s => (s, Err e).
Definition se_bind {A B} (m : SE S A) (k : A -> SE S B) : SE S B :=
  fun s => match m s with
           | (s', Ok a) => k a s'
           | (s', Err e) => (s', Err e)
           end.
Definition se_get : SE S S := fun s => (s, Ok s).
Definition se_gets {A} (f : S -> A) : SE S A := fun s => (s, Ok (f s)).
Definition se_modify (f : S -> S) : SE S unit := fun s => (f s, Ok tt).
(** [Option::ok_or(e)?]. *)
Definition se_ok_or {A} (o : option A) (e : string) : SE S A :=
  match o with Some a => se_ret a | None => se_fail e end.
(** [let _ = m;]: the outcome is ignored, the effects are not. *)
Definition se_ignore {A} (m : SE S A) : SE S unit :=
  fun s => ((m s).1, Ok tt).
End state_error.

Notation "x <-- e ;; k" := (se_bind e (fun x => k))
  (at level 100, e at next level, k at level 200, right associativity) : folk_scope.
Notation "e ;;; k" := (se_bind e (fun _ => k))
  (at level 100, k at level 200, right associativity) : folk_scope.

(** * Executable event-driven machines

    A component that waits on its environment is a partial function from an
    event and a state to the next state; [None] means the event cannot happen
    there.  [run] folds it over a list of events. *)
Section machine.
Context {E S : Type} (step : E -> S -> option S).

Fixpoint run (es : list E) (s : S) : option S :=
  match es with
  | [] => Some s
  | e :: es => match step e s with Some s' => run es s' | None => None end
  end.

Lemma run_app es1 es2 s :
  run (es1 ++ es2) s = match run es1 s with Some s' => run es2 s' | None => None end.
Proof. revert s; induction es1 as [|e es1 IH]; intros s; simpl; [done|]. by destruct (step e s). Qed.

(** An invariant of every step is an invariant of every run. *)
Lemma run_invariant (P : S -> Prop) :
  (forall e s s', P s -> step e s = Some s' -> P s') ->
  forall es s s', P s -> run es s = Some s' -> P s'.
Proof.
  intros Hstep es; induction es as [|e es IH]; intros s s' HP Hrun; simpl in Hrun.
  - by simplify_eq.
  - destruct (step e s) as [s1|] eqn:He; [|done]. eauto.
Qed.

(** An invariant that may count the steps taken, for runs whose events satisfy
    [Q]. *)
Lemma run_invariant_count (Q : E -> Prop) (P : Z -> S -> Prop) :
  (forall n e s s', Q e -> P n s -> step e s = Some s' -> P (n + 1)%Z s') ->
  forall es n s s', Forall Q es -> P n s -> run es s = Some s' ->
    P (n + Z.of_nat (length es))%Z s'.
Proof.
  intros Hstep es; induction es as [|e es IH]; intros n s s' HQ HP Hrun; simpl in Hrun.
  - simplify_eq. simpl. by rewrite Z.add_0_r.
  - destruct (step e s) as [s1|] eqn:He; [|done]. apply Forall_cons in HQ as [HQe HQ].
    replace (n + Z.of_nat (length (e :: es)))%Z with (n + 1 + Z.of_nat (length es))%Z
      by (simpl length; lia). eauto.
Qed.
End machine.

(** * Machine integers *)

Definition u16_max : Z := 2 ^ 16 - 1.
Definition u32_max : Z := 2 ^ 32 - 1.
Definition u64_max : Z := 2 ^ 64 - 1.

(** [AtomicU32::fetch_add] and [usize::wrapping_add] (64-bit targets). *)
Definition wrap32 (x : Z) : Z := (x mod 2 ^ 32)%Z.
Definition wrap64 (x : Z) : Z := (x mod 2 ^ 64)%Z.

Lemma wrap64_small x : (0 <= x <= u64_max)%Z -> wrap64 x = x.
Proof. unfold wrap64, u64_max. intros; apply Z.mod_small; lia. Qed.

Lemma wrap32_small x : (0 <= x <= u32_max)%Z -> wrap32 x = x.
Proof. unfold wrap32, u32_max. intros; apply Z.mod_small; lia. Qed.

(** * Bytes *)

Abbreviation bytes := (list byte).

(** * Hash maps

    A [HashMap] is a [gmap]; iterating it yields its entries in an order the
    program does not choose.  The order is an argument, and every theorem holds
    for all of them. *)
Class HashOrder := {
  hash_iter : forall {V}, gmap string V -> list (string * V);
  hash_iter_perm : forall {V} (m : gmap string V), hash_iter m ≡ₚ map_to_list m;
}.

Lemma elem_of_hash_iter `{HashOrder} {V} (m : gmap string V) k v :
  (k, v) ∈ hash_iter m <-> m !! k = Some v.
Proof. by rewrite hash_iter_perm, elem_of_map_to_list. Qed.

Lemma hash_iter_nodup `{HashOrder} {V} (m : gmap string V) : NoDup (hash_iter m).*1.
Proof. rewrite hash_iter_perm. apply NoDup_fst_map_to_list. Qed.

Lemma hash_iter_to_map `{HashOrder} {V} (m : gmap string V) :
  list_to_map (hash_iter m) = m.
Proof.
  rewrite (list_to_map_proper _ (map_to_list m)); [apply list_to_map_to_list|
    apply hash_iter_nodup | apply hash_iter_perm].
Qed.

(** One possible order, for evaluating examples. *)
Definition some_order : HashOrder := {|
  hash_iter V m := map_to_list m;
  hash_iter_perm V m := Permutation_refl (map_to_list m);
|}.

(** * Proof automation *)

(** Case analysis on every [match] and [if] scrutinee met in a hypothesis. *)
Ltac case_hyp H :=
  repeat match type of H with
         | context [ match ?x with _ => _ end ] => destruct x eqn:?; simplify_eq/=
         end.

(** The same in the goal. *)
Ltac case_goal :=
  repeat match goal with
         | |- context [ match ?x with _ => _ end ] => destruct x eqn:?; simplify_eq/=
         end.

(** A closed computation that gives something. *)
Lemma eval_some {A} (o : option A) : (if o then true else false) = true -> exists a, o = Some a.
Proof. destruct o; [eauto|done]. Qed.

Lemma eval_run {A} (o : option A) d : (if o then true else false) = true -> o = Some (default d o).
Proof. by destruct o. Qed.

Lemma eval_run_pair {A B} (o : option (A * B)) d :
  (if o then true else false) = true -> o = Some ((default d o).1, (default d o).2).
Proof. by destruct o as [[]|]. Qed.

(** A step that is not possible; again only a boolean is evaluated. *)
Lemma nothing_next {E S} (step : E -> S -> option S) (e : E) (s : S) :
  (if step e s then false else true) = true -> step e s = None.
Proof. by destruct (step e s). Qed.

(** A closed run ends in the state named after it; only a boolean is evaluated. *)
Ltac vm_run := first [refine (eval_run_pair _ _ _)|refine (eval_run _ _ _)]; vm_compute; reflexivity.

Lemma forallb_lookup {A} (f : A -> bool) (l : list A) i x : forallb f l = true -> l !! i = Some x -> f x = true.
Proof.
  intros Hl Hi. rewrite forallb_forall in Hl. by apply Hl, list_elem_of_In, (list_elem_of_lookup_2 _ i).
Qed.

Create HintDb folk.

Create Rewrite HintDb folk_rw.
#[export] Hint Rewrite @length_app @length_drop @length_take @length_insert
  @length_replicate @length_fmap : folk_rw.

(** * Lists *)

Lemma lookup_seq_Some_lt (n i j : nat) : seq 0 n !! i = Some j -> j = i /\ i < n.
Proof. intros H%lookup_seq. lia. Qed.

(** Replacing one element of a list changes the flattening by that element's
    part only. *)
Lemma bind_insert_perm {A B} (f : A -> list B) (l : list A) (i : nat) (x : A) :
  l !! i = Some x ->
  exists rest, l ≫= f ≡ₚ f x ++ rest /\ forall y, <[i := y]> l ≫= f ≡ₚ f y ++ rest.
Proof.
  intros Hi. exists ((take i l ≫= f) ++ (drop (S i) l ≫= f)).
  assert (i < length l) by (by eapply lookup_lt_Some). split.
  - rewrite <- (take_drop_middle l i x) at 1 by done. rewrite bind_app, bind_cons. solve_Permutation.
  - intros y. rewrite insert_take_drop, bind_app, bind_cons by done. solve_Permutation.
Qed.

Lemma bind_insert_submseteq {A B} (f : A -> list B) (l : list A) (i : nat) (x y : A) (extra : list B) :
  l !! i = Some x -> f y ⊆+ f x ++ extra -> <[i := y]> l ≫= f ⊆+ (l ≫= f) ++ extra.
Proof.
  intros Hi Hle. destruct (bind_insert_perm f l i x Hi) as (rest & -> & ->).
  transitivity ((f x ++ extra) ++ rest); [by apply submseteq_skips_r|].
  apply Permutation_submseteq. solve_Permutation.
Qed.

Lemma bind_app_perm {A B} (f g : A -> list B) (l : list A) :
  (l ≫= fun x => f x ++ g x) ≡ₚ (l ≫= f) ++ (l ≫= g).
Proof. induction l as [|x l IH]; csimpl; [done|]. rewrite IH. solve_Permutation. Qed.

(** Elements told apart by a key. *)
Lemma NoDup_fmap_key {A B} (f : A -> B) (l : list A) x y :
  NoDup (f <$> l) -> x ∈ l -> y ∈ l -> f x = f y -> x = y.
Proof.
  induction l as [|z l IH]; csimpl; intros Hnd Hx Hy Heq; [by apply elem_of_nil in Hx|].
  apply NoDup_cons in Hnd as [Hz Hnd].
  apply elem_of_cons in Hx as [->|Hx], Hy as [->|Hy]; [done| | |by apply IH].
  - destruct Hz. rewrite Heq. by apply list_elem_of_fmap_2.
  - destruct Hz. rewrite <- Heq. by apply list_elem_of_fmap_2.
Qed.

(** Keys that are distinct over a flattened list lie in one of its parts. *)
Lemma NoDup_bind_key {A B C} (f : B -> C) (g : A -> list B) (l : list A) i j a b x y :
  NoDup (f <$> (l ≫= g)) -> l !! i = Some a -> l !! j = Some b -> x ∈ g a -> y ∈ g b ->
  f x = f y -> i = j.
Proof.
  revert i j; induction l as [|c l IH]; intros i j Hnd Hi Hj Hx Hy Heq; [done|].
  rewrite bind_cons, fmap_app in Hnd. apply NoDup_app in Hnd as (_ & Hdisj & Hnd).
  assert (forall k d z, l !! k = Some d -> z ∈ g d -> f z ∈ f <$> (l ≫= g)) as Hrest.
  { intros k d z Hk Hz. apply list_elem_of_fmap_2, list_elem_of_bind. exists d.
    split; [done|by eapply list_elem_of_lookup_2]. }
  destruct i as [|i], j as [|j]; simplify_eq/=; [done| | |f_equal; by eapply IH].
  - destruct (Hdisj (f x)); [by apply list_elem_of_fmap_2|]. rewrite Heq. by eapply Hrest.
  - destruct (Hdisj (f y)); [by apply list_elem_of_fmap_2|]. rewrite <- Heq. by eapply Hrest.
Qed.

Lemma sum_list_insert {A} (f : A -> nat) (l : list A) i x y :
  l !! i = Some x -> sum_list (f <$> <[i := y]> l) + f x = sum_list (f <$> l) + f y.
Proof.
  revert i; induction l as [|z l IH]; intros [|i] Hi; simplify_eq/=; [lia|].
  specialize (IH i Hi). lia.
Qed.

(** * Well-founded steps of a family *)

(** One member of a family takes a step. *)
Definition member_step {A} (R : A -> A -> Prop) (m' m : gmap nat A) : Prop :=
  exists i x x', m !! i = Some x /\ R x' x /\ m' = <[i := x']> m.

(** A family comes to rest if each of its members does. *)
Lemma member_step_acc {A} (R : A -> A -> Prop) (m : gmap nat A) :
  (forall x, Acc R x) -> Acc (member_step R) m.
Proof.
  intros HR. induction m as [|i x m Hi IH] using map_ind.
  { constructor. intros m' (i & x & x' & Hi & _). by rewrite lookup_empty in Hi. }
  revert Hi. specialize (HR x). revert x HR.
  induction IH as [m _ IHm]. intros x Hx. induction Hx as [x Hx IHx]. intros Hi.
  constructor. intros m' (j & y & y' & Hj & Hstep & ->).
  destruct (decide (j = i)) as [->|Hne].
  - rewrite lookup_insert_eq in Hj. simplify_eq. rewrite insert_insert_eq. by apply IHx.
  - rewrite lookup_insert_ne in Hj by done. rewrite insert_insert_ne by done.
    apply (IHm (<[j := y']> m)); [by exists j, y, y'|by constructor|by rewrite lookup_insert_ne].
Qed.
