(* ===== verification/Config.v ===== *)
(** Configuration ([crates/folk-core/src/config.rs]): the configuration records
    with their defaults, [WorkersConfig::normalize], the effective log filter
    and the layering of [FolkConfig::load_from].

    Durations are nanoseconds, as [std::time::Duration] keeps them.  [figment]
    is not part of the repository: the operations [load_from] calls are the
    class [Figment], and what it relies on is the class [FigmentLaws]. *)

From S2P Require Import Prelude.

(** [Duration::from_secs] and [Duration::from_millis]. *)
Definition from_secs (s : Z) : Z := (s * 1000000000)%Z.
Definition from_millis (ms : Z) : Z := (ms * 1000000)%Z.

(** * Data *)

Record ServerConfig := mkServerConfig {
  rpc_socket : string;
  shutdown_timeout : Z;
}.

Definition ServerConfig_default : ServerConfig := {|
  rpc_socket := "/tmp/folk.sock";
  shutdown_timeout := from_secs 30;
|}.

Record WorkersConfig := mkWorkersConfig {
  script : string;
  php : string;
  count : nat;
  max_concurrent_per_worker : Z;
  max_jobs : Z;
  ttl : Z;
  exec_timeout : Z;
  boot_timeout : Z;
  warmup : bool;
}.

Definition WorkersConfig_default : WorkersConfig := {|
  script := "vendor/bin/folk-worker";
  php := "php";
  count := 4;
  max_concurrent_per_worker := 1;
  max_jobs := 1000;
  ttl := from_secs 3600;
  exec_timeout := from_secs 30;
  boot_timeout := from_secs 30;
  warmup := true;
|}.

Inductive LogFormat := Text | Json | Pretty.

#[export] Instance LogFormat_eq_dec : EqDecision LogFormat.
Proof. solve_decision. Defined.

Record LogConfig := mkLogConfig {
  filter : string;
  format : LogFormat;
  plugins : gmap string string;
}.

Definition LogConfig_default : LogConfig := {|
  filter := "info";
  format := Text;
  plugins := ∅;
|}.

Record DevConfig := mkDevConfig {
  dev_watch : bool;
  watch_paths : list string;
  watch_extensions : list string;
  debounce : Z;
}.

Definition DevConfig_default : DevConfig := {|
  dev_watch := false;
  watch_paths := ["app"; "src"; "routes"; "config"];
  watch_extensions := ["php"];
  debounce := from_millis 300;
|}.

Record FolkConfig := mkFolkConfig {
  server : ServerConfig;
  workers : WorkersConfig;
  log : LogConfig;
  dev : DevConfig;
}.

Definition FolkConfig_default : FolkConfig := {|
  server := ServerConfig_default;
  workers := WorkersConfig_default;
  log := LogConfig_default;
  dev := DevConfig_default;
|}.

(** * [WorkersConfig::normalize] *)

Definition set_max_concurrent (n : Z) (w : WorkersConfig) : WorkersConfig := {|
  script := script w; php := php w; count := count w;
  max_concurrent_per_worker := n;
  max_jobs := max_jobs w; ttl := ttl w; exec_timeout := exec_timeout w;
  boot_timeout := boot_timeout w; warmup := warmup w;
|}.

Definition normalize (self : WorkersConfig) : WorkersConfig :=
  if (1 <? max_concurrent_per_worker self)%Z then set_max_concurrent 1 self
  else if (max_concurrent_per_worker self =? 0)%Z then set_max_concurrent 1 self
  else self.

(** * [LogConfig::effective_filter] *)

Definition plugin_name_to_target (name : string) : string :=
  if decide (name = "http") then "folk_plugin_http"
  else if decide (name = "jobs") then "folk_plugin_jobs"
  else if decide (name = "grpc") then "folk_plugin_grpc"
  else if decide (name = "metrics") then "folk_plugin_metrics"
  else if decide (name = "process") then "folk_plugin_process"
  else if decide (name = "core") then "folk_core"
  else if decide (name = "ext") then "folk_ext"
  else name.

(** [format!("{target}={level}")]. *)
Definition directive (pl : string * string) : string :=
  plugin_name_to_target pl.1 +:+ "=" +:+ pl.2.

(** [parts.join(",")]. *)
Fixpoint join_comma (parts : list string) : string :=
  match parts with
  | [] => ""
  | [p] => p
  | p :: ps => p +:+ "," +:+ join_comma ps
  end.

Definition effective_filter `{HashOrder} (self : LogConfig) : string :=
  if decide (plugins self = ∅) then filter self
  else join_comma (filter self :: (directive <$> hash_iter (plugins self))).

(** * [FolkConfig::load_from] *)

(** The operations of [figment] the loader calls. *)
Class Figment := {
  figment : Type;
  serialized_defaults : FolkConfig -> figment;
  toml_file : string -> figment;
  env_prefixed_split : string -> string -> figment;
  merge : figment -> figment -> figment;
  extract : figment -> result FolkConfig;
}.

Definition load_from `{Figment} (path : string) (path_exists : bool) : result FolkConfig :=
  let fig := serialized_defaults FolkConfig_default in
  let fig := if path_exists then merge fig (toml_file path) else fig in
  let fig := merge fig (env_prefixed_split "FOLK_" "__") in
  context "failed to parse Folk configuration" (extract fig).

Definition load `{Figment} (path_exists : bool) : result FolkConfig :=
  load_from "folk.toml" path_exists.

(** What [figment] documents: [merge] takes the value of its argument where
    both have one, and [extract] reads the merged values into the record. *)
Class FigmentLaws `{Figment} (key val : Type) := {
  find_value : figment -> key -> option val;
  config_value : FolkConfig -> key -> option val;
  find_merge f g k :
    find_value (merge f g) k =
      match find_value g k with Some v => Some v | None => find_value f k end;
  find_defaults c k : find_value (serialized_defaults c) k = config_value c k;
  extract_value f c k : extract f = Ok c -> config_value c k = find_value f k;
}.

(** * Theorems *)

(** After [normalize] a worker handles exactly one request at a time,
    whatever the configuration asked for; nothing else of the configuration
    changes and a second call changes nothing. *)
Theorem normalize_spec (w : WorkersConfig) (Hnn : (0 <= max_concurrent_per_worker w)%Z) :
  max_concurrent_per_worker (normalize w) = 1%Z
  /\ set_max_concurrent (max_concurrent_per_worker w) (normalize w) = w
  /\ normalize (normalize w) = normalize w.
Proof.
  unfold normalize. destruct w as [s p c m j t e b wu]; simpl in *.
  destruct (Z.ltb_spec 1 m); [done|].
  destruct (Z.eqb_spec m 0); [by subst|].
  assert (m = 1)%Z as -> by lia. done.
Qed.

Lemma normalize_spec_witness :
  max_concurrent_per_worker (normalize (set_max_concurrent 7 WorkersConfig_default)) = 1%Z.
Proof. refine (proj1 (normalize_spec (set_max_concurrent 7 WorkersConfig_default) _)). simpl. lia. Defined.

(** [split(',')], the reading of a filter string as directives. *)
Fixpoint split_comma (s : string) : list string :=
  match s with
  | EmptyString => [""]
  | String c s' =>
      if decide (c = ","%char) then "" :: split_comma s'
      else match split_comma s' with
           | w :: ws => String c w :: ws
           | [] => [String c ""]
           end
  end.

Fixpoint no_comma (s : string) : bool :=
  match s with
  | EmptyString => true
  | String c s' => if decide (c = ","%char) then false else no_comma s'
  end.

Lemma split_comma_nonempty s : split_comma s <> [].
Proof. destruct s; simpl; [done|]. case_goal; done. Qed.

Lemma split_comma_app s t :
  split_comma (s +:+ "," +:+ t) = split_comma s ++ split_comma t.
Proof.
  induction s as [|c s IH]; [done|].
  change (String c s +:+ "," +:+ t) with (String c (s +:+ "," +:+ t)).
  simpl split_comma. case_decide; simpl; [by rewrite IH|].
  rewrite IH. pose proof (split_comma_nonempty s). by destruct (split_comma s).
Qed.

Lemma split_comma_single s : no_comma s = true -> split_comma s = [s].
Proof.
  induction s as [|c s IH]; simpl; [done|]. case_decide; [done|].
  intros ->%IH. done.
Qed.

Lemma split_join p ps :
  split_comma (join_comma (p :: ps)) = split_comma p ++ (ps ≫= split_comma).
Proof.
  revert p; induction ps as [|q ps IH]; intros p.
  - simpl. by rewrite app_nil_r.
  - change (join_comma (p :: q :: ps)) with (p +:+ "," +:+ join_comma (q :: ps)).
    rewrite split_comma_app, IH. done.
Qed.

Lemma bind_split_single ps :
  Forall (fun p => no_comma p = true) ps -> ps ≫= split_comma = ps.
Proof.
  induction 1 as [|p ps Hp _ IH]; [done|]. csimpl.
  rewrite (split_comma_single _ Hp), IH. done.
Qed.

(** Whatever order the hash map is iterated in, the effective filter reads
    back as the directives of [filter] followed by exactly one
    [target=level] directive per plugin override, and without overrides it is
    [filter] itself. *)
Theorem effective_filter_directives `{HashOrder} (self : LogConfig)
    (Hcomma : map_Forall (fun n l => no_comma (directive (n, l)) = true) (plugins self)) :
  split_comma (effective_filter self) ≡ₚ
    split_comma (filter self) ++ (directive <$> map_to_list (plugins self))
  /\ (plugins self = ∅ -> effective_filter self = filter self).
Proof.
  unfold effective_filter. case_decide as Hempty.
  - rewrite Hempty, map_to_list_empty, app_nil_r. done.
  - split; [|done]. rewrite split_join, bind_split_single; [by rewrite hash_iter_perm|].
    apply Forall_fmap, Forall_forall. intros [n l] Hin.
    apply elem_of_hash_iter in Hin. exact (Hcomma _ _ Hin).
Qed.

Lemma effective_filter_directives_witness :
  split_comma (effective_filter (H := some_order)
    {| filter := "info"; format := Text; plugins := {[ "http" := "warn" ]} |})
  ≡ₚ ["info"; "folk_plugin_http=warn"].
Proof.
  refine (proj1 (effective_filter_directives (H := some_order)
    {| filter := "info"; format := Text; plugins := {[ "http" := "warn" ]} |} _)).
  apply map_Forall_singleton. reflexivity.
Defined.

(** Layering: a value the environment sets wins over the file, a value the
    file sets (when the file exists) wins over the default, and a missing file
    is not an error of its own. *)
Theorem load_from_precedence `{FL : FigmentLaws key val} path (path_exists : bool) cfg k
    (Hload : load_from path path_exists = Ok cfg) :
  config_value cfg k =
    match find_value (env_prefixed_split "FOLK_" "__") k with
    | Some v => Some v
    | None =>
        match (if path_exists then find_value (toml_file path) k else None) with
        | Some v => Some v
        | None => config_value FolkConfig_default k
        end
    end.
Proof.
  unfold load_from, context in Hload. case_hyp Hload.
  match goal with H : extract _ = Ok _ |- _ => rewrite (extract_value _ _ k H) end.
  destruct path_exists; rewrite ?find_merge, ?find_defaults; case_goal; congruence.
Qed.

(** A sample provider for the witness: one key, a layer either sets it or not. *)
Module SampleFigment.
#[export] Instance layers : Figment := {|
  figment := option nat;
  serialized_defaults c := Some (count (workers c));
  toml_file _ := Some 16;
  env_prefixed_split _ _ := None;
  merge f g := match g with Some v => Some v | None => f end;
  extract f :=
    match f with
    | Some n => Ok {| server := ServerConfig_default;
                      workers := {| script := ""; php := ""; count := n;
                        max_concurrent_per_worker := 1; max_jobs := 1; ttl := 1;
                        exec_timeout := 1; boot_timeout := 1; warmup := true |};
                      log := LogConfig_default; dev := DevConfig_default |}
    | None => Err "missing field"
    end;
|}.

#[export] Instance layers_laws : FigmentLaws unit nat.
Proof.
  refine {| find_value f _ := f; config_value c _ := Some (count (workers c)) |}.
  - done.
  - done.
  - intros [n|] c k H; simpl in H; by simplify_eq.
Defined.
End SampleFigment.

Lemma load_from_precedence_witness :
  exists cfg, load_from (H := SampleFigment.layers) "folk.toml" true = Ok cfg
    /\ Some (count (workers cfg)) = Some 16.
Proof.
  eexists; split; [reflexivity|].
  exact (load_from_precedence (FL := SampleFigment.layers_laws) "folk.toml" true _ tt eq_refl).
Defined.
