(* ===== verification/WorkerSlot.v ===== *)
(** Per-slot state ([crates/folk-core/src/worker_slot.rs]): [SlotState],
    [SlotInfo] and its transitions.

    The transitions are those of a build with debug assertions: [None] is the
    panic of a failed [debug_assert!] or of an overflowing [+= 1].  Instants are
    nanoseconds since an arbitrary origin; [Instant::elapsed] takes the reading
    of the clock as an argument and saturates at zero. *)

From S2P Require Import Prelude.
From S2P Require Import Config.

Inductive SlotState := Spawning | Idle | Busy | Stopping | Dead.

#[export] Instance SlotState_eq_dec : EqDecision SlotState.
Proof. solve_decision. Defined.

Record SlotInfo := mkSlotInfo {
  state : SlotState;
  pid : option Z;
  jobs_handled : Z;
  created_at : Z;
}.

(** [SlotInfo::new]; [now] is [Instant::now()]. *)
Definition SlotInfo_new (now : Z) : SlotInfo := {|
  state := Spawning; pid := None; jobs_handled := 0; created_at := now;
|}.

(** [Instant::elapsed]. *)
Definition elapsed (created now : Z) : Z := Z.max 0 (now - created).

Definition should_recycle (self : SlotInfo) (cfg : WorkersConfig) (now : Z) : bool :=
  if (max_jobs cfg <=? jobs_handled self)%Z then true
  else if (ttl cfg <=? elapsed (created_at self) now)%Z then true
  else false.

Definition set_state (s : SlotState) (self : SlotInfo) : SlotInfo := {|
  state := s; pid := pid self; jobs_handled := jobs_handled self;
  created_at := created_at self;
|}.

Definition mark_ready (self : SlotInfo) (p : Z) : option SlotInfo :=
  if decide (state self = Spawning) then
    Some {| state := Idle; pid := Some p; jobs_handled := jobs_handled self;
            created_at := created_at self |}
  else None.

Definition mark_busy (self : SlotInfo) : option SlotInfo :=
  if decide (state self = Idle) then Some (set_state Busy self) else None.

Definition mark_idle (self : SlotInfo) : option SlotInfo :=
  if decide (state self = Busy \/ state self = Stopping) then
    if decide (jobs_handled self = u64_max) then None
    else
      let self := {| state := state self; pid := pid self;
                     jobs_handled := jobs_handled self + 1;
                     created_at := created_at self |} in
      Some (if decide (state self = Busy) then set_state Idle self else self)
  else None.

Definition mark_dead (self : SlotInfo) : SlotInfo := set_state Dead self.

Definition request_stop (self : SlotInfo) : SlotInfo :=
  if decide (state self = Idle \/ state self = Busy) then set_state Stopping self
  else self.

(** * Every transition as one machine *)

(** The calls a supervisor can make on its slot. *)
Inductive slot_op := OpReady (p : Z) | OpBusy | OpIdle | OpDead | OpStop.

Definition slot_apply (op : slot_op) (s : SlotInfo) : option SlotInfo :=
  match op with
  | OpReady p => mark_ready s p
  | OpBusy => mark_busy s
  | OpIdle => mark_idle s
  | OpDead => Some (mark_dead s)
  | OpStop => Some (request_stop s)
  end.

(** The transitions the documentation of [SlotState] describes. *)
Inductive slot_edge : slot_op -> SlotState -> SlotState -> Prop :=
| edge_ready p : slot_edge (OpReady p) Spawning Idle
| edge_busy : slot_edge OpBusy Idle Busy
| edge_idle : slot_edge OpIdle Busy Idle
| edge_drain : slot_edge OpIdle Stopping Stopping
| edge_stop s : s = Idle \/ s = Busy -> slot_edge OpStop s Stopping
| edge_stop_noop s : s <> Idle -> s <> Busy -> slot_edge OpStop s s
| edge_dead s : slot_edge OpDead s Dead.

(** Requests completed on the slot by a sequence of calls. *)
Fixpoint idle_count (ops : list slot_op) : Z :=
  match ops with
  | [] => 0
  | OpIdle :: ops => 1 + idle_count ops
  | _ :: ops => idle_count ops
  end.

Ltac slot_cases :=
  unfold slot_apply, mark_ready, mark_busy, mark_idle, mark_dead, request_stop in *;
  repeat (case_decide || match goal with H : context [decide _] |- _ => case_decide end);
  simplify_eq/=.

(** A slot call either panics or follows an edge of the documented state
    machine, and completing a request is the only call that counts a job. *)
Lemma slot_apply_edge op s s' :
  slot_apply op s = Some s' ->
  slot_edge op (state s) (state s')
  /\ jobs_handled s' = (jobs_handled s + idle_count [op])%Z
  /\ created_at s' = created_at s.
Proof.
  intros H. destruct s as [st p j c], op; slot_cases;
    repeat match goal with H : _ \/ _ |- _ => destruct H; simplify_eq/= end;
    (split; [|split]; [|lia|done]);
    try (by constructor); try (apply edge_stop; tauto);
    try (apply edge_stop_noop; tauto).
Qed.

(** ** The documented machine

    The states a call goes from and to, as the documentation of [SlotState] and
    of the methods has it; [None] where the call is an error. *)
Definition documented (op : slot_op) (s : SlotState) : option SlotState :=
  match op, s with
  | OpReady _, Spawning => Some Idle
  | OpBusy, Idle => Some Busy
  | OpIdle, Busy => Some Idle
  | OpIdle, Stopping => Some Stopping
  | OpStop, (Idle | Busy) => Some Stopping
  | OpStop, (Spawning | Stopping | Dead) => Some s
  | OpDead, _ => Some Dead
  | _, _ => None
  end.

(** The pid a sequence of calls leaves in a slot that has [pid]. *)
Fixpoint pid_after (ops : list slot_op) (pid : option Z) : option Z :=
  match ops with
  | [] => pid
  | OpReady p :: ops => pid_after ops (Some p)
  | _ :: ops => pid_after ops pid
  end.

Lemma slot_apply_documented op s :
  (jobs_handled s < u64_max)%Z ->
  match slot_apply op s with
  | Some s' => documented op (state s) = Some (state s') /\ pid s' = pid_after [op] (pid s)
  | None => documented op (state s) = None
  end.
Proof.
  intros Hj. destruct s as [st p j c], op, st; simpl in *; try done.
  all: unfold mark_idle; simpl; destruct (decide (j = u64_max)); [lia|done].
Qed.

(** C32. The slot is the documented state machine: a sequence of calls trips an
    assertion exactly when the documentation has no edge for one of them, and
    otherwise leaves the slot in the documented state, with the pid it was made
    ready with, the number of completed requests as its job counter, and the
    time of its creation, so [max_jobs] and [ttl] are measured over the life of
    the worker. *)
Theorem slot_run_counts ops now (Hlen : (Z.of_nat (length ops) <= u64_max)%Z) :
  match run slot_apply ops (SlotInfo_new now) with
  | Some s => run documented ops Spawning = Some (state s)
      /\ pid s = pid_after ops None /\ jobs_handled s = idle_count ops /\ created_at s = now
  | None => run documented ops Spawning = None
  end.
Proof.
  cut (forall s0, (jobs_handled s0 + Z.of_nat (length ops) <= u64_max)%Z ->
    match run slot_apply ops s0 with
    | Some s => run documented ops (state s0) = Some (state s)
        /\ pid s = pid_after ops (pid s0) /\ jobs_handled s = (jobs_handled s0 + idle_count ops)%Z
        /\ created_at s = created_at s0
    | None => run documented ops (state s0) = None
    end).
  { intros Hgen. exact (Hgen (SlotInfo_new now) Hlen). }
  clear Hlen. induction ops as [|op ops IH]; intros s0 Hlen; cbn [run].
  { split_and!; [done|done|simpl; lia|done]. }
  cbn [length] in Hlen. rewrite Nat2Z.inj_succ in Hlen.
  assert (jobs_handled s0 < u64_max)%Z as Hlt by lia. pose proof (slot_apply_documented op s0 Hlt) as Hdoc.
  destruct (slot_apply op s0) as [s1|] eqn:Hop; [|by rewrite Hdoc].
  destruct Hdoc as [-> Hpid]. destruct (slot_apply_edge _ _ _ Hop) as (_ & Hj & Hc). simpl.
  specialize (IH s1). destruct (run slot_apply ops s1) as [s2|].
  - destruct IH as (Hrun & Hp & Hjobs & Hcr); [rewrite Hj; destruct op; cbn [idle_count]; lia|].
    split_and!; [done|rewrite Hp, Hpid; by destruct op| |congruence].
    rewrite Hjobs, Hj. destruct op; cbn [idle_count]; lia.
  - apply IH. rewrite Hj. destruct op; cbn [idle_count]; lia.
Qed.

Lemma slot_run_counts_witness :
  exists s, run slot_apply [OpReady 7; OpBusy; OpStop; OpIdle] (SlotInfo_new 5) = Some s
    /\ Some Stopping = Some (state s) /\ jobs_handled s = 1%Z
    /\ run slot_apply [OpReady 7; OpStop; OpBusy] (SlotInfo_new 5) = None.
Proof.
  pose proof (slot_run_counts [OpReady 7; OpBusy; OpStop; OpIdle] 5 ltac:(vm_compute; discriminate))
    as (Hst & _ & Hj & _).
  eexists; split_and!; [reflexivity|exact Hst|exact Hj|reflexivity].
Defined.

(** * Recycling policy *)

Lemma should_recycle_spec s cfg now :
  should_recycle s cfg now = true <->
  (max_jobs cfg <= jobs_handled s)%Z \/ (ttl cfg <= elapsed (created_at s) now)%Z.
Proof.
  unfold should_recycle.
  destruct (Z.leb_spec (max_jobs cfg) (jobs_handled s)); [by split; [left|]|].
  destruct (Z.leb_spec (ttl cfg) (elapsed (created_at s) now)); [by split; [right|]|].
  split; [done|]. lia.
Qed.

#[export] Hint Resolve slot_apply_edge : folk.
