(* ===== verification/Text.v ===== *)
(** The text functions of the Rust standard library the program relies on:
    UTF-8 validation and [String::from_utf8_lossy], ASCII case folding and the
    null-byte check of [CString::new].

    A Rust [String] is its UTF-8 bytes, kept as a [string] (8-bit characters);
    a byte buffer is a [list byte]. *)

From S2P Require Import Prelude.

(** * UTF-8 *)

Definition byte_Z (b : byte) : Z := Z.of_N (Byte.to_N b).

Definition in_range (lo hi : Z) (b : byte) : bool :=
  (lo <=? byte_Z b)%Z && (byte_Z b <=? hi)%Z.

(** [b & 192 == 128]. *)
Definition is_cont (b : byte) : bool := in_range 128 191 b.

(** [utf8_char_width]: the length announced by a leading byte, 0 when the byte
    cannot start a character. *)
Definition utf8_char_width (b : byte) : nat :=
  if in_range 0 127 b then 1
  else if in_range 194 223 b then 2
  else if in_range 224 239 b then 3
  else if in_range 240 244 b then 4
  else 0.

(** The second byte a three- or four-byte character admits. *)
Definition second_ok (b c : byte) : bool :=
  if in_range 224 224 b then in_range 160 191 c
  else if in_range 237 237 b then in_range 128 159 c
  else if in_range 240 240 b then in_range 144 191 c
  else if in_range 244 244 b then in_range 128 143 c
  else is_cont c.

(** The segments of a buffer: each is either one character, or a maximal
    invalid prefix of one, the unit that [from_utf8_lossy] replaces. *)
Inductive segment := Char (bs : bytes) | Invalid (bs : bytes).

Definition segment_bytes (s : segment) : bytes :=
  match s with Char bs | Invalid bs => bs end.

Fixpoint utf8_chunks (bs : bytes) : list segment :=
  match bs with
  | [] => []
  | b :: r =>
      match utf8_char_width b with
      | 1 => Char [b] :: utf8_chunks r
      | 2 =>
          match r with
          | c1 :: r1 =>
              if is_cont c1 then Char [b; c1] :: utf8_chunks r1
              else Invalid [b] :: utf8_chunks r
          | [] => [Invalid [b]]
          end
      | 3 =>
          match r with
          | c1 :: r1 =>
              if second_ok b c1 then
                match r1 with
                | c2 :: r2 =>
                    if is_cont c2 then Char [b; c1; c2] :: utf8_chunks r2
                    else Invalid [b; c1] :: utf8_chunks r1
                | [] => [Invalid [b; c1]]
                end
              else Invalid [b] :: utf8_chunks r
          | [] => [Invalid [b]]
          end
      | 4 =>
          match r with
          | c1 :: r1 =>
              if second_ok b c1 then
                match r1 with
                | c2 :: r2 =>
                    if is_cont c2 then
                      match r2 with
                      | c3 :: r3 =>
                          if is_cont c3 then Char [b; c1; c2; c3] :: utf8_chunks r3
                          else Invalid [b; c1; c2] :: utf8_chunks r2
                      | [] => [Invalid [b; c1; c2]]
                      end
                    else Invalid [b; c1] :: utf8_chunks r1
                | [] => [Invalid [b; c1]]
                end
              else Invalid [b] :: utf8_chunks r
          | [] => [Invalid [b]]
          end
      | _ => Invalid [b] :: utf8_chunks r
      end
  end.

(** [std::str::from_utf8(bs).is_ok()]. *)
Definition valid_utf8 (bs : bytes) : bool :=
  forallb (fun s => match s with Char _ => true | Invalid _ => false end) (utf8_chunks bs).

(** U+FFFD REPLACEMENT CHARACTER. *)
Definition replacement : bytes := [xef; xbf; xbd].

Definition lossy_bytes (bs : bytes) : bytes :=
  utf8_chunks bs ≫= (fun s => match s with Char c => c | Invalid _ => replacement end).

(** [String::from_utf8_lossy]. *)
Definition from_utf8_lossy (bs : bytes) : string := String.string_of_list_byte (lossy_bytes bs).

(** [str::as_bytes]. *)
Definition as_bytes (s : string) : bytes := String.list_byte_of_string s.

Ltac utf8_cases :=
  repeat match goal with
         | |- context [ utf8_char_width ?b ] =>
             let H := fresh "Hw" in destruct (utf8_char_width b) as [|[|[|[|[|?]]]]] eqn:H
         | |- context [ if is_cont ?c then _ else _ ] =>
             let H := fresh "Hc" in destruct (is_cont c) eqn:H
         | |- context [ if second_ok ?b ?c then _ else _ ] =>
             let H := fresh "Hs" in destruct (second_ok b c) eqn:H
         | |- context [ match ?l with [] => _ | _ :: _ => _ end ] => is_var l; destruct l
         end.

(** Induction over a buffer by its length, for functions that consume it one
    character at a time. *)
Lemma bytes_length_ind (P : bytes -> Prop) :
  (forall bs, (forall bs', length bs' < length bs -> P bs') -> P bs) -> forall bs, P bs.
Proof. intros H bs. apply (Nat.measure_induction _ (length (A:=byte))). exact H. Qed.

Lemma utf8_chunks_concat bs : utf8_chunks bs ≫= segment_bytes = bs.
Proof.
  induction bs as [[|b r] IH] using bytes_length_ind; [done|].
  cbn [utf8_chunks]. utf8_cases; rewrite ?bind_cons; cbn [segment_bytes];
    try (rewrite IH by (simpl; lia)); done.
Qed.

Lemma lossy_valid bs : valid_utf8 bs = true -> lossy_bytes bs = bs.
Proof.
  intros Hv. rewrite <- (utf8_chunks_concat bs) at 2. unfold valid_utf8, lossy_bytes in *.
  induction (utf8_chunks bs) as [|[c|c] l IH]; csimpl in *; [done| |done].
  by rewrite IH.
Qed.

(** A whole character stays a character in front of any text. *)
Definition is_char (c : bytes) : Prop :=
  forall rest, utf8_chunks (c ++ rest) = Char c :: utf8_chunks rest.

Lemma replacement_is_char : is_char replacement.
Proof. intros rest. reflexivity. Qed.

Lemma utf8_chunks_chars bs :
  Forall (fun s => match s with Char c => is_char c | Invalid _ => True end) (utf8_chunks bs).
Proof.
  induction bs as [[|b r] IH] using bytes_length_ind; [constructor|].
  cbn [utf8_chunks]. utf8_cases; try (constructor; [try done|try apply IH; simpl; try lia]);
    try constructor; intros rest; cbn [app utf8_chunks];
    repeat match goal with H : _ = _ |- _ => rewrite H; clear H end; done.
Qed.

Lemma lossy_is_valid bs : valid_utf8 (lossy_bytes bs) = true.
Proof.
  unfold lossy_bytes. pose proof (utf8_chunks_chars bs) as Hc.
  induction Hc as [|s l Hs _ IH]; [done|]. csimpl.
  assert (is_char (match s with Char c => c | Invalid _ => replacement end)) as Hch
    by (destruct s; [done|apply replacement_is_char]).
  unfold valid_utf8 in *. rewrite Hch. done.
Qed.

(** Lossy decoding leaves valid UTF-8 alone and always yields valid UTF-8, so
    decoding twice is decoding once. *)
Lemma lossy_idempotent bs : lossy_bytes (lossy_bytes bs) = lossy_bytes bs.
Proof. apply lossy_valid, lossy_is_valid. Qed.

Lemma from_utf8_lossy_valid bs :
  valid_utf8 bs = true -> as_bytes (from_utf8_lossy bs) = bs.
Proof.
  intros Hv. unfold as_bytes, from_utf8_lossy.
  by rewrite String.list_byte_of_string_of_list_byte, lossy_valid.
Qed.

#[export] Hint Resolve lossy_valid lossy_is_valid : folk.

(** * ASCII case *)

(** [char::to_ascii_lowercase] on one byte. *)
Definition ascii_lower (c : ascii) : ascii :=
  let n := nat_of_ascii c in
  if (65 <=? n) && (n <=? 90) then ascii_of_nat (n + 32) else c.

(** [str::to_ascii_lowercase]. *)
Fixpoint to_ascii_lowercase (s : string) : string :=
  match s with
  | EmptyString => EmptyString
  | String c s => String (ascii_lower c) (to_ascii_lowercase s)
  end.

Lemma ascii_lower_idemp c : ascii_lower (ascii_lower c) = ascii_lower c.
Proof. destruct c as [[] [] [] [] [] [] [] []]; reflexivity. Qed.

Lemma to_ascii_lowercase_idemp s :
  to_ascii_lowercase (to_ascii_lowercase s) = to_ascii_lowercase s.
Proof. induction s as [|c s IH]; simpl; [done|]. by rewrite ascii_lower_idemp, IH. Qed.

#[export] Hint Rewrite to_ascii_lowercase_idemp : folk_rw.

(** [CString::new] fails on a string with a null byte. *)
Fixpoint has_nul (s : string) : bool :=
  match s with EmptyString => false | String c s => Ascii.eqb c "000" || has_nul s end.
