(* ===== verification/Protocol.v ===== *)
(** The data exchanged between the components: JSON values, the request and
    response messages of [folk_api], and the framing of a response stream.

    [serde_json] and [folk_api] are not part of the repository.  Their data
    types appear by the constructors the sources match on; the functions the
    sources call are the operations of the classes [SerdeJson] and [FolkApi],
    and what the sources rely on is stated as laws. *)

From S2P Require Import Prelude.
From S2P Require Import Text.

(** * JSON values *)

Inductive Value {number : Type} : Type :=
| VNull
| VBool (b : bool)
| VNumber (n : number)
| VString (s : string)
| VArray (l : list Value)
| VObject (m : list (string * Value)).
Arguments Value number : clear implicits.

(** The [serde_json] functions the program calls.  [map_collect] is
    [collect::<Map<_, _>>()], [number_from_u16] the conversion [json!] applies
    to a [u16]. *)
Class SerdeJson := {
  number : Type;
  number_from_u16 : Z -> number;
  map_collect : list (string * Value number) -> list (string * Value number);
  from_slice : bytes -> result (Value number);
  to_vec : Value number -> result bytes;
  to_json_string : Value number -> string;
  value_get : Value number -> string -> option (Value number);
  value_as_str : Value number -> option string;
}.

Abbreviation value := (Value number).

(** [Value::get] finds a key of an object built from distinct keys and nothing
    elsewhere; [Value::as_str] reads strings only.  The order of a map is decided
    by its keys, sorted or as they came: collecting part of a map in its order
    keeps that order. *)
Class SerdeJsonLaws `{SerdeJson} := {
  value_get_object l k :
    NoDup l.*1 -> value_get (VObject (map_collect l)) k = list_to_map (M := gmap string value) l !! k;
  value_get_other v k :
    (forall m, v <> VObject m) -> value_get v k = None;
  value_as_str_string s : value_as_str (VString s) = Some s;
  value_as_str_other v : (forall s, v <> VString s) -> value_as_str v = None;
  map_collect_part m part :
    NoDup m.*1 -> map_collect m = m -> part.*1 `sublist_of` m.*1 -> map_collect part = part;
}.

(** * Messages *)

Record WorkerError := mkWorkerError {
  message : string;
  exception_class : option string;
  stacktrace : option string;
}.

Section messages.
Context `{SerdeJson}.

Inductive ResponseChunk : Type :=
| Headers (status : Z) (headers : gmap string string)
| Body (b : bytes)
| Return (v : value)
| Error (e : WorkerError)
| End.

Inductive RequestPart : Type :=
| PartStart (name : string) (filename content_type : option string)
| PartData (chunk : bytes)
| PartEnd.

(** A streaming body is the receiving end of a channel: the list of what the
    sender will have sent when it closes. *)
Inductive RequestBody : Type :=
| Raw (rx : list bytes)
| Parts (rx : list RequestPart).
End messages.

(** The [folk_api] functions the program calls: [WorkerError::new], its
    [Display], and [value_to_chunks], as the chunks it sends. *)
Class FolkApi `{SerdeJson} := {
  worker_error_new : string -> WorkerError;
  worker_error_display : WorkerError -> string;
  value_to_chunks : value -> list ResponseChunk;
}.

(** * Framing

    What a response stream may look like: at most one [Headers], [Body] chunks
    around it, then either nothing, one [Return] or one [Error], then [End] and
    nothing more.  [frame_run] reads a stream from the left; a prefix of a legal
    stream is legal. *)
Inductive FrameState := FOpen (head : bool) | FFinal | FEnded.

#[export] Instance FrameState_eq_dec : EqDecision FrameState.
Proof. solve_decision. Defined.

Section framing.
Context `{SerdeJson}.

Definition frame_step (s : FrameState) (c : ResponseChunk) : option FrameState :=
  match s, c with
  | FOpen head, Headers _ _ => if head then None else Some (FOpen true)
  | FOpen head, Body _ => Some (FOpen head)
  | FOpen _, Return _ => Some FFinal
  | FOpen _, Error _ => Some FFinal
  | FOpen _, End => Some FEnded
  | FFinal, End => Some FEnded
  | _, _ => None
  end.

Fixpoint frame_run (s : FrameState) (l : list ResponseChunk) : option FrameState :=
  match l with
  | [] => Some s
  | c :: l => match frame_step s c with Some s' => frame_run s' l | None => None end
  end.

(** A stream that is a legal prefix, and one that is finished. *)
Definition well_framed (l : list ResponseChunk) : Prop := is_Some (frame_run (FOpen false) l).
Definition complete (l : list ResponseChunk) : Prop := frame_run (FOpen false) l = Some FEnded.

Definition is_streaming (c : ResponseChunk) : Prop :=
  match c with Headers _ _ | Body _ => True | _ => False end.

Lemma frame_run_app s l1 l2 :
  frame_run s (l1 ++ l2) =
    match frame_run s l1 with Some s' => frame_run s' l2 | None => None end.
Proof. revert s; induction l1 as [|c l1 IH]; intros s; simpl; [done|]. by destruct (frame_step s c). Qed.

Lemma frame_run_ended l : is_Some (frame_run FEnded l) -> l = [].
Proof. destruct l as [|[] l]; simpl; intros [? Hs]; by simplify_eq. Qed.

Lemma frame_run_final l :
  is_Some (frame_run FFinal l) -> l = [] \/ l = [End].
Proof.
  destruct l as [|[] l]; simpl; intros [? Hs]; simplify_eq; [by left|right].
  f_equal. apply frame_run_ended. eauto.
Qed.

Lemma well_framed_prefix l1 l2 : well_framed (l1 ++ l2) -> well_framed l1.
Proof. unfold well_framed. rewrite frame_run_app. destruct (frame_run _ l1); [eauto|intros [? ?]; done]. Qed.

(** The shape of a finished stream. *)
Lemma frame_run_split s l :
  frame_run s l = Some FEnded ->
  (exists head, s = FOpen head) ->
  exists pre fin, l = pre ++ fin ++ [End] /\ Forall is_streaming pre
    /\ (fin = [] \/ (exists v, fin = [Return v]) \/ (exists e, fin = [Error e])).
Proof.
  revert s; induction l as [|c l IH]; intros s Hrun [head ->]; simpl in Hrun; [done|].
  destruct c as [st hd|b|v|e|]; simpl in Hrun.
  - destruct head; [done|].
    apply IH in Hrun as (pre & fin & -> & Hpre & Hfin); [|eauto].
    exists (Headers st hd :: pre), fin. split_and!; [done|by constructor|done].
  - apply IH in Hrun as (pre & fin & -> & Hpre & Hfin); [|eauto].
    exists (Body b :: pre), fin. split_and!; [done|by constructor|done].
  - destruct (frame_run_final l) as [->| ->]; [eauto|done|].
    exists [], [Return v]. split_and!; [done|constructor|eauto].
  - destruct (frame_run_final l) as [->| ->]; [eauto|done|].
    exists [], [Error e]. split_and!; [done|constructor|eauto].
  - rewrite (frame_run_ended l) by eauto.
    exists [], []. split_and!; [done|constructor|eauto].
Qed.
End framing.

(** * A sample instance for evaluating examples *)
Module Sample.
#[export] Instance json : SerdeJson := {|
  number := Z;
  number_from_u16 z := z;
  map_collect l := l;
  from_slice bs :=
    if decide (bs = []) then Err "EOF" else Ok (VString (String.string_of_list_byte bs));
  to_vec v := match v with VString s => Ok (as_bytes s) | _ => Ok [] end;
  to_json_string v := match v with VString s => s | _ => "" end;
  value_get v k :=
    match v with VObject m => list_to_map (M := gmap string (Value Z)) m !! k | _ => None end;
  value_as_str v := match v with VString s => Some s | _ => None end;
|}.

#[export] Instance json_laws : SerdeJsonLaws.
Proof.
  split; simpl.
  - done.
  - intros [] k Hv; try done. by destruct (Hv m).
  - done.
  - intros [] Hv; try done. by destruct (Hv s).
  - done.
Defined.

#[export] Instance api : FolkApi := {|
  worker_error_new m := {| message := m; exception_class := None; stacktrace := None |};
  worker_error_display e := message e;
  value_to_chunks v := [Return v; End];
|}.
End Sample.
