(* ===== verification/Collect.v ===== *)
(** Draining a response stream into one value: [collect_stream]
    ([crates/folk-core/src/worker_pool.rs]), used by the pool's non-streaming
    calls, and [collect_stream_to_value] ([crates/folk-ext/src/runtime.rs]),
    used by [ChannelWorkerHandle::execute].

    The receiver is the list of the chunks that arrive before the channel
    closes: the loop ends at a [break], at an early return, or when the list is
    exhausted ([recv] returned [None]). *)

From S2P Require Import Prelude.
From S2P Require Import Text.
From S2P Require Import Protocol.

Section collect.
Context `{FA : FolkApi} `{HO : !HashOrder}.

(** The local variables of both loops. *)
Record Collected := mkCollected {
  c_status : Z;
  c_headers : gmap string string;
  c_body : bytes;
  c_return : option value;
}.

Definition collected_init : Collected :=
  {| c_status := 200; c_headers := ∅; c_body := []; c_return := None |}.

(** The [{status, headers, body}] object built after either loop. *)
Definition legacy_value (status : Z) (headers : gmap string string) (body : bytes) : value :=
  let headers_value := VObject (map_collect (prod_map id VString <$> hash_iter headers)) in
  VObject (map_collect [
    ("status", VNumber (number_from_u16 status));
    ("headers", headers_value);
    ("body", VString (from_utf8_lossy body))]).

Definition collect_finish (c : Collected) : result value :=
  match c_return c with
  | Some v => Ok v
  | None => Ok (legacy_value (c_status c) (c_headers c) (c_body c))
  end.

(** The [while let Some(chunk) = rx.recv().await] loop of [collect_stream]. *)
Fixpoint collect_loop (rx : list ResponseChunk) (c : Collected) : result value :=
  match rx with
  | [] => collect_finish c
  | chunk :: rx =>
      match chunk with
      | Headers s h =>
          collect_loop rx {| c_status := s; c_headers := h; c_body := c_body c;
                             c_return := c_return c |}
      | Body b =>
          collect_loop rx {| c_status := c_status c; c_headers := c_headers c;
                             c_body := c_body c ++ b; c_return := c_return c |}
      | Return v =>
          collect_loop rx {| c_status := c_status c; c_headers := c_headers c;
                             c_body := c_body c; c_return := Some v |}
      | Error e => Err (worker_error_display e)
      | End => collect_finish c
      end
  end.

Definition collect_stream (rx : list ResponseChunk) : result value :=
  collect_loop rx collected_init.

(** The loop of [collect_stream_to_value], which returns at [Return]. *)
Fixpoint collect_to_value_loop (rx : list ResponseChunk) (status : Z)
    (headers : gmap string string) (body_bytes : bytes) : result value :=
  match rx with
  | [] => Ok (legacy_value status headers body_bytes)
  | chunk :: rx =>
      match chunk with
      | Headers s h => collect_to_value_loop rx s h body_bytes
      | Body b => collect_to_value_loop rx status headers (body_bytes ++ b)
      | Return v => Ok v
      | Error e => Err (worker_error_display e)
      | End => Ok (legacy_value status headers body_bytes)
      end
  end.

Definition collect_stream_to_value (rx : list ResponseChunk) : result value :=
  collect_to_value_loop rx 200 ∅ [].

(** * Specification *)

(** The status and headers of the last [Headers] chunk of a stream. *)
Fixpoint last_head (pre : list ResponseChunk) (dflt : Z * gmap string string) :=
  match pre with
  | [] => dflt
  | Headers s h :: pre => last_head pre (s, h)
  | _ :: pre => last_head pre dflt
  end.

Fixpoint body_of (pre : list ResponseChunk) : bytes :=
  match pre with
  | [] => []
  | Body b :: pre => b ++ body_of pre
  | _ :: pre => body_of pre
  end.

(** The result a consumer is promised for the chunks [pre] followed by what
    finishes the stream. *)
Definition stream_result (pre fin : list ResponseChunk) : result value :=
  match fin with
  | Return v :: _ => Ok v
  | Error e :: _ => Err (worker_error_display e)
  | _ => let h := last_head pre (200%Z, ∅) in Ok (legacy_value h.1 h.2 (body_of pre))
  end.

Lemma collect_loop_streaming pre rest s h b :
  Forall is_streaming pre ->
  collect_loop (pre ++ rest)
    {| c_status := s; c_headers := h; c_body := b; c_return := None |} =
  collect_loop rest
    {| c_status := (last_head pre (s, h)).1; c_headers := (last_head pre (s, h)).2;
       c_body := b ++ body_of pre; c_return := None |}.
Proof.
  intros Hpre. revert s h b; induction Hpre as [|c pre Hc _ IH]; intros s h b; simpl.
  - by rewrite app_nil_r.
  - destruct c; try done; simpl; rewrite IH, <- ?(assoc_L (++)); done.
Qed.

Lemma collect_to_value_streaming pre rest s h b :
  Forall is_streaming pre ->
  collect_to_value_loop (pre ++ rest) s h b =
  collect_to_value_loop rest (last_head pre (s, h)).1 (last_head pre (s, h)).2 (b ++ body_of pre).
Proof.
  intros Hpre. revert s h b; induction Hpre as [|c pre Hc _ IH]; intros s h b; simpl.
  - by rewrite app_nil_r.
  - destruct c; try done; simpl; rewrite IH, <- ?(assoc_L (++)); done.
Qed.

Lemma collect_framed pre fin rest :
  Forall is_streaming pre ->
  fin = [] \/ (exists v, fin = [Return v]) \/ (exists e, fin = [Error e]) ->
  collect_stream (pre ++ fin ++ End :: rest) = stream_result pre fin
  /\ collect_stream_to_value (pre ++ fin ++ End :: rest) = stream_result pre fin.
Proof.
  intros Hpre Hfin. unfold collect_stream, collected_init, collect_stream_to_value.
  rewrite collect_loop_streaming, collect_to_value_streaming by done.
  by destruct Hfin as [->|[[v ->]|[e ->]]].
Qed.

(** A finished stream is collected to what the worker meant: its
    [Return] value verbatim, its [Error] as an error, and otherwise the
    [{status, headers, body}] object of the last head and the concatenated
    body chunks.  Nothing after [End] is read. *)
Theorem collect_stream_complete rx rest (Hc : complete rx) :
  exists pre fin, rx = pre ++ fin ++ [End] /\ Forall is_streaming pre
    /\ collect_stream (rx ++ rest) = stream_result pre fin.
Proof.
  destruct (frame_run_split _ _ Hc) as (pre & fin & -> & Hpre & Hfin); [eauto|].
  exists pre, fin. split_and!; [done|done|].
  rewrite <- !(assoc_L (++)). by apply collect_framed.
Qed.

(** C25. The two collectors agree on every stream that follows the framing,
    finished or cut short. *)
Theorem collectors_agree rx (Hw : well_framed rx) :
  collect_stream rx = collect_stream_to_value rx.
Proof.
  unfold collect_stream, collect_stream_to_value, collected_init.
  destruct Hw as [s Hrun]. revert Hrun.
  generalize 200%Z (∅ : gmap string string) (@nil byte) false.
  induction rx as [|c rx IH]; intros st h b head Hrun; [done|].
  destruct c as [st' h'|b'|v|e|]; simpl in *; try done.
  - destruct head; [done|]. by eapply IH.
  - by eapply IH.
  - destruct (frame_run_final rx) as [->| ->]; eauto.
Qed.

(** They differ outside the framing: [collect_stream] reads on after
    [Return]. *)
Lemma collectors_differ v e :
  collect_stream [Return v; Error e] = Err (worker_error_display e)
  /\ collect_stream_to_value [Return v; Error e] = Ok v.
Proof. done. Qed.

(** C30. A stream that is cut short (the worker died, the channel closed
    without [End]) cannot be told from a finished one: whatever has arrived is
    returned as a success, and a worker that sent nothing at all yields status
    200 with an empty body. *)
Theorem collect_stream_truncated pre (Hpre : Forall is_streaming pre) :
  collect_stream pre = collect_stream (pre ++ [End])
  /\ is_ok (collect_stream pre) = true
  /\ collect_stream [] = Ok (legacy_value 200 ∅ []).
Proof.
  unfold collect_stream, collected_init.
  pose proof (collect_loop_streaming pre [] 200 ∅ [] Hpre) as Hnil.
  rewrite app_nil_r in Hnil. rewrite Hnil, collect_loop_streaming by done. done.
Qed.

(** The fields of the reconstructed object. *)
Lemma legacy_status `{SL : !SerdeJsonLaws} status headers body :
  value_get (legacy_value status headers body) "status" = Some (VNumber (number_from_u16 status)).
Proof.
  unfold legacy_value. rewrite value_get_object; [done|].
  repeat (constructor; [set_solver|]). constructor.
Qed.

Lemma legacy_body `{SL : !SerdeJsonLaws} status headers body :
  value_get (legacy_value status headers body) "body" = Some (VString (from_utf8_lossy body)).
Proof.
  unfold legacy_value. rewrite value_get_object; [done|].
  repeat (constructor; [set_solver|]). constructor.
Qed.

Lemma legacy_header `{SL : !SerdeJsonLaws} status headers body k :
  exists hv, value_get (legacy_value status headers body) "headers" = Some hv
    /\ value_get hv k = VString <$> headers !! k.
Proof.
  exists (VObject (map_collect (prod_map id VString <$> hash_iter headers))).
  unfold legacy_value. rewrite value_get_object by (repeat (constructor; [set_solver|]); constructor).
  split; [done|]. rewrite value_get_object.
  - rewrite (list_to_map_fmap (M := gmap string)), lookup_fmap, hash_iter_to_map. done.
  - rewrite <- list_fmap_compose. apply hash_iter_nodup.
Qed.

(** C26. What a streaming handler writes is what a non-streaming caller reads: the
    collected object carries the status that was sent, every header and no other,
    and the body chunks in order, decoded as lossy UTF-8; that is exactly their
    bytes when they are UTF-8. *)
Theorem collect_stream_roundtrip `{SL : !SerdeJsonLaws} status headers chunks :
  exists v hv,
    collect_stream (Headers status headers :: (Body <$> chunks) ++ [End]) = Ok v
    /\ value_get v "status" = Some (VNumber (number_from_u16 status))
    /\ value_get v "headers" = Some hv /\ (forall k, value_get hv k = VString <$> headers !! k)
    /\ value_get v "body" = Some (VString (from_utf8_lossy (concat chunks)))
    /\ (valid_utf8 (concat chunks) = true -> as_bytes (from_utf8_lossy (concat chunks)) = concat chunks).
Proof.
  pose (pre := Headers status headers :: (Body <$> chunks)).
  assert (Forall is_streaming pre) as Hpre.
  { constructor; [done|]. apply Forall_fmap, Forall_true. done. }
  assert (body_of pre = concat chunks) as Hb.
  { subst pre; simpl. clear. induction chunks as [|c cs IH]; csimpl; [done|by rewrite IH]. }
  assert (last_head pre (200%Z, ∅) = (status, headers)) as Hh.
  { subst pre; simpl. clear. by induction chunks. }
  destruct (collect_framed pre [] [] Hpre (or_introl eq_refl)) as [Hc _].
  unfold stream_result in Hc. rewrite Hh, Hb in Hc.
  destruct (legacy_header status headers (concat chunks) "") as (hv & Hhv & _).
  exists (legacy_value status headers (concat chunks)), hv.
  split_and!; [exact Hc|apply legacy_status|exact Hhv| |apply legacy_body|apply from_utf8_lossy_valid].
  intros k. destruct (legacy_header status headers (concat chunks) k) as (hv' & Hhv' & Hk).
  congruence.
Qed.
End collect.

(** * Examples *)

Section examples.
Import Sample.
#[local] Existing Instance some_order.

Lemma collect_stream_complete_witness :
  collect_stream [Headers 201 ∅; Body [x68]; Body [x69]; End; Return VNull] =
    Ok (VObject [("status", VNumber 201%Z); ("headers", VObject []); ("body", VString "hi")])
  /\ exists pre fin, [Headers 201 ∅; Body [x68]; Body [x69]; End] = pre ++ fin ++ [End]
       /\ Forall is_streaming pre
       /\ collect_stream ([Headers 201 ∅; Body [x68]; Body [x69]; End] ++ [Return VNull])
          = stream_result pre fin.
Proof.
  split; [reflexivity|].
  exact (collect_stream_complete [Headers 201 ∅; Body [x68]; Body [x69]; End] [Return VNull] eq_refl).
Defined.

Lemma collectors_agree_witness :
  collect_stream [Headers 404 ∅; Return (VBool true); End]
  = collect_stream_to_value [Headers 404 ∅; Return (VBool true); End].
Proof. apply (collectors_agree [Headers 404 ∅; Return (VBool true); End]). by exists FEnded. Defined.

Lemma collect_stream_truncated_witness :
  collect_stream [Headers 200 ∅; Body [x68]] = collect_stream ([Headers 200 ∅; Body [x68]] ++ [End]).
Proof.
  refine (proj1 (collect_stream_truncated [Headers 200 ∅; Body [x68]] _)).
  repeat constructor.
Defined.

Lemma collect_stream_roundtrip_witness :
  exists v, collect_stream [Headers 404 {[ "X" := "1" ]}; Body [x68]; Body [x69]; End] = Ok v
    /\ value_get v "status" = Some (VNumber 404%Z) /\ value_get v "body" = Some (VString "hi").
Proof.
  destruct (collect_stream_roundtrip (SL := json_laws) 404 {[ "X" := "1" ]} [[x68]; [x69]])
    as (v & hv & Hv & Hs & _ & _ & Hb & _).
  exact (ex_intro _ v (conj Hv (conj Hs Hb))).
Defined.
End examples.
