(* ===== verification/Runtime.v ===== *)
(** The runtime abstraction ([crates/folk-core/src/runtime.rs]): the interface
    [WorkerHandle] the pool's supervisors are written against, and the
    in-memory [MockRuntime] that implements it.

    An asynchronous method of a handle is a state transformer; its outcome is
    the environment's and reaches the caller as a value of type [timed]. *)

From S2P Require Import Prelude.
From S2P Require Import Protocol.

(** The value of [tokio::time::timeout(d, f).await]: [Completed] is
    [Ok(f's value)], [Elapsed] is [Err(_)]. *)
Inductive timed (A : Type) : Type :=
| Completed (r : result A)
| Elapsed.
Arguments Completed {A} r.
Arguments Elapsed {A}.

#[export] Instance timed_eq_dec {A} `{EqDecision A} : EqDecision (timed A).
Proof. solve_decision. Defined.

(** * [trait WorkerHandle], as the supervisor sees it *)

Class WorkerHandle (W : Type) := {
  wh_id : W -> Z;
  wh_is_recyclable : W -> bool;
  (** The handle after [ready()], [execute_streaming(..)] and [terminate()]. *)
  wh_ready : W -> W;
  wh_execute : W -> W;
  wh_terminate : W -> W;
}.

(** What every implementation owes its supervisor: serving a worker neither
    renames it nor changes whether it can be recycled. *)
Class WorkerHandleLaws (W : Type) `{WorkerHandle W} := {
  wh_ready_id w : wh_id (wh_ready w) = wh_id w;
  wh_ready_recyclable w : wh_is_recyclable (wh_ready w) = wh_is_recyclable w;
  wh_execute_id w : wh_id (wh_execute w) = wh_id w;
  wh_execute_recyclable w : wh_is_recyclable (wh_execute w) = wh_is_recyclable w;
}.

#[export] Hint Rewrite @wh_ready_id @wh_ready_recyclable @wh_execute_id
  @wh_execute_recyclable using typeclasses eauto : folk_rw.

(** The default body of [WorkerHandle::execute_streaming]. *)
Definition execute_streaming_default : result unit :=
  Err "execute_streaming not supported by this runtime".

(** The default bodies of [Runtime::warmup] and [Runtime::reload]; the extension's
    runtime overrides the first, [MockRuntime] neither. *)
Definition runtime_warmup_default : result unit := Ok tt.
Definition runtime_reload_default : result unit := Ok tt.

(** * [MockRuntime] *)

Section mock.
Context `{FA : FolkApi}.

Record MockRuntime := mkMockRuntime {
  responder : string -> value -> result value;
  next_id : Z;
  seen_request_ids : list string;
  panic_slots : gset Z;
}.

Record MockWorker := mkMockWorker {
  mw_id : Z;
  terminated : bool;
  should_panic : bool;
}.

Definition echo : MockRuntime := {|
  responder _ payload := Ok payload;
  next_id := 10000; seen_request_ids := []; panic_slots := ∅;
|}.

Definition with_panicking_slots (indices : list Z) : MockRuntime := {|
  responder _ payload := Ok payload;
  next_id := 10000; seen_request_ids := []; panic_slots := list_to_set indices;
|}.

(** [u32] subtraction, which panics below zero. *)
Definition sub_u32 (a b : Z) : option Z := if (b <=? a)%Z then Some (a - b)%Z else None.

Definition spawn_count (rt : MockRuntime) : option Z := sub_u32 (next_id rt) 10000.

Definition mock_spawn (rt : MockRuntime) : option (MockRuntime * MockWorker) :=
  let id := next_id rt in
  let rt := {| responder := responder rt; next_id := wrap32 (id + 1);
               seen_request_ids := seen_request_ids rt; panic_slots := panic_slots rt |} in
  match sub_u32 id 10000 with
  | None => None
  | Some spawn_index =>
      Some (rt, {| mw_id := id; terminated := false;
                   should_panic := bool_decide (spawn_index ∈ panic_slots rt) |})
  end.

(** [MockWorker::execute]; [None] is the panic of its [assert!]. *)
Definition mock_execute (rt : MockRuntime) (w : MockWorker) (method : string)
    (payload : value) (request_id : string) : option (MockRuntime * result value) :=
  if should_panic w then None
  else if terminated w then Some (rt, Err "worker terminated")
  else
    let rt := {| responder := responder rt; next_id := next_id rt;
                 seen_request_ids := seen_request_ids rt ++ [request_id];
                 panic_slots := panic_slots rt |} in
    Some (rt, responder rt method payload).

(** [MockWorker::execute_streaming], with the chunks it sends. *)
Definition mock_execute_streaming (rt : MockRuntime) (w : MockWorker) (method : string)
    (payload : value) (request_id : string) :
    option (MockRuntime * list ResponseChunk * result unit) :=
  match mock_execute rt w method payload request_id with
  | None => None
  | Some (rt, Err e) => Some (rt, [], Err e)
  | Some (rt, Ok v) => Some (rt, value_to_chunks v, Ok tt)
  end.

Definition mock_terminate (w : MockWorker) : MockWorker :=
  {| mw_id := mw_id w; terminated := true; should_panic := should_panic w |}.

#[export] Instance MockWorker_handle : WorkerHandle MockWorker := {|
  wh_id := mw_id;
  wh_is_recyclable _ := true;
  wh_ready w := w;
  wh_execute w := w;
  wh_terminate := mock_terminate;
|}.

#[export] Instance MockWorker_laws : WorkerHandleLaws MockWorker.
Proof. by split. Qed.

(** [n] calls of [spawn] in a row. *)
Fixpoint mock_spawns (n : nat) (rt : MockRuntime) : option (MockRuntime * list MockWorker) :=
  match n with
  | O => Some (rt, [])
  | S n =>
      match mock_spawn rt with
      | None => None
      | Some (rt, w) =>
          match mock_spawns n rt with
          | None => None
          | Some (rt, ws) => Some (rt, w :: ws)
          end
      end
  end.

Lemma mock_spawns_from n rt :
  (10000 <= next_id rt)%Z -> (next_id rt + Z.of_nat n <= u32_max)%Z ->
  exists rt' ws, mock_spawns n rt = Some (rt', ws)
    /\ next_id rt' = (next_id rt + Z.of_nat n)%Z
    /\ panic_slots rt' = panic_slots rt
    /\ length ws = n
    /\ forall i w, ws !! i = Some w ->
         mw_id w = (next_id rt + Z.of_nat i)%Z /\ terminated w = false
         /\ should_panic w = bool_decide ((next_id rt - 10000 + Z.of_nat i)%Z ∈ panic_slots rt).
Proof.
  revert rt; induction n as [|n IH]; intros rt Hlo Hhi.
  { exists rt, []. split_and!; [done|lia|done|done|]. intros [|i] w; done. }
  cbn [mock_spawns]. unfold mock_spawn, sub_u32.
  destruct (Z.leb_spec 10000 (next_id rt)); [|lia].
  set (rt1 := mkMockRuntime _ _ _ _).
  assert (next_id rt1 = next_id rt + 1)%Z as Hid by (apply wrap32_small; lia).
  destruct (IH rt1) as (rt' & ws & Hrun & Hn & Hp & Hlen & Hws); [lia..|].
  rewrite Hrun. eexists rt', _. split_and!; [done|lia|done|simpl; lia|].
  intros [|i] w Hw; simpl in Hw; simplify_eq/=.
  - split_and!; [lia|done|]. apply bool_decide_ext. by rewrite Z.add_0_r.
  - apply Hws in Hw as (H1 & H2 & H3). split_and!; [lia|done|].
    rewrite H3. apply bool_decide_ext. change (panic_slots rt1) with (panic_slots rt).
    f_equiv; lia.
Qed.

(** The mock runtime names its workers consecutively from 10000, counts
    them, and makes exactly the workers with the given spawn indices panic on
    their first call. *)
Theorem mock_spawns_panicking n indices (Hn : (10000 + Z.of_nat n <= u32_max)%Z) :
  exists rt ws, mock_spawns n (with_panicking_slots indices) = Some (rt, ws)
    /\ spawn_count rt = Some (Z.of_nat n)
    /\ forall i w, ws !! i = Some w ->
         mw_id w = (10000 + Z.of_nat i)%Z
         /\ forall m p id, mock_execute rt w m p id = None <-> Z.of_nat i ∈ indices.
Proof.
  destruct (mock_spawns_from n (with_panicking_slots indices))
    as (rt & ws & Hrun & Hid & _ & _ & Hws); [done..|].
  exists rt, ws. split_and!; [done| |].
  - unfold spawn_count, sub_u32. rewrite Hid. simpl.
    destruct (Z.leb_spec 10000 (10000 + Z.of_nat n)); [f_equal|]; lia.
  - intros i w Hw. destruct (Hws i w Hw) as (Hi & Ht & Hp). split; [done|].
    intros m p id. unfold mock_execute. rewrite Ht, Hp.
    case_bool_decide as Hin; cbn in Hin; rewrite elem_of_list_to_set in Hin; naive_solver.
Qed.

(** A terminated worker answers every call with an error and records
    nothing. *)
Lemma mock_terminated_refuses rt w m p id :
  should_panic w = false ->
  mock_execute_streaming rt (mock_terminate w) m p id = Some (rt, [], Err "worker terminated").
Proof. intros Hp. unfold mock_execute_streaming, mock_execute. simpl. by rewrite Hp. Qed.

(** The echo runtime answers a live worker's call with the payload and records
    the request id. *)
Lemma mock_echo_execute w m p id rt :
  responder rt = responder echo -> should_panic w = false -> terminated w = false ->
  exists rt', mock_execute rt w m p id = Some (rt', Ok p)
    /\ seen_request_ids rt' = seen_request_ids rt ++ [id].
Proof.
  intros Hr Hp Ht. unfold mock_execute. rewrite Hp, Ht. simpl. rewrite Hr. eauto.
Qed.
End mock.

Lemma mock_spawns_panicking_witness :
  exists rt ws, mock_spawns (H := Sample.json) 2 (with_panicking_slots [0%Z]) = Some (rt, ws)
    /\ spawn_count rt = Some 2%Z.
Proof.
  destruct (mock_spawns_panicking (H := Sample.json) 2 [0%Z]) as (rt & ws & Hrun & Hcount & _).
  - vm_compute; discriminate.
  - exact (ex_intro _ rt (ex_intro _ ws (conj Hrun Hcount))).
Defined.
