(* ===== verification/Supervisor.v ===== *)
(** One slot's supervisor: [slot_supervisor] and [boot_worker]
    ([crates/folk-core/src/worker_pool.rs]).

    The supervisor is an asynchronous loop.  [sup_step] gives the code from one
    await point, or one read of shared state, to the next; the event says what
    the await produced.  The [select!] is two polls, [changed()] first and
    [inbox.recv()] after it, and it sleeps when both are pending.  Between any two
    steps the pool may bump the reload generation or drop its sender ([Reload],
    [DropPool]), so every interleaving of the supervisor with reloads is a run of
    [svc_step]. *)

From S2P Require Import Prelude.
From S2P Require Import Config.
From S2P Require Import WorkerSlot.
From S2P Require Import Protocol.
From S2P Require Import Runtime.

Section data.
Context `{SJ : SerdeJson}.

(** [struct DispatchRequest].  [stream_tx] names the response channel and
    [permit] the semaphore permit the request owns. *)
Record DispatchRequest := mkDispatchRequest {
  request_id : string;
  method : string;
  payload : value;
  stream_tx : nat;
  permit : nat;
  request_body : option RequestBody;
}.
End data.

(** The [watch::Sender<u64>] of the pool: its value, the version
    [send_modify] bumps with every change, and whether it has been dropped. *)
Record ReloadTx := mkReloadTx {
  generation : Z;
  version : Z;
  tx_dropped : bool;
}.

Definition reload_channel : ReloadTx :=
  {| generation := 0; version := 0; tx_dropped := false |}.

(** [self.reload_tx.send_modify(|g| *g += 1)]; [None] is the overflow panic. *)
Definition send_modify (rl : ReloadTx) : option ReloadTx :=
  if decide (generation rl = u64_max) then None
  else Some {| generation := generation rl + 1; version := version rl + 1;
               tx_dropped := tx_dropped rl |}.

Definition drop_reload_tx (rl : ReloadTx) : ReloadTx :=
  {| generation := generation rl; version := version rl; tx_dropped := true |}.

(** Why a worker is being terminated, i.e. which code follows. *)
Inductive TerminateReason := ReloadClosed | IdleReload | InboxClosed | Recycle.

(** What the supervisor has done, oldest first. *)
Inductive Action :=
| ASpawn (id : Z)
| ATerminate (id : Z)
| AStart (p : nat) (boot_gen : Z)
| ARelease (p : nat).

Section supervisor.
Context `{SJ : SerdeJson} `{WH : WorkerHandle W}.
Context (config : WorkersConfig).

(** The await points of the loop.  [PSelect] is the entry of the [select!], with
    the condition of its first branch; in [PPolled] that branch has been polled
    and is pending, and the inbox is polled next; in [PParked] both are pending
    and the task sleeps. *)
Inductive Phase :=
| PTop
| PBooting
| PSleeping
| PSelect (recyclable : bool)
| PPolled
| PParked
| PCheck
| PTerminating (why : TerminateReason) (w : W)
| PExec (req : DispatchRequest)
| PAfter
| PReturned
| PPanicked.

Record Sup := mkSup {
  slot : SlotInfo;
  worker : option W;
  boot_generation : Z;
  rx_seen : Z;
  phase : Phase;
  trace : list Action;
}.

Definition goto (p : Phase) (s : Sup) : Sup := {|
  slot := slot s; worker := worker s; boot_generation := boot_generation s;
  rx_seen := rx_seen s; phase := p; trace := trace s;
|}.
Definition set_slot (sl : SlotInfo) (s : Sup) : Sup := {|
  slot := sl; worker := worker s; boot_generation := boot_generation s;
  rx_seen := rx_seen s; phase := phase s; trace := trace s;
|}.
Definition set_worker (w : option W) (s : Sup) : Sup := {|
  slot := slot s; worker := w; boot_generation := boot_generation s;
  rx_seen := rx_seen s; phase := phase s; trace := trace s;
|}.
Definition set_boot_generation (g : Z) (s : Sup) : Sup := {|
  slot := slot s; worker := worker s; boot_generation := g;
  rx_seen := rx_seen s; phase := phase s; trace := trace s;
|}.
Definition set_seen (v : Z) (s : Sup) : Sup := {|
  slot := slot s; worker := worker s; boot_generation := boot_generation s;
  rx_seen := v; phase := phase s; trace := trace s;
|}.
Definition emit (acts : list Action) (s : Sup) : Sup := {|
  slot := slot s; worker := worker s; boot_generation := boot_generation s;
  rx_seen := rx_seen s; phase := phase s; trace := trace s ++ acts;
|}.

(** Entry of [slot_supervisor]: the receiver was cloned when the slot was
    created and has seen the version of that moment. *)
Definition sup_init (rl : ReloadTx) (now : Z) : Sup := {|
  slot := SlotInfo_new now; worker := None; boot_generation := generation rl;
  rx_seen := version rl; phase := PTop; trace := [];
|}.

(** [boot_worker]: the outcome of [runtime.spawn()] and of the timed
    [handle.ready()] are the environment's.  [None] is a panic of
    [mark_ready].  The duration that ends the timeout's message is left out. *)
Definition boot_worker (spawned : result W) (ready : timed unit) (sl : SlotInfo) :
    option (SlotInfo * result W * list Action) :=
  match context "spawn" spawned with
  | Err e => Some (sl, Err e, [])
  | Ok handle =>
      let handle := wh_ready handle in
      match ready with
      | Completed (Ok _) =>
          let id := wh_id handle in
          match mark_ready sl id with
          | Some sl => Some (sl, Ok handle, [ASpawn id])
          | None => None
          end
      | Completed (Err e) =>
          let handle := wh_terminate handle in
          Some (sl, Err ("worker ready() failed during boot: " +:+ e),
                [ASpawn (wh_id handle); ATerminate (wh_id handle)])
      | Elapsed =>
          let handle := wh_terminate handle in
          Some (sl, Err "worker boot timed out",
                [ASpawn (wh_id handle); ATerminate (wh_id handle)])
      end
  end.

(** What an await of the supervisor produced.  [EvPolled]: the reload channel was
    polled and had nothing; [EvParked]: the inbox had nothing either; [EvWoken]:
    the sleeping task was polled again and the reload channel had nothing.
    [EvBootPanic] is the panic of [runtime.spawn()] where the system refuses a
    thread, [EvExecPanic] one of [execute_streaming]. *)
Inductive SupEvent :=
| EvTop
| EvBoot (spawned : result W) (ready : timed unit)
| EvSlept
| EvChanged
| EvChangedErr
| EvCheck (now : Z)
| EvRecv (req : DispatchRequest)
| EvInboxClosed
| EvExec (exec_result : timed unit)
| EvExecPanic
| EvAfter (now : Z)
| EvTerminated (now : Z)
| EvPolled
| EvParked
| EvWoken
| EvBootPanic.

(** [reload_rx.changed()] would complete now. *)
Definition changed_ready (rl : ReloadTx) (s : Sup) : bool :=
  bool_decide (rx_seen s <> version rl) || tx_dropped rl.

(** [if let Some(mut w) = worker.take() { w.terminate().await }], then the
    code [why] names. *)
Definition take_and_terminate (why : TerminateReason) (now : Z) (s : Sup) : Sup :=
  match worker s with
  | Some w => goto (PTerminating why w) (set_worker None s)
  | None =>
      match why with
      | ReloadClosed | InboxClosed => goto PReturned s
      | IdleReload | Recycle => goto PTop (set_slot (SlotInfo_new now) s)
      end
  end.

(** The code between [inbox.recv()] and the await of [execute_streaming]: the
    destructuring, [unreachable!()] without a worker, and [mark_busy]. *)
Definition start_request (req : DispatchRequest) (s : Sup) : Sup :=
  match worker s with
  | None => goto PPanicked s
  | Some w =>
      match mark_busy (slot s) with
      | None => goto PPanicked s
      | Some sl => goto (PExec req) (emit [AStart (permit req) (boot_generation s)] (set_slot sl s))
      end
  end.

Definition sup_step (rl : ReloadTx) (ev : SupEvent) (s : Sup) : option Sup :=
  match phase s, ev with
  (* loop head: boot if there is no worker, else go wait *)
  | PTop, EvTop =>
      match worker s with
      | None => Some (goto PBooting (set_boot_generation (generation rl) s))
      | Some w => Some (goto (PSelect (wh_is_recyclable w)) s)
      end
  | PBooting, EvBoot spawned ready =>
      match boot_worker spawned ready (slot s) with
      | None => Some (goto PPanicked s)
      | Some (sl, Ok w, acts) =>
          Some (goto (PSelect (wh_is_recyclable w))
                  (set_worker (Some w) (set_slot sl (emit acts s))))
      | Some (sl, Err _, acts) => Some (goto PSleeping (set_slot sl (emit acts s)))
      end
  | PBooting, EvBootPanic => Some (goto PPanicked s)
  | PSleeping, EvSlept => Some (goto PTop s)
  (* biased select, first branch, if the worker is recyclable: reload_rx.changed(),
     polled on entry and again whenever the sleeping task is woken *)
  | (PSelect true | PParked), EvChanged =>
      if decide (rx_seen s <> version rl) then Some (goto PCheck (set_seen (version rl) s))
      else None
  | (PSelect true | PParked), EvChangedErr =>
      if decide (rx_seen s = version rl /\ tx_dropped rl = true) then
        Some (take_and_terminate ReloadClosed 0 s)
      else None
  | PSelect true, EvPolled | PParked, EvWoken =>
      if changed_ready rl s then None else Some (goto PPolled s)
  | PCheck, EvCheck now =>
      if (boot_generation s <? generation rl)%Z then Some (take_and_terminate IdleReload now s)
      else Some (goto PTop s)
  (* second branch: inbox.recv(), whatever the reload channel has by now *)
  | (PSelect false | PPolled), EvRecv req => Some (start_request req s)
  | (PSelect false | PPolled), EvInboxClosed => Some (take_and_terminate InboxClosed 0 s)
  | PPolled, EvParked => Some (goto PParked s)
  (* the timed execute_streaming finished, failed or ran out of time *)
  | PExec req, EvExec exec_result =>
      let s := emit [ARelease (permit req)] (set_worker (wh_execute <$> worker s) s) in
      match mark_idle (slot s) with
      | None => Some (goto PPanicked s)
      | Some sl => Some (goto PAfter (set_slot sl s))
      end
  | PExec req, EvExecPanic => Some (goto PPanicked (emit [ARelease (permit req)] s))
  | PAfter, EvAfter now =>
      let reload_pending := (boot_generation s <? generation rl)%Z in
      if reload_pending || should_recycle (slot s) config now then
        match worker s with
        | Some w =>
            if negb (wh_is_recyclable w) then Some (goto PTop s)
            else Some (take_and_terminate Recycle now s)
        | None => Some (take_and_terminate Recycle now s)
        end
      else Some (goto PTop s)
  | PTerminating why w, EvTerminated now =>
      let s := emit [ATerminate (wh_id w)] s in
      match why with
      | ReloadClosed | InboxClosed => Some (goto PReturned s)
      | IdleReload | Recycle => Some (goto PTop (set_slot (SlotInfo_new now) s))
      end
  | _, _ => None
  end.

(** The supervisor together with the pool's side of the reload channel. *)
Inductive SvcEvent := Reload | DropPool | Sup_ev (ev : SupEvent).

Definition svc_step (ev : SvcEvent) (st : ReloadTx * Sup) : option (ReloadTx * Sup) :=
  match ev with
  | Reload => rl ← send_modify st.1; Some (rl, st.2)
  | DropPool => Some (drop_reload_tx st.1, st.2)
  | Sup_ev ev => s ← sup_step st.1 ev st.2; Some (st.1, s)
  end.

Definition svc_init (now : Z) : ReloadTx * Sup := (reload_channel, sup_init reload_channel now).
End supervisor.

Arguments Phase {SJ} W.
Arguments Sup {SJ} W.
Arguments SupEvent {SJ} W.
Arguments SvcEvent {SJ} W.
