(* ===== verification/SupervisorSpec.v ===== *)
(** What a slot's supervisor promises, and the proof that [slot_supervisor]
    keeps it: the life of its workers and permits as an abstract machine, the
    absence of assertion failures, the recycling bound, and the treatment of
    hot reloads. *)

From S2P Require Import Prelude.
From S2P Require Import Config.
From S2P Require Import WorkerSlot.
From S2P Require Import Protocol.
From S2P Require Import Runtime.
From S2P Require Import Supervisor.

(** * Abstract specification: one worker at a time, one request at a time *)

Inductive Life :=
| LNone
| LAlive (id : Z) (jobs : Z)
| LBusy (id : Z) (jobs : Z) (p : nat).

Definition life_step (a : Action) (l : Life) : option Life :=
  match l, a with
  | LNone, ASpawn id => Some (LAlive id 0)
  | LAlive id jobs, AStart p _ => Some (LBusy id jobs p)
  | LBusy id jobs p, ARelease p' => if decide (p = p') then Some (LAlive id (jobs + 1)) else None
  | LAlive id _, ATerminate id' => if decide (id = id') then Some LNone else None
  | _, _ => None
  end.

Lemma life_run_snoc l acts a :
  run life_step (acts ++ [a]) l = (l' ← run life_step acts l; life_step a l').
Proof.
  rewrite run_app. destruct (run life_step acts l) as [l'|]; simpl; [|done].
  by destruct (life_step a l').
Qed.

Section spec.
Context `{SJ : SerdeJson} `{WL : WorkerHandleLaws W}.
Context (config : WorkersConfig).

Implicit Types (s : Sup W) (rl : ReloadTx).

(** The abstract state of a supervisor. *)
Definition abs s : Life :=
  match phase s with
  | PTerminating _ w => LAlive (wh_id w) (jobs_handled (slot s))
  | PExec req =>
      match worker s with
      | Some w => LBusy (wh_id w) (jobs_handled (slot s)) (permit req)
      | None => LNone
      end
  | _ =>
      match worker s with
      | Some w => LAlive (wh_id w) (jobs_handled (slot s))
      | None => LNone
      end
  end.

(** * Invariant *)

(** A worker older than the current generation has a reload notification
    pending. *)
Definition fresh rl s : Prop :=
  (boot_generation s <= generation rl)%Z
  /\ ((boot_generation s < generation rl)%Z -> (rx_seen s < version rl)%Z).

(** A recyclable worker that is kept has not reached the job limit. *)
Definition below_limit s (w : W) : Prop :=
  wh_is_recyclable w = true ->
  jobs_handled (slot s) = 0%Z \/ (jobs_handled (slot s) < max_jobs config)%Z.

Definition serving (st : SlotState) s (P : W -> Prop) : Prop :=
  exists w, worker s = Some w /\ state (slot s) = st /\ P w.

Definition vacant s : Prop :=
  worker s = None /\ state (slot s) = Spawning /\ jobs_handled (slot s) = 0%Z.

Definition phase_inv rl s : Prop :=
  match phase s with
  | PTop => vacant s \/ serving Idle s (fun w => fresh rl s /\ below_limit s w)
  | PBooting => vacant s /\ fresh rl s
  | PSleeping => vacant s
  | PSelect r =>
      serving Idle s (fun w => r = wh_is_recyclable w /\ fresh rl s /\ below_limit s w)
  | PPolled | PParked =>
      serving Idle s (fun w => wh_is_recyclable w = true /\ fresh rl s /\ below_limit s w)
  | PCheck =>
      serving Idle s (fun w => (boot_generation s <= generation rl)%Z /\ below_limit s w)
  | PExec _ => serving Busy s (fun w => fresh rl s /\ below_limit s w)
  | PAfter =>
      serving Idle s (fun w => fresh rl s /\
        (wh_is_recyclable w = true -> (jobs_handled (slot s) <= Z.max 1 (max_jobs config))%Z))
  | PTerminating _ _ | PReturned => worker s = None
  | PPanicked => True
  end.

Record sup_inv rl s : Prop := {
  inv_version : generation rl = version rl;
  inv_seen : (rx_seen s <= version rl)%Z;
  inv_jobs : (0 <= jobs_handled (slot s))%Z;
  inv_life : exists l, run life_step (trace s) LNone = Some l
               /\ (phase s <> PPanicked -> l = abs s);
  inv_phase : phase_inv rl s;
}.

Ltac sup_cases H :=
  unfold boot_worker, take_and_terminate, mark_busy, mark_idle, mark_ready in H;
  case_hyp H; simplify_eq/=.

Lemma sup_init_inv now : sup_inv reload_channel (sup_init (W := W) reload_channel now).
Proof.
  split; simpl; try done. - eauto. - by left.
Qed.

Lemma reload_inv rl rl' s : sup_inv rl s -> send_modify rl = Some rl' -> sup_inv rl' s.
Proof.
  unfold send_modify. case_decide; [done|]. intros [Hv Hs Hj Hl Hp] [= <-].
  split; simpl; try done; try lia.
  unfold phase_inv, serving, fresh in *; simpl in *. destruct (phase s); try done;
    naive_solver lia.
Qed.

Lemma drop_inv rl s : sup_inv rl s -> sup_inv (drop_reload_tx rl) s.
Proof. intros [Hv Hs Hj Hl Hp]. by split. Qed.

(** Extending the trace by one action the abstract machine accepts. *)
Lemma life_extend tr l a l' :
  run life_step tr LNone = Some l -> life_step a l = Some l' ->
  run life_step (tr ++ [a]) LNone = Some l'.
Proof. intros Hr Ha. by rewrite life_run_snoc, Hr. Qed.

(** ** The operations the steps are made of *)

Lemma boot_worker_spec spawned ready sl :
  state sl = Spawning ->
  exists sl' r acts, boot_worker spawned ready sl = Some (sl', r, acts)
    /\ jobs_handled sl' = jobs_handled sl
    /\ match r with
       | Ok w => state sl' = Idle /\ acts = [ASpawn (wh_id w)]
       | Err _ => sl' = sl /\ run life_step acts LNone = Some LNone
       end.
Proof.
  intros Hst. unfold boot_worker, context. destruct spawned as [w|e]; [|naive_solver].
  destruct ready as [[[]|e]|]; simpl.
  - unfold mark_ready. rewrite decide_True by done. naive_solver.
  - eexists _, _, _. split_and!; [done..|]. simpl. by rewrite decide_True.
  - eexists _, _, _. split_and!; [done..|]. simpl. by rewrite decide_True.
Qed.

Lemma mark_busy_idle sl : state sl = Idle -> mark_busy sl = Some (set_state Busy sl).
Proof. intros Hst. unfold mark_busy. by rewrite decide_True. Qed.

Lemma mark_idle_busy sl :
  state sl = Busy -> jobs_handled sl <> u64_max ->
  exists sl', mark_idle sl = Some sl' /\ state sl' = Idle
    /\ jobs_handled sl' = (jobs_handled sl + 1)%Z.
Proof.
  intros Hst Hj. unfold mark_idle. rewrite decide_True by auto.
  rewrite decide_False by done. simpl. rewrite decide_True by done. eauto.
Qed.

(** ** Preservation, one lemma per await point *)

Ltac sup_unfold :=
  unfold phase_inv, serving, vacant, fresh, below_limit, abs, take_and_terminate in *;
  simpl in *.
Ltac sup_inv_auto :=
  split; sup_unfold; try done; try lia; try (eexists; split; [eassumption|naive_solver]);
  try naive_solver lia.

Lemma step_top rl s s' :
  sup_inv rl s -> phase s = PTop -> sup_step config rl EvTop s = Some s' -> sup_inv rl s'.
Proof.
  intros [Hv Hs Hj (l & Hl & Habs) Hp] Hph Hstep. destruct s as [sl wk bg seen ph tr].
  simpl in Hph; subst ph. unfold sup_step in Hstep; simpl in Hstep.
  destruct wk; simplify_eq; sup_inv_auto.
Qed.

Lemma step_boot rl s s' spawned ready :
  sup_inv rl s -> phase s = PBooting ->
  sup_step config rl (EvBoot spawned ready) s = Some s' -> sup_inv rl s'.
Proof.
  intros [Hv Hs Hj (l & Hl & Habs) Hp] Hph Hstep. destruct s as [sl wk bg seen ph tr].
  simpl in Hph; subst ph. unfold sup_step in Hstep; simpl in Hstep.
  sup_unfold. destruct Hp as [(-> & Hst & Hjobs) Hfresh].
  destruct (boot_worker_spec spawned ready sl Hst) as (sl' & r & acts & Hb & Hj' & Hr).
  rewrite Hb in Hstep. destruct r as [w|e]; simplify_eq.
  - destruct Hr as [Hst' ->]. split; sup_unfold; try done; try lia.
    + exists (LAlive (wh_id w) 0). split; [|intros _; f_equal; lia].
      eapply life_extend; [exact Hl|]. by rewrite Habs.
    + exists w. naive_solver lia.
  - destruct Hr as [-> Hr]. split; sup_unfold; try done.
    exists LNone. split; [|done]. rewrite run_app, Hl, Habs by done. done.
Qed.

Lemma step_sleeping rl s s' :
  sup_inv rl s -> phase s = PSleeping -> sup_step config rl EvSlept s = Some s' -> sup_inv rl s'.
Proof.
  intros [Hv Hs Hj (l & Hl & Habs) Hp] Hph Hstep. destruct s as [sl wk bg seen ph tr].
  simpl in Hph; subst ph. unfold sup_step in Hstep; simpl in Hstep; simplify_eq. sup_inv_auto.
Qed.

Lemma step_boot_panic rl s s' :
  sup_inv rl s -> phase s = PBooting -> sup_step config rl EvBootPanic s = Some s' -> sup_inv rl s'.
Proof.
  intros [Hv Hs Hj (l & Hl & Habs) Hp] Hph Hstep. destruct s as [sl wk bg seen ph tr].
  simpl in Hph; subst ph. unfold sup_step in Hstep; simpl in Hstep; simplify_eq. sup_inv_auto.
Qed.

(** The three places of the [select!]. *)
Definition selecting s : Prop :=
  match phase s with PSelect _ | PPolled | PParked => True | _ => False end.

Lemma selecting_inv rl s :
  phase_inv rl s -> selecting s ->
  exists w, worker s = Some w /\ state (slot s) = Idle /\ fresh rl s /\ below_limit s w
    /\ (phase s = PSelect (wh_is_recyclable w) \/ (phase s <> PSelect false /\ wh_is_recyclable w = true)).
Proof.
  unfold phase_inv, selecting. destruct (phase s) eqn:Hph; try done; intros (w & Hw & Hst & Hrest) _;
    exists w; naive_solver.
Qed.

Lemma selecting_life s l w :
  (phase s <> PPanicked -> l = abs s) -> selecting s -> worker s = Some w ->
  l = LAlive (wh_id w) (jobs_handled (slot s)).
Proof.
  intros Habs Hsel Hw. unfold selecting, abs in *. rewrite Hw in Habs.
  destruct (phase s); try done; by apply Habs.
Qed.

Lemma start_request_inv rl s req : sup_inv rl s -> selecting s -> sup_inv rl (start_request req s).
Proof.
  intros [Hv Hs Hj (l & Hl & Habs) Hp] Hsel. destruct (selecting_inv rl s Hp Hsel) as (w & Hw & Hst & Hf & Hlim & _).
  destruct s as [sl wk bg seen ph tr]. simpl in Hw; subst wk. unfold start_request; simpl in *.
  rewrite (mark_busy_idle _ Hst).
  assert (l = LAlive (wh_id w) (jobs_handled sl)) as -> by exact (selecting_life (mkSup sl (Some w) bg seen ph tr) _ w Habs Hsel eq_refl).
  split; sup_unfold; try done; try lia; [|naive_solver].
  eexists; split; [eapply life_extend; [exact Hl|done]|done].
Qed.

Lemma terminate_inv rl s why now :
  sup_inv rl s -> selecting s -> sup_inv rl (take_and_terminate why now s).
Proof.
  intros [Hv Hs Hj (l & Hl & Habs) Hp] Hsel. destruct (selecting_inv rl s Hp Hsel) as (w & Hw & _).
  destruct s as [sl wk bg seen ph tr]. simpl in Hw; subst wk. unfold take_and_terminate; simpl in *.
  assert (l = LAlive (wh_id w) (jobs_handled sl)) as -> by exact (selecting_life (mkSup sl (Some w) bg seen ph tr) _ w Habs Hsel eq_refl).
  sup_inv_auto.
Qed.

Lemma step_select rl s s' ev :
  sup_inv rl s -> selecting s -> sup_step config rl ev s = Some s' -> sup_inv rl s'.
Proof.
  intros Hi Hsel Hstep.
  assert ((exists req, s' = start_request req s) \/ (exists why now, s' = take_and_terminate why now s)
    \/ (s' = goto PCheck (set_seen (version rl) s) /\ phase s <> PSelect false)
    \/ ((s' = goto PPolled s \/ s' = goto PParked s) /\ phase s <> PSelect false)) as Hs'.
  { unfold selecting, sup_step in *. destruct (phase s) as [| | |[]| | | | | | | |], ev; try done;
      case_hyp Hstep; simplify_eq/=; eauto 10. }
  destruct Hs' as [[req ->]|[(why & now & ->)|Hs']]; [by apply start_request_inv|by apply terminate_inv|].
  destruct Hi as [Hv Hs Hj (l & Hl & Habs) Hp].
  destruct (selecting_inv rl s Hp Hsel) as (w & Hw & Hst & Hf & Hlim & Hrec).
  assert (phase s <> PSelect false -> wh_is_recyclable w = true) as Hrec' by (destruct (wh_is_recyclable w); naive_solver).
  destruct s as [sl wk bg seen ph tr]. simpl in Hw; subst wk.
  assert (l = LAlive (wh_id w) (jobs_handled sl)) as -> by exact (selecting_life (mkSup sl (Some w) bg seen ph tr) _ w Habs Hsel eq_refl).
  destruct Hs' as [[-> Hne]|[[-> | ->] Hne]]; specialize (Hrec' Hne); simpl in Hst; sup_inv_auto.
Qed.

Lemma step_check rl s s' now :
  sup_inv rl s -> phase s = PCheck -> sup_step config rl (EvCheck now) s = Some s' -> sup_inv rl s'.
Proof.
  intros [Hv Hs Hj (l & Hl & Habs) Hp] Hph Hstep. destruct s as [sl wk bg seen ph tr].
  simpl in Hph; subst ph. sup_unfold. destruct Hp as (w & -> & Hst & Hbg & Hlim).
  unfold sup_step in Hstep; simpl in Hstep. destruct (Z.ltb_spec bg (generation rl)); simplify_eq;
    sup_inv_auto.
Qed.

Lemma step_exec rl s s' req ev :
  sup_inv rl s -> phase s = PExec req -> sup_step config rl ev s = Some s' -> sup_inv rl s'.
Proof.
  intros [Hv Hs Hj (l & Hl & Habs) Hp] Hph Hstep. destruct s as [sl wk bg seen ph tr].
  simpl in Hph; subst ph. sup_unfold. destruct Hp as (w & -> & Hst & Hf & Hlim).
  specialize (Habs ltac:(done)). subst l.
  assert (run life_step (tr ++ [ARelease (permit req)]) LNone =
    Some (LAlive (wh_id w) (jobs_handled sl + 1))) as Hl'.
  { eapply life_extend; [exact Hl|]. simpl. by rewrite decide_True. }
  unfold sup_step in Hstep; simpl in Hstep. destruct ev; simplify_eq/=.
  - destruct (decide (jobs_handled sl = u64_max)) as [Hmax|Hmax].
    + unfold mark_idle in Hstep. rewrite decide_True, decide_True in Hstep by auto.
      simplify_eq. split; sup_unfold; try done. by eexists.
    + destruct (mark_idle_busy _ Hst Hmax) as (sl' & Hm & Hst' & Hj').
      rewrite Hm in Hstep. simplify_eq. split; sup_unfold; try done; try lia.
      * eexists; split; [exact Hl'|intros _]. rewrite wh_execute_id. f_equal; lia.
      * exists (wh_execute w). rewrite wh_execute_recyclable. naive_solver lia.
  - split; sup_unfold; try done. by eexists.
Qed.

Lemma step_after rl s s' now :
  sup_inv rl s -> phase s = PAfter -> sup_step config rl (EvAfter now) s = Some s' -> sup_inv rl s'.
Proof.
  intros [Hv Hs Hj (l & Hl & Habs) Hp] Hph Hstep. destruct s as [sl wk bg seen ph tr].
  simpl in Hph; subst ph. sup_unfold. destruct Hp as (w & -> & Hst & Hf & Hlim).
  unfold sup_step in Hstep; simpl in Hstep.
  destruct ((bg <? generation rl)%Z || should_recycle sl config now) eqn:Hrec.
  - destruct (wh_is_recyclable w) eqn:Hw; simplify_eq/=; sup_inv_auto.
    right. exists w. rewrite Hw. naive_solver.
  - simplify_eq. apply orb_false_iff in Hrec as [_ Hrec].
    assert (jobs_handled sl < max_jobs config)%Z.
    { destruct (Z.lt_ge_cases (jobs_handled sl) (max_jobs config)); [done|].
      assert (should_recycle sl config now = true) by (apply should_recycle_spec; auto). congruence. }
    sup_inv_auto.
Qed.

Lemma step_terminating rl s s' why w now :
  sup_inv rl s -> phase s = PTerminating why w ->
  sup_step config rl (EvTerminated now) s = Some s' -> sup_inv rl s'.
Proof.
  intros [Hv Hs Hj (l & Hl & Habs) Hp] Hph Hstep. destruct s as [sl wk bg seen ph tr].
  simpl in Hph; subst ph. sup_unfold. subst wk. specialize (Habs ltac:(done)). subst l.
  assert (run life_step (tr ++ [ATerminate (wh_id w)]) LNone = Some LNone) as Hl'.
  { eapply life_extend; [exact Hl|]. simpl. by rewrite decide_True. }
  unfold sup_step in Hstep; simpl in Hstep. destruct why; simplify_eq; split; sup_unfold; eauto;
    try done; try lia.
Qed.

Lemma sup_step_inv rl ev s s' :
  sup_inv rl s -> sup_step config rl ev s = Some s' -> sup_inv rl s'.
Proof.
  intros Hi Hstep. destruct (phase s) eqn:Hph.
  all: try (by eapply step_select; [done|unfold selecting; rewrite Hph|]); try (by eapply step_exec).
  all: destruct ev; try (unfold sup_step in Hstep; rewrite Hph in Hstep; done).
  - by eapply step_top.
  - by eapply step_boot.
  - by eapply step_boot_panic.
  - by eapply step_sleeping.
  - by eapply step_check.
  - by eapply step_terminating.
  - by eapply step_after.
Qed.

Lemma svc_step_inv ev st st' :
  sup_inv st.1 st.2 -> svc_step config ev st = Some st' -> sup_inv st'.1 st'.2.
Proof.
  destruct st as [rl s], ev; simpl; intros Hi Hstep.
  - destruct (send_modify rl) eqn:Hm; simplify_eq/=. by eapply reload_inv.
  - simplify_eq/=. by apply drop_inv.
  - destruct (sup_step config rl ev s) eqn:Hm; simplify_eq/=. by eapply sup_step_inv.
Qed.

Lemma svc_run_inv evs now st :
  run (svc_step config) evs (svc_init now) = Some st -> sup_inv st.1 st.2.
Proof.
  apply (run_invariant _ (fun st : ReloadTx * Sup W => sup_inv st.1 st.2)).
  - intros e st1 st2. apply svc_step_inv.
  - apply sup_init_inv.
Qed.

(** ** Panics *)

(** Panics of the code the supervisor calls. *)
Definition env_panic (ev : SupEvent W) : bool :=
  match ev with EvExecPanic | EvBootPanic => true | _ => false end.

Definition no_env_panic (ev : SvcEvent W) : Prop :=
  match ev with Sup_ev ev => env_panic ev = false | _ => True end.

Lemma mark_idle_jobs sl sl' :
  mark_idle sl = Some sl' -> jobs_handled sl' = (jobs_handled sl + 1)%Z.
Proof.
  intros H'. apply (slot_apply_edge OpIdle) in H' as (_ & -> & _). simpl; lia.
Qed.

Lemma boot_worker_jobs spawned ready sl sl' r acts :
  boot_worker (W := W) spawned ready sl = Some (sl', r, acts) ->
  jobs_handled sl' = jobs_handled sl.
Proof.
  unfold boot_worker. intros Hb. case_hyp Hb; try done.
  match goal with H : mark_ready _ _ = Some _ |- _ => apply (slot_apply_edge (OpReady _)) in H as (_ & -> & _) end.
  simpl; lia.
Qed.

Lemma start_request_jobs rl s req :
  phase_inv rl s -> selecting s ->
  jobs_handled (slot (start_request req s)) = jobs_handled (slot s)
  /\ phase (start_request req s) = PExec req.
Proof.
  intros Hp Hsel. destruct (selecting_inv rl s Hp Hsel) as (w & Hw & Hst & _).
  unfold start_request. by rewrite Hw, (mark_busy_idle _ Hst).
Qed.

Lemma take_and_terminate_jobs why now s :
  (0 <= jobs_handled (slot s))%Z ->
  (jobs_handled (slot (take_and_terminate why now s)) <= jobs_handled (slot s))%Z
  /\ phase (take_and_terminate why now s) <> PPanicked.
Proof. intros Hj. unfold take_and_terminate. destruct (worker s), why; simpl; split; done || lia. Qed.

(** A step counts at most one job, and cannot panic on its own while the
    counter is below its limit. *)
Lemma sup_step_jobs rl ev s s' :
  sup_inv rl s -> sup_step config rl ev s = Some s' ->
  (jobs_handled (slot s') <= jobs_handled (slot s) + 1)%Z
  /\ (phase s <> PPanicked -> env_panic ev = false -> (jobs_handled (slot s) < u64_max)%Z ->
      phase s' <> PPanicked).
Proof.
  intros [Hv Hs Hj _ Hp] Hstep.
  assert (forall why now, s' = take_and_terminate why now s ->
    (jobs_handled (slot s') <= jobs_handled (slot s) + 1)%Z /\ phase s' <> PPanicked) as Hterm.
  { intros why now ->. destruct (take_and_terminate_jobs why now s Hj). split; [lia|done]. }
  assert (forall req, selecting s -> s' = start_request req s ->
    (jobs_handled (slot s') <= jobs_handled (slot s) + 1)%Z /\ phase s' <> PPanicked) as Hstart.
  { intros req Hsel ->. destruct (start_request_jobs rl s req Hp Hsel) as [-> ->]. split; [lia|done]. }
  unfold sup_step in Hstep. unfold selecting, phase_inv, serving in *.
  destruct (phase s) as [| | |[]| | | |why w|req| | |] eqn:Hph, ev; try done; case_hyp Hstep; simplify_eq/=;
    try (split; [lia|done]); try (split; [by eapply Hterm|intros; by eapply Hterm]);
    try (split; [by eapply Hstart|intros; by eapply Hstart]).
  all: try match goal with Hb : boot_worker _ _ _ = Some (_, _, _) |- _ =>
    apply boot_worker_jobs in Hb as ->; split; [lia|done] end.
  - destruct Hp as [(_ & Hst & _) _].
    destruct (boot_worker_spec spawned ready (slot s) Hst) as (? & ? & ? & ? & _). congruence.
  - apply mark_idle_jobs in Heqo. split; [lia|done].
  - split; [lia|]. intros _ _ Hlt. destruct Hp as (w & _ & Hst & _).
    destruct (mark_idle_busy (slot s) Hst) as (? & ? & _); [lia|congruence].
Qed.

Lemma svc_step_jobs n ev st st' :
  no_env_panic ev ->
  (sup_inv st.1 st.2 /\ ((n <= u64_max)%Z ->
     (jobs_handled (slot st.2) <= n)%Z /\ phase st.2 <> PPanicked)) ->
  svc_step config ev st = Some st' ->
  sup_inv st'.1 st'.2 /\ ((n + 1 <= u64_max)%Z ->
     (jobs_handled (slot st'.2) <= n + 1)%Z /\ phase st'.2 <> PPanicked).
Proof.
  intros Hev [Hi Hn] Hstep. split; [by eapply svc_step_inv|]. intros Hle.
  destruct Hn as [Hn Hph]; [lia|]. destruct st as [rl s], ev; simpl in *.
  - destruct (send_modify rl); simplify_eq/=. split; [lia|done].
  - simplify_eq/=. split; [lia|done].
  - destruct (sup_step config rl ev s) as [s'|] eqn:Hs; simplify_eq/=.
    apply sup_step_jobs in Hs as [Hj Hp]; [|done].
    split; [lia|]. apply Hp; [done..|lia].
Qed.

(** ** Requests and reloads *)

Lemma sup_step_trace rl ev s s' :
  sup_step config rl ev s = Some s' -> exists acts, trace s' = trace s ++ acts.
Proof.
  intros Hstep. destruct s as [sl wk bg seen ph tr].
  unfold sup_step, boot_worker, take_and_terminate, start_request in Hstep; simpl in Hstep.
  destruct ph as [| | |[]| | | | | | | |], ev; try done; destruct wk; case_hyp Hstep; simplify_eq/=;
    repeat case_match; simpl; rewrite <- ?app_assoc; solve [by exists []; rewrite app_nil_r|eexists; reflexivity].
Qed.

(** The polls of [changed()] that find nothing. *)
Definition is_poll (ev : SupEvent W) : Prop := ev = EvPolled \/ ev = EvWoken.

(** Steps of the pool's side of the reload channel. *)
Definition pool_side (ev : SvcEvent W) : Prop := ev = Reload \/ ev = DropPool.

Lemma poll_step rl ev s s' :
  sup_inv rl s -> sup_step config rl ev s = Some s' -> phase s' = PPolled ->
  is_poll ev /\ boot_generation s' = generation rl.
Proof.
  intros [Hv Hs _ _ Hp] Hstep Hph. unfold is_poll.
  assert ((ev = EvPolled \/ ev = EvWoken) /\ changed_ready rl s = false /\ s' = goto PPolled s /\ selecting s)
    as (Hev & Hch & -> & Hsel).
  { unfold sup_step, take_and_terminate, start_request, selecting in *.
    destruct (phase s) as [| | |[]| | | | | | | |], ev; try done; destruct (worker s); case_hyp Hstep;
      simplify_eq/=; repeat case_match; auto; done. }
  split; [done|]. simpl. destruct (selecting_inv rl s Hp Hsel) as (w & _ & _ & [Hle Hlt] & _).
  apply orb_false_iff in Hch as [Hch _]. apply bool_decide_eq_false in Hch.
  destruct (decide (boot_generation s = generation rl)) as [|Hne]; [done|].
  destruct Hch. specialize (Hlt ltac:(lia)). lia.
Qed.

(** A supervisor that is about to poll its inbox has polled the reload channel. *)
Lemma polled_run evs now rl s :
  run (svc_step config) evs (svc_init now) = Some (rl, s) -> phase s = PPolled ->
  exists evs1 e evs2 rl1 s1, evs = evs1 ++ Sup_ev e :: evs2 /\ is_poll e
    /\ run (svc_step config) evs1 (svc_init now) = Some (rl1, s1) /\ Forall pool_side evs2
    /\ boot_generation s = generation rl1.
Proof.
  revert rl s; induction evs as [|ev evs IH] using rev_ind; intros rl s Hrun Hph; [by injection Hrun as <- <-|].
  rewrite run_app in Hrun. destruct (run (svc_step config) evs (svc_init now)) as [[rl1 s1]|] eqn:Hr; [|done].
  cbn [run] in Hrun. destruct (svc_step config ev (rl1, s1)) as [[rl2 s2]|] eqn:Hstep; simplify_eq/=.
  pose proof (svc_run_inv _ _ _ Hr) as Hinv.
  assert (pool_side ev -> s1 = s -> exists evs1 e evs2 rl1 s1, evs ++ [ev] = evs1 ++ Sup_ev e :: evs2
    /\ is_poll e /\ run (svc_step config) evs1 (svc_init now) = Some (rl1, s1) /\ Forall pool_side evs2
    /\ boot_generation s = generation rl1) as Hpool.
  { intros Hev ->. destruct (IH rl1 s eq_refl Hph) as (evs1 & e & evs2 & rl0 & s0 & -> & He & Hr0 & Hf & Hg).
    exists evs1, e, (evs2 ++ [ev]), rl0, s0. rewrite <- app_assoc. split_and!; try done.
    apply Forall_app. split; [done|by constructor]. }
  destruct ev as [| |e]; simpl in Hstep.
  - apply Hpool; [by left|]. by destruct (send_modify rl1); simplify_eq/=.
  - apply Hpool; [by right|]. by simplify_eq/=.
  - destruct (sup_step config rl1 e s1) as [s2|] eqn:Hs; simplify_eq/=.
    destruct (poll_step rl e s1 s Hinv Hs Hph) as [He Hg]. by exists evs, e, [], rl, s1.
Qed.

(** What is left of a stale worker that has taken request [req], when the trace
    was [tr]. *)
Definition retired_soon (req : DispatchRequest) (id : Z) (tr : list Action) (st : ReloadTx * Sup W) : Prop :=
  let s := st.2 in
  let stale := (boot_generation s < generation st.1)%Z
    /\ exists w, worker s = Some w /\ wh_is_recyclable w = true /\ wh_id w = id in
  match phase s with
  | PExec r => r = req /\ trace s = tr /\ stale
  | PAfter => trace s = tr ++ [ARelease (permit req)] /\ stale
  | PTerminating Recycle w => trace s = tr ++ [ARelease (permit req)] /\ wh_id w = id
  | PPanicked => trace s = tr ++ [ARelease (permit req)]
  | _ => False
  end.

Definition retiring (req : DispatchRequest) (id : Z) (tr : list Action) (st : ReloadTx * Sup W) : Prop :=
  retired_soon req id tr st
  \/ exists rest, trace st.2 = tr ++ ARelease (permit req) :: ATerminate id :: rest.

Lemma retired_soon_step req id tr rl ev s s' :
  retired_soon req id tr (rl, s) -> sup_step config rl ev s = Some s' -> retiring req id tr (rl, s').
Proof.
  intros Hr Hstep. unfold retiring, retired_soon in *. destruct s as [sl wk bg seen ph tr'].
  unfold sup_step in Hstep. simpl in *.
  destruct ph as [| | | | | | |why w|r| | |]; try done; destruct ev; try done.
  - destruct why; try done. destruct Hr as [-> <-]. simplify_eq/=. right. exists [].
    by rewrite <- app_assoc.
  - destruct Hr as (-> & -> & Hg & w & -> & Hw & <-). left. destruct (mark_idle sl); simplify_eq/=; [|done].
    split_and!; [done..|]. exists (wh_execute w). by rewrite wh_execute_recyclable, wh_execute_id.
  - destruct Hr as (-> & -> & _). simplify_eq/=. by left.
  - destruct Hr as (-> & Hg & w & -> & Hw & <-). left.
    destruct (Z.ltb_spec bg (generation rl)); [|lia]. simpl in Hstep. rewrite Hw in Hstep.
    by simplify_eq/=.
Qed.

Lemma retiring_step req id tr ev st st' :
  retiring req id tr st -> svc_step config ev st = Some st' -> retiring req id tr st'.
Proof.
  destruct st as [rl s]. intros [Hr|[rest Hr]] Hstep.
  - destruct ev as [| |ev]; simpl in Hstep.
    + left. unfold send_modify in Hstep. case_decide; simplify_eq/=. unfold retired_soon in *; simpl in *.
      destruct (phase s) as [| | | | | | |why w|r| | |]; try done; naive_solver lia.
    + left. by simplify_eq/=.
    + destruct (sup_step config rl ev s) as [s'|] eqn:Hs; simplify_eq/=. by eapply retired_soon_step.
  - right. destruct ev as [| |ev]; simpl in Hstep.
    + destruct (send_modify rl); simplify_eq/=. eauto.
    + simplify_eq/=. eauto.
    + destruct (sup_step config rl ev s) as [s'|] eqn:Hs; simplify_eq/=.
      destruct (sup_step_trace _ _ _ _ Hs) as [acts ->]. simpl in Hr. rewrite Hr.
      exists (rest ++ acts). by rewrite <- app_assoc.
Qed.

(** * Properties *)

(** C16. The supervisor refines its abstract machine: on every run, whatever
    boots, reloads, requests, failures and timeouts occur, workers are spawned
    and terminated strictly one at a time, requests start only on the live
    worker and one at a time, each request's permit is released exactly once
    and before the next request, and a supervisor that has returned has
    terminated every worker it ever spawned. *)
Theorem supervisor_lifecycle evs now rl s
    (Hrun : run (svc_step config) evs (svc_init now) = Some (rl, s)) :
  exists l, run life_step (trace s) LNone = Some l
    /\ (phase s <> PPanicked -> l = abs s)
    /\ (phase s = PReturned -> l = LNone).
Proof.
  apply svc_run_inv in Hrun as [_ _ _ (l & Hl & Habs) Hp]. simpl in *. exists l.
  split_and!; [done|done|]. intros Hph. rewrite Habs by (by rewrite Hph).
  unfold phase_inv, abs in *. rewrite Hph in *. simpl in Hp. by rewrite Hp.
Qed.

(** C20. No assertion of the slot state machine can fail in the supervisor:
    short of a panic inside [runtime.spawn()] or [execute_streaming] themselves,
    the supervisor task does not panic in its first 2^64 - 1 steps ([jobs_handled] cannot
    overflow either), and [unreachable!()] is not reached. *)
Theorem supervisor_never_panics evs now rl s
    (Hrun : run (svc_step config) evs (svc_init now) = Some (rl, s))
    (Hev : Forall no_env_panic evs)
    (Hlen : (Z.of_nat (length evs) <= u64_max)%Z) :
  phase s <> PPanicked.
Proof.
  refine (proj2 (proj2 (run_invariant_count (svc_step config) no_env_panic
    (fun n (st : ReloadTx * Sup W) => sup_inv st.1 st.2 /\ ((n <= u64_max)%Z ->
     (jobs_handled (slot st.2) <= n)%Z /\ phase st.2 <> PPanicked))
    _ evs 0 (svc_init now) (rl, s) Hev _ Hrun) _)).
  - intros n ev st st'. apply svc_step_jobs.
  - split; [apply sup_init_inv|]. done.
  - by rewrite Z.add_0_l.
Qed.

(** C23. Recycling: a recyclable worker never serves more than [max_jobs]
    requests (one, when [max_jobs] is 0), counted by the abstract machine from
    its spawn. *)
Theorem supervisor_max_jobs evs now rl s w
    (Hrun : run (svc_step config) evs (svc_init now) = Some (rl, s))
    (Hw : worker s = Some w) (Hrec : wh_is_recyclable w = true)
    (Hph : phase s <> PPanicked) :
  exists l jobs, run life_step (trace s) LNone = Some l
    /\ (l = LAlive (wh_id w) jobs \/ exists p, l = LBusy (wh_id w) jobs p)
    /\ (jobs <= Z.max 1 (max_jobs config))%Z.
Proof.
  apply svc_run_inv in Hrun as [_ _ _ (l & Hl & Habs) Hp]. simpl in *.
  exists l, (jobs_handled (slot s)). split_and!; [done| |].
  - rewrite (Habs Hph). unfold abs. rewrite Hw. unfold phase_inv in Hp.
    destruct (phase s); eauto. by rewrite Hw in Hp.
  - unfold phase_inv, serving, vacant, below_limit in Hp.
    destruct (phase s); try done; rewrite Hw in Hp; naive_solver lia.
Qed.

(** C19. Stale code serves one request at most.  When the supervisor takes a
    request for a recyclable worker, it has polled the reload channel since it
    last woke, with nothing but reloads and the drop of the pool in between, and
    the worker was booted at the generation of that poll.  If a reload did slip
    in between the two polls of the [select!], the worker is terminated right
    after this request: in every continuation the request's permit is released,
    then the worker terminated, before anything else is started. *)
Theorem supervisor_serves_fresh evs now rl s req s' w
    (Hrun : run (svc_step config) evs (svc_init now) = Some (rl, s))
    (Hrecv : sup_step config rl (EvRecv req) s = Some s')
    (Hw : worker s = Some w) (Hrec : wh_is_recyclable w = true) :
  (exists evs1 e evs2 rl1 s1, evs = evs1 ++ Sup_ev e :: evs2 /\ is_poll e
     /\ run (svc_step config) evs1 (svc_init now) = Some (rl1, s1) /\ Forall pool_side evs2
     /\ boot_generation s = generation rl1)
  /\ phase s' = PExec req
  /\ trace s' = trace s ++ [AStart (permit req) (boot_generation s)]
  /\ ((boot_generation s < generation rl)%Z ->
      forall evs' rl' s'', run (svc_step config) evs' (rl, s') = Some (rl', s'') ->
        (exists k, trace s'' = trace s' ++ take k [ARelease (permit req); ATerminate (wh_id w)])
        \/ exists rest, trace s'' = trace s' ++ ARelease (permit req) :: ATerminate (wh_id w) :: rest).
Proof.
  pose proof (svc_run_inv _ _ _ Hrun) as Hinv. simpl in Hinv.
  pose proof (inv_phase _ _ Hinv) as Hp.
  assert (phase s = PPolled) as Hph.
  { unfold phase_inv, serving, sup_step in *. destruct (phase s) as [| | |[]| | | | | | | |]; try done.
    destruct Hp as (w1 & ? & _ & ? & _). congruence. }
  unfold sup_step in Hrecv. rewrite Hph in Hrecv. injection Hrecv as <-.
  assert (selecting s) as Hsel by (unfold selecting; by rewrite Hph).
  destruct (selecting_inv rl s Hp Hsel) as (w1 & Hw1 & Hst & Hf & _).
  assert (w1 = w) as -> by congruence.
  destruct (start_request_jobs rl s req Hp Hsel) as [_ Hexec].
  assert (start_request req s = goto (PExec req) (emit [AStart (permit req) (boot_generation s)]
    (set_slot (set_state Busy (slot s)) s))) as Heq.
  { unfold start_request. by rewrite Hw, (mark_busy_idle _ Hst). }
  split_and!; [by eapply polled_run|done|by rewrite Heq|].
  intros Hold evs' rl' s'' Hrun'.
  assert (retiring req (wh_id w) (trace (start_request req s)) (rl', s'')) as [Hmid|Hend]; [|left|by right].
  { refine (run_invariant _ _ _ evs' _ _ _ Hrun'); [intros e st st'; apply retiring_step|].
    left. unfold retired_soon. rewrite Heq. simpl. split_and!; [done..|by exists w]. }
  unfold retired_soon in Hmid. simpl in Hmid.
  destruct (phase s'') as [| | | | | | |why w2|r| | |]; try done.
  - destruct why; try done. destruct Hmid as [-> _]. by exists 1.
  - exists 0. destruct Hmid as (_ & -> & _). by rewrite app_nil_r.
  - exists 1. by destruct Hmid as [-> _].
  - exists 1. done.
Qed.

(** C22. A reload is never lost on an idle worker: whenever the recyclable worker
    of a supervisor that is about to poll, or asleep, is older than the current
    generation, the supervisor can do nothing but see the reload, so it takes no
    request; and it then terminates the old worker and boots a new one, at the
    current generation, on a fresh slot. *)
Theorem supervisor_reloads_idle evs now rl s w w' t1 t2
    (Hrun : run (svc_step config) evs (svc_init now) = Some (rl, s))
    (Hph : phase s = PSelect true \/ phase s = PParked) (Hw : worker s = Some w)
    (Hold : (boot_generation s < generation rl)%Z) :
  (forall ev s', sup_step config rl ev s = Some s' -> ev = EvChanged)
  /\ exists s', run (svc_step config)
         (Sup_ev <$> [EvChanged; EvCheck t1; EvTerminated t2; EvTop;
                      EvBoot (Ok w') (Completed (Ok tt))]) (rl, s) = Some (rl, s')
       /\ worker s' = Some (wh_ready w')
       /\ boot_generation s' = generation rl
       /\ jobs_handled (slot s') = 0%Z /\ created_at (slot s') = t2
       /\ trace s' = trace s ++ [ATerminate (wh_id w); ASpawn (wh_id (wh_ready w'))].
Proof.
  apply svc_run_inv in Hrun as [Hv Hseen _ _ Hp]. simpl in *.
  assert (selecting s) as Hsel by (unfold selecting; by destruct Hph as [-> | ->]).
  destruct (selecting_inv rl s Hp Hsel) as (w1 & Hw1 & _ & [_ Hlt] & _). specialize (Hlt Hold).
  assert (w1 = w) as -> by congruence. clear Hw1 Hsel Hp.
  destruct s as [sl wk bg seen ph tr]. simpl in *. subst wk. split.
  - intros ev s'. unfold sup_step, changed_ready; simpl. rewrite bool_decide_true by lia. simpl.
    destruct Hph as [-> | ->], ev; try done; case_decide; try done; destruct_and?; exfalso; lia.
  - destruct Hph as [-> | ->]; unfold svc_step, sup_step; simpl; rewrite decide_True by lia; simpl;
      (destruct (Z.ltb_spec bg (generation rl)); [|lia]); simpl;
      (eexists; split; [reflexivity|]); simpl; by rewrite <- app_assoc.
Qed.

(** A request that fails or exceeds [exec_timeout] ends exactly like one
    that succeeds: its permit is released, it counts as a job, and the worker
    stays in its slot for the next request; only the lifecycle policies and
    reloads replace it. *)
Theorem supervisor_ignores_outcome evs now rl s req o
    (Hrun : run (svc_step config) evs (svc_init now) = Some (rl, s))
    (Hph : phase s = PExec req) (Hj : (jobs_handled (slot s) < u64_max)%Z) :
  exists s', sup_step config rl (EvExec o) s = Some s'
    /\ sup_step config rl (EvExec (Completed (Ok tt))) s = Some s'
    /\ phase s' = PAfter /\ worker s' = wh_execute <$> worker s
    /\ jobs_handled (slot s') = (jobs_handled (slot s) + 1)%Z
    /\ trace s' = trace s ++ [ARelease (permit req)].
Proof.
  apply svc_run_inv in Hrun as [_ _ _ _ Hp]. simpl in *.
  destruct s as [sl wk bg seen ph tr]. simpl in Hph, Hj; subst ph.
  unfold phase_inv, serving in Hp; simpl in Hp. destruct Hp as (w & -> & Hst & _).
  destruct (mark_idle_busy sl Hst) as (sl' & Hm & Hst' & Hj'); [lia|].
  unfold sup_step; simpl. rewrite Hm. eexists; split_and!; done.
Qed.
End spec.

(** * Examples *)

Module Examples.
Import Sample.

Definition cfg : WorkersConfig := {|
  script := ""; php := ""; count := 1; max_concurrent_per_worker := 1; max_jobs := 2;
  ttl := 1000; exec_timeout := 10; boot_timeout := 10; warmup := false;
|}.
Definition w0 : MockWorker := {| mw_id := 7; terminated := false; should_panic := false |}.
Definition w1 : MockWorker := {| mw_id := 8; terminated := false; should_panic := false |}.
Definition req : DispatchRequest := {|
  request_id := "id"; method := "m"; payload := VNull; stream_tx := 0; permit := 3;
  request_body := None;
|}.

(** The state a list of events leads to. *)
Definition after (evs : list (SvcEvent MockWorker)) : ReloadTx * Sup MockWorker :=
  default (svc_init 0) (run (svc_step cfg) evs (svc_init 0)).

(** Boot, serve one request that times out, and wait again. *)
Definition served : list (SvcEvent MockWorker) := Sup_ev <$>
  [EvTop; EvBoot (Ok w0) (Completed (Ok tt)); EvPolled; EvParked; EvWoken; EvRecv req; EvExec Elapsed;
   EvAfter 5; EvTop].
(** The same, then shut down. *)
Definition shut : list (SvcEvent MockWorker) :=
  served ++ (Sup_ev <$> [EvPolled; EvInboxClosed; EvTerminated 6]).
(** A reload arrives while the first worker boots. *)
Definition reloaded : list (SvcEvent MockWorker) :=
  Sup_ev EvTop :: Reload ::
    (Sup_ev <$> [EvBoot (Ok w0) (Completed (Ok tt)); EvChanged; EvCheck 3; EvTerminated 4; EvTop;
                 EvBoot (Ok w1) (Completed (Ok tt))]).
(** A reload slips in between the two polls of the second worker. *)
Definition slipped : list (SvcEvent MockWorker) := reloaded ++ [Sup_ev EvPolled; Reload].
End Examples.
Import Examples.

Lemma supervisor_lifecycle_witness :
  phase (after shut).2 = PReturned
  /\ exists l, run life_step (trace (after shut).2) LNone = Some l /\ l = LNone.
Proof.
  destruct (supervisor_lifecycle cfg shut 0 (after shut).1 (after shut).2) as (l & Hl & _ & Hret);
    [vm_run|].
  split; [reflexivity|]. exact (ex_intro _ l (conj Hl (Hret eq_refl))).
Defined.

Lemma supervisor_never_panics_witness : phase (after served).2 <> PPanicked.
Proof.
  apply (supervisor_never_panics cfg served 0 (after served).1).
  - vm_run.
  - repeat constructor.
  - discriminate.
Defined.

Lemma supervisor_max_jobs_witness :
  exists l jobs, run life_step (trace (after served).2) LNone = Some l
    /\ (l = LAlive 7 jobs \/ exists p, l = LBusy 7 jobs p) /\ (jobs <= 2)%Z.
Proof.
  destruct (supervisor_max_jobs cfg served 0 (after served).1 (after served).2 w0)
    as (l & jobs & Hl & Hshape & Hle); [vm_run|done..|].
  exact (ex_intro _ l (ex_intro _ jobs (conj Hl (conj Hshape Hle)))).
Defined.

(** The second worker takes the request at generation 1, when the pool is at 2
    already, and is terminated after it. *)
Lemma supervisor_serves_fresh_witness :
  exists s', sup_step cfg (after slipped).1 (EvRecv req) (after slipped).2 = Some s'
    /\ boot_generation (after slipped).2 = 1%Z /\ generation (after slipped).1 = 2%Z
    /\ forall evs' rl' s'', run (svc_step cfg) evs' ((after slipped).1, s') = Some (rl', s'') ->
        (exists k, trace s'' = trace s' ++ take k [ARelease 3; ATerminate 8])
        \/ exists rest, trace s'' = trace s' ++ ARelease 3 :: ATerminate 8 :: rest.
Proof.
  destruct (eval_some (sup_step cfg (after slipped).1 (EvRecv req) (after slipped).2))
    as [s' Hs]; [vm_compute; reflexivity|].
  exists s'. split; [done|].
  destruct (supervisor_serves_fresh cfg slipped 0 (after slipped).1 (after slipped).2 req s' w1)
    as (_ & _ & _ & Hstale); [vm_run|exact Hs|reflexivity|reflexivity|].
  split_and!; [reflexivity|reflexivity|]. exact (Hstale eq_refl).
Defined.

Lemma supervisor_reloads_idle_witness :
  let st := after (served ++ [Reload]) in
  (forall ev s', sup_step cfg st.1 ev st.2 = Some s' -> ev = EvChanged)
  /\ exists s', run (svc_step cfg)
         (Sup_ev <$> [EvChanged; EvCheck 8; EvTerminated 9; EvTop;
                      EvBoot (Ok w1) (Completed (Ok tt))]) (st.1, st.2) = Some (st.1, s')
       /\ worker s' = Some w1.
Proof.
  destruct (supervisor_reloads_idle cfg (served ++ [Reload]) 0
    (after (served ++ [Reload])).1 (after (served ++ [Reload])).2 w0 w1 8 9)
    as (Hno & s' & Hrun & Hw & _).
  - vm_run.
  - left; reflexivity.
  - reflexivity.
  - reflexivity.
  - exact (conj Hno (ex_intro _ s' (conj Hrun Hw))).
Defined.

Lemma supervisor_ignores_outcome_witness :
  exists s', sup_step cfg (after (take 6 served)).1 (EvExec Elapsed) (after (take 6 served)).2 = Some s'
    /\ worker s' = Some w0.
Proof.
  destruct (supervisor_ignores_outcome cfg (take 6 served) 0 (after (take 6 served)).1
    (after (take 6 served)).2 req Elapsed) as (s' & Hs' & _ & _ & Hw & _).
  - vm_run.
  - reflexivity.
  - vm_compute; reflexivity.
  - exact (ex_intro _ s' (conj Hs' Hw)).
Defined.
