(* ===== verification/Dispatch.v ===== *)
(** Round-robin dispatch: the body of the request loop of [pool_main]
    ([crates/folk-core/src/worker_pool.rs]).

    [pool_dispatch] is one iteration of the loop: it offers the request to the
    slots in cyclic order, skipping those already marked dead, marking dead
    those whose inbox turns out to be closed, and stops at the first that takes
    it.  Which inboxes are closed is the environment's ([closed]). *)

From S2P Require Import Prelude.
From S2P Require Import Protocol.
From S2P Require Import Supervisor.

Section dispatch.
Context `{SJ : SerdeJson}.

(** The loop's mutable variables. *)
Record DispatchState := mkDispatchState {
  next : Z;
  dead : list bool;
}.

Inductive DispatchOutcome :=
| Sent (slot_id : nat) (req : DispatchRequest)
| Undeliverable (req : option DispatchRequest).

(** [vec![false; n]], [next = 0]. *)
Definition dispatch_init (n : nat) : DispatchState :=
  {| next := 0; dead := replicate n false |}.

(** [(next.wrapping_add(attempt)) % n]. *)
Definition chosen_slot (n : nat) (next : Z) (attempt : nat) : nat :=
  Z.to_nat (wrap64 (next + Z.of_nat attempt) mod Z.of_nat n).

(** The [for attempt in 0..n] loop over the remaining attempts.  [None] is the
    panic of [req.take().expect(..)] or of an index out of bounds. *)
Fixpoint try_slots (n : nat) (closed : nat -> bool) (attempts : list nat)
    (req : option DispatchRequest) (st : DispatchState) :
    option (DispatchState * DispatchOutcome) :=
  match attempts with
  | [] => Some (st, Undeliverable req)
  | attempt :: attempts =>
      let chosen := chosen_slot n (next st) attempt in
      match dead st !! chosen with
      | None => None
      | Some true => try_slots n closed attempts req st
      | Some false =>
          match req with
          | None => None
          | Some r =>
              if closed chosen then
                try_slots n closed attempts (Some r)
                  {| next := next st; dead := <[chosen := true]> (dead st) |}
              else
                Some ({| next := wrap64 (Z.of_nat chosen + 1); dead := dead st |}, Sent chosen r)
          end
      end
  end.

Definition pool_dispatch (n : nat) (closed : nat -> bool) (initial_req : DispatchRequest)
    (st : DispatchState) : option (DispatchState * DispatchOutcome) :=
  try_slots n closed (seq 0 n) (Some initial_req) st.

(** * Reference definition *)

(** The slots in the order they are tried. *)
Definition cyclic (n next : nat) : list nat := (fun a => (next + a) mod n) <$> seq 0 n.

Definition live (st : DispatchState) (closed : nat -> bool) (i : nat) : Prop :=
  dead st !! i = Some false /\ closed i = false.

#[export] Instance live_dec st closed i : Decision (live st closed i).
Proof. unfold live. apply _. Defined.

(** The state's variables stay in range. *)
Definition dispatch_wf (n : nat) (st : DispatchState) : Prop :=
  length (dead st) = n /\ (0 <= next st <= Z.of_nat n)%Z.

Lemma chosen_slot_spec n next a :
  (0 <= next <= Z.of_nat n)%Z -> a < n -> (2 * Z.of_nat n <= u64_max)%Z ->
  chosen_slot n next a = (Z.to_nat next + a) mod n.
Proof.
  intros Hnext Ha Hn. unfold chosen_slot.
  rewrite wrap64_small by lia. rewrite Z2Nat.inj_mod by lia.
  rewrite Nat2Z.id, Z2Nat.inj_add, Nat2Z.id by lia. done.
Qed.

Lemma try_slots_spec n closed attempts r st :
  dispatch_wf n st -> (2 * Z.of_nat n <= u64_max)%Z -> Forall (fun a => a < n) attempts ->
  exists st' o, try_slots n closed attempts (Some r) st = Some (st', o)
    /\ dispatch_wf n st'
    /\ (forall i, dead st' !! i = Some false -> dead st !! i = Some false)
    /\ (forall i, live st closed i -> dead st' !! i = Some false)
    /\ match list_find (live st closed) ((fun a => (Z.to_nat (next st) + a) mod n) <$> attempts) with
       | Some (_, i) => o = Sent i r /\ next st' = (Z.of_nat i + 1)%Z
       | None => o = Undeliverable (Some r) /\ next st' = next st
       end.
Proof.
  intros Hwf Hn Hatt. revert st Hwf; induction Hatt as [|a l Ha Hl IH]; intros st [Hlen Hnext].
  { exists st, (Undeliverable (Some r)). split_and!; try done. by intros i []. }
  cbn [try_slots]. rewrite chosen_slot_spec by done.
  set (i := (Z.to_nat (next st) + a) mod n).
  assert (i < n) as Hi by (apply Nat.mod_upper_bound; lia).
  destruct (lookup_lt_is_Some_2 (dead st) i) as [d Hd]; [lia|]. rewrite Hd.
  csimpl. fold i. clearbody i. destruct d.
  - destruct (IH st) as (st' & o & -> & Hwf' & Hmono & Hlive & Hfind); [done|].
    eexists _, _. split_and!; [done|done|done|done|].
    rewrite decide_False by (intros [? _]; congruence).
    destruct (list_find _ _) as [[? ?]|]; done.
  - destruct (closed i) eqn:Hc.
    + set (st1 := {| next := next st; dead := <[i:=true]> (dead st) |}).
      assert (forall j, live st1 closed j <-> live st closed j) as Hiff.
      { intros j. unfold live; simpl. destruct (decide (i = j)) as [<-|].
        - rewrite list_lookup_insert_eq by lia. split; intros [? ?]; congruence.
        - by rewrite list_lookup_insert_ne. }
      destruct (IH st1) as (st' & o & -> & Hwf' & Hmono & Hlive & Hfind).
      { split; [|done]. unfold st1; simpl. by rewrite length_insert. }
      eexists _, _. split_and!; [done|done| | |].
      * intros j Hj%Hmono. simpl in Hj. destruct (decide (i = j)) as [<-|];
          [by rewrite list_lookup_insert_eq in Hj by lia|by rewrite list_lookup_insert_ne in Hj].
      * intros j Hj. by apply Hlive, Hiff.
      * rewrite decide_False by (intros [_ ?]; congruence).
        rewrite (list_find_ext _ (live st closed)) in Hfind by done. simpl in Hfind.
        destruct (list_find _ _) as [[? ?]|]; done.
    + rewrite wrap64_small by lia. eexists _, _. split_and!; [done| |done| |].
      * split; simpl; lia.
      * by intros j [? _].
      * rewrite decide_True by done. done.
Qed.

(** C21. One iteration of the dispatch loop never panics and is the reference
    definition: the request goes, unchanged, to the first slot in cyclic order
    after the last one used whose inbox is open, and is undeliverable exactly
    when every inbox is closed; a slot is marked dead only if it was offered a
    request with its inbox closed, and live slots are never marked. *)
Theorem pool_dispatch_first_live n closed r st
    (Hwf : dispatch_wf n st) (Hn : (2 * Z.of_nat n <= u64_max)%Z) :
  exists st' o, pool_dispatch n closed r st = Some (st', o)
    /\ dispatch_wf n st'
    /\ (forall i, live st closed i -> dead st' !! i = Some false)
    /\ (forall i, dead st !! i = Some false -> dead st' !! i = Some true -> closed i = true)
    /\ match list_find (live st closed) (cyclic n (Z.to_nat (next st))) with
       | Some (_, i) => o = Sent i r /\ next st' = (Z.of_nat i + 1)%Z
       | None => o = Undeliverable (Some r)
                 /\ forall i, i < n -> dead st !! i = Some true \/ closed i = true
       end.
Proof.
  destruct (try_slots_spec n closed (seq 0 n) r st Hwf Hn) as (st' & o & Hrun & Hwf' & Hmono & Hlive & Hfind).
  { apply Forall_forall. intros a Ha%elem_of_seq. lia. }
  exists st', o. split_and!; [exact Hrun|done|done| |].
  - intros i Hd Hd'. destruct (closed i) eqn:Hc; [done|].
    rewrite (Hlive i) in Hd' by done. done.
  - fold (cyclic n (Z.to_nat (next st))) in Hfind.
    destruct (list_find _ (cyclic n _)) as [[? ?]|] eqn:Hf; [done|]. split; [tauto|].
    intros i Hi. apply list_find_None in Hf. destruct Hwf as [Hlen Hnext].
    assert (i ∈ cyclic n (Z.to_nat (next st))) as Hin.
    { unfold cyclic. apply list_elem_of_fmap.
      exists ((n + i - Z.to_nat (next st)) mod n). split.
      - rewrite Nat.Div0.add_mod_idemp_r.
        replace (Z.to_nat (next st) + (n + i - Z.to_nat (next st))) with (i + 1 * n) by lia.
        rewrite Nat.Div0.mod_add, Nat.mod_small; lia.
      - apply elem_of_seq. pose proof (Nat.mod_upper_bound (n + i - Z.to_nat (next st)) n). lia. }
    rewrite Forall_forall in Hf. apply Hf in Hin. unfold live in Hin.
    destruct (lookup_lt_is_Some_2 (dead st) i) as [[] Hd]; [lia|by left|right].
    destruct (closed i); tauto.
Qed.

(** * Fairness *)

(** A sequence of requests dispatched one after the other. *)
Fixpoint dispatch_all (n : nat) (closed : nat -> bool) (reqs : list DispatchRequest)
    (st : DispatchState) : option (DispatchState * list DispatchOutcome) :=
  match reqs with
  | [] => Some (st, [])
  | r :: reqs =>
      match pool_dispatch n closed r st with
      | None => None
      | Some (st, o) =>
          match dispatch_all n closed reqs st with
          | None => None
          | Some (st, os) => Some (st, o :: os)
          end
      end
  end.

Lemma dispatch_alive_step n r st :
  0 < n -> (2 * Z.of_nat n <= u64_max)%Z -> dead st = replicate n false ->
  (0 <= next st <= Z.of_nat n)%Z ->
  pool_dispatch n (fun _ => false) r st =
    Some ({| next := Z.of_nat (Z.to_nat (next st) mod n) + 1; dead := dead st |},
          Sent (Z.to_nat (next st) mod n) r).
Proof.
  intros Hn0 Hn Hd Hnext. unfold pool_dispatch. destruct n as [|n]; [lia|].
  cbn [seq try_slots]. rewrite chosen_slot_spec, Nat.add_0_r by lia.
  pose proof (Nat.mod_upper_bound (Z.to_nat (next st)) (S n)).
  rewrite Hd, lookup_replicate_2 by lia. rewrite wrap64_small by lia. by rewrite <- Hd.
Qed.

(** While every slot is alive the load is spread exactly evenly: the k-th
    request goes to slot k mod n, so over any prefix two slots differ by at
    most one request. *)
Theorem dispatch_round_robin n reqs
    (Hn0 : 0 < n) (Hn : (2 * Z.of_nat n <= u64_max)%Z) :
  exists st os, dispatch_all n (fun _ => false) reqs (dispatch_init n) = Some (st, os)
    /\ os = imap (fun k r => Sent (k mod n) r) reqs.
Proof.
  assert (forall k st, dead st = replicate n false -> (0 <= next st <= Z.of_nat n)%Z ->
    Z.to_nat (next st) mod n = k mod n ->
    exists st' os, dispatch_all n (fun _ => false) reqs st = Some (st', os)
      /\ os = imap (fun j r => Sent ((k + j) mod n) r) reqs) as Hgen.
  { induction reqs as [|r reqs IH]; intros k st Hd Hnext Hk; [by eexists _, _|].
    cbn [dispatch_all]. rewrite dispatch_alive_step by done.
    pose proof (Nat.mod_upper_bound (Z.to_nat (next st)) n).
    edestruct (IH (S k)) as (st' & os & -> & ->); simpl; [done|simpl; lia| |].
    - rewrite Z2Nat.inj_add, Nat2Z.id by lia. simpl Z.to_nat. change (Pos.to_nat 1) with 1.
      rewrite Nat.Div0.add_mod_idemp_l, <- Nat.Div0.add_mod_idemp_l, Hk.
      rewrite Nat.Div0.add_mod_idemp_l. f_equal; lia.
    - eexists _, _. split; [done|]. csimpl. f_equal.
      + by rewrite Nat.add_0_r, Hk.
      + apply imap_ext. intros j x _. simpl. do 2 f_equal. lia. }
  apply (Hgen 0); simpl; [done|lia|done].
Qed.
End dispatch.

(** * Examples *)

Module Examples.
Import Sample.

Definition req (k : nat) : DispatchRequest := {|
  request_id := "id"; method := "m"; payload := VNull; stream_tx := k; permit := k;
  request_body := None;
|}.
End Examples.

(** Slot 0's supervisor has died: it is marked and the request moves on. *)
Lemma pool_dispatch_first_live_witness :
  exists st' o, pool_dispatch 3 (fun i => i =? 0) (Examples.req 9) (dispatch_init 3) = Some (st', o)
    /\ o = Sent 1 (Examples.req 9) /\ next st' = 2%Z.
Proof.
  destruct (pool_dispatch_first_live 3 (fun i => i =? 0) (Examples.req 9) (dispatch_init 3))
    as (st' & o & Hrun & _ & _ & _ & Hspec).
  - split; [reflexivity|simpl; lia].
  - vm_compute; discriminate.
  - exact (ex_intro _ st' (ex_intro _ o (conj Hrun Hspec))).
Defined.

Lemma dispatch_round_robin_witness :
  exists st os, dispatch_all 2 (fun _ => false) (Examples.req <$> [5; 6; 7]) (dispatch_init 2) = Some (st, os)
    /\ os = [Sent 0 (Examples.req 5); Sent 1 (Examples.req 6); Sent 0 (Examples.req 7)].
Proof.
  exact (dispatch_round_robin 2 (Examples.req <$> [5; 6; 7]) ltac:(lia) ltac:(vm_compute; discriminate)).
Defined.
