(* ===== verification/Pool.v ===== *)
(** The worker pool as a whole ([crates/folk-core/src/worker_pool.rs]): the
    semaphore, the request channel, [pool_main], the slot inboxes and the
    supervisors, with every interleaving of their steps.

    A step of the pool is one of: a caller acquires a permit, hands its request
    to the request channel, or is dropped while it waits to; [pool_main] takes a
    request or makes one attempt at one slot; one supervisor makes one step; a
    reload; the drop of the pool.  Channels are the bounded channels of the
    source (1024 requests, 8 per inbox): a send to a full channel waits, so the
    step is not enabled. *)

From S2P Require Import Prelude.
From S2P Require Import Config.
From S2P Require Import WorkerSlot.
From S2P Require Import Protocol.
From S2P Require Import Collect.
From S2P Require Import Runtime.
From S2P Require Import Supervisor.
From S2P Require Import SupervisorSpec.
From S2P Require Import Dispatch.

Definition request_channel_capacity : nat := 1024.
Definition inbox_capacity : nat := 8.

Section pool.
Context `{SJ : SerdeJson} `{WH : WorkerHandle W}.
Context (config : WorkersConfig).

(** A slot: its inbox and its supervisor task. *)
Record Slot := mkSlot {
  inbox : list DispatchRequest;
  supervisor : Sup W;
}.

(** The supervisor task has ended, so the receiving end of the inbox is
    gone and [send] fails. *)
Definition ended (s : Sup W) : bool :=
  match phase s with PReturned | PPanicked => true | _ => false end.

Record PoolState := mkPoolState {
  available : nat;
  senders : list DispatchRequest;
  request_rx : list DispatchRequest;
  hand : option (DispatchRequest * nat);
  main : DispatchState;
  slots : list Slot;
  reload_tx : ReloadTx;
  finished : list DispatchRequest;
  dropped : list DispatchRequest;
  cancelled : list DispatchRequest;
}.

(** [WorkerPool::new] and the set-up of [pool_main]. *)
Definition pool_new (now : Z) : PoolState := {|
  available := count config;
  senders := []; request_rx := []; hand := None;
  main := dispatch_init (count config);
  slots := replicate (count config)
             {| inbox := []; supervisor := sup_init reload_channel now |};
  reload_tx := reload_channel;
  finished := []; dropped := []; cancelled := [];
|}.

Inductive PoolEvent :=
| EvAcquire (req : DispatchRequest)
| EvSend
| EvMainRecv
| EvMainTry
| EvMainGiveUp
| EvSlot (i : nat) (ev : SupEvent W)
| EvTriggerReload
| EvCancel (k : nat)
| EvDropPool.

(** The event with which a supervisor takes the head of its inbox carries that
    request.  It goes to sleep when the inbox is empty, and is woken by a request.
    [inbox.recv()] never returns [None]: the senders are [slot_inboxes], which
    [pool_main] holds until every supervisor has ended. *)
Definition inbox_event (ev : SupEvent W) (q : list DispatchRequest) :
    option (list DispatchRequest) :=
  match ev with
  | EvRecv _ => match q with _ :: q' => Some q' | [] => None end
  | EvParked => match q with [] => Some q | _ :: _ => None end
  | EvWoken => match q with _ :: _ => Some q | [] => None end
  | EvInboxClosed => None
  | _ => Some q
  end.

Definition recv_event (ev : SupEvent W) (q : list DispatchRequest) : SupEvent W :=
  match ev, q with
  | EvRecv _, req :: _ => EvRecv req
  | _, _ => ev
  end.

(** The requests whose permits a supervisor step gives back: the executed one
    ([drop(permit)] or unwinding), one taken by a step that panics, and, when
    the task ends, those still in the inbox it drops. *)
Definition completed_by (s s' : Sup W) (ev : SupEvent W) : list DispatchRequest :=
  match phase s, ev with
  | PExec req, EvExec _ => [req]
  | _, _ => []
  end.

Definition dropped_by (s s' : Sup W) (ev : SupEvent W) (q : list DispatchRequest) :
    list DispatchRequest :=
  match phase s, ev with
  | PExec req, EvExecPanic => [req]
  | _, EvRecv req => if ended s' then [req] else []
  | _, _ => []
  end ++ (if ended s' then q else []).

Definition pool_step (ev : PoolEvent) (p : PoolState) : option PoolState :=
  match ev with
  | EvAcquire req =>
      (* semaphore.acquire_owned() *)
      match available p, tx_dropped (reload_tx p) with
      | O, _ | _, true => None
      | S n, false => Some {| available := n; senders := senders p ++ [req]; request_rx := request_rx p;
                       hand := hand p; main := main p; slots := slots p;
                       reload_tx := reload_tx p; finished := finished p; dropped := dropped p; cancelled := cancelled p |}
      end
  | EvSend =>
      (* request_tx.send(..) of the caller that has waited longest *)
      match senders p with
      | [] => None
      | req :: rest =>
          if decide (length (request_rx p) < request_channel_capacity) then
            Some {| available := available p; senders := rest; request_rx := request_rx p ++ [req];
                    hand := hand p; main := main p; slots := slots p;
                    reload_tx := reload_tx p; finished := finished p; dropped := dropped p; cancelled := cancelled p |}
          else None
      end
  | EvMainRecv =>
      (* while let Some(initial_req) = request_rx.recv() *)
      match hand p, request_rx p with
      | None, req :: rest =>
          Some {| available := available p; senders := senders p; request_rx := rest;
                  hand := Some (req, 0); main := main p; slots := slots p;
                  reload_tx := reload_tx p; finished := finished p; dropped := dropped p; cancelled := cancelled p |}
      | _, _ => None
      end
  | EvMainTry =>
      (* one turn of the attempt loop *)
      match hand p with
      | None => None
      | Some (req, attempt) =>
          if decide (attempt < length (slots p)) then
            let chosen := chosen_slot (length (slots p)) (next (main p)) attempt in
            match dead (main p) !! chosen, slots p !! chosen with
            | Some true, _ =>
                Some {| available := available p; senders := senders p; request_rx := request_rx p;
                        hand := Some (req, S attempt); main := main p; slots := slots p;
                        reload_tx := reload_tx p; finished := finished p; dropped := dropped p; cancelled := cancelled p |}
            | Some false, Some sl =>
                if ended (supervisor sl) then
                  Some {| available := available p; senders := senders p; request_rx := request_rx p;
                          hand := Some (req, S attempt);
                          main := {| next := next (main p);
                                     dead := <[chosen := true]> (dead (main p)) |};
                          slots := slots p;
                          reload_tx := reload_tx p; finished := finished p; dropped := dropped p; cancelled := cancelled p |}
                else if decide (length (inbox sl) < inbox_capacity) then
                  Some {| available := available p; senders := senders p; request_rx := request_rx p;
                          hand := None;
                          main := {| next := wrap64 (Z.of_nat chosen + 1); dead := dead (main p) |};
                          slots := <[chosen := {| inbox := inbox sl ++ [req];
                                                  supervisor := supervisor sl |}]> (slots p);
                          reload_tx := reload_tx p; finished := finished p; dropped := dropped p; cancelled := cancelled p |}
                else None
            | _, _ => None
            end
          else None
      end
  | EvMainGiveUp =>
      (* !sent: the permit drops with the request *)
      match hand p with
      | Some (req, attempt) =>
          if decide (attempt < length (slots p)) then None
          else Some {| available := S (available p); senders := senders p;
                       request_rx := request_rx p; hand := None; main := main p; slots := slots p;
                       reload_tx := reload_tx p; finished := finished p;
                       dropped := dropped p ++ [req]; cancelled := cancelled p |}
      | None => None
      end
  | EvSlot i ev =>
      match slots p !! i with
      | None => None
      | Some sl =>
          match inbox_event ev (inbox sl) with
          | None => None
          | Some q =>
              let ev := recv_event ev (inbox sl) in
              match sup_step config (reload_tx p) ev (supervisor sl) with
              | None => None
              | Some s' =>
                  let fin := completed_by (supervisor sl) s' ev in
                  let drp := dropped_by (supervisor sl) s' ev q in
                  Some {| available := available p + length fin + length drp;
                          senders := senders p; request_rx := request_rx p; hand := hand p;
                          main := main p;
                          slots := <[i := {| inbox := if ended s' then [] else q;
                                             supervisor := s' |}]> (slots p);
                          reload_tx := reload_tx p;
                          finished := finished p ++ fin; dropped := dropped p ++ drp;
                          cancelled := cancelled p |}
              end
          end
      end
  | EvTriggerReload =>
      match send_modify (reload_tx p), tx_dropped (reload_tx p) with
      | None, _ | _, true => None
      | Some rl, false =>
          Some {| available := available p; senders := senders p; request_rx := request_rx p;
                  hand := hand p; main := main p; slots := slots p;
                  reload_tx := rl; finished := finished p; dropped := dropped p; cancelled := cancelled p |}
      end
  | EvCancel k =>
      (* the caller is dropped in request_tx.send(..): so are its request and permit *)
      match senders p !! k with
      | None => None
      | Some req =>
          Some {| available := S (available p); senders := delete k (senders p);
                  request_rx := request_rx p; hand := hand p; main := main p; slots := slots p;
                  reload_tx := reload_tx p; finished := finished p; dropped := dropped p;
                  cancelled := cancelled p ++ [req] |}
      end
  | EvDropPool =>
      (* the last reference to the pool: no caller is inside dispatch_streamed *)
      match senders p, tx_dropped (reload_tx p) with
      | [], false =>
          Some {| available := available p; senders := []; request_rx := request_rx p;
                  hand := hand p; main := main p; slots := slots p;
                  reload_tx := drop_reload_tx (reload_tx p); finished := finished p;
                  dropped := dropped p; cancelled := cancelled p |}
      | _, _ => None
      end
  end.
End pool.

Arguments Slot {SJ} W.
Arguments PoolState {SJ} W.
Arguments PoolEvent {SJ} W.
