(* ===== verification/PoolSpec.v ===== *)
(** What the pool promises: permits and requests are conserved, nothing is lost
    while its supervisors live, dispatch never waits, and every slot keeps the
    supervisor's invariant. *)

From S2P Require Import Prelude.
From S2P Require Import Config.
From S2P Require Import WorkerSlot.
From S2P Require Import Protocol.
From S2P Require Import Runtime.
From S2P Require Import Supervisor.
From S2P Require Import SupervisorSpec.
From S2P Require Import Dispatch.
From S2P Require Import Pool.

Section spec.
Context `{SJ : SerdeJson} `{WL : WorkerHandleLaws W}.
Context (config : WorkersConfig).

Implicit Types (p : PoolState W) (s : Sup W).

(** The requests that hold a permit, by where they are. *)
Definition executing s : list DispatchRequest :=
  match phase s with PExec req => [req] | _ => [] end.

Definition slot_requests (sl : Slot W) : list DispatchRequest :=
  inbox sl ++ executing (supervisor sl).

Definition in_hand p : list DispatchRequest :=
  match hand p with Some (req, _) => [req] | None => [] end.

Definition in_flight p : list DispatchRequest :=
  senders p ++ request_rx p ++ in_hand p ++ (slots p ≫= slot_requests).

(** Every request that was ever given a permit. *)
Definition accounted p : list DispatchRequest := in_flight p ++ finished p ++ dropped p ++ cancelled p.

Definition acquired (ev : PoolEvent W) : list DispatchRequest :=
  match ev with EvAcquire req => [req] | _ => [] end.

(** * Conservation *)

Lemma sup_step_requests rl ev s s' q0 q :
  inbox_event ev q0 = Some q ->
  sup_step config rl (recv_event ev q0) s = Some s' ->
  q0 ++ executing s ≡ₚ
    (if ended s' then [] else q) ++ executing s'
    ++ completed_by s s' (recv_event ev q0) ++ dropped_by s s' (recv_event ev q0) q.
Proof.
  intros Hq Hstep. destruct s as [sl wk bg seen ph tr].
  unfold executing, completed_by, dropped_by, ended.
  unfold sup_step, boot_worker, take_and_terminate, start_request in Hstep; simpl in *.
  destruct ev, q0 as [|r q0]; simpl in *; simplify_eq/=.
  all: destruct ph as [| | |[]| | | | | | | |], wk; try done; case_hyp Hstep; simplify_eq/=; rewrite ?app_nil_r;
    try done; try solve_Permutation.
Qed.

Ltac count_requests := repeat (rewrite ?length_app; simpl); lia.

Lemma slot_step_conserves i ev p p' :
  pool_step config (EvSlot i ev) p = Some p' ->
  accounted p' ≡ₚ accounted p
  /\ available p' + length (in_flight p') = available p + length (in_flight p).
Proof.
  intros Hstep. simpl in Hstep. destruct (slots p !! i) as [sl|] eqn:Hi; [|done].
  destruct (inbox_event ev (inbox sl)) as [q|] eqn:Hq; [|done].
  destruct (sup_step _ _ _ _) as [s'|] eqn:Hs; [|done]. simplify_eq/=.
  pose proof (sup_step_requests _ _ _ _ _ _ Hq Hs) as Hreq.
  set (fin := completed_by _ _ _) in *. set (drp := dropped_by _ _ _ _) in *.
  destruct (bind_insert_perm slot_requests (slots p) i sl Hi) as (rest & Hold & Hnew).
  unfold accounted, in_flight, in_hand; simpl. rewrite Hold, Hnew. unfold slot_requests; simpl.
  split.
  - rewrite Hreq. solve_Permutation.
  - rewrite Hreq. count_requests.
Qed.

Lemma pool_step_conserves ev p p' :
  pool_step config ev p = Some p' ->
  accounted p' ≡ₚ acquired ev ++ accounted p
  /\ available p' + length (in_flight p') = available p + length (in_flight p).
Proof.
  destruct ev; [..|by apply slot_step_conserves| | |]; intros Hstep; simpl in Hstep;
    unfold accounted, in_flight, in_hand.
  - destruct (available p) as [|n] eqn:Ha, (tx_dropped (reload_tx p)); simplify_eq/=.
    split; [solve_Permutation|]. count_requests.
  - destruct (senders p) as [|r rest] eqn:Hs; [done|]. case_decide; simplify_eq/=.
    split; [solve_Permutation|]. count_requests.
  - destruct (hand p); [done|]. destruct (request_rx p) as [|r rest] eqn:Hr; simplify_eq/=.
    split; [solve_Permutation|]. count_requests.
  - destruct (hand p) as [[req a]|] eqn:Hh; [|done]. case_decide; [|done].
    set (i := chosen_slot _ _ _) in *. clearbody i.
    destruct (dead (main p) !! i) as [[]|]; [simplify_eq/=; done| |done].
    destruct (slots p !! i) as [sl|] eqn:Hi; [|done].
    destruct (ended (supervisor sl)); [simplify_eq/=; done|]. case_decide; [|done]. simplify_eq/=.
    destruct (bind_insert_perm slot_requests (slots p) i sl Hi) as (rest & Hold & Hnew).
    rewrite Hold, Hnew. unfold slot_requests; simpl.
    split; [solve_Permutation|]. count_requests.
  - destruct (hand p) as [[req a]|] eqn:Hh; [|done]. case_decide; [done|]. simplify_eq/=.
    split; [solve_Permutation|]. count_requests.
  - destruct (send_modify (reload_tx p)), (tx_dropped (reload_tx p)); simplify_eq/=. done.
  - destruct (senders p !! k) as [req|] eqn:Hk; simplify_eq/=.
    pose proof (delete_Permutation _ _ _ Hk) as Hdel. apply Permutation_length in Hdel as Hlen.
    set (rest := delete k (senders p)) in *. clearbody rest. simpl in Hlen. split.
    + rewrite Hdel. solve_Permutation.
    + rewrite !length_app, Hlen. count_requests.
  - destruct (senders p) eqn:Hs, (tx_dropped (reload_tx p)); by simplify_eq/=.
Qed.

(** * Invariant *)

(** Every slot already tried for the request in hand is marked dead. *)
Definition hand_inv p : Prop :=
  match hand p with
  | None => True
  | Some (_, a) =>
      a <= length (slots p)
      /\ forall b, b < a -> dead (main p) !! chosen_slot (length (slots p)) (next (main p)) b = Some true
  end.

Definition slot_inv p i (sl : Slot W) : Prop :=
  sup_inv config (reload_tx p) (supervisor sl)
  /\ (ended (supervisor sl) = true -> inbox sl = [])
  /\ length (inbox sl) <= inbox_capacity
  /\ (dead (main p) !! i = Some true -> ended (supervisor sl) = true).

Record pool_inv p : Prop := {
  pinv_count : length (slots p) = count config;
  pinv_wf : dispatch_wf (count config) (main p);
  pinv_permits : available p + length (in_flight p) = count config;
  pinv_hand : hand_inv p;
  pinv_slots : forall i sl, slots p !! i = Some sl -> slot_inv p i sl;
  pinv_lost : (forall i sl, slots p !! i = Some sl -> ended (supervisor sl) = false) -> dropped p = [];
  pinv_requests : length (request_rx p) <= request_channel_capacity;
}.

Hypothesis Hcount : (2 * Z.of_nat (count config) <= u64_max)%Z.

Lemma pool_new_inv now : pool_inv (pool_new config now).
Proof.
  split; simpl.
  - by rewrite length_replicate.
  - split; simpl; [by rewrite length_replicate|lia].
  - unfold in_flight, in_hand; simpl.
    assert (forall n, replicate n {| inbox := []; supervisor := sup_init reload_channel now |}
      ≫= slot_requests = []) as -> by (induction n; csimpl; done). simpl; lia.
  - done.
  - intros i sl [-> Hi]%lookup_replicate. split_and!; simpl; [apply sup_init_inv|done|lia|].
    by intros [? _]%lookup_replicate.
  - done.
  - lia.
Qed.

Lemma chosen_slot_lt n a (st : DispatchState) :
  dispatch_wf n st -> a < n -> (2 * Z.of_nat n <= u64_max)%Z ->
  chosen_slot n (next st) a < n.
Proof.
  intros [_ Hnext] Ha Hn. rewrite chosen_slot_spec by done. apply Nat.mod_upper_bound. lia.
Qed.

Lemma sup_step_ended rl ev s s' :
  sup_step config rl ev s = Some s' -> ended s = false.
Proof. unfold sup_step, ended. by destruct (phase s). Qed.

Lemma dropped_by_nil rl ev s s' q :
  sup_step config rl ev s = Some s' -> ended s' = false -> dropped_by s s' ev q = [].
Proof.
  unfold dropped_by. intros Hstep Hend. rewrite Hend, app_nil_r.
  unfold sup_step, start_request, goto in Hstep. destruct ev; try by destruct (phase s).
  - destruct (phase s) as [| | |[]| | | | | | | |]; try done; destruct (ended s') eqn:He; try done;
      simplify_eq/=; by repeat case_match.
Qed.

(** The steps that leave the slots and the dispatch state alone. *)
Lemma inv_same_slots p p' :
  pool_inv p -> slots p' = slots p -> main p' = main p -> reload_tx p' = reload_tx p ->
  available p' + length (in_flight p') = count config ->
  hand_inv p' ->
  ((forall i sl, slots p !! i = Some sl -> ended (supervisor sl) = false) -> dropped p' = []) ->
  length (request_rx p') <= request_channel_capacity ->
  pool_inv p'.
Proof.
  intros [] Hsl Hm Hr Hp Hh Hd Hq. split; rewrite ?Hsl, ?Hm, ?Hr; try done.
  intros i sl Hi. unfold slot_inv. rewrite Hm, Hr. by eapply pinv_slots0.
Qed.

Lemma step_permits ev p p' :
  pool_inv p -> pool_step config ev p = Some p' ->
  available p' + length (in_flight p') = count config.
Proof. intros Hp Hs. apply pool_step_conserves in Hs as [_ ->]. apply Hp. Qed.

Lemma main_try_inv p p' :
  pool_inv p -> pool_step config EvMainTry p = Some p' -> pool_inv p'.
Proof.
  intros Hp Hstep. pose proof (step_permits _ _ _ Hp Hstep) as Hperm.
  destruct Hp as [Hc Hwf _ Hh Hsl Hl Hq]. simpl in Hstep. unfold hand_inv in Hh.
  destruct (hand p) as [[req a]|] eqn:Hhand; [|done]. destruct Hh as [Hle Hdead].
  case_decide as Ha; [|done].
  pose proof (chosen_slot_lt _ a _ Hwf ltac:(lia) Hcount) as Hlt. rewrite Hc in *.
  set (i := chosen_slot (count config) (next (main p)) a) in *.
  destruct (dead (main p) !! i) as [[]|] eqn:Hd; [| |done].
  { simplify_eq/=. split; try done. unfold hand_inv; simpl. rewrite Hc. split; [lia|].
    intros b Hb. destruct (decide (b = a)) as [->|]; [done|apply Hdead; lia]. }
  destruct (slots p !! i) as [sl|] eqn:Hi; [|done].
  destruct (ended (supervisor sl)) eqn:He.
  - simplify_eq/=. destruct Hwf as [Hlen Hnext]. split; simpl; try done.
    + split; simpl; [by rewrite length_insert|done].
    + unfold hand_inv; simpl. rewrite Hc. split; [lia|]. intros b Hb. fold i.
      destruct (decide (chosen_slot (count config) (next (main p)) b = i)) as [->|Hne].
      * apply list_lookup_insert_eq. lia.
      * rewrite list_lookup_insert_ne by done. apply Hdead.
        destruct (decide (b = a)) as [->|]; [done|lia].
    + intros j sl' Hj. destruct (Hsl j sl' Hj) as (H1 & H2 & H3 & H4). split_and!; try done.
      simpl. destruct (decide (i = j)) as [<-|]; [intros _; congruence|].
      by rewrite list_lookup_insert_ne.
  - case_decide as Hcap; [|done]. simplify_eq/=. destruct Hwf as [Hlen Hnext].
    rewrite wrap64_small in * by lia. split; simpl; try done.
    + by rewrite length_insert.
    + split; simpl; [done|lia].
    + intros j sl' Hj. apply list_lookup_insert_Some in Hj as [(<- & <- & _)|[Hne Hj]];
        [|by apply Hsl]. destruct (Hsl i sl Hi) as (H1 & H2 & H3 & H4).
      split_and!; simpl; [done|congruence| |done].
      rewrite length_app; simpl. lia.
    + intros Hno. apply Hl. intros j sl' Hj. destruct (decide (i = j)) as [<-|Hne].
      * congruence.
      * apply (Hno j). by rewrite list_lookup_insert_ne.
Qed.

Lemma slot_step_inv i ev p p' :
  pool_inv p -> pool_step config (EvSlot i ev) p = Some p' -> pool_inv p'.
Proof.
  intros Hp Hstep. pose proof (step_permits _ _ _ Hp Hstep) as Hperm.
  destruct Hp as [Hc Hwf _ Hh Hsl Hl Hq]. simpl in Hstep.
  destruct (slots p !! i) as [sl|] eqn:Hi; [|done].
  destruct (inbox_event ev (inbox sl)) as [q|] eqn:Hev; [|done].
  destruct (sup_step _ _ _ _) as [s'|] eqn:Hs; [|done]. simplify_eq/=.
  destruct (Hsl i sl Hi) as (H1 & H2 & H3 & H4).
  pose proof (sup_step_ended _ _ _ _ Hs) as Hend.
  split; simpl; try done.
  - by rewrite length_insert.
  - unfold hand_inv in *; simpl. by rewrite length_insert.
  - intros j sl' Hj. apply list_lookup_insert_Some in Hj as [(<- & <- & _)|[Hne Hj]]; [|by apply Hsl].
    split_and!; simpl.
    + by eapply sup_step_inv.
    + by intros ->.
    + assert (length q <= length (inbox sl)).
      { destruct ev, (inbox sl); simplify_eq/=; lia. }
      destruct (ended s'); simpl; lia.
    + intros Hd. apply H4 in Hd. congruence.
  - intros Hno. rewrite Hl.
    + rewrite (dropped_by_nil _ _ _ _ _ Hs); [done|].
      apply (Hno i (mkSlot (if ended s' then [] else q) s')).
      apply list_lookup_insert_eq. by eapply lookup_lt_Some.
    + intros j sl' Hj. destruct (decide (i = j)) as [<-|Hne]; [congruence|].
      apply (Hno j). by rewrite list_lookup_insert_ne.
Qed.

Lemma give_up_inv p p' :
  pool_inv p -> pool_step config EvMainGiveUp p = Some p' -> pool_inv p'.
Proof.
  intros Hp Hstep. pose proof (step_permits _ _ _ Hp Hstep) as Hperm.
  pose proof Hp as [Hc Hwf Hcnt Hh Hsl Hl Hq]. simpl in Hstep.
  destruct (hand p) as [[req a]|] eqn:Hhand; [|done]. case_decide as Ha; [done|].
  assert (0 < count config) as Hpos.
  { unfold in_flight, in_hand in Hcnt. rewrite Hhand in Hcnt.
    revert Hcnt. repeat (rewrite ?length_app; simpl). lia. }
  simplify_eq. apply (inv_same_slots p); try done. simpl. intros Hno. exfalso.
  unfold hand_inv in Hh. rewrite Hhand in Hh. destruct Hh as [Hle Hdead].
  pose proof (chosen_slot_lt _ 0 _ Hwf Hpos Hcount) as Hlt.
  specialize (Hdead 0 ltac:(lia)). rewrite Hc in Hdead.
  destruct (lookup_lt_is_Some_2 (slots p) (chosen_slot (count config) (next (main p)) 0)) as [sl Hi];
    [lia|].
  pose proof (Hsl _ _ Hi) as (_ & _ & _ & Hdd). rewrite (Hno _ _ Hi) in Hdd. by apply Hdd in Hdead.
Qed.

Lemma pool_step_inv ev p p' :
  pool_inv p -> pool_step config ev p = Some p' -> pool_inv p'.
Proof.
  intros Hp Hstep. pose proof (step_permits _ _ _ Hp Hstep) as Hperm.
  pose proof Hp as [Hc Hwf Hcnt Hh Hsl Hl Hq]. destruct ev.
  - simpl in Hstep. destruct (available p), (tx_dropped (reload_tx p)); simplify_eq. by apply (inv_same_slots p).
  - simpl in Hstep. destruct (senders p); simplify_eq. case_decide; simplify_eq.
    apply (inv_same_slots p); try done. simpl. rewrite length_app; simpl. lia.
  - simpl in Hstep. destruct (hand p); [done|]. destruct (request_rx p) eqn:Hr; simplify_eq/=.
    apply (inv_same_slots p); try done; [|simpl in *; lia].
    split; [lia|]. intros b Hb. lia.
  - by eapply main_try_inv.
  - by eapply give_up_inv.
  - by eapply slot_step_inv.
  - simpl in Hstep. destruct (send_modify (reload_tx p)) as [rl|] eqn:Hm, (tx_dropped (reload_tx p)); simplify_eq/=.
    split; simpl; try done.
    intros i sl Hi. destruct (Hsl i sl Hi) as (H1 & H2 & H3 & H4). split_and!; try done.
    simpl. by eapply reload_inv.
  - simpl in Hstep. destruct (senders p !! k); simplify_eq. by apply (inv_same_slots p).
  - simpl in Hstep. destruct (senders p), (tx_dropped (reload_tx p)); simplify_eq. split; simpl; try done.
    intros i sl Hi. destruct (Hsl i sl Hi) as (H1 & H2 & H3 & H4). split_and!; try done.
    simpl. by apply drop_inv.
Qed.

Lemma pool_run_inv evs now p :
  run (pool_step config) evs (pool_new config now) = Some p -> pool_inv p.
Proof.
  apply (run_invariant _ pool_inv); [|apply pool_new_inv].
  intros e p1 p2. apply pool_step_inv.
Qed.

Lemma pool_new_accounted now : accounted (pool_new config now) = [].
Proof.
  apply nil_length_inv. pose proof (pinv_permits _ (pool_new_inv now)) as Hp.
  unfold accounted. simpl in *. rewrite length_app. simpl. lia.
Qed.

Lemma pool_run_accounted evs p p' :
  run (pool_step config) evs p = Some p' -> accounted p' ≡ₚ (evs ≫= acquired) ++ accounted p.
Proof.
  revert p; induction evs as [|e evs IH]; intros p Hrun; simpl in Hrun; [by simplify_eq|].
  destruct (pool_step config e p) as [p1|] eqn:He; [|done].
  apply IH in Hrun. rewrite Hrun. apply pool_step_conserves in He as [-> _].
  rewrite bind_cons. solve_Permutation.
Qed.

(** ** Progress *)

(** A supervisor waits when its inbox is empty and it has nothing else to look at:
    at its inbox, or asleep. *)
Definition waiting (rl : ReloadTx) (sl : Slot W) : bool :=
  bool_decide (inbox sl = [])
  && match phase (supervisor sl) with
     | PSelect false => true
     | PParked => negb (changed_ready rl (supervisor sl))
     | _ => false
     end.

(** What the supervisor of a slot does with its inbox. *)
Definition slot_step (rl : ReloadTx) (ev : SupEvent W) (sl : Slot W) : option (Sup W) :=
  match inbox_event ev (inbox sl) with
  | Some _ => sup_step config rl (recv_event ev (inbox sl)) (supervisor sl)
  | None => None
  end.

(** A poll of a reload channel that has something completes. *)
Lemma changed_enabled rl s :
  changed_ready rl s = true -> phase s = PSelect true \/ phase s = PParked ->
  is_Some (sup_step config rl EvChanged s) \/ is_Some (sup_step config rl EvChangedErr s).
Proof.
  unfold changed_ready. intros Hch Hph. destruct (decide (rx_seen s = version rl)) as [Heq|Hne].
  - right. rewrite bool_decide_false in Hch by auto.
    unfold sup_step. by destruct Hph as [-> | ->]; rewrite decide_True.
  - left. unfold sup_step. by destruct Hph as [-> | ->]; rewrite decide_True.
Qed.

(** Otherwise it can take a step, unless it has ended; if that is a boot, its
    outcome is the environment's choice. *)
Lemma sup_progress rl sl spawned ready :
  ended (supervisor sl) = false -> waiting rl sl = false ->
  exists ev, is_Some (slot_step rl ev sl)
    /\ (forall sp rd, ev = EvBoot sp rd -> sp = spawned /\ rd = ready).
Proof.
  intros Hend Hwait. destruct sl as [q s]. unfold waiting, ended in *. simpl in Hend, Hwait.
  assert (forall ev, is_Some (slot_step rl ev (mkSlot q s)) -> (forall sp rd, ev <> EvBoot sp rd) -> exists ev,
      is_Some (slot_step rl ev (mkSlot q s))
      /\ forall sp rd, ev = EvBoot sp rd -> sp = spawned /\ rd = ready) as Hev.
  { intros ev Hs Hne. exists ev. split; [done|]. intros sp rd Heq. by destruct (Hne sp rd). }
  assert (changed_ready rl s = true -> phase s = PSelect true \/ phase s = PParked -> exists ev,
      is_Some (slot_step rl ev (mkSlot q s))
      /\ forall sp rd, ev = EvBoot sp rd -> sp = spawned /\ rd = ready) as Hch.
  { intros H1 H2. destruct (changed_enabled rl s H1 H2) as [Hs|Hs]; [by apply (Hev EvChanged)|by apply (Hev EvChangedErr)]. }
  unfold slot_step in *. simpl in *. unfold sup_step in *.
  destruct (phase s) as [| | |[]| | | |why w|r| | |] eqn:Hph; try done.
  - apply (Hev EvTop); [simpl|done]. by destruct (worker s).
  - exists (EvBoot spawned ready). split; [simpl|by intros ? ? [=]].
    by destruct (boot_worker spawned ready (slot s)) as [[[sl' [w|e]] acts]|].
  - by apply (Hev EvSlept).
  - destruct (changed_ready rl s) eqn:Hc; [by apply Hch; auto|]. by apply (Hev EvPolled).
  - destruct q as [|r q]; [done|]. by apply (Hev (EvRecv r)).
  - destruct q as [|r q]; [by apply (Hev EvParked)|by apply (Hev (EvRecv r))].
  - destruct (changed_ready rl s) eqn:Hc; [by apply Hch; auto|].
    destruct q as [|r q]; [done|]. by apply (Hev EvWoken).
  - apply (Hev (EvCheck 0)); [simpl|done]. by destruct (boot_generation s <? generation rl)%Z.
  - apply (Hev (EvTerminated 0)); [simpl|done]. by destruct why.
  - apply (Hev (EvExec Elapsed)); [simpl|done]. by destruct (mark_idle (slot s)).
  - apply (Hev (EvAfter 0)); [simpl|done]. by repeat case_match.
Qed.

Lemma slot_event_enabled i ev sl p :
  slots p !! i = Some sl -> is_Some (slot_step (reload_tx p) ev sl) -> is_Some (pool_step config (EvSlot i ev) p).
Proof.
  intros Hi. unfold slot_step. simpl. rewrite Hi. destruct (inbox_event ev (inbox sl)); [|by intros []].
  intros [s' ->]. by eexists.
Qed.

Lemma in_flight_slots p :
  in_flight p <> [] -> senders p = [] -> request_rx p = [] -> hand p = None ->
  exists i sl, slots p !! i = Some sl /\ slot_requests sl <> [].
Proof.
  unfold in_flight, in_hand. intros Hne H1 H2 H3. rewrite H1, H2, H3 in Hne.
  clear H1 H2 H3. simpl in Hne.
  induction (slots p) as [|sl l IH]; [done|]. rewrite bind_cons in Hne.
  destruct (slot_requests sl) eqn:Hs.
  - destruct (IH Hne) as (i & sl' & Hi & Hr). by exists (S i), sl'.
  - exists 0, sl. by rewrite Hs.
Qed.

Lemma main_step_enabled p req a :
  pool_inv p -> count config <= inbox_capacity -> hand p = Some (req, a) ->
  (a < length (slots p) ->
    exists p', pool_step config EvMainTry p = Some p' /\
      (hand p' = None \/ hand p' = Some (req, S a)) /\ length (slots p') = length (slots p))
  /\ (length (slots p) <= a ->
    exists p', pool_step config EvMainGiveUp p = Some p' /\ hand p' = None).
Proof.
  intros [Hc Hwf Hcnt Hh Hsl Hl Hq] Hcap Hhand. simpl. rewrite Hhand. split; intros Ha.
  - rewrite decide_True by done.
    pose proof (chosen_slot_lt _ a _ Hwf ltac:(lia) Hcount) as Hlt. rewrite <- Hc in Hlt.
    set (i := chosen_slot _ _ _) in *. clearbody i. destruct Hwf as [Hlen _].
    destruct (lookup_lt_is_Some_2 (dead (main p)) i) as [d Hd]; [lia|].
    destruct (lookup_lt_is_Some_2 (slots p) i) as [sl Hi]; [lia|]. rewrite Hd, Hi.
    destruct d; [eexists; split; [done|]; by auto|].
    destruct (ended (supervisor sl)); [eexists; split; [done|]; by auto|].
    rewrite decide_True; [eexists; split; [done|]; simpl; rewrite length_insert; by auto|].
    destruct (bind_insert_perm slot_requests (slots p) i sl Hi) as (rest & Hold & _).
    unfold in_flight, in_hand in Hcnt. rewrite Hhand, Hold in Hcnt. unfold slot_requests in Hcnt.
    revert Hcnt. count_requests.
  - rewrite decide_False by lia. by eexists.
Qed.

(** Some part of the pool other than a caller, a reload or the end of the pool can
    take a step; if it is a boot, its outcome is the environment's choice. *)
Definition own_part (ev : PoolEvent W) : bool :=
  match ev with EvAcquire _ | EvTriggerReload | EvCancel _ | EvDropPool => false | _ => true end.

Definition pool_moves p (spawned : result W) (ready : timed unit) : Prop :=
  exists ev p', pool_step config ev p = Some p' /\ own_part ev = true
    /\ (forall i sp rd, ev = EvSlot i (EvBoot sp rd) -> sp = spawned /\ rd = ready).

(** A slot whose supervisor neither waits nor has ended is one such part. *)
Lemma slot_moves p i sl spawned ready :
  slots p !! i = Some sl -> ended (supervisor sl) = false -> waiting (reload_tx p) sl = false ->
  pool_moves p spawned ready.
Proof.
  intros Hi He Hwait. destruct (sup_progress (reload_tx p) sl spawned ready He Hwait) as (ev & Hs & Hboot).
  destruct (slot_event_enabled i ev sl p Hi Hs) as [p' Hp]. exists (EvSlot i ev), p'.
  split_and!; [done..|]. intros ? sp rd [= _ ->]. by apply Hboot.
Qed.

(** So is a slot with requests. *)
Lemma requests_move p i sl spawned ready :
  pool_inv p -> slots p !! i = Some sl -> slot_requests sl <> [] -> pool_moves p spawned ready.
Proof.
  intros Hinv Hi Hne. destruct (pinv_slots _ Hinv i sl Hi) as (_ & Hend & _).
  unfold slot_requests, executing in Hne. apply (slot_moves p i sl); [done|..].
  - destruct (ended (supervisor sl)) eqn:He; [|done]. rewrite (Hend eq_refl) in Hne.
    unfold ended in He. by destruct (phase (supervisor sl)).
  - unfold waiting. case_bool_decide as Hin; [|done]. rewrite Hin in Hne.
    by destruct (phase (supervisor sl)).
Qed.

(** The dispatcher with a request in hand: it goes on, or it waits for a slot whose
    inbox is full, and that slot goes on. *)
Lemma hand_moves p req a spawned ready :
  pool_inv p -> hand p = Some (req, a) -> pool_moves p spawned ready.
Proof.
  intros Hinv Hhand. pose proof Hinv as [Hc Hwf _ _ _ _ _].
  destruct (decide (a < length (slots p))) as [Ha|Ha].
  2:{ exists EvMainGiveUp. simpl. rewrite Hhand, decide_False by done. by eexists. }
  pose proof (chosen_slot_lt _ a _ Hwf ltac:(lia) Hcount) as Hlt. rewrite <- Hc in Hlt. destruct Hwf as [Hlen _].
  destruct (lookup_lt_is_Some_2 (dead (main p)) (chosen_slot (length (slots p)) (next (main p)) a)) as [d Hd]; [lia|].
  destruct (lookup_lt_is_Some_2 (slots p) (chosen_slot (length (slots p)) (next (main p)) a)) as [sl Hi]; [lia|].
  assert (is_Some (pool_step config EvMainTry p) \/ slot_requests sl <> []) as [[p' Hp]|Hne].
  - simpl. rewrite Hhand, decide_True, Hd, Hi by done.
    destruct d; [left; by eexists|]. destruct (ended (supervisor sl)); [left; by eexists|].
    case_decide as Hfull; [left; by eexists|right]. unfold slot_requests, inbox_capacity in *.
    destruct (inbox sl); simpl in *; [lia|done].
  - by exists EvMainTry, p'.
  - by eapply requests_move.
Qed.

Lemma pool_progress_with p spawned ready :
  pool_inv p -> in_flight p <> [] -> pool_moves p spawned ready.
Proof.
  intros Hinv Hbusy. destruct (hand p) as [[req a]|] eqn:Hh; [by eapply hand_moves|].
  destruct (request_rx p) as [|r rest] eqn:Hr.
  2:{ exists EvMainRecv. simpl. rewrite Hh, Hr. by eexists. }
  destruct (senders p) as [|r rest] eqn:Hs.
  2:{ exists EvSend. simpl. rewrite Hs, Hr. rewrite decide_True; [by eexists|].
      simpl. unfold request_channel_capacity. lia. }
  destruct (in_flight_slots p Hbusy Hs Hr Hh) as (i & sl & Hi & Hne). by eapply requests_move.
Qed.

(** * Properties *)

(** C10. Permits and requests are conserved under every interleaving: each
    request that was given a permit is, exactly once, either waiting to be
    sent, in the request channel, in the dispatcher's hand, in one inbox,
    executing, finished, dropped or cancelled by its caller; the free permits
    and the requests in flight always add up to [workers.count]. *)
Theorem pool_conservation evs now p
    (Hrun : run (pool_step config) evs (pool_new config now) = Some p) :
  in_flight p ++ finished p ++ dropped p ++ cancelled p ≡ₚ evs ≫= acquired
  /\ available p + length (in_flight p) = count config.
Proof.
  split; [|by apply (pool_run_inv evs now p)].
  apply pool_run_accounted in Hrun. unfold accounted at 1 in Hrun. rewrite Hrun.
  by rewrite pool_new_accounted, app_nil_r.
Qed.

(** A request is dropped without reaching a worker, or abandoned by one,
    only if a supervisor task has ended: while all of them live, every request
    that is no longer in flight has finished or was cancelled by its caller. *)
Theorem pool_no_loss evs now p
    (Hrun : run (pool_step config) evs (pool_new config now) = Some p)
    (Halive : forall i sl, slots p !! i = Some sl -> ended (supervisor sl) = false) :
  in_flight p ++ finished p ++ cancelled p ≡ₚ evs ≫= acquired.
Proof.
  pose proof (pool_run_inv _ _ _ Hrun) as Hinv. apply pool_run_accounted in Hrun.
  unfold accounted at 1 in Hrun. rewrite (pinv_lost _ Hinv Halive) in Hrun. simpl in Hrun.
  by rewrite Hrun, pool_new_accounted, app_nil_r.
Qed.

(** The dispatcher never waits for a slot and always decides: with at most
    8 workers the inboxes cannot fill up, so a request in its hand is placed
    or given up within [workers.count + 1] of its own steps. *)
Theorem pool_dispatch_terminates evs now p req a
    (Hrun : run (pool_step config) evs (pool_new config now) = Some p)
    (Hcap : count config <= inbox_capacity) (Hhand : hand p = Some (req, a)) :
  exists main_evs p', run (pool_step config) main_evs p = Some p' /\ hand p' = None
    /\ Forall (fun ev => ev = EvMainTry \/ ev = EvMainGiveUp) main_evs
    /\ length main_evs <= S (count config).
Proof.
  apply pool_run_inv in Hrun as Hinv. clear Hrun.
  assert (forall k p a, pool_inv p -> hand p = Some (req, a) -> length (slots p) - a = k ->
    exists main_evs p', run (pool_step config) main_evs p = Some p' /\ hand p' = None
      /\ Forall (fun ev => ev = EvMainTry \/ ev = EvMainGiveUp) main_evs
      /\ length main_evs <= S k) as Hgen.
  { clear p a Hhand Hinv. induction k as [|k IH]; intros p a Hinv Hhand Hk.
    - destruct (proj2 (main_step_enabled p req a Hinv Hcap Hhand)) as (p' & Hs & Hn); [lia|].
      exists [EvMainGiveUp], p'. cbn [run]. rewrite Hs. split_and!; [done|done| |simpl; lia].
      constructor; [by right|constructor].
    - destruct (proj1 (main_step_enabled p req a Hinv Hcap Hhand)) as (p' & Hs & [Hn|Hn] & Hl); [lia| |].
      + exists [EvMainTry], p'. cbn [run]. rewrite Hs. split_and!; [done|done| |simpl; lia].
        constructor; [by left|constructor].
      + destruct (IH p' (S a)) as (es & p2 & Hr & Hn2 & Hf & Hle);
          [by eapply pool_step_inv|done|lia|].
        exists (EvMainTry :: es), p2. cbn [run]. rewrite Hs. split_and!; [done|done| |simpl; lia].
        constructor; [by left|done]. }
  destruct (Hgen _ p a Hinv Hhand eq_refl) as (es & p' & Hr & Hn & Hf & Hle).
  exists es, p'. split_and!; [done..|]. rewrite (pinv_count _ Hinv) in Hle. lia.
Qed.

(** The pool does not deadlock: as long as some request is in flight, some part of
    the pool itself can take a step. *)
Theorem pool_progress evs now p
    (Hrun : run (pool_step config) evs (pool_new config now) = Some p) (Hbusy : in_flight p <> []) :
  exists ev p', pool_step config ev p = Some p' /\ own_part ev = true.
Proof.
  apply pool_run_inv in Hrun as Hinv.
  destruct (pool_progress_with p (Err "") Elapsed Hinv Hbusy) as (ev & p' & ? & ? & _).
  by exists ev, p'.
Qed.
End spec.

(** * Examples *)

Module Examples.
Import Sample.

Definition cfg : WorkersConfig := {|
  script := ""; php := ""; count := 2; max_concurrent_per_worker := 1; max_jobs := 2;
  ttl := 1000; exec_timeout := 10; boot_timeout := 10; warmup := false;
|}.
Definition w0 : MockWorker := {| mw_id := 7; terminated := false; should_panic := false |}.
Definition req : DispatchRequest := Dispatch.Examples.req 5.

Definition after (evs : list (PoolEvent MockWorker)) : PoolState MockWorker :=
  default (pool_new cfg 0) (run (pool_step cfg) evs (pool_new cfg 0)).

(** A request on its way to the first slot. *)
Definition arriving : list (PoolEvent MockWorker) := [EvAcquire req; EvSend; EvMainRecv].
Definition serving : list (PoolEvent MockWorker) :=
  arriving ++ [EvMainTry; EvSlot 0 EvTop; EvSlot 0 (EvBoot (Ok w0) (Completed (Ok tt)));
               EvSlot 0 EvPolled; EvSlot 0 (EvRecv req); EvSlot 0 (EvExec (Completed (Ok tt)))].
End Examples.
Import Sample Examples.

Lemma pool_conservation_witness :
  in_flight (after serving) ++ finished (after serving) ++ dropped (after serving) ++ cancelled (after serving) ≡ₚ [req]
  /\ available (after serving) + length (in_flight (after serving)) = 2.
Proof.
  apply (pool_conservation cfg ltac:(vm_compute; discriminate) serving 0).
  vm_run.
Defined.

Lemma pool_no_loss_witness :
  in_flight (after serving) ++ finished (after serving) ++ cancelled (after serving) ≡ₚ [req].
Proof.
  apply (pool_no_loss cfg ltac:(vm_compute; discriminate) serving 0).
  - vm_run.
  - intros i sl Hi. apply negb_true_iff.
    apply (forallb_lookup (fun sl => negb (ended (supervisor sl))) (slots (after serving)) i); [vm_compute; reflexivity|done].
Defined.

Lemma pool_dispatch_terminates_witness :
  exists main_evs p', run (pool_step cfg) main_evs (after arriving) = Some p' /\ hand p' = None
    /\ Forall (fun ev => ev = EvMainTry \/ ev = EvMainGiveUp) main_evs /\ length main_evs <= 3.
Proof.
  apply (pool_dispatch_terminates cfg ltac:(vm_compute; discriminate) arriving 0 _ req 0).
  - vm_run.
  - apply (bool_decide_unpack _); vm_compute; exact I.
  - reflexivity.
Defined.

Lemma pool_progress_witness :
  exists ev p', pool_step cfg ev (after arriving) = Some p' /\ own_part ev = true.
Proof.
  apply (pool_progress cfg ltac:(vm_compute; discriminate) arriving 0).
  - vm_run.
  - intros Hn. apply (f_equal length) in Hn. vm_compute in Hn. discriminate.
Defined.
