(* ===== verification/PoolLive.v ===== *)
(** Liveness of the pool: whatever order its parts run in, without new callers,
    reloads and failed boots every request in flight comes to an end within a
    bounded number of steps, and a reload has reached every worker by then. *)

From S2P Require Import Prelude.
From S2P Require Import Config.
From S2P Require Import WorkerSlot.
From S2P Require Import Protocol.
From S2P Require Import Runtime.
From S2P Require Import Supervisor.
From S2P Require Import SupervisorSpec.
From S2P Require Import Dispatch.
From S2P Require Import Pool.
From S2P Require Import PoolSpec.

Section liveness.
Context `{SJ : SerdeJson} `{WL : WorkerHandleLaws W}.
Context (config : WorkersConfig).

Implicit Types (p : PoolState W) (s : Sup W).

(** * The measure *)

(** The steps a supervisor with inbox [q] may still take before it waits: a reload
    costs 7, and a sleeping supervisor that has something to wake for is as far
    from rest as one that is about to poll. *)
Definition sup_rank (rl : ReloadTx) (q : list DispatchRequest) s : nat :=
  (if decide (rx_seen s = version rl) then 0 else 7)
  + match phase s with
    | PReturned | PPanicked => 0
    | PTerminating (ReloadClosed | InboxClosed) _ => 1
    | PParked => if tx_dropped rl || negb (bool_decide (q = [])) then 2 else 0
    | PPolled => if tx_dropped rl then 3 else 1
    | PSelect _ => 2
    | PBooting => 3
    | PTop => 4
    | PSleeping | PTerminating _ _ => 5
    | PCheck | PAfter => 6
    | PExec _ => 7
    end.

Definition slot_work (rl : ReloadTx) (sl : Slot W) : nat :=
  7 * length (inbox sl) + sup_rank rl (inbox sl) (supervisor sl).

Definition hand_work p : nat :=
  match hand p with Some (_, a) => 9 + (length (slots p) - a) | None => 0 end.

Definition work p : nat :=
  (11 + length (slots p)) * length (senders p)
  + (10 + length (slots p)) * length (request_rx p)
  + hand_work p + sum_list (slot_work (reload_tx p) <$> slots p).

(** All steps but a new caller, a reload, the drop of the pool and a boot that
    fails. *)
Definition internal (ev : PoolEvent W) : Prop :=
  match ev with
  | EvAcquire _ | EvTriggerReload | EvDropPool => False
  | EvSlot _ (EvBoot (Ok _) (Completed (Ok _))) => True
  | EvSlot _ (EvBoot _ _) => False
  | _ => True
  end.

(** * Every internal step decreases it *)

(** A supervisor's step pays with its rank, or with the request it takes. *)
Lemma sup_step_rank rl i ev s s' q0 q :
  internal (EvSlot i ev) ->
  inbox_event ev q0 = Some q -> sup_step config rl (recv_event ev q0) s = Some s' ->
  7 * length (if ended s' then [] else q) + sup_rank rl (if ended s' then [] else q) s'
    < 7 * length q0 + sup_rank rl q0 s.
Proof.
  intros Hint Hq Hstep. destruct s as [sl wk bg seen ph tr].
  unfold sup_step, boot_worker, take_and_terminate, start_request, changed_ready in Hstep; simpl in *.
  unfold sup_rank.
  destruct ph as [| | |[]| | | |why w|r| | |]; try done; destruct ev as [|[wb|] [[]|]| | | | | | | | | | | | | |];
    try done; destruct q0 as [|r0 q0]; simpl in *; simplify_eq/=.
  all: destruct (tx_dropped rl) eqn:Hd, wk; case_hyp Hstep; simpl in *; simplify_eq; simpl in *; try done.
  all: try case_bool_decide; simpl in *; simplify_eq.
  all: repeat case_decide; simplify_eq; simpl in *; try lia.
  all: try (destruct_and?; congruence).
  all: repeat case_match; simplify_eq/=; try lia; naive_solver.
Qed.

Lemma internal_step_work ev p p' :
  pool_inv config p -> internal ev -> pool_step config ev p = Some p' -> work p' < work p.
Proof.
  intros [Hc Hwf _ Hh Hsl _ _] Hint Hstep. unfold hand_inv in Hh.
  destruct ev as [req| | | | |i ev| |k|]; try done; simpl in Hstep; unfold work, hand_work in *.
  - destruct (senders p) as [|r rest]; [done|]. case_decide; simplify_eq/=.
    rewrite length_app. simpl. lia.
  - destruct (hand p); [done|]. destruct (request_rx p); simplify_eq/=. lia.
  - destruct (hand p) as [[req a]|]; [|done]. case_decide; [|done].
    set (i := chosen_slot _ _ _) in *. clearbody i.
    destruct (dead (main p) !! i) as [[]|]; [simplify_eq/=; lia| |done].
    destruct (slots p !! i) as [sl|] eqn:Hi; [|done].
    destruct (ended (supervisor sl)); [simplify_eq/=; lia|]. case_decide; [|done]. simplify_eq/=.
    match goal with |- context [<[i := ?x]> _] =>
      pose proof (sum_list_insert (slot_work (reload_tx p)) _ _ _ x Hi) as Hsum end.
    unfold slot_work at 2 4 in Hsum. simpl in Hsum. rewrite length_app in Hsum. simpl in Hsum.
    rewrite length_insert.
    assert (sup_rank (reload_tx p) (inbox sl ++ [req]) (supervisor sl)
      <= sup_rank (reload_tx p) (inbox sl) (supervisor sl) + 2); [|lia].
    unfold sup_rank. destruct (phase (supervisor sl)); try lia. repeat case_match; lia.
  - destruct (hand p) as [[req a]|]; [|done]. case_decide; [done|]. simplify_eq/=. lia.
  - destruct (slots p !! i) as [sl|] eqn:Hi; [|done].
    destruct (inbox_event ev (inbox sl)) as [q|] eqn:Hq; [|done].
    destruct (sup_step _ _ _ _) as [s'|] eqn:Hs; [|done]. simplify_eq/=.
    pose proof (sup_step_rank _ i _ _ _ _ _ Hint Hq Hs) as Hlt.
    match goal with |- context [<[i := ?x]> _] =>
      pose proof (sum_list_insert (slot_work (reload_tx p)) _ _ _ x Hi) as Hsum end.
    unfold slot_work at 2 4 in Hsum. simpl in Hsum. rewrite length_insert. lia.
  - destruct (senders p !! k) as [req|] eqn:Hk; simplify_eq/=.
    apply delete_Permutation, Permutation_length in Hk. rewrite Hk. simpl. lia.
Qed.

(** The measure of a reachable pool. *)
Lemma work_bound p : pool_inv config p -> work p <= count config * (count config + 24).
Proof.
  intros [Hc _ Hcnt _ Hsl _ _]. unfold work, hand_work. unfold in_flight, in_hand in Hcnt.
  assert (sum_list (slot_work (reload_tx p) <$> slots p)
    <= 13 * length (slots p) + 7 * length (slots p ≫= slot_requests)) as Hsum.
  { clear. induction (slots p) as [|sl l IH]; csimpl; [lia|]. rewrite length_app.
    assert (slot_work (reload_tx p) sl <= 13 + 7 * length (slot_requests sl)); [|lia].
    unfold slot_work, slot_requests, executing, sup_rank. rewrite length_app.
    case_decide; destruct (phase (supervisor sl)); cbn [length]; repeat case_match; lia. }
  rewrite !length_app in Hcnt. rewrite Hc in *.
  set (S := length (senders p)) in *. set (R := length (request_rx p)) in *.
  set (X := length (slots p ≫= slot_requests)) in *.
  assert ((11 + count config) * (S + R + (match hand p with Some _ => 1 | None => 0 end) + X)
    <= (11 + count config) * count config) as Hmul.
  { apply Nat.mul_le_mono_l. destruct (hand p) as [[req a]|]; simpl in *; lia. }
  destruct (hand p) as [[req a]|]; simpl in *; nia.
Qed.

Lemma internal_run_work es p p' :
  (2 * Z.of_nat (count config) <= u64_max)%Z -> pool_inv config p -> Forall internal es ->
  run (pool_step config) es p = Some p' -> length es + work p' <= work p /\ pool_inv config p'.
Proof.
  intros Hn Hinv Hes. revert p Hinv. induction Hes as [|ev es Hev Hes IH]; intros p Hinv Hrun;
    simpl in Hrun; [simplify_eq; auto|].
  destruct (pool_step config ev p) as [p1|] eqn:Hstep; [|done].
  pose proof (internal_step_work ev p p1 Hinv Hev Hstep).
  destruct (IH p1) as [Hle ?]; [by eapply pool_step_inv|done|]. split; [simpl; lia|done].
Qed.

(** * Property *)

Lemma internal_acquired es : Forall internal es -> es ≫= acquired = [].
Proof. induction 1 as [|ev es Hev _ IH]; csimpl; [done|]. rewrite IH. by destruct ev. Qed.

(** C4. Every request comes to an end under every scheduling: from any reachable
    state, the pool can take at most [count * (count + 24)] steps in whatever
    order, callers leaving included, as long as no caller arrives, no reload is
    triggered, the pool is not dropped and no boot fails; one of its own parts
    can always take one while a request is in flight; and when none is, every
    request ever admitted has finished, was dropped or was cancelled by its
    caller.  This holds after the pool has been dropped as well. *)
Theorem pool_drains evs now p es p' (w : W)
    (Hcount : (2 * Z.of_nat (count config) <= u64_max)%Z)
    (Hrun : run (pool_step config) evs (pool_new config now) = Some p)
    (Hint : Forall internal es) (Hmore : run (pool_step config) es p = Some p') :
  length es <= count config * (count config + 24)
  /\ ((exists ev p'', internal ev /\ own_part ev = true /\ pool_step config ev p' = Some p'')
      \/ (in_flight p' = [] /\ finished p' ++ dropped p' ++ cancelled p' ≡ₚ evs ≫= acquired)).
Proof.
  pose proof (pool_run_inv config Hcount _ _ _ Hrun) as Hinv.
  destruct (internal_run_work es p p' Hcount Hinv Hint Hmore) as [Hle Hinv'].
  split; [pose proof (work_bound p Hinv); lia|].
  destruct (decide (length (in_flight p') = 0)) as [Hz%nil_length_inv|Hbusy].
  - right. split; [done|].
    pose proof (pool_new_accounted (W := W) config now) as Hnew.
    apply pool_run_accounted in Hmore, Hrun. unfold accounted in *. rewrite Hz in Hmore.
    rewrite Hnew, app_nil_r in Hrun. simpl in Hmore. by rewrite Hmore, Hrun, internal_acquired.
  - left. destruct (pool_progress_with config Hcount p' (Ok w) (Completed (Ok tt)) Hinv')
      as (ev & p'' & Hstep & Hown & Hboot).
    { by intros Hn; rewrite Hn in Hbusy. }
    exists ev, p''. split_and!; [|done..]. destruct ev as [req| | | | |i ev| |k|]; try done.
    destruct ev; try done. by destruct (Hboot _ _ _ eq_refl) as [-> ->].
Qed.

(** * Rest *)

Definition at_rest p : Prop := forall ev p', internal ev -> pool_step config ev p <> Some p'.

(** At rest a supervisor that has not ended waits. *)
Lemma rest_waits p (w : W) i sl :
  at_rest p -> slots p !! i = Some sl -> ended (supervisor sl) = false -> waiting (reload_tx p) sl = true.
Proof.
  intros Hrest Hi Hend. destruct (waiting (reload_tx p) sl) eqn:Hw; [done|].
  destruct (slot_moves config p i sl (Ok w) (Completed (Ok tt)) Hi Hend Hw) as (ev & p' & Hstep & Hown & Hboot).
  destruct (Hrest ev p'); [|done]. destruct ev as [req| | | | |j ev| |k|]; try done.
  destruct ev; try done. by destruct (Hboot _ _ _ eq_refl) as [-> ->].
Qed.

(** Where a supervisor waits, and for what. *)
Lemma waiting_facts rl sl :
  sup_inv config rl (supervisor sl) -> waiting rl sl = true ->
  inbox sl = [] /\ exists wk, worker (supervisor sl) = Some wk /\ state (slot (supervisor sl)) = Idle
    /\ phase (supervisor sl) = (if wh_is_recyclable wk then PParked else PSelect false)
    /\ (wh_is_recyclable wk = true ->
         boot_generation (supervisor sl) = generation rl /\ tx_dropped rl = false).
Proof.
  intros Hsup Hw. apply andb_prop in Hw as [Hq Hph]. apply bool_decide_eq_true in Hq. split; [done|].
  pose proof (inv_phase _ _ _ Hsup) as Hp. unfold phase_inv, serving in Hp.
  destruct (phase (supervisor sl)) as [| | |[]| | | | | | | |] eqn:Hphase; try done;
    destruct Hp as (wk & Hwk & Hst & Hr & [Hle Hfresh] & _); exists wk; rewrite <- ?Hr; [done|].
  rewrite Hr. split_and!; [done..|]. intros _. apply negb_true_iff, orb_false_iff in Hph as [Hseen Hopen].
  apply bool_decide_eq_false in Hseen. split; [|done].
  destruct (decide (boot_generation (supervisor sl) = generation rl)) as [|Hne]; [done|].
  destruct Hseen. pose proof (Hfresh ltac:(lia)). lia.
Qed.

(** C11. A reload reaches every worker: from any reachable state, whatever its parts
    do, the pool comes to rest within [count * (count + 24)] of their steps, and
    there every supervisor that has not ended waits, with an empty inbox, with a
    worker that, if it can be replaced at all, was booted with the code of the
    last reload. *)
Theorem reload_reaches_every_worker evs now p es p' (w : W)
    (Hcount : (2 * Z.of_nat (count config) <= u64_max)%Z)
    (Hrun : run (pool_step config) evs (pool_new config now) = Some p)
    (Hint : Forall internal es) (Hmore : run (pool_step config) es p = Some p') :
  length es <= count config * (count config + 24)
  /\ (at_rest p' -> forall i sl, slots p' !! i = Some sl -> ended (supervisor sl) = false ->
       inbox sl = [] /\ exists wk, worker (supervisor sl) = Some wk
         /\ state (slot (supervisor sl)) = Idle
         /\ phase (supervisor sl) = (if wh_is_recyclable wk then PParked else PSelect false)
         /\ (wh_is_recyclable wk = true -> boot_generation (supervisor sl) = generation (reload_tx p'))).
Proof.
  pose proof (pool_run_inv config Hcount _ _ _ Hrun) as Hinv.
  destruct (internal_run_work es p p' Hcount Hinv Hint Hmore) as [Hle Hinv'].
  split; [pose proof (work_bound p Hinv); lia|]. intros Hrest i sl Hi Hend.
  destruct (pinv_slots _ _ Hinv' i sl Hi) as (Hsup & _).
  destruct (waiting_facts _ sl Hsup (rest_waits p' w i sl Hrest Hi Hend)) as (Hq & wk & Hwk & Hst & Hph & Hg).
  split; [done|]. exists wk. split_and!; [done..|]. intros Hrec. by apply Hg.
Qed.

(** A pool that waits for callers. *)
Definition sup_resting (rl : ReloadTx) (sl : Slot W) : bool :=
  match phase (supervisor sl) with
  | PReturned => true
  | _ => waiting rl sl
  end.

Definition pool_resting p : bool :=
  bool_decide (senders p = []) && bool_decide (request_rx p = []) && bool_decide (hand p = None)
  && forallb (sup_resting (reload_tx p)) (slots p).

Lemma sup_resting_stays rl sl ev q sup' :
  sup_resting rl sl = true -> inbox_event ev (inbox sl) = Some q ->
  sup_step config rl (recv_event ev (inbox sl)) (supervisor sl) = Some sup' -> False.
Proof.
  unfold sup_resting, waiting, sup_step. intros Hr Hq Hs.
  destruct (bool_decide (inbox sl = [])) eqn:Hin; [|by destruct (phase (supervisor sl))].
  apply bool_decide_eq_true in Hin. rewrite Hin in *.
  destruct (phase (supervisor sl)) as [| | |[]| | | | | | | |]; try done; destruct ev; try done; simpl in Hr, Hs;
    apply negb_true_iff, orb_false_iff in Hr as [Hseen Hopen]; apply bool_decide_eq_false in Hseen;
    case_decide; try done; destruct_and?; congruence.
Qed.

(** Only a caller, a reload or the end of the pool can wake it. *)
Lemma pool_resting_stops p ev p' :
  pool_resting p = true -> pool_step config ev p = Some p' ->
  match ev with EvAcquire _ | EvTriggerReload | EvDropPool => True | _ => False end.
Proof.
  unfold pool_resting. rewrite !andb_true_iff, !bool_decide_eq_true. intros [[[H1 H2] H3] H4] Hstep.
  destruct ev as [req| | | | |i ev| |k|]; try done; unfold pool_step in Hstep;
    rewrite ?H1, ?H2, ?H3 in Hstep; try done.
  destruct (slots p !! i) as [sl|] eqn:Hi; [|done].
  destruct (inbox_event ev (inbox sl)) as [q|] eqn:Hq; [|done].
  destruct (sup_step _ _ _ _) as [sup'|] eqn:Hs; [|done].
  apply (sup_resting_stays (reload_tx p) sl ev q sup'); [by eapply forallb_lookup|done|done].
Qed.

Lemma pool_resting_at_rest p : pool_resting p = true -> at_rest p.
Proof. intros Hr ev p' Hint Hstep. pose proof (pool_resting_stops p ev p' Hr Hstep). by destruct ev. Qed.

(** * Supervisors stay alive *)

(** Steps in which neither a spawn nor [execute_streaming] panics, of a pool that
    is not dropped. *)
Definition tame (ev : PoolEvent W) : Prop :=
  match ev with EvSlot _ ev => env_panic ev = false | EvDropPool => False | _ => True end.

(** After [n] steps: no overflow yet, no panic, and not on the way out. *)
Definition sup_alive (n : Z) s : Prop :=
  ((n <= u64_max)%Z -> (jobs_handled (slot s) <= n)%Z /\ phase s <> PPanicked)
  /\ phase s <> PReturned
  /\ forall why w, phase s = PTerminating why w -> why = IdleReload \/ why = Recycle.

Lemma sup_step_stays rl ev s s' :
  tx_dropped rl = false -> ev <> EvInboxClosed -> sup_step config rl ev s = Some s' ->
  (forall why w, phase s = PTerminating why w -> why = IdleReload \/ why = Recycle) ->
  phase s' <> PReturned
  /\ forall why w, phase s' = PTerminating why w -> why = IdleReload \/ why = Recycle.
Proof.
  intros Hopen Hev Hstep Hph. destruct s as [sl wk bg seen ph tr].
  unfold sup_step, take_and_terminate, start_request, changed_ready in Hstep; simpl in *.
  destruct ph as [| | |[]| | | |why w|r| | |], ev; try done; simpl in *.
  all: repeat case_match; simplify_eq/=; try (split; [done|intros ?? [=]]; by auto);
    try (destruct_and?; congruence); naive_solver.
Qed.

Lemma sup_step_alive n rl ev s s' :
  sup_inv config rl s -> tx_dropped rl = false -> ev <> EvInboxClosed -> env_panic ev = false ->
  sup_alive n s -> sup_step config rl ev s = Some s' -> sup_alive (n + 1) s'.
Proof.
  intros Hinv Hopen Hnc Hnp (Hj & Hret & Hterm) Hstep.
  destruct (sup_step_jobs config rl ev s s' Hinv Hstep) as [Hj' Hp'].
  destruct (sup_step_stays rl ev s s' Hopen Hnc Hstep Hterm) as [Hret' Hterm'].
  split; [|done]. intros Hle. destruct Hj as [Hj Hph]; [lia|].
  split; [lia|]. apply Hp'; [done..|lia].
Qed.

Lemma sup_alive_mono n s : sup_alive n s -> sup_alive (n + 1) s.
Proof. intros (Hj & H1 & H2). split; [|done]. intros Hle. destruct Hj; [lia|]. split; [lia|done]. Qed.

(** What a step of the pool does to one supervisor. *)
Lemma pool_step_slot ev p p' i sl' :
  pool_step config ev p = Some p' -> slots p' !! i = Some sl' ->
  exists sl, slots p !! i = Some sl
    /\ (supervisor sl' = supervisor sl
        \/ exists e, sup_step config (reload_tx p) e (supervisor sl) = Some (supervisor sl')
             /\ e <> EvInboxClosed /\ (tame ev -> env_panic e = false)).
Proof.
  intros Hstep Hi. destruct ev as [req| | | | |j ev| |k|]; simpl in Hstep.
  1-3, 5, 7-9: repeat case_match; simplify_eq/=; by eauto.
  - destruct (hand p) as [[req a]|]; [|done]. case_decide; [|done].
    set (k := chosen_slot _ _ _) in *. clearbody k.
    destruct (dead (main p) !! k) as [[]|]; [simplify_eq/=; by eauto| |done].
    destruct (slots p !! k) as [slk|] eqn:Hk; [|done].
    destruct (ended (supervisor slk)); [simplify_eq/=; by eauto|].
    case_decide; [|done]. simplify_eq/=.
    apply list_lookup_insert_Some in Hi as [(<- & <- & _)|[_ Hi]]; by eauto.
  - destruct (slots p !! j) as [slj|] eqn:Hj; [|done].
    destruct (inbox_event ev (inbox slj)) as [q|] eqn:Hq; [|done].
    destruct (sup_step _ _ _ _) as [s'|] eqn:Hs; [|done]. simplify_eq/=.
    apply list_lookup_insert_Some in Hi as [(<- & <- & _)|[_ Hi]]; [|by eauto].
    exists slj. split; [done|]. right. exists (recv_event ev (inbox slj)). split; [done|].
    by destruct ev, (inbox slj).
Qed.

Definition pool_alive (n : Z) p : Prop :=
  pool_inv config p /\ tx_dropped (reload_tx p) = false
  /\ forall i sl, slots p !! i = Some sl -> sup_alive n (supervisor sl).

Lemma tame_keeps_open ev p p' :
  tame ev -> pool_step config ev p = Some p' -> tx_dropped (reload_tx p) = false -> tx_dropped (reload_tx p') = false.
Proof.
  intros Ht Hstep Hopen. destruct ev as [req| | | | |i ev| |k|]; try done; simpl in Hstep; unfold send_modify in Hstep;
    repeat case_match; by simplify_eq/=.
Qed.

Lemma pool_step_alive n ev p p' :
  (2 * Z.of_nat (count config) <= u64_max)%Z -> tame ev -> pool_alive n p ->
  pool_step config ev p = Some p' -> pool_alive (n + 1) p'.
Proof.
  intros Hn Htame (Hinv & Hopen & Hsl) Hstep.
  split_and!; [by eapply pool_step_inv|by eapply tame_keeps_open|]. intros i sl Hi.
  destruct (pool_step_slot _ _ _ _ _ Hstep Hi) as (sl0 & Hi0 & [->|(e & Hs & Hnc & Hnp)]).
  - apply sup_alive_mono. by eapply Hsl.
  - destruct (pinv_slots _ _ Hinv _ _ Hi0) as (Hsi & _). eapply sup_step_alive; eauto.
Qed.

(** No supervisor of a tame pool ends in its first 2^64 - 1 steps. *)
Lemma pool_run_alive evs now p i sl :
  (2 * Z.of_nat (count config) <= u64_max)%Z -> Forall tame evs ->
  (Z.of_nat (length evs) <= u64_max)%Z ->
  run (pool_step config) evs (pool_new config now) = Some p ->
  slots p !! i = Some sl -> ended (supervisor sl) = false.
Proof.
  intros Hn Htame Hlen Hrun Hi.
  assert (pool_alive (0 + Z.of_nat (length evs)) p) as (_ & _ & Hal).
  { refine (run_invariant_count (pool_step config) tame pool_alive _ evs 0 _ p Htame _ Hrun).
    - intros n ev p1 p2 Ht Hp Hs. by eapply pool_step_alive.
    - split_and!; [by apply pool_new_inv|done|]. intros j slj [-> _]%lookup_replicate. by split_and!. }
  destruct (Hal i sl Hi) as (Hj & Hret & _). destruct Hj as [_ Hpan]; [lia|].
  unfold ended. by destruct (phase (supervisor sl)).
Qed.
End liveness.

(** * Example *)

Import Sample Examples.

(** A request waits at the dispatcher while the two workers boot; four steps later
    the pool is still busy and a step remains. *)
Lemma pool_drains_witness :
  exists p', run (pool_step cfg) [EvMainTry; EvSlot 0 EvTop] (after arriving) = Some p'
    /\ exists ev p'', internal ev /\ own_part ev = true /\ pool_step cfg ev p' = Some p''.
Proof.
  pose (p' := default (after arriving) (run (pool_step cfg) [EvMainTry; EvSlot 0 EvTop] (after arriving))).
  exists p'. split; [vm_run|].
  destruct (pool_drains cfg arriving 0 (after arriving) [EvMainTry; EvSlot 0 EvTop] p' w0)
    as [_ [Hstep|[Hnone _]]].
  - vm_compute; discriminate.
  - vm_run.
  - repeat constructor.
  - vm_run.
  - exact Hstep.
  - apply (f_equal length) in Hnone. vm_compute in Hnone. discriminate.
Defined.

Module ReloadExample.
Definition boot (i : nat) : list (PoolEvent MockWorker) :=
  [EvSlot i EvTop; EvSlot i (EvBoot (Ok w0) (Completed (Ok tt))); EvSlot i EvPolled; EvSlot i EvParked].
Definition reload (i : nat) : list (PoolEvent MockWorker) :=
  [EvSlot i EvChanged; EvSlot i (EvCheck 5); EvSlot i (EvTerminated 6)] ++ boot i.

(** Both slots have a worker when the reload is triggered. *)
Definition before : list (PoolEvent MockWorker) := boot 0 ++ boot 1 ++ [EvTriggerReload].
Definition reloading : list (PoolEvent MockWorker) := reload 1 ++ reload 0.
Definition reloaded : PoolState MockWorker :=
  default (after before) (run (pool_step cfg) reloading (after before)).
End ReloadExample.
Import ReloadExample.

Lemma reload_reaches_every_worker_witness :
  exists sl wk, slots reloaded !! 0 = Some sl /\ worker (supervisor sl) = Some wk
    /\ (wh_is_recyclable wk = true -> boot_generation (supervisor sl) = generation (reload_tx reloaded)).
Proof.
  destruct (reload_reaches_every_worker cfg before 0 (after before) reloading reloaded w0) as [_ Hall].
  - vm_compute; discriminate.
  - vm_run.
  - repeat constructor.
  - vm_run.
  - assert (exists sl, slots reloaded !! 0 = Some sl) as [sl Hi] by (apply eval_some; vm_compute; reflexivity).
    assert (ended (supervisor sl) = false) as He.
    { apply negb_true_iff. apply (forallb_lookup (fun sl => negb (ended (supervisor sl))) (slots reloaded) 0);
        [vm_compute; reflexivity|exact Hi]. }
    destruct (Hall (pool_resting_at_rest cfg reloaded ltac:(vm_compute; reflexivity)) 0 sl Hi He)
      as (_ & wk & Hwk & _ & _ & Hg).
    exact (ex_intro _ sl (ex_intro _ wk (conj Hi (conj Hwk Hg)))).
Defined.
