(* ===== verification/Executor.v ===== *)
(** The [Executor] implementation of [WorkerPool] and
    [WorkerPool::dispatch_streamed] ([crates/folk-core/src/worker_pool.rs]), as
    one caller sees them.

    What the pool does with the dispatched request is the subject of [Pool];
    here its outcome is the environment of the call: whether the semaphore or
    the request channel is closed, the UUID and the channel the call creates,
    and the chunks that arrive on it. *)

From S2P Require Import Prelude.
From S2P Require Import Text.
From S2P Require Import Protocol.
From S2P Require Import Collect.
From S2P Require Import Supervisor.

(** The error type declared for the pool.  Nothing in the repository constructs
    one: every error below is a message. *)
Inductive WorkError :=
| Busy
| WorkerDied
| Timeout
| Application (code : Z) (message : string)
| Internal (message : string).

(** [#[error(..)]]. *)
Definition WorkError_display (e : WorkError) : string :=
  match e with
  | Busy => "all workers busy"
  | WorkerDied => "worker died during request"
  | Timeout => "execution timed out"
  | Application _ message => "worker returned application error: " +:+ message
  | Internal message => "internal error: " +:+ message
  end.

Section executor.
Context `{FA : FolkApi} `{HO : !HashOrder}.

Record CallEnv := mkCallEnv {
  semaphore_closed : bool;
  pool_gone : bool;
  uuid : string;
  new_stream : nat;
  new_permit : nat;
  chunks : list ResponseChunk;
}.

(** The request sent to the pool, if any, and the result of the call. *)
Definition dispatch_streamed (env : CallEnv) (m : string) (p : value)
    (body : option RequestBody) :
    option DispatchRequest * result (list ResponseChunk * string) :=
  if semaphore_closed env then (None, context "pool semaphore closed" (Err "closed"))
  else
    let request_id := uuid env in
    let req := {| Supervisor.request_id := request_id; method := m; payload := p;
                  stream_tx := new_stream env; permit := new_permit env;
                  request_body := body |} in
    if pool_gone env then (None, Err "pool task gone")
    else (Some req, Ok (chunks env, request_id)).

Definition execute_value (env : CallEnv) (m : string) (p : value) :
    option DispatchRequest * result value :=
  let (req, r) := dispatch_streamed env m p None in
  (req, rx <-? r;; collect_stream rx.1).

Definition execute_value_traced (env : CallEnv) (m : string) (p : value) :
    option DispatchRequest * result (value * string) :=
  let (req, r) := dispatch_streamed env m p None in
  (req, rx <-? r;; v <-? collect_stream rx.1;; Ok (v, rx.2)).

Definition execute_method (env : CallEnv) (m : string) (payload : bytes) :
    option DispatchRequest * result bytes :=
  match context "pool: failed to parse payload as JSON" (from_slice payload) with
  | Err e => (None, Err e)
  | Ok v =>
      let (req, r) := dispatch_streamed env m v None in
      (req, rx <-? r;; result <-? collect_stream rx.1;;
            context "pool: failed to serialize response" (to_vec result))
  end.

Definition execute_streamed (env : CallEnv) (m : string) (p : value) :=
  dispatch_streamed env m p None.

Definition execute_streamed_with_body (env : CallEnv) (m : string) (p : value)
    (body_rx : list bytes) :=
  dispatch_streamed env m p (Some (Raw body_rx)).

Definition execute_streamed_with_parts (env : CallEnv) (m : string) (p : value)
    (parts_rx : list RequestPart) :=
  dispatch_streamed env m p (Some (Parts parts_rx)).

(** C24. The response contract: when the worker finishes with a [Return], the
    three non-streaming calls give back exactly that value (respectively its
    serialisation, respectively the value with the id the worker was given),
    whatever streamed before it; an [Error] makes all three fail with the
    worker's message. *)
Theorem execute_contract env m p payload pre fin
    (Hsem : semaphore_closed env = false) (Hpool : pool_gone env = false)
    (Hparse : from_slice payload = Ok p)
    (Hpre : Forall is_streaming pre)
    (Hchunks : chunks env = pre ++ fin ++ [End])
    (Hfin : (exists v, fin = [Return v]) \/ (exists e, fin = [Error e])) :
  exists req, request_id req = uuid env /\ Supervisor.payload req = p /\ method req = m
    /\ request_body req = None
    /\ execute_value env m p = (Some req, stream_result pre fin)
    /\ execute_value_traced env m p = (Some req, v <-? stream_result pre fin;; Ok (v, uuid env))
    /\ execute_method env m payload =
         (Some req, v <-? stream_result pre fin;;
                    context "pool: failed to serialize response" (to_vec v)).
Proof.
  destruct (collect_framed pre fin [] Hpre (or_intror Hfin)) as [Hc _].
  unfold execute_value, execute_value_traced, execute_method, dispatch_streamed.
  rewrite Hparse, Hsem, Hpool. simpl. rewrite Hchunks, Hc.
  exists (mkDispatchRequest (uuid env) m p (new_stream env) (new_permit env) None).
  split_and!; reflexivity.
Qed.

(** A request that the pool drops (every inbox closed), or whose worker is
    gone before it sends anything, is reported as a success: its response
    channel closes with nothing in it, and the caller gets status 200 with no
    headers and an empty body. *)
Theorem execute_dropped_is_200 env m p
    (Hsem : semaphore_closed env = false) (Hpool : pool_gone env = false)
    (Hnothing : chunks env = []) :
  (execute_value env m p).2 = Ok (legacy_value 200 ∅ []).
Proof. unfold execute_value, dispatch_streamed. rewrite Hsem, Hpool. simpl. by rewrite Hnothing. Qed.
End executor.

(** * Examples *)

Module Examples.
Import Sample.
Definition env (cs : list ResponseChunk) : CallEnv := {|
  semaphore_closed := false; pool_gone := false; uuid := "u7"; new_stream := 0;
  new_permit := 0; chunks := cs;
|}.
End Examples.
Import Sample.
#[local] Existing Instance some_order.

Lemma execute_contract_witness :
  exists req, execute_value_traced
      (Examples.env [Body [x68]; Return (VString "r"); End]) "grpc.call" (VString "h")
    = (Some req, Ok (VString "r", "u7")).
Proof.
  destruct (execute_contract
    (Examples.env [Body [x68]; Return (VString "r"); End]) "grpc.call" (VString "h")
    [x68] [Body [x68]] [Return (VString "r")])
    as (req & _ & _ & _ & _ & _ & Htraced & _); try reflexivity.
  - repeat constructor.
  - left. by eexists.
  - exact (ex_intro _ req Htraced).
Defined.

Lemma execute_dropped_is_200_witness :
  (execute_value (Examples.env []) "m" VNull).2 =
    Ok (VObject [("status", VNumber 200%Z); ("headers", VObject []); ("body", VString "")]).
Proof.
  exact (execute_dropped_is_200
    (Examples.env []) "m" VNull eq_refl eq_refl eq_refl).
Defined.
