(* ===== verification/Bridge.v ===== *)
(** The PHP bridge ([crates/folk-ext/src/bridge.rs]): the thread-local state of
    one worker and the functions PHP calls on it.

    [Bridge] is the state of the thread together with the channels it holds
    ends of: every response channel by its number, with the chunks sent so far,
    how many more the receiver will take before it goes away, and whether the
    sender has been dropped; every completion channel; and the ready signal.
    Dropping a sender is written out, because the other side observes it.

    A receiving end held by the worker ([task_rx], a request body) is the list
    of what will arrive before its sender closes: [recv] blocks until then, so
    the code cannot tell when it arrives.  The number of chunks a response
    receiver still takes is the environment's choice, made once and for all:
    the receiver may go away between any two sends.  Sends wait for capacity;
    that they do is not visible to the worker ([StreamChannel] shows both). *)

From S2P Require Import Prelude.
From S2P Require Import Protocol.

Section bridge.
Context `{FA : FolkApi}.

(** * State *)

Record TaskRequest := mkTaskRequest {
  request_id : string;
  method : string;
  payload : value;
  stream_tx : nat;
  done_tx : nat;
  request_body : option RequestBody;
}.

Inductive PartState := BeforeFirst | InPart | PartEnded | Done.

#[export] Instance PartState_eq_dec : EqDecision PartState.
Proof. solve_decision. Defined.

Record WorkerState := mkWorkerState {
  worker_id : Z;
  task_rx : list TaskRequest;
  ready_tx : bool;
  current_stream_tx : option nat;
  current_done_tx : option nat;
  stream_started : bool;
  current_request_id : option string;
  current_body : option RequestBody;
  current_body_leftover : bytes;
  current_part_state : PartState;
}.

(** A response channel as seen from its sending end. *)
Record StreamChan := mkStreamChan {
  sc_sent : list ResponseChunk;
  rx_left : option nat;
  sc_closed : bool;
}.

Inductive DoneChan := DonePending | DoneSent | DoneDropped.

Record Bridge := mkBridge {
  worker : option WorkerState;
  streams : gmap nat StreamChan;
  dones : gmap nat DoneChan;
  ready_signals : nat;
  joins : nat;
  vcwd : option string;
}.

(** ** Updates *)

Definition set_worker (w : option WorkerState) (b : Bridge) : Bridge := {|
  worker := w; streams := streams b; dones := dones b;
  ready_signals := ready_signals b; joins := joins b; vcwd := vcwd b;
|}.
Definition set_streams (m : gmap nat StreamChan) (b : Bridge) : Bridge := {|
  worker := worker b; streams := m; dones := dones b;
  ready_signals := ready_signals b; joins := joins b; vcwd := vcwd b;
|}.
Definition set_dones (m : gmap nat DoneChan) (b : Bridge) : Bridge := {|
  worker := worker b; streams := streams b; dones := m;
  ready_signals := ready_signals b; joins := joins b; vcwd := vcwd b;
|}.

Definition set_task_rx (q : list TaskRequest) (s : WorkerState) : WorkerState := {|
  worker_id := worker_id s; task_rx := q; ready_tx := ready_tx s;
  current_stream_tx := current_stream_tx s; current_done_tx := current_done_tx s;
  stream_started := stream_started s; current_request_id := current_request_id s;
  current_body := current_body s; current_body_leftover := current_body_leftover s;
  current_part_state := current_part_state s;
|}.
Definition set_ready_tx (r : bool) (s : WorkerState) : WorkerState := {|
  worker_id := worker_id s; task_rx := task_rx s; ready_tx := r;
  current_stream_tx := current_stream_tx s; current_done_tx := current_done_tx s;
  stream_started := stream_started s; current_request_id := current_request_id s;
  current_body := current_body s; current_body_leftover := current_body_leftover s;
  current_part_state := current_part_state s;
|}.
Definition set_started (st : bool) (s : WorkerState) : WorkerState := {|
  worker_id := worker_id s; task_rx := task_rx s; ready_tx := ready_tx s;
  current_stream_tx := current_stream_tx s; current_done_tx := current_done_tx s;
  stream_started := st; current_request_id := current_request_id s;
  current_body := current_body s; current_body_leftover := current_body_leftover s;
  current_part_state := current_part_state s;
|}.
(** The body cursor: receiver, leftover, part position. *)
Definition set_body (body : option RequestBody) (left : bytes) (ps : PartState)
    (s : WorkerState) : WorkerState := {|
  worker_id := worker_id s; task_rx := task_rx s; ready_tx := ready_tx s;
  current_stream_tx := current_stream_tx s; current_done_tx := current_done_tx s;
  stream_started := stream_started s; current_request_id := current_request_id s;
  current_body := body; current_body_leftover := left; current_part_state := ps;
|}.
(** [current_stream_tx.take()], [current_done_tx.take()] and the assignments
    every finishing call makes. *)
Definition clear_request (s : WorkerState) : WorkerState := {|
  worker_id := worker_id s; task_rx := task_rx s; ready_tx := ready_tx s;
  current_stream_tx := None; current_done_tx := None;
  stream_started := false; current_request_id := None;
  current_body := None; current_body_leftover := []; current_part_state := Done;
|}.
Definition take_stream_tx (s : WorkerState) : WorkerState := {|
  worker_id := worker_id s; task_rx := task_rx s; ready_tx := ready_tx s;
  current_stream_tx := None; current_done_tx := current_done_tx s;
  stream_started := stream_started s; current_request_id := current_request_id s;
  current_body := current_body s; current_body_leftover := current_body_leftover s;
  current_part_state := current_part_state s;
|}.
(** The assignments of a received request. *)
Definition install_request (req : TaskRequest) (s : WorkerState) : WorkerState := {|
  worker_id := worker_id s; task_rx := task_rx s; ready_tx := ready_tx s;
  current_stream_tx := Some (stream_tx req); current_done_tx := Some (done_tx req);
  stream_started := false; current_request_id := Some (request_id req);
  current_body := request_body req; current_body_leftover := [];
  current_part_state := BeforeFirst;
|}.

(** ** Channel ends *)

(** [stream_tx.blocking_send(chunk)]: fails when the receiver is gone. *)
Definition blocking_send (sid : nat) (c : ResponseChunk) : SE Bridge unit := fun b =>
  match streams b !! sid with
  | None => (b, Err "channel closed")
  | Some ch =>
      match rx_left ch with
      | Some O => (b, Err "channel closed")
      | Some (S k) =>
          (set_streams (<[sid := {| sc_sent := sc_sent ch ++ [c]; rx_left := Some k;
                                    sc_closed := sc_closed ch |}]> (streams b)) b, Ok tt)
      | None =>
          (set_streams (<[sid := {| sc_sent := sc_sent ch ++ [c]; rx_left := None;
                                    sc_closed := sc_closed ch |}]> (streams b)) b, Ok tt)
      end
  end.

Definition close_chan (ch : StreamChan) : StreamChan :=
  {| sc_sent := sc_sent ch; rx_left := rx_left ch; sc_closed := true |}.

Definition drop_stream (sid : nat) (b : Bridge) : Bridge :=
  set_streams (alter close_chan sid (streams b)) b.
Definition drop_stream_opt (sid : option nat) (b : Bridge) : Bridge :=
  match sid with Some sid => drop_stream sid b | None => b end.

(** [done_tx.send(())] and the drop of an unused [done_tx]. *)
Definition done_send (did : nat) (b : Bridge) : Bridge :=
  set_dones (<[did := DoneSent]> (dones b)) b.
Definition drop_done (did : nat) (b : Bridge) : Bridge :=
  set_dones (<[did := DoneDropped]> (dones b)) b.
Definition drop_done_opt (did : option nat) (b : Bridge) : Bridge :=
  match did with Some did => drop_done did b | None => b end.

(** [let _ = tx.blocking_send(..)], in order. *)
Fixpoint send_all (sid : nat) (cs : list ResponseChunk) (b : Bridge) : Bridge :=
  match cs with
  | [] => b
  | c :: cs => send_all sid cs (blocking_send sid c b).1
  end.

(** * Worker life cycle *)

(** Dropping a queued request drops both of its senders. *)
Definition drop_request (b : Bridge) (req : TaskRequest) : Bridge :=
  drop_done (done_tx req) (drop_stream (stream_tx req) b).

Definition cleanup_worker_state (b : Bridge) : Bridge :=
  match worker b with
  | None => b
  | Some s =>
      let b := foldl drop_request b (task_rx s) in
      let b := drop_stream_opt (current_stream_tx s) b in
      let b := drop_done_opt (current_done_tx s) b in
      set_worker None b
  end.

Definition init_worker_state (id : Z) (rx : list TaskRequest) (b : Bridge) : Bridge :=
  set_worker (Some {|
    worker_id := id; task_rx := rx; ready_tx := true;
    current_stream_tx := None; current_done_tx := None; stream_started := false;
    current_request_id := None; current_body := None; current_body_leftover := [];
    current_part_state := BeforeFirst;
  |}) (cleanup_worker_state b).

Definition has_worker_state (b : Bridge) : bool := bool_decide (is_Some (worker b)).

Definition get_current_request_id (b : Bridge) : option string :=
  s ← worker b; current_request_id s.

(** [state.as_mut().ok_or("not in a worker thread")?] *)
Definition get_state : SE Bridge WorkerState := fun b =>
  match worker b with
  | Some s => (b, Ok s)
  | None => (b, Err "not in a worker thread")
  end.
Definition put_state (s : WorkerState) : SE Bridge unit := se_modify (set_worker (Some s)).

Definition signal_ready (b : Bridge) : Bridge := {|
  worker := worker b; streams := streams b; dones := dones b;
  ready_signals := S (ready_signals b); joins := joins b; vcwd := vcwd b;
|}.

Definition do_ready : SE Bridge bool :=
  state <-- get_state;;
  if ready_tx state then
    put_state (set_ready_tx false state);;;
    se_modify signal_ready;;;
    se_ret true
  else se_ret false.

(** Storing a received request in the state drops the senders it replaces. *)
Definition accept_request (req : TaskRequest) (rest : list TaskRequest) (state : WorkerState) :
    SE Bridge unit :=
  put_state (install_request req (set_task_rx rest state));;;
  se_modify (drop_stream_opt (current_stream_tx state));;;
  se_modify (drop_done_opt (current_done_tx state)).

Definition do_recv : SE Bridge (option (string * bytes)) :=
  state <-- get_state;;
  match task_rx state with
  | req :: rest =>
      let payload_bytes := match to_vec (payload req) with Ok bs => bs | Err _ => [] end in
      accept_request req rest state;;;
      se_ret (Some (method req, payload_bytes))
  | [] => se_ret None
  end.

(** * Finishing a request *)

Definition worker_error_from_value (v : value) : WorkerError := {|
  message := default "worker error" (value_get v "__error" ≫= value_as_str);
  exception_class := value_get v "__error_class" ≫= value_as_str;
  stacktrace := value_get v "__error_trace" ≫= value_as_str;
|}.

(** The chunk a returned value becomes. *)
Definition value_chunk (v : value) : ResponseChunk :=
  match value_get v "__error" with
  | Some _ => Error (worker_error_from_value v)
  | None => Return v
  end.

Definition do_send (data : bytes) : SE Bridge unit :=
  state <-- get_state;;
  match current_stream_tx state with
  | None => se_fail "no pending request"
  | Some stream_tx =>
      match current_done_tx state with
      | None =>
          put_state (take_stream_tx state);;;
          se_modify (drop_stream stream_tx);;;
          se_fail "no pending done channel"
      | Some done_tx =>
          put_state (clear_request state);;;
          match from_slice data with
          | Err e =>
              se_modify (send_all stream_tx
                [Error (worker_error_new ("PHP returned malformed JSON: " +:+ e)); End]);;;
              se_modify (done_send done_tx);;;
              se_modify (drop_stream stream_tx);;;
              se_fail "PHP returned malformed JSON"
          | Ok v =>
              se_modify (send_all stream_tx [value_chunk v; End]);;;
              se_modify (done_send done_tx);;;
              se_modify (drop_stream stream_tx)
          end
      end
  end.

Definition do_send_error (message : string) : SE Bridge unit :=
  state <-- get_state;;
  put_state (clear_request state);;;
  match current_stream_tx state with
  | Some tx =>
      se_modify (send_all tx [Error (worker_error_new message); End]);;;
      se_modify (drop_stream tx)
  | None => se_ret tt
  end;;;
  match current_done_tx state with
  | Some done_tx => se_modify (done_send done_tx)
  | None => se_ret tt
  end.

(** * Streaming responses *)

Definition do_write_head (status : Z) (headers : gmap string string) : SE Bridge unit :=
  state <-- get_state;;
  stream_tx <-- se_ok_or (current_stream_tx state) "no pending request";;
  if stream_started state then
    se_fail "folk_write_head called more than once for this request"
  else
    put_state (set_started true state);;;
    fun b => match blocking_send stream_tx (Headers status headers) b with
             | (b, Ok _) => (b, Ok tt)
             | (b, Err _) => (b, Err "stream receiver closed (client gone)")
             end.

Definition do_write (data : bytes) : SE Bridge unit :=
  state <-- get_state;;
  stream_tx <-- se_ok_or (current_stream_tx state) "no pending request";;
  if decide (data = []) then se_ret tt
  else
    fun b => match blocking_send stream_tx (Body data) b with
             | (b, Ok _) => (b, Ok tt)
             | (b, Err _) => (b, Err "stream receiver closed (client gone)")
             end.

Definition do_write_end : SE Bridge unit :=
  state <-- get_state;;
  match current_stream_tx state with
  | None => se_fail "no pending request"
  | Some stream_tx =>
      match current_done_tx state with
      | None =>
          put_state (take_stream_tx state);;;
          se_modify (drop_stream stream_tx);;;
          se_fail "no pending done channel"
      | Some done_tx =>
          put_state (clear_request state);;;
          se_modify (send_all stream_tx [End]);;;
          se_modify (drop_stream stream_tx);;;
          se_modify (done_send done_tx)
      end
  end.

(** * Streaming request bodies

    [blocking_recv] on a body takes the next element of the list; [None] is
    the closed channel. *)

(** [leftover.split_to(min(length, leftover.len()))]. *)
Definition split_leftover (length : nat) (s : WorkerState) : WorkerState * bytes :=
  let take_n := Nat.min length (List.length (current_body_leftover s)) in
  (set_body (current_body s) (drop take_n (current_body_leftover s)) (current_part_state s) s,
   take take_n (current_body_leftover s)).

Definition read (length : nat) (s : WorkerState) : WorkerState * bytes :=
  if decide (current_body_leftover s = []) then
    match current_body s with
    | Some (Raw (chunk :: rx)) =>
        split_leftover length (set_body (Some (Raw rx)) chunk (current_part_state s) s)
    | _ => (s, [])
    end
  else split_leftover length s.

Definition read_all (s : WorkerState) : WorkerState * bytes :=
  let out := current_body_leftover s in
  match current_body s with
  | Some (Raw rx) => (set_body (Some (Raw [])) [] (current_part_state s) s, out ++ concat rx)
  | body => (set_body body [] (current_part_state s) s, out)
  end.

(** The drain loop of [do_next_part]: what is left after the [End] of the
    current part, or [None] when the stream is malformed or closed. *)
Fixpoint drain_part (rx : list RequestPart) : list RequestPart * bool :=
  match rx with
  | PartData _ :: rx => drain_part rx
  | PartEnd :: rx => (rx, true)
  | PartStart _ _ _ :: rx => (rx, false)
  | [] => ([], false)
  end.

Definition part_header (name : string) (filename content_type : option string) : string :=
  let opt o := match o with Some s => VString s | None => VNull end in
  to_json_string (VObject (map_collect
    [("name", VString name); ("filename", opt filename); ("content_type", opt content_type)])).

Definition next_part (s : WorkerState) : WorkerState * option string :=
  match current_body s with
  | Some (Parts rx) =>
      if decide (current_part_state s = Done) then (s, None)
      else
        let '(rx, ok) :=
          if decide (current_part_state s = InPart) then drain_part rx else (rx, true) in
        if negb ok then (set_body (Some (Parts rx)) [] Done s, None)
        else
          match rx with
          | PartStart name filename content_type :: rx =>
              (set_body (Some (Parts rx)) [] InPart s,
               Some (part_header name filename content_type))
          | _ :: rx => (set_body (Some (Parts rx)) [] Done s, None)
          | [] => (set_body (Some (Parts [])) [] Done s, None)
          end
  | _ => (s, None)
  end.

Definition part_read (length : nat) (s : WorkerState) : WorkerState * bytes :=
  if decide (current_part_state s = InPart) then
    if decide (current_body_leftover s = []) then
      match current_body s with
      | Some (Parts rx) =>
          match rx with
          | PartData chunk :: rx =>
              split_leftover length (set_body (Some (Parts rx)) chunk InPart s)
          | PartEnd :: rx => (set_body (Some (Parts rx)) [] PartEnded s, [])
          | PartStart _ _ _ :: rx => (set_body (Some (Parts rx)) [] Done s, [])
          | [] => (set_body (Some (Parts [])) [] Done s, [])
          end
      | _ => (s, [])
      end
    else split_leftover length s
  else (s, []).

(** The loop of [do_part_read_all]. *)
Fixpoint collect_part (rx : list RequestPart) (out : bytes) :
    list RequestPart * PartState * bytes :=
  match rx with
  | PartData chunk :: rx => collect_part rx (out ++ chunk)
  | PartEnd :: rx => (rx, PartEnded, out)
  | PartStart _ _ _ :: rx => (rx, Done, out)
  | [] => ([], Done, out)
  end.

Definition part_read_all (s : WorkerState) : WorkerState * bytes :=
  if decide (current_part_state s = InPart) then
    let out := current_body_leftover s in
    match current_body s with
    | Some (Parts rx) =>
        let '(rx, ps, out) := collect_part rx out in
        (set_body (Some (Parts rx)) [] ps s, out)
    | body => (set_body body [] InPart s, out)
    end
  else (s, []).

(** [WORKER.with(..)]: outside a worker thread a body function yields
    nothing. *)
Definition on_state {A} (none : A) (f : WorkerState -> WorkerState * A) (b : Bridge) : Bridge * A :=
  match worker b with
  | None => (b, none)
  | Some s => let '(s, a) := f s in (set_worker (Some s) b, a)
  end.

Definition do_read (length : nat) : Bridge -> Bridge * bytes := on_state [] (read length).
Definition do_read_all : Bridge -> Bridge * bytes := on_state [] read_all.
Definition do_next_part : Bridge -> Bridge * option string := on_state None next_part.
Definition do_part_read (length : nat) : Bridge -> Bridge * bytes := on_state [] (part_read length).
Definition do_part_read_all : Bridge -> Bridge * bytes := on_state [] part_read_all.

(** * PHP code

    What a PHP handler can do to the bridge is call its functions; what it does
    next may depend on what they return.  [folk_worker_run] is called by worker
    scripts ([Script] of [ZtsWorker]); a handler that calls it again, nesting the
    dispatch loop in itself, is left out. *)
Inductive ApiCall :=
| CReady
| CRecv
| CSend (data : bytes)
| CSendError (message : string)
| CWriteHead (status : Z) (headers : gmap string string)
| CWrite (data : bytes)
| CWriteEnd
| CRead (length : nat)
| CReadAll
| CNextPart
| CPartRead (length : nat)
| CPartReadAll
| CRequestId
| CIsWorker.

Inductive ApiResult :=
| RUnit (r : result unit)
| RBool (r : result bool)
| RRecv (r : result (option (string * bytes)))
| RBytes (bs : bytes)
| RPart (p : option string)
| RId (id : option string)
| RFlag (f : bool).

Definition api_call (c : ApiCall) (b : Bridge) : Bridge * ApiResult :=
  match c with
  | CReady => prod_map id RBool (do_ready b)
  | CRecv => prod_map id RRecv (do_recv b)
  | CSend data => prod_map id RUnit (do_send data b)
  | CSendError m => prod_map id RUnit (do_send_error m b)
  | CWriteHead st h => prod_map id RUnit (do_write_head st h b)
  | CWrite d => prod_map id RUnit (do_write d b)
  | CWriteEnd => prod_map id RUnit (do_write_end b)
  | CRead n => prod_map id RBytes (do_read n b)
  | CReadAll => prod_map id RBytes (do_read_all b)
  | CNextPart => prod_map id RPart (do_next_part b)
  | CPartRead n => prod_map id RBytes (do_part_read n b)
  | CPartReadAll => prod_map id RBytes (do_part_read_all b)
  | CRequestId => (b, RId (get_current_request_id b))
  | CIsWorker => (b, RFlag (has_worker_state b))
  end.

(** A PHP handler: a tree of calls, ending in the outcome of
    [call_user_function]. *)
Inductive Handler :=
| HReturn (r : result value)
| HCall (c : ApiCall) (k : ApiResult -> Handler).

Fixpoint run_handler (h : Handler) (b : Bridge) : Bridge * result value :=
  match h with
  | HReturn r => (b, r)
  | HCall c k => let '(b, r) := api_call c b in run_handler (k r) b
  end.

(** * The dispatch loop *)

(** The chunk a handler's outcome becomes when it has not streamed. *)
Definition outcome_chunk (r : result value) : ResponseChunk :=
  match r with
  | Ok v => value_chunk v
  | Err e => Error (worker_error_new e)
  end.

(** The block after [call_dispatch]. *)
Definition finalise (r : result value) (b : Bridge) : Bridge :=
  match worker b with
  | None => b
  | Some st =>
      let b := set_worker (Some (clear_request st)) b in
      let b :=
        match current_stream_tx st with
        | Some tx =>
            let b := if stream_started st then send_all tx [End] b
                     else send_all tx [outcome_chunk r; End] b in
            drop_stream tx b
        | None => b
        end in
      match current_done_tx st with
      | Some dtx => done_send dtx b
      | None => b
      end
  end.

Definition join_zts_workers (b : Bridge) : Bridge := {|
  worker := worker b; streams := streams b; dones := dones b;
  ready_signals := ready_signals b; joins := S (joins b); vcwd := vcwd b;
|}.

(** One turn of the loop; [false] when the task channel is closed.  [php] is
    [call_dispatch(dispatch_fn, method, payload)]. *)
Definition dispatch_turn (php : string -> value -> Handler) : SE Bridge bool :=
  state <-- get_state;;
  match task_rx state with
  | req :: rest =>
      accept_request req rest state;;;
      fun b =>
        let '(b, r) := run_handler (php (method req) (payload req)) b in
        (finalise r b, Ok true)
  | [] =>
      (if decide (worker_id state = 1%Z) then se_modify join_zts_workers else se_ret tt);;;
      se_ret false
  end.

(** The loop, for at most [fuel] turns; [None] when they do not suffice. *)
Fixpoint dispatch_loop (fuel : nat) (php : string -> value -> Handler) (b : Bridge) :
    Bridge * option (result unit) :=
  match fuel with
  | O => (b, None)
  | S fuel =>
      match dispatch_turn php b with
      | (b, Ok true) => dispatch_loop fuel php b
      | (b, Ok false) => (b, Some (Ok tt))
      | (b, Err e) => (b, Some (Err e))
      end
  end.

Definition set_vcwd (d : string) (b : Bridge) : Bridge := {|
  worker := worker b; streams := streams b; dones := dones b;
  ready_signals := ready_signals b; joins := joins b; vcwd := Some d;
|}.

(** The start of [run_dispatch_loop]: signal ready, restore the working directory
    ([chdir_ok] says whether the directory can be entered; a failure is
    ignored). *)
Definition enter_loop (project_root : option string) (chdir_ok : string -> bool)
    (state : WorkerState) (b : Bridge) : Bridge :=
  let b := if ready_tx state then signal_ready (set_worker (Some (set_ready_tx false state)) b)
           else b in
  match project_root with
  | Some root => if chdir_ok root then set_vcwd root b else b
  | None => b
  end.

Definition run_dispatch_loop (fuel : nat) (project_root : option string)
    (chdir_ok : string -> bool) (php : string -> value -> Handler) (b : Bridge) :
    Bridge * option (result unit) :=
  match worker b with
  | None => (b, Some (Err "not in a worker thread"))
  | Some state => dispatch_loop fuel php (enter_loop project_root chdir_ok state b)
  end.
End bridge.

(** Opens the monad of the calls. *)
Ltac bridge_unfold := unfold se_bind, get_state, put_state, se_ok_or, se_modify, se_ret, se_fail.
