(* ===== verification/BridgeSpec.v ===== *)
(** What the PHP bridge promises, whatever PHP does: response streams follow the
    framing, a request is finished at most once, and the dispatch loop answers
    every request it takes. *)

From S2P Require Import Prelude.
From S2P Require Import Protocol.
From S2P Require Import Bridge.

Section spec.
Context `{FA : FolkApi}.

Implicit Types (b : Bridge) (s : WorkerState).

(** * Channel lemmas *)

(** The chunks that get through a receiver that takes [left] more. *)
Definition delivered (left : option nat) (cs : list ResponseChunk) : list ResponseChunk :=
  match left with None => cs | Some n => take n cs end.
Definition left_after (left : option nat) (cs : list ResponseChunk) : option nat :=
  match left with None => None | Some n => Some (n - length cs) end.

Definition push_chan (ch : StreamChan) (cs : list ResponseChunk) : StreamChan := {|
  sc_sent := sc_sent ch ++ delivered (rx_left ch) cs;
  rx_left := left_after (rx_left ch) cs;
  sc_closed := sc_closed ch;
|}.

Lemma set_streams_id b : set_streams (streams b) b = b.
Proof. by destruct b. Qed.

Lemma push_chan_nil ch : push_chan ch [] = ch.
Proof.
  destruct ch as [sent left cl]. unfold push_chan; simpl.
  destruct left; simpl; rewrite ?take_nil, ?app_nil_r, ?Nat.sub_0_r; done.
Qed.

Lemma blocking_send_spec sid c b ch :
  streams b !! sid = Some ch ->
  (blocking_send sid c b).1 = set_streams (<[sid := push_chan ch [c]]> (streams b)) b.
Proof.
  intros Hch. unfold blocking_send. rewrite Hch. destruct ch as [sent [[|n]|] cl]; simpl.
  - unfold push_chan; simpl. rewrite app_nil_r, insert_id by exact Hch.
    by rewrite set_streams_id.
  - unfold push_chan; simpl. by rewrite take_nil, Nat.sub_0_r.
  - done.
Qed.

Lemma push_chan_cons ch c cs : push_chan (push_chan ch [c]) cs = push_chan ch (c :: cs).
Proof.
  destruct ch as [sent [[|n]|] cl]; unfold push_chan; simpl; f_equal;
    rewrite ?take_nil, <- ?app_assoc; simpl; rewrite ?Nat.sub_0_r, ?take_0, ?app_nil_r; done.
Qed.

Lemma send_all_spec sid cs b ch :
  streams b !! sid = Some ch ->
  send_all sid cs b = set_streams (<[sid := push_chan ch cs]> (streams b)) b.
Proof.
  revert b ch; induction cs as [|c cs IH]; intros b ch Hch; cbn [send_all].
  - by rewrite push_chan_nil, insert_id, set_streams_id.
  - rewrite (blocking_send_spec _ _ _ _ Hch).
    rewrite (IH _ (push_chan ch [c])); [|by simpl; simplify_map_eq].
    simpl. unfold set_streams; simpl. by rewrite insert_insert_eq, push_chan_cons.
Qed.

Lemma delivered_prefix left cs : exists rest, cs = delivered left cs ++ rest.
Proof. destruct left as [n|]; simpl; [exists (drop n cs); by rewrite take_drop|exists []; by rewrite app_nil_r]. Qed.

(** * Invariant *)

Definition stream_open b (sid : nat) (started : bool) : Prop :=
  exists ch head, streams b !! sid = Some ch /\ sc_closed ch = false
    /\ frame_run (FOpen false) (sc_sent ch) = Some (FOpen head)
    /\ (head = true -> started = true).

Definition queued_ok b (req : TaskRequest) : Prop :=
  (exists ch, streams b !! stream_tx req = Some ch /\ sc_closed ch = false /\ sc_sent ch = [])
  /\ dones b !! done_tx req = Some DonePending.

Definition current_inv b s : Prop :=
  match current_stream_tx s, current_done_tx s with
  | None, None => stream_started s = false /\ current_request_id s = None /\ current_body s = None
  | Some sid, Some did =>
      is_Some (current_request_id s) /\ stream_open b sid (stream_started s)
      /\ dones b !! did = Some DonePending
  | _, _ => False
  end.

Definition option_list {A} (o : option A) : list A :=
  match o with Some a => [a] | None => [] end.

Definition stream_ids s : list nat := option_list (current_stream_tx s) ++ (stream_tx <$> task_rx s).
Definition done_ids s : list nat := option_list (current_done_tx s) ++ (done_tx <$> task_rx s).

Definition worker_inv b s : Prop :=
  NoDup (stream_ids s) /\ NoDup (done_ids s) /\ current_inv b s /\ Forall (queued_ok b) (task_rx s).

Record bridge_inv b : Prop := {
  bi_frames : forall sid ch, streams b !! sid = Some ch -> well_framed (sc_sent ch);
  bi_worker : forall s, worker b = Some s -> worker_inv b s;
  bi_pending : forall did, dones b !! did = Some DonePending ->
                 exists s, worker b = Some s /\ did ∈ done_ids s;
  bi_open : forall sid ch, streams b !! sid = Some ch -> sc_closed ch = false ->
              exists s, worker b = Some s /\ sid ∈ stream_ids s;
}.

(** A fresh worker with the requests that will reach it. *)
Definition fresh_chan (left : option nat) : StreamChan :=
  {| sc_sent := []; rx_left := left; sc_closed := false |}.

Definition bridge_start (id : Z) (reqs : list TaskRequest) (left : nat -> option nat) : Bridge :=
  init_worker_state id reqs {|
    worker := None;
    streams := list_to_map ((fun req => (stream_tx req, fresh_chan (left (stream_tx req)))) <$> reqs);
    dones := list_to_map ((fun req => (done_tx req, DonePending)) <$> reqs);
    ready_signals := 0; joins := 0; vcwd := None;
  |}.

Definition distinct (reqs : list TaskRequest) : Prop :=
  NoDup (stream_tx <$> reqs) /\ NoDup (done_tx <$> reqs).

Lemma bridge_start_inv id reqs left : distinct reqs -> bridge_inv (bridge_start id reqs left).
Proof.
  intros [Hs Hd]. split.
  - intros sid ch Hch. apply elem_of_list_to_map_2 in Hch.
    apply list_elem_of_fmap in Hch as (req & [= -> ->] & _). by exists (FOpen false).
  - intros s [= <-]. split_and!; [done..|]. apply Forall_forall. intros req Hin. split; simpl.
    + exists (fresh_chan (left (stream_tx req))). split_and!; [|done..].
      apply elem_of_list_to_map_1.
      * rewrite <- list_fmap_compose. done.
      * apply list_elem_of_fmap. by exists req.
    + apply elem_of_list_to_map_1.
      * rewrite <- list_fmap_compose. done.
      * apply list_elem_of_fmap. by exists req.
  - intros did Hdid. apply elem_of_list_to_map_2 in Hdid.
    apply list_elem_of_fmap in Hdid as (req & [= ->] & Hin). eexists; split; [done|].
    unfold done_ids; simpl. apply list_elem_of_fmap. by exists req.
  - intros sid ch Hch _. apply elem_of_list_to_map_2 in Hch.
    apply list_elem_of_fmap in Hch as (req & [= -> ->] & Hin). eexists; split; [done|].
    unfold stream_ids; simpl. apply list_elem_of_fmap. by exists req.
Qed.

(** ** Preservation *)

(** A change of the worker's state that keeps its request and its channels. *)
Lemma inv_same_request b s s' :
  bridge_inv b -> worker b = Some s ->
  current_stream_tx s' = current_stream_tx s -> current_done_tx s' = current_done_tx s ->
  task_rx s' = task_rx s -> stream_started s' = stream_started s ->
  current_request_id s' = current_request_id s ->
  (current_body s = None -> current_body s' = None) ->
  bridge_inv (set_worker (Some s') b).
Proof.
  intros [Hf Hw Hp Ho] Hs H1 H2 H3 H4 H5 H6. destruct (Hw s Hs) as (Hn1 & Hn2 & Hc & Hq).
  split; simpl; [done| | |].
  - intros ? [= <-]. unfold worker_inv, stream_ids, done_ids. rewrite H1, H2, H3.
    split_and!; [done|done| |done]. unfold current_inv in *. rewrite H1, H2, H4, H5.
    destruct (current_stream_tx s), (current_done_tx s); naive_solver.
  - intros did Hdid. destruct (Hp did Hdid) as (s0 & Hs0 & Hin). simplify_eq.
    exists s'. split; [done|]. unfold done_ids in *. by rewrite H2, H3.
  - intros sid ch Hch Hcl. destruct (Ho sid ch Hch Hcl) as (s0 & Hs0 & Hin). simplify_eq.
    exists s'. split; [done|]. unfold stream_ids in *. by rewrite H1, H3.
Qed.

(** What every finishing call does: clear the request, send the last chunks,
    drop the stream and signal completion. *)
Definition finish b s (sid did : nat) (cs : list ResponseChunk) : Bridge :=
  done_send did (drop_stream sid (send_all sid cs (set_worker (Some (clear_request s)) b))).

Lemma finish_spec b s sid did cs ch :
  streams b !! sid = Some ch ->
  finish b s sid did cs = {|
    worker := Some (clear_request s);
    streams := <[sid := close_chan (push_chan ch cs)]> (streams b);
    dones := <[did := DoneSent]> (dones b);
    ready_signals := ready_signals b; joins := joins b; vcwd := vcwd b;
  |}.
Proof.
  intros Hch. unfold finish. rewrite (send_all_spec _ _ _ ch) by done.
  unfold done_send, drop_stream, set_dones, set_streams; simpl. by rewrite alter_insert_eq.
Qed.

Lemma current_open b s sid :
  bridge_inv b -> worker b = Some s -> current_stream_tx s = Some sid ->
  exists did ch head, current_done_tx s = Some did /\ streams b !! sid = Some ch
    /\ sc_closed ch = false
    /\ frame_run (FOpen false) (sc_sent ch) = Some (FOpen head)
    /\ (head = true -> stream_started s = true)
    /\ dones b !! did = Some DonePending.
Proof.
  intros [_ Hw _] Hs Hsid. destruct (Hw s Hs) as (_ & _ & Hc & _).
  unfold current_inv, stream_open in Hc. rewrite Hsid in Hc.
  destruct (current_done_tx s) as [did|]; [|done].
  destruct Hc as (_ & (ch & head & Hrest) & Hd). exists did, ch, head. naive_solver.
Qed.

Lemma queued_frame b b' s req :
  worker_inv b s -> req ∈ task_rx s ->
  (forall sid, sid ∉ option_list (current_stream_tx s) -> streams b' !! sid = streams b !! sid) ->
  (forall did, did ∉ option_list (current_done_tx s) -> dones b' !! did = dones b !! did) ->
  queued_ok b' req.
Proof.
  intros (Hn1 & Hn2 & _ & Hq) Hin Hss Hds. rewrite Forall_forall in Hq.
  destruct (Hq req Hin) as [(ch & Hch) Hd]. unfold stream_ids, done_ids in *.
  apply NoDup_app in Hn1 as (_ & Hn1 & _), Hn2 as (_ & Hn2 & _). split.
  - exists ch. rewrite Hss; [done|]. intros Hc. apply (Hn1 _ Hc), list_elem_of_fmap. by exists req.
  - rewrite Hds; [done|]. intros Hc. apply (Hn2 _ Hc), list_elem_of_fmap. by exists req.
Qed.

Lemma finish_inv b s sid did cs :
  bridge_inv b -> worker b = Some s ->
  current_stream_tx s = Some sid -> current_done_tx s = Some did ->
  (forall head, is_Some (frame_run (FOpen head) cs)) ->
  bridge_inv (finish b s sid did cs).
Proof.
  intros Hinv Hs Hsid Hdid Hcs.
  destruct (current_open b s sid Hinv Hs Hsid) as (did' & ch & head & Hd' & Hch & Hcl & Hrun & _ & _).
  rewrite Hdid in Hd'. simplify_eq. destruct Hinv as [Hf Hw Hp Ho]. pose proof (Hw s Hs) as Hwi.
  rewrite (finish_spec _ _ _ _ _ ch Hch). split; simpl.
  - intros sid' ch' Hl. apply lookup_insert_Some in Hl as [[<- <-]|[_ Hl]]; [|by eapply Hf].
    simpl. destruct (delivered_prefix (rx_left ch) cs) as [rest Hrest].
    apply (well_framed_prefix _ rest). rewrite <- (assoc_L (++)), <- Hrest.
    unfold well_framed. rewrite frame_run_app, Hrun. apply Hcs.
  - intros ? [= <-]. unfold worker_inv, stream_ids, done_ids in *. simpl.
    destruct Hwi as (Hn1 & Hn2 & Hc & Hq). split_and!.
    + by apply NoDup_app in Hn1 as (_ & _ & ?).
    + by apply NoDup_app in Hn2 as (_ & _ & ?).
    + done.
    + apply Forall_forall. intros req Hin. eapply (queued_frame b _ s); try done; simpl.
      * intros sid'. rewrite Hsid. simpl. intros Hne. rewrite lookup_insert_ne; set_solver.
      * intros did0. rewrite Hdid. simpl. intros Hne. rewrite lookup_insert_ne; set_solver.
  - intros did0 Hl. apply lookup_insert_Some in Hl as [[<- ?]|[Hne Hl]]; [done|].
    destruct (Hp did0 Hl) as (s0 & Hs0 & Hin). simplify_eq. eexists; split; [done|].
    unfold done_ids in *. rewrite Hdid in Hin. simpl in *. set_solver.
  - intros sid0 ch0 Hl Hop. apply lookup_insert_Some in Hl as [[<- <-]|[Hne Hl]]; [done|].
    destruct (Ho sid0 ch0 Hl Hop) as (s0 & Hs0 & Hin). simplify_eq. eexists; split; [done|].
    unfold stream_ids in *. rewrite Hsid in Hin. simpl in *. set_solver.
Qed.

(** Sending streaming chunks on the current stream. *)
Lemma send_inv b s sid c started' :
  bridge_inv b -> worker b = Some s -> current_stream_tx s = Some sid ->
  (stream_started s = true -> started' = true) ->
  (forall head, (head = true -> stream_started s = true) ->
     exists head', frame_step (FOpen head) c = Some (FOpen head')
       /\ (head' = true -> started' = true)) ->
  bridge_inv (blocking_send sid c (set_worker (Some (set_started started' s)) b)).1.
Proof.
  intros Hinv Hs Hsid Hst Hc.
  destruct (current_open b s sid Hinv Hs Hsid) as (did & ch & head & Hdid & Hch & Hcl & Hrun & Hh & Hd).
  destruct (Hc head Hh) as (head' & Hstep & Hh').
  destruct Hinv as [Hf Hw Hp Ho]. pose proof (Hw s Hs) as Hwi.
  rewrite (blocking_send_spec _ _ _ ch) by done.
  assert (exists h, frame_run (FOpen false) (sc_sent (push_chan ch [c])) = Some (FOpen h)
    /\ (h = true -> started' = true)) as (h & Hrun' & Hh2).
  { destruct ch as [sent [[|n]|] cl]; simpl in *; rewrite ?take_nil, ?app_nil_r;
      rewrite ?frame_run_app, Hrun; simpl; rewrite ?Hstep; eauto. }
  split; simpl.
  - intros sid' ch' Hl. apply lookup_insert_Some in Hl as [[<- <-]|[_ Hl]]; [|by eapply Hf].
    unfold well_framed. rewrite Hrun'. eauto.
  - intros ? [= <-]. destruct Hwi as (Hn1 & Hn2 & Hcur & Hq). split_and!; [done|done| |].
    + unfold current_inv in *; simpl. rewrite Hsid, Hdid in *. destruct Hcur as (Hid & _ & _).
      split_and!; [done| |done]. exists (push_chan ch [c]), h. simpl. simplify_map_eq. done.
    + apply Forall_forall. intros req Hin. eapply (queued_frame b _ s); try done; simpl.
      intros sid'. rewrite Hsid. simpl. intros Hne. rewrite lookup_insert_ne; set_solver.
  - intros did0 Hl. destruct (Hp did0 Hl) as (s0 & Hs0 & Hin). simplify_eq.
    eexists; split; [done|]. done.
  - intros sid0 ch0 Hl Hop. eexists; split; [done|].
    apply lookup_insert_Some in Hl as [[<- <-]|[Hne Hl]].
    + unfold stream_ids; simpl. rewrite Hsid. by left.
    + destruct (Ho sid0 ch0 Hl Hop) as (s0 & Hs0 & Hin). by simplify_eq.
Qed.

(** Accepting a request installs it and drops the senders it replaces. *)
Lemma accept_fields req rest s b :
  let b' := (accept_request req rest s b).1 in
  worker b' = Some (install_request req (set_task_rx rest s))
  /\ streams b' = streams (drop_stream_opt (current_stream_tx s) b)
  /\ dones b' = dones (drop_done_opt (current_done_tx s) b).
Proof. simpl. by destruct (current_stream_tx s), (current_done_tx s). Qed.

Lemma accept_inv b s req rest :
  bridge_inv b -> worker b = Some s -> task_rx s = req :: rest ->
  bridge_inv (accept_request req rest s b).1.
Proof.
  intros [Hf Hw Hp Ho] Hs Hq. pose proof (Hw s Hs) as (Hn1 & Hn2 & Hc & Hall).
  pose proof Hall as Hall'. rewrite Hq in Hall'. apply Forall_cons in Hall' as [[(ch & Hch & Hcl & Hsent) Hd] _].
  pose proof (queued_frame b) as Hframe.
  assert (forall b', streams b' = streams (drop_stream_opt (current_stream_tx s) b) ->
    forall sid, sid ∉ option_list (current_stream_tx s) -> streams b' !! sid = streams b !! sid) as Hss.
  { intros b' -> sid Hne. destruct (current_stream_tx s) as [sid'|]; simpl in *; [|done].
    rewrite lookup_alter_ne; set_solver. }
  assert (forall b', dones b' = dones (drop_done_opt (current_done_tx s) b) ->
    forall did, did ∉ option_list (current_done_tx s) -> dones b' !! did = dones b !! did) as Hds.
  { intros b' -> did Hne. destruct (current_done_tx s) as [did'|]; simpl in *; [|done].
    rewrite lookup_insert_ne; set_solver. }
  destruct (accept_fields req rest s b) as (Hw' & Hsb & Hdb).
  set (b' := (accept_request req rest s b).1) in *.
  assert (queued_ok b' req) as [(ch' & Hch' & Hcl' & Hsent') Hd'].
  { eapply Hframe; [by apply Hw|rewrite Hq; by left|by apply Hss|by apply Hds]. }
  split.
  - intros sid ch0. rewrite Hsb. destruct (current_stream_tx s) as [sid'|]; simpl; [|by apply Hf].
    rewrite lookup_alter_Some. intros [(<- & ch1 & Hl & ->)|[_ Hl]]; simpl; by eapply Hf.
  - intros s0. rewrite Hw'. intros [= <-]. unfold worker_inv, stream_ids, done_ids in *. simpl.
    rewrite Hq in Hn1, Hn2. apply NoDup_app in Hn1 as (_ & _ & Hn1), Hn2 as (_ & _ & Hn2).
    split_and!; [done|done| |].
    + unfold current_inv; simpl. split_and!; [done| |done]. exists ch', false.
      rewrite Hsent'. done.
    + apply Forall_forall. intros r Hr.
      eapply Hframe; [by apply Hw|rewrite Hq; by right|by apply Hss|by apply Hds].
  - intros did Hl. eexists; split; [exact Hw'|]. unfold done_ids; simpl.
    rewrite Hdb in Hl. destruct (current_done_tx s) as [did'|] eqn:Hcd; simpl in Hl.
    + apply lookup_insert_Some in Hl as [[_ ?]|[Hne Hl]]; [done|].
      destruct (Hp did Hl) as (s0 & Hs0 & Hin). simplify_eq. unfold done_ids in Hin.
      rewrite Hcd, Hq in Hin. simpl in Hin. set_solver.
    + destruct (Hp did Hl) as (s0 & Hs0 & Hin). simplify_eq. unfold done_ids in Hin.
      rewrite Hcd, Hq in Hin. done.
  - intros sid ch0 Hl Hop. eexists; split; [exact Hw'|]. unfold stream_ids; simpl.
    rewrite Hsb in Hl. destruct (current_stream_tx s) as [sid'|] eqn:Hcd; simpl in Hl.
    + apply lookup_alter_Some in Hl as [(<- & ch1 & _ & ->)|[Hne Hl]]; [done|].
      destruct (Ho sid ch0 Hl Hop) as (s0 & Hs0 & Hin). simplify_eq. unfold stream_ids in Hin.
      rewrite Hcd, Hq in Hin. simpl in Hin. set_solver.
    + destruct (Ho sid ch0 Hl Hop) as (s0 & Hs0 & Hin). simplify_eq. unfold stream_ids in Hin.
      rewrite Hcd, Hq in Hin. done.
Qed.

(** The body functions move the body cursor and nothing else. *)
Definition only_body s s' : Prop :=
  exists body left ps, s' = set_body body left ps s /\ (current_body s = None -> body = None).

Lemma only_body_refl s : only_body s s.
Proof. exists (current_body s), (current_body_leftover s), (current_part_state s). by destruct s. Qed.

Lemma only_body_intro s body left ps :
  (current_body s = None -> body = None) -> only_body s (set_body body left ps s).
Proof. intros Hn. by exists body, left, ps. Qed.

Lemma split_leftover_body n s : only_body s (split_leftover n s).1.
Proof. by apply only_body_intro. Qed.

Lemma split_leftover_set n body left ps s :
  (current_body s = None -> body = None) ->
  only_body s (split_leftover n (set_body body left ps s)).1.
Proof. intros Hn. eexists body, _, ps. split; [reflexivity|done]. Qed.

#[local] Hint Resolve only_body_refl split_leftover_body split_leftover_set only_body_intro : folk.

Lemma read_body n s : only_body s (read n s).1.
Proof.
  unfold read. case_decide; [|auto with folk].
  destruct (current_body s) as [[[|chunk rx]|rx]|] eqn:Hb; auto with folk.
  apply split_leftover_set. congruence.
Qed.

Lemma read_all_body s : only_body s (read_all s).1.
Proof. unfold read_all. destruct (current_body s) as [[]|] eqn:Hb; apply only_body_intro; congruence. Qed.

Lemma next_part_body s : only_body s (next_part s).1.
Proof.
  unfold next_part. destruct (current_body s) as [[|rx]|] eqn:Hb; auto with folk.
  case_decide; [auto with folk|].
  destruct (if decide _ then _ else _) as [rx' ok]. destruct ok; simpl.
  - destruct rx' as [|[] rx']; apply only_body_intro; congruence.
  - apply only_body_intro; congruence.
Qed.

Lemma part_read_body n s : only_body s (part_read n s).1.
Proof.
  unfold part_read. case_decide; [|auto with folk]. case_decide; [|auto with folk].
  destruct (current_body s) as [[|[|[] rx]]|] eqn:Hb; auto with folk;
    try (apply split_leftover_set); try (apply only_body_intro); congruence.
Qed.

Lemma part_read_all_body s : only_body s (part_read_all s).1.
Proof.
  unfold part_read_all. case_decide; [|auto with folk].
  destruct (current_body s) as [[|rx]|] eqn:Hb; try (apply only_body_intro; congruence).
  destruct (collect_part rx _) as [[rx' ps] out]. apply only_body_intro; congruence.
Qed.

Lemma on_state_inv {A} (none : A) f b :
  (forall s, only_body s (f s).1) -> bridge_inv b -> bridge_inv (on_state none f b).1.
Proof.
  intros Hf Hinv. unfold on_state. destruct (worker b) as [s|] eqn:Hs; [|done].
  destruct (Hf s) as (body & left & ps & Heq & Hn). destruct (f s) as [s' a]. simpl in *. subst s'.
  by eapply inv_same_request.
Qed.

(** The finishing calls, as [finish] or nothing. *)
Lemma do_send_spec data b s sid did :
  worker b = Some s -> current_stream_tx s = Some sid -> current_done_tx s = Some did ->
  do_send data b =
    match from_slice data with
    | Ok v => (finish b s sid did [value_chunk v; End], Ok tt)
    | Err e =>
        (finish b s sid did [Error (worker_error_new ("PHP returned malformed JSON: " +:+ e)); End],
         Err "PHP returned malformed JSON")
    end.
Proof.
  intros Hs Hsid Hdid. unfold do_send, se_bind, get_state. rewrite Hs. simpl.
  rewrite Hsid, Hdid. simpl. by destruct (from_slice data).
Qed.

Lemma do_send_error_spec m b s sid did :
  worker b = Some s -> current_stream_tx s = Some sid -> current_done_tx s = Some did ->
  do_send_error m b = (finish b s sid did [Error (worker_error_new m); End], Ok tt).
Proof.
  intros Hs Hsid Hdid. unfold do_send_error, se_bind, get_state. rewrite Hs. simpl.
  by rewrite Hsid, Hdid.
Qed.

Lemma do_write_end_spec b s sid did :
  worker b = Some s -> current_stream_tx s = Some sid -> current_done_tx s = Some did ->
  do_write_end b = (finish b s sid did [End], Ok tt).
Proof.
  intros Hs Hsid Hdid. unfold do_write_end, se_bind, get_state. rewrite Hs. simpl.
  by rewrite Hsid, Hdid.
Qed.

Lemma finalise_spec r b s sid did :
  worker b = Some s -> current_stream_tx s = Some sid -> current_done_tx s = Some did ->
  finalise r b =
    finish b s sid did (if stream_started s then [End] else [outcome_chunk r; End]).
Proof.
  intros Hs Hsid Hdid. unfold finalise. rewrite Hs, Hsid, Hdid. by destruct (stream_started s).
Qed.

(** The three ways a stream is finished are legal after any head. *)
Definition final_chunk (c : ResponseChunk) : Prop :=
  match c with Return _ | Error _ => True | _ => False end.

Lemma final_chunks_ok c head : final_chunk c -> is_Some (frame_run (FOpen head) [c; End]).
Proof. destruct c; try done; eauto. Qed.

Lemma end_ok head : is_Some (frame_run (FOpen head) [End]).
Proof. eauto. Qed.

Lemma value_chunk_final v : final_chunk (value_chunk v).
Proof. unfold value_chunk. by destruct (value_get v "__error"). Qed.

Lemma outcome_chunk_final r : final_chunk (outcome_chunk r).
Proof. destruct r; simpl; [apply value_chunk_final|done]. Qed.

#[local] Hint Resolve final_chunks_ok end_ok value_chunk_final outcome_chunk_final : folk.

(** Without a current request both senders are gone. *)
Lemma no_stream_no_done b s :
  bridge_inv b -> worker b = Some s -> current_stream_tx s = None ->
  current_done_tx s = None /\ stream_started s = false /\ current_request_id s = None
  /\ current_body s = None.
Proof.
  intros [_ Hw _ _] Hs Hn. destruct (Hw s Hs) as (_ & _ & Hc & _). unfold current_inv in Hc.
  rewrite Hn in Hc. by destruct (current_done_tx s).
Qed.

Lemma stream_has_done b s sid :
  bridge_inv b -> worker b = Some s -> current_stream_tx s = Some sid ->
  exists did, current_done_tx s = Some did.
Proof.
  intros Hinv Hs Hsid. destruct (current_open b s sid Hinv Hs Hsid) as (did & ? & ? & ? & _). eauto.
Qed.

Lemma clear_idle_inv b s :
  bridge_inv b -> worker b = Some s -> current_stream_tx s = None ->
  bridge_inv (set_worker (Some (clear_request s)) b).
Proof.
  intros Hinv Hs Hn. destruct (no_stream_no_done b s Hinv Hs Hn) as (Hd & Hst & Hid & Hb).
  by eapply inv_same_request.
Qed.

Lemma do_ready_inv b : bridge_inv b -> bridge_inv (do_ready b).1.
Proof.
  intros Hinv. unfold do_ready. bridge_unfold; simpl. destruct (worker b) as [s|] eqn:Hs; [|done].
  destruct (ready_tx s); [|done]. simpl.
  destruct (inv_same_request b s (set_ready_tx false s) Hinv Hs) as [Hf Hw Hp Ho]; try done.
Qed.

Lemma do_recv_inv b : bridge_inv b -> bridge_inv (do_recv b).1.
Proof.
  intros Hinv. unfold do_recv, se_bind, get_state. destruct (worker b) as [s|] eqn:Hs; [|done].
  destruct (task_rx s) as [|req rest] eqn:Hq; [done|].
  pose proof (accept_inv b s req rest Hinv Hs Hq) as Ha.
  by destruct (accept_request req rest s b) as [b' [[]|e]].
Qed.

Lemma do_send_inv data b : bridge_inv b -> bridge_inv (do_send data b).1.
Proof.
  intros Hinv. destruct (worker b) as [s|] eqn:Hs.
  2:{ unfold do_send. bridge_unfold; simpl. by rewrite Hs. }
  destruct (current_stream_tx s) as [sid|] eqn:Hsid.
  2:{ unfold do_send. bridge_unfold; simpl. rewrite Hs. simpl. by rewrite Hsid. }
  destruct (stream_has_done b s sid Hinv Hs Hsid) as [did Hdid].
  rewrite (do_send_spec _ _ s sid did) by done.
  destruct (from_slice data); simpl; apply finish_inv; auto with folk.
Qed.

Lemma do_send_error_inv m b : bridge_inv b -> bridge_inv (do_send_error m b).1.
Proof.
  intros Hinv. destruct (worker b) as [s|] eqn:Hs.
  2:{ unfold do_send_error. bridge_unfold; simpl. by rewrite Hs. }
  destruct (current_stream_tx s) as [sid|] eqn:Hsid.
  - destruct (stream_has_done b s sid Hinv Hs Hsid) as [did Hdid].
    rewrite (do_send_error_spec _ _ s sid did) by done. apply finish_inv; auto with folk.
  - destruct (no_stream_no_done b s Hinv Hs Hsid) as (Hd & _).
    unfold do_send_error. bridge_unfold; simpl. rewrite Hs. simpl. rewrite Hsid, Hd. simpl.
    by apply clear_idle_inv.
Qed.

Lemma do_write_end_inv b : bridge_inv b -> bridge_inv (do_write_end b).1.
Proof.
  intros Hinv. destruct (worker b) as [s|] eqn:Hs.
  2:{ unfold do_write_end. bridge_unfold; simpl. by rewrite Hs. }
  destruct (current_stream_tx s) as [sid|] eqn:Hsid.
  2:{ unfold do_write_end. bridge_unfold; simpl. rewrite Hs. simpl. by rewrite Hsid. }
  destruct (stream_has_done b s sid Hinv Hs Hsid) as [did Hdid].
  rewrite (do_write_end_spec _ s sid did) by done. apply finish_inv; auto with folk.
Qed.

Lemma do_write_head_inv st h b : bridge_inv b -> bridge_inv (do_write_head st h b).1.
Proof.
  intros Hinv. unfold do_write_head. bridge_unfold; simpl. destruct (worker b) as [s|] eqn:Hs; [|done].
  destruct (current_stream_tx s) as [sid|] eqn:Hsid; [|done]. simpl.
  destruct (stream_started s) eqn:Hst; [done|].
  pose proof (send_inv b s sid (Headers st h) true Hinv Hs Hsid) as Hsend.
  destruct (blocking_send _ _ _) as [b' r]. destruct r; simpl; apply Hsend; try done;
    (intros [] Hh; [by specialize (Hh eq_refl); congruence|by exists true]).
Qed.

Lemma do_write_inv d b : bridge_inv b -> bridge_inv (do_write d b).1.
Proof.
  intros Hinv. unfold do_write. bridge_unfold; simpl. destruct (worker b) as [s|] eqn:Hs; [|done].
  destruct (current_stream_tx s) as [sid|] eqn:Hsid; [|done]. simpl. case_decide; [done|].
  pose proof (send_inv b s sid (Body d) (stream_started s) Hinv Hs Hsid) as Hsend.
  assert (set_worker (Some (set_started (stream_started s) s)) b = b) as Hid.
  { destruct b, s; simpl in *; by simplify_eq. }
  rewrite Hid in Hsend.
  destruct (blocking_send _ _ _) as [b' r]. destruct r; simpl; apply Hsend; try done; eauto.
Qed.

Lemma api_call_inv c b : bridge_inv b -> bridge_inv (api_call c b).1.
Proof.
  intros Hinv. destruct c; simpl; try done.
  - by apply do_ready_inv.
  - by apply do_recv_inv.
  - by apply do_send_inv.
  - by apply do_send_error_inv.
  - by apply do_write_head_inv.
  - by apply do_write_inv.
  - by apply do_write_end_inv.
  - apply on_state_inv; [apply read_body|done].
  - apply on_state_inv; [apply read_all_body|done].
  - apply on_state_inv; [apply next_part_body|done].
  - apply on_state_inv; [apply part_read_body|done].
  - apply on_state_inv; [apply part_read_all_body|done].
Qed.

Lemma run_handler_inv h b : bridge_inv b -> bridge_inv (run_handler h b).1.
Proof.
  revert b; induction h as [r|c k IH]; intros b Hinv; simpl; [done|].
  destruct (api_call c b) as [b' r] eqn:Hc. apply IH.
  pose proof (api_call_inv c b Hinv) as Hinv'. by rewrite Hc in Hinv'.
Qed.

Lemma finalise_inv r b : bridge_inv b -> bridge_inv (finalise r b).
Proof.
  intros Hinv. destruct (worker b) as [s|] eqn:Hs; [|unfold finalise; by rewrite Hs].
  destruct (current_stream_tx s) as [sid|] eqn:Hsid.
  - destruct (stream_has_done b s sid Hinv Hs Hsid) as [did Hdid].
    rewrite (finalise_spec _ _ s sid did) by done. apply finish_inv; try done.
    destruct (stream_started s); auto with folk.
  - destruct (no_stream_no_done b s Hinv Hs Hsid) as (Hd & _). unfold finalise.
    rewrite Hs, Hsid, Hd. by apply clear_idle_inv.
Qed.

(** * One request at a time *)

(** The request has been answered: completion was signalled, the stream is
    closed and, if its receiver stayed, holds a finished response. *)
Definition answered b (req : TaskRequest) : Prop :=
  dones b !! done_tx req = Some DoneSent
  /\ exists ch, streams b !! stream_tx req = Some ch /\ sc_closed ch = true
       /\ (rx_left ch = None -> complete (sc_sent ch)).

(** States reached while the worker handles [req], starting from the channels
    of [b0]: the request is still current, or it has been answered; nothing
    else has moved. *)
Definition handling b0 (req : TaskRequest) (rest : list TaskRequest) (id : Z) b : Prop :=
  (forall sid, sid <> stream_tx req -> streams b !! sid = streams b0 !! sid)
  /\ (forall did, did <> done_tx req -> dones b !! did = dones b0 !! did)
  /\ exists s, worker b = Some s /\ task_rx s = rest /\ worker_id s = id
       /\ ((current_stream_tx s = Some (stream_tx req) /\ current_done_tx s = Some (done_tx req))
           \/ (current_stream_tx s = None /\ answered b req)).

Lemma finish_answered b0 req rest id b s cs :
  bridge_inv b -> handling b0 req rest id b -> worker b = Some s ->
  current_stream_tx s = Some (stream_tx req) -> current_done_tx s = Some (done_tx req) ->
  (forall head, frame_run (FOpen head) cs = Some FEnded) ->
  let b' := finish b s (stream_tx req) (done_tx req) cs in
  handling b0 req rest id b' /\ answered b' req
  /\ worker b' = Some (clear_request s).
Proof.
  intros Hinv (Hss & Hds & s0 & Hs0 & Hrest & Hid & _) Hs Hsid Hdid Hcs b'.
  assert (s0 = s) as -> by congruence.
  destruct (current_open b s _ Hinv Hs Hsid) as (did & ch & head & Hd' & Hch & _ & Hrun & _ & _).
  assert (answered b' req) as Hans.
  { unfold b'. rewrite (finish_spec _ _ _ _ _ ch Hch). split; simpl; [by simplify_map_eq|].
    exists (close_chan (push_chan ch cs)). simplify_map_eq. split_and!; [done|done|].
    unfold close_chan, push_chan; simpl. destruct (rx_left ch); simpl; [done|intros _].
    unfold complete. by rewrite frame_run_app, Hrun. }
  unfold b' in *. rewrite (finish_spec _ _ _ _ _ ch Hch) in *.
  split_and!; [|done|done]. split_and!; simpl.
  - intros sid Hne. rewrite lookup_insert_ne by done. auto.
  - intros did' Hne. rewrite lookup_insert_ne by done. auto.
  - exists (clear_request s). split_and!; [done..|]. right. done.
Qed.

(** A change of the worker's state only. *)
Lemma handling_same b0 req rest id b s s' :
  handling b0 req rest id b -> worker b = Some s ->
  current_stream_tx s' = current_stream_tx s -> current_done_tx s' = current_done_tx s ->
  task_rx s' = task_rx s -> worker_id s' = worker_id s ->
  handling b0 req rest id (set_worker (Some s') b).
Proof.
  intros (Hss & Hds & s0 & Hs0 & Hrest & Hid & Hcur) Hs H1 H2 H3 H4.
  assert (s0 = s) as -> by congruence.
  split_and!; [done|done|]. exists s'. rewrite H1, H2, H3, H4. done.
Qed.

Lemma handling_send b0 req rest id b s c started :
  bridge_inv b -> handling b0 req rest id b -> worker b = Some s ->
  current_stream_tx s = Some (stream_tx req) ->
  handling b0 req rest id (blocking_send (stream_tx req) c (set_worker (Some (set_started started s)) b)).1.
Proof.
  intros Hinv (Hss & Hds & s0 & Hs0 & Hrest & Hid & Hcur) Hs Hsid.
  assert (s0 = s) as -> by congruence.
  destruct (current_open b s _ Hinv Hs Hsid) as (did & ch & head & Hd' & Hch & _).
  rewrite (blocking_send_spec _ _ _ ch) by done. split_and!; simpl.
  - intros sid Hne. rewrite lookup_insert_ne by done. auto.
  - auto.
  - eexists; split_and!; [done..|]. left. simpl. destruct Hcur as [?|[? _]]; [done|congruence].
Qed.

Lemma handling_on_state {A} (none : A) f b0 req rest id b :
  (forall s, only_body s (f s).1) -> handling b0 req rest id b ->
  handling b0 req rest id (on_state none f b).1.
Proof.
  intros Hf Hh. unfold on_state. destruct (worker b) as [s|] eqn:Hs; [|done].
  destruct (Hf s) as (body & left & ps & Heq & Hn). destruct (f s) as [s' a]. simpl in *. subst s'.
  by eapply handling_same.
Qed.

Lemma handling_finishing b0 req rest id b c :
  bridge_inv b -> handling b0 req rest id b ->
  match c with CSend _ | CSendError _ | CWriteEnd => True | _ => False end ->
  handling b0 req rest id (api_call c b).1.
Proof.
  intros Hinv Hh Hc. pose proof Hh as (_ & _ & s & Hs & _ & _ & [[Hsid Hdid]|[Hsid _]]).
  - assert (forall cs, (forall head, frame_run (FOpen head) cs = Some FEnded) ->
      handling b0 req rest id (finish b s (stream_tx req) (done_tx req) cs)) as Hfin.
    { intros cs Hcs. by eapply finish_answered. }
    destruct c; try done; simpl.
    + rewrite (do_send_spec _ _ s _ _ Hs Hsid Hdid).
      destruct (from_slice data) as [v|e]; simpl; apply Hfin; intros; [|done].
      simpl. pose proof (value_chunk_final v). by destruct (value_chunk v).
    + rewrite (do_send_error_spec _ _ s _ _ Hs Hsid Hdid). by apply Hfin.
    + rewrite (do_write_end_spec _ s _ _ Hs Hsid Hdid). by apply Hfin.
  - destruct (no_stream_no_done b s Hinv Hs Hsid) as (Hd & _).
    destruct c; try done; simpl.
    + unfold do_send. bridge_unfold; simpl. rewrite Hs. simpl. by rewrite Hsid.
    + unfold do_send_error. bridge_unfold; simpl. rewrite Hs. simpl. rewrite Hsid, Hd. simpl.
      by eapply (handling_same _ _ _ _ b s).
    + unfold do_write_end. bridge_unfold; simpl. rewrite Hs. simpl. by rewrite Hsid.
Qed.

Lemma handling_call b0 req rest id b c :
  bridge_inv b -> handling b0 req rest id b -> c <> CRecv ->
  handling b0 req rest id (api_call c b).1.
Proof.
  intros Hinv Hh Hc. pose proof Hh as (_ & _ & s & Hs & _ & _ & Hcur).
  destruct c; try done; try (by apply handling_finishing); simpl.
  - unfold do_ready. bridge_unfold; simpl. rewrite Hs. destruct (ready_tx s); [|done].
    simpl. destruct (handling_same _ _ _ _ b s (set_ready_tx false s) Hh Hs) as (H1 & H2 & H3); try done.
  - unfold do_write_head. bridge_unfold; simpl. rewrite Hs. destruct Hcur as [[Hsid _]|[Hsid _]];
      rewrite Hsid; [|done]. simpl. destruct (stream_started s); [done|].
    pose proof (handling_send _ _ _ _ b s (Headers status headers) true Hinv Hh Hs Hsid) as Hsend.
    by destruct (blocking_send _ _ _) as [b' []].
  - unfold do_write. bridge_unfold; simpl. rewrite Hs. destruct Hcur as [[Hsid _]|[Hsid _]];
      rewrite Hsid; [|done]. simpl. case_decide; [done|].
    pose proof (handling_send _ _ _ _ b s (Body data) (stream_started s) Hinv Hh Hs Hsid) as Hsend.
    assert (set_worker (Some (set_started (stream_started s) s)) b = b) as Hid.
    { destruct b, s; simpl in *; by simplify_eq. }
    rewrite Hid in Hsend. by destruct (blocking_send _ _ _) as [b' []].
  - by apply handling_on_state; [apply read_body|].
  - by apply handling_on_state; [apply read_all_body|].
  - by apply handling_on_state; [apply next_part_body|].
  - by apply handling_on_state; [apply part_read_body|].
  - by apply handling_on_state; [apply part_read_all_body|].
Qed.

(** Handlers that leave the receiving of requests to the dispatch loop. *)
Fixpoint no_recv (h : Handler) : Prop :=
  match h with
  | HReturn _ => True
  | HCall c k => c <> CRecv /\ forall r, no_recv (k r)
  end.

Lemma handling_handler b0 req rest id h b :
  no_recv h -> bridge_inv b -> handling b0 req rest id b ->
  bridge_inv (run_handler h b).1 /\ handling b0 req rest id (run_handler h b).1.
Proof.
  revert b; induction h as [r|c k IH]; intros b Hno Hinv Hh; simpl in *; [done|].
  destruct Hno as [Hc Hk]. pose proof (api_call_inv c b Hinv) as Hinv'.
  pose proof (handling_call _ _ _ _ b c Hinv Hh Hc) as Hh'.
  destruct (api_call c b) as [b' r]. by apply IH.
Qed.

Lemma handling_finalise b0 req rest id r b :
  bridge_inv b -> handling b0 req rest id b ->
  handling b0 req rest id (finalise r b) /\ answered (finalise r b) req
  /\ exists s, worker (finalise r b) = Some s /\ current_stream_tx s = None
       /\ task_rx s = rest /\ worker_id s = id.
Proof.
  intros Hinv Hh. pose proof Hh as (_ & _ & s & Hs & Hrest & Hid & [[Hsid Hdid]|[Hsid Hans]]).
  - rewrite (finalise_spec _ _ s _ _ Hs Hsid Hdid).
    destruct (finish_answered b0 req rest id b s
      (if stream_started s then [End] else [outcome_chunk r; End])) as (H1 & H2 & H3); try done.
    { intros head. destruct (stream_started s); [done|]. simpl.
      pose proof (outcome_chunk_final r). by destruct (outcome_chunk r). }
    split_and!; [done|done|]. rewrite H3. eexists; split_and!; done.
  - destruct (no_stream_no_done b s Hinv Hs Hsid) as (Hd & _). unfold finalise.
    rewrite Hs, Hsid, Hd. split_and!; [by eapply (handling_same _ _ _ _ b s)|done|].
    eexists; split_and!; done.
Qed.

(** * Signals the handlers do not touch *)

Definition signalled b0 b : Prop :=
  ready_signals b = ready_signals b0 /\ joins b = joins b0
  /\ exists s, worker b = Some s /\ ready_tx s = false.

Lemma send_all_signalled sid cs b :
  ready_signals (send_all sid cs b) = ready_signals b /\ joins (send_all sid cs b) = joins b
  /\ worker (send_all sid cs b) = worker b.
Proof.
  revert b; induction cs as [|c cs IH]; intros b; cbn [send_all]; [done|].
  destruct (IH (blocking_send sid c b).1) as (-> & -> & ->). unfold blocking_send.
  destruct (streams b !! sid) as [[sent [[|n]|] cl]|]; done.
Qed.

Lemma blocking_send_signalled b0 sid c b : signalled b0 b -> signalled b0 (blocking_send sid c b).1.
Proof.
  intros (H1 & H2 & H3). destruct (send_all_signalled sid [c] b) as (H4 & H5 & H6). simpl in *.
  unfold signalled. by rewrite H4, H5, H6.
Qed.

Lemma signalled_worker b0 b b' s s' :
  signalled b0 b -> worker b = Some s -> worker b' = Some s' -> ready_tx s' = ready_tx s ->
  ready_signals b' = ready_signals b -> joins b' = joins b -> signalled b0 b'.
Proof.
  intros (H1 & H2 & s0 & H3 & H4) Hs Hs' Hr Hrs Hj. unfold signalled. rewrite Hrs, Hj.
  split_and!; [done..|]. exists s'. split; [done|]. congruence.
Qed.

Lemma finish_signalled b0 b s sid did cs :
  signalled b0 b -> worker b = Some s -> signalled b0 (finish b s sid did cs).
Proof.
  intros Hq Hs. unfold finish.
  destruct (send_all_signalled sid cs (set_worker (Some (clear_request s)) b)) as (H1 & H2 & H3).
  eapply (signalled_worker _ b _ s (clear_request s)); try done; simpl; by rewrite ?H1, ?H2, ?H3.
Qed.

Lemma on_state_signalled {A} (none : A) f b0 b :
  (forall s, only_body s (f s).1) -> signalled b0 b -> signalled b0 (on_state none f b).1.
Proof.
  intros Hf Hq. unfold on_state. destruct (worker b) as [s|] eqn:Hs; [|done].
  destruct (Hf s) as (body & left & ps & Heq & Hn). destruct (f s) as [s' a]. simpl in *. subst s'.
  by eapply signalled_worker.
Qed.

(** Signalling ready consumes the sender: no later call signals again. *)
Lemma api_call_signalled c b0 b :
  bridge_inv b -> c <> CRecv -> signalled b0 b -> signalled b0 (api_call c b).1.
Proof.
  intros Hinv Hc Hq. pose proof Hq as (Hr & Hj & s & Hs & Hrt).
  assert (forall sid, current_stream_tx s = Some sid -> exists did, current_done_tx s = Some did) as Hdone
    by (intros sid; by eapply stream_has_done).
  assert (current_stream_tx s = None -> current_done_tx s = None) as Hnone
    by (intros ?; by eapply no_stream_no_done).
  destruct c; try done; simpl; try (apply on_state_signalled; [|done]).
  - unfold do_ready. bridge_unfold; simpl. rewrite Hs. by rewrite Hrt.
  - destruct (current_stream_tx s) as [sid|] eqn:Hsid.
    + destruct (Hdone sid eq_refl) as [did Hdid]. rewrite (do_send_spec _ _ s sid did) by done.
      destruct (from_slice data); by apply finish_signalled.
    + unfold do_send. bridge_unfold; simpl. rewrite Hs. simpl. by rewrite Hsid.
  - destruct (current_stream_tx s) as [sid|] eqn:Hsid.
    + destruct (Hdone sid eq_refl) as [did Hdid]. rewrite (do_send_error_spec _ _ s sid did) by done.
      by apply finish_signalled.
    + unfold do_send_error. bridge_unfold; simpl. rewrite Hs. simpl. rewrite Hsid, Hnone by done. simpl.
      by eapply signalled_worker.
  - unfold do_write_head. bridge_unfold; simpl. rewrite Hs. destruct (current_stream_tx s) as [sid|]; [|done].
    simpl. destruct (stream_started s); [done|].
    assert (signalled b0 (blocking_send sid (Headers status headers)
      (set_worker (Some (set_started true s)) b)).1) as Hsend.
    { apply blocking_send_signalled. by eapply signalled_worker. }
    by destruct (blocking_send _ _ _) as [? []].
  - unfold do_write. bridge_unfold; simpl. rewrite Hs. destruct (current_stream_tx s) as [sid|]; [|done].
    simpl. case_decide; [done|].
    pose proof (blocking_send_signalled b0 sid (Body data) b Hq) as Hsend.
    by destruct (blocking_send _ _ _) as [? []].
  - destruct (current_stream_tx s) as [sid|] eqn:Hsid.
    + destruct (Hdone sid eq_refl) as [did Hdid]. rewrite (do_write_end_spec _ s sid did) by done.
      by apply finish_signalled.
    + unfold do_write_end. bridge_unfold; simpl. rewrite Hs. simpl. by rewrite Hsid.
  - apply read_body.
  - apply read_all_body.
  - apply next_part_body.
  - apply part_read_body.
  - apply part_read_all_body.
Qed.

Lemma handler_signalled h b0 b :
  no_recv h -> bridge_inv b -> signalled b0 b -> signalled b0 (run_handler h b).1.
Proof.
  revert b; induction h as [r|c k IH]; intros b Hno Hinv Hq; simpl in *; [done|].
  destruct Hno as [Hc Hk]. pose proof (api_call_inv c b Hinv) as Hinv'.
  pose proof (api_call_signalled c b0 b Hinv Hc Hq) as Hq'.
  destruct (api_call c b) as [b' r]. by apply IH.
Qed.

Lemma finalise_signalled r b0 b : bridge_inv b -> signalled b0 b -> signalled b0 (finalise r b).
Proof.
  intros Hinv Hq. pose proof Hq as (_ & _ & s & Hs & _).
  destruct (current_stream_tx s) as [sid|] eqn:Hsid.
  - destruct (stream_has_done b s sid Hinv Hs Hsid) as [did Hdid].
    rewrite (finalise_spec _ _ s sid did) by done. by apply finish_signalled.
  - destruct (no_stream_no_done b s Hinv Hs Hsid) as (Hd & _). unfold finalise.
    rewrite Hs, Hsid, Hd. by eapply signalled_worker.
Qed.

(** * The dispatch loop *)

(** Between two requests. *)
Definition idle b (rest : list TaskRequest) (id : Z) : Prop :=
  exists s, worker b = Some s /\ current_stream_tx s = None /\ task_rx s = rest /\ worker_id s = id.

(** Channels outside the given requests are as they were. *)
Definition untouched (reqs : list TaskRequest) b b' : Prop :=
  (forall sid, sid ∉ stream_tx <$> reqs -> streams b' !! sid = streams b !! sid)
  /\ (forall did, did ∉ done_tx <$> reqs -> dones b' !! did = dones b !! did).

Lemma untouched_trans req rest b b1 b2 :
  untouched [req] b b1 -> untouched rest b1 b2 -> untouched (req :: rest) b b2.
Proof. intros [Hs1 Hd1] [Hs2 Hd2]. split; csimpl; intros i Hi; rewrite ?Hs2, ?Hd2; set_solver. Qed.

(** The state a handler starts in. *)
Definition accepted b s req rest : Bridge :=
  set_worker (Some (install_request req (set_task_rx rest s))) b.

Lemma accept_idle b s req rest :
  bridge_inv b -> worker b = Some s -> current_stream_tx s = None ->
  accept_request req rest s b = (accepted b s req rest, Ok tt).
Proof.
  intros Hinv Hs Hn. destruct (no_stream_no_done b s Hinv Hs Hn) as (Hd & _).
  unfold accept_request. bridge_unfold; simpl. by rewrite Hn, Hd.
Qed.

Lemma dispatch_turn_take php b s req rest :
  bridge_inv b -> worker b = Some s -> current_stream_tx s = None -> task_rx s = req :: rest ->
  dispatch_turn php b =
    (let '(b', r) := run_handler (php (method req) (payload req)) (accepted b s req rest) in
     finalise r b', Ok true).
Proof.
  intros Hinv Hs Hn Hq. unfold dispatch_turn, se_bind, get_state. rewrite Hs, Hq.
  rewrite (accept_idle b s req rest Hinv Hs Hn). by destruct (run_handler _ _).
Qed.

Lemma accepted_facts b0 b s req rest :
  bridge_inv b -> worker b = Some s -> current_stream_tx s = None -> task_rx s = req :: rest ->
  bridge_inv (accepted b s req rest)
  /\ handling b req rest (worker_id s) (accepted b s req rest)
  /\ (signalled b0 b -> signalled b0 (accepted b s req rest)).
Proof.
  intros Hinv Hs Hn Hq. split_and!.
  - pose proof (accept_inv b s req rest Hinv Hs Hq) as Ha. by rewrite accept_idle in Ha.
  - split_and!; [done|done|]. eexists. split_and!; [done|done|done|by left].
  - intros Hr. by eapply (signalled_worker _ b _ s).
Qed.

Lemma dispatch_turn_spec php b0 b req rest id :
  (forall m p, no_recv (php m p)) -> bridge_inv b -> signalled b0 b -> idle b (req :: rest) id ->
  exists b', dispatch_turn php b = (b', Ok true)
    /\ bridge_inv b' /\ signalled b0 b' /\ idle b' rest id /\ answered b' req
    /\ untouched [req] b b'.
Proof.
  intros Hphp Hinv Hsig (s & Hs & Hn & Hq & <-).
  rewrite (dispatch_turn_take php b s req rest) by done.
  destruct (accepted_facts b0 b s req rest Hinv Hs Hn Hq) as (Hinv1 & Hh1 & Hsig1).
  specialize (Hsig1 Hsig). specialize (Hphp (method req) (payload req)).
  pose proof (handler_signalled _ b0 _ Hphp Hinv1 Hsig1) as Hsig2.
  destruct (handling_handler _ _ _ _ _ _ Hphp Hinv1 Hh1) as [Hinv2 Hh2].
  destruct (run_handler _ _) as [b2 r]. simpl in *.
  destruct (handling_finalise _ _ _ _ r _ Hinv2 Hh2) as (Hh3 & Hans & Hidle).
  eexists. split_and!; [done|by apply finalise_inv|by apply finalise_signalled|done|done|].
  destruct Hh3 as (H1 & H2 & _). split; csimpl; intros i Hi; [apply H1|apply H2]; set_solver.
Qed.

Lemma dispatch_loop_spec php b0 b reqs id extra :
  (forall m p, no_recv (php m p)) -> bridge_inv b -> signalled b0 b -> idle b reqs id ->
  exists b', dispatch_loop (S (length reqs) + extra) php b = (b', Some (Ok tt))
    /\ bridge_inv b' /\ idle b' [] id /\ Forall (answered b') reqs /\ untouched reqs b b'
    /\ ready_signals b' = ready_signals b0
    /\ joins b' = (if decide (id = 1%Z) then S (joins b0) else joins b0).
Proof.
  intros Hphp. revert b. induction reqs as [|req rest IH]; intros b Hinv Hsig Hidle.
  - destruct Hidle as (s & Hs & Hn & Hq & <-). destruct Hsig as (Hr & Hj & _).
    assert (forall b', streams b' = streams b -> dones b' = dones b -> worker b' = worker b ->
      bridge_inv b' /\ idle b' [] (worker_id s) /\ Forall (answered b') [] /\ untouched [] b b') as Hend.
    { intros b' Hss Hds Hws. destruct Hinv as [Hf Hw Hp Ho]. split_and!.
      - split; [by rewrite Hss| |by rewrite Hds, Hws|by rewrite Hss, Hws]. intros s'. rewrite Hws. intros Hs'.
        specialize (Hw s' Hs'). unfold worker_inv, current_inv, stream_open, queued_ok in *.
        by rewrite Hss, Hds.
      - exists s. by rewrite Hws.
      - constructor.
      - split; intros; by rewrite ?Hss, ?Hds. }
    simpl. unfold dispatch_turn. bridge_unfold; simpl. rewrite Hs, Hq. case_decide; simpl;
      (eexists; split; [done|]; rewrite <- ?Hj, <- ?Hr; destruct (Hend b) as (?&?&?&?); try done).
    destruct (Hend (join_zts_workers b)) as (?&?&?&?); done.
  - destruct (dispatch_turn_spec php b0 b req rest id Hphp Hinv Hsig Hidle)
      as (b1 & Hturn & Hinv1 & Hsig1 & Hidle1 & Hans & Hu1).
    destruct (IH b1 Hinv1 Hsig1 Hidle1) as (b2 & Hloop & Hinv2 & Hidle2 & Hall & Hu2 & Hrest).
    exists b2. cbn [length Nat.add dispatch_loop]. rewrite Hturn.
    split_and!; [exact Hloop|done|done| |by eapply untouched_trans|apply Hrest|apply Hrest].
    constructor; [|done]. destruct Hidle as (s & Hs & _ & Hq & _).
    destruct (bi_worker _ Hinv s Hs) as (Hn1 & Hn2 & _). unfold stream_ids, done_ids in *.
    rewrite Hq in Hn1, Hn2. apply NoDup_app in Hn1 as (_ & _ & Hn1), Hn2 as (_ & _ & Hn2).
    csimpl in *. apply NoDup_cons in Hn1 as [Hn1 _]. apply NoDup_cons in Hn2 as [Hn2 _].
    destruct Hans as (Hd & ch & Hch & Hrest'). destruct Hu2 as [Hs2 Hd2]. split.
    + by rewrite Hd2.
    + exists ch. by rewrite Hs2.
Qed.

(** * Handlers of the two kinds *)

(** Calls that send nothing. *)
Definition quiet_call (c : ApiCall) : Prop :=
  match c with
  | CReady | CRead _ | CReadAll | CNextPart | CPartRead _ | CPartReadAll | CRequestId | CIsWorker => True
  | _ => False
  end.

(** The handler may read the body as it likes and in the end returns [r]. *)
Fixpoint quietly_returns (h : Handler) (r : result value) : Prop :=
  match h with
  | HReturn r' => r' = r
  | HCall c k => quiet_call c /\ forall x, quietly_returns (k x) r
  end.

(** The handler writes a head, then the chunks, and ends in any way. *)
Definition streaming_handler (status : Z) (headers : gmap string string) (chunks : list bytes)
    (r : result value) : Handler :=
  HCall (CWriteHead status headers) (fun _ =>
    foldr (fun c h => HCall (CWrite c) (fun _ => h)) (HReturn r) chunks).

(** [req] is current, its stream has had [sent], and its receiver stays. *)
Definition serving b (req : TaskRequest) (started : bool) (sent : list ResponseChunk) : Prop :=
  (exists s, worker b = Some s /\ current_stream_tx s = Some (stream_tx req)
    /\ current_done_tx s = Some (done_tx req) /\ stream_started s = started)
  /\ streams b !! stream_tx req = Some {| sc_sent := sent; rx_left := None; sc_closed := false |}.

Lemma on_state_serving {A} (none : A) f b req st sent :
  (forall s, only_body s (f s).1) -> serving b req st sent -> serving (on_state none f b).1 req st sent.
Proof.
  intros Hf [(s & Hs & H1 & H2 & H3) Hch]. unfold on_state. rewrite Hs.
  destruct (Hf s) as (body & left & ps & Heq & Hn). destruct (f s) as [s' a]. simpl in *. subst s'.
  split; [|done]. by eexists.
Qed.

Lemma quiet_call_serving c b req st sent :
  quiet_call c -> serving b req st sent -> serving (api_call c b).1 req st sent.
Proof.
  intros Hc Hv. destruct c; try done; simpl; try (apply on_state_serving; [|done]).
  - destruct Hv as [(s & Hs & H1 & H2 & H3) Hch]. unfold do_ready. bridge_unfold; simpl. rewrite Hs.
    destruct (ready_tx s); (split; [|done]); by eexists.
  - apply read_body.
  - apply read_all_body.
  - apply next_part_body.
  - apply part_read_body.
  - apply part_read_all_body.
Qed.

Lemma quiet_handler_serving h r b req st sent :
  quietly_returns h r -> serving b req st sent ->
  serving (run_handler h b).1 req st sent /\ (run_handler h b).2 = r.
Proof.
  revert b; induction h as [r'|c k IH]; intros b Hq Hv; simpl in *; [by subst|].
  destruct Hq as [Hc Hk]. pose proof (quiet_call_serving _ _ _ _ _ Hc Hv) as Hv'.
  destruct (api_call c b) as [b' x]. by apply IH.
Qed.

Lemma write_serving d b req st sent :
  serving b req st sent ->
  serving (do_write d b).1 req st (sent ++ (if decide (d = []) then [] else [Body d])).
Proof.
  intros [(s & Hs & H1 & H2 & H3) Hch]. unfold do_write. bridge_unfold; simpl. rewrite Hs, H1. simpl.
  case_decide; [rewrite app_nil_r; by split; [eexists|]|].
  unfold blocking_send. rewrite Hch. simpl. split; [by eexists|simpl; by simplify_map_eq].
Qed.

Lemma head_serving status headers b req sent :
  serving b req false sent ->
  serving (do_write_head status headers b).1 req true (sent ++ [Headers status headers]).
Proof.
  intros [(s & Hs & H1 & H2 & H3) Hch]. unfold do_write_head. bridge_unfold; simpl. rewrite Hs, H1. simpl.
  rewrite H3. unfold blocking_send. simpl. rewrite Hch. simpl.
  split; [by eexists|simpl; by simplify_map_eq].
Qed.

Definition nonempty (chunks : list bytes) : list bytes := filter (.≠ []) chunks.

Lemma writes_serving chunks r b req st sent :
  serving b req st sent ->
  let h := foldr (fun c h => HCall (CWrite c) (fun _ => h)) (HReturn r) chunks in
  serving (run_handler h b).1 req st (sent ++ (Body <$> nonempty chunks))
  /\ (run_handler h b).2 = r.
Proof.
  revert b sent; induction chunks as [|c cs IH]; intros b sent Hv; simpl.
  { by rewrite app_nil_r. }
  pose proof (write_serving c b req st sent Hv) as Hv'. destruct (do_write c b) as [b' x].
  simpl in *. destruct (IH _ _ Hv') as [H1 H2]. split; [|done]. rewrite <- (assoc_L (++)) in H1.
  unfold nonempty. rewrite filter_cons. repeat case_decide; naive_solver.
Qed.

Lemma concat_nonempty chunks : concat (nonempty chunks) = concat chunks.
Proof.
  induction chunks as [|c cs IH]; [done|]. unfold nonempty. rewrite filter_cons.
  case_decide as Hc; simpl; [by rewrite <- IH|]. by subst.
Qed.

Lemma finalise_serving r b req st sent :
  serving b req st sent ->
  streams (finalise r b) !! stream_tx req =
    Some {| sc_sent := sent ++ (if st then [End] else [outcome_chunk r; End]);
            rx_left := None; sc_closed := true |}
  /\ dones (finalise r b) !! done_tx req = Some DoneSent.
Proof.
  intros [(s & Hs & H1 & H2 & H3) Hch]. rewrite (finalise_spec _ _ _ _ _ Hs H1 H2).
  rewrite (finish_spec _ _ _ _ _ _ Hch), H3. simpl. by simplify_map_eq.
Qed.

(** The next request's receiver stays until it has the response. *)
Definition receiver_stays b (req : TaskRequest) : Prop :=
  exists ch, streams b !! stream_tx req = Some ch /\ rx_left ch = None.

Lemma accepted_serving b s req rest :
  bridge_inv b -> worker b = Some s -> current_stream_tx s = None -> task_rx s = req :: rest ->
  receiver_stays b req -> serving (accepted b s req rest) req false [].
Proof.
  intros Hinv Hs Hn Hq (ch & Hch & Hleft). split; [by eexists|].
  destruct (bi_worker _ Hinv s Hs) as (_ & _ & _ & Hall). rewrite Hq in Hall.
  apply Forall_cons in Hall as [[(ch' & Hch' & Hcl & Hsent) _] _]. simpl.
  rewrite Hch. f_equal. destruct ch; simpl in *; simplify_eq. simpl in *. by subst.
Qed.

Lemma dispatch_turn_serving php b req rest id st sent r :
  bridge_inv b -> idle b (req :: rest) id -> receiver_stays b req ->
  (forall b0, serving b0 req false [] ->
     serving (run_handler (php (method req) (payload req)) b0).1 req st sent
     /\ (run_handler (php (method req) (payload req)) b0).2 = r) ->
  exists b', dispatch_turn php b = (b', Ok true)
    /\ streams b' !! stream_tx req =
        Some {| sc_sent := sent ++ (if st then [End] else [outcome_chunk r; End]);
                rx_left := None; sc_closed := true |}
    /\ dones b' !! done_tx req = Some DoneSent.
Proof.
  intros Hinv (s & Hs & Hn & Hq & _) Hstay Hrun.
  rewrite (dispatch_turn_take php b s req rest) by done.
  destruct (Hrun _ (accepted_serving b s req rest Hinv Hs Hn Hq Hstay)) as [Hv Hr].
  destruct (run_handler _ _) as [b' r']. simpl in *. subst r'.
  exists (finalise r b'). split; [done|]. by apply finalise_serving.
Qed.
End spec.
