(* ===== verification/BridgeProps.v ===== *)
(** The bridge's promises to the rest of the program: what the pool sees on the
    channels of the requests it sent, for every PHP handler. *)

From S2P Require Import Prelude.
From S2P Require Import Protocol.
From S2P Require Import Collect.
From S2P Require Import Bridge.
From S2P Require Import BridgeSpec.

(** * Tearing a worker down *)

Section cleanup.
Context `{FA : FolkApi}.
Implicit Types (b : Bridge) (s : WorkerState).

(** Only what was pending and not dropped is still pending. *)
Definition releases (sids dids : list nat) b b' : Prop :=
  (forall did, dones b' !! did = Some DonePending -> dones b !! did = Some DonePending /\ did ∉ dids)
  /\ (forall sid ch, streams b' !! sid = Some ch -> sc_closed ch = false ->
        streams b !! sid = Some ch /\ sid ∉ sids).

Lemma releases_app sids dids sids' dids' b b1 b2 :
  releases sids dids b b1 -> releases sids' dids' b1 b2 ->
  releases (sids ++ sids') (dids ++ dids') b b2.
Proof.
  intros [Hd1 Hs1] [Hd2 Hs2]. split.
  - intros did Hl. destruct (Hd2 did Hl) as [Hl1 ?]. destruct (Hd1 did Hl1). set_solver.
  - intros sid ch Hl Ho. destruct (Hs2 sid ch Hl Ho) as [Hl1 ?].
    destruct (Hs1 sid ch Hl1 Ho). set_solver.
Qed.

Lemma drop_stream_releases sid b : releases [sid] [] b (drop_stream sid b).
Proof.
  split; simpl; [set_solver|]. intros sid' ch Hl Ho.
  apply lookup_alter_Some in Hl as [(<- & ch1 & _ & ->)|[Hne Hl]]; [done|set_solver].
Qed.

Lemma drop_done_releases did b : releases [] [did] b (drop_done did b).
Proof.
  split; simpl; [|set_solver]. intros did' Hl.
  apply lookup_insert_Some in Hl as [[_ ?]|[Hne Hl]]; [done|set_solver].
Qed.

Lemma drop_request_releases req b : releases [stream_tx req] [done_tx req] b (drop_request b req).
Proof. apply (releases_app [_] [] [] [_] _ _ _ (drop_stream_releases _ _) (drop_done_releases _ _)). Qed.

Lemma drop_requests_releases q b :
  releases (stream_tx <$> q) (done_tx <$> q) b (foldl drop_request b q).
Proof.
  revert b; induction q as [|req q IH]; intros b; csimpl; [split; set_solver|].
  apply (releases_app [_] [_] _ _ _ _ _ (drop_request_releases req b) (IH _)).
Qed.

Lemma cleanup_releases b s :
  worker b = Some s ->
  releases (stream_ids s) (done_ids s) b (cleanup_worker_state b)
  /\ worker (cleanup_worker_state b) = None.
Proof.
  intros Hs. unfold cleanup_worker_state. rewrite Hs. split; [|done].
  pose proof (drop_requests_releases (task_rx s) b) as H1.
  set (b1 := foldl drop_request b (task_rx s)) in *.
  assert (releases (option_list (current_stream_tx s)) [] b1
    (drop_stream_opt (current_stream_tx s) b1)) as H2.
  { destruct (current_stream_tx s); simpl; [apply drop_stream_releases|split; set_solver]. }
  set (b2 := drop_stream_opt (current_stream_tx s) b1) in *.
  assert (releases [] (option_list (current_done_tx s)) b2
    (drop_done_opt (current_done_tx s) b2)) as H3.
  { destruct (current_done_tx s); simpl; [apply drop_done_releases|split; set_solver]. }
  pose proof (releases_app _ _ _ _ _ _ _ H1 (releases_app _ _ _ _ _ _ _ H2 H3)) as [Hd Hc].
  unfold stream_ids, done_ids. split; [clear Hc|clear Hd]; intros; [destruct (Hd did)|destruct (Hc sid ch)];
    try done; set_solver.
Qed.

(** Nobody waits for this worker any more. *)
Definition all_released b : Prop :=
  (forall did, dones b !! did <> Some DonePending)
  /\ (forall sid ch, streams b !! sid = Some ch -> sc_closed ch = true).

Lemma cleanup_all_released b :
  bridge_inv b -> worker (cleanup_worker_state b) = None /\ all_released (cleanup_worker_state b).
Proof.
  intros [_ _ Hp Ho]. destruct (worker b) as [s|] eqn:Hs.
  - destruct (cleanup_releases b s Hs) as [[Hdone Hstream] Hw]. split; [done|split].
    + intros did Hl. destruct (Hdone did Hl) as [Hl1 Hn].
      destruct (Hp did Hl1) as (s' & Hs' & Hin). by simplify_eq.
    + intros sid ch Hl. destruct (sc_closed ch) eqn:Hc; [done|].
      destruct (Hstream sid ch Hl Hc) as [Hl1 Hn].
      destruct (Ho sid ch Hl1 Hc) as (s' & Hs' & Hin). by simplify_eq.
  - unfold cleanup_worker_state. rewrite Hs. split; [done|split].
    + intros did Hl. by destruct (Hp did Hl) as (? & ? & _).
    + intros sid ch Hl. destruct (sc_closed ch) eqn:Hc; [done|].
      by destruct (Ho sid ch Hl Hc) as (? & ? & _).
Qed.
End cleanup.

(** * Several requests in one loop *)

Section loop.
Context `{FA : FolkApi}.
Implicit Types (b : Bridge) (s : WorkerState).

(** A request met anywhere in the queue is served as if it came first. *)
Lemma dispatch_loop_serving php b0 b reqs id extra req st sent r :
  (forall m p, no_recv (php m p)) -> bridge_inv b -> signalled b0 b -> idle b reqs id ->
  req ∈ reqs -> receiver_stays b req ->
  (forall b0, serving b0 req false [] ->
     serving (run_handler (php (method req) (payload req)) b0).1 req st sent
     /\ (run_handler (php (method req) (payload req)) b0).2 = r) ->
  exists b', dispatch_loop (S (length reqs) + extra) php b = (b', Some (Ok tt))
    /\ streams b' !! stream_tx req =
        Some {| sc_sent := sent ++ (if st then [End] else [outcome_chunk r; End]);
                rx_left := None; sc_closed := true |}
    /\ dones b' !! done_tx req = Some DoneSent.
Proof.
  intros Hphp. revert b. induction reqs as [|req0 rest IH]; intros b Hinv Hsig Hidle Hin Hstay Hrun;
    [by apply elem_of_nil in Hin|].
  destruct (dispatch_turn_spec php b0 b req0 rest id Hphp Hinv Hsig Hidle)
    as (b1 & Hturn & Hinv1 & Hsig1 & Hidle1 & Hans & Hu1).
  cbn [length Nat.add dispatch_loop]. rewrite Hturn.
  pose proof Hidle as (s & Hs & _ & Hq & _).
  destruct (bi_worker _ Hinv s Hs) as (Hn1 & Hn2 & _). unfold stream_ids, done_ids in *.
  rewrite Hq in Hn1, Hn2. apply NoDup_app in Hn1 as (_ & _ & Hn1), Hn2 as (_ & _ & Hn2).
  csimpl in *. apply NoDup_cons in Hn1 as [Hn1 _]. apply NoDup_cons in Hn2 as [Hn2 _].
  apply elem_of_cons in Hin as [->|Hin].
  - destruct (dispatch_turn_serving php b req0 rest id st sent r Hinv Hidle Hstay Hrun)
      as (b1' & Hturn' & Hch & Hd). assert (b1' = b1) as -> by congruence.
    destruct (dispatch_loop_spec php b0 b1 rest id extra Hphp Hinv1 Hsig1 Hidle1)
      as (b2 & Hloop & _ & _ & _ & [Hs2 Hd2] & _).
    exists b2. by rewrite Hs2, Hd2.
  - apply (IH b1); try done. destruct Hstay as (ch & Hch & Hl). exists ch.
    destruct Hu1 as [Hs1 _]. rewrite Hs1; [done|]. csimpl. rewrite list_elem_of_singleton.
    intros Heq. apply Hn1. rewrite <- Heq. apply list_elem_of_fmap. by exists req.
Qed.

(** The state [run_dispatch_loop] starts looping in. *)
Lemma run_dispatch_loop_start fuel root chdir php id reqs left :
  distinct reqs ->
  exists b, run_dispatch_loop fuel root chdir php (bridge_start id reqs left) = dispatch_loop fuel php b
    /\ bridge_inv b /\ idle b reqs id /\ ready_signals b = 1 /\ joins b = 0 /\ signalled b b
    /\ streams b = streams (bridge_start id reqs left).
Proof.
  intros Hd. pose proof (bridge_start_inv id reqs left Hd) as Hinv.
  destruct (worker (bridge_start id reqs left)) as [s|] eqn:Hs; [|done].
  assert (bridge_inv (set_worker (Some (set_ready_tx false s)) (bridge_start id reqs left)))
    as [Hf Hw Hp Ho] by (by eapply inv_same_request).
  injection Hs as <-.
  unfold run_dispatch_loop, enter_loop. simpl worker. cbn [ready_tx]. eexists. split; [reflexivity|].
  destruct root as [root|]; [destruct (chdir root)|];
    (split_and!; [split; done|by eexists|done|done|split_and!; [done|done|by eexists]|done]).
Qed.

Lemma bridge_start_receiver id reqs left req :
  distinct reqs -> req ∈ reqs ->
  streams (bridge_start id reqs left) !! stream_tx req = Some (fresh_chan (left (stream_tx req))).
Proof.
  intros [Hs _] Hin. apply elem_of_list_to_map_1.
  - by rewrite <- list_fmap_compose.
  - apply list_elem_of_fmap. by exists req.
Qed.
End loop.

(** * Properties *)

Section properties.
Context `{FA : FolkApi} `{HO : !HashOrder}.

(** C14. Whatever PHP does, and however its calls depend on what they return,
    every response stream follows the framing: at most one head, then body
    chunks, at most one final value or error, [End] at most once and nothing
    after it. *)
Theorem bridge_frames_every_stream id reqs left h (Hd : distinct reqs) sid ch :
  streams (run_handler h (bridge_start id reqs left)).1 !! sid = Some ch ->
  well_framed (sc_sent ch).
Proof. apply (bi_frames _ (run_handler_inv h _ (bridge_start_inv id reqs left Hd))). Qed.

(** When a worker thread ends, whatever its script did, every caller is
    released: no completion channel is left pending and no response stream is
    left open. *)
Theorem worker_exit_releases_all id reqs left h (Hd : distinct reqs) :
  let b := cleanup_worker_state (run_handler h (bridge_start id reqs left)).1 in
  worker b = None
  /\ (forall did, dones b !! did <> Some DonePending)
  /\ (forall sid ch, streams b !! sid = Some ch -> sc_closed ch = true).
Proof. apply cleanup_all_released, run_handler_inv, bridge_start_inv, Hd. Qed.

(** C12. The dispatch loop terminates when its task channel closes and has by
    then answered every request, for every handler that does not itself
    receive requests: completion signalled, stream closed, and a finished
    response on every stream whose receiver stayed.  It signals ready exactly
    once, and only worker 1 joins the other workers. *)
Theorem dispatch_loop_answers_all php id reqs left root chdir extra
    (Hphp : forall m p, no_recv (php m p)) (Hd : distinct reqs) :
  exists b, run_dispatch_loop (S (length reqs) + extra) root chdir php (bridge_start id reqs left)
      = (b, Some (Ok tt))
    /\ Forall (answered b) reqs /\ ready_signals b = 1
    /\ joins b = (if decide (id = 1%Z) then 1 else 0).
Proof.
  destruct (run_dispatch_loop_start (S (length reqs) + extra) root chdir php id reqs left Hd)
    as (b0 & -> & Hinv & Hidle & Hr & Hj & Hsig & _).
  destruct (dispatch_loop_spec php b0 b0 reqs id extra Hphp Hinv Hsig Hidle)
    as (b & -> & _ & _ & Hans & _ & Hr' & Hj').
  exists b. by rewrite Hr', Hj', Hr, Hj.
Qed.

(** What a non-streaming caller is promised for a handler's outcome. *)
Definition outcome_result (r : result value) : result value :=
  match r with
  | Err e => Err (worker_error_display (worker_error_new e))
  | Ok v => match value_get v "__error" with
            | Some _ => Err (worker_error_display (worker_error_from_value v))
            | None => Ok v
            end
  end.

(** One request among the others, from the start of the loop: its stream, given
    what its handler sends and returns. *)
Lemma request_served php id reqs left root chdir extra req st sent r :
  (forall m p, no_recv (php m p)) -> distinct reqs -> req ∈ reqs -> left (stream_tx req) = None ->
  (forall b, serving b req false [] ->
     serving (run_handler (php (method req) (payload req)) b).1 req st sent
     /\ (run_handler (php (method req) (payload req)) b).2 = r) ->
  exists b, run_dispatch_loop (S (length reqs) + extra) root chdir php (bridge_start id reqs left)
      = (b, Some (Ok tt))
    /\ streams b !! stream_tx req =
        Some {| sc_sent := sent ++ (if st then [End] else [outcome_chunk r; End]);
                rx_left := None; sc_closed := true |}
    /\ dones b !! done_tx req = Some DoneSent.
Proof.
  intros Hphp Hd Hin Hstay Hrun.
  destruct (run_dispatch_loop_start (S (length reqs) + extra) root chdir php id reqs left Hd)
    as (b0 & -> & Hinv & Hidle & _ & _ & Hsig & Hst).
  eapply dispatch_loop_serving; try done.
  eexists. rewrite Hst. split; [by apply bridge_start_receiver|done].
Qed.

Lemma streaming_handler_serving status headers chunks r b req :
  serving b req false [] ->
  serving (run_handler (streaming_handler status headers chunks r) b).1 req true
    (Headers status headers :: (Body <$> nonempty chunks))
  /\ (run_handler (streaming_handler status headers chunks r) b).2 = r.
Proof.
  intros Hv. simpl. pose proof (head_serving status headers _ _ _ Hv) as Hv'.
  destruct (do_write_head _ _ _) as [b2 x]. simpl in *. exact (writes_serving chunks r _ _ _ _ Hv').
Qed.

Lemma collect_outcome r : collect_stream [outcome_chunk r; End] = outcome_result r.
Proof.
  unfold collect_stream. destruct r as [v|e]; [|done]. simpl. unfold value_chunk.
  by destruct (value_get v "__error").
Qed.

Lemma collect_streamed status headers chunks :
  collect_stream (Headers status headers :: (Body <$> nonempty chunks) ++ [End])
    = Ok (legacy_value status headers (concat chunks)).
Proof.
  rewrite <- concat_nonempty. generalize (nonempty chunks) as cs. intros cs.
  destruct (collect_framed (Headers status headers :: (Body <$> cs)) [] []) as [Hc _].
  - constructor; [done|]. apply Forall_fmap, Forall_true. done.
  - by left.
  - etransitivity; [exact Hc|]. unfold stream_result. simpl.
    assert (last_head (Body <$> cs) (status, headers) = (status, headers)) as ->
      by (clear; by induction cs).
    assert (body_of (Body <$> cs) = concat cs) as ->; [|done].
    clear. induction cs as [|c cs IH]; csimpl; [done|by rewrite IH].
Qed.

(** A handler that does not stream, wherever its request stands in the
    queue, is answered by its outcome and nothing else: the caller gets the
    returned value verbatim, and an error exactly when PHP failed or returned
    an [__error] value. *)
Theorem returned_value_verbatim php id reqs left root chdir extra req r
    (Hphp : forall m p, no_recv (php m p)) (Hd : distinct reqs) (Hin : req ∈ reqs)
    (Hstay : left (stream_tx req) = None)
    (Hquiet : quietly_returns (php (method req) (payload req)) r) :
  exists b ch, run_dispatch_loop (S (length reqs) + extra) root chdir php (bridge_start id reqs left)
      = (b, Some (Ok tt))
    /\ streams b !! stream_tx req = Some ch /\ sc_closed ch = true
    /\ dones b !! done_tx req = Some DoneSent
    /\ collect_stream (sc_sent ch) = outcome_result r.
Proof.
  destruct (request_served php id reqs left root chdir extra req false [] r Hphp Hd Hin Hstay)
    as (b & Hloop & Hch & Hdone); [intros b1 Hv; by apply quiet_handler_serving|].
  eexists b, _. split_and!; [done|exact Hch|done|done|apply collect_outcome].
Qed.

(** C17. A handler that streams, wherever its request stands in the queue,
    delivers its head and the concatenation of its chunks, whatever it returns
    afterwards: an error raised once the head is written does not reach the
    caller, which sees a finished response. *)
Theorem streamed_response_delivered php id reqs left root chdir extra req status headers chunks r
    (Hphp : forall m p, no_recv (php m p)) (Hd : distinct reqs) (Hin : req ∈ reqs)
    (Hstay : left (stream_tx req) = None)
    (Hstream : php (method req) (payload req) = streaming_handler status headers chunks r) :
  exists b ch, run_dispatch_loop (S (length reqs) + extra) root chdir php (bridge_start id reqs left)
      = (b, Some (Ok tt))
    /\ streams b !! stream_tx req = Some ch /\ sc_closed ch = true
    /\ dones b !! done_tx req = Some DoneSent
    /\ sc_sent ch = Headers status headers :: (Body <$> nonempty chunks) ++ [End]
    /\ collect_stream (sc_sent ch) = Ok (legacy_value status headers (concat chunks)).
Proof.
  destruct (request_served php id reqs left root chdir extra req true
    (Headers status headers :: (Body <$> nonempty chunks)) r Hphp Hd Hin Hstay)
    as (b & Hloop & Hch & Hdone); [intros b1 Hv; rewrite Hstream; by apply streaming_handler_serving|].
  eexists b, _. split_and!; [done|exact Hch|done|done|done|apply collect_streamed].
Qed.
End properties.

(** * Examples *)

Module Examples.
Import Sample.
Definition php (m : string) (p : value) : Handler :=
  if String.eqb m "get" then HCall (CRead 5) (fun _ => HReturn (Ok p))
  else streaming_handler 201 ∅ [[x68]; []; [x69]] (Err "boom").

Lemma php_no_recv m p : no_recv (php m p).
Proof. unfold php. destruct (String.eqb m "get"); simpl; repeat (split; [done|]; intros _); done. Qed.

Definition req (m : string) (n : nat) : TaskRequest := {|
  request_id := "r"; method := m; payload := VString "p"; stream_tx := n; done_tx := n;
  request_body := None;
|}.
Definition reqs : list TaskRequest := [req "get" 0; req "stream" 1].

Lemma reqs_distinct : distinct reqs.
Proof. split; apply (bool_decide_unpack _); reflexivity. Qed.

(** A script that takes a request, writes before and after a second head,
    finishes twice and takes the next request without answering it. *)
Definition script : Handler :=
  HCall CRecv (fun _ => HCall (CWrite [x61]) (fun _ => HCall (CWriteHead 200 ∅) (fun _ =>
  HCall (CWriteHead 500 ∅) (fun _ => HCall CWriteEnd (fun _ => HCall (CSend [x62]) (fun _ =>
  HCall CRecv (fun _ => HReturn (Ok VNull)))))))).
Definition after_script : Bridge := (run_handler script (bridge_start 1 reqs (fun _ => None))).1.
End Examples.
Import Sample.
#[local] Existing Instance some_order.

Lemma bridge_frames_every_stream_witness :
  streams Examples.after_script !! 0 =
    Some {| sc_sent := [Body [x61]; Headers 200 ∅; End]; rx_left := None; sc_closed := true |}
  /\ well_framed [Body [x61]; Headers 200 ∅; End].
Proof.
  split; [vm_compute; reflexivity|].
  exact (bridge_frames_every_stream 1 Examples.reqs (fun _ => None) Examples.script Examples.reqs_distinct 0
    {| sc_sent := [Body [x61]; Headers 200 ∅; End]; rx_left := None; sc_closed := true |} eq_refl).
Defined.

Lemma worker_exit_releases_all_witness :
  (current_done_tx <$> worker Examples.after_script) = Some (Some 1)
  /\ forall did, dones (cleanup_worker_state Examples.after_script) !! did <> Some DonePending.
Proof.
  split; [vm_compute; reflexivity|].
  exact (proj1 (proj2 (worker_exit_releases_all 1 Examples.reqs (fun _ => None) Examples.script
    Examples.reqs_distinct))).
Defined.

Lemma dispatch_loop_answers_all_witness :
  exists b, run_dispatch_loop 3 (Some "/app") (fun _ => true) Examples.php
      (bridge_start 1 Examples.reqs (fun _ => Some 1)) = (b, Some (Ok tt))
    /\ Forall (answered b) Examples.reqs /\ ready_signals b = 1 /\ joins b = 1.
Proof.
  exact (dispatch_loop_answers_all Examples.php 1 Examples.reqs (fun _ => Some 1) (Some "/app")
    (fun _ => true) 0 Examples.php_no_recv Examples.reqs_distinct).
Defined.

Lemma returned_value_verbatim_witness :
  exists b ch, run_dispatch_loop 3 None (fun _ => true) Examples.php
      (bridge_start 2 Examples.reqs (fun _ => None)) = (b, Some (Ok tt))
    /\ streams b !! 0 = Some ch /\ collect_stream (sc_sent ch) = Ok (VString "p").
Proof.
  destruct (returned_value_verbatim Examples.php 2 Examples.reqs (fun _ => None) None (fun _ => true) 0
    (Examples.req "get" 0) (Ok (VString "p")) Examples.php_no_recv Examples.reqs_distinct)
    as (b & ch & Hrun & Hch & _ & _ & Hc).
  - by left.
  - reflexivity.
  - split; [exact I|done].
  - exact (ex_intro _ b (ex_intro _ ch (conj Hrun (conj Hch Hc)))).
Defined.

Lemma streamed_response_delivered_witness :
  exists b ch, run_dispatch_loop 3 None (fun _ => true) Examples.php
      (bridge_start 2 Examples.reqs (fun _ => None)) = (b, Some (Ok tt))
    /\ streams b !! 1 = Some ch
    /\ sc_sent ch = [Headers 201 ∅; Body [x68]; Body [x69]; End].
Proof.
  destruct (streamed_response_delivered Examples.php 2 Examples.reqs (fun _ => None) None (fun _ => true) 0
    (Examples.req "stream" 1) 201 ∅ [[x68]; []; [x69]] (Err "boom")
    Examples.php_no_recv Examples.reqs_distinct)
    as (b & ch & Hrun & Hch & _ & _ & Hsent & _).
  - right. by left.
  - reflexivity.
  - reflexivity.
  - exact (ex_intro _ b (ex_intro _ ch (conj Hrun (conj Hch Hsent)))).
Defined.
