(* ===== verification/BridgeIso.v ===== *)
(** Isolation: what a handler sees of the bridge and what it sends depends on its
    own request only, not on the other requests of the worker, queued or served
    before.

    Two bridges are related when they hold the same request at the same point;
    every call but the receiving of a request keeps them related and returns the
    same to PHP.  [response] is the reference: what a fresh worker that gets
    this one request sends. *)

From S2P Require Import Prelude.
From S2P Require Import Protocol.
From S2P Require Import Bridge.
From S2P Require Import BridgeSpec.
From S2P Require Import BridgeProps.

Section isolation.
Context `{FA : FolkApi}.
Implicit Types (b : Bridge) (s : WorkerState).

(** * Related bridges *)

(** The state with another worker's id and queue. *)
Definition reseat (id : Z) (q : list TaskRequest) s : WorkerState := {|
  worker_id := id; task_rx := q; ready_tx := ready_tx s;
  current_stream_tx := current_stream_tx s; current_done_tx := current_done_tx s;
  stream_started := stream_started s; current_request_id := current_request_id s;
  current_body := current_body s; current_body_leftover := current_body_leftover s;
  current_part_state := current_part_state s;
|}.

(** [req] is the current request, or none is. *)
Definition on_request (req : TaskRequest) s : Prop :=
  (current_stream_tx s = Some (stream_tx req) /\ current_done_tx s = Some (done_tx req))
  \/ (current_stream_tx s = None /\ current_done_tx s = None).

Record related (req : TaskRequest) b1 b2 : Prop := {
  rel_state : exists s id1 q1 id2 q2,
    worker b1 = Some (reseat id1 q1 s) /\ worker b2 = Some (reseat id2 q2 s)
    /\ ready_tx s = false /\ on_request req s;
  rel_stream : streams b1 !! stream_tx req = streams b2 !! stream_tx req;
  rel_done : dones b1 !! done_tx req = dones b2 !! done_tx req;
}.

Lemma blocking_send_related sid c b1 b2 :
  streams b1 !! sid = streams b2 !! sid ->
  (blocking_send sid c b1).2 = (blocking_send sid c b2).2
  /\ streams (blocking_send sid c b1).1 !! sid = streams (blocking_send sid c b2).1 !! sid.
Proof.
  intros Heq. unfold blocking_send. rewrite Heq.
  destruct (streams b2 !! sid) as [[sent [[|n]|] cl]|] eqn:H2; simpl;
    (split; [done|rewrite ?lookup_insert_eq; congruence]).
Qed.

(** A send changes nothing but the streams. *)
Lemma blocking_send_frame sid c b :
  worker (blocking_send sid c b).1 = worker b /\ dones (blocking_send sid c b).1 = dones b.
Proof. unfold blocking_send. by destruct (streams b !! sid) as [[sent [[|n]|] cl]|]. Qed.

Lemma send_all_related sid cs b1 b2 :
  streams b1 !! sid = streams b2 !! sid ->
  streams (send_all sid cs b1) !! sid = streams (send_all sid cs b2) !! sid.
Proof.
  revert b1 b2; induction cs as [|c cs IH]; intros b1 b2 Heq; simpl; [done|].
  apply IH. by apply blocking_send_related.
Qed.

Lemma send_all_frame sid cs b :
  worker (send_all sid cs b) = worker b /\ dones (send_all sid cs b) = dones b.
Proof.
  revert b; induction cs as [|c cs IH]; intros b; simpl; [done|].
  destruct (IH (blocking_send sid c b).1) as [-> ->]. apply blocking_send_frame.
Qed.

(** ** Every call keeps bridges related *)

Lemma finish_related req b1 b2 s id1 q1 id2 q2 cs :
  related req b1 b2 -> ready_tx s = false ->
  related req (finish b1 (reseat id1 q1 s) (stream_tx req) (done_tx req) cs)
    (finish b2 (reseat id2 q2 s) (stream_tx req) (done_tx req) cs).
Proof.
  intros [_ Hst Hdn] Hr. unfold finish.
  set (c1 := set_worker _ b1). set (c2 := set_worker _ b2).
  destruct (send_all_frame (stream_tx req) cs c1) as [Hw1 Hd1].
  destruct (send_all_frame (stream_tx req) cs c2) as [Hw2 Hd2].
  pose proof (send_all_related (stream_tx req) cs c1 c2 Hst) as Hs. split; simpl.
  - rewrite Hw1, Hw2. exists (clear_request s), id1, q1, id2, q2. split_and!; [done..|by right].
  - by rewrite !lookup_alter_eq, Hs.
  - by rewrite !lookup_insert_eq.
Qed.

(** A function of the worker's state that does not look at the queue. *)
Definition natural {A} (f : WorkerState -> WorkerState * A) : Prop :=
  forall id q s, f (reseat id q s) = (reseat id q (f s).1, (f s).2).

Lemma on_state_related {A} (none : A) f req b1 b2 :
  natural f -> (forall s, only_body s (f s).1) -> related req b1 b2 ->
  related req (on_state none f b1).1 (on_state none f b2).1
  /\ (on_state none f b1).2 = (on_state none f b2).2.
Proof.
  intros Hnat Hbody [(s & id1 & q1 & id2 & q2 & H1 & H2 & Hr & Hon) Hst Hdn].
  unfold on_state. rewrite H1, H2, !Hnat. split; [|done]. split; [|done..]. simpl.
  exists (f s).1, id1, q1, id2, q2. destruct (Hbody s) as (body & left & ps & -> & _).
  by split_and!.
Qed.

Lemma read_natural n : natural (read n).
Proof.
  intros id q s. unfold read. simpl. case_decide; [|done].
  by destruct (current_body s) as [[[|chunk rx]|rx]|].
Qed.

Lemma read_all_natural : natural read_all.
Proof. intros id q s. unfold read_all. simpl. by destruct (current_body s) as [[]|]. Qed.

Lemma next_part_natural : natural next_part.
Proof.
  intros id q s. unfold next_part. simpl. destruct (current_body s) as [[|rx]|]; [done| |done].
  case_decide; [done|]. destruct (if decide _ then _ else _) as [rx' ok].
  by destruct ok, rx' as [|[] rx'].
Qed.

Lemma part_read_natural n : natural (part_read n).
Proof.
  intros id q s. unfold part_read. simpl. case_decide; [|done]. case_decide; [|done].
  by destruct (current_body s) as [[|[|[] rx]]|].
Qed.

Lemma part_read_all_natural : natural part_read_all.
Proof.
  intros id q s. unfold part_read_all. simpl. case_decide; [|done].
  destruct (current_body s) as [[|rx]|]; [done| |done].
  by destruct (collect_part rx _) as [[rx' ps] out].
Qed.

#[local] Hint Resolve read_natural read_all_natural next_part_natural part_read_natural
  part_read_all_natural read_body read_all_body next_part_body part_read_body
  part_read_all_body : folk.

(** A call that fails before it changes anything. *)
Lemma related_same {A} req b1 b2 (a : A) : related req b1 b2 -> related req b1 b2 /\ a = a.
Proof. done. Qed.

(** A send of the current request, after a change of [stream_started]. *)
Lemma send_related req b1 b2 c s id1 q1 id2 q2 st :
  related req b1 b2 -> ready_tx s = false -> on_request req s ->
  let c1 := set_worker (Some (reseat id1 q1 (set_started st s))) b1 in
  let c2 := set_worker (Some (reseat id2 q2 (set_started st s))) b2 in
  related req (blocking_send (stream_tx req) c c1).1 (blocking_send (stream_tx req) c c2).1
  /\ (blocking_send (stream_tx req) c c1).2 = (blocking_send (stream_tx req) c c2).2.
Proof.
  intros [_ Hst Hdn] Hr Hon c1 c2.
  destruct (blocking_send_related (stream_tx req) c c1 c2 Hst) as [Hres Hs].
  destruct (blocking_send_frame (stream_tx req) c c1) as [Hw1 Hd1].
  destruct (blocking_send_frame (stream_tx req) c c2) as [Hw2 Hd2].
  split; [|done]. split; [|done|by rewrite Hd1, Hd2].
  exists (set_started st s), id1, q1, id2, q2. by rewrite Hw1, Hw2.
Qed.

Lemma set_worker_same b s : worker b = Some s -> set_worker (Some s) b = b.
Proof. destruct b; simpl. by intros ->. Qed.

Lemma set_started_same s : set_started (stream_started s) s = s.
Proof. by destruct s. Qed.

(** The calls that finish the request. *)
Lemma finishing_related c req b1 b2 :
  match c with CSend _ | CSendError _ | CWriteEnd => True | _ => False end -> related req b1 b2 ->
  related req (api_call c b1).1 (api_call c b2).1 /\ (api_call c b1).2 = (api_call c b2).2.
Proof.
  intros Hc Hrel. pose proof Hrel as [(s & id1 & q1 & id2 & q2 & H1 & H2 & Hr & Hon) _ _].
  destruct Hon as [[Hs Hd]|[Hs Hd]].
  - pose proof (fun cs => finish_related req b1 b2 s id1 q1 id2 q2 cs Hrel Hr) as Hfin.
    destruct c; try done; simpl.
    + rewrite (do_send_spec data b1 _ _ _ H1 Hs Hd), (do_send_spec data b2 _ _ _ H2 Hs Hd).
      destruct (from_slice data); simpl; (split; [apply Hfin|done]).
    + rewrite (do_send_error_spec _ b1 _ _ _ H1 Hs Hd), (do_send_error_spec _ b2 _ _ _ H2 Hs Hd).
      simpl. split; [apply Hfin|done].
    + rewrite (do_write_end_spec b1 _ _ _ H1 Hs Hd), (do_write_end_spec b2 _ _ _ H2 Hs Hd).
      simpl. split; [apply Hfin|done].
  - destruct c; try done; simpl; unfold do_send, do_send_error, do_write_end; bridge_unfold;
      rewrite H1, H2; simpl; rewrite Hs; simpl; try done.
    rewrite Hd. simpl. destruct Hrel as [_ Hst Hdn]. split; [|done]. split; [|done..].
    exists (clear_request s), id1, q1, id2, q2. by split_and!; [..|right].
Qed.

Lemma api_call_related c req b1 b2 :
  c <> CRecv -> related req b1 b2 ->
  related req (api_call c b1).1 (api_call c b2).1 /\ (api_call c b1).2 = (api_call c b2).2.
Proof.
  intros Hc Hrel. pose proof Hrel as [(s & id1 & q1 & id2 & q2 & H1 & H2 & Hr & Hon) Hst Hdn].
  destruct c; try done; try (by apply finishing_related); simpl.
  - unfold do_ready. bridge_unfold. rewrite H1, H2. simpl. by rewrite Hr.
  - unfold do_write_head. bridge_unfold. rewrite H1, H2. simpl.
    destruct Hon as [[Hs Hd]|[Hs Hd]]; rewrite Hs; [|done]. simpl. destruct (stream_started s); [done|].
    destruct (send_related req b1 b2 (Headers status headers) s id1 q1 id2 q2 true Hrel Hr
      (or_introl (conj Hs Hd))) as [Hrel' Hres].
    unfold set_started, reseat in *; simpl in *. repeat destruct (blocking_send _ _ _) as [? []]; done.
  - unfold do_write. bridge_unfold. rewrite H1, H2. simpl.
    destruct Hon as [[Hs Hd]|[Hs Hd]]; rewrite Hs; [|done]. simpl. case_decide; [done|].
    destruct (send_related req b1 b2 (Body data) s id1 q1 id2 q2 (stream_started s) Hrel Hr
      (or_introl (conj Hs Hd))) as [Hrel' Hres].
    rewrite set_started_same, !set_worker_same in Hrel', Hres by done.
    repeat destruct (blocking_send _ _ _) as [? []]; simpl in *; by simplify_eq.
  - destruct (on_state_related [] (read length) req b1 b2) as [? Heq]; auto with folk.
    unfold do_read. by destruct (on_state _ _ b1), (on_state _ _ b2); simpl in *; subst.
  - destruct (on_state_related [] read_all req b1 b2) as [? Heq]; auto with folk.
    unfold do_read_all. by destruct (on_state _ _ b1), (on_state _ _ b2); simpl in *; subst.
  - destruct (on_state_related None next_part req b1 b2) as [? Heq]; auto with folk.
    unfold do_next_part. by destruct (on_state _ _ b1), (on_state _ _ b2); simpl in *; subst.
  - destruct (on_state_related [] (part_read length) req b1 b2) as [? Heq]; auto with folk.
    unfold do_part_read. by destruct (on_state _ _ b1), (on_state _ _ b2); simpl in *; subst.
  - destruct (on_state_related [] part_read_all req b1 b2) as [? Heq]; auto with folk.
    unfold do_part_read_all. by destruct (on_state _ _ b1), (on_state _ _ b2); simpl in *; subst.
  - unfold get_current_request_id. by rewrite H1, H2.
  - unfold has_worker_state. by rewrite H1, H2.
Qed.

Lemma finalise_related req r b1 b2 :
  related req b1 b2 -> related req (finalise r b1) (finalise r b2).
Proof.
  intros Hrel. pose proof Hrel as [(s & id1 & q1 & id2 & q2 & H1 & H2 & Hr & Hon) Hst Hdn].
  destruct Hon as [[Hs Hd]|[Hs Hd]].
  - rewrite (finalise_spec r b1 _ _ _ H1 Hs Hd), (finalise_spec r b2 _ _ _ H2 Hs Hd). simpl.
    by apply finish_related.
  - unfold finalise. rewrite H1, H2. simpl. rewrite Hs, Hd. split; [|done..].
    exists (clear_request s), id1, q1, id2, q2. by split_and!; [..|right].
Qed.

Lemma finalise_worker r b s : worker b = Some s -> worker (finalise r b) = Some (clear_request s).
Proof.
  intros Hs. unfold finalise. rewrite Hs.
  destruct (current_stream_tx s), (current_done_tx s), (stream_started s); cbn -[send_all];
    by rewrite ?(proj1 (send_all_frame _ _ _)).
Qed.

(** * The rest of a handler *)

(** What is left of a turn: the rest of the handler, then the end of its
    request. *)
Definition turn_end (h : Handler) b : Bridge :=
  let '(b, r) := run_handler h b in finalise r b.

Lemma turn_end_call c k b :
  turn_end (HCall c k) b = turn_end (k (api_call c b).2) (api_call c b).1.
Proof. unfold turn_end. simpl. by destruct (api_call c b). Qed.

(** With no current request, a call leaves every channel alone. *)
Definition no_request (q : list TaskRequest) b : Prop :=
  exists s, worker b = Some s /\ current_stream_tx s = None /\ current_done_tx s = None
    /\ task_rx s = q.

Lemma on_state_idle {A} (none : A) f q b :
  (forall s, only_body s (f s).1) -> no_request q b ->
  no_request q (on_state none f b).1 /\ streams (on_state none f b).1 = streams b
  /\ dones (on_state none f b).1 = dones b.
Proof.
  intros Hf (s & Hs & H1 & H2 & Hq). unfold on_state. rewrite Hs.
  destruct (Hf s) as (body & left & ps & Heq & _). destruct (f s) as [s' a]. simpl in *. subst s'.
  split_and!; [|done..]. eexists. by split_and!.
Qed.

Lemma api_call_idle c q b :
  c <> CRecv -> no_request q b ->
  no_request q (api_call c b).1 /\ streams (api_call c b).1 = streams b
  /\ dones (api_call c b).1 = dones b.
Proof.
  intros Hc Hno. pose proof Hno as (s & Hs & H1 & H2 & Hq).
  destruct c; try done; simpl; try (apply on_state_idle; auto with folk).
  - unfold do_ready. bridge_unfold. rewrite Hs. destruct (ready_tx s); [|done].
    split_and!; [|done..]. eexists. by split_and!.
  - unfold do_send. bridge_unfold. rewrite Hs. simpl. by rewrite H1.
  - unfold do_send_error. bridge_unfold. rewrite Hs. simpl. rewrite H1, H2. simpl.
    split_and!; [|done..]. eexists. by split_and!.
  - unfold do_write_head. bridge_unfold. rewrite Hs. simpl. by rewrite H1.
  - unfold do_write. bridge_unfold. rewrite Hs. simpl. by rewrite H1.
  - unfold do_write_end. bridge_unfold. rewrite Hs. simpl. by rewrite H1.
Qed.

Lemma finalise_idle r q b :
  no_request q b ->
  no_request q (finalise r b) /\ streams (finalise r b) = streams b /\ dones (finalise r b) = dones b.
Proof.
  intros (s & Hs & H1 & H2 & Hq). unfold finalise. rewrite Hs, H1, H2.
  split_and!; [|done..]. eexists. by split_and!.
Qed.

Lemma turn_end_idle h q b : no_recv h -> no_request q b -> streams (turn_end h b) = streams b.
Proof.
  revert b; induction h as [r|c k IH]; intros b Hno Hidle.
  - by apply (finalise_idle r q).
  - destruct Hno as [Hc Hk]. rewrite turn_end_call.
    destruct (api_call_idle c q b Hc Hidle) as (Hidle' & <- & _). by apply IH.
Qed.

(** ** What a step of the handler leaves alone *)

(** Only the channels of [req] have moved, and no queued request has. *)
Record framed (req : TaskRequest) s b b' : Prop := {
  fr_untouched : untouched [req] b b';
  fr_queue : exists s', worker b' = Some s' /\ task_rx s' = task_rx s;
  fr_queued : forall req', req' ∈ task_rx s -> streams b' !! stream_tx req' = streams b !! stream_tx req';
}.

Lemma handling_framed req s b b' :
  bridge_inv b -> worker b = Some s -> current_stream_tx s = Some (stream_tx req) ->
  handling b req (task_rx s) (worker_id s) b' -> framed req s b b'.
Proof.
  intros Hinv Hs Hcur (H1 & H2 & s' & Hs' & Hq & _).
  split; [|by eauto|].
  - split; csimpl; intros i Hi; [apply H1|apply H2]; set_solver.
  - intros req' Hin. apply H1. destruct (bi_worker _ Hinv s Hs) as (Hnd & _ & _).
    unfold stream_ids in Hnd. rewrite Hcur in Hnd. apply NoDup_app in Hnd as (_ & Hdisj & _).
    intros Heq. apply (Hdisj (stream_tx req)); [by left|]. rewrite <- Heq.
    by apply list_elem_of_fmap_2.
Qed.

Lemma idle_framed req q s b b' :
  worker b = Some s -> task_rx s = q -> no_request q b' -> streams b' = streams b -> dones b' = dones b ->
  framed req s b b'.
Proof.
  intros Hs Hq (s' & Hs' & _ & _ & Hq') Hst Hdn. split; [|exists s'; by rewrite Hq|by rewrite Hst].
  split; intros; by rewrite ?Hst, ?Hdn.
Qed.

Lemma call_framed req s b c :
  bridge_inv b -> worker b = Some s -> on_request req s -> c <> CRecv -> framed req s b (api_call c b).1.
Proof.
  intros Hinv Hs [[H1 H2]|[H1 H2]] Hc.
  - apply handling_framed; [done..|]. apply handling_call; [done| |done].
    split_and!; [done|done|]. exists s. split_and!; [done..|]. by left.
  - destruct (api_call_idle c (task_rx s) b Hc) as (Hno & Hst & Hdn); [by eexists|].
    by eapply idle_framed.
Qed.

Lemma finalise_framed req s b r :
  bridge_inv b -> worker b = Some s -> on_request req s -> framed req s b (finalise r b).
Proof.
  intros Hinv Hs [[H1 H2]|[H1 H2]].
  - apply handling_framed; [done..|]. apply handling_finalise; [done|].
    split_and!; [done|done|]. exists s. split_and!; [done..|]. by left.
  - destruct (finalise_idle r (task_rx s) b) as (Hno & Hst & Hdn); [by eexists|].
    by eapply idle_framed.
Qed.

(** * Entering the loop *)

(** The invariant speaks of the worker and the channels only. *)
Lemma inv_ext b b' :
  worker b' = worker b -> streams b' = streams b -> dones b' = dones b -> bridge_inv b -> bridge_inv b'.
Proof.
  intros Hw Hs Hd [H1 H2 H3 H4].
  split; rewrite ?Hw, ?Hs, ?Hd; [done| |done|done].
  intros s Hws. specialize (H2 s Hws). unfold worker_inv, current_inv, stream_open, queued_ok in *.
  by rewrite Hs, Hd.
Qed.

Lemma enter_loop_fields root chdir_ok s b :
  worker b = Some s ->
  worker (enter_loop root chdir_ok s b) = Some (set_ready_tx false s)
  /\ streams (enter_loop root chdir_ok s b) = streams b
  /\ dones (enter_loop root chdir_ok s b) = dones b.
Proof.
  intros Hs. assert (ready_tx s = false -> set_ready_tx false s = s) as Heq.
  { destruct s; simpl. by intros ->. }
  unfold enter_loop. destruct (ready_tx s), root as [r|]; try destruct (chdir_ok r); simpl;
    rewrite ?Hs; (split_and!; [f_equal; try (symmetry; by apply Heq)|done|done]).
Qed.

Lemma enter_loop_inv root chdir_ok s b :
  worker b = Some s -> bridge_inv b -> bridge_inv (enter_loop root chdir_ok s b).
Proof.
  intros Hs Hinv. destruct (enter_loop_fields root chdir_ok s b Hs) as (Hw & Hst & Hdn).
  apply (inv_ext (set_worker (Some (set_ready_tx false s)) b)); [done..|].
  by eapply inv_same_request.
Qed.

(** * The reference response *)

Section reference.
Context (php : string -> value -> Handler).

(** What a fresh worker whose only request is [req] leaves on its response
    channel, for a receiver that takes [left] chunks. *)
Definition response (req : TaskRequest) (left : option nat) : option StreamChan :=
  streams (run_dispatch_loop 2 None (fun _ => true) php (bridge_start 0 [req] (fun _ => left))).1
    !! stream_tx req.

(** The bridge of that worker when its handler starts. *)
Definition reference_start (req : TaskRequest) (left : option nat) : Bridge :=
  match worker (bridge_start 0 [req] (fun _ => left)) with
  | Some s => accepted (enter_loop None (fun _ => true) s (bridge_start 0 [req] (fun _ => left)))
                (set_ready_tx false s) req []
  | None => bridge_start 0 [req] (fun _ => left)
  end.

Lemma reference_start_serves req left :
  exists s, worker (bridge_start 0 [req] (fun _ => left)) = Some s
    /\ let b0 := enter_loop None (fun _ => true) s (bridge_start 0 [req] (fun _ => left)) in
       bridge_inv b0 /\ idle b0 [req] 0 /\ signalled b0 b0
       /\ dispatch_turn php b0 =
          (turn_end (php (method req) (payload req)) (reference_start req left), Ok true).
Proof.
  eexists. split; [reflexivity|]. split_and!.
  - apply enter_loop_inv; [done|]. apply bridge_start_inv. split; apply NoDup_singleton.
  - eexists. by split_and!.
  - split_and!; [done..|]. eexists. by split_and!.
  - unfold dispatch_turn, turn_end. bridge_unfold. simpl. by destruct (run_handler _ _).
Qed.

Lemma response_turn req left :
  (forall m p, no_recv (php m p)) ->
  response req left =
    streams (turn_end (php (method req) (payload req)) (reference_start req left)) !! stream_tx req.
Proof.
  intros Hphp. destruct (reference_start_serves req left) as (s & Hs & Hinv & Hidle & Hsig & Hturn).
  unfold response, run_dispatch_loop. rewrite Hs. cbn [dispatch_loop]. rewrite Hturn.
  destruct (dispatch_turn_spec php _ _ req [] 0 Hphp Hinv Hsig Hidle)
    as (b' & Hturn' & _ & _ & (s' & Hs' & _ & Hq & _) & _).
  rewrite Hturn in Hturn'. simplify_eq. unfold dispatch_turn. bridge_unfold. rewrite Hs', Hq.
  by case_decide.
Qed.
End reference.
End isolation.
