(* ===== verification/BodySpec.v ===== *)
(** Reading a streaming request body: the raw readers yield the body's bytes in
    order, the multipart readers refine an abstract cursor over the parts. *)

From S2P Require Import Prelude.
From S2P Require Import Protocol.
From S2P Require Import Bridge.

Section raw.
Context `{FA : FolkApi}.
Implicit Types (b : Bridge) (s : WorkerState).

(** * Raw bodies *)

(** The worker's current body is raw, with leftover [left] and [rx] still to
    come. *)
Definition raw_at b (left : bytes) (rx : list bytes) : Prop :=
  exists s, worker b = Some s /\ current_body s = Some (Raw rx) /\ current_body_leftover s = left.

(** One [do_read]: an empty leftover is refilled from the channel, then
    split. *)
Lemma do_read_leftover n b left rx :
  raw_at b left rx -> left <> [] ->
  (do_read n b).2 = take n left /\ raw_at (do_read n b).1 (drop n left) rx.
Proof.
  intros (s & Hs & Hb & Hl) Hne. unfold do_read, on_state, read. rewrite Hs.
  rewrite decide_False by congruence. simpl. rewrite Hl. split.
  - destruct (Nat.le_ge_cases n (length left)); [by rewrite Nat.min_l|].
    by rewrite Nat.min_r, firstn_all, take_ge.
  - eexists. split_and!; [done|done|]. simpl.
    destruct (Nat.le_ge_cases n (length left)); [by rewrite Nat.min_l|].
    by rewrite Nat.min_r, skipn_all, drop_ge.
Qed.

Lemma do_read_refill n b c rx :
  raw_at b [] (c :: rx) ->
  (do_read n b).2 = take n c /\ raw_at (do_read n b).1 (drop n c) rx.
Proof.
  intros (s & Hs & Hb & Hl). unfold do_read, on_state, read. rewrite Hs, Hl, Hb. simpl. split.
  - destruct (Nat.le_ge_cases n (length c)); [by rewrite Nat.min_l|].
    by rewrite Nat.min_r, firstn_all, take_ge.
  - eexists. split_and!; [done|done|]. simpl.
    destruct (Nat.le_ge_cases n (length c)); [by rewrite Nat.min_l|].
    by rewrite Nat.min_r, skipn_all, drop_ge.
Qed.

Lemma do_read_eof n b : raw_at b [] [] -> (do_read n b).2 = [] /\ raw_at (do_read n b).1 [] [].
Proof.
  intros (s & Hs & Hb & Hl). unfold do_read, on_state, read. rewrite Hs, Hl, Hb. simpl.
  split; [done|]. by eexists.
Qed.

(** The three cases at once. *)
Lemma do_read_step n b left rx :
  raw_at b left rx ->
  exists left' rx', raw_at (do_read n b).1 left' rx'
    /\ (do_read n b).2 ++ left' ++ concat rx' = left ++ concat rx
    /\ length (do_read n b).2 <= n.
Proof.
  intros Hr. destruct (decide (left = [])) as [->|Hne].
  - destruct rx as [|c rx].
    + destruct (do_read_eof n b Hr) as [-> Hr']. exists [], []. split_and!; [done|done|simpl; lia].
    + destruct (do_read_refill n b c rx Hr) as [-> Hr']. exists (drop n c), rx.
      split_and!; [done| |rewrite length_take; lia]. simpl. by rewrite (assoc_L (++)), take_drop.
  - destruct (do_read_leftover n b left rx Hr Hne) as [-> Hr']. exists (drop n left), rx.
    split_and!; [done| |rewrite length_take; lia]. by rewrite (assoc_L (++)), take_drop.
Qed.

(** A sequence of reads. *)
Fixpoint do_reads (ns : list nat) b : Bridge * list bytes :=
  match ns with
  | [] => (b, [])
  | n :: ns => let '(b, d) := do_read n b in prod_map id (cons d) (do_reads ns b)
  end.

(** The loop [while (($d = folk_read($n)) !== "")], for at most [fuel] turns. *)
Fixpoint read_loop (fuel n : nat) b : Bridge * option bytes :=
  match fuel with
  | O => (b, None)
  | S fuel =>
      match do_read n b with
      | (b, []) => (b, Some [])
      | (b, d) => prod_map id (fmap (app d)) (read_loop fuel n b)
      end
  end.

(** The chunks before the first empty one. *)
Fixpoint until_empty (rx : list bytes) : list bytes :=
  match rx with
  | [] => []
  | c :: rx => if decide (c = []) then [] else c :: until_empty rx
  end.

Lemma until_empty_all rx : Forall (.≠ []) rx -> until_empty rx = rx.
Proof.
  induction 1 as [|c rx Hc _ IH]; simpl; [done|].
  by rewrite decide_False, IH.
Qed.

Lemma take_nonempty {A} n (l : list A) :
  0 < n -> l <> [] -> take n l <> [] /\ length (drop n l) < length l.
Proof. destruct l, n; simpl; try done; try lia. intros _ _. rewrite length_drop. split; [done|lia]. Qed.

Lemma read_loop_step fuel n b b0 (l : bytes) tail :
  0 < n -> l <> [] -> do_read n b = (b0, take n l) ->
  (read_loop fuel n b0).2 = Some (drop n l ++ tail) ->
  (read_loop (S fuel) n b).2 = Some (l ++ tail).
Proof.
  intros Hn Hl Hread Hrest. destruct (take_nonempty n l Hn Hl) as [Hd _].
  cbn [read_loop]. rewrite Hread. rewrite <- (take_drop n l) at 2.
  destruct (take n l) as [|x d']; [done|]. unfold prod_map. simpl. rewrite Hrest. simpl.
  by rewrite <- (assoc_L (++)).
Qed.

Lemma read_loop_spec fuel n b rem rx :
  0 < n -> raw_at b rem rx -> length (rem ++ concat rx) < fuel ->
  (read_loop fuel n b).2 = Some (rem ++ concat (until_empty rx)).
Proof.
  intros Hn. revert b rem rx; induction fuel as [|fuel IH]; intros b rem rx Hr Hf; [lia|].
  destruct (decide (rem = [])) as [->|Hne]; [destruct rx as [|c rx]|].
  - destruct (do_read_eof n b Hr) as [Hd _]. cbn [read_loop].
    destruct (do_read n b) as [b0 d]. simpl in *. by subst d.
  - destruct (do_read_refill n b c rx Hr) as [Hd Hr']. simpl until_empty. case_decide as Hc.
    + subst. rewrite take_nil in Hd. cbn [read_loop].
      destruct (do_read n b) as [b0 d]. simpl in *. by subst d.
    + simpl in *. rewrite length_app in Hf. destruct (take_nonempty n c Hn Hc) as [_ Hlt].
      apply (read_loop_step _ _ _ (do_read n b).1 c); try done.
      * rewrite <- Hd. by destruct (do_read n b).
      * apply IH; [done|]. rewrite length_app. lia.
  - destruct (do_read_leftover n b rem rx Hr Hne) as [Hd Hr'].
    rewrite length_app in Hf. destruct (take_nonempty n rem Hn Hne) as [_ Hlt].
    apply (read_loop_step _ _ _ (do_read n b).1 rem); try done.
    + rewrite <- Hd. by destruct (do_read n b).
    + apply IH; [done|]. rewrite length_app. lia.
Qed.

Lemma do_read_all_spec b left rx :
  raw_at b left rx ->
  (do_read_all b).2 = left ++ concat rx /\ raw_at (do_read_all b).1 [] [].
Proof.
  intros (s & Hs & Hb & Hl). unfold do_read_all, on_state, read_all. rewrite Hs, Hb, Hl.
  simpl. split; [done|]. by eexists.
Qed.
End raw.

(** * Multipart bodies *)

Section parts.
Context `{FA : FolkApi}.
Implicit Types (b : Bridge) (s : WorkerState).

(** A part as it was uploaded. *)
Record FormPart := mkFormPart {
  fp_name : string;
  fp_filename : option string;
  fp_content_type : option string;
  fp_chunks : list bytes;
}.

Definition fp_header (p : FormPart) : string :=
  part_header (fp_name p) (fp_filename p) (fp_content_type p).
Definition fp_data (p : FormPart) : bytes := concat (fp_chunks p).

Definition encode_data (chunks : list bytes) : list RequestPart := (PartData <$> chunks) ++ [PartEnd].
Definition encode_part (p : FormPart) : list RequestPart :=
  PartStart (fp_name p) (fp_filename p) (fp_content_type p) :: encode_data (fp_chunks p).
Definition encode_parts (ps : list FormPart) : list RequestPart := ps ≫= encode_part.

(** ** The abstract cursor

    The data of the current part not read yet, in the pieces it arrives in, and
    the parts to come. *)
Definition Cursor : Type := list bytes * list FormPart.

Inductive PartOp := OpNext | OpRead (n : nat) | OpReadAll.
Inductive PartResult := ResPart (h : option string) | ResBytes (d : bytes).

(** What each call returns and where it leaves the cursor.  A read never crosses
    the end of a piece: it returns nothing at the end of the part, for a length
    of 0, and once for every empty chunk the part was uploaded with. *)
Definition cursor_op (op : PartOp) (c : Cursor) : Cursor * PartResult :=
  match op, c with
  | OpNext, (_, p :: ps) => ((fp_chunks p, ps), ResPart (Some (fp_header p)))
  | OpNext, (_, []) => (([], []), ResPart None)
  | OpRead n, (piece :: pieces, ps) =>
      ((if decide (drop n piece = []) then pieces else drop n piece :: pieces, ps),
       ResBytes (take n piece))
  | OpRead _, ([], ps) => (([], ps), ResBytes [])
  | OpReadAll, (pieces, ps) => (([], ps), ResBytes (concat pieces))
  end.

Fixpoint cursor_ops (ops : list PartOp) (c : Cursor) : Cursor * list PartResult :=
  match ops with
  | [] => (c, [])
  | op :: ops => let '(c, r) := cursor_op op c in prod_map id (cons r) (cursor_ops ops c)
  end.

(** The bytes a sequence of results holds. *)
Definition returned (rs : list PartResult) : bytes :=
  rs ≫= fun r => match r with ResBytes d => d | ResPart _ => [] end.

Definition is_read (op : PartOp) : bool := match op with OpNext => false | _ => true end.

(** Reads lose and reorder nothing of the current part. *)
Lemma cursor_conserves ops pieces ps :
  forallb is_read ops = true ->
  returned (cursor_ops ops (pieces, ps)).2 ++ concat (cursor_ops ops (pieces, ps)).1.1 = concat pieces.
Proof.
  revert pieces; induction ops as [|op ops IH]; intros pieces Hops; [done|].
  simpl in Hops. apply andb_prop in Hops as [Hop Hops]. cbn [cursor_ops].
  assert (exists pieces' d, cursor_op op (pieces, ps) = ((pieces', ps), ResBytes d)
    /\ d ++ concat pieces' = concat pieces) as (pieces' & d & -> & Hd).
  { destruct op as [|n|]; [done| |].
    - destruct pieces as [|piece pieces]; [by exists [], []|]. eexists _, _. split; [done|].
      case_decide as Hrest; simpl; [|by rewrite (assoc_L (++)), take_drop].
      by rewrite <- (take_drop n piece) at 2; rewrite Hrest, app_nil_r.
    - eexists _, _. split; [done|]. simpl. by rewrite app_nil_r. }
  specialize (IH pieces' Hops). destruct (cursor_ops ops (pieces', ps)) as [c rs]. simpl in *.
  change (returned (ResBytes d :: rs)) with (d ++ returned rs). by rewrite <- (assoc_L (++)), IH.
Qed.

(** ** The implementation *)

Definition part_op (op : PartOp) (b : Bridge) : Bridge * PartResult :=
  match op with
  | OpNext => prod_map id ResPart (do_next_part b)
  | OpRead n => prod_map id ResBytes (do_part_read n b)
  | OpReadAll => prod_map id ResBytes (do_part_read_all b)
  end.

Fixpoint part_ops (ops : list PartOp) (b : Bridge) : Bridge * list PartResult :=
  match ops with
  | [] => (b, [])
  | op :: ops => let '(b, r) := part_op op b in prod_map id (cons r) (part_ops ops b)
  end.

Definition parts_at b (rx : list RequestPart) (left : bytes) (st : PartState) : Prop :=
  exists s, worker b = Some s /\ current_body s = Some (Parts rx)
    /\ current_body_leftover s = left /\ current_part_state s = st.

(** The leftover and the chunks still to come, as pieces. *)
Definition pieces (left : bytes) (chunks : list bytes) : list bytes :=
  if decide (left = []) then chunks else left :: chunks.

(** The concrete cursor represents the abstract one. *)
Inductive represents b : Cursor -> Prop :=
| rep_between st ps :
    st = BeforeFirst \/ st = PartEnded -> parts_at b (encode_parts ps) [] st -> represents b ([], ps)
| rep_in left chunks ps :
    parts_at b (encode_data chunks ++ encode_parts ps) left InPart ->
    represents b (pieces left chunks, ps)
| rep_done : parts_at b [] [] Done -> represents b ([], []).

Lemma parts_at_set b s body left ps :
  parts_at (set_worker (Some (set_body (Some (Parts body)) left ps s)) b) body left ps.
Proof. by eexists. Qed.

Lemma drain_encoded chunks rest : drain_part (encode_data chunks ++ rest) = (rest, true).
Proof. by induction chunks. Qed.

Lemma collect_encoded chunks rest out :
  collect_part (encode_data chunks ++ rest) out = (rest, PartEnded, out ++ concat chunks).
Proof.
  revert out; induction chunks as [|c cs IH]; intros out; simpl; [by rewrite app_nil_r|].
  rewrite IH. by rewrite (assoc_L (++)).
Qed.

(** An operation does what the cursor does. *)
Definition follows (op : PartOp) b (c : Cursor) : Prop :=
  (part_op op b).2 = (cursor_op op c).2 /\ represents (part_op op b).1 (cursor_op op c).1.

Lemma next_part_between b ps st :
  st = BeforeFirst \/ st = PartEnded -> parts_at b (encode_parts ps) [] st -> follows OpNext b ([], ps).
Proof.
  intros Hst (s & Hs & Hb & Hl & Hps). unfold follows; simpl. unfold do_next_part, on_state, next_part.
  rewrite Hs, Hb, Hps. rewrite !decide_False by (destruct Hst; congruence).
  destruct ps as [|p ps]; simpl; (split; [done|]).
  - apply rep_done, parts_at_set.
  - by apply (rep_in _ [] (fp_chunks p)), parts_at_set.
Qed.

Lemma next_part_in b left chunks ps :
  parts_at b (encode_data chunks ++ encode_parts ps) left InPart ->
  follows OpNext b (pieces left chunks, ps).
Proof.
  intros (s & Hs & Hb & Hl & Hps). unfold follows; simpl. unfold do_next_part, on_state, next_part.
  rewrite Hs, Hb, Hps. rewrite decide_False, decide_True, drain_encoded by done. simpl.
  destruct ps as [|p ps]; simpl; (split; [done|]).
  - apply rep_done, parts_at_set.
  - by apply (rep_in _ [] (fp_chunks p)), parts_at_set.
Qed.

Lemma next_part_done b : parts_at b [] [] Done -> follows OpNext b ([], []).
Proof.
  intros (s & Hs & Hb & Hl & Hps). unfold follows; simpl. unfold do_next_part, on_state, next_part.
  rewrite Hs, Hb, Hps. rewrite decide_True by done. simpl. split; [done|].
  apply rep_done. by exists s.
Qed.

(** [split_to(min(length, len))]. *)
Lemma split_min n (l : bytes) : take (Nat.min n (length l)) l = take n l /\ drop (Nat.min n (length l)) l = drop n l.
Proof.
  destruct (Nat.le_ge_cases n (length l)); [by rewrite Nat.min_l|].
  by rewrite Nat.min_r, !take_ge, !drop_ge by lia.
Qed.

Lemma pieces_drop n piece chunks :
  pieces (drop n piece) chunks = if decide (drop n piece = []) then chunks else drop n piece :: chunks.
Proof. done. Qed.

Lemma part_read_in n b left chunks ps :
  parts_at b (encode_data chunks ++ encode_parts ps) left InPart ->
  follows (OpRead n) b (pieces left chunks, ps).
Proof.
  intros (s & Hs & Hb & Hl & Hps). unfold follows; simpl. unfold do_part_read, on_state, part_read.
  rewrite Hs, Hb, Hl, Hps. rewrite decide_True by done. unfold pieces.
  case_decide as Hleft; [destruct left; [clear Hleft|done]|].
  - destruct chunks as [|c cs]; simpl.
    + split; [done|]. eapply rep_between; [by right|apply parts_at_set].
    + destruct (split_min n c) as [-> ->]. split; [done|]. rewrite <- pieces_drop.
      by apply (rep_in _ _ cs), parts_at_set.
  - unfold split_leftover. rewrite Hl. simpl. destruct (split_min n left) as [-> ->].
    split; [done|]. rewrite <- pieces_drop. apply (rep_in _ _ chunks). eexists. by split_and!.
Qed.

Lemma part_read_out op b rx st ps :
  is_read op = true -> st <> InPart -> parts_at b rx [] st ->
  (part_op op b).2 = (cursor_op op ([], ps)).2 /\ parts_at (part_op op b).1 rx [] st
    /\ (cursor_op op ([], ps)).1 = ([], ps).
Proof.
  intros Hop Hst (s & Hs & Hb & Hl & Hps). destruct op as [|n|]; [done|..]; simpl;
    unfold do_part_read, do_part_read_all, on_state, part_read, part_read_all;
    rewrite Hs, Hps; rewrite decide_False by done; simpl; (split_and!; [done|by exists s|done]).
Qed.

Lemma part_read_all_in b left chunks ps :
  parts_at b (encode_data chunks ++ encode_parts ps) left InPart ->
  follows OpReadAll b (pieces left chunks, ps).
Proof.
  intros (s & Hs & Hb & Hl & Hps). unfold follows; simpl. unfold do_part_read_all, on_state, part_read_all.
  rewrite Hs, Hb, Hl, Hps. rewrite decide_True by done. rewrite collect_encoded. simpl. split.
  - f_equal. unfold pieces. by case_decide as Hnil; [rewrite Hnil|].
  - eapply rep_between; [by right|apply parts_at_set].
Qed.

Lemma part_op_refines op b c : represents b c -> follows op b c.
Proof.
  intros [st ps Hst Hat|left chunks ps Hat|Hat]; (destruct (is_read op) eqn:Hop; [|destruct op; try done]).
  - destruct (part_read_out op b (encode_parts ps) st ps) as (H1 & H2 & H3); [done|by destruct Hst; subst|done|].
    split; [done|]. rewrite H3. by eapply rep_between.
  - by eapply next_part_between.
  - destruct op as [|n|]; [done|by apply part_read_in|by apply part_read_all_in].
  - by apply next_part_in.
  - destruct (part_read_out op b [] Done []) as (H1 & H2 & H3); [done..|].
    split; [done|]. rewrite H3. by apply rep_done.
  - by apply next_part_done.
Qed.

Lemma part_ops_refine ops b c :
  represents b c ->
  (part_ops ops b).2 = (cursor_ops ops c).2 /\ represents (part_ops ops b).1 (cursor_ops ops c).1.
Proof.
  revert b c; induction ops as [|op ops IH]; intros b c Hr; [done|].
  destruct (part_op_refines op b c Hr) as [Hres Hr1]. cbn [part_ops cursor_ops].
  destruct (part_op op b) as [b1 r], (cursor_op op c) as [c1 r']. simpl in *. subst r'.
  destruct (IH b1 c1 Hr1) as [Hrs Hr2].
  destruct (part_ops ops b1) as [b2 rs], (cursor_ops ops c1) as [c2 rs']. simpl in *. by subst.
Qed.

(** The state a handler starts in. *)
Lemma represents_start b s req rest ps :
  request_body req = Some (Parts (encode_parts ps)) ->
  represents (set_worker (Some (install_request req (set_task_rx rest s))) b) ([], ps).
Proof. intros Hb. eapply rep_between; [by left|]. eexists. split_and!; [done|done|done|done]. Qed.
End parts.

(** * Properties *)

Section properties.
Context `{FA : FolkApi}.
Implicit Types (b : Bridge).

(** C29. Reading a raw body loses and reorders nothing: after any sequence of
    reads of any lengths, what was returned followed by what is left is the
    body, and no read returns more than it was asked for. *)
Theorem raw_reads_conserve ns b rem rx (Hr : raw_at b rem rx) :
  exists rem' rx', raw_at (do_reads ns b).1 rem' rx'
    /\ concat (do_reads ns b).2 ++ rem' ++ concat rx' = rem ++ concat rx
    /\ Forall2 (fun n d => length d <= n) ns (do_reads ns b).2.
Proof.
  revert b rem rx Hr; induction ns as [|n ns IH]; intros b rem rx Hr; simpl.
  { exists rem, rx. split_and!; [done|done|constructor]. }
  destruct (do_read_step n b rem rx Hr) as (rem1 & rx1 & Hr1 & Hcat & Hlen).
  destruct (do_read n b) as [b1 d]. simpl in *.
  destruct (IH b1 rem1 rx1 Hr1) as (rem2 & rx2 & Hr2 & Hcat2 & Hall).
  destruct (do_reads ns b1) as [b2 ds]. simpl in *. exists rem2, rx2.
  split_and!; [done| |by constructor]. by rewrite <- (assoc_L (++)), Hcat2.
Qed.

(** C28. The loop [while (($d = folk_read($n)) !== "")] terminates, and returns
    what [folk_read_all] returns when no chunk is empty; an empty chunk ends
    it early, with the rest of the body unread. *)
Theorem read_loop_returns_body fuel n b rem rx (Hn : 0 < n) (Hr : raw_at b rem rx)
    (Hfuel : length (rem ++ concat rx) < fuel) :
  (read_loop fuel n b).2 = Some (rem ++ concat (until_empty rx))
  /\ (Forall (.≠ []) rx -> (read_loop fuel n b).2 = Some (do_read_all b).2).
Proof.
  pose proof (read_loop_spec fuel n b rem rx Hn Hr Hfuel) as Hloop. split; [done|].
  intros Hall. rewrite Hloop. destruct (do_read_all_spec b rem rx Hr) as [-> _].
  by rewrite until_empty_all.
Qed.

(** C18. The multipart functions implement a cursor over the uploaded parts, for
    every upload and every sequence of [folk_next_part], [folk_part_read] and
    [folk_part_read_all]: each call returns exactly what the cursor returns.
    Parts come in order with their headers, reads stay within the current part,
    what was not read of a part is skipped, and a read stops at the end of a
    chunk (so an empty chunk reads as the end of the part).  In particular the
    bytes read of the first part, by reads of any lengths, are the beginning of
    its data. *)
Theorem multipart_refines_cursor ops b s req rest ps
    (Hbody : request_body req = Some (Parts (encode_parts ps))) :
  let start := set_worker (Some (install_request req (set_task_rx rest s))) b in
  (part_ops ops start).2 = (cursor_ops ops ([], ps)).2
  /\ forall p ps' reads, ps = p :: ps' -> forallb is_read reads = true ->
       exists unread, returned (part_ops (OpNext :: reads) start).2 ++ unread = fp_data p.
Proof.
  intros start. pose proof (represents_start b s req rest ps Hbody) as Hstart. fold start in Hstart.
  split; [exact (proj1 (part_ops_refine ops start _ Hstart))|]. intros p ps' reads -> Hreads.
  exists (concat (cursor_ops reads (fp_chunks p, ps')).1.1).
  rewrite (proj1 (part_ops_refine (OpNext :: reads) start _ Hstart)). cbn [cursor_ops cursor_op].
  unfold fp_data. rewrite <- (cursor_conserves reads (fp_chunks p) ps' Hreads).
  by destruct (cursor_ops reads (fp_chunks p, ps')).
Qed.

(** The script that lists the parts with their data. *)
Fixpoint parts_loop (fuel : nat) b : option (list (string * bytes)) :=
  match fuel with
  | O => None
  | S fuel =>
      match do_next_part b with
      | (_, None) => Some []
      | (b, Some h) => let '(b, d) := do_part_read_all b in cons (h, d) <$> parts_loop fuel b
      end
  end.

Lemma parts_loop_spec fuel b ps cur :
  represents b (cur, ps) -> length ps < fuel ->
  parts_loop fuel b = Some ((fun p => (fp_header p, fp_data p)) <$> ps).
Proof.
  revert b cur ps; induction fuel as [|fuel IH]; intros b cur ps Hr Hlen; [lia|].
  destruct (part_op_refines OpNext b _ Hr) as [Hs1 Hr1]. simpl in *.
  destruct (do_next_part b) as [b1 h]. destruct ps as [|p ps]; simpl in *; simplify_eq; [done|].
  destruct (part_op_refines OpReadAll b1 _ Hr1) as [Hs2 Hr2]. simpl in *.
  destruct (do_part_read_all b1) as [b2 d]. simpl in *; simplify_eq.
  by rewrite (IH _ _ _ Hr2) by lia.
Qed.

(** C27. Reading every part to its end returns the uploaded form: each part's
    header and the concatenation of its chunks, in order, and nothing else. *)
Theorem multipart_roundtrip fuel b s req rest ps
    (Hbody : request_body req = Some (Parts (encode_parts ps))) (Hfuel : length ps < fuel) :
  parts_loop fuel (set_worker (Some (install_request req (set_task_rx rest s))) b)
    = Some ((fun p => (fp_header p, fp_data p)) <$> ps).
Proof. by apply (parts_loop_spec _ _ _ []), Hfuel; apply represents_start. Qed.

(** A result with nothing in it. *)
Definition empty_result (r : PartResult) : Prop :=
  match r with ResPart h => h = None | ResBytes d => d = [] end.

Lemma part_op_done op b rx left :
  parts_at b rx left Done ->
  empty_result (part_op op b).2 /\ parts_at (part_op op b).1 rx left Done.
Proof.
  intros (s & Hs & Hb & Hl & Hps). destruct op; simpl;
    unfold do_next_part, do_part_read, do_part_read_all, on_state,
      next_part, part_read, part_read_all; rewrite Hs, ?Hb, Hps; simpl;
    (split; [done|]; by exists s).
Qed.

(** The end of a multipart body is final, however the stream got there:
    once [folk_next_part] has returned null on a stream of any shape, cut short
    or out of order, every later call returns nothing. *)
Theorem multipart_end_final ops b rx left st (Hat : parts_at b rx left st)
    (Hend : (do_next_part b).2 = None) :
  Forall empty_result (part_ops ops (do_next_part b).1).2.
Proof.
  assert (exists rx' left', parts_at (do_next_part b).1 rx' left' Done) as (rx' & left' & Hdone).
  { destruct Hat as (s & Hs & Hb & Hl & Hps). revert Hend. unfold do_next_part, on_state, next_part.
    rewrite Hs, Hb, Hps. case_decide; [intros _; simpl; exists rx, left; exists s; by subst|].
    destruct (if decide (st = InPart) then drain_part rx else (rx, true)) as [rx1 []]; simpl;
      [destruct rx1 as [|[] rx1]; simpl; try done|]; intros _; eexists _, _; apply parts_at_set. }
  clear Hat Hend. revert Hdone. generalize (do_next_part b).1 as b'.
  induction ops as [|op ops IH]; intros b' Hdone; simpl; [constructor|].
  destruct (part_op_done op b' rx' left' Hdone) as [Hr Hdone'].
  destruct (part_op op b') as [b2 r]. simpl in *. specialize (IH _ Hdone').
  destruct (part_ops ops b2). by constructor.
Qed.

(** [folk_read] is meant for raw bodies, but hands out what is left of a part
    that was read in pieces. *)
Lemma do_read_leaks_part n b rx left st :
  parts_at b rx left st -> left <> [] -> (do_read n b).2 = take (Nat.min n (length left)) left.
Proof.
  intros (s & Hs & Hb & Hl & Hps) Hne. unfold do_read, on_state, read. rewrite Hs, Hl.
  rewrite decide_False by done. unfold split_leftover. simpl. by rewrite Hl.
Qed.
End properties.

(** * Examples *)

Module Examples.
Import Sample.
Definition req (body : RequestBody) : TaskRequest := {|
  request_id := "r"; method := "upload"; payload := VNull; stream_tx := 0; done_tx := 0;
  request_body := Some body;
|}.
Definition idle_worker : WorkerState := {|
  worker_id := 1; task_rx := []; ready_tx := false; current_stream_tx := None;
  current_done_tx := None; stream_started := false; current_request_id := None;
  current_body := None; current_body_leftover := []; current_part_state := BeforeFirst;
|}.
Definition empty_bridge : Bridge := {|
  worker := None; streams := ∅; dones := ∅; ready_signals := 0; joins := 0; vcwd := None;
|}.
Definition start (body : RequestBody) : Bridge :=
  set_worker (Some (install_request (req body) (set_task_rx [] idle_worker))) empty_bridge.

Definition file : FormPart := {|
  fp_name := "f"; fp_filename := Some "a.txt"; fp_content_type := None;
  fp_chunks := [[x61; x62]; []; [x63]];
|}.
Definition field : FormPart := {|
  fp_name := "g"; fp_filename := None; fp_content_type := None; fp_chunks := [];
|}.
Definition form : list FormPart := [file; field].
End Examples.
Import Sample.

Lemma raw_reads_conserve_witness :
  (do_reads [1; 5; 2] (Examples.start (Raw [[x61; x62]; [x63; x64; x65]]))).2
    = [[x61]; [x62]; [x63; x64]]
  /\ exists rem' rx', concat (do_reads [1; 5; 2] (Examples.start (Raw [[x61; x62]; [x63; x64; x65]]))).2
       ++ rem' ++ concat rx' = [x61; x62; x63; x64; x65].
Proof.
  split; [vm_compute; reflexivity|].
  destruct (raw_reads_conserve [1; 5; 2] (Examples.start (Raw [[x61; x62]; [x63; x64; x65]])) []
    [[x61; x62]; [x63; x64; x65]]) as (rem' & rx' & _ & Hcat & _).
  - eexists. split_and!; reflexivity.
  - exact (ex_intro _ rem' (ex_intro _ rx' Hcat)).
Defined.

Lemma read_loop_returns_body_witness :
  (read_loop 9 2 (Examples.start (Raw [[x61; x62; x63]; [x64]; []; [x65]]))).2
    = Some [x61; x62; x63; x64].
Proof.
  refine (proj1 (read_loop_returns_body 9 2 (Examples.start (Raw [[x61; x62; x63]; [x64]; []; [x65]])) []
    [[x61; x62; x63]; [x64]; []; [x65]] _ _ _)); [lia| |simpl; lia].
  eexists. split_and!; reflexivity.
Defined.

(** The empty chunk reads as the end of the part. *)
Lemma multipart_refines_cursor_witness :
  (part_ops [OpNext; OpRead 5; OpRead 5; OpRead 5; OpNext; OpReadAll; OpNext]
      (Examples.start (Parts (encode_parts Examples.form)))).2
    = [ResPart (Some (fp_header Examples.file)); ResBytes [x61; x62]; ResBytes []; ResBytes [x63];
       ResPart (Some (fp_header Examples.field)); ResBytes []; ResPart None].
Proof.
  exact (proj1 (multipart_refines_cursor [OpNext; OpRead 5; OpRead 5; OpRead 5; OpNext; OpReadAll; OpNext]
    Examples.empty_bridge Examples.idle_worker (Examples.req (Parts (encode_parts Examples.form))) []
    Examples.form eq_refl)).
Defined.

Lemma multipart_roundtrip_witness :
  parts_loop 3 (Examples.start (Parts (encode_parts Examples.form)))
    = Some [(fp_header Examples.file, [x61; x62; x63]); (fp_header Examples.field, [])].
Proof.
  refine (multipart_roundtrip 3 Examples.empty_bridge Examples.idle_worker
    (Examples.req (Parts (encode_parts Examples.form))) [] Examples.form eq_refl _).
  simpl. lia.
Defined.

Lemma multipart_end_final_witness :
  Forall empty_result (part_ops [OpNext; OpRead 3; OpReadAll; OpNext]
    (do_next_part (Examples.start (Parts [PartData [x61]; PartStart "f" None None]))).1).2.
Proof.
  refine (multipart_end_final [OpNext; OpRead 3; OpReadAll; OpNext] _
    [PartData [x61]; PartStart "f" None None] [] BeforeFirst _ _); [|reflexivity].
  eexists. split_and!; reflexivity.
Defined.
