(* ===== verification/ExtRuntime.v ===== *)
(** The extension's runtime ([crates/folk-ext/src/runtime.rs]): where workers
    come from, the handle the supervisor holds on one of them, and the bounded
    task channel between the two.

    [ExtensionRuntime::spawn] is called by every slot supervisor, concurrently.
    It touches shared state three times (the lock around the pre-connected
    channels, twice, and the id counter); [spawn_step] goes from one of these
    accesses to the next, so every interleaving of any number of calls is a run
    of [spawns_step]. *)

From stdpp Require Import pretty.
From S2P Require Import Prelude.
From S2P Require Import Protocol.
From S2P Require Import Collect.
From S2P Require Import Runtime.

(** * Workers *)

(** The sending half of a worker's channels, by the names of the channels. *)
Record WorkerTxSide := mkWorkerTxSide {
  side_task_tx : nat;
  side_ready_rx : nat;
}.

Record ChannelWorkerHandle := mkChannelWorkerHandle {
  worker_id : Z;
  task_tx : option nat;
  ready_rx : option nat;
  thread_handle : option nat;
}.

(** The fields of [ExtensionRuntime], the counter [NEXT_WORKER_ID], and the
    names not yet given to a channel or a thread. *)
Record ExtensionRuntime := mkExtensionRuntime {
  config_count : nat;
  channels : list WorkerTxSide;
  next_worker_id : Z;
  next_name : nat;
}.

Definition fetch_worker_id (rt : ExtensionRuntime) : ExtensionRuntime * Z :=
  ({| config_count := config_count rt; channels := channels rt;
      next_worker_id := wrap32 (next_worker_id rt + 1); next_name := next_name rt |},
   next_worker_id rt).

(** [Vec::pop]. *)
Definition vec_pop {A} (l : list A) : option (list A * A) :=
  match last l with Some x => Some (removelast l, x) | None => None end.

(** ** [spawn] *)

(** Where a call of [spawn] stands. *)
Inductive SpawnPc :=
| SpStart
| SpTake
| SpPop (id : Z)
| SpZts
| SpDone (r : result ChannelWorkerHandle)
| SpPanicked.

(** [cwd] is what [std::env::current_dir()] returns, and [thread] whether the
    system starts the thread, if the step gets there; the panic of
    [.expect("failed to spawn worker thread")] unwinds the caller. *)
Definition spawn_step (cwd : result string) (thread : bool) (pc : SpawnPc) (rt : ExtensionRuntime) :
    ExtensionRuntime * SpawnPc :=
  match pc with
  | SpStart =>
      match channels rt with
      | _ :: _ => (rt, SpTake)
      | [] =>
          if decide (1 < config_count rt) then (rt, SpZts)
          else (rt, SpDone (Err "no workers available and ZTS multi-worker not requested"))
      end
  | SpTake => let '(rt, id) := fetch_worker_id rt in (rt, SpPop id)
  | SpPop id =>
      match vec_pop (channels rt) with
      | Some (rest, side) =>
          ({| config_count := config_count rt; channels := rest;
              next_worker_id := next_worker_id rt; next_name := next_name rt |},
           SpDone (Ok {| worker_id := id; task_tx := Some (side_task_tx side);
                         ready_rx := Some (side_ready_rx side); thread_handle := None |}))
      | None =>
          (rt, SpDone (Err ("no more pre-connected channels (worker " +:+ pretty id +:+ ")")))
      end
  | SpZts =>
      let '(rt, id) := fetch_worker_id rt in
      match context "cannot determine current directory" cwd with
      | Err e => (rt, SpDone (Err e))
      | Ok _ =>
          let n := next_name rt in
          ({| config_count := config_count rt; channels := channels rt;
              next_worker_id := next_worker_id rt; next_name := n + 2 |},
           if thread then
             SpDone (Ok {| worker_id := id; task_tx := Some n; ready_rx := Some (S n);
                           thread_handle := Some n |})
           else SpPanicked)
      end
  | SpDone r => (rt, SpDone r)
  | SpPanicked => (rt, SpPanicked)
  end.

(** A call that is not interrupted; [None] is the panic. *)
Definition spawn (cwd : result string) (thread : bool) (rt : ExtensionRuntime) :
    ExtensionRuntime * option (result ChannelWorkerHandle) :=
  let go '(rt, pc) := spawn_step cwd thread pc rt in
  match go (go (go (rt, SpStart))) with
  | (rt, SpDone r) => (rt, Some r)
  | (rt, _) => (rt, None)
  end.

(** Any number of concurrent calls. *)
Record Spawns := mkSpawns { rt_of : ExtensionRuntime; calls : list SpawnPc }.

Inductive SpawnEvent := EvCall | EvStep (i : nat) (cwd : result string) (thread : bool).

Definition spawns_step (ev : SpawnEvent) (s : Spawns) : option Spawns :=
  match ev with
  | EvCall => Some {| rt_of := rt_of s; calls := calls s ++ [SpStart] |}
  | EvStep i cwd thread =>
      match calls s !! i with
      | None => None
      | Some pc =>
          let '(rt, pc) := spawn_step cwd thread pc (rt_of s) in
          Some {| rt_of := rt; calls := <[i := pc]> (calls s) |}
      end
  end.

(** [ExtensionRuntime::new]; [NEXT_WORKER_ID] starts at 1. *)
Definition ext_new (count : nat) (tx_sides : list WorkerTxSide) (names : nat) : ExtensionRuntime := {|
  config_count := count; channels := tx_sides; next_worker_id := 1; next_name := names;
|}.
Definition spawns_init (count : nat) (tx_sides : list WorkerTxSide) (names : nat) : Spawns :=
  {| rt_of := ext_new count tx_sides names; calls := [] |}.

(** ** The handle *)

(** [recv] is what the blocking task gives: its own failure, or the outcome of
    [rx.recv()]. *)
Definition handle_ready (h : ChannelWorkerHandle) (recv : result (result unit)) :
    ChannelWorkerHandle * result unit :=
  match ready_rx h with
  | None => (h, Ok tt)
  | Some _ =>
      ({| worker_id := worker_id h; task_tx := task_tx h; ready_rx := None;
          thread_handle := thread_handle h |},
       match recv with
       | Err e => Err ("spawn_blocking panicked: " +:+ e)
       | Ok (Err _) => Err "worker died before ready"
       | Ok (Ok _) => Ok tt
       end)
  end.

(** [join] is the blocking task's own outcome. *)
Definition handle_terminate (h : ChannelWorkerHandle) (join : result unit) :
    ChannelWorkerHandle * result unit :=
  ({| worker_id := worker_id h; task_tx := None; ready_rx := ready_rx h; thread_handle := None |},
   match thread_handle h with
   | None => Ok tt
   | Some _ => match join with Ok _ => Ok tt | Err e => Err ("spawn_blocking panicked: " +:+ e) end
   end).

Definition is_recyclable (h : ChannelWorkerHandle) : bool := bool_decide (is_Some (thread_handle h)).

#[export] Instance ChannelWorkerHandle_handle : WorkerHandle ChannelWorkerHandle := {|
  wh_id := worker_id;
  wh_is_recyclable := is_recyclable;
  wh_ready h := (handle_ready h (Ok (Ok tt))).1;
  wh_execute h := h;
  wh_terminate h := (handle_terminate h (Ok tt)).1;
|}.

#[export] Instance ChannelWorkerHandle_laws : WorkerHandleLaws ChannelWorkerHandle.
Proof.
  split; intros [id tx [rx|] th]; done.
Qed.

(** * Spawning: ids and channels *)

Section spawning.

(** The worker id a call holds or has given out, and the pre-connected channel
    it has taken. *)
Definition call_ids (pc : SpawnPc) : list Z :=
  match pc with
  | SpPop id => [id]
  | SpDone (Ok h) => [worker_id h]
  | _ => []
  end.
Definition call_sides (pc : SpawnPc) : list (option nat * option nat) :=
  match pc with
  | SpDone (Ok h) => if is_recyclable h then [] else [(task_tx h, ready_rx h)]
  | _ => []
  end.
Definition side_names (side : WorkerTxSide) : option nat * option nat :=
  (Some (side_task_tx side), Some (side_ready_rx side)).

(** What a call knows about the counter: after a pre-connected channel was
    seen, someone has drawn an id before the channels run out. *)
Definition call_ok (first_drawn : bool) (next : Z) (pc : SpawnPc) : Prop :=
  match pc with
  | SpZts => first_drawn = true -> (2 <= next)%Z
  | SpDone (Ok h) => is_recyclable h = true -> first_drawn = true -> (2 <= worker_id h)%Z
  | _ => True
  end.

Record spawns_inv (tx_sides : list WorkerTxSide) (n : Z) (s : Spawns) : Prop := {
  si_next : (1 <= next_worker_id (rt_of s) <= 1 + n)%Z;
  si_nodup : NoDup (calls s ≫= call_ids);
  si_below : Forall (fun id => (1 <= id < next_worker_id (rt_of s))%Z) (calls s ≫= call_ids);
  si_sides : (side_names <$> channels (rt_of s)) ++ (calls s ≫= call_sides) ≡ₚ side_names <$> tx_sides;
  si_empty : tx_sides <> [] -> channels (rt_of s) = [] -> (2 <= next_worker_id (rt_of s))%Z;
  si_calls : Forall (call_ok (bool_decide (tx_sides <> [])) (next_worker_id (rt_of s))) (calls s);
}.

Lemma spawns_init_inv count tx_sides names : spawns_inv tx_sides 0 (spawns_init count tx_sides names).
Proof. split; simpl; [lia|constructor|constructor|by rewrite app_nil_r|done|constructor]. Qed.

Lemma call_ok_mono b n n' pc : (n <= n')%Z -> call_ok b n pc -> call_ok b n' pc.
Proof. intros Hn. destruct pc; simpl; try done. intros H Hb. specialize (H Hb). lia. Qed.

Lemma vec_pop_Some {A} (l rest : list A) x : vec_pop l = Some (rest, x) -> l = rest ++ [x].
Proof.
  unfold vec_pop. destruct l as [|y l _] using rev_ind; [done|].
  rewrite last_snoc, removelast_last. by intros [= -> ->].
Qed.

Lemma vec_pop_None {A} (l : list A) : vec_pop l = None -> l = [].
Proof. unfold vec_pop. destruct l as [|y l _] using rev_ind; [done|]. by rewrite last_snoc. Qed.

(** One step of one call, seen from the whole. *)
Lemma spawns_inv_step tx_sides n s i pc rt' pc' :
  calls s !! i = Some pc ->
  spawns_inv tx_sides n s ->
  (next_worker_id (rt_of s) <= next_worker_id rt' <= next_worker_id (rt_of s) + 1)%Z ->
  (call_ids pc' = call_ids pc
   \/ (call_ids pc = [] /\ call_ids pc' = [next_worker_id (rt_of s)]
       /\ next_worker_id rt' = (next_worker_id (rt_of s) + 1)%Z)
   \/ call_ids pc' = []) ->
  (side_names <$> channels rt') ++ call_sides pc' ≡ₚ (side_names <$> channels (rt_of s)) ++ call_sides pc ->
  (tx_sides <> [] -> channels rt' = [] -> (2 <= next_worker_id rt')%Z) ->
  call_ok (bool_decide (tx_sides <> [])) (next_worker_id rt') pc' ->
  spawns_inv tx_sides (n + 1) {| rt_of := rt'; calls := <[i := pc']> (calls s) |}.
Proof.
  intros Hi [Hnext Hnd Hbelow Hsides Hempty Hcalls] Hmono Hids Hside He Hok.
  destruct (bind_insert_perm call_ids (calls s) i pc Hi) as (ids & Hp & Hp').
  destruct (bind_insert_perm call_sides (calls s) i pc Hi) as (sides & Hq & Hq').
  assert (Forall (fun id => (1 <= id < next_worker_id (rt_of s))%Z) (call_ids pc ++ ids)) as Hb by by rewrite <- Hp.
  assert (NoDup (call_ids pc ++ ids)) as Hn by by rewrite <- Hp.
  apply Forall_app in Hb as [Hb1 Hb2].
  assert (Forall (fun id => (1 <= id < next_worker_id rt')%Z) ids) as Hb2'
    by (eapply Forall_impl; [exact Hb2|simpl; lia]).
  split; simpl; [lia| | | |done|].
  - rewrite Hp'. destruct Hids as [->|[(Hnil & -> & _)| ->]]; [done| |].
    + rewrite Hnil in Hn. simpl in *. apply NoDup_cons. split; [|done].
      intros Hin. rewrite Forall_forall in Hb2. specialize (Hb2 _ Hin). lia.
    + by apply NoDup_app in Hn as (_ & _ & Hn).
  - rewrite Hp'. apply Forall_app. split; [|done]. destruct Hids as [->|[(Hnil & -> & Heq)| ->]].
    + eapply Forall_impl; [exact Hb1|simpl; lia].
    + constructor; [lia|constructor].
    + constructor.
  - rewrite Hq', (assoc_L (++)), Hside, <- (assoc_L (++)), <- Hq. exact Hsides.
  - apply Forall_insert; [|done]. eapply Forall_impl; [exact Hcalls|]. intros c.
    apply call_ok_mono. lia.
Qed.

Lemma spawns_step_inv tx_sides n ev s s' :
  (n + 1 <= u32_max - 1)%Z -> spawns_inv tx_sides n s -> spawns_step ev s = Some s' ->
  spawns_inv tx_sides (n + 1) s'.
Proof.
  intros Hn Hinv Hstep. pose proof Hinv as [Hnext Hnd Hbelow Hsides Hempty Hcalls].
  destruct ev as [|i cwd thread]; simpl in Hstep; simplify_eq.
  - split; simpl; rewrite ?bind_app; simpl; rewrite ?app_nil_r; [lia|done..|].
    apply Forall_app. split; [done|]. by repeat constructor.
  - destruct (calls s !! i) as [pc|] eqn:Hi; [|done].
    assert (wrap32 (next_worker_id (rt_of s) + 1) = next_worker_id (rt_of s) + 1)%Z as Hw
      by (apply wrap32_small; lia).
    rewrite Forall_forall in Hcalls. pose proof (Hcalls pc (list_elem_of_lookup_2 _ _ _ Hi)) as Hpc.
    destruct pc as [| |id| |r|]; simpl in Hstep.
    + destruct (channels (rt_of s)) as [|side rest] eqn:Hch; [case_decide|]; simplify_eq;
        apply (spawns_inv_step _ _ _ _ _ _ _ Hi Hinv); simpl; rewrite ?Hch; auto; try lia.
      intros Hd%bool_decide_eq_true_1. auto.
    + simplify_eq. apply (spawns_inv_step _ _ _ _ _ _ _ Hi Hinv); simpl; rewrite ?Hw; auto; try lia.
    + destruct (vec_pop (channels (rt_of s))) as [[rest side]|] eqn:Hpop; simplify_eq;
        apply (spawns_inv_step _ _ _ _ _ _ _ Hi Hinv); simpl; auto; try lia.
      * apply vec_pop_Some in Hpop. rewrite Hpop, fmap_app. simpl. by rewrite app_nil_r.
      * intros Ht Hc. assert (id ∈ calls s ≫= call_ids) as Hin.
        { apply list_elem_of_bind. exists (SpPop id). split; [by left|by eapply list_elem_of_lookup_2]. }
        rewrite Forall_forall in Hbelow. specialize (Hbelow _ Hin). simpl in Hbelow. lia.
      * done.
    + destruct cwd as [d|e], thread; simpl in Hstep; simplify_eq;
        apply (spawns_inv_step _ _ _ _ _ _ _ Hi Hinv); simpl; rewrite ?Hw; auto; try lia;
        intros Ht Hc; specialize (Hempty Ht Hc); lia.
    + simplify_eq. apply (spawns_inv_step _ _ _ _ _ _ _ Hi Hinv); auto; lia.
    + simplify_eq. apply (spawns_inv_step _ _ _ _ _ _ _ Hi Hinv); auto; lia.
Qed.

Lemma spawns_run_inv evs count tx_sides names s :
  (Z.of_nat (length evs) <= u32_max - 1)%Z ->
  run spawns_step evs (spawns_init count tx_sides names) = Some s ->
  spawns_inv tx_sides (Z.of_nat (length evs)) s.
Proof.
  intros Hlen Hrun.
  refine (run_invariant_count spawns_step (fun _ => True)
    (fun n s => (n <= u32_max - 1)%Z -> spawns_inv tx_sides n s) _ evs 0 _ _ _ _ Hrun Hlen).
  - intros n ev s1 s2 _ Hinv Hstep Hn. eapply spawns_step_inv; [done| |done]. apply Hinv. lia.
  - by apply Forall_true.
  - intros _. apply spawns_init_inv.
Qed.

(** The handles given out so far. *)
Definition handles (s : Spawns) : list ChannelWorkerHandle :=
  calls s ≫= fun pc => match pc with SpDone (Ok h) => [h] | _ => [] end.

Lemma handles_ids s : sublist (worker_id <$> handles s) (calls s ≫= call_ids).
Proof.
  unfold handles. induction (calls s) as [|pc pcs IH]; [done|].
  rewrite !bind_cons, fmap_app. apply sublist_app; [|done].
  destruct pc as [| |id| |[h|e]|]; simpl; try done. apply sublist_nil_l.
Qed.

(** C33. Concurrent calls of [spawn] give out distinct worker ids, take each
    pre-connected channel pair at most once, and never number a spawned thread
    1, the id that joins the other threads: in any interleaving of up to
    2^32 - 2 steps of a runtime that starts with a pre-connected channel,
    spawns that fail or panic included. *)
Theorem spawn_ids_and_channels evs count tx_sides names s
    (Hrun : run spawns_step evs (spawns_init count tx_sides names) = Some s)
    (Hlen : (Z.of_nat (length evs) <= u32_max - 1)%Z) (Hpre : tx_sides <> []) :
  NoDup (worker_id <$> handles s)
  /\ (exists left, left ++ ((fun h => (task_tx h, ready_rx h)) <$> filter (fun h => is_recyclable h = false) (handles s))
        ≡ₚ side_names <$> tx_sides)
  /\ Forall (fun h => is_recyclable h = true -> worker_id h <> 1%Z) (handles s).
Proof.
  destruct (spawns_run_inv _ _ _ _ _ Hlen Hrun) as [_ Hnd _ Hsides _ Hcalls]. split_and!.
  - eapply sublist_NoDup; [done|apply handles_ids].
  - exists (side_names <$> channels (rt_of s)). rewrite <- Hsides. f_equiv. clear.
    unfold handles. induction (calls s) as [|pc pcs IH]; [done|].
    rewrite !bind_cons, filter_app, fmap_app, IH. f_equiv.
    destruct pc as [| |id| |[h|e]|]; simpl; try done. rewrite filter_cons.
    case_decide as Hd; [by rewrite Hd|]. by apply not_false_is_true in Hd as ->.
  - unfold handles. apply Forall_forall. intros h Hin Hr.
    apply list_elem_of_bind in Hin as (pc & Hin & Hpc). rewrite Forall_forall in Hcalls.
    specialize (Hcalls pc Hpc). destruct pc as [| |id| |[h'|e]|]; try set_solver.
    apply list_elem_of_singleton in Hin as ->. simpl in Hcalls.
    rewrite bool_decide_eq_true_2 in Hcalls by done. specialize (Hcalls Hr eq_refl). lia.
Qed.
End spawning.

(** The check and the pop are two locks: two supervisors that start together can
    both see the one pre-connected channel, and the loser's boot fails although
    it could have spawned a thread.  The winner need not be worker 1. *)
Lemma spawn_race :
  exists s h, run spawns_step
      [EvCall; EvCall; EvStep 0 (Ok "/") true; EvStep 1 (Ok "/") true; EvStep 0 (Ok "/") true; EvStep 1 (Ok "/") true;
       EvStep 1 (Ok "/") true; EvStep 0 (Ok "/") true]
      (spawns_init 4 [{| side_task_tx := 0; side_ready_rx := 1 |}] 2) = Some s
    /\ calls s = [SpDone (Err "no more pre-connected channels (worker 1)"); SpDone (Ok h)]
    /\ worker_id h = 2%Z /\ is_recyclable h = false.
Proof. eexists _, _. split_and!; vm_compute; reflexivity. Qed.

Lemma spawn_ids_and_channels_witness :
  exists s, run spawns_step
      [EvCall; EvStep 0 (Ok "/") true; EvStep 0 (Ok "/") true; EvStep 0 (Ok "/") true; EvCall; EvCall;
       EvStep 1 (Ok "/") true; EvStep 2 (Ok "/") true; EvStep 2 (Ok "/") true; EvStep 1 (Ok "/") true]
      (spawns_init 4 [{| side_task_tx := 0; side_ready_rx := 1 |}] 2) = Some s
    /\ worker_id <$> handles s = [1; 3; 2]%Z /\ NoDup (worker_id <$> handles s).
Proof.
  eexists. split_and!; [vm_compute; reflexivity|vm_compute; reflexivity|].
  refine (proj1 (spawn_ids_and_channels
      [EvCall; EvStep 0 (Ok "/") true; EvStep 0 (Ok "/") true; EvStep 0 (Ok "/") true; EvCall; EvCall;
       EvStep 1 (Ok "/") true; EvStep 2 (Ok "/") true; EvStep 2 (Ok "/") true; EvStep 1 (Ok "/") true]
      4 [{| side_task_tx := 0; side_ready_rx := 1 |}] 2 _ _ _ _)).
  - vm_compute; reflexivity.
  - vm_compute; discriminate.
  - discriminate.
Defined.

(** * The task channel

    [execute_streaming] puts the request on the bounded channel of the worker
    and awaits its completion; the supervisor may give up the await
    ([exec_timeout]) but not the send, which blocks its thread.  The worker takes
    a request, handles it and signals completion. *)

Definition task_capacity : nat := 8.

(** What a call of [execute_streaming] is doing. *)
Inductive CallState :=
| NoCall
| Blocked (req : nat)
| Awaiting (req : nat).

Record TaskQueue := mkTaskQueue {
  queued : list nat;
  working : option nat;
  receiver_gone : bool;
  call : CallState;
  (** What finished calls returned, oldest first; a cancelled call returns
      nothing. *)
  returned : list (result unit);
}.

Definition queue_init : TaskQueue :=
  {| queued := []; working := None; receiver_gone := false; call := NoCall; returned := [] |}.

Inductive QueueEvent :=
| QExecute (req : nat)
| QRoom
| QTimeout
| QRecv
| QDone
| QWorkerGone.

(** [tx.send(..)]: fails without a receiver, blocks on a full channel. *)
Definition send_task (req : nat) (q : TaskQueue) : TaskQueue :=
  if receiver_gone q then
    {| queued := queued q; working := working q; receiver_gone := true; call := NoCall;
       returned := returned q ++ [Err "worker process gone"] |}
  else if decide (length (queued q) < task_capacity) then
    {| queued := queued q ++ [req]; working := working q; receiver_gone := false;
       call := Awaiting req; returned := returned q |}
  else
    {| queued := queued q; working := working q; receiver_gone := false;
       call := Blocked req; returned := returned q |}.

Definition finish_call (r : result unit) (q : TaskQueue) : TaskQueue :=
  {| queued := queued q; working := working q; receiver_gone := receiver_gone q; call := NoCall;
     returned := returned q ++ [r] |}.

(** [execute_streaming] of a handle whose [task_tx] is [tx]. *)
Definition queue_step (tx : option nat) (ev : QueueEvent) (q : TaskQueue) : option TaskQueue :=
  match ev, call q with
  | QExecute req, NoCall =>
      match tx with
      | None => Some (finish_call (Err "worker terminated") q)
      | Some _ => Some (send_task req q)
      end
  | QRoom, Blocked req => Some (send_task req q)
  | QTimeout, Awaiting _ =>
      Some {| queued := queued q; working := working q; receiver_gone := receiver_gone q;
              call := NoCall; returned := returned q |}
  | QRecv, _ =>
      match working q, queued q, receiver_gone q with
      | None, req :: rest, false =>
          Some {| queued := rest; working := Some req; receiver_gone := false; call := call q;
                  returned := returned q |}
      | _, _, _ => None
      end
  | QDone, c =>
      match working q with
      | None => None
      | Some req =>
          let q := {| queued := queued q; working := None; receiver_gone := receiver_gone q;
                      call := call q; returned := returned q |} in
          match c with
          | Awaiting req' => if decide (req = req') then Some (finish_call (Ok tt) q) else Some q
          | _ => Some q
          end
      end
  | QWorkerGone, c =>
      (* the worker thread ends: its receiver and every completion sender drop *)
      let q := {| queued := []; working := None; receiver_gone := true; call := call q;
                  returned := returned q |} in
      match c with
      | Awaiting _ => Some (finish_call (Err "worker dropped done channel") q)
      | _ => Some q
      end
  | _, _ => None
  end.

Section queue.
Context (tx : option nat).

Definition timeouts (evs : list QueueEvent) : nat :=
  length (filter (fun ev => match ev with QTimeout => true | _ => false end = true) evs).

Definition pending (q : TaskQueue) : list nat :=
  queued q ++ match working q with Some req => [req] | None => [] end.
Definition awaited (q : TaskQueue) : list nat :=
  match call q with Awaiting req => [req] | _ => [] end.

(** Each request still with the worker is awaited or was timed out; the awaited
    one is still there; a blocked sender has met a full channel. *)
Definition queue_inv (timed : nat) (q : TaskQueue) : Prop :=
  length (pending q) <= length (awaited q) + timed
  /\ (forall req, call q = Awaiting req -> req ∈ pending q)
  /\ (forall req, call q = Blocked req -> task_capacity <= timed).

Lemma send_task_inv timed req q :
  call q = NoCall \/ call q = Blocked req -> queue_inv timed q -> queue_inv timed (send_task req q).
Proof.
  intros Hcall (Hlen & Haw & Hbl). unfold send_task, queue_inv, pending, awaited in *.
  destruct q as [qd wk gone c ret]; simpl in *.
  assert (length (match c with Awaiting r => [r] | _ => [] end) = 0) as Hz
    by (destruct Hcall; by subst).
  rewrite Hz in Hlen. destruct gone; [|case_decide as Hfull]; simpl.
  - split_and!; [lia|done|done].
  - rewrite !length_app in *. simpl. split_and!; [lia| |done].
    intros r [= <-]. set_solver.
  - split_and!; [lia|done|]. intros r [= <-]. rewrite length_app in Hlen. lia.
Qed.

Lemma queue_step_inv timed ev q q' :
  queue_step tx ev q = Some q' -> queue_inv timed q ->
  queue_inv (timed + timeouts [ev]) q'.
Proof.
  assert (forall timed' q, timed <= timed' -> queue_inv timed q -> queue_inv timed' q) as Hmono.
  { intros timed' q0 Hle (H1 & H2 & H3). split_and!; [lia|done|]. intros r Hr. specialize (H3 r Hr). lia. }
  intros Hstep Hinv. pose proof Hinv as (Hlen & Haw & Hbl).
  destruct q as [qd wk gone c ret]; unfold queue_step in Hstep; simpl in *.
  unfold queue_inv, pending, awaited in *. simpl in *.
  destruct ev; simpl; rewrite ?Nat.add_0_r.
  - destruct c; [|done..]. destruct tx; simplify_eq; [|done].
    apply send_task_inv; [by left|done].
  - destruct c; [done| |done]. simplify_eq. apply send_task_inv; [by right|done].
  - destruct c; [done..|]. simplify_eq. simpl in *. change (timeouts [QTimeout]) with 1.
    split_and!; [lia|done|done].
  - destruct wk, qd, gone; try done. simplify_eq. simpl in *. rewrite !length_app in *. simpl in *.
    split_and!; [lia| |done]. intros r Hr. specialize (Haw r Hr). set_solver.
  - destruct wk as [r|]; [|done]. rewrite length_app in Hlen. simpl in Hlen.
    destruct c as [|r'|r']; [| |case_decide]; simplify_eq; simpl in *; rewrite ?app_nil_r;
      (split_and!; [lia| |done]); try done.
    intros r2 [= <-]. specialize (Haw r' eq_refl). set_solver.
  - destruct c; simplify_eq; simpl; (split_and!; [lia|done|done]).
Qed.

Lemma timeouts_cons ev evs : timeouts (ev :: evs) = timeouts [ev] + timeouts evs.
Proof. unfold timeouts. rewrite !filter_cons. by repeat case_decide. Qed.

Lemma queue_run_inv evs timed q q' :
  run (queue_step tx) evs q = Some q' -> queue_inv timed q -> queue_inv (timed + timeouts evs) q'.
Proof.
  revert timed q; induction evs as [|ev evs IH]; intros timed q Hrun Hinv; simpl in Hrun.
  { simplify_eq. unfold timeouts; simpl. by rewrite Nat.add_0_r. }
  destruct (queue_step tx ev q) as [q1|] eqn:Hstep; [|done].
  rewrite timeouts_cons, Nat.add_assoc. eapply IH; [done|]. by eapply queue_step_inv.
Qed.

(** C34. A supervisor's thread is never blocked by the send of
    [execute_streaming] unless at least eight of its requests timed out before:
    without timeouts the worker holds at most the awaited request, and the
    request awaited is always either queued or being worked on. *)
Theorem send_blocks_only_after_timeouts evs q
    (Hrun : run (queue_step tx) evs queue_init = Some q) :
  (forall req, call q = Blocked req -> task_capacity <= timeouts evs)
  /\ (forall req, call q = Awaiting req -> req ∈ queued q \/ working q = Some req)
  /\ (timeouts evs = 0 -> length (queued q) <= 1).
Proof.
  destruct (queue_run_inv evs 0 queue_init q Hrun) as (Hlen & Haw & Hbl).
  { split_and!; [simpl; lia|done|done]. }
  unfold pending, awaited in *. split_and!; [done| |].
  - intros req Hc. specialize (Haw req Hc). destruct (working q); set_solver.
  - intros Hz. rewrite length_app in Hlen. destruct (call q); simpl in Hlen; lia.
Qed.
End queue.

(** A worker stuck on its first request: each of the next eight requests times
    out in the queue, and the tenth call blocks the thread. *)
Definition stuck_worker : list QueueEvent :=
  [QExecute 0; QRecv; QTimeout] ++ (seq 1 8 ≫= fun n => [QExecute n; QTimeout]) ++ [QExecute 9].

Lemma send_blocks_only_after_timeouts_witness :
  exists q, run (queue_step (Some 0)) stuck_worker queue_init = Some q
    /\ call q = Blocked 9 /\ task_capacity <= timeouts stuck_worker.
Proof.
  eexists. split_and!; [vm_compute; reflexivity|reflexivity|].
  refine (proj1 (send_blocks_only_after_timeouts (Some 0) stuck_worker _ _) 9 _);
    vm_compute; reflexivity.
Defined.

(** * [execute] on a handle

    The chunks go to a local channel of 64 that is drained only after
    [execute_streaming] has returned, which it does when the worker has sent
    everything. *)
Section execute.
Context `{FA : FolkApi} `{HO : !HashOrder}.

Definition stream_capacity : nat := 64.

(** The worker's blocking sends into the channel nobody drains: what got in, and
    whether all did. *)
Fixpoint sends_into (room : nat) (cs : list ResponseChunk) : list ResponseChunk * bool :=
  match cs, room with
  | [], _ => ([], true)
  | _ :: _, O => ([], false)
  | c :: cs, S room => let '(buf, ok) := sends_into room cs in (c :: buf, ok)
  end.

(** [streaming] is how [execute_streaming] fails, when it does; otherwise it
    returns when the worker has sent [cs].  [None]: the call and the worker wait
    for each other. *)
Definition handle_execute (streaming : result unit) (cs : list ResponseChunk) : option (result value) :=
  match streaming with
  | Err e => Some (Err e)
  | Ok _ =>
      match sends_into stream_capacity cs with
      | (buf, true) => Some (collect_stream_to_value buf)
      | (_, false) => None
      end
  end.

Lemma sends_into_spec room cs :
  sends_into room cs = (take room cs, bool_decide (length cs <= room)).
Proof.
  revert room; induction cs as [|c cs IH]; intros [|room]; simpl; try done.
  rewrite IH. f_equal. apply bool_decide_ext. lia.
Qed.

(** [ChannelWorkerHandle::execute] completes exactly for responses of at most
    64 chunks, and then returns what the collector makes of them; a longer
    response deadlocks it. *)
Theorem handle_execute_bound streaming cs :
  handle_execute streaming cs =
    match streaming with
    | Err e => Some (Err e)
    | Ok _ => if decide (length cs <= stream_capacity) then Some (collect_stream_to_value cs) else None
    end.
Proof.
  unfold handle_execute. destruct streaming; [|done]. rewrite sends_into_spec. case_decide as Hlen.
  - by rewrite bool_decide_eq_true_2, take_ge.
  - by rewrite bool_decide_eq_false_2.
Qed.
End execute.
