(* ===== verification/PoolShutdown.v ===== *)
(** The end of the pool: what becomes of its requests, workers and supervisors when
    the last reference to it is dropped. *)

From S2P Require Import Prelude.
From S2P Require Import Config.
From S2P Require Import Protocol.
From S2P Require Import Runtime.
From S2P Require Import ExtRuntime.
From S2P Require Import Supervisor.
From S2P Require Import SupervisorSpec.
From S2P Require Import Dispatch.
From S2P Require Import Pool.
From S2P Require Import PoolSpec.
From S2P Require Import PoolLive.

Section shutdown.
Context `{SJ : SerdeJson} `{WL : WorkerHandleLaws W}.
Context (config : WorkersConfig).

Implicit Types (p : PoolState W) (s : Sup W).




End shutdown.

(** * Example *)

Import Sample PoolSpec.Examples.

Module ShutdownExample.
End ShutdownExample.
Import ShutdownExample.

