(* ===== verification/WorkerThread.v ===== *)
(** A worker thread as the rest of the program meets it: requests arrive on its
    task channel while PHP runs, the sender may be dropped, and the thread may
    die at any point.

    [Bridge] gives the code of one call; here the calls of a handler are single
    steps, so that everything else may happen between any two of them.  The
    steps are those of [run_dispatch_loop] (folk-ext/src/bridge.rs) and the end
    of the thread (folk-ext/src/worker.rs). *)

From S2P Require Import Prelude.
From S2P Require Import Protocol.
From S2P Require Import ExtRuntime.
From S2P Require Import Bridge.
From S2P Require Import BridgeSpec.
From S2P Require Import BridgeProps.
From S2P Require Import BridgeIso.

Section thread.
Context `{FA : FolkApi}.
Context (php : string -> value -> Handler).
Implicit Types (b : Bridge) (s : WorkerState).

(** Where the thread is: before [folk_worker_run], at [task_rx.recv()], in PHP
    with what is left of the handler, or ended. *)
Inductive ThreadPc :=
| TBoot
| TLoop
| TRun (h : Handler)
| TGone.

(** [tasks] is everything ever put on the task channel, each request with the
    number of chunks its caller will take; [tx_gone] says that the sender has
    been dropped. *)
Record Thread := mkThread {
  bridge : Bridge;
  pc : ThreadPc;
  tx_gone : bool;
  tasks : list (TaskRequest * option nat);
}.

Definition goto (p : ThreadPc) (b : Bridge) (t : Thread) : Thread :=
  {| bridge := b; pc := p; tx_gone := tx_gone t; tasks := tasks t |}.

(** A thread that has installed its bridge state. *)
Definition thread_new (id : Z) : Thread :=
  {| bridge := bridge_start id [] (fun _ => None); pc := TBoot; tx_gone := false; tasks := [] |}.

Inductive ThreadEvent :=
| ThSend (req : TaskRequest) (room : option nat)
| ThCloseTx
| ThEnter (root : option string) (chdir_ok : string -> bool)
| ThTake
| ThCall
| ThFinish
| ThExit
| ThDie.

(** The request enters the channel; its two senders are now the worker's. *)
Definition receive_task (req : TaskRequest) (room : option nat) s b : Bridge := {|
  worker := Some (set_task_rx (task_rx s ++ [req]) s);
  streams := <[stream_tx req := fresh_chan room]> (streams b);
  dones := <[done_tx req := DonePending]> (dones b);
  ready_signals := ready_signals b; joins := joins b; vcwd := vcwd b;
|}.

(** [task_rx.recv()] waits: nothing is queued and a sender is left. *)
Definition recv_waits (c : ApiCall) (t : Thread) : bool :=
  match c, worker (bridge t) with
  | CRecv, Some s => bool_decide (task_rx s = []) && negb (tx_gone t)
  | _, _ => false
  end.

Definition thread_step (ev : ThreadEvent) (t : Thread) : option Thread :=
  let b := bridge t in
  match ev, pc t with
  | ThSend req room, (TBoot | TLoop | TRun _) =>
      match worker b with
      | Some s =>
          if tx_gone t then None
          else if decide (length (task_rx s) < task_capacity) then
            Some {| bridge := receive_task req room s b; pc := pc t; tx_gone := false;
                    tasks := tasks t ++ [(req, room)] |}
          else None
      | None => None
      end
  | ThCloseTx, _ =>
      if tx_gone t then None
      else Some {| bridge := b; pc := pc t; tx_gone := true; tasks := tasks t |}
  | ThEnter root chdir_ok, TBoot =>
      match worker b with
      | Some s => Some (goto TLoop (enter_loop root chdir_ok s b) t)
      | None => None
      end
  | ThTake, TLoop =>
      match worker b with
      | Some s =>
          match task_rx s with
          | req :: rest =>
              Some (goto (TRun (php (method req) (payload req))) (accept_request req rest s b).1 t)
          | [] => None
          end
      | None => None
      end
  | ThCall, TRun (HCall c k) =>
      if recv_waits c t then None
      else let '(b, r) := api_call c b in Some (goto (TRun (k r)) b t)
  | ThFinish, TRun (HReturn r) => Some (goto TLoop (finalise r b) t)
  | ThExit, TLoop =>
      match worker b with
      | Some s =>
          if bool_decide (task_rx s = []) && tx_gone t then
            Some (goto TGone (cleanup_worker_state (dispatch_turn php b).1) t)
          else None
      | None => None
      end
  | ThDie, (TBoot | TLoop | TRun _) => Some (goto TGone (cleanup_worker_state b) t)
  | _, _ => None
  end.

(** * A turn, step by step *)

(** The steps of a turn lead where [dispatch_turn] does, and a turn has finitely
    many. *)
Lemma handler_steps h t :
  no_recv h -> pc t = TRun h ->
  exists k, run thread_step (replicate k ThCall ++ [ThFinish]) t = Some (goto TLoop (turn_end h (bridge t)) t).
Proof.
  revert t; induction h as [r|c k IH]; intros t Hno Hpc.
  - exists 0. simpl. by rewrite Hpc.
  - destruct Hno as [Hc Hk]. rewrite turn_end_call.
    destruct (IH (api_call c (bridge t)).2 (goto (TRun (k (api_call c (bridge t)).2)) (api_call c (bridge t)).1 t))
      as (n & Hrun); [apply Hk|done|].
    exists (S n). simpl. rewrite Hpc.
    assert (recv_waits c t = false) as -> by (by destruct c).
    destruct (api_call c (bridge t)) as [b' r]. exact Hrun.
Qed.

Lemma turn_steps t s req rest :
  (forall m p, no_recv (php m p)) -> bridge_inv (bridge t) ->
  pc t = TLoop -> worker (bridge t) = Some s -> current_stream_tx s = None -> task_rx s = req :: rest ->
  exists k, run thread_step (ThTake :: replicate k ThCall ++ [ThFinish]) t
    = Some (goto TLoop (dispatch_turn php (bridge t)).1 t).
Proof.
  intros Hphp Hinv Hpc Hs Hn Hq. rewrite (dispatch_turn_take php _ s req rest) by done.
  destruct (handler_steps (php (method req) (payload req))
    (goto (TRun (php (method req) (payload req))) (accepted (bridge t) s req rest) t)) as (k & Hrun);
    [done..|].
  exists k. cbn [run]. unfold thread_step at 1. rewrite Hpc, Hs, Hq, (accept_idle _ _ _ _ Hinv Hs Hn).
  simpl. rewrite Hrun. unfold turn_end. simpl. by destruct (run_handler _ _).
Qed.

(** * Invariant *)

(** A task's response is what the reference says once its completion has been
    signalled. *)
Definition task_ok b (task : TaskRequest * option nat) : Prop :=
  dones b !! done_tx task.1 = Some DoneSent ->
  streams b !! stream_tx task.1 = response php task.1 task.2.

Definition queued_task b (l : list (TaskRequest * option nat)) (req : TaskRequest) : Prop :=
  exists room, (req, room) ∈ l /\ streams b !! stream_tx req = Some (fresh_chan room).

(** The handler [h] is at the same point of the same request as the rest of
    the reference. *)
Definition serving_reference b (l : list (TaskRequest * option nat)) (h : Handler) : Prop :=
  exists req room b2, (req, room) ∈ l /\ no_recv h /\ related req b b2
    /\ streams (turn_end h b2) !! stream_tx req = response php req room.

Definition pc_inv b (l : list (TaskRequest * option nat)) (p : ThreadPc) : Prop :=
  match p with
  | TGone => True
  | TBoot => bridge_inv b /\ exists q, no_request q b
  | TLoop => bridge_inv b /\ exists s, worker b = Some s /\ ready_tx s = false
               /\ current_stream_tx s = None /\ current_done_tx s = None
  | TRun h => bridge_inv b /\ serving_reference b l h
  end.

Record thread_inv (t : Thread) : Prop := {
  ti_streams : NoDup ((fun task => stream_tx task.1) <$> tasks t);
  ti_dones : NoDup ((fun task => done_tx task.1) <$> tasks t);
  ti_known : (forall sid, is_Some (streams (bridge t) !! sid) -> sid ∈ (fun task => stream_tx task.1) <$> tasks t)
    /\ (forall did, is_Some (dones (bridge t) !! did) -> did ∈ (fun task => done_tx task.1) <$> tasks t);
  ti_pc : pc_inv (bridge t) (tasks t) (pc t);
  ti_queue : forall s, worker (bridge t) = Some s -> Forall (queued_task (bridge t) (tasks t)) (task_rx s);
  ti_tasks : Forall (task_ok (bridge t)) (tasks t);
}.
(** ** Receiving a task *)

Lemma ids_present b s :
  worker_inv b s ->
  (forall sid, sid ∈ stream_ids s -> is_Some (streams b !! sid))
  /\ (forall did, did ∈ done_ids s -> is_Some (dones b !! did)).
Proof.
  intros (_ & _ & Hc & Hq). unfold current_inv, stream_open, stream_ids, done_ids in *.
  rewrite Forall_forall in Hq. split; intros x [Hx|Hx]%elem_of_app.
  - destruct (current_stream_tx s), (current_done_tx s); try done; simpl in Hx; [|by apply elem_of_nil in Hx].
    apply list_elem_of_singleton in Hx as ->. destruct Hc as (_ & (ch & head & -> & _) & _). eauto.
  - apply list_elem_of_fmap in Hx as (req & -> & Hin). destruct (Hq _ Hin) as [(ch & -> & _) _]. eauto.
  - destruct (current_stream_tx s), (current_done_tx s); try done; simpl in Hx; [|by apply elem_of_nil in Hx].
    apply list_elem_of_singleton in Hx as ->. destruct Hc as (_ & _ & ->). eauto.
  - apply list_elem_of_fmap in Hx as (req & -> & Hin). destruct (Hq _ Hin) as [_ ->]. eauto.
Qed.

Lemma receive_task_inv req room s b :
  bridge_inv b -> worker b = Some s -> streams b !! stream_tx req = None -> dones b !! done_tx req = None ->
  bridge_inv (receive_task req room s b).
Proof.
  intros Hinv Hs Hst Hdn. pose proof Hinv as [Hf Hw Hp Ho].
  destruct (ids_present b s (Hw s Hs)) as [Hsids Hdids].
  assert (stream_tx req ∉ stream_ids s) as Hns by (intros Hin; apply Hsids in Hin as [? ?]; congruence).
  assert (done_tx req ∉ done_ids s) as Hnd by (intros Hin; apply Hdids in Hin as [? ?]; congruence).
  destruct (Hw s Hs) as (H1 & H2 & H3 & H4).
  assert (forall A (x : A) l1 l2 y, y ∈ l1 ++ l2 -> y ∈ l1 ++ l2 ++ [x]) as Hgrow by (intros; set_solver).
  split; simpl.
  - intros sid ch [[<- <-]|[_ Hl]]%lookup_insert_Some; [by exists (FOpen false)|by eapply Hf].
  - intros s' [= <-]. unfold worker_inv, stream_ids, done_ids, current_inv, stream_open in *. simpl.
    rewrite !fmap_app, !(assoc_L (++)). split_and!.
    + apply NoDup_app. split_and!; [done| |apply NoDup_singleton]. csimpl. set_solver.
    + apply NoDup_app. split_and!; [done| |apply NoDup_singleton]. csimpl. set_solver.
    + destruct (current_stream_tx s) as [sid|], (current_done_tx s) as [did|]; try done. simpl in *.
      rewrite !lookup_insert_ne by set_solver. done.
    + apply Forall_app. split; [|apply Forall_singleton; unfold queued_ok; simpl; simplify_map_eq; naive_solver].
      rewrite Forall_forall in *. intros req' Hin. unfold queued_ok. simpl.
      rewrite !lookup_insert_ne; [by apply H4| |]; intros Heq; [apply Hnd|apply Hns]; rewrite Heq;
        apply elem_of_app; right; by apply list_elem_of_fmap_2.
  - intros did [[<- _]|[_ Hl]]%lookup_insert_Some; (eexists; split; [done|]);
      unfold done_ids; simpl; rewrite fmap_app; [set_solver|].
    destruct (Hp did Hl) as (s0 & Hs0 & Hin). assert (s0 = s) as -> by congruence. by apply Hgrow.
  - intros sid ch [[<- _]|[_ Hl]]%lookup_insert_Some Hcl; (eexists; split; [done|]);
      unfold stream_ids; simpl; rewrite fmap_app; [set_solver|].
    destruct (Ho sid ch Hl Hcl) as (s0 & Hs0 & Hin). assert (s0 = s) as -> by congruence. by apply Hgrow.
Qed.
(** ** Tearing down *)

Lemma drop_requests_frame q b :
  (forall sid, sid ∉ stream_tx <$> q -> streams (foldl drop_request b q) !! sid = streams b !! sid)
  /\ (forall did, did ∉ done_tx <$> q -> dones (foldl drop_request b q) !! did = dones b !! did)
  /\ (forall did, did ∈ done_tx <$> q -> dones (foldl drop_request b q) !! did = Some DoneDropped).
Proof.
  revert b; induction q as [|req q IH]; intros b; csimpl; [split_and!; set_solver|].
  destruct (IH (drop_request b req)) as (H1 & H2 & H3). split_and!.
  - intros sid Hn. rewrite H1 by set_solver. simpl. rewrite lookup_alter_ne by set_solver. done.
  - intros did Hn. rewrite H2 by set_solver. simpl. rewrite lookup_insert_ne by set_solver. done.
  - intros did Hin. destruct (decide (did ∈ done_tx <$> q)) as [|Hn]; [by apply H3|].
    rewrite H2 by done. apply elem_of_cons in Hin as [->|]; [simpl; by simplify_map_eq|done].
Qed.

Lemma cleanup_frame s b :
  worker b = Some s ->
  (forall sid, sid ∉ stream_ids s -> streams (cleanup_worker_state b) !! sid = streams b !! sid)
  /\ (forall did, did ∉ done_ids s -> dones (cleanup_worker_state b) !! did = dones b !! did)
  /\ (forall did, did ∈ done_ids s -> dones (cleanup_worker_state b) !! did = Some DoneDropped).
Proof.
  intros Hs. unfold cleanup_worker_state. rewrite Hs. simpl.
  destruct (drop_requests_frame (task_rx s) b) as (H1 & H2 & H3).
  unfold stream_ids, done_ids. split_and!.
  - intros sid Hn. destruct (current_stream_tx s), (current_done_tx s); simpl in *;
      rewrite ?lookup_alter_ne by set_solver; apply H1; set_solver.
  - intros did Hn. destruct (current_stream_tx s), (current_done_tx s); simpl in *;
      rewrite ?lookup_insert_ne by set_solver; apply H2; set_solver.
  - intros did Hin. destruct (current_stream_tx s), (current_done_tx s); simpl in *;
      try (by apply H3);
      (apply elem_of_cons in Hin as [->|Hin]; [by rewrite lookup_insert_eq|]);
      match goal with |- <[?d := _]> _ !! _ = _ => destruct (decide (did = d)) as [->|];
        [by rewrite lookup_insert_eq|rewrite lookup_insert_ne by done; by apply H3] end.
Qed.

(** ** Preservation *)

Lemma inv_pc_bridge t b' p' :
  thread_inv t ->
  (forall sid, is_Some (streams b' !! sid) -> is_Some (streams (bridge t) !! sid)
     \/ sid ∈ (fun task => stream_tx task.1) <$> tasks t) ->
  (forall did, is_Some (dones b' !! did) -> is_Some (dones (bridge t) !! did)
     \/ did ∈ (fun task => done_tx task.1) <$> tasks t) ->
  pc_inv b' (tasks t) p' ->
  (forall s', worker b' = Some s' -> Forall (queued_task b' (tasks t)) (task_rx s')) ->
  Forall (task_ok b') (tasks t) ->
  thread_inv (goto p' b' t).
Proof.
  intros [H1 H2 [H3 H3'] _ _ _] Hs Hd Hpc Hq Ht. split; simpl; try done.
  split; intros i Hi; [destruct (Hs i Hi)|destruct (Hd i Hi)]; auto.
Qed.

Lemma known_stream t task :
  task ∈ tasks t -> stream_tx task.1 ∈ (fun task => stream_tx task.1) <$> tasks t.
Proof. intros Hin. by apply (list_elem_of_fmap_2 (fun task => stream_tx task.1)). Qed.

Lemma known_done t task :
  task ∈ tasks t -> done_tx task.1 ∈ (fun task => done_tx task.1) <$> tasks t.
Proof. intros Hin. by apply (list_elem_of_fmap_2 (fun task => done_tx task.1)). Qed.

(** A step of the handler of [req]. *)
Lemma inv_framed t s req room b' p' :
  thread_inv t -> worker (bridge t) = Some s -> (req, room) ∈ tasks t -> framed req s (bridge t) b' ->
  pc_inv b' (tasks t) p' -> task_ok b' (req, room) -> thread_inv (goto p' b' t).
Proof.
  intros Hinv Hs Hin [[Hus Hud] (s' & Hs' & Hq') Hqs] Hpc Hok.
  pose proof Hinv as [Hn1 Hn2 _ _ Hqueue Htasks].
  apply inv_pc_bridge; [done| | |done| |].
  - intros sid Hi. destruct (decide (sid = stream_tx req)) as [->|Hne].
    + right. exact (known_stream t _ Hin).
    + left. rewrite <- Hus; [done|]. csimpl. set_solver.
  - intros did Hi. destruct (decide (did = done_tx req)) as [->|Hne].
    + right. exact (known_done t _ Hin).
    + left. rewrite <- Hud; [done|]. csimpl. set_solver.
  - intros s1 Hs1. assert (s1 = s') as -> by congruence. rewrite Hq'.
    specialize (Hqueue s Hs). rewrite Forall_forall in *. intros req' Hr.
    destruct (Hqueue req' Hr) as (room' & Hin' & Hst). exists room'. by rewrite Hqs.
  - rewrite Forall_forall in *. intros task Htask.
    destruct (decide (stream_tx task.1 = stream_tx req)) as [Heq|Hne].
    + by rewrite (NoDup_fmap_key _ _ _ _ Hn1 Htask Hin Heq).
    + intros Hd. rewrite Hus by (csimpl; set_solver). apply (Htasks task Htask).
      rewrite <- Hud; [done|]. csimpl. rewrite list_elem_of_singleton. intros Heq.
      apply Hne. by rewrite (NoDup_fmap_key _ _ _ _ Hn2 Htask Hin Heq).
Qed.

(** The request being served is all right at every point. *)
Lemma serving_task_ok b h req room b2 :
  bridge_inv b -> no_recv h -> related req b b2 ->
  streams (turn_end h b2) !! stream_tx req = response php req room -> task_ok b (req, room).
Proof.
  intros Hinv Hno [(s & id1 & q1 & id2 & q2 & H1 & H2 & _ & Hon) Hst _] Hend Hd. simpl in *.
  destruct Hon as [[Hs Hdn]|[Hs Hdn]].
  - destruct (bi_worker _ Hinv _ H1) as (_ & _ & Hc & _). unfold current_inv in Hc. simpl in Hc.
    rewrite Hs, Hdn in Hc. destruct Hc as (_ & _ & Hpend). congruence.
  - rewrite Hst, <- Hend. symmetry. f_equal. apply (turn_end_idle h q2); [done|].
    eexists. by split_and!.
Qed.
Context (Hphp : forall m p, no_recv (php m p)).

(** Events that name new channels. *)
Definition fresh_for (t : Thread) (ev : ThreadEvent) : Prop :=
  match ev with
  | ThSend req _ =>
      stream_tx req ∉ (fun task => stream_tx task.1) <$> tasks t
      /\ done_tx req ∉ (fun task => done_tx task.1) <$> tasks t
  | _ => True
  end.

Lemma call_inv t c k :
  thread_inv t -> pc t = TRun (HCall c k) ->
  thread_inv (goto (TRun (k (api_call c (bridge t)).2)) (api_call c (bridge t)).1 t).
Proof.
  intros Hinv Hpc. pose proof (ti_pc _ Hinv) as Hp. rewrite Hpc in Hp.
  destruct Hp as (Hb & req & room & b2 & Hin & [Hc Hk] & Hrel & Hend).
  destruct (api_call_related c req _ _ Hc Hrel) as [Hrel' Hres].
  pose proof (api_call_inv c _ Hb) as Hb'. rewrite turn_end_call, <- Hres in Hend.
  pose proof Hrel as [(s & id1 & q1 & id2 & q2 & H1 & _ & _ & Hon) _ _].
  eapply (inv_framed t _ req room); [done|exact H1|done|by apply call_framed| |].
  - split; [done|]. exists req, room, (api_call c b2).1. by split_and!.
  - eapply serving_task_ok; [done|apply Hk|done|done].
Qed.

Lemma thread_finish_inv t r :
  thread_inv t -> pc t = TRun (HReturn r) -> thread_inv (goto TLoop (finalise r (bridge t)) t).
Proof.
  intros Hinv Hpc. pose proof (ti_pc _ Hinv) as Hp. rewrite Hpc in Hp.
  destruct Hp as (Hb & req & room & b2 & Hin & _ & Hrel & Hend).
  pose proof (finalise_inv r _ Hb) as Hb'.
  destruct (finalise_related req r _ _ Hrel) as [_ Hst _].
  pose proof Hrel as [(s & id1 & q1 & id2 & q2 & H1 & _ & Hr & Hon) _ _].
  eapply (inv_framed t _ req room); [done|exact H1|done|by apply finalise_framed| |].
  - split; [done|]. rewrite (finalise_worker r _ _ H1). eexists. by split_and!.
  - intros _. simpl. by rewrite Hst.
Qed.

Lemma take_inv t s req rest :
  thread_inv t -> pc t = TLoop -> worker (bridge t) = Some s -> task_rx s = req :: rest ->
  thread_inv (goto (TRun (php (method req) (payload req))) (accept_request req rest s (bridge t)).1 t).
Proof.
  intros Hinv Hpc Hs Hq. pose proof (ti_pc _ Hinv) as Hp. rewrite Hpc in Hp.
  destruct Hp as (Hb & s0 & Hs0 & Hr & Hn & Hnd). assert (s0 = s) as -> by congruence.
  rewrite (accept_idle _ _ _ _ Hb Hs Hn). simpl.
  pose proof (ti_queue _ Hinv s Hs) as Hall. rewrite Hq in Hall.
  apply Forall_cons in Hall as [(room & Hin & Hst) Hrest].
  destruct (bi_worker _ Hb s Hs) as (_ & _ & _ & Hqueued). rewrite Hq in Hqueued.
  apply Forall_cons in Hqueued as [[_ Hdn] _].
  apply inv_pc_bridge; simpl; [done|by left|by left| | |apply Hinv].
  - split; [by destruct (accepted_facts (bridge t) _ s req rest Hb Hs Hn Hq)|].
    exists req, room, (reference_start req room). split_and!; [done|done| |by rewrite response_turn].
    split; simpl.
    + exists (install_request req (set_task_rx rest s)), (worker_id s), rest, 0%Z, [].
      split_and!; [done|f_equal; unfold reseat; simpl; by rewrite Hr|done|by left].
    + by rewrite Hst, lookup_insert_eq.
    + by rewrite Hdn, lookup_insert_eq.
  - intros s' [= <-]. done.
Qed.

(** The names the worker holds are those of tasks. *)
Lemma held_tasks t s :
  thread_inv t -> pc t <> TGone -> worker (bridge t) = Some s ->
  (forall sid, sid ∈ stream_ids s -> exists task, task ∈ tasks t /\ stream_tx task.1 = sid
     /\ done_tx task.1 ∈ done_ids s)
  /\ (forall did, did ∈ done_ids s -> exists task, task ∈ tasks t /\ done_tx task.1 = did).
Proof.
  intros Hinv Hpc Hs. pose proof (ti_queue _ Hinv s Hs) as Hq. rewrite Forall_forall in Hq.
  assert ((current_stream_tx s = None /\ current_done_tx s = None)
    \/ exists task, task ∈ tasks t /\ current_stream_tx s = Some (stream_tx task.1)
         /\ current_done_tx s = Some (done_tx task.1)) as Hcur.
  { pose proof (ti_pc _ Hinv) as Hp. destruct (pc t); simpl in Hp; [| | |done].
    - destruct Hp as (_ & q & s' & Hs' & ? & ? & _). left. assert (s' = s) as -> by congruence. done.
    - destruct Hp as (_ & s' & Hs' & _ & ? & ?). left. assert (s' = s) as -> by congruence. done.
    - destruct Hp as (_ & req & room & b2 & Hin & _ & [(s' & id1 & q1 & id2 & q2 & H1 & _ & _ & Hon) _ _] & _).
      assert (reseat id1 q1 s' = s) as <- by congruence. destruct Hon as [[? ?]|[? ?]]; [right|by left].
      by exists (req, room). }
  unfold stream_ids, done_ids. split; intros i [Hi|Hi]%elem_of_app.
  - destruct Hcur as [[Hn _]|(task & Hin & Hsid & Hdid)]; [rewrite Hn in Hi; by apply elem_of_nil in Hi|].
    rewrite Hsid in Hi. apply list_elem_of_singleton in Hi as ->. exists task. split_and!; [done..|].
    rewrite Hdid. by left.
  - apply list_elem_of_fmap in Hi as (req & -> & Hr). destruct (Hq req Hr) as (room & Hin & _).
    exists (req, room). split_and!; [done..|]. apply elem_of_app. right. by apply list_elem_of_fmap_2.
  - destruct Hcur as [[_ Hn]|(task & Hin & Hsid & Hdid)]; [rewrite Hn in Hi; by apply elem_of_nil in Hi|].
    rewrite Hdid in Hi. apply list_elem_of_singleton in Hi as ->. by exists task.
  - apply list_elem_of_fmap in Hi as (req & -> & Hr). destruct (Hq req Hr) as (room & Hin & _).
    by exists (req, room).
Qed.

(** The end of the thread: what has been answered stays as it is. *)
Lemma cleanup_inv t s b :
  thread_inv t -> pc t <> TGone -> worker (bridge t) = Some s ->
  worker b = Some s -> streams b = streams (bridge t) -> dones b = dones (bridge t) ->
  thread_inv (goto TGone (cleanup_worker_state b) t).
Proof.
  intros Hinv Hpc Hs Hsb Hst Hdn. destruct (held_tasks t s Hinv Hpc Hs) as [Hhs Hhd].
  destruct (cleanup_frame s b Hsb) as (H1 & H2 & H3).
  pose proof Hinv as [Hn1 Hn2 _ _ _ Htasks].
  apply inv_pc_bridge; [done| | |done| |].
  - intros sid Hi. destruct (decide (sid ∈ stream_ids s)) as [Hin|Hin].
    + right. destruct (Hhs sid Hin) as (task & Ht & <- & _). by apply known_stream.
    + left. by rewrite <- Hst, <- H1.
  - intros did Hi. destruct (decide (did ∈ done_ids s)) as [Hin|Hin].
    + right. destruct (Hhd did Hin) as (task & Ht & <-). by apply known_done.
    + left. by rewrite <- Hdn, <- H2.
  - unfold cleanup_worker_state. by rewrite Hsb.
  - rewrite Forall_forall in *. intros task Ht Hd.
    destruct (decide (done_tx task.1 ∈ done_ids s)) as [Hin|Hin]; [rewrite H3 in Hd by done; done|].
    rewrite H2, Hdn in Hd by done. rewrite H1, Hst; [by apply Htasks|].
    intros Hsid. destruct (Hhs _ Hsid) as (task' & Ht' & Heq & Hd').
    by rewrite (NoDup_fmap_key _ _ _ _ Hn1 Ht' Ht Heq) in Hd'.
Qed.

Lemma thread_send_inv t s req room :
  thread_inv t -> pc t <> TGone -> worker (bridge t) = Some s -> fresh_for t (ThSend req room) ->
  thread_inv {| bridge := receive_task req room s (bridge t); pc := pc t; tx_gone := false;
                tasks := tasks t ++ [(req, room)] |}.
Proof.
  intros [Hn1 Hn2 [Hk1 Hk2] Hp Hq Ht] Hpc Hs [Hf1 Hf2].
  assert (streams (bridge t) !! stream_tx req = None) as Hns.
  { destruct (streams (bridge t) !! stream_tx req) eqn:E; [|done]. destruct Hf1. by apply Hk1. }
  assert (dones (bridge t) !! done_tx req = None) as Hnd.
  { destruct (dones (bridge t) !! done_tx req) eqn:E; [|done]. destruct Hf2. by apply Hk2. }
  assert (forall task, task ∈ tasks t -> stream_tx task.1 <> stream_tx req /\ done_tx task.1 <> done_tx req) as Hne.
  { intros task Hin. split; intros Heq; [apply Hf1|apply Hf2]; rewrite <- Heq;
      [by apply (known_stream t)|by apply (known_done t)]. }
  pose proof (fun Hb => receive_task_inv req room s (bridge t) Hb Hs Hns Hnd) as Hrecv.
  split; simpl.
  - rewrite fmap_app. apply NoDup_app. split_and!; [done| |apply NoDup_singleton]. csimpl. set_solver.
  - rewrite fmap_app. apply NoDup_app. split_and!; [done| |apply NoDup_singleton]. csimpl. set_solver.
  - rewrite !fmap_app. csimpl. split; intros i Hi; apply elem_of_app.
    + destruct (decide (i = stream_tx req)) as [->|Hni]; [right; by left|left].
      rewrite lookup_insert_ne in Hi by done. auto.
    + destruct (decide (i = done_tx req)) as [->|Hni]; [right; by left|left].
      rewrite lookup_insert_ne in Hi by done. auto.
  - destruct (pc t); simpl in *; [| | |done].
    + destruct Hp as (Hb & q & s' & Hs' & H1 & H2 & _). split; [auto|].
      assert (s' = s) as -> by congruence. eexists _, _. by split_and!.
    + destruct Hp as (Hb & s' & Hs' & H1 & H2 & H3). split; [auto|].
      assert (s' = s) as -> by congruence. eexists. by split_and!.
    + destruct Hp as (Hb & req' & room' & b2 & Hin & Hno & [(s' & id1 & q1 & id2 & q2 & H1 & H2 & Hr & Hon) Hst Hdn] & Hend).
      split; [auto|]. exists req', room', b2. split_and!; [apply elem_of_app; by left|done| |done].
      destruct (Hne _ Hin) as [Hne1 Hne2]. simpl in *. split; simpl.
      * assert (s = reseat id1 q1 s') as -> by congruence.
        exists s', id1, (q1 ++ [req]), id2, q2. by split_and!.
      * by rewrite lookup_insert_ne.
      * by rewrite lookup_insert_ne.
  - intros s' [= <-]. simpl. apply Forall_app. split.
    + specialize (Hq s Hs). rewrite Forall_forall in *. intros req' Hr.
      destruct (Hq req' Hr) as (room' & Hin & Hst). exists room'. split; [apply elem_of_app; by left|].
      simpl. rewrite lookup_insert_ne; [done|]. intros Heq. by destruct (Hne _ Hin).
    + apply Forall_singleton. exists room. split; [apply elem_of_app; right; by left|].
      simpl. by rewrite lookup_insert_eq.
  - apply Forall_app. split.
    + rewrite Forall_forall in *. intros task Hin. destruct (Hne _ Hin). unfold task_ok. simpl.
      rewrite !lookup_insert_ne by done. by apply Ht.
    + apply Forall_singleton. intros Hd. simpl in Hd. by rewrite lookup_insert_eq in Hd.
Qed.

Lemma thread_step_inv ev t t' :
  thread_inv t -> fresh_for t ev -> thread_step ev t = Some t' -> thread_inv t'.
Proof.
  intros Hinv Hfresh Hstep. unfold thread_step in Hstep.
  destruct ev as [req room| |root chdir_ok| | | | |].
  - destruct (worker (bridge t)) as [s|] eqn:Hs; [|by destruct (pc t)].
    assert (pc t <> TGone) by (by intros Heq; rewrite Heq in Hstep).
    destruct (pc t) eqn:Hpc, (tx_gone t); try done; case_decide; simplify_eq;
      pose proof (thread_send_inv t s req room Hinv) as Hsend; rewrite Hpc in Hsend; by apply Hsend.
  - destruct (tx_gone t); simplify_eq. by destruct Hinv.
  - destruct (pc t) eqn:Hpc; try done. destruct (worker (bridge t)) as [s|] eqn:Hs; [|done]. simplify_eq.
    destruct (enter_loop_fields root chdir_ok s (bridge t) Hs) as (Hw & Hst & Hdn).
    pose proof Hinv as [_ _ _ Hp Hq Ht]. rewrite Hpc in Hp.
    destruct Hp as (Hb & q & s' & Hs' & H1 & H2 & _). assert (s' = s) as -> by congruence.
    apply inv_pc_bridge; [done|rewrite Hst; by left|rewrite Hdn; by left| | |].
    + split; [by apply enter_loop_inv|]. exists (set_ready_tx false s). by split_and!.
    + intros s1 Hs1. rewrite Hw in Hs1. injection Hs1 as <-. simpl. unfold queued_task. rewrite Hst.
      exact (Hq s Hs).
    + unfold task_ok. by rewrite Hst, Hdn.
  - destruct (pc t) eqn:Hpc; try done. destruct (worker (bridge t)) as [s|] eqn:Hs; [|done].
    destruct (task_rx s) as [|req rest] eqn:Hq; [done|]. simplify_eq. by apply take_inv.
  - destruct (pc t) as [| |[r|c k]|] eqn:Hpc; try done. destruct (recv_waits c t); [done|].
    pose proof (call_inv t c k Hinv Hpc) as Hc. destruct (api_call c (bridge t)) as [b r]. by simplify_eq.
  - destruct (pc t) as [| |[r|c k]|] eqn:Hpc; try done. simplify_eq. by apply thread_finish_inv.
  - destruct (pc t) eqn:Hpc; try done. destruct (worker (bridge t)) as [s|] eqn:Hs; [|done].
    destruct (decide (task_rx s = [])) as [Hq|Hq]; [|by rewrite bool_decide_eq_false_2 in Hstep].
    case_match; [|done]. simplify_eq.
    apply (cleanup_inv t s); [done|by rewrite Hpc|done| | |];
      unfold dispatch_turn, se_bind, get_state, se_modify, se_ret; rewrite Hs, Hq;
      by case_decide.
  - assert (pc t <> TGone) by (by intros Heq; rewrite Heq in Hstep).
    assert (exists s, worker (bridge t) = Some s) as [s Hs].
    { pose proof (ti_pc _ Hinv) as Hp. destruct (pc t); simpl in Hp; [| | |done].
      - destruct Hp as (_ & q & s & ? & _). eauto.
      - destruct Hp as (_ & s & ? & _). eauto.
      - destruct Hp as (_ & req & room & b2 & _ & _ & [(s' & id1 & q1 & _ & _ & ? & _) _ _] & _). eauto. }
    destruct (pc t) eqn:Hpc; simplify_eq; try done; eapply cleanup_inv; rewrite ?Hpc; done.
Qed.
Lemma thread_new_inv id : thread_inv (thread_new id).
Proof.
  split; simpl; [constructor|constructor|split; intros ? [? ?]; done| |by intros s [= <-]|constructor].
  split; [apply bridge_start_inv; split; constructor|]. eexists _, _. by split_and!.
Qed.

Lemma thread_step_tasks ev t t' :
  thread_step ev t = Some t' ->
  tasks t' = tasks t ++ match ev with ThSend req room => [(req, room)] | _ => [] end.
Proof.
  intros Hstep. unfold thread_step in Hstep. destruct ev; rewrite ?app_nil_r;
    repeat case_match; by simplify_eq.
Qed.

Lemma thread_run_tasks evs t t' : run thread_step evs t = Some t' -> exists l, tasks t' = tasks t ++ l.
Proof.
  revert t; induction evs as [|ev evs IH]; intros t Hrun; simpl in Hrun.
  { simplify_eq. exists []. by rewrite app_nil_r. }
  destruct (thread_step ev t) as [t1|] eqn:Hstep; [|done].
  destruct (IH t1 Hrun) as [l ->]. rewrite (thread_step_tasks _ _ _ Hstep), <- (assoc_L (++)). eauto.
Qed.

Lemma thread_run_inv evs t t' :
  thread_inv t -> run thread_step evs t = Some t' ->
  NoDup ((fun task => stream_tx task.1) <$> tasks t') -> NoDup ((fun task => done_tx task.1) <$> tasks t') ->
  thread_inv t'.
Proof.
  revert t; induction evs as [|ev evs IH]; intros t Hinv Hrun Hn1 Hn2; simpl in Hrun; [by simplify_eq|].
  destruct (thread_step ev t) as [t1|] eqn:Hstep; [|done].
  apply (IH t1); try done. apply (thread_step_inv ev t); [done| |done].
  destruct (thread_run_tasks _ _ _ Hrun) as [l Hl]. destruct ev; try done.
  rewrite Hl, (thread_step_tasks _ _ _ Hstep) in Hn1, Hn2. rewrite !fmap_app in Hn1, Hn2.
  apply NoDup_app in Hn1 as (Hn1 & _), Hn2 as (Hn2 & _).
  apply NoDup_app in Hn1 as (_ & Hn1 & _), Hn2 as (_ & Hn2 & _). csimpl in *.
  split; intros Hin; [apply Hn1 in Hin|apply Hn2 in Hin]; set_solver.
Qed.

(** * Property *)

(** C8. A worker serves every request as if it were its only one: whatever else
    is queued, arrives or times out meanwhile, and wherever the calls of PHP are
    interrupted, once a request's completion is signalled its response channel
    holds exactly what a fresh worker would have sent for this request alone,
    and neither later requests nor the end of the thread change it. *)
Theorem worker_serves_each_alone evs id t req room
    (Hrun : run thread_step evs (thread_new id) = Some t)
    (Hstreams : NoDup ((fun task => stream_tx task.1) <$> tasks t))
    (Hdones : NoDup ((fun task => done_tx task.1) <$> tasks t))
    (Hin : (req, room) ∈ tasks t) (Hdone : dones (bridge t) !! done_tx req = Some DoneSent) :
  streams (bridge t) !! stream_tx req = response php req room.
Proof.
  destruct (thread_run_inv _ _ _ (thread_new_inv id) Hrun Hstreams Hdones) as [_ _ _ _ _ Ht].
  rewrite Forall_forall in Ht. exact (Ht _ Hin Hdone).
Qed.
End thread.

(** * Example *)

Module Examples.
Import Sample.
Definition first : TaskRequest := BridgeProps.Examples.req "get" 0.
Definition second : TaskRequest := BridgeProps.Examples.req "stream" 1.

(** The second request arrives while PHP handles the first, and the thread dies
    while it handles the second. *)
Definition evs : list ThreadEvent :=
  [ThEnter None (fun _ => true); ThSend first None; ThTake; ThCall; ThSend second (Some 1); ThFinish;
   ThTake; ThCall; ThCall; ThDie].
Definition after : Thread :=
  default (thread_new 2) (run (thread_step BridgeProps.Examples.php) evs (thread_new 2)).
End Examples.
Import Sample.

Lemma worker_serves_each_alone_witness :
  streams (bridge Examples.after) !! 0 = response BridgeProps.Examples.php Examples.first None
  /\ dones (bridge Examples.after) !! 1 = Some DoneDropped.
Proof.
  split; [|vm_compute; reflexivity].
  apply (worker_serves_each_alone BridgeProps.Examples.php BridgeProps.Examples.php_no_recv
    Examples.evs 2 Examples.after Examples.first None).
  - vm_run.
  - apply (bool_decide_unpack _); vm_compute; exact I.
  - apply (bool_decide_unpack _); vm_compute; exact I.
  - by left.
  - vm_compute; reflexivity.
Defined.
