(* ===== verification/ThreadLive.v ===== *)
(** Why a worker thread never stalls.

    Left to itself, a thread takes finitely many steps; when it takes none, it
    has ended, or it waits at [task_rx.recv()] of an empty channel whose sender
    is alive; and every request it was ever sent has, or will have, its
    completion: signalled, or dropped by the end of the thread. *)

From S2P Require Import Prelude.
From S2P Require Import Protocol.
From S2P Require Import ExtRuntime.
From S2P Require Import Bridge.
From S2P Require Import BridgeSpec.
From S2P Require Import BridgeProps.
From S2P Require Import BridgeIso.
From S2P Require Import WorkerThread.

Section live.
Context `{FA : FolkApi}.
Context (php : string -> value -> Handler).
Implicit Types (b : Bridge) (s : WorkerState) (t : Thread).

(** * What no call undoes *)

Definition queue b : nat := match worker b with Some s => length (task_rx s) | None => 0 end.

(** The queue does not grow, the ready signals stay, and all that happens to a
    completion channel is its signal. *)
Record evolves b b' : Prop := {
  ev_queue : queue b' <= queue b;
  ev_signals : ready_signals b <= ready_signals b';
  ev_dones : forall did, dones b' !! did = dones b !! did \/ dones b' !! did = Some DoneSent;
}.

#[local] Instance evolves_preorder : PreOrder evolves.
Proof.
  split; [intros b; split; auto|]. intros b1 b2 b3 [H1 H2 H3] [H4 H5 H6]. split; [lia|lia|].
  intros did. destruct (H6 did) as [->|]; auto.
Qed.

Lemma evolves_put s s' b :
  worker b = Some s -> length (task_rx s') <= length (task_rx s) -> evolves b (set_worker (Some s') b).
Proof. intros Hs Hle. split; [|done|by left]. unfold queue. simpl. by rewrite Hs. Qed.

Lemma evolves_put_same s s' b :
  worker b = Some s -> task_rx s' = task_rx s -> evolves b (set_worker (Some s') b).
Proof. intros Hs Heq. apply (evolves_put s); [done|by rewrite Heq]. Qed.

Lemma evolves_signal b0 b : evolves b0 b -> evolves b0 (signal_ready b).
Proof. intros He. etransitivity; [exact He|]. split; [done|simpl; lia|by left]. Qed.

Lemma evolves_send_all b0 sid cs b : evolves b0 b -> evolves b0 (send_all sid cs b).
Proof.
  intros He. etransitivity; [exact He|].
  destruct (send_all_frame sid cs b) as [Hw Hd], (send_all_signalled sid cs b) as [Hr _].
  split; [unfold queue; by rewrite Hw|by rewrite Hr|rewrite Hd; by left].
Qed.

Lemma evolves_send b0 sid c b : evolves b0 b -> evolves b0 (blocking_send sid c b).1.
Proof. exact (evolves_send_all b0 sid [c] b). Qed.

Lemma evolves_sent b0 sid c b b' r : blocking_send sid c b = (b', r) -> evolves b0 b -> evolves b0 b'.
Proof. intros Heq He. pose proof (evolves_send b0 sid c b He) as Hs. by rewrite Heq in Hs. Qed.

Lemma evolves_drop_stream b0 sid b : evolves b0 b -> evolves b0 (drop_stream sid b).
Proof. intros He. etransitivity; [exact He|by split; [..|left]]. Qed.

Lemma evolves_done_send b0 did b : evolves b0 b -> evolves b0 (done_send did b).
Proof.
  intros He. etransitivity; [exact He|]. split; [done..|]. intros i. simpl.
  destruct (decide (i = did)) as [->|Hne]; [right; apply lookup_insert_eq|left; by apply lookup_insert_ne].
Qed.

#[local] Hint Resolve evolves_put_same evolves_signal evolves_send_all evolves_send evolves_sent
  evolves_drop_stream evolves_done_send : live.
#[local] Hint Extern 0 (evolves ?b ?b) => reflexivity : live.

Lemma evolves_on_state {A} (none : A) f b :
  (forall s, only_body s (f s).1) -> evolves b (on_state none f b).1.
Proof.
  intros Hf. unfold on_state. destruct (worker b) as [s|] eqn:Hs; [|done].
  destruct (Hf s) as (body & left & ps & Heq & _). destruct (f s) as [s' a]. simpl in *. subst s'.
  eauto with live.
Qed.

Lemma evolves_finalise r b : evolves b (finalise r b).
Proof.
  unfold finalise. destruct (worker b) as [s|] eqn:Hs; [|done].
  destruct (current_stream_tx s), (current_done_tx s), (stream_started s); eauto 10 with live.
Qed.

(** No call of PHP undoes any of it; [folk_worker_recv] is for another loop. *)
Lemma api_call_evolves c b : c <> CRecv -> evolves b (api_call c b).1.
Proof.
  intros Hc. destruct c; simpl; try done; try reflexivity; try (apply evolves_on_state;
    first [apply read_body|apply read_all_body|apply next_part_body|apply part_read_body|apply part_read_all_body]).
  all: unfold do_ready, do_send, do_send_error, do_write_head, do_write, do_write_end; bridge_unfold;
    destruct (worker b) as [s|] eqn:Hs; repeat case_match; simplify_eq/=; eauto 10 with live.
Qed.

Lemma api_call_queue c b : queue (api_call c b).1 <= queue b.
Proof.
  assert (c = CRecv \/ c <> CRecv) as [->|Hc] by (destruct c; auto); [|by apply api_call_evolves].
  simpl. unfold do_recv, se_bind, get_state. destruct (worker b) as [s|] eqn:Hs; [|done].
  destruct (task_rx s) as [|req rest] eqn:Hq; [done|]. unfold queue.
  change (match worker (accept_request req rest s b).1 with Some s => length (task_rx s) | None => 0 end
    <= match worker b with Some s => length (task_rx s) | None => 0 end).
  destruct (accept_fields req rest s b) as (-> & _). rewrite Hs, Hq. simpl. lia.
Qed.

(** ** The dispatch loop returns

    Whatever its handlers do, [folk_worker_recv] included, a loop with more fuel
    than there are requests comes to its end, and it fails only outside a worker. *)

Lemma api_call_worker c b : is_Some (worker b) -> is_Some (worker (api_call c b).1).
Proof.
  intros [s Hs].
  destruct c; simpl; try (by rewrite Hs); 
    try (unfold do_read, do_read_all, do_next_part, do_part_read, do_part_read_all, on_state; rewrite Hs; by case_match).
  2:{ unfold do_recv, se_bind, get_state. rewrite Hs. destruct (task_rx s) as [|req rest]; [by eexists|].
      destruct (accept_fields req rest s b) as (Hw & _).
      destruct (accept_request _ _ _ b) as [b' []]; simpl in *; rewrite Hw; by eexists. }
  all: unfold do_ready, do_send, do_send_error, do_write_head, do_write, do_write_end; bridge_unfold;
    rewrite ?Hs; repeat case_match; simplify_eq/=; rewrite ?(fun sid c b => proj1 (blocking_send_frame sid c b));
    simpl; rewrite ?Hs; try done.
  all: match goal with Hb : blocking_send ?sid ?c ?b = _ |- _ => 
    pose proof (proj1 (blocking_send_frame sid c b)) as Hw; rewrite Hb in Hw; simpl in Hw; rewrite Hw, ?Hs end; done.
Qed.

Lemma run_handler_keeps h b :
  is_Some (worker b) -> is_Some (worker (run_handler h b).1) /\ queue (run_handler h b).1 <= queue b.
Proof.
  revert b; induction h as [r|c k IH]; intros b Hw; simpl; [done|].
  pose proof (api_call_worker c b Hw) as Hw'. pose proof (api_call_queue c b) as Hq.
  destruct (api_call c b) as [b' r]. simpl in *. destruct (IH r b' Hw'). split; [done|lia].
Qed.

Lemma dispatch_turn_returns b :
  bridge_inv b -> is_Some (worker b) ->
  exists b' more, dispatch_turn php b = (b', Ok more) /\ bridge_inv b' /\ is_Some (worker b')
    /\ (more = true -> queue b' < queue b).
Proof.
  intros Hinv [s Hs]. unfold dispatch_turn, se_bind, get_state. rewrite Hs.
  destruct (task_rx s) as [|req rest] eqn:Hq.
  { unfold se_modify, se_ret. exists (if decide (worker_id s = 1%Z) then join_zts_workers b else b), false.
    case_decide; (split_and!; [done| |by eexists|done]); [|done]. by apply (inv_ext b). }
  pose proof (accept_inv b s req rest Hinv Hs Hq) as Hacc.
  destruct (accept_fields req rest s b) as (Hw & _).
  assert ((accept_request req rest s b).2 = Ok tt) as Hok by done.
  destruct (accept_request req rest s b) as [b1 r1]. simpl in Hacc, Hw, Hok. subst r1.
  destruct (run_handler_keeps (php (method req) (payload req)) b1) as [[s2 Hs2] Hq2]; [by eexists|].
  pose proof (run_handler_inv (php (method req) (payload req)) b1 Hacc) as Hinv2.
  destruct (run_handler _ b1) as [b2 r2]. simpl in *. exists (finalise r2 b2), true.
  split_and!; [done|by apply finalise_inv|rewrite (finalise_worker _ _ s2) by done; by eexists|].
  intros _. pose proof (ev_queue _ _ (evolves_finalise r2 b2)). unfold queue in *. rewrite Hw in Hq2. rewrite Hs, Hq.
  simpl in *. lia.
Qed.

Lemma dispatch_loop_returns fuel b :
  bridge_inv b -> is_Some (worker b) ->
  let '(b', r) := dispatch_loop fuel php b in
  bridge_inv b' /\ (queue b < fuel -> r = Some (Ok tt)) /\ forall e, r <> Some (Err e).
Proof.
  revert b; induction fuel as [|fuel IH]; intros b Hinv Hw; cbn [dispatch_loop]; [split_and!; [done|lia|done]|].
  destruct (dispatch_turn_returns b Hinv Hw) as (b' & more & -> & Hinv' & Hw' & Hq). destruct more; [|done].
  specialize (IH b' Hinv' Hw'). destruct (dispatch_loop fuel php b') as [b'' r].
  destruct IH as (Hi & Hr & He). split_and!; [done| |done]. intros Hlt. apply Hr. specialize (Hq eq_refl). lia.
Qed.

Lemma run_dispatch_loop_returns fuel root chdir_ok b :
  bridge_inv b ->
  let '(b', r) := run_dispatch_loop fuel root chdir_ok php b in
  bridge_inv b' /\ (queue b < fuel -> is_Some r)
  /\ forall e, r = Some (Err e) -> b' = b /\ worker b = None /\ e = "not in a worker thread".
Proof.
  intros Hinv. unfold run_dispatch_loop. destruct (worker b) as [s|] eqn:Hs; [|naive_solver].
  destruct (enter_loop_fields root chdir_ok s b Hs) as (Hw & _).
  pose proof (dispatch_loop_returns fuel _ (enter_loop_inv root chdir_ok s b Hs Hinv) ltac:(by eexists)) as Hloop.
  destruct (dispatch_loop _ _ _) as [b' r]. destruct Hloop as (Hi & Hr & He). split_and!; [done| |naive_solver].
  intros Hq. rewrite Hr; [by eexists|]. unfold queue in *. rewrite Hw. by rewrite Hs in Hq.
Qed.

Lemma evolves_known b b' did : evolves b b' -> is_Some (dones b !! did) -> is_Some (dones b' !! did).
Proof. intros [_ _ Hd] Hi. destruct (Hd did) as [->| ->]; [done|by eexists]. Qed.

Lemma cleanup_dones b did : is_Some (dones b !! did) -> is_Some (dones (cleanup_worker_state b) !! did).
Proof.
  intros Hd. destruct (worker b) as [s|] eqn:Hs; [|unfold cleanup_worker_state; by rewrite Hs].
  destruct (cleanup_frame s b Hs) as (_ & H2 & H3).
  destruct (decide (did ∈ done_ids s)) as [Hin|Hin]; [by rewrite H3|by rewrite H2].
Qed.

(** * The thread's own steps come to an end *)

(** The steps of the thread itself and the drop of its sender; a new task is its
    environment's. *)
Definition own_step (t' t : Thread) : Prop :=
  exists ev, thread_step php ev t = Some t' /\ match ev with ThSend _ _ => False | _ => True end.

(** A step leaves an ended thread at its end, brings the sender's drop, or is one of
    the loop: into PHP with one task less, along the handler, back to the
    channel, or to the end. *)
Lemma own_step_cases t t' :
  own_step t' t ->
  (tx_gone t = false /\ tx_gone t' = true /\ pc t' = pc t /\ bridge t' = bridge t)
  \/ tx_gone t' = tx_gone t
     /\ match pc t with
        | TBoot => pc t' = TGone \/ pc t' = TLoop
        | TLoop => pc t' = TGone \/ exists h, pc t' = TRun h /\ queue (bridge t') < queue (bridge t)
        | TRun h => pc t' = TGone \/ (pc t' = TLoop /\ queue (bridge t') <= queue (bridge t))
                    \/ exists c k r, h = HCall c k /\ pc t' = TRun (k r) /\ queue (bridge t') <= queue (bridge t)
        | TGone => False
        end.
Proof.
  intros (ev & Hstep & Hev). unfold thread_step in Hstep. destruct ev; try done.
  - destruct (tx_gone t); simplify_eq. by left.
  - right. destruct (pc t); try done. destruct (worker (bridge t)); simplify_eq. split; [done|by right].
  - right. destruct (pc t); try done. destruct (worker (bridge t)) as [s|] eqn:Hs; [|done].
    destruct (task_rx s) as [|req rest] eqn:Hq; simplify_eq. split; [done|]. right.
    eexists. split; [done|]. unfold goto, queue. cbn [bridge].
    destruct (accept_fields req rest s (bridge t)) as (-> & _). simpl. rewrite Hs, Hq. simpl. lia.
  - right. destruct (pc t) as [| |[r|c k]|]; try done. destruct (recv_waits c t); [done|].
    pose proof (api_call_queue c (bridge t)) as Hq.
    destruct (api_call c (bridge t)) as [b r]. simplify_eq. split; [done|]. right. right. by eexists c, k, r.
  - right. destruct (pc t) as [| |[r|c k]|]; try done. simplify_eq. split; [done|]. right. left.
    split; [done|]. apply evolves_finalise.
  - right. destruct (pc t); try done. destruct (worker (bridge t)); [|done]. case_match; [|done].
    simplify_eq. split; [done|by left].
  - right. destruct (pc t); simplify_eq; (split; [done|by left]).
Qed.

Section acc.
Context (g : bool) (Hclose : g = false -> forall t, tx_gone t = true -> Acc own_step t).

Lemma acc_step t :
  tx_gone t = g -> (forall t', own_step t' t -> tx_gone t' = tx_gone t -> Acc own_step t') -> Acc own_step t.
Proof.
  intros Hg Hnext. constructor. intros t' Hstep.
  destruct (own_step_cases t t' Hstep) as [(H1 & H2 & _)|[Heq _]]; [|by apply Hnext].
  apply Hclose; [congruence|done].
Qed.

Lemma acc_gone t : tx_gone t = g -> pc t = TGone -> Acc own_step t.
Proof.
  intros Hg Hpc. apply acc_step; [done|]. intros t' Hstep Heq.
  destruct (own_step_cases t t' Hstep) as [(H1 & H2 & _)|[_ Hcase]]; [congruence|by rewrite Hpc in Hcase].
Qed.

(** Each task taken shortens the queue, and a handler is finite. *)
Lemma acc_loop n t :
  tx_gone t = g -> queue (bridge t) < n -> pc t <> TBoot -> Acc own_step t.
Proof.
  revert t; induction n as [|n IH]; intros t Hg Hn; [lia|].
  assert (forall t, tx_gone t = g -> queue (bridge t) < S n -> pc t = TLoop -> Acc own_step t) as Hloop.
  { clear t Hg Hn. intros t Hg Hn Hpc. apply acc_step; [done|]. intros t' Hstep Heq.
    destruct (own_step_cases t t' Hstep) as [(H1 & H2 & _)|[_ Hcase]]; [congruence|].
    rewrite Hpc in Hcase. destruct Hcase as [Hpc'|(h & Hpc' & Hlt)].
    - apply acc_gone; [congruence|done].
    - apply IH; [congruence|lia|by rewrite Hpc']. }
  intros Hboot. destruct (pc t) as [| |h|] eqn:Hpc; [done|by apply Hloop| |by apply acc_gone]. clear Hboot.
  revert t Hg Hn Hpc; induction h as [r|c k IHh]; intros t Hg Hn Hpc;
    (apply acc_step; [done|]; intros t' Hstep Heq;
     destruct (own_step_cases t t' Hstep) as [(H1 & H2 & _)|[_ Hcase]]; [congruence|];
     rewrite Hpc in Hcase; destruct Hcase as [Hpc'|[[Hpc' Hle]|(c' & k' & r' & Hh & Hpc' & Hle)]];
     [apply acc_gone; [congruence|done]|apply Hloop; [congruence|lia|done]|]); simplify_eq.
  eapply IHh; [congruence|lia|done].
Qed.

Lemma acc_thread t : tx_gone t = g -> Acc own_step t.
Proof.
  intros Hg. destruct (pc t) as [| |h|] eqn:Hpc;
    [|apply (acc_loop (S (queue (bridge t)))); [done|lia|by rewrite Hpc]..].
  apply acc_step; [done|]. intros t' Hstep Heq.
  destruct (own_step_cases t t' Hstep) as [(H1 & H2 & _)|[_ Hcase]]; [congruence|].
  rewrite Hpc in Hcase. destruct Hcase as [Hpc'|Hpc'].
  - apply acc_gone; [congruence|done].
  - apply (acc_loop (S (queue (bridge t')))); [congruence|lia|by rewrite Hpc'].
Qed.
End acc.

(** Left to itself, every thread comes to rest. *)
Lemma own_step_wf t : Acc own_step t.
Proof.
  assert (forall t', tx_gone t' = true -> Acc own_step t') as Hgone by (intros t'; by apply acc_thread).
  destruct (tx_gone t) eqn:Hg; [by apply Hgone|by apply (acc_thread false)].
Qed.

(** * What is pending is on its way *)

(** No completion channel waits. *)
Definition settled b : Prop := forall did, dones b !! did <> Some DonePending.

Record live_inv t : Prop := {
  li_pc : match pc t with
          | TBoot => exists s, worker (bridge t) = Some s /\ ready_tx s = true
          | TLoop | TRun _ => 0 < ready_signals (bridge t)
          | TGone => settled (bridge t)
          end;
  li_tasks : Forall (fun task => is_Some (dones (bridge t) !! done_tx task.1)) (tasks t);
}.

Lemma thread_new_live id : live_inv (thread_new id).
Proof. split; [by eexists|constructor]. Qed.

Lemma cleanup_settled b b' s :
  bridge_inv b -> worker b = Some s -> worker b' = Some s -> dones b' = dones b ->
  settled (cleanup_worker_state b').
Proof.
  intros Hb Hs Hs' Hd did. destruct (cleanup_frame s b' Hs') as (_ & H2 & H3).
  destruct (decide (did ∈ done_ids s)) as [Hin|Hin]; [by rewrite H3|rewrite H2, Hd by done].
  intros Hp. destruct (bi_pending _ Hb did Hp) as (s0 & Hs0 & Hi). assert (s0 = s) as -> by congruence. done.
Qed.

(** An idle loop owes nothing. *)
Lemma loop_settled t s :
  thread_inv php t -> pc t = TLoop -> worker (bridge t) = Some s -> task_rx s = [] -> settled (bridge t).
Proof.
  intros Hinv Hpc Hs Hq did Hp. pose proof (ti_pc _ _ Hinv) as Hi. rewrite Hpc in Hi.
  destruct Hi as (Hb & s1 & Hs1 & _ & _ & Hn). destruct (bi_pending _ Hb did Hp) as (s0 & Hs0 & Hin).
  assert (s0 = s) as -> by congruence. assert (s1 = s) as -> by congruence.
  unfold done_ids in Hin. rewrite Hn, Hq in Hin. by apply elem_of_nil in Hin.
Qed.

Lemma thread_worker t :
  thread_inv php t -> pc t <> TGone -> bridge_inv (bridge t) /\ exists s, worker (bridge t) = Some s.
Proof.
  intros Hinv Hpc. pose proof (ti_pc _ _ Hinv) as Hi. destruct (pc t); simpl in Hi; [| | |done].
  - destruct Hi as (Hb & q & s & Hs & _). eauto.
  - destruct Hi as (Hb & s & Hs & _). eauto.
  - destruct Hi as (Hb & req & room & b2 & _ & _ & [(s & id1 & q1 & _ & _ & Hs & _) _ _] & _). eauto.
Qed.

Lemma tasks_evolve (d d' : gmap nat DoneChan) (l : list (TaskRequest * option nat)) :
  (forall did, is_Some (d !! did) -> is_Some (d' !! did)) ->
  Forall (fun task => is_Some (d !! done_tx task.1)) l ->
  Forall (fun task => is_Some (d' !! done_tx task.1)) l.
Proof. intros Hd Hl. eapply Forall_impl; [exact Hl|]. intros task. apply Hd. Qed.

(** The loop's steps in the states it meets. *)
Lemma take_evolves t s req rest :
  thread_inv php t -> pc t = TLoop -> worker (bridge t) = Some s -> task_rx s = req :: rest ->
  evolves (bridge t) (accept_request req rest s (bridge t)).1.
Proof.
  intros Hinv Hpc Hs Hq. pose proof (ti_pc _ _ Hinv) as Hi. rewrite Hpc in Hi.
  destruct Hi as (Hb & s0 & Hs0 & _ & Hn & _). assert (s0 = s) as -> by congruence.
  rewrite (accept_idle _ _ _ _ Hb Hs Hn). simpl. apply (evolves_put s); [done|]. rewrite Hq. simpl. lia.
Qed.

Lemma running_calls t c k : thread_inv php t -> pc t = TRun (HCall c k) -> c <> CRecv.
Proof.
  intros Hinv Hpc. pose proof (ti_pc _ _ Hinv) as Hi. rewrite Hpc in Hi.
  by destruct Hi as (_ & req & room & b2 & _ & [Hc _] & _).
Qed.

(** A step inside the loop. *)
Lemma live_evolves t b' p' :
  live_inv t -> (match pc t with TLoop | TRun _ => True | _ => False end) ->
  (match p' with TLoop | TRun _ => True | _ => False end) ->
  evolves (bridge t) b' -> live_inv (goto p' b' t).
Proof.
  intros [Hpc Htasks] Hin Hin' He. pose proof (ev_signals _ _ He) as Hsig.
  split; [|apply (tasks_evolve (dones (bridge t))); [|done]; intros did; by apply evolves_known].
  simpl. assert (0 < ready_signals b'); [|by destruct p'].
  destruct (pc t); try done; lia.
Qed.

Lemma live_gone t s b' :
  thread_inv php t -> live_inv t -> pc t <> TGone -> worker (bridge t) = Some s -> worker b' = Some s ->
  dones b' = dones (bridge t) -> live_inv (goto TGone (cleanup_worker_state b') t).
Proof.
  intros Hinv [_ Htasks] Hpc Hs Hs' Hd. destruct (thread_worker t Hinv Hpc) as [Hb _].
  split; simpl; [by eapply cleanup_settled|].
  eapply tasks_evolve; [|exact Htasks]. intros did Hi. apply cleanup_dones. by rewrite Hd.
Qed.

Lemma enter_loop_signals root chdir_ok s b :
  ready_tx s = true -> ready_signals (enter_loop root chdir_ok s b) = S (ready_signals b).
Proof. intros Hr. unfold enter_loop. rewrite Hr. destruct root as [r|]; [destruct (chdir_ok r)|]; done. Qed.

Lemma thread_step_live ev t t' :
  thread_inv php t -> live_inv t -> thread_step php ev t = Some t' -> live_inv t'.
Proof.
  intros Hinv Hlive Hstep. unfold thread_step in Hstep. destruct ev as [req room| |root chdir_ok| | | | |].
  - destruct (worker (bridge t)) as [s|] eqn:Hs; [|by destruct (pc t)]. destruct Hlive as [Hpc Htasks].
    assert (t' = {| bridge := receive_task req room s (bridge t); pc := pc t; tx_gone := false;
      tasks := tasks t ++ [(req, room)] |}) as ->
      by (destruct (pc t), (tx_gone t); try done; case_decide; by simplify_eq).
    split; simpl.
    + destruct (pc t); simplify_eq/=; try done. destruct Hpc as (s1 & Hs1 & Hr). simplify_eq. by eexists.
    + apply Forall_app. split; [|apply Forall_singleton; simpl; by rewrite lookup_insert_eq].
      eapply tasks_evolve; [|exact Htasks]. intros did Hi. apply lookup_insert_is_Some'. by right.
  - destruct (tx_gone t); simplify_eq. by destruct Hlive.
  - destruct (pc t) eqn:Hpc; try done. destruct (worker (bridge t)) as [s|] eqn:Hs; [|done]. simplify_eq.
    destruct Hlive as [Hl Htasks]. rewrite Hpc in Hl. destruct Hl as (s1 & Hs1 & Hr).
    assert (s1 = s) as -> by congruence.
    destruct (enter_loop_fields root chdir_ok s (bridge t) Hs) as (_ & _ & Hd).
    split; simpl; [rewrite enter_loop_signals by done; lia|by rewrite Hd].
  - destruct (pc t) eqn:Hpc; try done. destruct (worker (bridge t)) as [s|] eqn:Hs; [|done].
    destruct (task_rx s) as [|req rest] eqn:Hq; [done|]. simplify_eq.
    apply live_evolves; [done|by rewrite Hpc|done|]. by apply (take_evolves t s).
  - destruct (pc t) as [| |[r|c k]|] eqn:Hpc; try done. destruct (recv_waits c t); [done|].
    pose proof (api_call_evolves c (bridge t) (running_calls t c k Hinv Hpc)) as He.
    destruct (api_call c (bridge t)) as [b r]. simplify_eq.
    apply live_evolves; [done|by rewrite Hpc|done|done].
  - destruct (pc t) as [| |[r|c k]|] eqn:Hpc; try done. simplify_eq.
    apply live_evolves; [done|by rewrite Hpc|done|apply evolves_finalise].
  - destruct (pc t) eqn:Hpc; try done. destruct (worker (bridge t)) as [s|] eqn:Hs; [|done].
    destruct (decide (task_rx s = [])) as [Hq|Hq]; [|by rewrite bool_decide_eq_false_2 in Hstep].
    case_match; [|done]. simplify_eq. apply (live_gone t s); [done..|by rewrite Hpc|done| |];
      unfold dispatch_turn; bridge_unfold; rewrite Hs, Hq; by case_decide.
  - assert (pc t <> TGone) as Hne by (by intros Heq; rewrite Heq in Hstep).
    destruct (thread_worker t Hinv Hne) as (_ & s & Hs).
    destruct (pc t) eqn:Hpc; simplify_eq; try done; apply (live_gone t s); by rewrite ?Hpc.
Qed.

(** * Progress *)

(** The steps of a thread that neither is interfered with nor dies. *)
Definition runs_on (ev : ThreadEvent) : bool :=
  match ev with ThEnter _ _ | ThTake | ThCall | ThFinish | ThExit => true | _ => false end.

Definition thread_idle t : Prop :=
  pc t = TLoop /\ tx_gone t = false /\ exists s, worker (bridge t) = Some s /\ task_rx s = [].

Lemma thread_progress t :
  thread_inv php t ->
  pc t = TGone \/ thread_idle t \/ exists ev t', runs_on ev = true /\ thread_step php ev t = Some t'.
Proof.
  intros Hinv. assert (pc t = TGone \/ pc t <> TGone) as [Hg|Hg]; [destruct (pc t); auto|by left|right].
  destruct (thread_worker t Hinv Hg) as (_ & s & Hs).
  destruct (pc t) as [| |[r|c k]|] eqn:Hpc; [| | | |done].
  - right. exists (ThEnter None (fun _ => true)). unfold thread_step. rewrite Hpc, Hs. eauto.
  - destruct (task_rx s) as [|req rest] eqn:Hq.
    + destruct (tx_gone t) eqn:Htx; [right|left; split_and!; eauto].
      exists ThExit. unfold thread_step. rewrite Hpc, Hs, Hq, Htx. eauto.
    + right. exists ThTake. unfold thread_step. rewrite Hpc, Hs, Hq. eauto.
  - right. exists ThFinish. unfold thread_step. rewrite Hpc. eauto.
  - right. exists ThCall. unfold thread_step. rewrite Hpc.
    pose proof (running_calls t c k Hinv Hpc) as Hc. assert (recv_waits c t = false) as -> by (by destruct c). destruct (api_call c (bridge t)). eauto.
Qed.

(** A thread at rest owes nothing: what it was sent has completed or was dropped. *)
Lemma rest_settled t :
  thread_inv php t -> live_inv t -> pc t = TGone \/ thread_idle t -> settled (bridge t).
Proof.
  intros Hinv [Hl _] [Hpc|(Hpc & _ & s & Hs & Hq)]; [by rewrite Hpc in Hl|by eapply loop_settled].
Qed.

(** What a thread that does not die does to the completion channels: it signals
    them, and drops none; it ends only when its sender is gone. *)
Lemma thread_step_settles ev t t' :
  thread_inv php t -> fresh_for t ev -> thread_step php ev t = Some t' -> ev <> ThDie ->
  (forall did, dones (bridge t) !! did = Some DoneSent -> dones (bridge t') !! did = Some DoneSent)
  /\ (forall did, dones (bridge t') !! did = Some DoneDropped -> dones (bridge t) !! did = Some DoneDropped)
  /\ (pc t' = TGone -> pc t = TGone \/ tx_gone t' = true).
Proof.
  intros Hinv Hfresh Hstep Hev.
  assert (forall p' b', evolves (bridge t) b' -> p' <> TGone -> t' = goto p' b' t ->
    (forall did, dones (bridge t) !! did = Some DoneSent -> dones (bridge t') !! did = Some DoneSent)
    /\ (forall did, dones (bridge t') !! did = Some DoneDropped -> dones (bridge t) !! did = Some DoneDropped)
    /\ (pc t' = TGone -> pc t = TGone \/ tx_gone t' = true)) as Hloop.
  { intros p' b' [_ _ Hd] Hp' ->. split_and!; simpl; [..|done]; intros did;
      destruct (Hd did) as [->| ->]; done. }
  unfold thread_step in Hstep. destruct ev as [req room| |root chdir_ok| | | | |]; [..|done].
  - destruct (worker (bridge t)) as [s|] eqn:Hs; [|by destruct (pc t)].
    assert (t' = {| bridge := receive_task req room s (bridge t); pc := pc t; tx_gone := false;
      tasks := tasks t ++ [(req, room)] |}) as ->
      by (destruct (pc t), (tx_gone t); try done; case_decide; by simplify_eq).
    split_and!; simpl; [| |by left]; intros did Hd.
    + rewrite lookup_insert_ne; [done|]. intros <-. destruct Hfresh as [_ Hf]. apply Hf.
      apply (ti_known _ _ Hinv). by eexists.
    + by apply lookup_insert_Some in Hd as [[_ ?]|[_ Hd]].
  - destruct (tx_gone t); simplify_eq. split_and!; auto.
  - destruct (pc t) eqn:Hpc; try done. destruct (worker (bridge t)) as [s|] eqn:Hs; simplify_eq.
    destruct (enter_loop_fields root chdir_ok s (bridge t) Hs) as (_ & _ & Hd).
    simpl. rewrite Hd. by split_and!.
  - destruct (pc t) eqn:Hpc; try done. destruct (worker (bridge t)) as [s|] eqn:Hs; [|done].
    destruct (task_rx s) as [|req rest] eqn:Hq; simplify_eq.
    refine (Hloop _ _ _ _ eq_refl); [by apply (take_evolves t s)|done].
  - destruct (pc t) as [| |[r|c k]|] eqn:Hpc; try done. destruct (recv_waits c t); [done|].
    pose proof (api_call_evolves c (bridge t) (running_calls t c k Hinv Hpc)) as He.
    destruct (api_call c (bridge t)) as [b r]. simplify_eq. by refine (Hloop _ _ _ _ eq_refl).
  - destruct (pc t) as [| |[r|c k]|] eqn:Hpc; try done. simplify_eq.
    refine (Hloop _ _ _ _ eq_refl); [apply evolves_finalise|done].
  - pose proof (ti_pc _ _ Hinv) as Hi. destruct (pc t) eqn:Hpc; try done.
    destruct Hi as (_ & s & Hs & _ & _ & Hn). rewrite Hs in Hstep.
    destruct (decide (task_rx s = [])) as [Hq|Hq]; [|by rewrite bool_decide_eq_false_2 in Hstep].
    rewrite bool_decide_eq_true_2 in Hstep by done. destruct (tx_gone t) eqn:Htx; [|done]. cbn [andb] in Hstep. simplify_eq. cbn [goto bridge pc tx_gone].
    assert (dones (cleanup_worker_state (dispatch_turn php (bridge t)).1) = dones (bridge t)) as ->.
    { assert (worker (dispatch_turn php (bridge t)).1 = Some s
        /\ dones (dispatch_turn php (bridge t)).1 = dones (bridge t)) as [Hw Hd]
        by (unfold dispatch_turn; bridge_unfold; rewrite Hs, Hq; by case_decide).
      apply map_eq. intros did. destruct (cleanup_frame s _ Hw) as (_ & -> & _); [by rewrite Hd|].
      unfold done_ids. rewrite Hn, Hq. apply not_elem_of_nil. }
    split_and!; auto.
Qed.
End live.
