(* ===== verification/ThreadLoop.v ===== *)
(** The stepwise thread and the sequential loop are the same program:
    [run_dispatch_loop] ([crates/folk-ext/src/bridge.rs]) run to its end on the
    tasks a thread has, and the single steps of that thread, lead to the same
    state, under every schedule of the steps. *)

From S2P Require Import Prelude.
From S2P Require Import Protocol.
From S2P Require Import ExtRuntime.
From S2P Require Import Bridge.
From S2P Require Import BridgeSpec.
From S2P Require Import BridgeProps.
From S2P Require Import BridgeIso.
From S2P Require Import WorkerThread.
From S2P Require Import ThreadLive.

Section loop.
Context `{FA : FolkApi}.
Context (php : string -> value -> Handler) (root : option string) (chdir_ok : string -> bool).
Implicit Types (b : Bridge) (s : WorkerState) (t : Thread).

(** The steps of a thread that runs the loop once, undisturbed. *)
Definition loop_event (ev : ThreadEvent) : Prop :=
  match ev with
  | ThEnter r c => r = root /\ c = chdir_ok
  | ThTake | ThCall | ThFinish | ThExit => True
  | ThSend _ _ | ThCloseTx | ThDie => False
  end.

(** Only one of them is possible in a state. *)
Lemma loop_event_unique ev1 ev2 t t1 t2 :
  loop_event ev1 -> loop_event ev2 ->
  thread_step php ev1 t = Some t1 -> thread_step php ev2 t = Some t2 -> ev1 = ev2.
Proof.
  intros H1 H2 Hs1 Hs2. unfold thread_step in *.
  destruct (pc t) as [| |[r|c k]|], ev1, ev2; try done; simpl in H1, H2; try (by destruct H1, H2; subst);
    destruct (worker (bridge t)) as [s|]; try done; by destruct (task_rx s).
Qed.

(** A run of such steps that has ended extends every other. *)
Lemma loop_run_prefix evs1 evs2 t t1 t2 :
  Forall loop_event evs1 -> Forall loop_event evs2 ->
  run (thread_step php) evs1 t = Some t1 -> run (thread_step php) evs2 t = Some t2 ->
  pc t1 = TGone -> exists evs, evs1 = evs2 ++ evs /\ run (thread_step php) evs t2 = Some t1.
Proof.
  intros H1 H2. revert evs1 t H1. induction H2 as [|ev2 evs2 Hev2 _ IH]; intros evs1 t H1 Hr1 Hr2 Hpc.
  { simpl in Hr2. simplify_eq. by exists evs1. }
  simpl in Hr2. destruct (thread_step php ev2 t) as [t'|] eqn:Hs2; [|done].
  destruct H1 as [|ev1 evs1 Hev1 H1]; simpl in Hr1.
  - simplify_eq. unfold thread_step in Hs2. rewrite Hpc in Hs2. destruct ev2; try done; by destruct Hev2.
  - destruct (thread_step php ev1 t) as [t''|] eqn:Hs1; [|done].
    assert (ev1 = ev2) as -> by (by eapply loop_event_unique).
    assert (t'' = t') as -> by congruence.
    destruct (IH evs1 t' H1 Hr1 Hr2 Hpc) as (evs & -> & Hrun). by exists evs.
Qed.

(** From the head of the loop, one turn after the other. *)
Lemma loop_steps reqs id fuel t :
  (forall m p, no_recv (php m p)) -> bridge_inv (bridge t) -> signalled (bridge t) (bridge t) ->
  idle (bridge t) reqs id -> pc t = TLoop -> tx_gone t = true -> length reqs < fuel ->
  exists evs, Forall loop_event evs
    /\ run (thread_step php) evs t
       = Some (goto TGone (cleanup_worker_state (dispatch_loop fuel php (bridge t)).1) t).
Proof.
  intros Hphp. revert fuel t; induction reqs as [|req rest IH]; intros fuel t Hinv Hsig Hidle Hpc Htx Hlt;
    (destruct fuel as [|fuel]; [simpl in Hlt; lia|]); pose proof Hidle as (s & Hs & Hn & Hq & _).
  - exists [ThExit]. split; [by repeat constructor|]. cbn [run thread_step]. rewrite Hpc, Hs, Hq, Htx. simpl.
    repeat f_equal. unfold dispatch_turn. bridge_unfold. rewrite Hs, Hq. by case_decide.
  - destruct (turn_steps php t s req rest Hphp Hinv Hpc Hs Hn Hq) as (k & Hrun).
    destruct (dispatch_turn_spec php _ _ req rest id Hphp Hinv Hsig Hidle)
      as (b' & Hturn & Hinv' & (_ & _ & Hsig') & Hidle' & _).
    rewrite Hturn in Hrun. cbn [dispatch_loop]. rewrite Hturn.
    destruct (IH fuel (goto TLoop b' t)) as (evs & Hevs & Hrun'); [done|by split_and!|done|done|done|simpl in Hlt; lia|].
    exists ((ThTake :: replicate k ThCall ++ [ThFinish]) ++ evs). split.
    + apply Forall_app. split; [|done]. constructor; [done|]. apply Forall_app.
      split; [by apply Forall_replicate|by repeat constructor].
    + rewrite run_app, Hrun. exact Hrun'.
Qed.

(** What is left of the thread when the sequential loop has run on its bridge and
    the thread has been cleaned up. *)
Definition loop_end (fuel : nat) t : Thread :=
  goto TGone (cleanup_worker_state (run_dispatch_loop fuel root chdir_ok php (bridge t)).1) t.

(** C15. The sequential dispatch loop is the thread: take a thread to which any
    tasks have been sent before it enters the loop and whose sender is gone.  Its
    own steps, in whatever portions they are run, end, and end in exactly the state
    that [run_dispatch_loop] on those tasks, followed by the cleanup, computes. *)
Theorem thread_runs_the_loop evs0 id t fuel
    (Hphp : forall m p, no_recv (php m p))
    (Hrun : run (thread_step php) evs0 (thread_new id) = Some t)
    (Hstreams : NoDup ((fun task => stream_tx task.1) <$> tasks t))
    (Hdones : NoDup ((fun task => done_tx task.1) <$> tasks t))
    (Hpc : pc t = TBoot) (Htx : tx_gone t = true) (Hfuel : queue (bridge t) < fuel) :
  forall evs t', Forall loop_event evs -> run (thread_step php) evs t = Some t' ->
    exists evs', Forall loop_event evs'
      /\ run (thread_step php) evs' t' = Some (loop_end fuel t).
Proof.
  assert (exists evs, Forall loop_event evs
    /\ run (thread_step php) evs t = Some (loop_end fuel t)) as (evs1 & H1 & Hr1).
  { pose proof (thread_run_inv php Hphp _ _ _ (thread_new_inv php id) Hrun Hstreams Hdones) as Hinv.
    pose proof (ti_pc _ _ Hinv) as Hi. rewrite Hpc in Hi. destruct Hi as [Hb (q & s & Hs & Hn & _ & Hq)].
    destruct (enter_loop_fields root chdir_ok s (bridge t) Hs) as (Hw & _ & _).
    destruct (loop_steps q (worker_id s) fuel (goto TLoop (enter_loop root chdir_ok s (bridge t)) t))
      as (evs & Hevs & Hr); try done.
    - by apply enter_loop_inv.
    - split_and!; try done. by eexists.
    - by eexists.
    - unfold queue in Hfuel. by rewrite Hs, Hq in Hfuel.
    - exists (ThEnter root chdir_ok :: evs). split; [by constructor|].
      cbn [run]. unfold thread_step at 1. rewrite Hpc, Hs, Hr.
      unfold loop_end, run_dispatch_loop. by rewrite Hs. }
  intros evs t' Hevs Hr.
  destruct (loop_run_prefix evs1 evs t _ t' H1 Hevs Hr1 Hr eq_refl) as (evs' & -> & Hr').
  apply Forall_app in H1 as [_ H1]. by exists evs'.
Qed.
End loop.

(** * Example *)

Module Examples.
Import Sample.
Definition php := BridgeProps.Examples.php.

(** Two tasks are waiting and the sender is gone when the thread enters the loop. *)
Definition arrivals : list ThreadEvent :=
  [ThSend (BridgeProps.Examples.req "get" 0) None; ThSend (BridgeProps.Examples.req "stream" 1) (Some 1); ThCloseTx].
Definition waiting : Thread :=
  default (thread_new 2) (run (thread_step php) arrivals (thread_new 2)).
Definition enters : bool -> string -> bool := fun b _ => b.
Definition begun : list ThreadEvent := [ThEnter None (enters true); ThTake; ThCall].
Definition inside : Thread := default waiting (run (thread_step php) begun waiting).
End Examples.
Import Sample Examples.

Lemma thread_runs_the_loop_witness :
  exists evs, run (thread_step Examples.php) evs inside = Some (loop_end Examples.php None (enters true) 3 waiting)
    /\ streams (bridge (loop_end Examples.php None (enters true) 3 waiting)) !! 1
       = Some {| sc_sent := [Headers 201 ∅]; rx_left := Some 0; sc_closed := true |}.
Proof.
  destruct (thread_runs_the_loop Examples.php None (enters true) arrivals 2 waiting 3
    BridgeProps.Examples.php_no_recv) with (evs := begun) (t' := inside) as (evs & _ & Hrun).
  - vm_run.
  - apply (bool_decide_unpack _); vm_compute; exact I.
  - apply (bool_decide_unpack _); vm_compute; exact I.
  - vm_compute; reflexivity.
  - vm_compute; reflexivity.
  - vm_compute; lia.
  - repeat constructor.
  - vm_run.
  - exists evs. split; [exact Hrun|vm_compute; reflexivity].
Defined.
