(* ===== verification/System.v ===== *)
(** The whole system: callers, the pool, the runtime that spawns its workers, and
    the worker threads, as one machine.

    A request travels from a caller ([SCall], [WorkerPool::dispatch_streamed])
    through the pool ([SPool], the steps of [Pool]) to a supervisor, whose
    [execute_streaming] puts it on the task channel of its worker ([SSend]); the
    worker's thread serves it ([SThread], the steps of [WorkerThread]); its
    completion, its worker's death or the timeout ends the call ([SExec]).  Workers
    come from [ExtensionRuntime::spawn] ([SSpawn], one lock or counter access at
    a time), are waited for ([SBooted]) and are torn down: the sender is dropped
    ([STerminate], [SGiveUp], [SUnwind]) and the thread is joined ([SJoined],
    [SBooted]).  A spawn that panics ends the supervisor that awaits it
    ([SBootPanic]).  The pool is not dropped while the system runs ([PoolShutdown]
    shows what happens then).

    What ties the parts together is written once, here: which outcome an await
    of the supervisor may have, given the state of the worker's thread. *)

From S2P Require Import Prelude.
From S2P Require Import Config.
From S2P Require Import Protocol.
From S2P Require Import Collect.
From S2P Require Import Runtime.
From S2P Require Import ExtRuntime.
From S2P Require Import Bridge.
From S2P Require Import BridgeSpec.
From S2P Require Import BridgeProps.
From S2P Require Import BridgeIso.
From S2P Require Import WorkerThread.
From S2P Require Import Supervisor.
From S2P Require Import SupervisorSpec.
From S2P Require Import Dispatch.
From S2P Require Import Pool.
From S2P Require Import PoolSpec.

Section system.
Context `{FA : FolkApi}.
Context (config : WorkersConfig) (php : string -> value -> Handler).

(** A slot's call of [execute_streaming]: not sent yet, waiting for the completion
    channel [did] of the worker with task channel [n], or failed at once. *)
Inductive ExecCall :=
| CallNone
| CallSent (n did : nat)
| CallFailed.

Record System := mkSystem {
  pool : PoolState ChannelWorkerHandle;
  runtime : ExtensionRuntime;
  spawning : list SpawnPc;
  exec : list ExecCall;
  threads : gmap nat Thread;
  next_stream : nat;
  next_done : nat;
}.

(** [start_server]: the main thread is installed as worker 1 on the channels 0
    and 1, which the runtime hands to the first [spawn]. *)
Definition sys_init (now : Z) : System := {|
  pool := pool_new config now;
  runtime := ext_new (count config) [{| side_task_tx := 0; side_ready_rx := 1 |}] 2;
  spawning := replicate (count config) SpStart;
  exec := replicate (count config) CallNone;
  threads := {[ 0 := thread_new 1 ]};
  next_stream := 0;
  next_done := 0;
|}.

Inductive SysEvent :=
| SCall (id m : string) (p : value) (body : option RequestBody)
| SPool (ev : PoolEvent ChannelWorkerHandle)
| SSpawn (i : nat) (cwd : result string) (thread : bool)
| SGiveUp (i : nat)
| SBooted (i : nat) (ready : timed unit)
| SSend (i : nat) (room : option nat)
| SExec (i : nat) (outcome : timed unit)
| STerminate (i : nat)
| SJoined (i : nat) (now : Z)
| SUnwind (i : nat)
| SThread (n : nat) (ev : ThreadEvent)
| SBootPanic (i : nat).

Definition set_pool (p : PoolState ChannelWorkerHandle) (s : System) : System := {|
  pool := p; runtime := runtime s; spawning := spawning s; exec := exec s; threads := threads s;
  next_stream := next_stream s; next_done := next_done s;
|}.
Definition set_exec (e : list ExecCall) (s : System) : System := {|
  pool := pool s; runtime := runtime s; spawning := spawning s; exec := e; threads := threads s;
  next_stream := next_stream s; next_done := next_done s;
|}.
Definition set_threads (ts : gmap nat Thread) (s : System) : System := {|
  pool := pool s; runtime := runtime s; spawning := spawning s; exec := exec s; threads := ts;
  next_stream := next_stream s; next_done := next_done s;
|}.
Definition set_spawning (sp : list SpawnPc) (s : System) : System := {|
  pool := pool s; runtime := runtime s; spawning := sp; exec := exec s; threads := threads s;
  next_stream := next_stream s; next_done := next_done s;
|}.

Definition pool_event (ev : PoolEvent ChannelWorkerHandle) (s : System) : option System :=
  p ← pool_step config ev (pool s); Some (set_pool p s).

(** The request [dispatch_streamed] sends: its response channel and its permit
    are new. *)
Definition call_request (k : nat) (id m : string) (p : value) (body : option RequestBody) :
    DispatchRequest := {|
  request_id := id; method := m; payload := p; stream_tx := k; permit := k; request_body := body;
|}.

(** The task [execute_streaming] makes of it. *)
Definition task_of (req : DispatchRequest) (did : nat) : TaskRequest := {|
  Bridge.request_id := request_id req; Bridge.method := method req; Bridge.payload := payload req;
  Bridge.stream_tx := stream_tx req; Bridge.done_tx := did; Bridge.request_body := request_body req;
|}.

(** The pool's steps that depend on nothing outside the pool. *)
Definition own_event (ev : PoolEvent ChannelWorkerHandle) : bool :=
  match ev with
  | EvAcquire _ | EvDropPool => false
  | EvSlot _ (EvBoot _ _ | EvBootPanic | EvExec _ | EvExecPanic | EvTerminated _) => false
  | _ => true
  end.

Definition thread_event (n : nat) (ev : ThreadEvent) (s : System) : option System :=
  t ← threads s !! n; t' ← thread_step php ev t; Some (set_threads (<[n := t']> (threads s)) s).

Definition supervisor_at (i : nat) (s : System) : option (Sup ChannelWorkerHandle) :=
  supervisor <$> slots (pool s) !! i.

(** The thread a new handle came with. *)
Definition started (pc : SpawnPc) (ts : gmap nat Thread) : gmap nat Thread :=
  match pc with
  | SpDone (Ok h) =>
      match task_tx h, thread_handle h with
      | Some n, Some _ => <[n := thread_new (ExtRuntime.worker_id h)]> ts
      | _, _ => ts
      end
  | _ => ts
  end.

(** [terminate()] has returned: the sender is gone and the thread, if the handle
    owns it, has ended. *)
Definition torn_down (h : ChannelWorkerHandle) (s : System) : bool :=
  match task_tx h with
  | None => true
  | Some n =>
      match threads s !! n with
      | None => false
      | Some t => tx_gone t && (negb (is_recyclable h) || match pc t with TGone => true | _ => false end)
      end
  end.

(** What [handle.ready()] may give: the worker has signalled, or the boot has
    failed or timed out and the worker is torn down. *)
Definition ready_outcome (h : ChannelWorkerHandle) (ready : timed unit) (s : System) : bool :=
  match ready with
  | Completed (Ok _) =>
      match task_tx h ≫= fun n => threads s !! n with
      | Some t => bool_decide (ready_signals (bridge t) <> 0) && negb (tx_gone t)
      | None => false
      end
  | _ => torn_down h s
  end.

(** What the timed [execute_streaming] may give. *)
Definition exec_outcome (c : ExecCall) (outcome : timed unit) (s : System) : bool :=
  match c with
  | CallNone => false
  | CallFailed => match outcome with Completed (Err _) => true | _ => false end
  | CallSent n did =>
      match threads s !! n with
      | None => false
      | Some t =>
          match outcome, dones (bridge t) !! did with
          | Completed (Ok _), Some DoneSent => true
          | Completed (Err _), Some DoneDropped => true
          | Elapsed, _ => true
          | _, _ => false
          end
      end
  end.

Definition sys_step (ev : SysEvent) (s : System) : option System :=
  match ev with
  | SCall id m p body =>
      s ← pool_event (EvAcquire (call_request (next_stream s) id m p body)) s;
      Some {| pool := pool s; runtime := runtime s; spawning := spawning s; exec := exec s;
              threads := threads s; next_stream := S (next_stream s); next_done := next_done s |}
  | SPool ev => if own_event ev then pool_event ev s else None
  | SSpawn i cwd thread =>
      match phase <$> supervisor_at i s, spawning s !! i with
      | Some PBooting, Some (SpDone _ | SpPanicked) => None
      | Some PBooting, Some pc =>
          let '(rt, pc) := spawn_step cwd thread pc (runtime s) in
          Some {| pool := pool s; runtime := rt; spawning := <[i := pc]> (spawning s);
                  exec := exec s; threads := started pc (threads s);
                  next_stream := next_stream s; next_done := next_done s |}
      | _, _ => None
      end
  | SGiveUp i =>
      match phase <$> supervisor_at i s, spawning s !! i with
      | Some PBooting, Some (SpDone (Ok h)) => n ← task_tx h; thread_event n ThCloseTx s
      | _, _ => None
      end
  | SBooted i ready =>
      match spawning s !! i with
      | Some (SpDone r) =>
          if match r with Ok h => ready_outcome h ready s | Err _ => true end then
            s ← pool_event (EvSlot i (EvBoot r ready)) s;
            Some (set_spawning (<[i := SpStart]> (spawning s)) s)
          else None
      | _ => None
      end
  | SSend i room =>
      match supervisor_at i s, exec s !! i with
      | Some sup, Some CallNone =>
          match phase sup, worker sup ≫= task_tx with
          | PExec req, Some n =>
              t ← threads s !! n;
              match pc t with
              | TGone => Some (set_exec (<[i := CallFailed]> (exec s)) s)
              | _ =>
                  t' ← thread_step php (ThSend (task_of req (next_done s)) room) t;
                  Some {| pool := pool s; runtime := runtime s; spawning := spawning s;
                          exec := <[i := CallSent n (next_done s)]> (exec s);
                          threads := <[n := t']> (threads s);
                          next_stream := next_stream s; next_done := S (next_done s) |}
              end
          | PExec _, None => Some (set_exec (<[i := CallFailed]> (exec s)) s)
          | _, _ => None
          end
      | _, _ => None
      end
  | SExec i outcome =>
      match exec s !! i with
      | Some c =>
          if exec_outcome c outcome s then
            s ← pool_event (EvSlot i (EvExec outcome)) s;
            Some (set_exec (<[i := CallNone]> (exec s)) s)
          else None
      | None => None
      end
  | STerminate i =>
      match phase <$> supervisor_at i s with
      | Some (PTerminating _ w) => n ← task_tx w; thread_event n ThCloseTx s
      | _ => None
      end
  | SJoined i now =>
      match phase <$> supervisor_at i s with
      | Some (PTerminating _ w) =>
          if torn_down w s then pool_event (EvSlot i (EvTerminated now)) s else None
      | _ => None
      end
  | SUnwind i =>
      (* the worker of a supervisor that panicked is dropped with its frame *)
      match supervisor_at i s with
      | Some sup =>
          match phase sup with
          | PPanicked => n ← worker sup ≫= task_tx; thread_event n ThCloseTx s
          | _ => None
          end
      | None => None
      end
  | SThread n ev =>
      match ev with
      | ThSend _ _ | ThCloseTx => None
      | _ => thread_event n ev s
      end
  | SBootPanic i =>
      match spawning s !! i with
      | Some SpPanicked => pool_event (EvSlot i EvBootPanic) s
      | _ => None
      end
  end.
End system.
