(* ===== verification/SystemSpec.v ===== *)
(** What the composed system promises: it loses no request, no two requests share
    a channel or a permit, and every caller whose request completes holds the
    response of its own PHP handler. *)

From S2P Require Import Prelude.
From S2P Require Import Config.
From S2P Require Import Protocol.
From S2P Require Import Collect.
From S2P Require Import Runtime.
From S2P Require Import ExtRuntime.
From S2P Require Import Bridge.
From S2P Require Import BridgeSpec.
From S2P Require Import BridgeProps.
From S2P Require Import BridgeIso.
From S2P Require Import WorkerThread.
From S2P Require Import Supervisor.
From S2P Require Import SupervisorSpec.
From S2P Require Import Dispatch.
From S2P Require Import Pool.
From S2P Require Import PoolSpec.
From S2P Require Import PoolLive.
From S2P Require Import System.

Section spec.
Context `{FA : FolkApi}.
Context (config : WorkersConfig) (php : string -> value -> Handler).

Abbreviation step := (sys_step config php).
Abbreviation pstep := (pool_step config (W := ChannelWorkerHandle)).
Implicit Types (s : System) (p : PoolState ChannelWorkerHandle).

#[local] Arguments thread_step : simpl never.
#[local] Arguments pool_step : simpl never.

(** * Refinement of the pool *)

(** The requests made by the callers of a run, when [k] calls came before. *)
Fixpoint requests (k : nat) (evs : list SysEvent) : list DispatchRequest :=
  match evs with
  | [] => []
  | SCall id m p body :: evs => call_request k id m p body :: requests (S k) evs
  | _ :: evs => requests k evs
  end.

Lemma pool_event_Some ev s s' :
  pool_event config ev s = Some s' -> exists p, pstep ev (pool s) = Some p /\ s' = set_pool p s.
Proof.
  unfold pool_event. destruct (pool_step config ev (pool s)) as [p|]; [|done].
  intros [= <-]. eauto.
Qed.

Lemma thread_event_Some n ev s s' :
  thread_event php n ev s = Some s' ->
  exists t t', threads s !! n = Some t /\ thread_step php ev t = Some t'
    /\ s' = set_threads (<[n := t']> (threads s)) s.
Proof.
  unfold thread_event. destruct (threads s !! n) as [t|] eqn:Ht; [|done]. simpl.
  destruct (thread_step php ev t) as [t'|] eqn:Hs; [|done]. intros [= <-]. eauto 10.
Qed.

(** What the send of [execute_streaming] does. *)
Lemma send_Some i room s s' :
  step (SSend i room) s = Some s' ->
  exists sup req, supervisor_at i s = Some sup /\ phase sup = PExec req /\ exec s !! i = Some CallNone
    /\ (s' = set_exec (<[i := CallFailed]> (exec s)) s
        \/ exists n t t', threads s !! n = Some t
             /\ thread_step php (ThSend (task_of req (next_done s)) room) t = Some t'
             /\ s' = {| pool := pool s; runtime := runtime s; spawning := spawning s;
                        exec := <[i := CallSent n (next_done s)]> (exec s);
                        threads := <[n := t']> (threads s);
                        next_stream := next_stream s; next_done := S (next_done s) |}).
Proof.
  simpl. intros Hstep. destruct (supervisor_at i s) as [sup|]; [|done].
  destruct (exec s !! i) as [[]|]; try done. destruct (phase sup) as [| | | | | | | |req| | |] eqn:Hph; try done.
  exists sup, req. split_and!; [done..|].
  destruct (worker sup ≫= task_tx) as [n|]; [|simplify_eq; by left].
  destruct (threads s !! n) as [t|] eqn:Ht; [|done]. simpl in Hstep.
  destruct (pc t); [..|simplify_eq; by left];
    (destruct (thread_step php _ t) as [t'|] eqn:Hs; simplify_eq/=; right; by exists n, t, t').
Qed.

Lemma unwind_Some i s s' :
  step (SUnwind i) s = Some s' ->
  exists sup n, supervisor_at i s = Some sup /\ phase sup = PPanicked /\ worker sup ≫= task_tx = Some n
    /\ thread_event php n ThCloseTx s = Some s'.
Proof.
  simpl. intros Hstep. destruct (supervisor_at i s) as [sup|]; [|done].
  destruct (phase sup) eqn:Hph; try done. destruct (worker sup ≫= task_tx) as [n|] eqn:Hn; [|done]. eauto 10.
Qed.

(** A spawn that panics is the only way a supervisor can die. *)
Definition spawn_panics (ev : SysEvent) : bool :=
  match ev with SBootPanic _ => true | _ => false end.

(** A step of the system is a step of its pool or leaves the pool alone. *)
Lemma sys_step_pool ev s s' :
  step ev s = Some s' ->
  ((pool s' = pool s /\ requests (next_stream s) [ev] = [])
   \/ exists pev, pstep pev (pool s) = Some (pool s') /\ (spawn_panics ev = false -> tame pev)
        /\ acquired pev = requests (next_stream s) [ev])
  /\ next_stream s' = next_stream s + length (requests (next_stream s) [ev]).
Proof.
  intros Hstep.
  assert (forall pev s1, pool_event config pev s = Some s1 -> (spawn_panics ev = false -> tame pev) ->
    acquired pev = requests (next_stream s) [ev] -> pool s' = pool s1 ->
    next_stream s' = next_stream s + length (requests (next_stream s) [ev]) ->
    ((pool s' = pool s /\ requests (next_stream s) [ev] = [])
     \/ exists pev, pstep pev (pool s) = Some (pool s') /\ (spawn_panics ev = false -> tame pev)
          /\ acquired pev = requests (next_stream s) [ev])
    /\ next_stream s' = next_stream s + length (requests (next_stream s) [ev])) as Hpool.
  { intros pev s1 (p' & Hp & ->)%pool_event_Some Ht Ha Hs' Hn. split; [right|done].
    exists pev. by rewrite Hs'. }
  assert (pool s' = pool s -> next_stream s' = next_stream s -> requests (next_stream s) [ev] = [] ->
    ((pool s' = pool s /\ requests (next_stream s) [ev] = [])
     \/ exists pev, pstep pev (pool s) = Some (pool s') /\ (spawn_panics ev = false -> tame pev)
          /\ acquired pev = requests (next_stream s) [ev])
    /\ next_stream s' = next_stream s + length (requests (next_stream s) [ev])) as Hother.
  { intros E1 E2 E3. rewrite E3, E2. split; [by left|simpl; lia]. }
  assert (forall n tev, thread_event php n tev s = Some s' -> pool s' = pool s /\ next_stream s' = next_stream s) as Hth.
  { by intros n tev (t & t' & _ & _ & ->)%thread_event_Some. }
  destruct ev as [id m p body|pev|i cwd th|i|i ready|i room|i o|i|i now|i|n tev|i].
  6:{ apply send_Some in Hstep as (sup & req & _ & _ & _ & [->|(n & t & t' & _ & _ & ->)]); by apply Hother. }
  9:{ apply unwind_Some in Hstep as (sup & n & _ & _ & _ & [E1 E2]%Hth). by apply Hother. }
  all: simpl in Hstep.
  - destruct (pool_event _ _ s) as [s1|] eqn:He; [|done]. simplify_eq/=. eapply (Hpool _ s1); simpl; try done.
    apply pool_event_Some in He as (p' & _ & ->). simpl. lia.
  - destruct (own_event pev) eqn:Ho; [|done]. apply (Hpool pev s'); try done.
    + intros _. by destruct pev as [| | | | |? []| | |].
    + by destruct pev as [| | | | |? []| | |].
    + apply pool_event_Some in Hstep as (p' & _ & ->). simpl. lia.
  - apply Hother; [repeat case_match; by simplify_eq/=..|done].
  - repeat case_match; try done. destruct (task_tx _); [|done]. apply Hth in Hstep as [E1 E2]. by apply Hother.
  - destruct (spawning s !! i) as [[]|]; try done. case_match; [|done].
    destruct (pool_event _ _ s) as [s1|] eqn:He; [|done]. simplify_eq/=. eapply (Hpool _ s1); try done.
    apply pool_event_Some in He as (p' & _ & ->). simpl. lia.
  - destruct (exec s !! i) as [c|]; [|done]. case_match; [|done].
    destruct (pool_event _ _ s) as [s1|] eqn:He; [|done]. simplify_eq/=. eapply (Hpool _ s1); try done.
    apply pool_event_Some in He as (p' & _ & ->). simpl. lia.
  - repeat case_match; try done. destruct (task_tx _); [|done]. apply Hth in Hstep as [E1 E2]. by apply Hother.
  - repeat case_match; try done. eapply (Hpool _ s'); try done.
    apply pool_event_Some in Hstep as (p' & _ & ->). simpl. lia.
  - assert (thread_event php n tev s = Some s') as [E1 E2]%Hth by (by destruct tev). by apply Hother.
  - repeat case_match; try done. eapply (Hpool _ s'); try done.
    apply pool_event_Some in Hstep as (p' & _ & ->). simpl. lia.
Qed.

Lemma requests_cons k ev evs : requests k (ev :: evs) = requests k [ev] ++ requests (k + length (requests k [ev])) evs.
Proof. destruct ev; simpl; rewrite ?Nat.add_0_r, ?Nat.add_1_r; done. Qed.

(** Seen from the pool, every run of the system is a run of the pool with the same
    requests. *)
Lemma sys_run_pool evs s s' :
  run step evs s = Some s' ->
  (exists pevs, run pstep pevs (pool s) = Some (pool s') /\ (existsb spawn_panics evs = false -> Forall tame pevs)
     /\ pevs ≫= acquired = requests (next_stream s) evs /\ length pevs <= length evs)
  /\ next_stream s' = next_stream s + length (requests (next_stream s) evs).
Proof.
  revert s; induction evs as [|ev evs IH]; intros s Hrun; cbn [run] in Hrun.
  { simplify_eq. split; [by exists []|simpl; lia]. }
  destruct (step ev s) as [s1|] eqn:Hstep; [|done].
  apply sys_step_pool in Hstep as [Hpool Hnext].
  destruct (IH s1 Hrun) as [(pevs & Hp & Ht & Ha & Hl) Hn]. rewrite Hnext in Ha, Hn.
  rewrite requests_cons, length_app. split; [|lia]. simpl existsb.
  destruct Hpool as [[Heq Hnil]|(pev & Hs & Htame & Hacq)].
  - exists pevs. rewrite <- Heq, Hnil in *. simpl in *. rewrite Nat.add_0_r in *. split_and!; [done| |done|lia].
    intros [_ E2]%orb_false_iff. by apply Ht.
  - exists (pev :: pevs). cbn [run]. rewrite Hs. split_and!; [done| | |simpl; lia].
    + intros [E1 E2]%orb_false_iff. constructor; [by apply Htame|by apply Ht].
    + rewrite bind_cons, Hacq. by f_equal.
Qed.

(** What a run of the system is for its pool, while its supervisors live. *)
Lemma sys_run_alive evs now s :
  (2 * Z.of_nat (count config) <= u64_max)%Z -> (Z.of_nat (length evs) <= u64_max)%Z ->
  existsb spawn_panics evs = false ->
  run step evs (sys_init config now) = Some s ->
  (forall i sl, slots (pool s) !! i = Some sl -> ended (supervisor sl) = false)
  /\ dropped (pool s) = [] /\ accounted (pool s) ≡ₚ requests 0 evs.
Proof.
  intros Hcount Hlen Hno Hrun.
  destruct (proj1 (sys_run_pool _ _ _ Hrun)) as (pevs & Hp & Ht & Ha & Hl). simpl in Hp. specialize (Ht Hno).
  assert (forall i sl, slots (pool s) !! i = Some sl -> ended (supervisor sl) = false) as Halive.
  { intros i sl Hi. eapply (pool_run_alive config pevs); [done..|lia|exact Hp|exact Hi]. }
  split_and!; [done|exact (pinv_lost _ _ (pool_run_inv config Hcount _ _ _ Hp) Halive)|].
  apply pool_run_accounted in Hp. by rewrite Hp, pool_new_accounted, app_nil_r, Ha.
Qed.

Lemma requests_named k evs :
  stream_tx <$> requests k evs = seq k (length (requests k evs))
  /\ permit <$> requests k evs = seq k (length (requests k evs)).
Proof.
  revert k; induction evs as [|ev evs IH]; intros k; [done|]. destruct ev; cbn [requests]; try apply IH.
  destruct (IH (S k)) as [E1 E2]. rewrite !fmap_cons, E1, E2. done.
Qed.

(** C3. The composed system loses nothing: whatever PHP, the threads, the timeouts
    and the reloads do, every request a caller ever made is, exactly once, in
    flight, finished, given back or cancelled by its caller; no two have the same
    response channel or the same permit; and the free permits and the requests
    in flight add up to [workers.count].  In the first 2^64 - 1 steps no
    supervisor task ends and no request is given back, unless the system refuses
    a worker its thread. *)
Theorem system_loses_nothing evs now s
    (Hcount : (2 * Z.of_nat (count config) <= u64_max)%Z)
    (Hrun : run step evs (sys_init config now) = Some s) :
  let held := in_flight (pool s) ++ finished (pool s) ++ dropped (pool s) ++ cancelled (pool s) in
  held ≡ₚ requests 0 evs
  /\ NoDup (stream_tx <$> held) /\ NoDup (permit <$> held)
  /\ available (pool s) + length (in_flight (pool s)) = count config
  /\ ((Z.of_nat (length evs) <= u64_max)%Z -> existsb spawn_panics evs = false ->
      (forall i sup, supervisor_at i s = Some sup -> ended sup = false) /\ dropped (pool s) = []).
Proof.
  destruct (proj1 (sys_run_pool _ _ _ Hrun)) as (pevs & Hp & _ & Ha & _). simpl in Hp.
  pose proof (pool_run_accounted _ _ _ _ Hp) as Hacc. rewrite pool_new_accounted, app_nil_r, Ha in Hacc.
  intros held. change (held ≡ₚ requests 0 evs) in Hacc. destruct (requests_named 0 evs) as [Hst Hpm].
  split_and!; [exact Hacc|rewrite Hacc, Hst; apply NoDup_seq|rewrite Hacc, Hpm; apply NoDup_seq| |].
  - exact (pinv_permits _ _ (pool_run_inv config Hcount _ _ _ Hp)).
  - intros Hlen Hno. destruct (sys_run_alive evs now s Hcount Hlen Hno Hrun) as (Halive & Hdrop & _).
    split; [|done]. intros i sup Hsup. unfold supervisor_at in Hsup.
    destruct (slots (pool s) !! i) eqn:Hi; simplify_eq/=. by eapply Halive.
Qed.

(** * Invariant *)

(** The response channel has been handed to a worker. *)
Definition sent_stream s (sid : nat) : Prop :=
  sid ∈ stream_tx <$> finished (pool s) ++ dropped (pool s)
  \/ exists i sup req n did, supervisor_at i s = Some sup /\ phase sup = PExec req
       /\ stream_tx req = sid /\ exec s !! i = Some (CallSent n did).

Definition call_ok s (i : nat) (c : ExecCall) : Prop :=
  match c with
  | CallNone => True
  | CallFailed => exists sup req, supervisor_at i s = Some sup /\ phase sup = PExec req
  | CallSent n did =>
      exists sup req t room, supervisor_at i s = Some sup /\ phase sup = PExec req
        /\ threads s !! n = Some t /\ (task_of req did, room) ∈ tasks t
  end.

Definition task_known s (task : TaskRequest * option nat) : Prop :=
  done_tx task.1 < next_done s /\ sent_stream s (Bridge.stream_tx task.1).

Record sys_inv (reqs : list DispatchRequest) s : Prop := {
  sy_accounted : accounted (pool s) ≡ₚ reqs;
  sy_streams : stream_tx <$> reqs = seq 0 (next_stream s);
  sy_threads : forall n t, threads s !! n = Some t -> thread_inv php t /\ Forall (task_known s) (tasks t);
  sy_calls : forall i c, exec s !! i = Some c -> call_ok s i c;
  sy_names : forall n t, threads s !! n = Some t -> n < next_name (runtime s);
}.

Lemma sys_init_inv now : sys_inv [] (sys_init config now).
Proof.
  split; simpl.
  - by rewrite pool_new_accounted.
  - done.
  - intros n t [<- <-]%lookup_singleton_Some. split; [apply thread_new_inv|constructor].
  - intros i c [-> _]%lookup_replicate. done.
  - intros n t [<- _]%lookup_singleton_Some. lia.
Qed.

(** ** Steps of the pool *)

(** Steps that do not end a call of [execute_streaming]. *)
Definition no_exec (ev : PoolEvent ChannelWorkerHandle) : Prop :=
  match ev with EvSlot _ (EvExec _ | EvExecPanic) => False | _ => True end.

Lemma slot_event_Some i ev p p' :
  pstep (EvSlot i ev) p = Some p' ->
  exists sl sup', slots p !! i = Some sl
    /\ sup_step config (reload_tx p) (recv_event ev (inbox sl)) (supervisor sl) = Some sup'
    /\ (exists q, slots p' = <[i := {| inbox := q; supervisor := sup' |}]> (slots p))
    /\ finished p' = finished p ++ completed_by (supervisor sl) sup' (recv_event ev (inbox sl))
    /\ exists l, dropped p' = dropped p ++ l.
Proof.
  unfold pool_step. intros Hstep. destruct (slots p !! i) as [sl|] eqn:Hi; [|done].
  destruct (inbox_event ev (inbox sl)) as [q|]; [|done].
  destruct (sup_step _ _ _ _) as [s'|] eqn:Hs; [|done]. simplify_eq/=.
  exists sl, s'. split_and!; eauto.
Qed.

(** What every step of the pool leaves alone. *)
Lemma pool_step_frame ev p p' :
  pstep ev p = Some p' ->
  (exists l, finished p' = finished p ++ l) /\ (exists l, dropped p' = dropped p ++ l)
  /\ forall j sl, slots p !! j = Some sl -> (forall e, ev <> EvSlot j e) ->
       exists sl', slots p' !! j = Some sl' /\ supervisor sl' = supervisor sl.
Proof.
  intros Hstep. destruct ev as [req| | | | |i ev| |k|].
  6:{ apply slot_event_Some in Hstep as (sl & s' & Hi & _ & (q & Hsl) & Hf & Hd).
      split_and!; [by eauto|done|]. intros j sl' Hj Hne. rewrite Hsl.
      rewrite list_lookup_insert_ne; [by eauto|]. intros ->. by apply (Hne ev). }
  all: unfold pool_step in Hstep; repeat case_match; simplify_eq/=.
  all: split_and!; [by exists []; rewrite app_nil_r|try (by exists []; rewrite app_nil_r); by eexists|].
  all: intros j sl' Hj _; try (by eauto).
  destruct (decide (chosen_slot (length (slots p)) (next (main p)) n = j)) as [Heq|Hne].
  - rewrite Heq in *. simplify_eq. eexists.
    rewrite list_lookup_insert_eq by (by eapply lookup_lt_Some). done.
  - rewrite list_lookup_insert_ne by done. eauto.
Qed.

(** A supervisor that awaits [execute_streaming] waits for its end. *)
Lemma exec_kept ev p p' j sl req :
  pstep ev p = Some p' -> no_exec ev -> slots p !! j = Some sl -> phase (supervisor sl) = PExec req ->
  exists sl', slots p' !! j = Some sl' /\ supervisor sl' = supervisor sl.
Proof.
  intros Hstep Hno Hj Hph. destruct (pool_step_frame _ _ _ Hstep) as (_ & _ & Hkeep).
  apply Hkeep; [done|]. intros e ->.
  apply slot_event_Some in Hstep as (sl' & s' & Hi & Hs & _). rewrite Hj in Hi. injection Hi as <-.
  unfold sup_step in Hs. rewrite Hph in Hs. destruct e; try done. simpl in Hs. by destruct (inbox sl).
Qed.

Lemma supervisor_kept ev s p' j sup req :
  pstep ev (pool s) = Some p' -> no_exec ev -> supervisor_at j s = Some sup -> phase sup = PExec req ->
  supervisor <$> slots p' !! j = Some sup.
Proof.
  unfold supervisor_at. intros Hstep Hno Hj Hph. destruct (slots (pool s) !! j) as [sl|] eqn:Hsl; [|done].
  simpl in Hj. injection Hj as <-. destruct (exec_kept _ _ _ _ _ _ Hstep Hno Hsl Hph) as (sl' & -> & <-). done.
Qed.

Lemma finished_kept ev p p' sid :
  pstep ev p = Some p' -> sid ∈ stream_tx <$> finished p ++ dropped p ->
  sid ∈ stream_tx <$> finished p' ++ dropped p'.
Proof.
  intros Hstep Hin. destruct (pool_step_frame _ _ _ Hstep) as ([l ->] & [l' ->] & _).
  rewrite !fmap_app in *. set_solver.
Qed.

(** ** Response channels are handed over once *)

Lemma unsent s reqs i sup req :
  sys_inv reqs s -> supervisor_at i s = Some sup -> phase sup = PExec req -> exec s !! i = Some CallNone ->
  ~ sent_stream s (stream_tx req).
Proof.
  intros [Hacc Hst _ _ _] Hi Hph Hex Hsent.
  assert (NoDup (stream_tx <$> accounted (pool s))) as Hnd by (rewrite Hacc, Hst; apply NoDup_seq).
  unfold accounted, in_flight in Hnd. unfold supervisor_at in *.
  destruct (slots (pool s) !! i) as [sl|] eqn:Hsl; [|done]. simpl in Hi. injection Hi as <-.
  assert (forall j sl' req', slots (pool s) !! j = Some sl' -> phase (supervisor sl') = PExec req' ->
    req' ∈ slot_requests sl') as Hslot.
  { intros j sl' req' _ Hp. unfold slot_requests, executing. rewrite Hp. set_solver. }
  assert (forall j sl' req', slots (pool s) !! j = Some sl' -> phase (supervisor sl') = PExec req' ->
    req' ∈ slots (pool s) ≫= slot_requests) as Hslots.
  { intros j sl' req' Hj Hp. apply list_elem_of_bind. exists sl'. split; [by eapply Hslot|].
    by eapply list_elem_of_lookup_2. }
  rewrite !fmap_app in Hnd. destruct Hsent as [Hfin|(j & sup' & req' & n & did & Hj & Hp & Heq & Hex')].
  - apply NoDup_app in Hnd as (_ & Hdisj & _). apply (Hdisj (stream_tx req)).
    + rewrite !elem_of_app. right. right. right. apply list_elem_of_fmap_2. by eapply Hslots.
    + rewrite fmap_app in Hfin. set_solver.
  - apply NoDup_app in Hnd as (Hnd & _). do 3 apply NoDup_app in Hnd as (_ & _ & Hnd).
    unfold supervisor_at in Hj.
    destruct (slots (pool s) !! j) as [sl'|] eqn:Hsl'; [|done]. simpl in Hj. injection Hj as <-.
    assert (i = j) as ->.
    { eapply (NoDup_bind_key stream_tx slot_requests); [exact Hnd|exact Hsl|exact Hsl'| | |].
      - by eapply Hslot.
      - by eapply Hslot.
      - done. }
    congruence.
Qed.

(** A request that is sent has new channels. *)
Lemma send_fresh s reqs i sup req n t room :
  sys_inv reqs s -> supervisor_at i s = Some sup -> phase sup = PExec req -> exec s !! i = Some CallNone ->
  threads s !! n = Some t -> fresh_for t (ThSend (task_of req (next_done s)) room).
Proof.
  intros Hinv Hi Hph He Ht. destruct (sy_threads _ _ Hinv n t Ht) as [_ Hk]. rewrite Forall_forall in Hk.
  split; intros (task & Heq & Hin)%list_elem_of_fmap; simpl in Heq.
  - apply (unsent s reqs i sup req Hinv Hi Hph He). rewrite Heq. by apply Hk.
  - destruct (Hk task Hin) as [Hlt _]. lia.
Qed.

(** ** Preservation *)

Lemma sent_stream_mono s s' sid :
  (forall x, x ∈ stream_tx <$> finished (pool s) ++ dropped (pool s) ->
     x ∈ stream_tx <$> finished (pool s') ++ dropped (pool s')) ->
  (forall i sup req n did, supervisor_at i s = Some sup -> phase sup = PExec req ->
     exec s !! i = Some (CallSent n did) ->
     (supervisor_at i s' = Some sup /\ exec s' !! i = Some (CallSent n did))
     \/ stream_tx req ∈ stream_tx <$> finished (pool s') ++ dropped (pool s')) ->
  sent_stream s sid -> sent_stream s' sid.
Proof.
  intros Hfin Hslots [Hin|(i & sup & req & n & did & Hi & Hp & <- & He)]; [left; by apply Hfin|].
  destruct (Hslots i sup req n did Hi Hp He) as [[Hi' He']|Hin]; [right|by left].
  by exists i, sup, req, n, did.
Qed.

(** Threads that keep their tasks. *)
Lemma threads_mono s s' t :
  next_done s <= next_done s' -> (forall sid, sent_stream s sid -> sent_stream s' sid) ->
  Forall (task_known s) (tasks t) -> Forall (task_known s') (tasks t).
Proof.
  intros Hd Hs Hall. eapply Forall_impl; [exact Hall|]. intros task [H1 H2]. split; [lia|by apply Hs].
Qed.

(** A step of the pool that starts and ends no call of [execute_streaming]. *)
Lemma pool_event_inv reqs ev s s' :
  sys_inv reqs s -> pool_event config ev s = Some s' -> no_exec ev -> acquired ev = [] -> sys_inv reqs s'.
Proof.
  intros [Hacc Hst Hth Hcalls Hnm] Hstep Hno Hacq.
  apply pool_event_Some in Hstep as (p' & Hp & ->).
  assert (forall sid, sent_stream s sid -> sent_stream (set_pool p' s) sid) as Hsent.
  { intros sid. apply sent_stream_mono.
    - intros x. by eapply finished_kept.
    - intros i sup req n did Hi Hph He. left. split; [|done]. by eapply supervisor_kept. }
  split; simpl; [|done| | |done].
  - destruct (pool_step_conserves _ _ _ _ Hp) as [-> _]. by rewrite Hacq.
  - intros n t Ht. destruct (Hth n t Ht) as [Hi Hk]. split; [done|]. by apply (threads_mono s).
  - intros i c Hc. specialize (Hcalls i c Hc). destruct c as [|n did|]; simpl in *; [done| |].
    + destruct Hcalls as (sup & req & t & room & Hi & Hph & Hrest). exists sup, req, t, room.
      split; [|done]. by eapply supervisor_kept.
    + destruct Hcalls as (sup & req & Hi & Hph). exists sup, req. split; [|done]. by eapply supervisor_kept.
Qed.

(** A step of a thread that does not put a task on its channel. *)
Lemma thread_event_inv reqs n ev s s' :
  (forall m v, no_recv (php m v)) ->
  sys_inv reqs s -> thread_event php n ev s = Some s' ->
  match ev with ThSend _ _ => False | _ => True end -> sys_inv reqs s'.
Proof.
  intros Hphp [Hacc Hst Hth Hcalls Hnm] Hstep Hev.
  apply thread_event_Some in Hstep as (t & t' & Ht & Hs & ->).
  pose proof (thread_step_tasks php ev t t' Hs) as Htasks.
  assert (tasks t' = tasks t) as Heq by (rewrite Htasks; destruct ev; try done; apply app_nil_r).
  split; simpl; [done|done| | |].
  - intros m tm [[<- <-]|[_ Hm]]%lookup_insert_Some.
    + destruct (Hth n t Ht) as [Hi Hk]. split; [|rewrite Heq; by apply (threads_mono s)].
      eapply (thread_step_inv php Hphp ev t); [done| |done]. by destruct ev.
    + destruct (Hth m tm Hm). split; [done|]. by apply (threads_mono s).
  - intros i c Hc. specialize (Hcalls i c Hc). destruct c as [|m did|]; simpl in *; [done| |done].
    destruct Hcalls as (sup & req & tm & room & Hi & Hph & Hm & Hin).
    destruct (decide (m = n)) as [->|Hne].
    + exists sup, req, t', room. rewrite lookup_insert_eq. split_and!; [done..|].
      assert (tm = t) as -> by congruence. by rewrite Heq.
    + exists sup, req, tm, room. by rewrite lookup_insert_ne.
  - intros m tm [[<- <-]|[_ Hm]]%lookup_insert_Some; by eapply Hnm.
Qed.

Lemma call_step_inv reqs id m v body s s' :
  sys_inv reqs s -> step (SCall id m v body) s = Some s' ->
  sys_inv (reqs ++ [call_request (next_stream s) id m v body]) s'.
Proof.
  intros [Hacc Hst Hth Hcalls Hnm] Hstep. simpl in Hstep.
  destruct (pool_event _ _ s) as [s1|] eqn:He; [|done]. simplify_eq/=.
  apply pool_event_Some in He as (p' & Hp & ->). simpl.
  match goal with |- sys_inv _ ?s2 => set (s' := s2) end.
  assert (forall sid, sent_stream s sid -> sent_stream s' sid) as Hsent.
  { intros sid. apply sent_stream_mono.
    - intros x. by eapply finished_kept.
    - intros i sup req n did Hi Hph He. left. split; [|done]. by eapply supervisor_kept. }
  split; simpl; [| | | |done].
  - destruct (pool_step_conserves _ _ _ _ Hp) as [-> _]. rewrite Hacc. simpl. solve_Permutation.
  - rewrite fmap_app, Hst. symmetry. exact (seq_S (next_stream s) 0).
  - intros n t Ht. destruct (Hth n t Ht) as [Hi Hk]. split; [done|]. by apply (threads_mono s).
  - intros i c Hc. specialize (Hcalls i c Hc). destruct c as [|n did|]; simpl in *; [done| |].
    + destruct Hcalls as (sup & req & t & room & Hi & Hph & Hrest). exists sup, req, t, room.
      split; [|done]. by eapply supervisor_kept.
    + destruct Hcalls as (sup & req & Hi & Hph). exists sup, req. split; [|done]. by eapply supervisor_kept.
Qed.

Lemma send_step_inv reqs i room s s' :
  (forall m v, no_recv (php m v)) ->
  sys_inv reqs s -> step (SSend i room) s = Some s' -> sys_inv reqs s'.
Proof.
  intros Hphp Hinv Hstep. pose proof Hinv as [Hacc Hst Hth Hcalls Hnm].
  apply send_Some in Hstep as (sup & req & Hi & Hph & He & [->|(n & t & t' & Ht & Hs & ->)]).
  - assert (forall sid, sent_stream s sid -> sent_stream (set_exec (<[i:=CallFailed]> (exec s)) s) sid) as Hsent.
    { intros sid. apply sent_stream_mono; [done|]. intros j sup' req' n did Hj Hp He'. left.
      split; [done|]. simpl. rewrite list_lookup_insert_ne; [done|]. intros ->. congruence. }
    split; simpl; [done|done| | |done].
    + intros n t Ht. destruct (Hth n t Ht). split; [done|]. by apply (threads_mono s).
    + intros j c [(<- & <- & _)|[_ Hj]]%list_lookup_insert_Some; [by exists sup, req|by apply Hcalls].
  - match goal with |- sys_inv _ ?s2 => set (s' := s2) end.
    destruct (Hth n t Ht) as [Hti Hk].
    pose proof (thread_step_tasks php _ t t' Hs) as Htasks. simpl in Htasks.
    assert (i < length (exec s)) as Hlen by (by eapply lookup_lt_Some).
    assert (forall sid, sent_stream s sid -> sent_stream s' sid) as Hsent.
    { intros sid. apply sent_stream_mono; [done|]. intros j sup' req' m did Hj Hp He'. left.
      split; [done|]. simpl. rewrite list_lookup_insert_ne; [done|]. intros ->. congruence. }
    split; simpl; [done|done| | |].
    + intros m tm [[<- <-]|[_ Hm]]%lookup_insert_Some.
      * split.
        -- eapply (thread_step_inv php Hphp _ t); [done|by eapply send_fresh|exact Hs].
        -- rewrite Htasks. apply Forall_app. split.
           ++ by apply (threads_mono s); [simpl; lia|..].
           ++ apply Forall_singleton. split; [simpl; lia|]. right. exists i, sup, req, n, (next_done s).
              split_and!; [done..|]. simpl. by rewrite list_lookup_insert_eq.
      * destruct (Hth m tm Hm). split; [done|]. by apply (threads_mono s); [simpl; lia|..].
    + subst s'. intros j c [(<- & <- & _)|[Hne Hj]]%list_lookup_insert_Some; simpl.
      * exists sup, req, t', room. rewrite lookup_insert_eq. split_and!; [done..|].
        rewrite Htasks. apply elem_of_app. right. by left.
      * specialize (Hcalls j c Hj). destruct c as [|m did|]; simpl in *; [done| |done].
        destruct Hcalls as (sup' & req' & tm & room' & Hj' & Hp' & Hm & Hin).
        destruct (decide (m = n)) as [->|Hnm'].
        -- exists sup', req', t', room'. rewrite lookup_insert_eq. split_and!; [done..|].
           assert (tm = t) as -> by congruence. rewrite Htasks. apply elem_of_app. by left.
        -- exists sup', req', tm, room'. by rewrite lookup_insert_ne.
    + intros m tm [[<- <-]|[_ Hm]]%lookup_insert_Some; by eapply Hnm.
Qed.

Lemma spawn_step_started cwd th pc rt rt' pc' ts :
  spawn_step cwd th pc rt = (rt', pc') -> (forall r, pc <> SpDone r) -> pc <> SpPanicked ->
  next_name rt <= next_name rt'
  /\ (started pc' ts = ts
      \/ exists id, started pc' ts = <[next_name rt := thread_new id]> ts /\ next_name rt < next_name rt').
Proof.
  intros Hstep Hpc Hnp. destruct pc as [| |id| |r|]; simpl in Hstep; [..|by destruct (Hpc r)|done].
  - destruct (channels rt); [case_decide|]; simplify_eq; split; auto.
  - simplify_eq. simpl. split; [lia|by left].
  - destruct (vec_pop (channels rt)) as [[rest side]|]; simplify_eq; split; auto.
  - destruct cwd as [d|e], th; simpl in Hstep; simplify_eq/=;
      [split; [lia|right]|split; [lia|by left]|split; [lia|by left]..].
    eexists. split; [done|lia].
Qed.

(** A spawn that is under way takes its next step. *)
Lemma spawn_Some i cwd th s s' :
  step (SSpawn i cwd th) s = Some s' ->
  exists pc rt pc', phase <$> supervisor_at i s = Some PBooting /\ spawning s !! i = Some pc
    /\ (forall r, pc <> SpDone r) /\ pc <> SpPanicked /\ spawn_step cwd th pc (runtime s) = (rt, pc')
    /\ s' = {| pool := pool s; runtime := rt; spawning := <[i := pc']> (spawning s); exec := exec s;
               threads := started pc' (threads s); next_stream := next_stream s; next_done := next_done s |}.
Proof.
  simpl. intros Hstep. destruct (phase <$> supervisor_at i s) as [[]|]; try done.
  destruct (spawning s !! i) as [pc|]; [|done].
  destruct (spawn_step cwd th pc (runtime s)) as [rt pc'] eqn:Hsp. exists pc, rt, pc'.
  split_and!; [done..| | |done|]; destruct pc; by simplify_eq.
Qed.

Lemma spawn_step_inv reqs i cwd th s s' :
  sys_inv reqs s -> step (SSpawn i cwd th) s = Some s' -> sys_inv reqs s'.
Proof.
  intros [Hacc Hst Hth Hcalls Hnm] Hstep.
  apply spawn_Some in Hstep as (pc & rt & pc' & _ & _ & Hpc & Hnp & Hsp & ->).
  destruct (spawn_step_started _ _ _ _ _ _ (threads s) Hsp Hpc Hnp) as [Hle Hts].
  destruct Hts as [->|(id & -> & Hlt)]; split; simpl; try done.
  - intros n t Ht. specialize (Hnm n t Ht). lia.
  - intros n t [[<- <-]|[_ Ht]]%lookup_insert_Some; [split; [apply thread_new_inv|by apply Forall_nil]|by apply (Hth n)].
  - intros j c Hc. specialize (Hcalls j c Hc). destruct c as [|n did|]; simpl in *; [done| |done].
    destruct Hcalls as (sup & req & t & room & Hi & Hph & Hn & Hin). exists sup, req, t, room.
    rewrite lookup_insert_ne; [done|]. specialize (Hnm n t Hn). lia.
  - intros n t [[<- _]|[_ Ht]]%lookup_insert_Some; [done|]. specialize (Hnm n t Ht). lia.
Qed.

(** The end of a call: its request has finished. *)
Lemma exec_event_Some i o s s' :
  step (SExec i o) s = Some s' ->
  exists c p', exec s !! i = Some c /\ exec_outcome c o s = true
    /\ pstep (EvSlot i (EvExec o)) (pool s) = Some p'
    /\ s' = set_exec (<[i := CallNone]> (exec s)) (set_pool p' s)
    /\ (forall sup req, supervisor_at i s = Some sup -> phase sup = PExec req ->
         finished p' = finished (pool s) ++ [req]).
Proof.
  simpl. destruct (exec s !! i) as [c|] eqn:Hc; [|done].
  destruct (exec_outcome c o s) eqn:Ho; [|done]. intros Hstep.
  destruct (pool_event _ _ s) as [s1|] eqn:He; [|done]. simplify_eq/=.
  apply pool_event_Some in He as (p' & Hp & ->). exists c, p'. split_and!; try done.
  intros sup req Hi Hph. apply slot_event_Some in Hp as (sl & sup' & Hsl & _ & _ & -> & _).
  unfold supervisor_at in Hi. rewrite Hsl in Hi. injection Hi as <-. simpl. unfold completed_by.
  by rewrite Hph.
Qed.

Lemma exec_step_inv reqs i o s s' :
  sys_inv reqs s -> step (SExec i o) s = Some s' -> sys_inv reqs s'.
Proof.
  intros [Hacc Hst Hth Hcalls Hnm] Hstep.
  apply exec_event_Some in Hstep as (c & p' & Hc & Ho & Hp & -> & Hfin).
  match goal with |- sys_inv _ ?s2 => set (s' := s2) end.
  assert (forall j sup, j <> i -> supervisor_at j s = Some sup -> supervisor_at j s' = Some sup) as Hsup.
  { intros j sup Hne Hj. unfold supervisor_at in *. simpl.
    destruct (slots (pool s) !! j) as [sl|] eqn:Hsl; [|done]. injection Hj as <-.
    destruct (pool_step_frame _ _ _ Hp) as (_ & _ & Hkeep).
    destruct (Hkeep j sl Hsl) as (sl' & -> & <-); [by intros e [= ? _]|done]. }
  assert (forall sid, sent_stream s sid -> sent_stream s' sid) as Hsent.
  { intros sid. apply sent_stream_mono.
    - intros x. by eapply finished_kept.
    - intros j sup req n did Hj Hph He. destruct (decide (j = i)) as [->|Hne].
      + right. simpl. rewrite (Hfin sup req Hj Hph), !fmap_app. set_solver.
      + left. split; [by apply Hsup|]. simpl. by rewrite list_lookup_insert_ne. }
  split; simpl; [|done| | |done].
  - by destruct (pool_step_conserves _ _ _ _ Hp) as [-> _].
  - intros n t Ht. destruct (Hth n t Ht) as [Hi Hk]. split; [done|]. by apply (threads_mono s).
  - intros j c' [(<- & <- & _)|[Hne Hj]]%list_lookup_insert_Some; [done|].
    specialize (Hcalls j c' Hj). destruct c' as [|n did|]; simpl in *; [done| |].
    + destruct Hcalls as (sup & req & t & room & Hi & Hph & Hrest). exists sup, req, t, room.
      split; [by apply Hsup|done].
    + destruct Hcalls as (sup & req & Hi & Hph). exists sup, req. split; [by apply Hsup|done].
Qed.

Lemma sys_step_inv reqs ev s s' :
  (forall m v, no_recv (php m v)) ->
  sys_inv reqs s -> step ev s = Some s' -> sys_inv (reqs ++ requests (next_stream s) [ev]) s'.
Proof.
  intros Hphp Hinv Hstep.
  destruct ev as [id m v body|pev|i cwd th|i|i ready|i room|i o|i|i now|i|n tev|i].
  1: by eapply call_step_inv.
  all: simpl requests; rewrite app_nil_r.
  - simpl in Hstep. destruct (own_event pev) eqn:Ho; [|done]. eapply pool_event_inv; [done..| |];
      by destruct pev as [| | | | |? []| | |].
  - by eapply spawn_step_inv.
  - simpl in Hstep. destruct (phase <$> supervisor_at i s) as [[]|]; try done.
    destruct (spawning s !! i) as [[| | | |[h|]|]|]; try done. destruct (task_tx h); [|done].
    by eapply thread_event_inv.
  - simpl in Hstep. destruct (spawning s !! i) as [[| | | |r|]|]; try done. case_match; [|done].
    destruct (pool_event _ _ s) as [s1|] eqn:He; [|done]. simplify_eq/=.
    destruct (pool_event_inv reqs _ _ _ Hinv He) as [H1 H2 H3 H4 H5]; done.
  - by eapply send_step_inv.
  - by eapply exec_step_inv.
  - simpl in Hstep. destruct (phase <$> supervisor_at i s) as [[]|]; try done. destruct (task_tx w); [|done].
    by eapply thread_event_inv.
  - simpl in Hstep. destruct (phase <$> supervisor_at i s) as [[]|]; try done. case_match; [|done].
    by eapply pool_event_inv.
  - apply unwind_Some in Hstep as (sup & n & _ & _ & _ & Hev). by eapply thread_event_inv.
  - simpl in Hstep. destruct tev; try done; by eapply thread_event_inv.
  - simpl in Hstep. repeat case_match; try done. by eapply pool_event_inv.
Qed.

Lemma sys_run_inv evs reqs s s' :
  (forall m v, no_recv (php m v)) ->
  sys_inv reqs s -> run step evs s = Some s' -> sys_inv (reqs ++ requests (next_stream s) evs) s'.
Proof.
  intros Hphp. revert reqs s; induction evs as [|ev evs IH]; intros reqs s Hinv Hrun; cbn [run] in Hrun.
  { simplify_eq. simpl. by rewrite app_nil_r. }
  destruct (step ev s) as [s1|] eqn:Hstep; [|done].
  pose proof (sys_step_inv reqs ev s s1 Hphp Hinv Hstep) as Hinv1.
  destruct (sys_step_pool _ _ _ Hstep) as [_ Hnext].
  specialize (IH _ _ Hinv1 Hrun). rewrite Hnext in IH.
  by rewrite requests_cons, (assoc_L (++)).
Qed.

(** * End to end *)

(** What the reference response is: always finished and framed, complete if the
    receiver is still there; for a caller that stays, the outcome of a handler
    that does not stream and the chunks of one that does. *)
Lemma response_facts `{HO : !HashOrder} req room :
  (forall m v, no_recv (php m v)) ->
  exists ch, response php req room = Some ch /\ sc_closed ch = true /\ well_framed (sc_sent ch)
    /\ (rx_left ch = None -> complete (sc_sent ch))
    /\ (forall r, room = None -> quietly_returns (php (Bridge.method req) (Bridge.payload req)) r ->
         collect_stream (sc_sent ch) = outcome_result r)
    /\ (forall status headers chunks r, room = None ->
         php (Bridge.method req) (Bridge.payload req) = streaming_handler status headers chunks r ->
         sc_sent ch = Headers status headers :: (Body <$> nonempty chunks) ++ [End]).
Proof.
  intros Hphp. unfold response.
  assert (distinct [req]) as Hd by (split; apply NoDup_singleton).
  assert (req ∈ [req]) as Hin by by left.
  destruct (run_dispatch_loop_start 2 None (fun _ => true) php 0 [req] (fun _ => room) Hd)
    as (b0 & Heq & Hinv & Hidle & _ & _ & Hsig & _).
  destruct (dispatch_loop_spec php b0 b0 [req] 0 0 Hphp Hinv Hsig Hidle)
    as (b & Hloop & Hinv' & _ & Hans & _). change (S (length [req]) + 0) with 2 in Hloop.
  rewrite <- Heq in Hloop. clear Heq. rewrite Hloop.
  apply Forall_singleton in Hans as (_ & ch & Hch & Hcl & Hcomp). exists ch.
  split_and!; [done|done|by eapply (bi_frames _ Hinv')|done| |].
  - intros r Hroom Hq.
    destruct (request_served php 0 [req] (fun _ => room) None (fun _ => true) 0 req false [] r Hphp Hd Hin Hroom)
      as (b' & Hrun & Hch' & _); [intros b1 Hv; by apply quiet_handler_serving|].
    change (S (length [req]) + 0) with 2 in Hrun. rewrite Hloop in Hrun. simplify_eq. apply collect_outcome.
  - intros status headers chunks r Hroom Hs.
    destruct (request_served php 0 [req] (fun _ => room) None (fun _ => true) 0 req true
      (Headers status headers :: (Body <$> nonempty chunks)) r Hphp Hd Hin Hroom)
      as (b' & Hrun & Hch' & _); [intros b1 Hv; rewrite Hs; by apply streaming_handler_serving|].
    change (S (length [req]) + 0) with 2 in Hrun. rewrite Hloop in Hrun. by simplify_eq.
Qed.

(** C2. End to end: when the pool sees a request complete, the caller's response
    channel holds what the PHP handler makes of this caller's method, payload and
    body, exactly as if a fresh worker had served nothing else, however many
    callers, workers, timeouts, reloads and deaths there were before.  The
    stream is closed and framed, complete if the caller is still reading; a
    caller that collects it gets the value a handler that does not stream
    returned, or the head and the chunks of one that does. *)
Theorem system_answers `{HO : !HashOrder} evs now s i s'
    (Hphp : forall m v, no_recv (php m v))
    (Hrun : run step evs (sys_init config now) = Some s)
    (Hdone : step (SExec i (Completed (Ok tt))) s = Some s') :
  exists sup req n t did room ch,
    supervisor_at i s = Some sup /\ phase sup = PExec req /\ req ∈ requests 0 evs
    /\ finished (pool s') = finished (pool s) ++ [req]
    /\ threads s !! n = Some t /\ (task_of req did, room) ∈ tasks t
    /\ streams (bridge t) !! stream_tx req = Some ch
    /\ response php (task_of req did) room = Some ch
    /\ sc_closed ch = true /\ well_framed (sc_sent ch) /\ (rx_left ch = None -> complete (sc_sent ch))
    /\ (forall r, room = None -> quietly_returns (php (method req) (payload req)) r ->
         collect_stream (sc_sent ch) = outcome_result r)
    /\ (forall status headers chunks r, room = None ->
         php (method req) (payload req) = streaming_handler status headers chunks r ->
         sc_sent ch = Headers status headers :: (Body <$> nonempty chunks) ++ [End]).
Proof.
  destruct (sys_run_inv evs [] _ _ Hphp (sys_init_inv now) Hrun) as [Hacc _ Hth Hcalls _].
  apply exec_event_Some in Hdone as (c & p' & Hc & Ho & _ & -> & Hfin).
  destruct c as [|n did|]; [done| |done]. specialize (Hcalls i _ Hc).
  destruct Hcalls as (sup & req & t & room & Hi & Hph & Ht & Hin).
  destruct (Hth n t Ht) as [Hinv _]. pose proof (ti_tasks _ _ Hinv) as Htasks.
  rewrite Forall_forall in Htasks. specialize (Htasks _ Hin).
  destruct (response_facts (task_of req did) room Hphp) as (ch & Hresp & Hcl & Hfr & Hcomp & Hq & Hs).
  simpl in Ho. rewrite Ht in Ho. destruct (dones (bridge t) !! did) as [[]|] eqn:Hd; try done.
  specialize (Htasks Hd). simpl in Htasks. rewrite Hresp in Htasks.
  exists sup, req, n, t, did, room, ch. split_and!; try done; [|by apply (Hfin sup req)].
  simpl in Hacc. rewrite <- Hacc. unfold accounted, in_flight. unfold supervisor_at in Hi.
  destruct (slots (pool s) !! i) as [sl|] eqn:Hsl; [|done]. injection Hi as <-.
  rewrite !elem_of_app. left. right. right. right. apply list_elem_of_bind. exists sl.
  split; [|by eapply list_elem_of_lookup_2]. unfold slot_requests, executing. rewrite Hph. set_solver.
Qed.
End spec.

(** * Example *)

Module Examples.
Import Sample.
Definition cfg : WorkersConfig := {|
  script := ""; php := ""; count := 1; max_concurrent_per_worker := 1; max_jobs := 2;
  ttl := 1000; exec_timeout := 10; boot_timeout := 10; warmup := false;
|}.
Definition php := BridgeProps.Examples.php.

(** The main worker boots; a first request times out in PHP, a second one is queued
    behind it and served while the first is still running. *)
Definition evs : list SysEvent :=
  [SCall "r1" "get" (VString "first") None; SPool (EvSlot 0 EvTop); SSpawn 0 (Ok "/") true; SSpawn 0 (Ok "/") true;
   SSpawn 0 (Ok "/") true; SThread 0 (ThEnter None (fun _ => true)); SBooted 0 (Completed (Ok tt));
   SPool EvSend; SPool EvMainRecv; SPool EvMainTry;
   SPool (EvSlot 0 (EvRecv (call_request 0 "" "" VNull None))); SSend 0 None;
   SThread 0 ThTake; SExec 0 Elapsed; SPool (EvSlot 0 (EvAfter 5)); SPool (EvSlot 0 EvTop);
   SCall "r2" "get" (VString "second") None; SPool EvSend; SPool EvMainRecv; SPool EvMainTry;
   SPool (EvSlot 0 (EvRecv (call_request 0 "" "" VNull None))); SSend 0 None;
   SThread 0 ThCall; SThread 0 ThFinish; SThread 0 ThTake; SThread 0 ThCall; SThread 0 ThFinish].

Definition after : System := default (sys_init cfg 0) (run (sys_step cfg php) evs (sys_init cfg 0)).
Definition answered : System := default after (sys_step cfg php (SExec 0 (Completed (Ok tt))) after).
End Examples.
Import Sample.
#[local] Existing Instance some_order.

Lemma system_loses_nothing_witness :
  let p := pool Examples.after in
  in_flight p ++ finished p ++ dropped p ++ cancelled p ≡ₚ
    [call_request 0 "r1" "get" (VString "first") None; call_request 1 "r2" "get" (VString "second") None]
  /\ available p + length (in_flight p) = 1 /\ dropped p = [].
Proof.
  destruct (system_loses_nothing Examples.cfg Examples.php Examples.evs 0 Examples.after)
    as (H1 & _ & _ & H2 & H3).
  - vm_compute; discriminate.
  - vm_run.
  - split_and!; [exact H1|exact H2|]. refine (proj2 (H3 _ _)); [vm_compute; discriminate|vm_compute; reflexivity].
Defined.

Lemma system_answers_witness :
  exists req n t ch, finished (pool Examples.answered) = finished (pool Examples.after) ++ [req]
    /\ threads Examples.after !! n = Some t /\ streams (bridge t) !! stream_tx req = Some ch
    /\ well_framed (sc_sent ch).
Proof.
  destruct (system_answers Examples.cfg Examples.php Examples.evs 0 Examples.after 0 Examples.answered)
    as (sup & req & n & t & did & room & ch & _ & _ & _ & Hf & Ht & _ & Hs & _ & _ & Hfr & _).
  - exact BridgeProps.Examples.php_no_recv.
  - vm_run.
  - vm_run.
  - exact (ex_intro _ req (ex_intro _ n (ex_intro _ t (ex_intro _ ch (conj Hf (conj Ht (conj Hs Hfr))))))).
Defined.
