(* ===== verification/SystemOwn.v ===== *)
(** Who holds a worker.  The sender of a worker's task channel is in the runtime's
    list of pre-connected channels, in the handle a finished [spawn] has
    returned, in the [worker] of a supervisor or in the handle a supervisor is
    tearing down; the one clone the code makes is the local of
    [execute_streaming], which lives while the supervisor that owns the sender
    awaits that call.  So nobody closes a worker that another part of the program
    still sends to. *)

From S2P Require Import Prelude.
From S2P Require Import Config.
From S2P Require Import Protocol.
From S2P Require Import Runtime.
From S2P Require Import ExtRuntime.
From S2P Require Import Bridge.
From S2P Require Import BridgeSpec.
From S2P Require Import WorkerThread.
From S2P Require Import Supervisor.
From S2P Require Import SupervisorSpec.
From S2P Require Import Dispatch.
From S2P Require Import Pool.
From S2P Require Import PoolSpec.
From S2P Require Import System.
From S2P Require Import SystemSpec.

Section own.
Context `{FA : FolkApi}.
Context (config : WorkersConfig) (php : string -> value -> Handler).

Abbreviation step := (sys_step config php).
Abbreviation pstep := (pool_step config (W := ChannelWorkerHandle)).
Implicit Types (s : System) (p : PoolState ChannelWorkerHandle) (sup : Sup ChannelWorkerHandle).

#[local] Arguments thread_step : simpl never.
#[local] Arguments pool_step : simpl never.

(** * The owners *)

Definition spawn_names (pc : SpawnPc) : list nat :=
  match pc with SpDone (Ok h) => option_list (task_tx h) | _ => [] end.
Definition held_names sup : list nat :=
  match phase sup with PPanicked => [] | _ => option_list (worker sup ≫= task_tx) end.
Definition dying_names sup : list nat :=
  match phase sup with
  | PTerminating _ w => option_list (task_tx w)
  | PPanicked => option_list (worker sup ≫= task_tx)
  | _ => []
  end.
Definition slot_held (sl : Slot ChannelWorkerHandle) : list nat := held_names (supervisor sl).
Definition slot_dying (sl : Slot ChannelWorkerHandle) : list nat := dying_names (supervisor sl).
Definition slot_names (sl : Slot ChannelWorkerHandle) : list nat := slot_held sl ++ slot_dying sl.

Definition side_txs s : list nat := side_task_tx <$> channels (runtime s).

(** Every sender there is, with its owner. *)
Definition owned s : list nat := side_txs s ++ (spawning s ≫= spawn_names) ++ (slots (pool s) ≫= slot_names).

(** The senders that nobody may have dropped. *)
Definition serving s : list nat := side_txs s ++ (slots (pool s) ≫= slot_held).

Definition open_thread s (n : nat) : Prop := exists t, threads s !! n = Some t /\ tx_gone t = false.

Record own_inv s : Prop := {
  ow_slots : length (slots (pool s)) = count config;
  ow_spawning : length (spawning s) = count config;
  ow_exec : length (exec s) = count config;
  ow_nodup : NoDup (owned s);
  ow_threads : forall n, n ∈ owned s -> is_Some (threads s !! n);
  ow_open : forall n, n ∈ serving s -> open_thread s n;
  ow_fresh : forall n, is_Some (threads s !! n) -> n < next_name (runtime s);
}.

Lemma replicate_bind {A B} (f : A -> list B) (x : A) n : f x = [] -> replicate n x ≫= f = [].
Proof. intros Hx. induction n as [|n IH]; csimpl; [done|by rewrite Hx, IH]. Qed.

Lemma sys_init_own now : own_inv (sys_init config now).
Proof.
  assert (owned (sys_init config now) = [0] /\ serving (sys_init config now) = [0]) as [Ho Hs].
  { unfold owned, serving, side_txs. simpl. unfold pool_new. simpl. by rewrite !replicate_bind. }
  split; rewrite ?Ho, ?Hs; simpl; try apply length_replicate.
  - apply NoDup_singleton.
  - intros n ->%list_elem_of_singleton. by eexists.
  - intros n ->%list_elem_of_singleton. by eexists.
  - intros n [t [<- _]%lookup_singleton_Some]. lia.
Qed.

(** * What a supervisor does with a sender *)

(** The sender a boot hands over. *)
Definition boot_names (ev : SupEvent ChannelWorkerHandle) : list nat :=
  match ev with
  | EvBoot (Ok h) (Completed (Ok _)) => option_list (task_tx h)
  | _ => []
  end.

Lemma ready_keeps_tx h recv : task_tx (handle_ready h recv).1 = task_tx h.
Proof. unfold handle_ready. by destruct (ready_rx h). Qed.

Lemma sup_step_names rl ev sup sup' :
  sup_step config rl ev sup = Some sup' ->
  (held_names sup' ++ dying_names sup' ⊆+ held_names sup ++ dying_names sup ++ boot_names ev)
  /\ (held_names sup' ⊆+ held_names sup ++ boot_names ev).
Proof.
  intros Hstep. destruct sup as [sl wk bg seen ph tr].
  unfold sup_step, boot_worker, take_and_terminate, start_request in Hstep.
  unfold held_names, dying_names. simpl in *.
  destruct ph as [| | |[]| | | |why w|r| | |], ev as [|[wb|] [[]|]| | | | | | | | | | | | | |]; try done; simpl in *.
  all: repeat case_match; simplify_eq/=; rewrite ?app_nil_r, ?ready_keeps_tx;
    try destruct wk; split; solve_submseteq.
Qed.

Definition pool_boot (ev : PoolEvent ChannelWorkerHandle) : list nat :=
  match ev with EvSlot _ ev => boot_names ev | _ => [] end.

Lemma recv_event_boot ev (q : list DispatchRequest) : boot_names (recv_event ev q) = boot_names ev.
Proof. by destruct ev, q. Qed.

Lemma pool_step_names ev p p' :
  pstep ev p = Some p' ->
  length (slots p') = length (slots p)
  /\ (slots p' ≫= slot_names) ⊆+ (slots p ≫= slot_names) ++ pool_boot ev
  /\ (slots p' ≫= slot_held) ⊆+ (slots p ≫= slot_held) ++ pool_boot ev.
Proof.
  intros Hstep. destruct ev as [req| | | | |i ev| |k|].
  6:{ apply slot_event_Some in Hstep as (sl & sup' & Hi & Hs & (q & ->) & _).
      apply sup_step_names in Hs as [H1 H2]. rewrite recv_event_boot in H1, H2.
      rewrite (assoc_L (++)) in H1. rewrite length_insert.
      split_and!; [done|by apply (bind_insert_submseteq _ _ i sl)..]. }
  all: unfold pool_step in Hstep; repeat case_match; simplify_eq/=; rewrite !app_nil_r; try done.
  match goal with Hi : slots p !! ?k = Some ?sl |- context [<[?k := ?y]> _] =>
    destruct (bind_insert_perm slot_names _ k sl Hi) as (r1 & -> & ->),
      (bind_insert_perm slot_held _ k sl Hi) as (r2 & -> & ->) end.
  rewrite length_insert. done.
Qed.

(** * Preservation *)

Lemma own_intro s s' fresh :
  own_inv s ->
  length (slots (pool s')) = length (slots (pool s)) -> length (spawning s') = length (spawning s) ->
  length (exec s') = length (exec s) ->
  NoDup fresh -> (forall n, n ∈ fresh -> threads s !! n = None /\ is_Some (threads s' !! n)) ->
  owned s' ⊆+ owned s ++ fresh ->
  (forall n, is_Some (threads s !! n) -> is_Some (threads s' !! n)) ->
  (forall n, n ∈ serving s' -> open_thread s' n) ->
  (forall n, is_Some (threads s' !! n) -> n < next_name (runtime s')) ->
  own_inv s'.
Proof.
  intros [H1 H2 H3 H4 H5 H6 H7] E1 E2 E3 Hnd Hfresh Hsub Hgrow Hopen Hnames.
  split; try congruence; try done.
  - apply submseteq_Permutation in Hsub as [rest Hperm].
    assert (NoDup (owned s' ++ rest)) as Hall; [|by apply NoDup_app in Hall as (? & _)].
    rewrite <- Hperm. apply NoDup_app. split_and!; [done| |done]. intros n Hn Hf.
    destruct (H5 n Hn) as [t Ht]. destruct (Hfresh n Hf). congruence.
  - intros n Hn. apply (elem_of_submseteq _ _ _ Hn) in Hsub. apply elem_of_app in Hsub as [Ho|Hf].
    + auto.
    + by apply Hfresh.
Qed.

Lemma owned_split s :
  owned s ≡ₚ serving s ++ (spawning s ≫= spawn_names) ++ (slots (pool s) ≫= slot_dying).
Proof.
  unfold owned, serving.
  assert ((slots (pool s) ≫= slot_names) ≡ₚ (slots (pool s) ≫= slot_held) ++ (slots (pool s) ≫= slot_dying))
    as -> by apply bind_app_perm.
  solve_Permutation.
Qed.

(** Nobody sends to a worker whose sender is in a spawn's hands, or torn down. *)
Lemma not_serving s n :
  own_inv s -> n ∈ (spawning s ≫= spawn_names) ++ (slots (pool s) ≫= slot_dying) -> n ∉ serving s.
Proof.
  intros Hinv Hn Hs. pose proof (ow_nodup _ Hinv) as Hnd. rewrite owned_split in Hnd.
  apply NoDup_app in Hnd as (_ & Hdisj & _). by apply (Hdisj n).
Qed.

Lemma owned_serving s n : n ∈ serving s -> n ∈ owned s.
Proof. intros Hn. rewrite owned_split. apply elem_of_app. by left. Qed.

(** ** Steps of the pool *)

Lemma pool_names_owned ev s p' :
  pstep ev (pool s) = Some p' -> owned (set_pool p' s) ⊆+ owned s ++ pool_boot ev
    /\ forall n, n ∈ serving (set_pool p' s) -> n ∈ serving s \/ n ∈ pool_boot ev.
Proof.
  intros Hp. apply pool_step_names in Hp as (_ & H1 & H2). unfold owned, serving, side_txs. simpl.
  rewrite <- !(assoc_L (++)). split; [by do 2 apply submseteq_skips_l|].
  intros n [Hn|Hn]%elem_of_app; [left; set_solver|].
  apply (elem_of_submseteq _ _ _ Hn) in H2. set_solver.
Qed.

Lemma pool_event_own ev s s' :
  own_inv s -> pool_event config ev s = Some s' -> pool_boot ev = [] -> own_inv s'.
Proof.
  intros Hinv Hstep Hb. apply pool_event_Some in Hstep as (p' & Hp & ->).
  destruct (pool_names_owned _ _ _ Hp) as [H1 H2]. rewrite Hb in *.
  destruct (pool_step_names _ _ _ Hp) as (Hlen & _ & _).
  apply (own_intro s _ []); try done; try apply NoDup_nil_2.
  - intros n Hn. by apply elem_of_nil in Hn.
  - intros n [Hn|Hn]%H2; [exact (ow_open _ Hinv n Hn)|by apply elem_of_nil in Hn].
  - apply Hinv.
Qed.

(** A boot: the sender passes from the spawn to the supervisor. *)
Lemma boot_own i r ready s p' :
  own_inv s -> spawning s !! i = Some (SpDone r) ->
  (forall h, r = Ok h -> ready_outcome h ready s = true) ->
  pstep (EvSlot i (EvBoot r ready)) (pool s) = Some p' ->
  own_inv (set_spawning (<[i := SpStart]> (spawning s)) (set_pool p' s)).
Proof.
  intros Hinv Hi Hready Hp. destruct (pool_names_owned _ _ _ Hp) as [_ H2].
  destruct (pool_step_names _ _ _ Hp) as (Hlen & H1 & _). simpl in *.
  assert (boot_names (EvBoot r ready) ⊆+ spawn_names (SpDone r)) as Hb.
  { destruct r as [h|], ready as [[]|]; simpl; try done; apply submseteq_nil_l. }
  apply (own_intro s _ []); simpl; try done; try apply NoDup_nil_2.
  - apply length_insert.
  - intros n Hn. by apply elem_of_nil in Hn.
  - rewrite app_nil_r. unfold owned, side_txs. simpl. apply submseteq_skips_l.
    destruct (bind_insert_perm spawn_names _ i _ Hi) as (rest & -> & ->). simpl.
    etransitivity; [apply submseteq_skips_l, H1|].
    etransitivity; [apply submseteq_skips_l, submseteq_skips_l, Hb|].
    apply Permutation_submseteq. solve_Permutation.
  - intros n [Hn|Hn]%H2; [exact (ow_open _ Hinv n Hn)|]. simpl in Hn.
    destruct r as [h|]; [|by apply elem_of_nil in Hn]. destruct ready as [[[]|]|]; try by apply elem_of_nil in Hn.
    specialize (Hready h eq_refl). simpl in Hready. destruct (task_tx h) as [m|]; [|by apply elem_of_nil in Hn].
    apply list_elem_of_singleton in Hn as ->. simpl in Hready.
    destruct (threads s !! m) as [t|] eqn:Ht; [|done]. apply andb_prop in Hready as [_ Htx].
    exists t. split; [done|by apply negb_true_iff].
  - apply Hinv.
Qed.

(** ** Steps of the threads *)

Lemma thread_move_own s s' n t t' :
  own_inv s -> threads s !! n = Some t -> tx_gone t' = tx_gone t \/ n ∉ serving s ->
  pool s' = pool s -> runtime s' = runtime s -> spawning s' = spawning s -> length (exec s') = length (exec s) ->
  threads s' = <[n := t']> (threads s) -> own_inv s'.
Proof.
  intros Hinv Ht Htx E1 E2 E3 E4 E5.
  assert (serving s' = serving s) as Es by (unfold serving, side_txs; congruence).
  assert (owned s' = owned s) as Eo by (unfold owned, side_txs; congruence).
  apply (own_intro s _ []); try congruence; try apply NoDup_nil_2.
  - intros m Hm. by apply elem_of_nil in Hm.
  - by rewrite Eo, app_nil_r.
  - intros m Hm. rewrite E5. apply lookup_insert_is_Some'. by right.
  - intros m Hm. rewrite Es in Hm. destruct (ow_open _ Hinv m Hm) as (tm & Hm1 & Hm2). unfold open_thread.
    rewrite E5. destruct (decide (m = n)) as [->|Hne].
    + exists t'. rewrite lookup_insert_eq. split; [done|]. destruct Htx as [Htx|]; [congruence|done].
    + exists tm. by rewrite lookup_insert_ne.
  - intros m Hm. rewrite E2. rewrite E5 in Hm. apply lookup_insert_is_Some' in Hm as [<-|Hm];
      apply (ow_fresh _ Hinv); [by eexists|done].
Qed.

Lemma thread_step_tx ev t t' :
  thread_step php ev t = Some t' -> ev <> ThCloseTx -> tx_gone t' = tx_gone t.
Proof. unfold thread_step. intros Hstep Hev. destruct ev; try done; repeat case_match; by simplify_eq. Qed.

Lemma thread_event_own n ev s s' :
  own_inv s -> thread_event php n ev s = Some s' -> ev <> ThCloseTx \/ n ∉ serving s -> own_inv s'.
Proof.
  intros Hinv Hstep Hor. apply thread_event_Some in Hstep as (t & t' & Ht & Hs & ->).
  eapply (thread_move_own s _ n t t'); try done. destruct Hor; [left|by right]. by eapply thread_step_tx.
Qed.

Lemma send_own i room s s' : own_inv s -> step (SSend i room) s = Some s' -> own_inv s'.
Proof.
  intros Hinv Hstep. apply send_Some in Hstep as (sup & req & _ & _ & _ & [->|(n & t & t' & Ht & Hs & ->)]).
  - destruct Hinv as [H1 H2 H3 H4 H5 H6 H7]. split; simpl; try done. by rewrite length_insert.
  - eapply (thread_move_own s _ n t t'); try done; [|apply length_insert]. left. by eapply thread_step_tx.
Qed.

(** ** Spawning *)

(** A sender passes from the runtime to the handle, or is new. *)
Lemma spawn_step_names cwd th pc rt rt' pc' ts :
  spawn_step cwd th pc rt = (rt', pc') -> (forall r, pc <> SpDone r) -> pc <> SpPanicked ->
  (side_task_tx <$> channels rt') ⊆+ (side_task_tx <$> channels rt)
  /\ ((started pc' ts = ts /\ next_name rt <= next_name rt'
       /\ (side_task_tx <$> channels rt') ++ spawn_names pc' ⊆+ side_task_tx <$> channels rt)
      \/ exists id, started pc' ts = <[next_name rt := thread_new id]> ts
           /\ channels rt' = channels rt /\ spawn_names pc' = [next_name rt]
           /\ next_name rt < next_name rt').
Proof.
  intros Hstep Hpc Hnp. destruct pc as [| |id| |r|]; simpl in Hstep; [..|by destruct (Hpc r)|done].
  - destruct (channels rt) eqn:Hc; [case_decide|]; simplify_eq/=; rewrite ?Hc, ?app_nil_r; auto.
  - simplify_eq/=. rewrite app_nil_r. auto.
  - destruct (vec_pop (channels rt)) as [[rest side]|] eqn:Hpop; simplify_eq/=; [|rewrite app_nil_r; auto].
    apply vec_pop_Some in Hpop as ->. rewrite fmap_app. split; [by apply submseteq_inserts_r|]. by left.
  - destruct cwd as [d|e], th; simpl in Hstep; simplify_eq/=; split; try done.
    + right. eexists. split_and!; [done..|lia].
    + left. rewrite app_nil_r. split_and!; [done|lia|done].
    + left. by rewrite app_nil_r.
    + left. by rewrite app_nil_r.
Qed.

Lemma spawn_own i cwd th s s' : own_inv s -> step (SSpawn i cwd th) s = Some s' -> own_inv s'.
Proof.
  intros Hinv Hstep. apply spawn_Some in Hstep as (pc & rt & pc' & _ & Hi & Hpc & Hnp & Hsp & ->).
  destruct (spawn_step_names _ _ _ _ _ _ (threads s) Hsp Hpc Hnp) as [Hsub Hcase]. clear Hsp.
  destruct (bind_insert_perm spawn_names _ i _ Hi) as (rest & Hold & Hnew).
  assert (spawn_names pc = []) as Hnil by (destruct pc; try done; by destruct (Hpc r)).
  rewrite Hnil in Hold. simpl in Hold.
  match goal with |- own_inv ?s2 => set (s' := s2) end.
  assert (forall n, n ∈ serving s' -> n ∈ serving s) as Hserv.
  { unfold serving, side_txs. simpl. intros n [Hn|Hn]%elem_of_app; apply elem_of_app; [left|by right].
    by eapply elem_of_submseteq. }
  destruct Hcase as [(Hts & Hnext & Hle)|(id & Hts & Hch & Hnm & Hlt)].
  - apply (own_intro s s' []); try done; try apply NoDup_nil_2; unfold s'; simpl.
    + apply length_insert.
    + intros n Hn. by apply elem_of_nil in Hn.
    + rewrite app_nil_r. unfold owned, side_txs. simpl. rewrite Hold, Hnew, !(assoc_L (++)).
      by do 2 apply submseteq_skips_r.
    + by rewrite Hts.
    + intros n Hn%Hserv. unfold open_thread. simpl. rewrite Hts. by apply ow_open.
    + rewrite Hts. intros n Hn. apply (ow_fresh _ Hinv) in Hn. lia.
  - assert (threads s !! next_name (runtime s) = None) as Hnone.
    { apply eq_None_not_Some. intros Hsome%(ow_fresh _ Hinv). lia. }
    apply (own_intro s s' [next_name (runtime s)]); try done; unfold s'; simpl; rewrite ?Hts.
    + apply length_insert.
    + apply NoDup_singleton.
    + intros n ->%list_elem_of_singleton. rewrite lookup_insert_eq. split; [done|by eexists].
    + unfold owned, side_txs. simpl. rewrite Hch, Hold, Hnew, Hnm.
      apply Permutation_submseteq. solve_Permutation.
    + intros n Hn. apply lookup_insert_is_Some'. by right.
    + intros n Hn%Hserv. destruct (ow_open _ Hinv n Hn) as (t & Ht & Htx). exists t. simpl.
      split; [|done]. rewrite lookup_insert_ne; [done|]. intros <-. congruence.
    + intros n [<-|Hn]%lookup_insert_is_Some'; [done|]. apply (ow_fresh _ Hinv) in Hn. lia.
Qed.

(** ** Every step *)

Lemma sys_step_own ev s s' : own_inv s -> step ev s = Some s' -> own_inv s'.
Proof.
  intros Hinv Hstep. destruct ev as [id m v body|pev|i cwd th|i|i ready|i room|i o|i|i now|i|n tev|i].
  - simpl in Hstep. destruct (pool_event _ _ s) as [s1|] eqn:He; [|done]. simplify_eq/=.
    by destruct (pool_event_own _ _ _ Hinv He eq_refl).
  - simpl in Hstep. destruct (own_event pev) eqn:Ho; [|done]. eapply pool_event_own; [done..|].
    by destruct pev as [| | | | |? []| | |].
  - by eapply spawn_own.
  - simpl in Hstep. destruct (phase <$> supervisor_at i s) as [[]|]; try done.
    destruct (spawning s !! i) as [[| | | |[h|]|]|] eqn:Hi; try done.
    destruct (task_tx h) as [n|] eqn:Hn; [|done]. eapply thread_event_own; [done..|]. right.
    apply not_serving; [done|]. apply elem_of_app. left. apply list_elem_of_bind.
    exists (SpDone (Ok h)). split; [|by eapply list_elem_of_lookup_2]. simpl. rewrite Hn. by left.
  - simpl in Hstep. destruct (spawning s !! i) as [[| | | |r|]|] eqn:Hi; try done.
    destruct (match r with Ok h => _ | Err _ => true end) eqn:Hr; [|done].
    destruct (pool_event _ _ s) as [s1|] eqn:He; [|done]. simplify_eq/=.
    apply pool_event_Some in He as (p' & Hp & ->). refine (boot_own i r ready s p' Hinv Hi _ Hp).
    by intros h ->.
  - by eapply send_own.
  - apply exec_event_Some in Hstep as (c & p' & Hc & _ & Hp & -> & _).
    assert (own_inv (set_pool p' s)) as [H1 H2 H3 H4 H5 H6 H7].
    { eapply (pool_event_own (EvSlot i (EvExec o)) s); [done| |done]. unfold pool_event. by rewrite Hp. }
    split; try done. simpl. by rewrite length_insert.
  - simpl in Hstep. destruct (phase <$> supervisor_at i s) as [ph|] eqn:Hph; [|done].
    destruct ph as [| | | | | | |why w| | | |]; try done.
    destruct (task_tx w) as [n|] eqn:Hn; [|done]. eapply thread_event_own; [done..|]. right.
    apply not_serving; [done|]. apply elem_of_app. right. apply list_elem_of_bind.
    unfold supervisor_at in Hph. destruct (slots (pool s) !! i) as [sl|] eqn:Hi; [|done]. simpl in Hph.
    exists sl. split; [|by eapply list_elem_of_lookup_2]. unfold slot_dying, dying_names.
    injection Hph as ->. rewrite Hn. by left.
  - simpl in Hstep. destruct (phase <$> supervisor_at i s) as [[]|]; try done. case_match; [|done].
    by eapply pool_event_own.
  - apply unwind_Some in Hstep as (sup & n & Hi & Hph & Hn & Hev). eapply thread_event_own; [done..|]. right.
    apply not_serving; [done|]. apply elem_of_app. right. apply list_elem_of_bind.
    unfold supervisor_at in Hi. destruct (slots (pool s) !! i) as [sl|] eqn:Hsl; [|done]. injection Hi as <-.
    exists sl. split; [|by eapply list_elem_of_lookup_2]. unfold slot_dying, dying_names.
    rewrite Hph, Hn. by left.
  - simpl in Hstep. destruct tev; try done; (eapply thread_event_own; [done..|by left]).
  - simpl in Hstep. repeat case_match; try done. by eapply pool_event_own.
Qed.

Lemma sys_run_own evs s s' : own_inv s -> run step evs s = Some s' -> own_inv s'.
Proof. apply run_invariant. intros ev s1 s2. by eapply sys_step_own. Qed.

(** * Property *)

(** C9. Every worker has one owner: in any reachable state no sender of a task
    channel is held twice among the runtime's list, the finished spawns, the
    supervisors and the handles being torn down; each names a thread; and a
    sender that is yet to be handed out, or that a supervisor serves with, has
    not been dropped, so its worker does not leave its loop under it. *)
Theorem workers_have_one_owner evs now s (Hrun : run step evs (sys_init config now) = Some s) :
  NoDup (owned s)
  /\ (forall n, n ∈ owned s -> is_Some (threads s !! n))
  /\ (forall n, n ∈ serving s -> n ∈ owned s /\ exists t, threads s !! n = Some t /\ tx_gone t = false).
Proof.
  destruct (sys_run_own _ _ _ (sys_init_own now) Hrun) as [_ _ _ Hnd Hth Hopen _].
  split_and!; [done..|]. intros n Hn. split; [by apply owned_serving|by apply Hopen].
Qed.
End own.

(** * Example *)

Import Sample.

Lemma workers_have_one_owner_witness :
  NoDup (owned Examples.after) /\ exists t, threads Examples.after !! 0 = Some t /\ tx_gone t = false.
Proof.
  destruct (workers_have_one_owner Examples.cfg Examples.php Examples.evs 0 Examples.after) as (H1 & _ & H3).
  - vm_run.
  - split; [exact H1|]. refine (proj2 (H3 0 _)). apply (bool_decide_unpack _); vm_compute; exact I.
Defined.
