(* ===== verification/SystemLive.v ===== *)
(** Liveness of the whole system: whatever order its parts run in, once callers and
    reloads pause and boots stop failing, every request is answered or given
    back, without any timeout having to fire.

    The argument has two halves.  The system comes to rest: the work of the pool,
    of the spawns and of the calls pays for every step, and what it does not pay
    for is a step of a worker thread, of which there are finitely many in a row
    ([ThreadLive]).  And it does not rest early: while a request is in flight,
    some part can go on.

    Two waits of a worker are left to its caller: a send on a response channel is
    a step that is always possible here, since callers read their responses, or
    drop them ([StreamChannel]); and so is a read of a request body, since a
    handler's reads find what the body holds, to its end: the callers that stream
    a body in do so, or close it. *)

From S2P Require Import Prelude.
From S2P Require Import Config.
From S2P Require Import Protocol.
From S2P Require Import Runtime.
From S2P Require Import ExtRuntime.
From S2P Require Import Bridge.
From S2P Require Import BridgeSpec.
From S2P Require Import BridgeProps.
From S2P Require Import WorkerThread.
From S2P Require Import ThreadLive.
From S2P Require Import Supervisor.
From S2P Require Import SupervisorSpec.
From S2P Require Import Dispatch.
From S2P Require Import Pool.
From S2P Require Import PoolSpec.
From S2P Require Import PoolLive.
From S2P Require Import System.
From S2P Require Import SystemSpec.
From S2P Require Import SystemOwn.

Section live.
Context `{FA : FolkApi}.
Context (config : WorkersConfig) (php : string -> value -> Handler).

Abbreviation step := (sys_step config php).
Abbreviation pstep := (pool_step config (W := ChannelWorkerHandle)).
Implicit Types (s : System) (p : PoolState ChannelWorkerHandle).

#[local] Arguments thread_step : simpl never.
#[local] Arguments pool_step : simpl never.

(** * The system comes to rest *)

(** Steps that are neither a new caller nor a reload. *)
Definition quiet (ev : SysEvent) : bool :=
  match ev with
  | SCall _ _ _ _ | SPool EvTriggerReload => false
  | _ => true
  end.

(** A boot that leaves its supervisor without a worker. *)
Definition failed_boot s (ev : SysEvent) : bool :=
  match ev with
  | SBooted i ready =>
      match spawning s !! i, ready with
      | Some (SpDone (Ok _)), Completed (Ok _) => false
      | _, _ => true
      end
  | _ => false
  end.

Definition spawn_rem (pc : SpawnPc) : nat :=
  match pc with
  | SpStart => 3
  | SpTake => 2
  | SpPop _ | SpZts => 1
  | SpDone _ | SpPanicked => 0
  end.

Definition exec_rem (c : ExecCall) : nat :=
  match c with CallNone => 1 | _ => 0 end.

Definition budget s : nat :=
  4 * work (pool s) + sum_list (spawn_rem <$> spawning s) + sum_list (exec_rem <$> exec s).

Definition sys_inner s' s : Prop :=
  exists ev, quiet ev = true /\ failed_boot s ev = false /\ step ev s = Some s'.

Lemma pool_event_work ev s s' :
  pool_inv config (pool s) -> internal ev -> pool_event config ev s = Some s' ->
  work (pool s') < work (pool s) /\ spawning s' = spawning s /\ exec s' = exec s /\ threads s' = threads s.
Proof.
  intros Hinv Hint Hstep. apply pool_event_Some in Hstep as (p & Hp & ->).
  split_and!; [|done..]. by eapply internal_step_work.
Qed.

Lemma thread_event_moves n ev s s' :
  thread_event php n ev s = Some s' -> match ev with ThSend _ _ => False | _ => True end ->
  budget s' = budget s /\ member_step (own_step php) (threads s') (threads s).
Proof.
  intros Hstep Hev. apply thread_event_Some in Hstep as (t & t' & Ht & Hs & ->).
  split; [done|]. exists n, t, t'. split_and!; [done| |done]. by exists ev.
Qed.

Lemma own_event_internal ev : own_event ev = true -> quiet (SPool ev) = true -> internal ev.
Proof. by destruct ev as [| | | | |i []| | |]. Qed.

Lemma spawn_step_rem cwd th pc rt rt' pc' :
  spawn_step cwd th pc rt = (rt', pc') -> (forall r, pc <> SpDone r) -> pc <> SpPanicked ->
  spawn_rem pc' < spawn_rem pc.
Proof.
  intros Hstep Hpc Hnp. destruct pc as [| |id| |r|]; simpl in Hstep; [..|by destruct (Hpc r)|done];
    repeat case_match; simplify_eq; simpl; lia.
Qed.

(** A quiet step spends the budget, or it is a thread's. *)
Lemma inner_step_budget s s' :
  pool_inv config (pool s) -> sys_inner s' s ->
  budget s' < budget s
  \/ (budget s' = budget s /\ member_step (own_step php) (threads s') (threads s)).
Proof.
  intros Hinv (ev & Hq & Hf & Hstep). unfold budget.
  destruct ev as [id m p body|pev|i cwd th|i|i ready|i room|i o|i|i now|i|n tev|i]; [done|..].
  5:{ left. apply send_Some in Hstep as (sup & req & _ & _ & Hi & [->|(n & t & t' & _ & _ & ->)]);
      [pose proof (sum_list_insert exec_rem _ i _ CallFailed Hi) as Hsum
      |pose proof (sum_list_insert exec_rem _ i _ (CallSent n (next_done s)) Hi) as Hsum];
      simpl in *; lia. }
  8:{ right. apply unwind_Some in Hstep as (sup & n & _ & _ & _ & He). by eapply thread_event_moves. }
  2:{ left. apply spawn_Some in Hstep as (pc & rt & pc' & _ & Hi & Hpc & Hnp & Hsp & ->).
      pose proof (spawn_step_rem _ _ _ _ _ _ Hsp Hpc Hnp) as Hlt.
      pose proof (sum_list_insert spawn_rem _ i pc pc' Hi) as Hsum. simpl. lia. }
  all: simpl in *.
  - destruct (own_event pev) eqn:Ho; [|done]. left.
    destruct (pool_event_work pev s s' Hinv (own_event_internal pev Ho Hq) Hstep) as (Hw & -> & -> & _). lia.
  - right. repeat case_match; try done. destruct (task_tx _); [|done]. by eapply thread_event_moves.
  - left. destruct (spawning s !! i) as [[| | | |[h|e]|]|] eqn:Hi; try done.
    destruct ready as [[[]|e]|]; try done. destruct (ready_outcome h _ s); [|done].
    destruct (pool_event _ _ s) as [s1|] eqn:He; [|done]. simplify_eq/=.
    destruct (pool_event_work (EvSlot i (EvBoot (Ok h) (Completed (Ok ())))) s s1 Hinv I He) as (Hw & -> & -> & _).
    pose proof (sum_list_insert spawn_rem _ i _ SpStart Hi) as Hsum. simpl in Hsum. lia.
  - left. destruct (exec s !! i) as [c|] eqn:Hi; [|done]. destruct (exec_outcome c o s); [|done].
    destruct (pool_event _ _ s) as [s1|] eqn:He; [|done]. simplify_eq/=.
    destruct (pool_event_work (EvSlot i (EvExec o)) s s1 Hinv I He) as (Hw & -> & -> & _).
    pose proof (sum_list_insert exec_rem _ i _ CallNone Hi) as Hsum. simpl in Hsum. lia.
  - right. repeat case_match; try done. destruct (task_tx _); [|done]. by eapply thread_event_moves.
  - left. repeat case_match; try done.
    destruct (pool_event_work (EvSlot i (EvTerminated now)) s s' Hinv I Hstep) as (Hw & -> & -> & _). lia.
  - right. destruct tev; try done; by eapply thread_event_moves.
  - left. repeat case_match; try done.
    destruct (pool_event_work (EvSlot i EvBootPanic) s s' Hinv I Hstep) as (Hw & -> & -> & _). lia.
Qed.

Lemma sys_step_pool_inv ev s s' :
  (2 * Z.of_nat (count config) <= u64_max)%Z ->
  pool_inv config (pool s) -> step ev s = Some s' -> pool_inv config (pool s').
Proof.
  intros Hc Hinv Hstep. destruct (sys_step_pool config php _ _ _ Hstep) as [[[-> _]|(pev & Hp & _)] _]; [done|].
  by eapply pool_step_inv.
Qed.

(** No infinite sequence of quiet steps without failed boots. *)
Lemma sys_inner_acc s :
  (2 * Z.of_nat (count config) <= u64_max)%Z -> pool_inv config (pool s) -> Acc sys_inner s.
Proof.
  intros Hc. remember (budget s) as n eqn:Hn. revert s Hn.
  induction n as [n IHn] using lt_wf_ind. intros s.
  pose proof (member_step_acc (own_step php) (threads s) (own_step_wf php)) as Hacc.
  remember (threads s) as m eqn:Hm. revert s Hm.
  induction Hacc as [m _ IHm]. intros s -> -> Hinv. constructor. intros s' Hstep.
  assert (pool_inv config (pool s')) as Hinv'.
  { destruct Hstep as (ev & _ & _ & Hs). by eapply sys_step_pool_inv. }
  destruct (inner_step_budget s s' Hinv Hstep) as [Hlt|[Heq Hmove]].
  - by apply (IHn (budget s')).
  - by apply (IHm (threads s')).
Qed.

(** * What holds of every reachable state *)

Definition threads_live s : Prop := forall n t, threads s !! n = Some t -> live_inv t.

(** What a step of the system is: a step of the pool, of a thread, of a spawn, or a
    send. *)
Inductive sys_effect (ev : SysEvent) s s' : Prop :=
| EffPool pev (Hpool : pstep pev (pool s) = Some (pool s')) (Hthreads : threads s' = threads s)
    (Hexec : no_exec pev /\ exec s' = exec s
             \/ exists i o, ev = SExec i o /\ exec s' = <[i := CallNone]> (exec s))
| EffThread n tev t t' (Hn : threads s !! n = Some t) (Hstep : thread_step php tev t = Some t')
    (Hsend : match tev with ThSend _ _ => False | _ => True end) (Hdie : tev = ThDie -> ev = SThread n ThDie)
    (Hs' : s' = set_threads (<[n := t']> (threads s)) s)
| EffSpawn i cwd th (Hev : ev = SSpawn i cwd th) (Hpool : pool s' = pool s) (Hexec : exec s' = exec s)
    (Hthreads : threads s' = threads s
                \/ exists id, threads s' = <[next_name (runtime s) := thread_new id]> (threads s))
| EffSend i room (Hev : ev = SSend i room) (Hpool : pool s' = pool s)
    (Hthreads : threads s' = threads s
                \/ exists n sup req t t', supervisor_at i s = Some sup /\ phase sup = PExec req
                     /\ exec s !! i = Some CallNone /\ threads s !! n = Some t
                     /\ thread_step php (ThSend (task_of req (next_done s)) room) t = Some t'
                     /\ threads s' = <[n := t']> (threads s)).

Lemma sys_step_effect ev s s' : step ev s = Some s' -> sys_effect ev s s'.
Proof.
  intros Hstep.
  assert (forall pev s1, pool_event config pev s = Some s1 -> no_exec pev -> pool s' = pool s1 ->
    exec s' = exec s1 -> threads s' = threads s1 -> sys_effect ev s s') as Hpool.
  { intros pev s1 (p' & Hp & ->)%pool_event_Some Hno E1 E2 E3.
    apply (EffPool ev s s' pev); [by rewrite E1|done|by left]. }
  assert (forall n tev, thread_event php n tev s = Some s' -> match tev with ThSend _ _ => False | _ => True end ->
    (tev = ThDie -> ev = SThread n ThDie) -> sys_effect ev s s') as Hthread.
  { intros n tev (t & t' & Ht & Hs & ->)%thread_event_Some Hsend Hdie. by eapply EffThread. }
  destruct ev as [id m v body|pev|i cwd th|i|i ready|i room|i o|i|i now|i|n tev|i].
  6:{ apply send_Some in Hstep as (sup & req & Hi & Hph & He & [->|(n & t & t' & Hn & Hs & ->)]);
        (eapply EffSend; [done|done|]); [by left|right; by exists n, sup, req, t, t']. }
  6:{ apply exec_event_Some in Hstep as (c & p' & _ & _ & Hp & -> & _). by eapply EffPool; [..|right; eauto]. }
  8:{ apply unwind_Some in Hstep as (sup & n & _ & _ & _ & He). by eapply Hthread. }
  3:{ apply spawn_Some in Hstep as (pc & rt & pc' & _ & _ & Hpc & Hnp & Hsp & ->).
      destruct (spawn_step_started _ _ _ _ _ _ (threads s) Hsp Hpc Hnp) as [_ Hts].
      apply (EffSpawn _ s _ i cwd th); [done..|]. simpl. destruct Hts as [->|(id & -> & _)]; eauto. }
  all: simpl in Hstep.
  - destruct (pool_event _ _ s) as [s1|] eqn:He; [|done]. simplify_eq/=. by eapply (Hpool _ s1).
  - destruct (own_event pev) eqn:Ho; [|done]. eapply (Hpool pev s'); try done. by destruct pev as [| | | | |j []| | |].
  - repeat case_match; try done. destruct (task_tx _); [|done]. by eapply Hthread.
  - destruct (spawning s !! i) as [[]|]; try done. case_match; [|done].
    destruct (pool_event _ _ s) as [s1|] eqn:He; [|done]. simplify_eq/=. by eapply (Hpool _ s1).
  - repeat case_match; try done. destruct (task_tx _); [|done]. by eapply Hthread.
  - repeat case_match; try done. by eapply (Hpool _ s').
  - destruct tev; try done; eapply Hthread; try done; by intros [=].
  - repeat case_match; try done. by eapply (Hpool _ s').
Qed.

(** A step of the system takes each thread one step at most, or starts it. *)
Lemma sys_step_threads ev s s' n t' :
  step ev s = Some s' -> threads s' !! n = Some t' ->
  threads s !! n = Some t'
  \/ (exists t tev, threads s !! n = Some t /\ thread_step php tev t = Some t')
  \/ exists id, t' = thread_new id.
Proof.
  intros Hstep Hn. destruct (sys_step_effect _ _ _ Hstep) as [pev _ Hts _|m tev t t1 Ht Hs _ _ ->
    |i cwd th _ _ _ [Hts|(id & Hts)]|i room _ _ [Hts|(m & sup & req & t & t1 & _ & _ & _ & Ht & Hs & Hts)]];
    try (rewrite Hts in Hn); try (by left); simpl in Hn;
    apply lookup_insert_Some in Hn as [[<- <-]|[_ Hn]]; eauto 10.
Qed.

Record sys_good (reqs : list DispatchRequest) s : Prop := {
  sg_inv : sys_inv php reqs s;
  sg_own : own_inv config s;
  sg_pool : pool_inv config (pool s);
  sg_live : threads_live s;
}.

Context (Hphp : forall m v, no_recv (php m v)) (Hcount : (2 * Z.of_nat (count config) <= u64_max)%Z).

Lemma sys_init_good now : sys_good [] (sys_init config now).
Proof.
  split; [apply sys_init_inv|apply sys_init_own|by apply pool_new_inv|].
  intros n t Ht. simpl in Ht. apply lookup_singleton_Some in Ht as [_ <-]. apply thread_new_live.
Qed.

Lemma sys_step_good reqs ev s s' :
  sys_good reqs s -> step ev s = Some s' -> sys_good (reqs ++ requests (next_stream s) [ev]) s'.
Proof.
  intros [Hi Ho Hp Hl] Hstep. split.
  - by eapply sys_step_inv.
  - by eapply sys_step_own.
  - by eapply sys_step_pool_inv.
  - intros n t' Hn.
    destruct (sys_step_threads _ _ _ _ _ Hstep Hn) as [Hn'|[(t & tev & Ht & Hs)|(id & ->)]].
    + by eapply Hl.
    + eapply (thread_step_live php tev t); [|by eapply Hl|done]. by eapply sy_threads.
    + apply thread_new_live.
Qed.

Lemma sys_run_good evs reqs s s' :
  sys_good reqs s -> run step evs s = Some s' -> exists reqs', sys_good reqs' s'.
Proof.
  intros Hgood Hrun.
  apply (run_invariant step (fun s => exists reqs, sys_good reqs s)) with (2 := ex_intro _ reqs Hgood) in Hrun; [done|].
  intros ev s1 s2 (reqs1 & Hg) Hstep. eexists. by eapply sys_step_good.
Qed.

(** * The system does not rest early *)

(** Steps of parts that are left alone: nobody calls, leaves, reloads, dies or runs
    out of time; a boot is given up only when the worker's thread has ended. *)
Definition proceeds s (ev : SysEvent) : bool :=
  match ev with
  | SCall _ _ _ _ | SPool (EvTriggerReload | EvCancel _) | SThread _ ThDie | SExec _ Elapsed | SBooted _ Elapsed => false
  | SGiveUp i =>
      match spawning s !! i with
      | Some (SpDone (Ok h)) =>
          match task_tx h ≫= fun n => threads s !! n with
          | Some t => match pc t with TGone => true | _ => false end
          | None => false
          end
      | _ => false
      end
  | _ => true
  end.

Definition can_proceed s : Prop := exists ev s', proceeds s ev = true /\ step ev s = Some s'.

Lemma proceeds_intro ev s : proceeds s ev = true -> is_Some (step ev s) -> can_proceed s.
Proof. intros Hp [s' Hs]. by exists ev, s'. Qed.

Lemma pool_event_enabled ev s : is_Some (pstep ev (pool s)) -> is_Some (pool_event config ev s).
Proof. intros [p Hp]. unfold pool_event. rewrite Hp. by eexists. Qed.

(** The three awaits that depend on a worker accept any outcome. *)
Lemma boot_enabled i sl r ready p :
  slots p !! i = Some sl -> phase (supervisor sl) = PBooting -> is_Some (pstep (EvSlot i (EvBoot r ready)) p).
Proof.
  intros Hi Hph. unfold pool_step. rewrite Hi. simpl. unfold sup_step. rewrite Hph.
  destruct (boot_worker r ready (slot (supervisor sl))) as [[[sl' [w|e]] acts]|]; by eexists.
Qed.

Lemma exec_enabled i sl req o p :
  slots p !! i = Some sl -> phase (supervisor sl) = PExec req -> is_Some (pstep (EvSlot i (EvExec o)) p).
Proof.
  intros Hi Hph. unfold pool_step. rewrite Hi. simpl. unfold sup_step. rewrite Hph.
  cbn -[WorkerSlot.mark_idle]. destruct (WorkerSlot.mark_idle _); by eexists.
Qed.

Lemma terminated_enabled i sl why w now p :
  slots p !! i = Some sl -> phase (supervisor sl) = PTerminating why w ->
  is_Some (pstep (EvSlot i (EvTerminated now)) p).
Proof.
  intros Hi Hph. unfold pool_step. rewrite Hi. simpl. unfold sup_step. rewrite Hph.
  destruct why; by eexists.
Qed.

Lemma thread_proceeds n t ev s :
  threads s !! n = Some t -> runs_on ev = true -> is_Some (thread_step php ev t) -> can_proceed s.
Proof.
  intros Ht Hev [t' Hs]. apply (proceeds_intro (SThread n ev)); [by destruct ev|].
  simpl. unfold thread_event. rewrite Ht. simpl. rewrite Hs. destruct ev; try done; by eexists.
Qed.

Lemma close_enabled n t s :
  threads s !! n = Some t -> tx_gone t = false -> is_Some (thread_event php n ThCloseTx s).
Proof.
  intros Ht Htx. unfold thread_event. rewrite Ht. simpl. unfold thread_step. rewrite Htx.
  destruct (pc t); by eexists.
Qed.

(** Where the thread of a sender stands: it goes on, has ended, or is idle. *)
Lemma owned_thread reqs s n :
  sys_good reqs s -> n ∈ owned s ->
  can_proceed s \/ exists t, threads s !! n = Some t /\ live_inv t /\ (pc t = TGone \/ thread_idle t).
Proof.
  intros Hg Hn. destruct (ow_threads _ _ (sg_own _ _ Hg) n Hn) as [t Ht].
  destruct (sy_threads _ _ _ (sg_inv _ _ Hg) n t Ht) as [Hinv _].
  destruct (thread_progress php t Hinv) as [Hpc|[Hidle|(ev & t' & Hev & Hs)]].
  - right. exists t. split_and!; [done|by eapply sg_live|by left].
  - right. exists t. split_and!; [done|by eapply sg_live|by right].
  - left. apply (thread_proceeds n t ev); [done..|by eexists].
Qed.

Section slot.
Context (reqs : list DispatchRequest) (s : System) (i : nat) (sl : Slot ChannelWorkerHandle).
Context (Hgood : sys_good reqs s) (Hi : slots (pool s) !! i = Some sl).

Lemma slot_in_range : i < count config.
Proof. rewrite <- (ow_slots _ _ (sg_own _ _ Hgood)). by eapply lookup_lt_Some. Qed.

Lemma supervisor_of : supervisor_at i s = Some (supervisor sl).
Proof. unfold supervisor_at. by rewrite Hi. Qed.

Lemma booted_proceeds r ready :
  phase (supervisor sl) = PBooting -> spawning s !! i = Some (SpDone r) -> ready <> Elapsed ->
  match r with Ok h => ready_outcome h ready s = true | Err _ => True end -> can_proceed s.
Proof.
  intros Hph Hsp Hne Hr. apply (proceeds_intro (SBooted i ready)); [by destruct ready|].
  simpl. rewrite Hsp.
  assert (match r with Ok h => ready_outcome h ready s | Err _ => true end = true) as -> by (by destruct r).
  destruct (pool_event_enabled (EvSlot i (EvBoot r ready)) s) as [s' ->]; [|by eexists].
  by eapply boot_enabled.
Qed.

(** A boot ends: the spawn goes on, the worker gets ready, or its end is noticed. *)
Lemma booting_proceeds : phase (supervisor sl) = PBooting -> can_proceed s.
Proof.
  intros Hph. destruct (lookup_lt_is_Some_2 (spawning s) i) as [pc Hsp].
  { rewrite (ow_spawning _ _ (sg_own _ _ Hgood)). apply slot_in_range. }
  assert (pc = SpPanicked \/ (pc <> SpPanicked /\ forall r, pc <> SpDone r) \/ exists r, pc = SpDone r)
    as [->|[[Hnp Hpc]|[r ->]]] by (destruct pc; eauto; right; left; by split).
  { apply (proceeds_intro (SBootPanic i)); [done|]. simpl. rewrite Hsp. apply pool_event_enabled.
    unfold pool_step. rewrite Hi. simpl. unfold sup_step. rewrite Hph. by eexists. }
  { apply (proceeds_intro (SSpawn i (Ok "") true)); [done|]. simpl. rewrite supervisor_of. simpl. rewrite Hph, Hsp.
    destruct (spawn_step _ _ pc (runtime s)) as [rt pc'], pc; first [done|by destruct (Hpc r)|by eexists]. }
  destruct r as [h|e]; [|by apply (booted_proceeds (Err e) (Completed (Ok tt)))].
  assert (torn_down h s = true -> can_proceed s) as Hdown.
  { intros Ht. by apply (booted_proceeds (Ok h) (Completed (Err ""))). }
  destruct (task_tx h) as [n|] eqn:Htx; [|apply Hdown; unfold torn_down; by rewrite Htx].
  destruct (owned_thread reqs s n Hgood) as [|(t & Ht & Hlive & Hrest)]; [|done|].
  { unfold owned. rewrite !elem_of_app. right. left. apply list_elem_of_bind. exists (SpDone (Ok h)).
    split; [simpl; rewrite Htx; by left|by eapply list_elem_of_lookup_2]. }
  destruct Hrest as [Hgone|(Hloop & Hopen & _)].
  - destruct (tx_gone t) eqn:Hopen.
    + apply Hdown. unfold torn_down. rewrite Htx, Ht, Hopen, Hgone. simpl. apply orb_true_r.
    + apply (proceeds_intro (SGiveUp i)).
      * simpl. rewrite Hsp, Htx. simpl. by rewrite Ht, Hgone.
      * simpl. rewrite supervisor_of. simpl. rewrite Hph, Hsp, Htx. simpl. by apply (close_enabled n t).
  - apply (booted_proceeds (Ok h) (Completed (Ok tt))); [done..|]. simpl. rewrite Htx. simpl.
    rewrite Ht, Hopen. destruct Hlive as [Hsig _]. rewrite Hloop in Hsig.
    rewrite bool_decide_eq_true_2 by lia. done.
Qed.

(** A teardown ends. *)
Lemma terminating_proceeds why w : phase (supervisor sl) = PTerminating why w -> can_proceed s.
Proof.
  intros Hph.
  assert (torn_down w s = true -> can_proceed s) as Hdown.
  { intros Ht. apply (proceeds_intro (SJoined i 0)); [done|]. simpl. rewrite supervisor_of. simpl.
    rewrite Hph, Ht. apply pool_event_enabled. by eapply terminated_enabled. }
  destruct (task_tx w) as [n|] eqn:Htx; [|apply Hdown; unfold torn_down; by rewrite Htx].
  destruct (owned_thread reqs s n Hgood) as [|(t & Ht & _ & Hrest)]; [|done|].
  { unfold owned. rewrite !elem_of_app. right. right. apply list_elem_of_bind. exists sl.
    split; [|by eapply list_elem_of_lookup_2]. unfold slot_names, slot_dying, dying_names. rewrite Hph, Htx.
    apply elem_of_app. right. by left. }
  destruct (tx_gone t) eqn:Hopen.
  - destruct Hrest as [Hgone|(_ & Ho & _)]; [|congruence].
    apply Hdown. unfold torn_down. rewrite Htx, Ht, Hopen, Hgone. simpl. apply orb_true_r.
  - apply (proceeds_intro (STerminate i)); [done|]. simpl. rewrite supervisor_of. simpl. rewrite Hph, Htx. simpl.
    by apply (close_enabled n t).
Qed.

Lemma exec_proceeds req c o :
  phase (supervisor sl) = PExec req -> exec s !! i = Some c -> exec_outcome c o s = true -> o <> Elapsed ->
  can_proceed s.
Proof.
  intros Hph Hc Ho Hne. apply (proceeds_intro (SExec i o)); [by destruct o|]. simpl. rewrite Hc, Ho.
  destruct (pool_event_enabled (EvSlot i (EvExec o)) s) as [s' ->]; [|by eexists]. by eapply exec_enabled.
Qed.

(** The worker of a slot can be sent to, unless it is busy or has ended. *)
Lemma send_proceeds req :
  phase (supervisor sl) = PExec req -> exec s !! i = Some CallNone -> can_proceed s.
Proof.
  intros Hph Hc.
  assert (is_Some (step (SSend i None) s) -> can_proceed s) as Hsend by (by apply proceeds_intro).
  simpl in Hsend. rewrite supervisor_of, Hc, Hph in Hsend.
  destruct (worker (supervisor sl) ≫= task_tx) as [n|] eqn:Htx; [|apply Hsend; by eexists].
  assert (n ∈ serving s) as Hn.
  { apply elem_of_app. right. apply list_elem_of_bind. exists sl.
    split; [|by eapply list_elem_of_lookup_2]. unfold slot_held, held_names. rewrite Hph, Htx. by left. }
  destruct (ow_open _ _ (sg_own _ _ Hgood) n Hn) as (t0 & Ht0 & Hopen).
  destruct (owned_thread reqs s n Hgood) as [|(t & Ht & _ & Hrest)]; [by apply owned_serving|done|].
  assert (t0 = t) as -> by congruence. apply Hsend. rewrite Ht. simpl.
  destruct Hrest as [Hgone|(Hloop & _ & sw & Hs & Hq)]; [rewrite Hgone; by eexists|].
  rewrite Hloop. unfold thread_step. rewrite Hloop, Hs, Hopen, Hq. rewrite decide_True; [by eexists|].
  simpl. unfold task_capacity. lia.
Qed.

(** A call ends: its completion is there, or its worker is at work on it. *)
Lemma executing_proceeds req : phase (supervisor sl) = PExec req -> can_proceed s.
Proof.
  intros Hph. destruct (lookup_lt_is_Some_2 (exec s) i) as [c Hc].
  { rewrite (ow_exec _ _ (sg_own _ _ Hgood)). apply slot_in_range. }
  destruct c as [|n did|]; [by eapply send_proceeds| |by eapply (exec_proceeds req _ (Completed (Err "")))].
  destruct (sy_calls _ _ _ (sg_inv _ _ Hgood) i _ Hc) as (sup & req' & t & room & _ & _ & Ht & Hin).
  pose proof (sg_live _ _ Hgood n t Ht) as Hlive.
  destruct (sy_threads _ _ _ (sg_inv _ _ Hgood) n t Ht) as [Hinv _].
  pose proof (li_tasks _ Hlive) as Hd. rewrite Forall_forall in Hd. destruct (Hd _ Hin) as [d Hdone].
  simpl in Hdone. assert (forall o, exec_outcome (CallSent n did) o s = true -> o <> Elapsed -> can_proceed s) as Hend
    by (intros o; by apply (exec_proceeds req)).
  simpl in Hend. rewrite Ht, Hdone in Hend.
  destruct d; [|by apply (Hend (Completed (Ok tt)))|by apply (Hend (Completed (Err "")))].
  destruct (thread_progress php t Hinv) as [Hpc|[Hidle|(ev & t' & Hev & Hs)]].
  - exfalso. by apply (rest_settled php t Hinv Hlive (or_introl Hpc) did).
  - exfalso. by apply (rest_settled php t Hinv Hlive (or_intror Hidle) did).
  - apply (thread_proceeds n t ev); [done..|by eexists].
Qed.
End slot.

(** While a request is in flight, the system goes on. *)
Lemma busy_proceeds reqs s : sys_good reqs s -> in_flight (pool s) <> [] -> can_proceed s.
Proof.
  intros Hgood Hbusy.
  destruct (pool_progress_with config Hcount (pool s) (Err "") Elapsed (sg_pool _ _ Hgood) Hbusy)
    as (ev & p' & Hstep & Hown & _).
  destruct (own_event ev) eqn:Ho.
  { apply (proceeds_intro (SPool ev)); [by destruct ev|]. simpl. rewrite Ho.
    apply pool_event_enabled. by eexists. }
  destruct ev as [req| | | | |i ev| |k|]; try done.
  apply slot_event_Some in Hstep as (sl & sup' & Hi & Hs & _). unfold sup_step in Hs.
  destruct ev; try done; simpl in Hs; destruct (phase (supervisor sl)) as [| | |[]| | | | | | | |] eqn:Hph;
    try done; [by eapply booting_proceeds|by eapply executing_proceeds..|by eapply terminating_proceeds|
               by eapply booting_proceeds].
Qed.

(** * Executions *)

(** What a scheduler may do from some point on, without new callers and reloads:
    it takes any step, timeouts and deaths of workers included, and it pauses only
    when nothing proceeds. *)
Record execution (st : nat -> System) (ev : nat -> option SysEvent) : Prop := {
  ex_step : forall n e, ev n = Some e -> quiet e = true /\ step e (st n) = Some (st (S n));
  ex_pause : forall n, ev n = None -> st (S n) = st n /\ ~ can_proceed (st n);
}.

Lemma requests_quiet k es e : quiet e = true -> requests k (es ++ [e]) = requests k es.
Proof.
  intros He. revert k; induction es as [|e' es IH]; intros k; [by destruct e|].
  destruct e'; simpl; by rewrite IH.
Qed.

Section execution.
Context (evs : list SysEvent) (now : Z) (st : nat -> System) (ev : nat -> option SysEvent).
Context (Hstart : run step evs (sys_init config now) = Some (st 0)) (Hexec : execution st ev).

(** Every state of an execution is reached by a run with the same requests. *)
Lemma execution_reached n :
  exists es, run step es (sys_init config now) = Some (st n)
    /\ length es <= length evs + n /\ requests 0 es = requests 0 evs
    /\ (existsb spawn_panics evs = false -> (forall m e, ev m = Some e -> spawn_panics e = false) ->
        existsb spawn_panics es = false).
Proof.
  induction n as [|n (es & Hrun & Hlen & Hreq & Hno)]; [exists evs; split_and!; [done|lia|done|done]|].
  destruct (ev n) as [e|] eqn:He.
  - destruct (ex_step _ _ Hexec n e He) as [Hq Hs]. exists (es ++ [e]). split_and!.
    + rewrite run_app, Hrun. cbn [run]. by rewrite Hs.
    + rewrite length_app. simpl. lia.
    + by rewrite requests_quiet.
    + intros H1 H2. rewrite existsb_app, (Hno H1 H2). simpl. by rewrite (H2 n e He).
  - destruct (ex_pause _ _ Hexec n He) as [-> _]. exists es. split_and!; [done|lia|done|done].
Qed.

Lemma execution_good n : exists reqs, sys_good reqs (st n).
Proof.
  destruct (execution_reached n) as (es & Hrun & _). eapply sys_run_good; [apply (sys_init_good now)|done].
Qed.

Lemma execution_drains k :
  (forall n e, k <= n -> ev n = Some e -> failed_boot (st n) e = false) ->
  exists n, in_flight (pool (st n)) = [].
Proof.
  intros Hboots.
  assert (forall s, Acc sys_inner s -> forall n, k <= n -> st n = s -> exists m, in_flight (pool (st m)) = []) as Hacc.
  { intros s Hacc. induction Hacc as [s _ IH]. intros n Hn <-.
    destruct (execution_good n) as (reqs & Hg).
    destruct (decide (length (in_flight (pool (st n))) = 0)) as [Hz%nil_length_inv|Hbusy]; [by exists n|].
    destruct (ev n) as [e|] eqn:He.
    - destruct (ex_step _ _ Hexec n e He) as [Hq Hs]. apply (IH (st (S n))) with (n := S n); [|lia|done].
      exists e. split_and!; [done|by apply Hboots|done].
    - destruct (ex_pause _ _ Hexec n He) as [_ []]. apply (busy_proceeds reqs); [done|].
      by intros Hnil; rewrite Hnil in Hbusy. }
  destruct (execution_good k) as (reqs & Hg). apply (Hacc (st k)) with (n := k); [|done..].
  apply sys_inner_acc; [done|by eapply sg_pool].
Qed.

Lemma execution_done :
  (exists k, forall n e, k <= n -> ev n = Some e -> failed_boot (st n) e = false) ->
  exists n, in_flight (pool (st n)) = []
    /\ finished (pool (st n)) ++ dropped (pool (st n)) ++ cancelled (pool (st n)) ≡ₚ requests 0 evs
    /\ ((Z.of_nat (length evs + n) <= u64_max)%Z -> existsb spawn_panics evs = false ->
        (forall m e, ev m = Some e -> spawn_panics e = false) -> dropped (pool (st n)) = []).
Proof.
  intros [k Hboots]. destruct (execution_drains k Hboots) as [n Hn].
  destruct (execution_reached n) as (es & Hrun & Hlen & Hreq & Hno).
  exists n. split_and!; [done| |].
  - destruct (sys_run_inv config php es [] _ _ Hphp (sys_init_inv config php now) Hrun) as [Hacc _ _ _ _].
    unfold accounted in Hacc. rewrite Hn, <- Hreq in *. exact Hacc.
  - intros Hle H1 H2. eapply (sys_run_alive config php es now); [done|lia|by apply Hno|done].
Qed.
End execution.

(** C5. Liveness of the whole system: after any run, once callers and reloads
    pause and boots stop failing, every execution, whatever order it takes the
    steps of the pool, the supervisors, the spawns and the worker threads in,
    reaches a point where no request is in flight and every request ever made
    has finished, was given back or was cancelled by its caller; none was given
    back, within the first 2^64 - 1 steps, unless the system refused a worker its
    thread.  Callers read or drop their responses and stream in or close their
    bodies.  No fairness is asked of the scheduler, only that it does not pause
    while something can proceed, and no timeout has to fire. *)
Theorem system_live evs now st ev
    (Hstart : run step evs (sys_init config now) = Some (st 0))
    (Hexec : execution st ev)
    (Hboots : exists k, forall n e, k <= n -> ev n = Some e -> failed_boot (st n) e = false) :
  exists n, in_flight (pool (st n)) = []
    /\ finished (pool (st n)) ++ dropped (pool (st n)) ++ cancelled (pool (st n)) ≡ₚ requests 0 evs
    /\ ((Z.of_nat (length evs + n) <= u64_max)%Z -> existsb spawn_panics evs = false ->
        (forall m e, ev m = Some e -> spawn_panics e = false) -> dropped (pool (st n)) = []).
Proof. by apply (execution_done evs now st ev). Qed.

(** * Rest *)

(** A system that waits for callers: a pool that does, no call under way, and
    idle threads. *)
Definition thread_resting (t : Thread) : bool :=
  match pc t with
  | TGone => true
  | TLoop => match Bridge.worker (bridge t) with Some s => bool_decide (task_rx s = []) && negb (tx_gone t) | None => true end
  | _ => false
  end.

Definition resting s : bool :=
  pool_resting (pool s)
  && forallb (fun c => match c with CallNone => true | _ => false end) (exec s)
  && forallb (fun nt => thread_resting nt.2) (map_to_list (threads s)).

Lemma resting_facts s :
  resting s = true ->
  pool_resting (pool s) = true
  /\ (forall i sup, supervisor_at i s = Some sup -> match phase sup with PSelect _ | PParked | PReturned => True | _ => False end)
  /\ (forall i c, exec s !! i = Some c -> c = CallNone)
  /\ (forall n t, threads s !! n = Some t -> thread_resting t = true).
Proof.
  unfold resting. rewrite !andb_true_iff. intros [[H1 H2] H3]. split_and!; [done| | |].
  - intros i sup Hi. unfold supervisor_at in Hi. destruct (slots (pool s) !! i) as [sl|] eqn:Hsl; [|done].
    injection Hi as <-. unfold pool_resting in H1. apply andb_prop in H1 as [_ H1].
    pose proof (forallb_lookup _ _ _ _ H1 Hsl) as Hr. unfold sup_resting, waiting in Hr.
    destruct (phase (supervisor sl)), (bool_decide (inbox sl = [])); done.
  - intros i c Hi. pose proof (forallb_lookup _ _ _ _ H2 Hi). by destruct c.
  - intros n t Ht. apply elem_of_map_to_list, list_elem_of_lookup_1 in Ht as [j Hj].
    exact (forallb_lookup _ _ _ _ H3 Hj).
Qed.

Lemma thread_resting_stays t ev t' :
  thread_resting t = true -> thread_step php ev t = Some t' ->
  match ev with ThSend _ _ | ThCloseTx | ThDie => True | _ => False end.
Proof.
  unfold thread_resting, thread_step. intros Hr Hs. destruct ev; try done;
    destruct (pc t); try done; destruct (Bridge.worker (bridge t)) as [sw|]; try done;
    apply andb_prop in Hr as [Hq Htx]; apply bool_decide_eq_true in Hq; rewrite Hq in Hs; [done|].
  apply negb_true_iff in Htx. by rewrite Htx in Hs.
Qed.

(** Nothing proceeds in such a system. *)
Lemma resting_stops s : resting s = true -> ~ can_proceed s.
Proof.
  intros Hr (ev & s' & Hp & Hstep). destruct (resting_facts s Hr) as (Hpool & Hsup & Hexec & Hthreads).
  assert (forall i e p', pstep (EvSlot i e) (pool s) = Some p' -> False) as Hslot.
  { intros i e p' He. exact (pool_resting_stops config (pool s) _ p' Hpool He). }
  destruct ev as [id m v body|pev|i cwd th|i|i ready|i room|i o|i|i now|i|n tev|i]; [done|..].
  5:{ apply send_Some in Hstep as (sup & req & Hi & Hph & _). specialize (Hsup i sup Hi). by rewrite Hph in Hsup. }
  8:{ apply unwind_Some in Hstep as (sup & n & Hi & Hph & _). specialize (Hsup i sup Hi). by rewrite Hph in Hsup. }
  all: simpl in Hstep.
  2,3,6,7: destruct (supervisor_at i s) as [sup|] eqn:Hi; [|done]; specialize (Hsup i sup Hi); simpl in Hstep;
    by destruct (phase sup).
  - destruct (own_event pev) eqn:Ho; [|done]. apply pool_event_Some in Hstep as (p' & He & _).
    pose proof (pool_resting_stops config (pool s) _ p' Hpool He). by destruct pev.
  - destruct (spawning s !! i) as [[| | | |r|]|]; try done. case_match; [|done].
    destruct (pool_event _ _ s) as [s1|] eqn:He; [|done].
    apply pool_event_Some in He as (p' & He & _). by eapply Hslot.
  - destruct (exec s !! i) as [c|] eqn:Hi; [|done]. by rewrite (Hexec i c Hi) in Hstep.
  - assert (exists t t', threads s !! n = Some t /\ thread_step php tev t = Some t') as (t & t' & Ht & Hs).
    { destruct tev; try done; apply thread_event_Some in Hstep as (t & t' & Ht & Hs & _); eauto. }
    pose proof (thread_resting_stays _ _ _ (Hthreads n t Ht) Hs). by destruct tev.
  - destruct (spawning s !! i) as [[]|]; try done. apply pool_event_Some in Hstep as (p' & He & _). by eapply Hslot.
Qed.

(** ** A finite schedule and a rest make an execution *)

Definition schedule s (es : list SysEvent) (n : nat) : System := default s (run step (take n es) s).

Lemma run_prefix es n e s s' :
  run step es s = Some s' -> es !! n = Some e ->
  exists s1 s2, run step (take n es) s = Some s1 /\ step e s1 = Some s2 /\ run step (take (S n) es) s = Some s2.
Proof.
  revert s n; induction es as [|e' es IH]; intros s n Hrun Hn; [done|]. cbn [run] in Hrun.
  destruct (step e' s) as [s1|] eqn:Hs; [|done]. destruct n as [|n]; simpl in Hn.
  - simplify_eq. exists s, s1. cbn [take run]. rewrite Hs. by destruct es.
  - destruct (IH s1 n Hrun Hn) as (s2 & s3 & H1 & H2 & H3). exists s2, s3.
    rewrite !firstn_cons. cbn [run]. by rewrite Hs.
Qed.

Lemma schedule_execution es s s' :
  run step es s = Some s' -> forallb quiet es = true -> resting s' = true ->
  execution (schedule s es) (fun n => es !! n).
Proof.
  intros Hrun Hq Hrest. split.
  - intros n e He. split; [by eapply forallb_lookup|].
    destruct (run_prefix es n e s s' Hrun He) as (s1 & s2 & H1 & H2 & H3). unfold schedule. by rewrite H1, H3.
  - intros n He. apply lookup_ge_None in He. unfold schedule.
    rewrite !take_ge, Hrun by (clear -He; lia). simpl. split; [done|by apply resting_stops].
Qed.
End live.

(** * Example *)

Module Examples.
Import Sample.
Import SystemSpec.Examples.

(** A caller arrives before the worker has booted; left alone, the system boots it,
    serves the request and rests. *)
Definition arrival : list SysEvent := [SCall "r1" "get" (VString "first") None].
Definition start : System := default (sys_init cfg 0) (run (sys_step cfg php) arrival (sys_init cfg 0)).
Definition rest : list SysEvent :=
  [SPool (EvSlot 0 EvTop); SPool EvSend; SSpawn 0 (Ok "/") true; SSpawn 0 (Ok "/") true; SPool EvMainRecv;
   SSpawn 0 (Ok "/") true; SThread 0 (ThEnter None (fun _ => true)); SPool EvMainTry;
   SBooted 0 (Completed (Ok tt)); SPool (EvSlot 0 (EvRecv (call_request 0 "" "" VNull None))); SSend 0 None;
   SThread 0 ThTake; SThread 0 ThCall; SThread 0 ThFinish; SExec 0 (Completed (Ok tt));
   SPool (EvSlot 0 (EvAfter 5)); SPool (EvSlot 0 EvTop)].
Definition final : System := default start (run (sys_step cfg php) rest start).
Definition st : nat -> System := schedule cfg php start rest.
End Examples.
Import Sample.

Lemma system_live_witness :
  exists n, in_flight (pool (Examples.st n)) = []
    /\ finished (pool (Examples.st n)) ++ dropped (pool (Examples.st n)) ++ cancelled (pool (Examples.st n)) ≡ₚ
         [call_request 0 "r1" "get" (VString "first") None].
Proof.
  destruct (system_live SystemSpec.Examples.cfg SystemSpec.Examples.php BridgeProps.Examples.php_no_recv
    ltac:(vm_compute; discriminate) Examples.arrival 0 Examples.st (fun n => Examples.rest !! n))
    as (n & H1 & H2 & _).
  - vm_run.
  - apply (schedule_execution _ _ Examples.rest Examples.start Examples.final).
    + vm_run.
    + vm_compute; reflexivity.
    + vm_compute; reflexivity.
  - exists (length Examples.rest). intros n e Hn He. apply lookup_ge_None in Hn. exfalso.
    exact (eq_ind None (fun o => match o with None => True | Some _ => False end) I _ (eq_trans (eq_sym Hn) He)).
  - exact (ex_intro _ n (conj H1 H2)).
Defined.
