(* ===== verification/SystemServes.v ===== *)
(** Total correctness of the whole system: where no worker dies and no execution
    runs out of time, every caller is answered, with what the PHP handler makes
    of its request.

    [SystemSpec] says what a caller holds whose request has completed, and
    [SystemLive] that every request comes to an end; what is left is that the
    end is a completion: no completion channel is dropped and no send fails. *)

From S2P Require Import Prelude.
From S2P Require Import Config.
From S2P Require Import Protocol.
From S2P Require Import Runtime.
From S2P Require Import ExtRuntime.
From S2P Require Import Bridge.
From S2P Require Import BridgeSpec.
From S2P Require Import BridgeProps.
From S2P Require Import BridgeIso.
From S2P Require Import WorkerThread.
From S2P Require Import ThreadLive.
From S2P Require Import Supervisor.
From S2P Require Import SupervisorSpec.
From S2P Require Import Dispatch.
From S2P Require Import Pool.
From S2P Require Import PoolSpec.
From S2P Require Import PoolLive.
From S2P Require Import System.
From S2P Require Import SystemSpec.
From S2P Require Import SystemOwn.
From S2P Require Import SystemLive.

Section serves.
Context `{FA : FolkApi}.
Context (config : WorkersConfig) (php : string -> value -> Handler).

Abbreviation step := (sys_step config php).
Abbreviation pstep := (pool_step config (W := ChannelWorkerHandle)).
Implicit Types (s : System) (p : PoolState ChannelWorkerHandle) (sup : Sup ChannelWorkerHandle).

#[local] Arguments thread_step : simpl never.
#[local] Arguments pool_step : simpl never.

(** No worker thread dies or is refused, no execution runs out of time. *)
Definition healthy (ev : SysEvent) : bool :=
  match ev with
  | SThread _ ThDie | SExec _ Elapsed | SBootPanic _ => false
  | _ => true
  end.

(** * Every handle has its sender *)

Definition full_spawn (pc : SpawnPc) : Prop :=
  match pc with SpDone (Ok h) => is_Some (task_tx h) | _ => True end.
Definition full_worker sup : Prop := forall w, worker sup = Some w -> is_Some (task_tx w).

Record handles_full s : Prop := {
  hf_spawn : forall i pc, spawning s !! i = Some pc -> full_spawn pc;
  hf_worker : forall i sup, supervisor_at i s = Some sup -> full_worker sup;
}.

Lemma sup_step_full rl ev sup sup' :
  sup_step config rl ev sup = Some sup' -> full_worker sup ->
  (forall h rd, ev = EvBoot (Ok h) rd -> is_Some (task_tx h)) -> full_worker sup'.
Proof.
  intros Hstep Hfull Hboot. destruct sup as [sl wk bg seen ph tr]. unfold full_worker in *.
  unfold sup_step, boot_worker, take_and_terminate, start_request in Hstep; simpl in *.
  destruct ph as [| | |[]| | | |why w|r| | |], ev as [|[wb|] [[]|]| | | | | | | | | | | | | |]; try done; simpl in *.
  all: repeat case_match; simplify_eq/=; try done.
  all: intros w Hw; simplify_eq; rewrite ?ready_keeps_tx; eauto.
  all: destruct wk; simplify_eq/=; auto.
Qed.

Lemma pool_step_full ev p p' :
  pstep ev p = Some p' ->
  (forall i h rd, ev = EvSlot i (EvBoot (Ok h) rd) -> is_Some (task_tx h)) ->
  (forall i sl, slots p !! i = Some sl -> full_worker (supervisor sl)) ->
  forall i sl, slots p' !! i = Some sl -> full_worker (supervisor sl).
Proof.
  intros Hstep Hboot Hfull i sl Hi. destruct ev as [req| | | | |j ev| |k|].
  6:{ apply slot_event_Some in Hstep as (sl0 & sup' & Hj & Hs & (q & Hsl) & _). rewrite Hsl in Hi.
      apply list_lookup_insert_Some in Hi as [(<- & <- & _)|[_ Hi]]; [|by eapply Hfull]. simpl.
      eapply sup_step_full; [exact Hs|by eapply Hfull|]. intros h rd Heq. apply (Hboot j h rd).
      f_equal. destruct ev, (inbox sl0); simplify_eq/=; done. }
  all: unfold pool_step in Hstep; repeat case_match; simplify_eq/=; try by eapply Hfull.
  apply list_lookup_insert_Some in Hi as [(<- & <- & _)|[_ Hi]]; simpl; by eapply Hfull.
Qed.

Lemma pool_event_full ev s s' :
  pool_event config ev s = Some s' ->
  (forall i h rd, ev = EvSlot i (EvBoot (Ok h) rd) -> is_Some (task_tx h)) ->
  handles_full s -> handles_full s'.
Proof.
  intros (p' & Hp & ->)%pool_event_Some Hboot [Hs Hw]. split; [done|]. intros i sup Hi.
  unfold supervisor_at in *. simpl in Hi. destruct (slots p' !! i) as [sl|] eqn:Hsl; [|done].
  injection Hi as <-. eapply (pool_step_full ev (pool s) p'); [done..| |done].
  intros j sl' Hj. apply (Hw j). by rewrite Hj.
Qed.

Lemma handles_full_ext s s' :
  pool s' = pool s -> spawning s' = spawning s -> handles_full s -> handles_full s'.
Proof. intros E1 E2 [H1 H2]. split; unfold supervisor_at in *; rewrite ?E1, ?E2; done. Qed.

Lemma sys_step_full ev s s' : handles_full s -> step ev s = Some s' -> handles_full s'.
Proof.
  intros Hfull Hstep.
  assert (forall n tev s1, thread_event php n tev s = Some s1 -> handles_full s1) as Hev.
  { intros n tev s1 (t & t' & _ & _ & ->)%thread_event_Some. by apply (handles_full_ext s). }
  destruct ev as [id m v body|pev|i cwd th|i|i ready|i room|i o|i|i now|i|n tev|i].
  6:{ apply send_Some in Hstep as (sup & req & _ & _ & _ & [->|(m & t & t1 & _ & _ & ->)]);
        by apply (handles_full_ext s). }
  6:{ apply exec_event_Some in Hstep as (c & p' & _ & _ & Hp & -> & _).
      assert (handles_full (set_pool p' s)) as Hp'; [|by apply (handles_full_ext (set_pool p' s))].
      eapply (pool_event_full (EvSlot i (EvExec o)) s); [|done|done]. unfold pool_event. by rewrite Hp. }
  8:{ apply unwind_Some in Hstep as (sup & n & _ & _ & _ & He). by eapply Hev. }
  3:{ apply spawn_Some in Hstep as (pc & rt & pc' & _ & Hi & Hpc & Hnp & Hsp & ->).
      assert (full_spawn pc') as Hpc'.
      { destruct pc; simpl in Hsp; repeat case_match; simplify_eq/=; try done. by destruct (Hpc r). }
      destruct Hfull as [H1 H2]. split; [|done]. simpl.
      intros j pc1 [(<- & <- & _)|[_ Hj]]%list_lookup_insert_Some; [done|by eapply H1]. }
  all: simpl in Hstep.
  - destruct (pool_event _ _ s) as [s1|] eqn:He; [|done]. simplify_eq/=.
    apply (handles_full_ext s1); [done..|]. by eapply pool_event_full.
  - destruct (own_event pev) eqn:Ho; [|done]. eapply pool_event_full; [done| |done]. by intros i h rd ->.
  - repeat case_match; try done. destruct (task_tx _); [|done]. by eapply Hev.
  - destruct (spawning s !! i) as [[| | | |r|]|] eqn:Hi; try done. case_match; [|done].
    destruct (pool_event _ _ s) as [s1|] eqn:He; [|done]. simplify_eq/=.
    assert (handles_full s1) as [H1 H2].
    { eapply pool_event_full; [done| |done]. intros j h rd [= -> -> ->]. exact (hf_spawn _ Hfull _ _ Hi). }
    split; [|done]. simpl. intros j pc1 [(<- & <- & _)|[_ Hj]]%list_lookup_insert_Some; [done|by eapply H1].
  - repeat case_match; try done. destruct (task_tx _); [|done]. by eapply Hev.
  - repeat case_match; try done. by eapply pool_event_full.
  - destruct tev; try done; by eapply Hev.
  - repeat case_match; try done. by eapply pool_event_full.
Qed.

Lemma sys_init_full now : handles_full (sys_init config now).
Proof.
  split.
  - intros i pc Hi. simpl in Hi. apply lookup_replicate in Hi as [-> _]. done.
  - intros i sup Hi. unfold supervisor_at in Hi. simpl in Hi.
    destruct (replicate _ _ !! i) as [sl|] eqn:Hsl; [|done]. apply lookup_replicate in Hsl as [-> _].
    injection Hi as <-. by intros w Hw.
Qed.

(** * Where no worker dies *)

(** What becomes of a thread in a step of the system. *)
Lemma sys_step_fate reqs ev s s' n t :
  sys_inv php reqs s -> own_inv config s -> step ev s = Some s' -> threads s !! n = Some t ->
  exists t', threads s' !! n = Some t'
    /\ (t' = t \/ exists tev, thread_step php tev t = Some t' /\ fresh_for t tev
          /\ (healthy ev = true -> tev <> ThDie)).
Proof.
  intros Hinv Hown Hstep Ht. destruct (sys_step_effect config php _ _ _ Hstep) as [pev _ Hts _
    |m tev t0 t1 Hm Hs Hns Hd ->|i cwd th _ _ _ [Hts|(id & Hts)]
    |i room _ _ [Hts|(m & sup & req & t0 & t1 & Hi & Hph & He & Hm & Hs & Hts)]];
    try (rewrite Hts; by eauto).
  - simpl. destruct (decide (m = n)) as [->|Hne]; [|rewrite lookup_insert_ne by done; eauto].
    assert (t0 = t) as -> by congruence. exists t1. rewrite lookup_insert_eq. split; [done|]. right.
    exists tev. split_and!; [done|by destruct tev|]. by intros Hh Heq; rewrite (Hd Heq) in Hh.
  - exists t. rewrite Hts, lookup_insert_ne; [auto|]. intros <-.
    assert (next_name (runtime s) < next_name (runtime s)); [|lia]. apply (ow_fresh _ _ Hown). by eexists.
  - rewrite Hts. destruct (decide (m = n)) as [->|Hne]; [|rewrite lookup_insert_ne by done; eauto].
    assert (t0 = t) as -> by congruence. exists t1. rewrite lookup_insert_eq. split; [done|]. right.
    eexists. split_and!; [exact Hs|by eapply send_fresh|done].
Qed.

(** The request was completed by a worker. *)
Definition completed s (req : DispatchRequest) : Prop :=
  exists n t did room, threads s !! n = Some t /\ (task_of req did, room) ∈ tasks t
    /\ dones (bridge t) !! did = Some DoneSent.

Record healthy_inv s : Prop := {
  hi_full : handles_full s;
  hi_gone : forall n t, threads s !! n = Some t -> pc t = TGone -> tx_gone t = true;
  hi_dropped : forall n t did, threads s !! n = Some t -> dones (bridge t) !! did <> Some DoneDropped;
  hi_failed : forall i, exec s !! i <> Some CallFailed;
  hi_finished : forall req, req ∈ finished (pool s) -> completed s req;
}.

Lemma sys_init_healthy now : healthy_inv (sys_init config now).
Proof.
  split.
  - apply sys_init_full.
  - intros n t Ht. simpl in Ht. apply lookup_singleton_Some in Ht as [_ <-]. done.
  - intros n t did Ht. simpl in Ht. apply lookup_singleton_Some in Ht as [_ <-]. done.
  - intros i Hi. simpl in Hi. by apply lookup_replicate in Hi as [? _].
  - intros req Hin. by apply elem_of_nil in Hin.
Qed.

Context (Hphp : forall m v, no_recv (php m v)) (Hcount : (2 * Z.of_nat (count config) <= u64_max)%Z).

Lemma completed_kept reqs ev s s' req :
  sys_inv php reqs s -> own_inv config s -> healthy ev = true -> step ev s = Some s' ->
  completed s req -> completed s' req.
Proof.
  intros Hinv Hown Hev Hstep (n & t & did & room & Ht & Hin & Hd).
  destruct (sys_step_fate _ _ _ _ _ _ Hinv Hown Hstep Ht) as (t' & Ht' & [->|(tev & Hs & Hf & Hne)]).
  - by exists n, t, did, room.
  - exists n, t', did, room. split_and!; [done| |].
    + rewrite (thread_step_tasks php _ _ _ Hs). apply elem_of_app. by left.
    + destruct (sy_threads _ _ _ Hinv n t Ht) as [Hti _].
      destruct (thread_step_settles php tev t t' Hti Hf Hs (Hne Hev)) as (Hsent & _). by apply Hsent.
Qed.

Lemma pool_step_finished ev p p' :
  pstep ev p = Some p' -> no_exec ev -> finished p' = finished p.
Proof.
  intros Hstep Hno. destruct ev as [req| | | | |i ev| |k|].
  6:{ apply slot_event_Some in Hstep as (sl & sup' & _ & _ & _ & -> & _). unfold completed_by.
      destruct (phase (supervisor sl)); try by rewrite app_nil_r. by destruct ev, (inbox sl); rewrite ?app_nil_r. }
  all: unfold pool_step in Hstep; repeat case_match; by simplify_eq/=.
Qed.

Lemma sys_step_finished ev s s' :
  step ev s = Some s' -> match ev with SExec _ _ => False | _ => True end ->
  finished (pool s') = finished (pool s).
Proof.
  intros Hstep Hev. destruct (sys_step_effect config php _ _ _ Hstep) as [pev Hp _ [[Hno _]|(i & o & -> & _)]
    |m tev t0 t1 _ _ _ _ ->|i cwd th _ -> _ _|i room _ -> _]; try done.
  by eapply pool_step_finished.
Qed.

(** Only a send starts a call. *)
Lemma sys_step_exec ev s s' i c :
  step ev s = Some s' -> match ev with SSend _ _ => False | _ => True end ->
  exec s' !! i = Some c -> exec s !! i = Some c \/ c = CallNone.
Proof.
  intros Hstep Hev Hc. destruct (sys_step_effect config php _ _ _ Hstep) as [pev _ _ [[_ He]|(j & o & _ & He)]
    |m tev t0 t1 _ _ _ _ ->|j cwd th _ _ He _|j room -> _ _]; [..|done]; try (rewrite He in Hc); auto.
  apply list_lookup_insert_Some in Hc as [(_ & <- & _)|[_ Hc]]; auto.
Qed.

(** The end of a call is a completion. *)
Lemma exec_completed reqs i o s s' :
  sys_inv php reqs s -> healthy_inv s -> healthy (SExec i o) = true -> step (SExec i o) s = Some s' ->
  exists req, finished (pool s') = finished (pool s) ++ [req] /\ completed s req.
Proof.
  intros Hinv Hh Hev Hstep. apply exec_event_Some in Hstep as (c & p' & Hc & Ho & _ & -> & Hfin).
  pose proof (sy_calls _ _ _ Hinv i c Hc) as Hcall.
  destruct c as [|n did|]; [done| |by destruct (hi_failed _ Hh i)].
  destruct Hcall as (sup & req & t & room & Hi & Hph & Ht & Hin). exists req.
  split; [by apply (Hfin sup)|]. exists n, t, did, room. split_and!; [done..|].
  simpl in Ho. rewrite Ht in Ho. destruct o as [[]|]; [| |done];
    destruct (dones (bridge t) !! did) as [[]|] eqn:Hd; try done.
  by destruct (hi_dropped _ Hh n t did Ht).
Qed.

(** The send of a call does not fail. *)
Lemma send_succeeds reqs i room s s' j :
  sys_good config php reqs s -> healthy_inv s -> step (SSend i room) s = Some s' ->
  exec s' !! j <> Some CallFailed.
Proof.
  intros Hg Hh Hstep Hj. simpl in Hstep.
  destruct (supervisor_at i s) as [sup|] eqn:Hi; [|done].
  destruct (exec s !! i) as [[]|] eqn:He; try done. destruct (phase sup) as [| | | | | | | |req| | |] eqn:Hph; try done.
  pose proof Hi as Hsl. unfold supervisor_at in Hsl. destruct (slots (pool s) !! i) as [sl|] eqn:Hsli; [|done].
  injection Hsl as <-.
  destruct (pinv_slots _ _ (sg_pool _ _ _ _ Hg) i sl Hsli) as (Hsup & _).
  pose proof (inv_phase _ _ _ Hsup) as Hp. unfold phase_inv in Hp. rewrite Hph in Hp.
  destruct Hp as (w & Hw & _). destruct (hf_worker _ (hi_full _ Hh) i _ Hi w Hw) as [n Hn].
  rewrite Hw in Hstep. simpl in Hstep. rewrite Hn in Hstep.
  assert (n ∈ serving s) as Hserv.
  { apply elem_of_app. right. apply list_elem_of_bind. exists sl.
    split; [|by eapply list_elem_of_lookup_2]. unfold slot_held, held_names. rewrite Hph, Hw. simpl. rewrite Hn. by left. }
  destruct (ow_open _ _ (sg_own _ _ _ _ Hg) n Hserv) as (t & Ht & Hopen). rewrite Ht in Hstep. simpl in Hstep.
  destruct (pc t) eqn:Hpc; try (destruct (thread_step php _ t) as [t'|]; simplify_eq/=;
    apply list_lookup_insert_Some in Hj as [(_ & ? & _)|[_ Hj]]; [done|by eapply hi_failed]).
  pose proof (hi_gone _ Hh n t Ht Hpc). congruence.
Qed.

Lemma sys_step_healthy reqs ev s s' :
  sys_good config php reqs s -> healthy_inv s -> healthy ev = true -> step ev s = Some s' -> healthy_inv s'.
Proof.
  intros Hg Hh Hev Hstep. pose proof Hg as [Hinv Hown _ _].
  assert (forall n t', threads s' !! n = Some t' ->
    (exists t, threads s !! n = Some t /\ (t' = t \/ exists tev, thread_step php tev t = Some t'
       /\ fresh_for t tev /\ tev <> ThDie)) \/ exists id, t' = thread_new id) as Hthreads.
  { intros n t' Ht'. destruct (threads s !! n) as [t|] eqn:Ht.
    - left. exists t. split; [done|].
      destruct (sys_step_fate _ _ _ _ _ _ Hinv Hown Hstep Ht) as (t1 & Ht1 & Hor).
      assert (t1 = t') as -> by congruence. destruct Hor as [|(tev & ? & ? & ?)]; eauto 10.
    - destruct (sys_step_threads config php _ _ _ _ _ Hstep Ht') as [?|[(t & tev & ? & _)|?]]; [congruence..|by right]. }
  split.
  - by eapply sys_step_full; [apply Hh|].
  - intros n t' Ht' Hpc. destruct (Hthreads n t' Ht') as [(t & Ht & [->|(tev & Hs & Hf & Hne)])|(id & ->)]; [|..|done].
    + by eapply hi_gone.
    + destruct (sy_threads _ _ _ Hinv n t Ht) as [Hti _].
      destruct (thread_step_settles php tev t t' Hti Hf Hs Hne) as (_ & _ & Hgone).
      destruct (Hgone Hpc) as [Hpc0|]; [|done]. pose proof (hi_gone _ Hh n t Ht Hpc0) as Htx.
      unfold thread_step in Hs. rewrite Hpc0 in Hs. destruct tev; try done. by rewrite Htx in Hs.
  - intros n t' did Ht' Hd. destruct (Hthreads n t' Ht') as [(t & Ht & [->|(tev & Hs & Hf & Hne)])|(id & ->)]; [| |done].
    + by eapply hi_dropped.
    + destruct (sy_threads _ _ _ Hinv n t Ht) as [Hti _].
      destruct (thread_step_settles php tev t t' Hti Hf Hs Hne) as (_ & Hdrop & _).
      by apply (hi_dropped _ Hh n t did Ht), Hdrop.
  - intros i Hi.
    assert ((exists k room, ev = SSend k room) \/ match ev with SSend _ _ => False | _ => True end) as [(k & room & ->)|Hne]
      by (destruct ev; eauto; by right); [by eapply send_succeeds|].
    destruct (sys_step_exec _ _ _ _ _ Hstep Hne Hi) as [Hc|]; [by eapply hi_failed|done].
  - intros req Hin. eapply completed_kept; [done..|].
    assert ((exists i o, ev = SExec i o) \/ match ev with SExec _ _ => False | _ => True end) as [(i & o & ->)|Hne]
      by (destruct ev; eauto; by right).
    + destruct (exec_completed reqs i o s s' Hinv Hh Hev Hstep) as (req' & Hfin & Hc). rewrite Hfin in Hin.
      apply elem_of_app in Hin as [Hin| ->%list_elem_of_singleton]; [by apply hi_finished|done].
    + rewrite (sys_step_finished _ _ _ Hstep Hne) in Hin. by apply hi_finished.
Qed.

Lemma sys_run_healthy evs reqs s s' :
  sys_good config php reqs s -> healthy_inv s -> forallb healthy evs = true -> run step evs s = Some s' ->
  healthy_inv s'.
Proof.
  revert reqs s; induction evs as [|ev evs IH]; intros reqs s Hg Hh Hev Hrun; cbn [run] in Hrun; [by simplify_eq|].
  destruct (step ev s) as [s1|] eqn:Hstep; [|done]. simpl in Hev. apply andb_prop in Hev as [Hev Hevs].
  eapply (IH _ s1); [by eapply sys_step_good|by eapply sys_step_healthy|done|done].
Qed.

(** A completed request holds its response. *)
Lemma completed_response `{HO : !HashOrder} reqs s req :
  sys_inv php reqs s -> completed s req ->
  exists n t did room ch, threads s !! n = Some t /\ (task_of req did, room) ∈ tasks t
    /\ streams (bridge t) !! stream_tx req = Some ch /\ response php (task_of req did) room = Some ch
    /\ sc_closed ch = true /\ (rx_left ch = None -> complete (sc_sent ch)).
Proof.
  intros Hinv (n & t & did & room & Ht & Hin & Hd). destruct (sy_threads _ _ _ Hinv n t Ht) as [Hti _].
  pose proof (ti_tasks _ _ Hti) as Htasks. rewrite Forall_forall in Htasks.
  specialize (Htasks _ Hin Hd). simpl in Htasks.
  destruct (response_facts php (task_of req did) room Hphp) as (ch & Hresp & Hcl & _ & Hcomp & _).
  exists n, t, did, room, ch. rewrite Htasks. by split_and!.
Qed.

(** C1. Total correctness: in every execution in which no worker thread dies or is
    refused and no request runs out of time, once callers and reloads pause and
    boots stop failing, there comes a point where no request is in flight, every
    request ever made has finished or was cancelled by its caller (none was given
    back, within the first 2^64 - 1 steps), and the response channel of each that
    finished holds, closed and complete unless its receiver left, what the PHP
    handler makes of that request alone.  Callers read or drop their responses
    and stream in or close their bodies; handlers do not call the worker's own
    receive. *)
Theorem system_serves_everyone `{HO : !HashOrder} evs now st ev
    (Hstart : run step evs (sys_init config now) = Some (st 0)) (Hexec : execution config php st ev)
    (Hboots : exists k, forall n e, k <= n -> ev n = Some e -> failed_boot (st n) e = false)
    (Hbefore : forallb healthy evs = true) (Hafter : forall n e, ev n = Some e -> healthy e = true) :
  exists n, in_flight (pool (st n)) = []
    /\ finished (pool (st n)) ++ dropped (pool (st n)) ++ cancelled (pool (st n)) ≡ₚ requests 0 evs
    /\ ((Z.of_nat (length evs + n) <= u64_max)%Z -> dropped (pool (st n)) = [])
    /\ forall req, req ∈ finished (pool (st n)) ->
         exists m t did room ch, threads (st n) !! m = Some t /\ (task_of req did, room) ∈ tasks t
           /\ streams (bridge t) !! stream_tx req = Some ch /\ response php (task_of req did) room = Some ch
           /\ sc_closed ch = true /\ (rx_left ch = None -> complete (sc_sent ch)).
Proof.
  destruct (execution_done config php Hphp Hcount evs now st ev Hstart Hexec Hboots) as (n & H1 & H2 & H3).
  exists n. split_and!; [done|done| |].
  { intros Hle. apply H3; [done| |].
    - clear -Hbefore. induction evs as [|e evs IH]; [done|]. simpl in *.
      apply andb_prop in Hbefore as [He Hevs]. rewrite (IH Hevs). by destruct e.
    - intros m e He. specialize (Hafter m e He). by destruct e. }
  intros req Hin.
  assert (forall n, healthy_inv (st n)) as Hh.
  { clear -Hphp Hcount Hstart Hexec Hbefore Hafter. intros n. induction n as [|n IH].
    - eapply sys_run_healthy; [by apply sys_init_good|apply sys_init_healthy|done|done].
    - destruct (execution_good config php Hphp Hcount evs now st ev Hstart Hexec n) as [reqs Hg].
      destruct (ev n) as [e|] eqn:He; [|by destruct (ex_pause _ _ _ _ Hexec n He) as [-> _]].
      destruct (ex_step _ _ _ _ Hexec n e He) as [_ Hs]. eapply sys_step_healthy; [done|done|by eapply Hafter|done]. }
  destruct (execution_good config php Hphp Hcount evs now st ev Hstart Hexec n) as [reqs Hg].
  apply (completed_response reqs); [by eapply sg_inv|by apply (hi_finished _ (Hh n))].
Qed.
End serves.

(** * Example *)

Import Sample.
#[local] Existing Instance some_order.

(** The request that arrived before the worker had booted is answered. *)
Lemma system_serves_everyone_witness :
  exists n, in_flight (pool (SystemLive.Examples.st n)) = []
    /\ forall req, req ∈ finished (pool (SystemLive.Examples.st n)) ->
         exists m t ch, threads (SystemLive.Examples.st n) !! m = Some t
           /\ streams (bridge t) !! stream_tx req = Some ch /\ sc_closed ch = true.
Proof.
  destruct (system_serves_everyone SystemSpec.Examples.cfg SystemSpec.Examples.php BridgeProps.Examples.php_no_recv
    ltac:(vm_compute; discriminate) SystemLive.Examples.arrival 0 SystemLive.Examples.st
    (fun n => SystemLive.Examples.rest !! n)) as (n & H1 & _ & _ & H2).
  - vm_run.
  - apply (schedule_execution _ _ SystemLive.Examples.rest SystemLive.Examples.start SystemLive.Examples.final).
    + vm_run.
    + vm_compute; reflexivity.
    + vm_compute; reflexivity.
  - exists (length SystemLive.Examples.rest). intros n e Hn He. apply lookup_ge_None in Hn. exfalso.
    exact (eq_ind None (fun o => match o with None => True | Some _ => False end) I _ (eq_trans (eq_sym Hn) He)).
  - vm_compute; reflexivity.
  - intros n e He. apply (forallb_lookup healthy SystemLive.Examples.rest n e); [vm_compute; reflexivity|exact He].
  - exists n. split; [exact H1|]. intros req Hin.
    destruct (H2 req Hin) as (m & t & did & room & ch & Ht & _ & Hs & _ & Hc & _).
    exact (ex_intro _ m (ex_intro _ t (ex_intro _ ch (conj Ht (conj Hs Hc))))).
Defined.
