(* ===== verification/StreamChannel.v ===== *)
(** The response channel of a call ([mpsc::channel(64)] in
    [WorkerPool::dispatch_streamed], [crates/folk-core/src/worker_pool.rs]):
    the worker's [blocking_send]s wait when it is full, the caller's [recv]
    waits when it is empty, and either end may be dropped.

    [Bridge] models the channel from its sending end only, with sends that never
    wait and the number of sends that succeed given in advance.  Here both ends
    run: what [Bridge] assumes is what the channel does, and a collecting call
    ends, with the value [Executor] gives it, for responses of any length. *)

From S2P Require Import Prelude.
From S2P Require Import Text.
From S2P Require Import Protocol.
From S2P Require Import Collect.
From S2P Require Import Supervisor.
From S2P Require Import Executor.
From S2P Require Import Bridge.
From S2P Require Import BridgeSpec.

(** * Bounded channels

    [tokio::sync::mpsc], with one sender: the operations the sources use and what
    is documented of them.  [None] is an operation that waits. *)

Record ChanView (A : Type) := mkChanView {
  v_capacity : nat;
  v_queue : list A;
  v_rx : bool;
  v_tx : bool;
}.
Arguments mkChanView {A}.
Arguments v_capacity {A}.
Arguments v_queue {A}.
Arguments v_rx {A}.
Arguments v_tx {A}.

Definition set_queue {A} (q : list A) (v : ChanView A) : ChanView A :=
  mkChanView (v_capacity v) q (v_rx v) (v_tx v).

(** A send fails once the receiver is gone and waits for room before that. *)
Definition view_send {A} (a : A) (v : ChanView A) : option (ChanView A * bool) :=
  if v_rx v then
    if decide (length (v_queue v) < v_capacity v)
    then Some (set_queue (v_queue v ++ [a]) v, true) else None
  else Some (v, false).

(** What was sent arrives in order; then [recv] gives [None] if the sender is
    gone and waits if it is not. *)
Definition view_recv {A} (v : ChanView A) : option (ChanView A * option A) :=
  match v_queue v with
  | a :: q => Some (set_queue q v, Some a)
  | [] => if v_tx v then None else Some (v, None)
  end.

Definition view_drop_rx {A} (v : ChanView A) : ChanView A :=
  mkChanView (v_capacity v) [] false (v_tx v).
Definition view_drop_tx {A} (v : ChanView A) : ChanView A :=
  mkChanView (v_capacity v) (v_queue v) (v_rx v) false.

Class Mpsc (A : Type) := {
  Chan : Type;
  channel : nat -> Chan;
  chan_send : A -> Chan -> option (Chan * bool);
  chan_recv : Chan -> option (Chan * option A);
  drop_rx : Chan -> Chan;
  drop_tx : Chan -> Chan;
}.

Class MpscLaws (A : Type) `{Mpsc A} := {
  view : Chan -> ChanView A;
  channel_view : forall n, view (channel n) = mkChanView n [] true true;
  send_view : forall a ch, prod_map view id <$> chan_send a ch = view_send a (view ch);
  recv_view : forall ch, prod_map view id <$> chan_recv ch = view_recv (view ch);
  drop_rx_view : forall ch, view (drop_rx ch) = view_drop_rx (view ch);
  drop_tx_view : forall ch, view (drop_tx ch) = view_drop_tx (view ch);
}.

(** A channel that is its own view. *)
Definition fifo (A : Type) : Mpsc A := {|
  Chan := ChanView A;
  channel n := mkChanView n [] true true;
  chan_send := view_send;
  chan_recv := view_recv;
  drop_rx := view_drop_rx;
  drop_tx := view_drop_tx;
|}.

Lemma fifo_laws (A : Type) : @MpscLaws A (fifo A).
Proof.
  refine {| view := id : @Chan A (fifo A) -> ChanView A |}; try done.
  - intros a ch. simpl. by destruct (view_send a ch) as [[]|].
  - intros ch. simpl. by destruct (view_recv ch) as [[]|].
Defined.

Section ops.
Context {A : Type} `{Mpsc A} `{!MpscLaws A}.

Lemma chan_send_Some a ch ch' ok :
  chan_send a ch = Some (ch', ok) ->
  ok = v_rx (view ch)
  /\ view ch' = (if ok then set_queue (v_queue (view ch) ++ [a]) (view ch) else view ch)
  /\ (ok = true -> length (v_queue (view ch)) < v_capacity (view ch)).
Proof.
  intros Hs. pose proof (send_view a ch) as Hv. rewrite Hs in Hv. unfold view_send in Hv.
  destruct (v_rx (view ch)); [case_decide|]; simplify_eq/=; by split_and!.
Qed.

Lemma chan_send_None a ch :
  chan_send a ch = None ->
  v_rx (view ch) = true /\ v_capacity (view ch) <= length (v_queue (view ch)).
Proof.
  intros Hs. pose proof (send_view a ch) as Hv. rewrite Hs in Hv. unfold view_send in Hv.
  destruct (v_rx (view ch)); [case_decide|]; simplify_eq/=. split; [done|lia].
Qed.

Lemma chan_recv_Some ch ch' x :
  chan_recv ch = Some (ch', x) ->
  match x with
  | Some a => exists q, v_queue (view ch) = a :: q /\ view ch' = set_queue q (view ch)
  | None => v_queue (view ch) = [] /\ v_tx (view ch) = false /\ view ch' = view ch
  end.
Proof.
  intros Hs. pose proof (recv_view ch) as Hv. rewrite Hs in Hv. unfold view_recv in Hv.
  destruct (v_queue (view ch)) as [|a q]; [destruct (v_tx (view ch)) eqn:?|]; simplify_eq/=; eauto.
Qed.

Lemma chan_recv_None ch :
  chan_recv ch = None -> v_queue (view ch) = [] /\ v_tx (view ch) = true.
Proof.
  intros Hs. pose proof (recv_view ch) as Hv. rewrite Hs in Hv. unfold view_recv in Hv.
  by destruct (v_queue (view ch)) as [|a q]; [destruct (v_tx (view ch))|].
Qed.
End ops.

(** * A collecting call

    The worker on one side, [collect_stream] on the other, in any interleaving. *)

Section call.
Context `{FA : FolkApi} `{HO : !HashOrder} `{MC : !Mpsc ResponseChunk} `{ML : !MpscLaws ResponseChunk}.

(** [mpsc::channel(64)]. *)
Definition response_capacity : nat := 64.

(** What a worker sends for one request: it may look at the outcome of every
    send, and it sends finitely often. *)
Inductive Sender :=
| SendDone
| SendChunk (c : ResponseChunk) (k : bool -> Sender).

(** What it sends while the receiver is there. *)
Fixpoint sends (sd : Sender) : list ResponseChunk :=
  match sd with
  | SendDone => []
  | SendChunk c k => c :: sends (k true)
  end.

(** [collect_stream]: reading; returned and about to drop the receiver; over. *)
Inductive Reader :=
| Reading (c : Collected)
| Returning (r : result value)
| Returned (r : result value).

(** One turn of its loop, for what [rx.recv().await] gave. *)
Definition collect_turn (x : option ResponseChunk) (c : Collected) : Reader :=
  match x with
  | None => Returning (collect_finish c)
  | Some chunk =>
      match chunk with
      | Headers s h => Reading {| c_status := s; c_headers := h; c_body := c_body c;
                                  c_return := c_return c |}
      | Body b => Reading {| c_status := c_status c; c_headers := c_headers c;
                             c_body := c_body c ++ b; c_return := c_return c |}
      | Return v => Reading {| c_status := c_status c; c_headers := c_headers c;
                               c_body := c_body c; c_return := Some v |}
      | Error e => Returning (Err (worker_error_display e))
      | End => Returning (collect_finish c)
      end
  end.

(** [sender] is [None] when [stream_tx] has been dropped. *)
Record StreamedCall := mkStreamedCall {
  sender : option Sender;
  chan : Chan;
  reader : Reader;
}.

Inductive Side := WorkerSide | CallerSide.

Definition call_start (sd : Sender) : StreamedCall :=
  mkStreamedCall (Some sd) (channel response_capacity) (Reading collected_init).

Definition call_step (e : Side) (s : StreamedCall) : option StreamedCall :=
  match e with
  | WorkerSide =>
      match sender s with
      | Some (SendChunk c k) =>
          '(ch, ok) ← chan_send c (chan s);
          Some (mkStreamedCall (Some (k ok)) ch (reader s))
      | Some SendDone => Some (mkStreamedCall None (drop_tx (chan s)) (reader s))
      | None => None
      end
  | CallerSide =>
      match reader s with
      | Reading c =>
          '(ch, x) ← chan_recv (chan s);
          Some (mkStreamedCall (sender s) ch (collect_turn x c))
      | Returning r => Some (mkStreamedCall (sender s) (drop_rx (chan s)) (Returned r))
      | Returned _ => None
      end
  end.

(** ** The invariant *)

Definition unsent (s : StreamedCall) : list ResponseChunk :=
  match sender s with Some sd => sends sd | None => [] end.

(** What the caller's loop would return if nothing more happened than what is
    queued and unsent. *)
Definition will_return (s : StreamedCall) : result value :=
  match reader s with
  | Reading c => collect_loop (v_queue (view (chan s)) ++ unsent s) c
  | Returning r | Returned r => r
  end.

Record call_inv (r : result value) (s : StreamedCall) : Prop := {
  ci_result : will_return s = r;
  ci_tx : v_tx (view (chan s)) = bool_decide (is_Some (sender s));
  ci_rx : v_rx (view (chan s)) = match reader s with Returned _ => false | _ => true end;
  ci_capacity : v_capacity (view (chan s)) = response_capacity;
  ci_room : length (v_queue (view (chan s))) <= response_capacity;
}.

Lemma call_start_inv sd : call_inv (collect_stream (sends sd)) (call_start sd).
Proof. split; unfold will_return; simpl; rewrite channel_view; simpl; done || lia. Qed.

Lemma collect_turn_loop chunk rx c :
  match collect_turn (Some chunk) c with
  | Reading c' => collect_loop rx c'
  | Returning r | Returned r => r
  end = collect_loop (chunk :: rx) c.
Proof. by destruct chunk. Qed.

Lemma collect_turn_open x c :
  match collect_turn x c with Returned _ => false | _ => true end = true.
Proof. by destruct x as [[]|]. Qed.

Lemma worker_step_inv r s s' : call_inv r s -> call_step WorkerSide s = Some s' -> call_inv r s'.
Proof.
  intros [Hr Htx Hrx Hcap Hroom] Hstep. unfold will_return, unsent in Hr.
  destruct s as [[[|c k]|] ch rd]; simpl in *; [| |done].
  - simplify_eq. split; unfold will_return, unsent; simpl; by rewrite ?drop_tx_view.
  - destruct (chan_send c ch) as [[ch' ok]|] eqn:Hs; simplify_eq/=.
    apply chan_send_Some in Hs as (Hok & Hv & Hlt).
    split; unfold will_return, unsent; simpl; rewrite ?Hv; rewrite ?Hrx in Hok.
    + destruct rd; [|done..]. subst ok. simpl. by rewrite <- (assoc_L (++)).
    + by destruct ok.
    + by destruct ok.
    + by destruct ok.
    + destruct ok; [|done]. simpl. rewrite length_app. simpl. specialize (Hlt eq_refl). lia.
Qed.

Lemma caller_step_inv r s s' : call_inv r s -> call_step CallerSide s = Some s' -> call_inv r s'.
Proof.
  intros [Hr Htx Hrx Hcap Hroom] Hstep. unfold will_return, unsent in Hr.
  destruct s as [sd ch [c|r'|r']]; simpl in *; [| |done].
  - destruct (chan_recv ch) as [[ch' x]|] eqn:Hs; simplify_eq/=. apply chan_recv_Some in Hs.
    destruct x as [a|].
    + destruct Hs as (q & Hq & Hv). rewrite Hq in *.
      split; unfold will_return, unsent; simpl; rewrite ?Hv; simpl in *; try done.
      * apply (collect_turn_loop a).
      * rewrite Hrx. symmetry. exact (collect_turn_open (Some a) c).
      * lia.
    + destruct Hs as (Hq & Hc & Hv). rewrite Hq, Hc in *.
      split; unfold will_return, unsent; simpl; rewrite ?Hv; try done.
      * destruct sd; [by rewrite bool_decide_eq_true_2 in Htx|]. done.
      * by rewrite Hc.
      * rewrite Hq; simpl; lia.
  - simplify_eq. split; unfold will_return, unsent; simpl; rewrite ?drop_rx_view; simpl; done || lia.
Qed.

Lemma streamed_step_inv r e s s' : call_inv r s -> call_step e s = Some s' -> call_inv r s'.
Proof. destruct e; [apply worker_step_inv|apply caller_step_inv]. Qed.

(** ** It ends *)

Definition call_next (s' s : StreamedCall) : Prop := exists e, call_step e s = Some s'.

(** The caller's own steps: one for each queued chunk, and the last two. *)
Definition caller_fuel (s : StreamedCall) : nat :=
  match reader s with
  | Reading _ => S (S (length (v_queue (view (chan s)))))
  | Returning _ => 1
  | Returned _ => 0
  end.

Lemma caller_step_fuel s s' :
  call_step CallerSide s = Some s' -> sender s' = sender s /\ caller_fuel s' < caller_fuel s.
Proof.
  intros Hstep. destruct s as [sd ch [c|r|r]]; simpl in *; [| |done].
  - destruct (chan_recv ch) as [[ch' x]|] eqn:Hs; simplify_eq/=. split; [done|].
    apply chan_recv_Some in Hs. unfold caller_fuel; simpl. destruct x as [a|]; [|simpl; lia].
    destruct Hs as (q & -> & Hv). destruct a; simpl; rewrite ?Hv; simpl; lia.
  - simplify_eq. split; [done|]. unfold caller_fuel; simpl; lia.
Qed.

(** What one worker step leaves for the worker. *)
Definition sender_lt (a b : option Sender) : Prop :=
  match b with
  | None => False
  | Some SendDone => a = None
  | Some (SendChunk _ k) => exists ok, a = Some (k ok)
  end.

Lemma sender_lt_acc a : Acc sender_lt a.
Proof.
  assert (Acc sender_lt None) as H0 by (by constructor).
  destruct a as [sd|]; [|done]. induction sd as [|c k IH]; constructor; simpl.
  - by intros ? ->.
  - intros ? [ok ->]. apply IH.
Qed.

Lemma worker_step_sender s s' :
  call_step WorkerSide s = Some s' -> sender_lt (sender s') (sender s).
Proof.
  intros Hstep. destruct s as [[[|c k]|] ch rd]; simpl in *; [by simplify_eq| |done].
  destruct (chan_send c ch) as [[ch' ok]|]; simplify_eq/=. eauto.
Qed.

Lemma call_next_acc s : Acc call_next s.
Proof.
  remember (sender s) as sd eqn:Hsd. revert s Hsd.
  induction (sender_lt_acc sd) as [sd _ IH]. intros s Hsd.
  remember (caller_fuel s) as n eqn:Hn. revert s Hsd Hn.
  induction (lt_wf n) as [n _ IHn]. intros s -> ->. constructor. intros s' [[] Hstep].
  - by eapply IH; [apply worker_step_sender|].
  - apply caller_step_fuel in Hstep as [Hs Hlt]. by eapply IHn.
Qed.

(** At rest it is over: a full channel has something to read, an empty one has
    room or is closed. *)
Lemma call_rest r s :
  call_inv r s -> (forall e, call_step e s = None) -> sender s = None /\ reader s = Returned r.
Proof.
  intros [Hr Htx Hrx Hcap Hroom] Hrest.
  pose proof (Hrest WorkerSide) as Hw. pose proof (Hrest CallerSide) as Hc.
  unfold will_return in Hr. destruct s as [sd ch rd]; simpl in *.
  assert (sd = None) as ->.
  { destruct sd as [[|c k]|]; [done| |done]. exfalso.
    destruct (chan_send c ch) as [[]|] eqn:Hs; simplify_eq/=.
    apply chan_send_None in Hs as [Hopen Hfull]. rewrite Hcap in Hfull.
    destruct rd; simpl in *; [|done|congruence].
    destruct (chan_recv ch) as [[]|] eqn:Hv; [done|].
    apply chan_recv_None in Hv as [Hq _]. rewrite Hq in Hfull. unfold response_capacity in Hfull. simpl in Hfull. lia. }
  split; [done|]. destruct rd as [c|r'|r']; [|done|by subst].
  destruct (chan_recv ch) as [[]|] eqn:Hv; simplify_eq/=.
  apply chan_recv_None in Hv as [_ Hv]. by rewrite Htx in Hv.
Qed.

Lemma call_run_inv sd es s :
  run call_step es (call_start sd) = Some s -> call_inv (collect_stream (sends sd)) s.
Proof.
  intros Hrun. eapply (run_invariant call_step (call_inv (collect_stream (sends sd)))); [|apply call_start_inv|exact Hrun].
  intros e s1 s2 Hinv Hstep. by eapply streamed_step_inv.
Qed.

(** C7. A collecting call over the bounded channel neither blocks nor runs for
    ever, however long the response: every interleaving of the worker's sends with
    the caller's reads comes to an end, at most 64 chunks wait at any time, and
    where neither side can move the worker has dropped its sender and the call has
    returned what [execute_value] makes of the chunks sent. *)
Theorem collecting_call_returns sd env m p
    (Hsem : semaphore_closed env = false) (Hpool : pool_gone env = false)
    (Hchunks : chunks env = sends sd) :
  Acc call_next (call_start sd)
  /\ forall es s, run call_step es (call_start sd) = Some s ->
       length (v_queue (view (chan s))) <= response_capacity
       /\ ((forall e, call_step e s = None) ->
            sender s = None /\ reader s = Returned (execute_value env m p).2).
Proof.
  split; [apply call_next_acc|]. intros es s Hrun. pose proof (call_run_inv _ _ _ Hrun) as Hinv.
  split; [by apply ci_room in Hinv|]. intros Hrest.
  destruct (call_rest _ _ Hinv Hrest) as [Hs Hr]. split; [done|]. rewrite Hr.
  unfold execute_value, dispatch_streamed. by rewrite Hsem, Hpool, <- Hchunks.
Qed.
End call.

(** * What the bridge sees of it

    Any receiver, any sender.  [held_tx] and [held_rx] are the ends still held;
    [log] is what [blocking_send] returned for each chunk. *)

Section link.
Context `{FA : FolkApi} `{MC : !Mpsc ResponseChunk} `{ML : !MpscLaws ResponseChunk}.

Record Link := mkLink {
  l_chan : Chan;
  held_tx : bool;
  held_rx : bool;
  log : list (ResponseChunk * bool);
  received : list ResponseChunk;
}.

Inductive LinkEvent := LSend (c : ResponseChunk) | LRecv | LDropTx | LDropRx.

Definition link_start : Link := mkLink (channel response_capacity) true true [] [].

Definition link_step (e : LinkEvent) (s : Link) : option Link :=
  match e with
  | LSend c =>
      if held_tx s then
        '(ch, ok) ← chan_send c (l_chan s);
        Some (mkLink ch true (held_rx s) (log s ++ [(c, ok)]) (received s))
      else None
  | LRecv =>
      if held_rx s then
        '(ch, x) ← chan_recv (l_chan s);
        Some (mkLink ch (held_tx s) true (log s) (received s ++ option_list x))
      else None
  | LDropTx =>
      if held_tx s then
        Some (mkLink (drop_tx (l_chan s)) false (held_rx s) (log s) (received s))
      else None
  | LDropRx =>
      if held_rx s then
        Some (mkLink (drop_rx (l_chan s)) (held_tx s) false (log s) (received s))
      else None
  end.

(** The bridge makes the same sends and gets the same results. *)
Fixpoint replay (sid : nat) (l : list (ResponseChunk * bool)) (b : Bridge) : option Bridge :=
  match l with
  | [] => Some b
  | (c, ok) :: l =>
      let '(b', r) := blocking_send sid c b in
      if bool_decide (is_ok r = ok) then replay sid l b' else None
  end.

(** The outcomes of sending [cs] to a receiver that takes [left] more. *)
Definition outcomes (left : option nat) (cs : list ResponseChunk) : list (ResponseChunk * bool) :=
  ((., true) <$> delivered left cs) ++ ((., false) <$> drop (length (delivered left cs)) cs).

Lemma replay_outcomes sid left cs b ch :
  streams b !! sid = Some ch -> rx_left ch = left ->
  replay sid (outcomes left cs) b = Some (send_all sid cs b).
Proof.
  revert b ch left; induction cs as [|c cs IH]; intros b ch left Hch Hleft.
  { destruct left; unfold outcomes; simpl; by rewrite ?take_nil. }
  pose proof (blocking_send_spec sid c b ch Hch) as Hb.
  assert (is_ok (blocking_send sid c b).2 = match left with Some 0 => false | _ => true end) as Hok.
  { unfold blocking_send. rewrite Hch, Hleft. by destruct left as [[|n]|]. }
  assert (exists left', outcomes left (c :: cs) =
            (c, match left with Some 0 => false | _ => true end) :: outcomes left' cs
          /\ rx_left (push_chan ch [c]) = left') as (left' & -> & Hl').
  { unfold push_chan; simpl. rewrite Hleft.
    destruct left as [[|n]|]; (eexists; split; [|reflexivity]); unfold outcomes; csimpl.
    all: by rewrite ?Nat.sub_0_r, ?drop_0. }
  cbn [replay send_all]. destruct (blocking_send sid c b) as [b' r]; simpl in *.
  rewrite bool_decide_eq_true_2 by done.
  apply (IH _ (push_chan ch [c])); [|exact Hl'].
  rewrite Hb. simpl. by rewrite lookup_insert_eq.
Qed.

(** ** The invariant *)

Record link_inv (s : Link) : Prop := {
  li_rx : v_rx (view (l_chan s)) = held_rx s;
  li_capacity : v_capacity (view (l_chan s)) = response_capacity;
  li_room : length (v_queue (view (l_chan s))) <= response_capacity;
  (** A reader that stays has, or will have, everything. *)
  li_open : held_rx s = true ->
    log s = (., true) <$> (received s ++ v_queue (view (l_chan s)));
  (** One that left has a prefix of what was sent before it left. *)
  li_left : held_rx s = false -> exists unread rest,
    log s = ((., true) <$> received s ++ unread) ++ ((., false) <$> rest)
    /\ length unread <= response_capacity;
}.

Lemma link_start_inv : link_inv link_start.
Proof.
  split; simpl; rewrite ?channel_view; simpl; try done. lia.
Qed.

Lemma link_step_inv e s s' : link_inv s -> link_step e s = Some s' -> link_inv s'.
Proof.
  intros [Hrx Hcap Hroom Hopen Hleft] Hstep. destruct s as [ch tx rx l rc]; simpl in *.
  destruct e; simpl in Hstep.
  - destruct tx; [|done]. destruct (chan_send c ch) as [[ch' ok]|] eqn:Hs; simplify_eq/=.
    apply chan_send_Some in Hs as (-> & Hv & Hlt).
    destruct (v_rx (view ch)) eqn:Hr; split; simpl; rewrite ?Hv; simpl; try done.
    + rewrite length_app; simpl. specialize (Hlt eq_refl). lia.
    + intros _. rewrite Hopen by done. by rewrite !fmap_app, <- !(assoc_L (++)).
    + intros _. destruct (Hleft eq_refl) as (unread & rest & -> & Hle).
      exists unread, (rest ++ [c]). split; [|done]. by rewrite !fmap_app, <- !(assoc_L (++)).
  - destruct rx; [|done]. destruct (chan_recv ch) as [[ch' x]|] eqn:Hs; simplify_eq/=.
    apply chan_recv_Some in Hs. destruct x as [a|]; simpl.
    + destruct Hs as (q & Hq & Hv). rewrite Hq in *. split; simpl; rewrite ?Hv; simpl; try done.
      * simpl in Hroom. lia.
      * intros _. rewrite Hopen by done. by rewrite <- (assoc_L (++)).
    + destruct Hs as (_ & _ & Hv). split; simpl; by rewrite ?Hv, ?app_nil_r.
  - destruct tx; simplify_eq/=. split; simpl; by rewrite ?drop_tx_view.
  - destruct rx; simplify_eq/=. split; simpl; rewrite ?drop_rx_view; simpl; try done; [lia|].
    intros _. exists (v_queue (view ch)), []. rewrite Hopen by done. by rewrite app_nil_r.
Qed.

(** ** Both directions *)

Lemma outcomes_none cs : outcomes None cs = (., true) <$> cs.
Proof. unfold outcomes; simpl. by rewrite drop_all, app_nil_r. Qed.

Lemma outcomes_some cs rest : outcomes (Some (length cs)) (cs ++ rest) = ((., true) <$> cs) ++ ((., false) <$> rest).
Proof. unfold outcomes; simpl. by rewrite take_app_length, drop_app_length. Qed.

(** The number of sends that succeed, known when all is over. *)
Lemma link_inv_outcomes s :
  link_inv s -> exists left cs unread,
    log s = outcomes left cs /\ delivered left cs = received s ++ unread
    /\ length unread <= response_capacity
    /\ (held_rx s = true -> left = None /\ unread = v_queue (view (l_chan s))).
Proof.
  intros [_ _ Hroom Hopen Hleft]. destruct (held_rx s).
  - exists None, (received s ++ v_queue (view (l_chan s))), (v_queue (view (l_chan s))).
    rewrite outcomes_none. by split_and!; [apply Hopen|..].
  - destruct (Hleft eq_refl) as (unread & rest & Hlog & Hle).
    exists (Some (length (received s ++ unread))), ((received s ++ unread) ++ rest), unread.
    rewrite outcomes_some. split_and!; [done| |done|done]. simpl. by rewrite take_app_length.
Qed.

(** What the bridge holds for the channel in the state [s]. *)
Definition bridge_sees (s : Link) (sid : nat) (b : Bridge) : Bridge :=
  if held_tx s then b else drop_stream sid b.

Lemma link_sound es s :
  run link_step es link_start = Some s ->
  exists left, forall sid b, streams b !! sid = Some (fresh_chan left) ->
    exists b' ch unread, replay sid (log s) b = Some b'
      /\ streams (bridge_sees s sid b') !! sid = Some ch
      /\ sc_sent ch = received s ++ unread /\ length unread <= response_capacity
      /\ sc_closed ch = negb (held_tx s)
      /\ (held_rx s = true -> rx_left ch = None /\ unread = v_queue (view (l_chan s))).
Proof.
  intros Hrun.
  assert (link_inv s) as Hinv.
  { eapply (run_invariant link_step link_inv); [|apply link_start_inv|exact Hrun].
    intros e s1 s2 H1 H2. by eapply link_step_inv. }
  destruct (link_inv_outcomes s Hinv) as (left & cs & unread & Hlog & Hdel & Hle & Hheld).
  exists left. intros sid b Hb. exists (send_all sid cs b).
  rewrite Hlog, (replay_outcomes sid left cs b (fresh_chan left)) by done.
  exists (let ch := push_chan (fresh_chan left) cs in if held_tx s then ch else close_chan ch), unread.
  split_and!; [done| |by destruct (held_tx s)|done|by destruct (held_tx s)|].
  - unfold bridge_sees. rewrite (send_all_spec sid cs b (fresh_chan left)) by done.
    destruct (held_tx s); simpl; [by rewrite lookup_insert_eq|].
    by rewrite lookup_alter_eq, lookup_insert_eq.
  - intros Hrx. destruct (Hheld Hrx) as [-> ->]. by destruct (held_tx s).
Qed.

(** A reader that keeps up takes every chunk. *)
Lemma link_read_all cs l rc ch :
  view ch = mkChanView response_capacity [] true true ->
  exists ch', view ch' = view ch
    /\ run link_step (cs ≫= fun c => [LSend c; LRecv]) (mkLink ch true true l rc)
       = Some (mkLink ch' true true (l ++ ((., true) <$> cs)) (rc ++ cs)).
Proof.
  revert l rc ch; induction cs as [|c cs IH]; intros l rc ch Hv.
  { exists ch. csimpl. by rewrite !app_nil_r. }
  csimpl. destruct (chan_send c ch) as [[ch1 ok]|] eqn:Hs.
  2: { apply chan_send_None in Hs. rewrite Hv in Hs. unfold response_capacity in Hs. simpl in Hs. lia. }
  apply chan_send_Some in Hs as (-> & Hv1 & _). rewrite Hv in *. simpl in *.
  destruct (chan_recv ch1) as [[ch2 x]|] eqn:Hr.
  2: { apply chan_recv_None in Hr as [Hr _]. by rewrite Hv1 in Hr. }
  apply chan_recv_Some in Hr. rewrite Hv1 in Hr.
  destruct x as [a|]; [|by destruct Hr]. destruct Hr as (q & Hq & Hv2). simplify_eq/=.
  destruct (IH (l ++ [(a, true)]) (rc ++ [a]) ch2 Hv2) as (ch' & Hv' & ->).
  exists ch'. rewrite Hv', Hv2, <- !(assoc_L (++)). done.
Qed.

(** A receiver that is gone fails every send. *)
Lemma link_fail_all cs l rc ch :
  v_rx (view ch) = false ->
  exists ch', run link_step (LSend <$> cs) (mkLink ch true false l rc)
       = Some (mkLink ch' true false (l ++ ((., false) <$> cs)) rc).
Proof.
  revert l ch; induction cs as [|c cs IH]; intros l ch Hv.
  { exists ch. csimpl. by rewrite app_nil_r. }
  csimpl. destruct (chan_send c ch) as [[ch1 ok]|] eqn:Hs.
  2: { apply chan_send_None in Hs as [Hs _]. congruence. }
  apply chan_send_Some in Hs as (-> & Hv1 & _). rewrite Hv in *. simpl.
  destruct (IH (l ++ [(c, false)]) ch1) as (ch' & ->); [by rewrite Hv1|].
  exists ch'. by rewrite <- (assoc_L (++)).
Qed.

Lemma link_complete left cs :
  exists es s, run link_step es link_start = Some s /\ log s = outcomes left cs.
Proof.
  assert (view (channel response_capacity) = mkChanView response_capacity [] true true) as Hv
    by apply channel_view.
  destruct (link_read_all (delivered left cs) [] [] _ Hv) as (ch & Hv1 & Hrun).
  unfold outcomes. destruct left as [n|]; simpl in *.
  - destruct (link_fail_all (drop (length (take n cs)) cs) ((., true) <$> take n cs) (take n cs) (drop_rx ch))
      as (ch' & Hrun'); [by rewrite drop_rx_view|].
    eexists (_ ++ LDropRx :: _), _. rewrite run_app. unfold link_start. rewrite Hrun.
    cbn [run link_step held_rx l_chan held_tx log received]. by rewrite Hrun'.
  - eexists _, _. split; [exact Hrun|]. simpl. by rewrite drop_all, app_nil_r.
Qed.

(** The other side of "callers must drain the receiver": one that keeps it and
    does not read stops the worker at the 65th chunk. *)
Lemma undrained_send_waits cs c s :
  run link_step (LSend <$> cs) link_start = Some s -> length cs <= response_capacity ->
  link_step (LSend c) s = None <-> length cs = response_capacity.
Proof.
  intros Hrun Hle.
  assert (forall cs s0 s1, run link_step (LSend <$> cs) s0 = Some s1 ->
    received s1 = received s0 /\ held_rx s1 = held_rx s0 /\ held_tx s1 = held_tx s0
    /\ length (log s1) = length (log s0) + length cs) as Hkeep.
  { clear. induction cs as [|c cs IH]; intros s0 s1 Hrun; csimpl in *.
    { simplify_eq. by split_and!. }
    destruct (held_tx s0) eqn:Htx; [|done].
    destruct (chan_send c (l_chan s0)) as [[ch ok]|]; simplify_eq/=.
    destruct (IH _ _ Hrun) as (-> & -> & -> & ->). simpl. rewrite length_app. simpl. split_and!; done || lia. }
  destruct (Hkeep cs _ _ Hrun) as (Hrc & Hrx & Htx & Hlen). simpl in *.
  assert (link_inv s) as [Hv Hcap Hroom Hopen _].
  { eapply (run_invariant link_step link_inv); [|apply link_start_inv|exact Hrun].
    intros e s1 s2 H1 H2. by eapply link_step_inv. }
  specialize (Hopen Hrx). rewrite Hopen, Hrc, length_fmap in Hlen. simpl in Hlen.
  rewrite Htx. destruct (chan_send c (l_chan s)) as [[ch ok]|] eqn:Hs; simpl.
  - split; [done|]. intros Heq. apply chan_send_Some in Hs as (-> & _ & Hlt).
    rewrite Hv in Hlt. specialize (Hlt Hrx). lia.
  - apply chan_send_None in Hs as [_ Hs]. split; [lia|done].
Qed.

(** Adequacy: the bridge's view of a response channel, where sends never wait and
    the number of sends that succeed is given in advance, is exactly the bounded
    channel.  Whatever sender, receiver and interleaving: for some such number the
    bridge's sends return the same results one by one, its record of what was sent
    is what the receiver has read and at most 64 chunks more, in order, and it is
    closed when the sender is dropped; a receiver that is still there is one for
    which no send has failed.  Conversely every such number is realised. *)
Lemma stream_chan_is_bounded_channel :
  (forall es s, run link_step es link_start = Some s ->
    exists left, forall sid b, streams b !! sid = Some (fresh_chan left) ->
      exists b' ch unread, replay sid (log s) b = Some b'
        /\ streams (bridge_sees s sid b') !! sid = Some ch
        /\ sc_sent ch = received s ++ unread /\ length unread <= response_capacity
        /\ sc_closed ch = negb (held_tx s)
        /\ (held_rx s = true -> rx_left ch = None /\ unread = v_queue (view (l_chan s))))
  /\ (forall left cs, exists es s, run link_step es link_start = Some s
    /\ forall sid b, streams b !! sid = Some (fresh_chan left) ->
         replay sid (log s) b = Some (send_all sid cs b)).
Proof.
  split; [exact link_sound|]. intros left cs.
  destruct (link_complete left cs) as (es & s & Hrun & Hlog). exists es, s. split; [done|].
  intros sid b Hb. rewrite Hlog. by apply (replay_outcomes sid left cs b (fresh_chan left)).
Qed.
End link.

(** * Examples *)

Module Examples.
Import Sample.
#[local] Existing Instance some_order.
#[export] Instance queue : Mpsc ResponseChunk := fifo ResponseChunk.
#[export] Instance queue_laws : MpscLaws ResponseChunk := fifo_laws ResponseChunk.

(** More chunks than the channel holds, from a worker that gives up when a send
    fails. *)
Fixpoint writes (n : nat) : Sender :=
  match n with
  | O => SendChunk End (fun _ => SendDone)
  | S n => SendChunk (Body [x61]) (fun ok : bool => if ok then writes n else SendDone)
  end.

Lemma sends_writes n : sends (writes n) = replicate n (Body [x61]) ++ [End].
Proof. induction n as [|n IH]; simpl; [done|by rewrite IH]. Qed.

Definition env : CallEnv := {|
  semaphore_closed := false; pool_gone := false; uuid := "u"; new_stream := 0; new_permit := 0;
  chunks := replicate 100 (Body [x61]) ++ [End];
|}.

Lemma writes_env : chunks env = sends (writes 100).
Proof. symmetry. apply sends_writes. Qed.

(** The worker fills the channel, the caller takes all, and so on. *)
Definition schedule : list Side :=
  replicate 64 WorkerSide ++ replicate 64 CallerSide ++ replicate 38 WorkerSide ++ replicate 38 CallerSide.
Definition over : StreamedCall :=
  default (call_start SendDone) (run call_step schedule (call_start (writes 100))).
End Examples.
Import Sample Examples.
#[local] Existing Instance some_order.

Lemma collecting_call_returns_witness :
  (if run call_step (replicate 65 WorkerSide) (call_start (writes 100)) then false else true) = true
  /\ Acc call_next (call_start (writes 100))
  /\ reader Examples.over = Returned (execute_value env "m" VNull).2.
Proof.
  destruct (collecting_call_returns (writes 100) env "m" VNull eq_refl eq_refl writes_env) as [Hacc Hrest].
  split; [vm_compute; reflexivity|]. split; [exact Hacc|].
  refine (proj2 (proj2 (Hrest schedule Examples.over _) _)); [vm_run|].
  intros []; apply nothing_next; vm_compute; reflexivity.
Defined.
