(* ===== verification/PhpCall.v ===== *)
(** One call from PHP to the caller: a PHP handler on the bridge
    ([crates/folk-ext/src/bridge.rs]) sends over the bounded channel
    ([StreamChannel]) to a caller that runs [collect_stream]
    ([crates/folk-core/src/worker_pool.rs]), in every interleaving.

    [handler_sender] is the handler as a [Sender]: the sends its calls make, one by
    one, each with what the bridge does when it succeeds and when it fails.  It is
    the bridge for every receiver, whenever that one leaves. *)

From S2P Require Import Prelude.
From S2P Require Import Text.
From S2P Require Import Protocol.
From S2P Require Import Collect.
From S2P Require Import Bridge.
From S2P Require Import BridgeSpec.
From S2P Require Import BridgeProps.
From S2P Require Import BridgeIso.
From S2P Require Import SystemSpec.
From S2P Require Import StreamChannel.

Section sender.
Context `{FA : FolkApi} (sid : nat).
Implicit Types (b : Bridge) (s : WorkerState).

(** * Receivers that leave *)

Definition leave_chan (n : nat) (ch : StreamChan) : StreamChan :=
  {| sc_sent := sc_sent ch; rx_left := Some n; sc_closed := sc_closed ch |}.

(** The receiver of [sid] will take [n] more chunks. *)
Definition leave (n : nat) b : Bridge := set_streams (alter (leave_chan n) sid (streams b)) b.

Definition live b : Prop := exists ch, streams b !! sid = Some ch /\ rx_left ch = None.

Definition chunks_of b : list ResponseChunk :=
  match streams b !! sid with Some ch => sc_sent ch | None => [] end.

(** What was sent between two states. *)
Definition emitted b b' : list ResponseChunk := drop (length (chunks_of b)) (chunks_of b').

(** * The handler as a sender *)

(** The sends of one call; [k] goes on when all succeeded ([None]) or after the
    [n] that did ([Some n]).  What the call still tries after a failed send fails
    as well. *)
Fixpoint attempts (l : list ResponseChunk) (n : nat) (k : option nat -> Sender) : Sender :=
  match l with
  | [] => k None
  | c :: l => SendChunk c (fun ok : bool => if ok then attempts l (S n) k else k (Some n))
  end.

Fixpoint handler_sender (h : Handler) b : Sender :=
  match h with
  | HReturn r => attempts (emitted b (finalise r b)) 0 (fun _ => SendDone)
  | HCall c k =>
      let '(b', r) := api_call c b in
      attempts (emitted b b') 0 (fun left =>
        match left with
        | None => handler_sender (k r) b'
        | Some n => let '(b', r) := api_call c (leave n b) in handler_sender (k r) b'
        end)
  end.

(** What a sender gets through to a receiver that takes [n]. *)
Fixpoint accepts (n : nat) (sd : Sender) : list ResponseChunk :=
  match sd with
  | SendDone => []
  | SendChunk c k => match n with O => accepts O (k false) | S n => c :: accepts n (k true) end
  end.

Definition accepted_by (left : option nat) (sd : Sender) : list ResponseChunk :=
  match left with None => sends sd | Some n => accepts n sd end.

Lemma sends_attempts l n k : sends (attempts l n k) = l ++ sends (k None).
Proof. revert n; induction l as [|c l IH]; intros n; simpl; [done|by rewrite IH]. Qed.

Lemma accepts_attempts l j k n :
  accepts n (attempts l j k) =
    if decide (length l <= n) then l ++ accepts (n - length l) (k None)
    else take n l ++ accepts 0 (k (Some (j + n))).
Proof.
  revert j n; induction l as [|c l IH]; intros j n; simpl; [by rewrite Nat.sub_0_r|].
  destruct n as [|n]; simpl; [by rewrite Nat.add_0_r|]. rewrite IH.
  rewrite <- Nat.add_succ_comm. do 2 case_decide; try lia; done.
Qed.

(** * Steps that leave the channel alone *)

Record frame (f : Bridge -> Bridge) : Prop := {
  fr_leave : forall n b, f (leave n b) = leave n (f b);
  fr_chunks : forall b, chunks_of (f b) = chunks_of b;
  fr_live : forall b, live b -> live (f b);
}.

Lemma frame_id : frame (fun b => b).
Proof. by split. Qed.
Lemma frame_compose f g : frame f -> frame g -> frame (fun b => f (g b)).
Proof.
  intros [F1 F2 F3] [G1 G2 G3]. split; intros; [by rewrite G1, F1|by rewrite F2, G2|auto].
Qed.
Lemma frame_worker w : frame (set_worker w).
Proof. by split. Qed.
Lemma frame_signal : frame signal_ready.
Proof. by split. Qed.
Lemma frame_done did : frame (done_send did).
Proof. by split. Qed.
Lemma frame_drop i : frame (drop_stream i).
Proof.
  split.
  - intros n b. unfold drop_stream, leave, set_streams. simpl. f_equal.
    destruct (decide (i = sid)) as [->|Hne]; [by rewrite !alter_alter_eq|by apply alter_alter_ne].
  - intros b. unfold chunks_of, drop_stream. simpl.
    destruct (decide (i = sid)) as [->|]; [rewrite lookup_alter_eq|by rewrite lookup_alter_ne].
    by destruct (streams b !! sid).
  - intros b (ch & Hch & Hrx). unfold live, drop_stream. simpl.
    destruct (decide (i = sid)) as [->|]; [rewrite lookup_alter_eq, Hch|rewrite lookup_alter_ne, Hch by done]; eauto.
Qed.
#[local] Hint Resolve frame_id frame_worker frame_signal frame_done frame_drop : frame.
#[local] Hint Extern 2 (frame (fun b => ?f (@?g b))) => apply (frame_compose f g) : frame.

Lemma send_all_leave cs n b :
  live b -> send_all sid cs (leave n b) = leave (n - length cs) (send_all sid (take n cs) b).
Proof.
  intros (ch & Hch & Hrx).
  rewrite (send_all_spec sid cs _ (leave_chan n ch)) by (simpl; by rewrite lookup_alter_eq, Hch).
  rewrite (send_all_spec sid (take n cs) b ch) by done.
  unfold leave, set_streams; simpl. rewrite insert_alter_eq, alter_insert_eq. do 2 f_equal.
  unfold leave_chan, push_chan; simpl. by rewrite Hrx.
Qed.

Lemma send_all_live cs b :
  live b -> live (send_all sid cs b) /\ chunks_of (send_all sid cs b) = chunks_of b ++ cs.
Proof.
  intros (ch & Hch & Hrx). rewrite (send_all_spec sid cs b ch) by done.
  unfold live, chunks_of; simpl. rewrite lookup_insert_eq, Hch. unfold push_chan. rewrite Hrx. eauto.
Qed.

Lemma chunks_leave n b : chunks_of (leave n b) = chunks_of b.
Proof. unfold chunks_of; simpl. rewrite lookup_alter_eq. by destruct (streams b !! sid). Qed.

Lemma leave_leave n m b : leave n (leave m b) = leave n b.
Proof. unfold leave, set_streams; simpl. by rewrite alter_alter_eq. Qed.

(** * The shape of a call

    Every call prepares, sends some chunks, and finishes; only its result tells
    whether they arrived. *)

Definition fits b (cs : list ResponseChunk) : bool :=
  match streams b !! sid with
  | Some ch => match rx_left ch with None => true | Some n => bool_decide (length cs <= n) end
  | None => false
  end.

(** The request being served, if any, is the one of [sid]. *)
Definition on_sid b : Prop :=
  forall s tx, worker b = Some s -> current_stream_tx s = Some tx -> tx = sid.

Record shape {A} (f : Bridge -> Bridge * A) b pre post (cs : list ResponseChunk) (ok err : A) : Prop := {
  sh_pre : frame pre;
  sh_post : frame post;
  sh_call : forall x, worker x = worker b -> is_Some (streams x !! sid) ->
    f x = (post (send_all sid cs (pre x)), if fits x cs then ok else err);
  sh_on : forall x, worker x = worker (pre b) -> on_sid (post x);
}.

Definition shaped {A} (f : Bridge -> Bridge * A) b : Prop :=
  exists pre post cs ok err, shape f b pre post cs ok err.

Lemma blocking_send_fits c b :
  is_Some (streams b !! sid) ->
  blocking_send sid c b = (send_all sid [c] b, if fits b [c] then Ok tt else Err "channel closed").
Proof.
  intros [ch Hch]. unfold fits. cbn [send_all]. unfold blocking_send. rewrite Hch.
  by destruct (rx_left ch) as [[|n]|].
Qed.

Lemma fits_nil b : is_Some (streams b !! sid) -> fits b [] = true.
Proof. intros [ch Hch]. unfold fits. rewrite Hch. by destruct (rx_left ch). Qed.

(** A call that sends nothing and leaves [w]. *)
Lemma shaped_quiet {A} (f : Bridge -> Bridge * A) b post w (a : A) :
  frame post -> (forall x, worker x = worker b -> f x = (post (set_worker w x), a)) ->
  (forall x, worker x = w -> on_sid (post x)) -> shaped f b.
Proof.
  intros Hp Hf Hon. exists (set_worker w), post, [], a, a. split; [auto with frame|done| |done].
  intros x Hx Hch. rewrite fits_nil by done. by apply Hf.
Qed.

Lemma shaped_same {A} (f : Bridge -> Bridge * A) b (a : A) :
  on_sid b -> (forall x, worker x = worker b -> f x = (x, a)) -> shaped f b.
Proof.
  intros Hon Hf. apply (shaped_quiet _ _ (fun x => x) (worker b) a); [auto with frame| |].
  - intros x Hx. rewrite (Hf x Hx). f_equal. rewrite <- Hx. by destruct x.
  - intros x Hx s tx. cbv beta. rewrite Hx. apply Hon.
Qed.

Lemma shaped_on_state {A} (none : A) f b :
  on_sid b -> (forall s, only_body s (f s).1) -> shaped (on_state none f) b.
Proof.
  intros Hon Hf. destruct (worker b) as [s|] eqn:Hs.
  - destruct (Hf s) as (body & left & ps & Heq & _). apply (shaped_quiet _ _ (fun x => x) (Some (f s).1) (f s).2).
    + auto with frame.
    + intros x Hx. unfold on_state. rewrite Hx, Hs. by destruct (f s).
    + intros x Hx s' tx Hs' Htx. cbv beta in Hs'. rewrite Hx in Hs'. injection Hs' as <-.
      rewrite Heq in Htx. by eapply Hon.
  - apply (shaped_same _ _ none); [done|]. intros x Hx. unfold on_state. by rewrite Hx, Hs.
Qed.

Lemma shaped_lift {A B} (g : A -> B) (f : Bridge -> Bridge * A) b :
  shaped f b -> shaped (fun x => prod_map id g (f x)) b.
Proof.
  intros (pre & post & cs & ok & err & [H1 H2 H3 H4]).
  exists pre, post, cs, (g ok), (g err). split; [done|done| |done].
  intros x Hx Hch. rewrite (H3 x Hx Hch). simpl. by destruct (fits x cs).
Qed.

(** A call that finishes the request. *)
Lemma shaped_finish {A} (f : Bridge -> Bridge * A) b s did cs (a : A) :
  (forall x, worker x = worker b ->
     f x = (done_send did (drop_stream sid (send_all sid cs (set_worker (Some (clear_request s)) x))), a)) ->
  shaped f b.
Proof.
  intros Hf. exists (set_worker (Some (clear_request s))), (fun x => done_send did (drop_stream sid x)), cs, a, a.
  split; [auto with frame|auto with frame| |].
  - intros x Hx _. rewrite (Hf x Hx). by destruct (fits x cs).
  - intros x Hx s' tx Hs'. simpl in Hs'. rewrite Hx in Hs'. by simplify_eq/=.
Qed.

(** A call that sends one chunk and returns whether it arrived. *)
Lemma shaped_write (f : Bridge -> Bridge * result unit) b w c :
  (forall s tx, w = Some s -> current_stream_tx s = Some tx -> tx = sid) ->
  (forall x, worker x = worker b -> f x =
     match blocking_send sid c (set_worker w x) with
     | (b, Ok _) => (b, Ok tt)
     | (b, Err _) => (b, Err "stream receiver closed (client gone)")
     end) ->
  shaped f b.
Proof.
  intros Hw Hf. eexists (set_worker w), (fun x => x), [c], _, _. split; [auto with frame|auto with frame| |].
  - intros x Hx Hch. rewrite (Hf x Hx), blocking_send_fits by done.
    change (fits (set_worker w x) [c]) with (fits x [c]). by destruct (fits x [c]).
  - intros x Hx s tx Hs. cbv beta in Hs. rewrite Hx in Hs. by apply Hw.
Qed.

(** Evaluates the prologue of a call on a bridge with the worker [s]. *)
Ltac prologue Hs :=
  let x := fresh "x" in let Hx := fresh "Hx" in
  intros x Hx; bridge_unfold; rewrite Hx, Hs; simpl.

Section calls.
Context b s (Hs : worker b = Some s) (Htx : forall tx, current_stream_tx s = Some tx -> tx = sid).

Lemma worker_on_sid w :
  current_stream_tx w = current_stream_tx s \/ current_stream_tx w = None ->
  forall x, worker x = Some w -> on_sid x.
Proof.
  intros Hw x Hx s' tx Hs' Hcur. assert (s' = w) as -> by congruence.
  destruct Hw as [Heq|Hn]; [apply Htx|]; congruence.
Qed.

Lemma this_on_sid : on_sid b.
Proof. by apply (worker_on_sid s); [left|]. Qed.

Lemma ready_shaped : shaped do_ready b.
Proof.
  unfold do_ready. destruct (ready_tx s) eqn:Hr.
  - apply (shaped_quiet _ _ signal_ready (Some (set_ready_tx false s)) (Ok true)); [auto with frame| |].
    + prologue Hs. by rewrite Hr.
    + intros x Hx. by apply (worker_on_sid (set_ready_tx false s)); [left|].
  - apply (shaped_same _ _ (Ok false) this_on_sid). prologue Hs. by rewrite Hr.
Qed.

Lemma dropped_shaped (f : Bridge -> Bridge * result unit) e :
  (forall x, worker x = worker b -> f x = (drop_stream sid (set_worker (Some (take_stream_tx s)) x), Err e)) ->
  shaped f b.
Proof.
  intros Hf. apply (shaped_quiet _ _ (drop_stream sid) (Some (take_stream_tx s)) (Err e) (frame_drop sid) Hf).
  intros x Hx. by apply (worker_on_sid (take_stream_tx s)); [right|].
Qed.

Lemma send_shaped data : shaped (do_send data) b.
Proof.
  unfold do_send. destruct (current_stream_tx s) as [tx|] eqn:Hcur in |- *;
    [|apply (shaped_same _ _ (Err "no pending request") this_on_sid); prologue Hs; by rewrite Hcur].
  rewrite (Htx tx Hcur) in Hcur. destruct (current_done_tx s) as [did|] eqn:Hdid.
  - destruct (from_slice data) as [v|e] eqn:Hv;
      [apply (shaped_finish _ _ s did [value_chunk v; End] (Ok tt))|
       apply (shaped_finish _ _ s did [Error (worker_error_new ("PHP returned malformed JSON: " +:+ e)); End]
         (Err "PHP returned malformed JSON"))];
      prologue Hs; by rewrite Hcur, Hdid.
  - apply (dropped_shaped _ "no pending done channel"). prologue Hs. by rewrite Hcur, Hdid.
Qed.

(** A call that takes the request, whatever is left of it. *)
Lemma shaped_clear {A} (f : Bridge -> Bridge * A) cs (a : A) :
  (forall x, worker x = worker b ->
     f x = (let y := set_worker (Some (clear_request s)) x in
            let y := match current_stream_tx s with Some tx => drop_stream tx (send_all tx cs y) | None => y end in
            match current_done_tx s with Some did => done_send did y | None => y end, a)) ->
  shaped f b.
Proof.
  assert (forall x, worker x = Some (clear_request s) -> on_sid x) as Hon
    by (intros x; apply worker_on_sid; by right).
  destruct (current_stream_tx s) as [tx|] eqn:Hcur in |- *;
    [rewrite (Htx tx Hcur)|]; destruct (current_done_tx s) as [did|] eqn:Hdid in |- *; cbv zeta; intros Hf.
  - by apply (shaped_finish _ _ s did cs a).
  - exists (set_worker (Some (clear_request s))), (drop_stream sid), cs, a, a.
    split; [auto with frame|auto with frame| |intros x Hx; by apply Hon].
    intros x Hx _. rewrite (Hf x Hx). by destruct (fits x cs).
  - apply (shaped_quiet _ _ (done_send did) (Some (clear_request s)) a); [auto with frame|done|intros; by apply Hon].
  - by apply (shaped_quiet _ _ (fun x => x) (Some (clear_request s)) a); [auto with frame|..].
Qed.

Lemma send_error_shaped m : shaped (do_send_error m) b.
Proof.
  apply (shaped_clear _ [Error (worker_error_new m); End] (Ok tt)).
  unfold do_send_error. prologue Hs. by destruct (current_stream_tx s), (current_done_tx s).
Qed.

Lemma finalise_shaped r : shaped (fun x => (finalise r x, tt)) b.
Proof.
  apply (shaped_clear _ (if stream_started s then [End] else [outcome_chunk r; End]) tt).
  intros x Hx. unfold finalise. rewrite Hx, Hs.
  destruct (current_stream_tx s), (current_done_tx s), (stream_started s); done.
Qed.

Lemma write_head_shaped st h : shaped (do_write_head st h) b.
Proof.
  unfold do_write_head. destruct (current_stream_tx s) as [tx|] eqn:Hcur in |- *;
    [|apply (shaped_same _ _ (Err "no pending request") this_on_sid); prologue Hs; by rewrite Hcur].
  rewrite (Htx tx Hcur) in Hcur. destruct (stream_started s) eqn:Hst.
  - eapply (shaped_same _ _ _ this_on_sid). prologue Hs. rewrite Hcur, Hst. reflexivity.
  - apply (shaped_write _ _ (Some (set_started true s)) (Headers st h)).
    + intros s' tx' [= <-] Hcur'. simpl in Hcur'. congruence.
    + prologue Hs. by rewrite Hcur, Hst.
Qed.

Lemma write_shaped data : shaped (do_write data) b.
Proof.
  unfold do_write. destruct (current_stream_tx s) as [tx|] eqn:Hcur in |- *;
    [|apply (shaped_same _ _ (Err "no pending request") this_on_sid); prologue Hs; by rewrite Hcur].
  rewrite (Htx tx Hcur) in Hcur. case_decide as Hd.
  - apply (shaped_same _ _ (Ok tt) this_on_sid). prologue Hs. by rewrite Hcur.
  - apply (shaped_write _ _ (Some s) (Body data)); [intros s' tx' [= <-] ?; congruence|].
    intros x Hx. bridge_unfold. rewrite Hx, Hs, Hcur. simpl.
    rewrite (set_worker_same x s) by congruence. done.
Qed.

Lemma write_end_shaped : shaped do_write_end b.
Proof.
  unfold do_write_end. destruct (current_stream_tx s) as [tx|] eqn:Hcur in |- *;
    [|apply (shaped_same _ _ (Err "no pending request") this_on_sid); prologue Hs; by rewrite Hcur].
  rewrite (Htx tx Hcur) in Hcur. destruct (current_done_tx s) as [did|] eqn:Hdid.
  - apply (shaped_finish _ _ s did [End] (Ok tt)). prologue Hs. by rewrite Hcur, Hdid.
  - apply (dropped_shaped _ "no pending done channel"). prologue Hs. by rewrite Hcur, Hdid.
Qed.

Lemma call_of_worker c : c <> CRecv -> shaped (api_call c) b.
Proof.
  intros Hc. destruct c; simpl; try done.
  all: try (apply shaped_lift, shaped_on_state; [apply this_on_sid|];
    first [apply read_body|apply read_all_body|apply next_part_body|apply part_read_body|apply part_read_all_body]).
  all: try (apply shaped_lift; auto using ready_shaped, send_shaped, send_error_shaped, write_head_shaped,
    write_shaped, write_end_shaped).
  all: eapply shaped_same; [apply this_on_sid|]; intros x Hx; simpl;
    unfold get_current_request_id, has_worker_state; rewrite Hx, Hs; reflexivity.
Qed.
End calls.

Lemma call_shaped c b : c <> CRecv -> on_sid b -> shaped (api_call c) b.
Proof.
  intros Hc Hon. destruct (worker b) as [s|] eqn:Hs; [apply (call_of_worker b s); [done|by intros; eapply Hon|done]|].
  assert (exists a, forall x, worker x = worker b -> api_call c x = (x, a)) as [a Ha]
    by (destruct c; eexists; intros x Hx; simpl; unfold do_ready, do_recv, do_send, do_send_error,
      do_write_head, do_write, do_write_end, do_read, do_read_all, do_next_part, do_part_read,
      do_part_read_all, on_state, get_current_request_id, has_worker_state; bridge_unfold; rewrite Hx, Hs; simpl; reflexivity).
  by apply (shaped_same _ _ a).
Qed.

Lemma finalise_shaped_all r b : on_sid b -> shaped (fun x => (finalise r x, tt)) b.
Proof.
  intros Hon. destruct (worker b) as [s|] eqn:Hs; [apply (finalise_shaped b s); [done|by intros; eapply Hon]|].
  apply (shaped_same _ _ tt Hon). intros x Hx. unfold finalise. by rewrite Hx, Hs.
Qed.

(** What a call sends, to a receiver that stays and to one that takes [n]. *)
Lemma shaped_facts {A} (f : Bridge -> Bridge * A) b :
  shaped f b -> live b -> exists cs,
    live (f b).1 /\ on_sid (f b).1 /\ chunks_of (f b).1 = chunks_of b ++ cs
    /\ forall n, if decide (length cs <= n)
         then f (leave n b) = (leave (n - length cs) (f b).1, (f b).2)
         else exists b', (f (leave n b)).1 = leave 0 b' /\ live b' /\ on_sid b'
              /\ chunks_of b' = chunks_of b ++ take n cs.
Proof.
  intros (pre & post & cs & ok & err & [[Pl Pc Pv] [Ql Qc Qv] Hcall Hon]) Hlive. exists cs.
  destruct Hlive as (ch & Hch & Hrx). assert (live b) as Hlive by (by exists ch).
  assert (fits b cs = true) as Hfit by (unfold fits; by rewrite Hch, Hrx).
  rewrite (Hcall b) by (by rewrite ?Hch). rewrite Hfit. simpl.
  assert (forall l, live (post (send_all sid l (pre b))) /\ on_sid (post (send_all sid l (pre b)))
    /\ chunks_of (post (send_all sid l (pre b))) = chunks_of b ++ l) as Hl.
  { intros l. destruct (send_all_live l (pre b)) as [H1 H2]; [by apply Pv|]. split_and!; [by apply Qv| |].
    - apply Hon. apply send_all_frame.
    - by rewrite Qc, H2, Pc. }
  split_and!; [apply Hl..|]. intros n.
  assert (streams (leave n b) !! sid = Some (leave_chan n ch)) as Hln by (simpl; by rewrite lookup_alter_eq, Hch).
  rewrite (Hcall (leave n b)) by (by rewrite ?Hln). rewrite Pl, send_all_leave, Ql by (by apply Pv).
  unfold fits. rewrite Hln. simpl. case_decide as Hle.
  - by rewrite bool_decide_eq_true_2, take_ge.
  - exists (post (send_all sid (take n cs) (pre b))).
    replace (n - length cs) with 0 by lia. split; [done|]. apply Hl.
Qed.

Lemma emitted_app b b' cs : chunks_of b' = chunks_of b ++ cs -> emitted b b' = cs.
Proof. unfold emitted. intros ->. apply drop_app_length. Qed.

(** ** A handler whose receiver has left *)

Lemma shaped_gone {A} (f : Bridge -> Bridge * A) b :
  shaped f b -> live b -> exists b', (f (leave 0 b)).1 = leave 0 b' /\ live b' /\ on_sid b'
    /\ chunks_of b' = chunks_of b.
Proof.
  intros Hsh Hlive. destruct (shaped_facts f b Hsh Hlive) as (cs & H1 & H2 & H3 & Hn). specialize (Hn 0).
  case_decide as Hle.
  - assert (cs = []) as -> by (by destruct cs; [|simpl in Hle; lia]). rewrite app_nil_r in H3.
    exists (f b).1. by rewrite Hn.
  - destruct Hn as (b' & Hb' & Hl & Ho & Hc). rewrite take_0, app_nil_r in Hc. by exists b'.
Qed.

Lemma handler_gone h b :
  no_recv h -> live b -> on_sid b ->
  accepts 0 (handler_sender h (leave 0 b)) = [] /\ chunks_of (turn_end h (leave 0 b)) = chunks_of b.
Proof.
  revert b; induction h as [r|c k IH]; intros b Hno Hlive Hon.
  - destruct (shaped_gone _ b (finalise_shaped_all r b Hon) Hlive) as (b' & Hb' & _ & _ & Hc). simpl in Hb'.
    unfold turn_end; simpl. rewrite Hb', !chunks_leave. split; [|done].
    rewrite (emitted_app _ _ []); [done|]. by rewrite !chunks_leave, app_nil_r.
  - destruct Hno as [Hcr Hk]. rewrite turn_end_call. cbn [handler_sender].
    destruct (shaped_gone _ b (call_shaped c b Hcr Hon) Hlive) as (b' & Hb' & Hl & Ho & Hc).
    destruct (api_call c (leave 0 b)) as [b1 r]. simpl in Hb'. subst b1. simpl.
    rewrite (emitted_app _ _ []) by (by rewrite !chunks_leave, app_nil_r). simpl.
    destruct (IH r b' (Hk r) Hl Ho) as [H1 H2]. by rewrite H1, H2.
Qed.

(** ** The sender is the bridge *)

Definition with_left (left : option nat) b : Bridge :=
  match left with None => b | Some n => leave n b end.

Lemma handler_sender_exact left h b :
  no_recv h -> live b -> on_sid b ->
  chunks_of (turn_end h (with_left left b)) = chunks_of b ++ accepted_by left (handler_sender h b).
Proof.
  revert left b; induction h as [r|c k IH]; intros left b Hno Hlive Hon.
  - destruct (shaped_facts _ b (finalise_shaped_all r b Hon) Hlive) as (cs & _ & _ & Hc & Hn). simpl in Hc.
    unfold turn_end; simpl. rewrite (emitted_app _ _ cs Hc).
    destruct left as [n|]; simpl; [|by rewrite sends_attempts, app_nil_r].
    rewrite accepts_attempts. specialize (Hn n). case_decide.
    + injection Hn as ->. simpl. by rewrite chunks_leave, Hc, app_nil_r.
    + destruct Hn as (b' & Hb' & _ & _ & Hc'). simpl in Hb'. by rewrite Hb', chunks_leave, Hc', app_nil_r.
  - destruct Hno as [Hcr Hk]. rewrite turn_end_call. cbn [handler_sender].
    destruct (shaped_facts _ b (call_shaped c b Hcr Hon) Hlive) as (cs & Hl & Ho & Hc & Hn).
    destruct (api_call c b) as [b' r] eqn:Hcall. simpl in *. rewrite (emitted_app _ _ cs Hc).
    destruct left as [n|]; simpl.
    + rewrite accepts_attempts. specialize (Hn n). case_decide; cbv beta match.
      * pose proof (IH r (Some (n - length cs)) b' (Hk r) Hl Ho) as Hi. simpl in Hi.
        rewrite Hn. cbn [fst snd]. by rewrite Hi, Hc, (assoc_L (++)).
      * rewrite Nat.add_0_l. destruct Hn as (b1 & Hb1 & Hl1 & Ho1 & Hc1).
        destruct (api_call c (leave n b)) as [b2 r2]. simpl in *. subst b2.
        destruct (handler_gone (k r2) b1 (Hk r2) Hl1 Ho1) as [-> ->]. by rewrite app_nil_r.
    + pose proof (IH r None b' (Hk r) Hl Ho) as Hi. simpl in Hi.
      rewrite Hcall. cbn [fst snd]. by rewrite Hi, Hc, sends_attempts, (assoc_L (++)).
Qed.
End sender.

(** * End to end *)

Section handler.
Context `{FA : FolkApi} `{HO : !HashOrder} `{MC : !Mpsc ResponseChunk} `{ML : !MpscLaws ResponseChunk}.
Context (php : string -> value -> Handler).

(** A worker that serves [req], as the sender of its response. *)
Definition request_sender (req : TaskRequest) : Sender :=
  handler_sender (stream_tx req) (php (method req) (payload req)) (reference_start req None).

Lemma reference_start_left req left :
  reference_start req left = with_left (stream_tx req) left (reference_start req None).
Proof.
  destruct left as [n|]; [|done]. unfold with_left, leave, set_streams, reference_start; simpl.
  f_equal. unfold list_to_map; simpl. by rewrite alter_insert_eq.
Qed.

(** It is the reference response, for every receiver. *)
Lemma request_sender_exact req left ch :
  (forall m p, no_recv (php m p)) -> response php req left = Some ch ->
  sc_sent ch = accepted_by left (request_sender req).
Proof.
  intros Hphp Hresp. rewrite response_turn in Hresp by done.
  assert (sc_sent ch = chunks_of (stream_tx req)
    (turn_end (php (method req) (payload req)) (reference_start req left))) as ->
    by (unfold chunks_of; by rewrite Hresp).
  rewrite reference_start_left, handler_sender_exact; [|done| |].
  - unfold chunks_of at 1, reference_start; simpl. unfold list_to_map; simpl. by rewrite lookup_insert_eq.
  - eexists. split; [unfold reference_start; simpl; unfold list_to_map; simpl; apply lookup_insert_eq|done].
  - intros s tx. unfold reference_start; simpl. intros [= <-]; simpl. congruence.
Qed.

(** C6. From the PHP handler to the caller's value.  Whatever handler serves the
    request: its sends are those of the reference response, for a receiver that
    stays and for one that leaves after any number of chunks; and when the caller
    collects the response over the bounded channel while the handler runs, every
    interleaving of the two comes to an end, where both have finished and the call
    has returned what [collect_stream] makes of the whole reference response: what
    the handler returned if it does not stream, its head and body if it does. *)
Theorem php_call_collected req (Hphp : forall m p, no_recv (php m p)) :
  (forall left ch, response php req left = Some ch -> sc_sent ch = accepted_by left (request_sender req))
  /\ Acc call_next (call_start (request_sender req))
  /\ forall es s, run call_step es (call_start (request_sender req)) = Some s ->
       (forall e, call_step e s = None) ->
       sender s = None
       /\ (exists ch, response php req None = Some ch /\ reader s = Returned (collect_stream (sc_sent ch)))
       /\ (forall r, quietly_returns (php (method req) (payload req)) r ->
            reader s = Returned (outcome_result r))
       /\ (forall status headers chunks r,
            php (method req) (payload req) = streaming_handler status headers chunks r ->
            reader s = Returned (Ok (legacy_value status headers (concat chunks)))).
Proof.
  split; [intros left ch; by apply request_sender_exact|]. split; [apply call_next_acc|].
  intros es s Hrun Hrest.
  destruct (call_rest _ _ (call_run_inv _ _ _ Hrun) Hrest) as [Hs Hr].
  destruct (response_facts php req None Hphp) as (ch & Hresp & _ & _ & _ & Hq & Hst).
  pose proof (request_sender_exact req None ch Hphp Hresp) as Hsent. simpl in Hsent. rewrite <- Hsent in Hr.
  split_and!; [done|by exists ch| |].
  - intros r Hret. by rewrite Hr, (Hq r).
  - intros status headers chunks r Hh. by rewrite Hr, (Hst status headers chunks r), collect_streamed.
Qed.
End handler.

(** * Example *)

Module Examples.
Import Sample StreamChannel.Examples.
#[local] Existing Instance some_order.
Definition php := BridgeProps.Examples.php.
Definition req : TaskRequest := BridgeProps.Examples.req "stream" 0.

(** The caller reads while the handler still writes. *)
Definition schedule : list Side :=
  [WorkerSide; WorkerSide; CallerSide; WorkerSide; WorkerSide; CallerSide; WorkerSide;
   CallerSide; CallerSide; CallerSide].
Definition over : StreamedCall :=
  default (call_start SendDone) (run call_step schedule (call_start (request_sender php req))).
End Examples.
Import Sample StreamChannel.Examples.
#[local] Existing Instance some_order.

Lemma php_call_collected_witness :
  accepts 2 (request_sender Examples.php Examples.req) = [Headers 201 ∅; Body [x68]]
  /\ Acc call_next (call_start (request_sender Examples.php Examples.req))
  /\ reader Examples.over = Returned (Ok (legacy_value 201 ∅ [x68; x69])).
Proof.
  destruct (php_call_collected Examples.php Examples.req BridgeProps.Examples.php_no_recv) as (_ & Hacc & Hrest).
  split; [reflexivity|]. split; [exact Hacc|].
  destruct (Hrest Examples.schedule Examples.over) as (_ & _ & _ & Hst).
  - vm_run.
  - intros []; apply nothing_next; vm_compute; reflexivity.
  - exact (Hst 201%Z ∅ [[x68]; []; [x69]] (Err "boom") eq_refl).
Defined.
