(* ===== verification/Logging.v ===== *)
(** Logging set-up ([crates/folk-core/src/logging.rs]).

    [tracing_subscriber] is the class [Tracing]: it makes the filters and owns the
    subscriber of the process, which [init] sets. *)

From S2P Require Import Prelude Config.

(** The layer of each format, as the builder calls configure it; [None] leaves the
    default. *)
Inductive LayerFormat := Full | JsonFormat | PrettyFormat.

Record FmtLayer := mkFmtLayer {
  layer_format : LayerFormat;
  with_target : option bool;
  with_thread_ids : option bool;
  with_thread_names : option bool;
  flatten_event : option bool;
}.

Definition fmt_layer : FmtLayer := mkFmtLayer Full None None None None.

(** What [init] uses of [tracing_subscriber].  [try_from_default_env] reads
    [RUST_LOG] and fails when the variable is missing or does not parse. *)
Class Tracing := {
  EnvFilter : Type;
  try_from_default_env : option string -> result EnvFilter;
  EnvFilter_new : string -> EnvFilter;
  (** The process, and the subscriber it logs to. *)
  Global : Type;
  try_init : EnvFilter -> FmtLayer -> Global -> Global * result unit;
  subscriber : Global -> option (EnvFilter * FmtLayer);
}.

(** The global subscriber can be set once. *)
Class TracingLaws `{Tracing} := {
  try_init_first filter layer g : subscriber g = None ->
    (try_init filter layer g).2 = Ok tt /\ subscriber (try_init filter layer g).1 = Some (filter, layer);
  try_init_again filter layer g : is_Some (subscriber g) ->
    is_ok (try_init filter layer g).2 = false /\ subscriber (try_init filter layer g).1 = subscriber g;
}.

Section logging.
Context `{HO : !HashOrder} `{Tracing}.

Definition layer_of (f : LogFormat) : FmtLayer :=
  match f with
  | Text => mkFmtLayer Full (Some true) (Some false) (Some false) None
  | Json => mkFmtLayer JsonFormat (Some true) None None (Some true)
  | Pretty => mkFmtLayer PrettyFormat None None None None
  end.

Definition filter_of (config : LogConfig) (rust_log : option string) : EnvFilter :=
  match try_from_default_env rust_log with
  | Ok filter => filter
  | Err _ => EnvFilter_new (effective_filter config)
  end.

(** [rust_log] is the environment variable. *)
Definition init (config : LogConfig) (rust_log : option string) (g : Global) : Global * result unit :=
  prod_map id (context "tracing subscriber already initialized")
    (try_init (filter_of config rust_log) (layer_of (format config)) g).

(** The first initialisation of a process stays: a second one fails, naming the
    reason, and what is logged does not change. *)
Lemma init_once `{!TracingLaws} c1 c2 env1 env2 g (Hg : subscriber g = None) :
  let '(g1, r1) := init c1 env1 g in
  let '(g2, r2) := init c2 env2 g1 in
  r1 = Ok tt /\ subscriber g1 = Some (filter_of c1 env1, layer_of (format c1))
  /\ (exists e, r2 = Err ("tracing subscriber already initialized: " +:+ e)) /\ subscriber g2 = subscriber g1.
Proof.
  unfold init. destruct (try_init_first (filter_of c1 env1) (layer_of (format c1)) g Hg) as [Hr1 Hs1].
  destruct (try_init _ _ g) as [g1 r1]. simpl in *. subst r1.
  destruct (try_init_again (filter_of c2 env2) (layer_of (format c2)) g1 ltac:(eauto)) as [Hr2 Hs2].
  destruct (try_init _ _ g1) as [g2 [|e]]; simpl in *; [done|]. split_and!; try done. by exists e.
Qed.
End logging.

(** A process whose filters are their text. *)
Module Sample.
Definition tracing : Tracing := {|
  EnvFilter := string;
  try_from_default_env v := match v with Some s => Ok s | None => Err "environment variable not found" end;
  EnvFilter_new s := s;
  Global := option (string * FmtLayer);
  try_init filter layer g :=
    match g with None => (Some (filter, layer), Ok tt) | Some _ => (g, Err "already set") end;
  subscriber g := g;
|}.

Lemma tracing_laws : TracingLaws (H := tracing).
Proof. split; intros filter layer [s|]; simpl; done. Qed.
End Sample.
