(* ===== verification/PluginRegistry.v ===== *)
(** Plugins: boot and shutdown order
    ([crates/folk-core/src/plugin_registry.rs]).

    A plugin is code outside the repository.  The registry calls its [boot] and
    [shutdown]; what they return is part of the plugin.  Each function gives
    the calls it makes, in order, with its result. *)

From S2P Require Import Prelude.

Section plugins.
Context {PluginContext : Type}.

(** The [folk_api::Plugin] methods the registry calls. *)
Record Plugin := mkPlugin {
  plugin_name : string;
  plugin_boot : PluginContext -> result unit;
  plugin_shutdown : result unit;
}.

Definition PluginRegistry : Type := list Plugin.

Definition registry_new : PluginRegistry := [].
Definition register (plugins : PluginRegistry) (plugin : Plugin) : PluginRegistry := plugins ++ [plugin].
Definition names (plugins : PluginRegistry) : list string := plugin_name <$> plugins.

Inductive PluginCall := Boot (p : Plugin) | Shutdown (p : Plugin).

(** An error of one shutdown is logged and the loop goes on: no call depends on
    it. *)
Definition shutdown_partial (plugins : PluginRegistry) (count : nat) : list PluginCall :=
  Shutdown <$> rev (take count plugins).

Definition shutdown_all (plugins : PluginRegistry) : list PluginCall :=
  shutdown_partial plugins (length plugins).

(** The loop over [iter_mut().enumerate()], at index [booted_count]. *)
Fixpoint boot_loop (plugins : PluginRegistry) (ctx : PluginContext) (booted_count : nat)
    (rest : list Plugin) : list PluginCall * result unit :=
  match rest with
  | [] => ([], Ok tt)
  | plugin :: rest =>
      match plugin_boot plugin ctx with
      | Err e =>
          (Boot plugin :: shutdown_partial plugins booted_count,
           context ("plugin '" +:+ plugin_name plugin +:+ "' boot failed") (Err e))
      | Ok _ =>
          let '(calls, r) := boot_loop plugins ctx (S booted_count) rest in
          (Boot plugin :: calls, r)
      end
  end.

Definition boot_all (plugins : PluginRegistry) (ctx : PluginContext) : list PluginCall * result unit :=
  boot_loop plugins ctx 0 plugins.

(** * Specification

    The plugins that are up form a stack: a successful boot pushes, a shutdown
    must be of the plugin on top. *)
Inductive stack_step (ctx : PluginContext) : PluginCall -> list Plugin -> list Plugin -> Prop :=
| stack_boot p st : plugin_boot p ctx = Ok tt -> stack_step ctx (Boot p) st (p :: st)
| stack_boot_fails p e st : plugin_boot p ctx = Err e -> stack_step ctx (Boot p) st st
| stack_shutdown p st : stack_step ctx (Shutdown p) (p :: st) st.

Inductive stack_run (ctx : PluginContext) : list PluginCall -> list Plugin -> list Plugin -> Prop :=
| stack_nil st : stack_run ctx [] st st
| stack_cons c calls st st1 st2 :
    stack_step ctx c st st1 -> stack_run ctx calls st1 st2 -> stack_run ctx (c :: calls) st st2.

Hint Constructors stack_step stack_run : folk.

Lemma stack_run_app ctx calls1 calls2 st1 st2 st3 :
  stack_run ctx calls1 st1 st2 -> stack_run ctx calls2 st2 st3 -> stack_run ctx (calls1 ++ calls2) st1 st3.
Proof. induction 1; simpl; [done|]. intros. econstructor; eauto. Qed.

Lemma stack_run_shutdowns ctx l st : stack_run ctx (Shutdown <$> l) (l ++ st) st.
Proof. induction l; csimpl; econstructor; [constructor|done]. Qed.

Lemma shutdown_partial_run ctx plugins count :
  stack_run ctx (shutdown_partial plugins count) (rev (take count plugins)) [].
Proof. rewrite <- (app_nil_r (rev _)). apply stack_run_shutdowns. Qed.

Lemma boot_loop_spec ctx plugins rest count :
  drop count plugins = rest -> count <= length plugins ->
  let '(calls, r) := boot_loop plugins ctx count rest in
  match r with
  | Ok _ => calls = Boot <$> rest
            /\ stack_run ctx calls (rev (take count plugins)) (rev plugins)
  | Err e => stack_run ctx calls (rev (take count plugins)) []
             /\ exists i p e', plugins !! i = Some p /\ plugin_boot p ctx = Err e' /\ count <= i
                  /\ e = ("plugin '" +:+ plugin_name p +:+ "' boot failed") +:+ ": " +:+ e'
                  /\ calls = (Boot <$> drop count (take (S i) plugins)) ++ shutdown_partial plugins i
  end.
Proof.
  revert count; induction rest as [|p rest IH]; intros count Hdrop Hlen; simpl.
  - split; [done|]. assert (length plugins <= count) as Hge.
    { apply (f_equal length) in Hdrop. rewrite length_drop in Hdrop. simpl in Hdrop. lia. }
    rewrite take_ge by done. constructor.
  - assert (plugins !! count = Some p) as Hp.
    { rewrite <- (Nat.add_0_r count), <- lookup_drop, Hdrop. done. }
    assert (count < length plugins) as Hlt by (by eapply lookup_lt_Some).
    destruct (plugin_boot p ctx) as [[]|e] eqn:Hb; simpl.
    + specialize (IH (S count)). destruct (boot_loop plugins ctx (S count) rest) as [calls r].
      rewrite (take_S_r _ _ p Hp), rev_app_distr in IH. simpl in IH.
      assert (drop (S count) plugins = rest) as Hd.
      { replace (S count) with (count + 1) by lia. by rewrite <- drop_drop, Hdrop. }
      specialize (IH Hd ltac:(lia)). destruct r as [u|e].
      * destruct IH as [-> Hrun]. split; [done|]. econstructor; [by constructor|done].
      * destruct IH as (Hrun & i & q & e' & Hi & Hq & Hle & He & Hcalls). split.
        { econstructor; [by constructor|done]. }
        exists i, q, e'. split_and!; [done|done|lia|done|]. rewrite Hcalls.
        rewrite (drop_S (take (S i) plugins) p count); [done|].
        rewrite lookup_take_lt; [done|lia].
    + split.
      * eapply (stack_cons _ _ _ _ (rev (take count plugins)));
          [by eapply stack_boot_fails|apply shutdown_partial_run].
      * exists count, p, e. split_and!; [done|done|lia|done|].
        rewrite (take_S_r _ _ p Hp), drop_app_ge by (rewrite length_take; lia).
        rewrite length_take, Nat.min_l, Nat.sub_diag by lia. done.
Qed.

Lemma shutdown_all_rev plugins : shutdown_all plugins = Shutdown <$> rev plugins.
Proof. unfold shutdown_all, shutdown_partial. by rewrite firstn_all. Qed.

Lemma shutdown_all_run ctx plugins : stack_run ctx (shutdown_all plugins) (rev plugins) [].
Proof. unfold shutdown_all. rewrite <- (firstn_all plugins) at 3. apply shutdown_partial_run. Qed.

(** Either all plugins are up, in order, or none is. *)
Lemma boot_all_run ctx plugins :
  let '(calls, r) := boot_all plugins ctx in
  if is_ok r then calls = Boot <$> plugins /\ stack_run ctx calls [] (rev plugins)
  else stack_run ctx calls [] [].
Proof.
  unfold boot_all. pose proof (boot_loop_spec ctx plugins plugins 0 eq_refl ltac:(lia)) as Hspec.
  destruct (boot_loop plugins ctx 0 plugins) as [calls [u|e]]; [done|by destruct Hspec].
Qed.

(** C36. Plugins are brought up and down like brackets: when [boot_all] fails,
    the plugins that had booted, and no others, have been shut down in reverse
    order, and the error names the plugin that failed; when it succeeds, all
    have booted in registration order and [shutdown_all] takes all of them down
    in reverse, whatever the shutdowns return. *)
Theorem plugins_bracketed plugins ctx :
  let '(calls, r) := boot_all plugins ctx in
  match r with
  | Ok _ => calls = Boot <$> plugins /\ stack_run ctx (calls ++ shutdown_all plugins) [] []
  | Err e => stack_run ctx calls [] []
             /\ exists i p e', plugins !! i = Some p /\ plugin_boot p ctx = Err e'
                  /\ e = ("plugin '" +:+ plugin_name p +:+ "' boot failed") +:+ ": " +:+ e'
                  /\ calls = (Boot <$> take (S i) plugins) ++ shutdown_partial plugins i
  end.
Proof.
  unfold boot_all. pose proof (boot_loop_spec ctx plugins plugins 0 eq_refl ltac:(lia)) as Hspec.
  destruct (boot_loop plugins ctx 0 plugins) as [calls r]. rewrite take_0 in Hspec. simpl in Hspec.
  destruct r as [u|e].
  - destruct Hspec as [-> Hrun]. split; [done|]. eapply stack_run_app; [exact Hrun|apply shutdown_all_run].
  - destruct Hspec as (Hrun & i & p & e' & Hi & Hp & _ & He & Hcalls). split; [done|].
    by exists i, p, e'.
Qed.
End plugins.

Arguments Plugin : clear implicits.
Arguments PluginCall : clear implicits.
