(* ===== verification/Registries.v ===== *)
(** The registries plugins use: health checks
    ([crates/folk-core/src/health_registry.rs]) and in-process methods
    ([crates/folk-ext/src/registry.rs]).

    Both keep a locked hash map of callbacks from [folk_api]; a callback is an
    element of a type with an operation that runs it.  Registration holds the
    write lock, a lookup the read lock, so each operation is one step. *)

From S2P Require Import Prelude.

Section health.
Context `{HO : !HashOrder}.
Context {HealthCheckFn HealthStatus : Type} (run_check : HealthCheckFn -> HealthStatus).

Definition HealthRegistryImpl : Type := gmap string HealthCheckFn.

Definition health_new : HealthRegistryImpl := ∅.

(** An existing check of the same plugin is replaced, with a warning. *)
Definition health_register (plugin_name : string) (check : HealthCheckFn)
    (checks : HealthRegistryImpl) : HealthRegistryImpl :=
  <[plugin_name := check]> checks.

(** [guard.iter().map(..).collect()], [join_all] and the collection into a
    map. *)
Definition check_all (checks : HealthRegistryImpl) : gmap string HealthStatus :=
  let snapshot := hash_iter checks in
  list_to_map ((fun '(name, check) => (name, run_check check)) <$> snapshot).

Definition health_registered (regs : list (string * HealthCheckFn)) : HealthRegistryImpl :=
  foldl (fun checks '(name, check) => health_register name check checks) health_new regs.
End health.

Section methods.
Context `{HO : !HashOrder}.
Context {RpcHandler : Type} (run_handler : RpcHandler -> bytes -> result bytes).

Definition InProcessRegistry : Type := gmap string RpcHandler.

Definition registry_new : InProcessRegistry := ∅.

Definition register_raw (name : string) (handler : RpcHandler) (handlers : InProcessRegistry) :
    InProcessRegistry :=
  <[name := handler]> handlers.

Definition call (method : string) (payload : bytes) (handlers : InProcessRegistry) : result bytes :=
  match handlers !! method with
  | None => Err ("method not found: " +:+ method)
  | Some handler => run_handler handler payload
  end.

Definition methods (handlers : InProcessRegistry) : list string := (hash_iter handlers).*1.

Definition registered (regs : list (string * RpcHandler)) : InProcessRegistry :=
  foldl (fun handlers '(name, handler) => register_raw name handler handlers) registry_new regs.
End methods.

(** * Specification: the last registration of a name counts *)

Section last_registration.
Context {V : Type}.

Fixpoint last_registered (name : string) (regs : list (string * V)) : option V :=
  match regs with
  | [] => None
  | (n, v) :: regs =>
      match last_registered name regs with
      | Some v => Some v
      | None => if decide (n = name) then Some v else None
      end
  end.

Lemma foldl_insert_lookup (regs : list (string * V)) (m : gmap string V) name :
  foldl (fun m '(n, v) => <[n := v]> m) m regs !! name =
    match last_registered name regs with Some v => Some v | None => m !! name end.
Proof.
  revert m; induction regs as [|[n v] regs IH]; intros m; simpl; [done|].
  rewrite IH. destruct (last_registered name regs); [done|].
  case_decide as Hn; [subst; by rewrite lookup_insert_eq|by rewrite lookup_insert_ne].
Qed.
End last_registration.

(** Whatever was registered, in whatever order the maps are iterated:
    [check_all] reports for each plugin exactly the outcome of its last
    registered check, and nothing for others. *)
Theorem check_all_last_registered `{HO : !HashOrder} {F St} (run_check : F -> St)
    (regs : list (string * F)) name :
  check_all run_check (health_registered regs) !! name = run_check <$> last_registered name regs.
Proof.
  unfold check_all, health_registered, health_register, health_new.
  set (m := foldl _ _ regs).
  assert ((fun '(n, c) => (n, run_check c)) <$> hash_iter m = prod_map id run_check <$> hash_iter m) as ->.
  { apply list_fmap_ext. by intros i [n c] _. }
  rewrite (list_to_map_fmap (M := gmap string)), hash_iter_to_map, lookup_fmap. unfold m.
  rewrite foldl_insert_lookup. by destruct (last_registered name regs).
Qed.

(** A call reaches the handler registered last under the method's name and
    returns what it returns; a method is callable exactly when it is listed, and
    each is listed once. *)
Theorem call_last_registered `{HO : !HashOrder} {H} (run_handler : H -> bytes -> result bytes)
    (regs : list (string * H)) method payload :
  call run_handler method payload (registered regs) =
    match last_registered method regs with
    | Some h => run_handler h payload
    | None => Err ("method not found: " +:+ method)
    end
  /\ (method ∈ methods (registered regs) <-> is_Some (last_registered method regs))
  /\ NoDup (methods (registered regs)).
Proof.
  assert (forall name, registered regs !! name = last_registered name regs) as Hl.
  { intros name. unfold registered, register_raw, registry_new. rewrite foldl_insert_lookup.
    by destruct (last_registered name regs). }
  unfold call. rewrite Hl. split_and!; [done| |apply hash_iter_nodup].
  unfold methods. rewrite list_elem_of_fmap. split.
  - intros ([n h] & -> & Hin). apply elem_of_hash_iter in Hin. simpl. rewrite <- Hl. eauto.
  - intros [h Hh]. exists (method, h). split; [done|]. apply elem_of_hash_iter. by rewrite Hl.
Qed.
