(* ===== verification/Watch.v ===== *)
(** The development file watcher ([crates/folk-core/src/watch.rs]): which file
    events trigger a reload, and how the watcher is set up.

    [notify] delivers the events and the debouncer collects them; both are
    outside the repository.  [std::path::Path::extension] is written out for
    Unix paths. *)

From S2P Require Import Prelude.
From S2P Require Import Config.
From S2P Require Import Text.

(** * Paths *)

(** [split(sep)] on one character. *)
Fixpoint split_on (sep : ascii) (s : string) : list string :=
  match s with
  | EmptyString => [EmptyString]
  | String c s =>
      if Ascii.eqb c sep then EmptyString :: split_on sep s
      else match split_on sep s with
           | [] => [String c EmptyString]
           | p :: ps => String c p :: ps
           end
  end.

(** [Path::file_name]: the last component, unless it is [..] or missing; empty
    and [.] components do not count. *)
Definition file_name (path : string) : option string :=
  match last (base.filter (fun c => c <> EmptyString /\ c <> ".") (split_on "/" path)) with
  | Some c => if decide (c = "..") then None else Some c
  | None => None
  end.

(** [rsplitn(2, '.')]: what precedes the last dot, and what follows it. *)
Fixpoint rsplit_dot (s : string) : option string * string :=
  match s with
  | EmptyString => (None, EmptyString)
  | String c s =>
      match rsplit_dot s with
      | (Some before, after) => (Some (String c before), after)
      | (None, after) => if Ascii.eqb c "." then (Some EmptyString, after) else (None, String c after)
      end
  end.

(** [Path::extension]. *)
Definition extension (path : string) : option string :=
  match file_name path with
  | None => None
  | Some f =>
      match rsplit_dot f with
      | (None, _) => None
      | (Some before, after) => if decide (before = EmptyString) then None else Some after
      end
  end.

(** * The watcher *)

(** [trim_start_matches('.')]. *)
Fixpoint trim_start_dots (s : string) : string :=
  match s with
  | String c s' => if Ascii.eqb c "." then trim_start_dots s' else s
  | EmptyString => EmptyString
  end.

Definition normalise_extension (e : string) : string := to_ascii_lowercase (trim_start_dots e).

(** [and_then(|e| e.to_str())] keeps valid UTF-8. *)
Definition matches_extension (path : string) (extensions : list string) : bool :=
  match extension path with
  | None => false
  | Some e =>
      if valid_utf8 (as_bytes e) then bool_decide (to_ascii_lowercase e ∈ extensions) else false
  end.

(** The debounce callback: whether it spawns a [trigger_reload]. *)
Definition on_debounced (dev : DevConfig) (res : result (list string)) : bool :=
  let extensions := normalise_extension <$> watch_extensions dev in
  match res with
  | Ok events => existsb (fun path => matches_extension path extensions) events
  | Err _ => false
  end.

(** The set-up loop: the paths watched, unless one exists and cannot be. *)
Fixpoint watch_loop (exists_ : string -> bool) (watch : string -> result unit) (paths : list string) :
    result (list string) :=
  match paths with
  | [] => Ok []
  | path :: paths =>
      if exists_ path then
        _ <-? context ("failed to watch " +:+ path) (watch path);;
        watched <-? watch_loop exists_ watch paths;;
        Ok (path :: watched)
      else watch_loop exists_ watch paths
  end.

Definition watch_spawn (debouncer : result unit) (exists_ : string -> bool)
    (watch : string -> result unit) (dev : DevConfig) : result (list string) :=
  _ <-? context "failed to create file watcher" debouncer;;
  watch_loop exists_ watch (watch_paths dev).

(** * Properties *)

Fixpoint no_char (c : ascii) (s : string) : bool :=
  match s with EmptyString => true | String d s => negb (Ascii.eqb d c) && no_char c s end.

Lemma split_on_single sep s : no_char sep s = true -> split_on sep s = [s].
Proof.
  induction s as [|c s IH]; simpl; [done|]. intros [Hc Hs]%andb_true_iff.
  apply negb_true_iff in Hc. by rewrite Hc, (IH Hs).
Qed.

Lemma split_on_nonempty sep s : split_on sep s <> [].
Proof. destruct s; simpl; [done|]. destruct (Ascii.eqb _ _); [done|]. by destruct (split_on sep s). Qed.

Lemma split_on_app sep s t : split_on sep (s +:+ String sep t) = split_on sep s ++ split_on sep t.
Proof.
  induction s as [|c s IH]; simpl; [by rewrite Ascii.eqb_refl|]. rewrite IH.
  destruct (Ascii.eqb c sep); [done|]. pose proof (split_on_nonempty sep s).
  by destruct (split_on sep s).
Qed.

Lemma rsplit_dot_none s : no_char "." s = true -> rsplit_dot s = (None, s).
Proof.
  induction s as [|c s IH]; simpl; [done|]. intros [Hc Hs]%andb_true_iff.
  apply negb_true_iff in Hc. by rewrite (IH Hs), Hc.
Qed.

Lemma rsplit_dot_app s e : no_char "." e = true -> rsplit_dot (s +:+ String "." e) = (Some s, e).
Proof.
  intros He. induction s as [|c s IH]; simpl; [by rewrite (rsplit_dot_none e He)|]. by rewrite IH.
Qed.

Lemma app_dot_not_dots stem ext : stem <> EmptyString -> ext <> EmptyString ->
  no_char "." ext = true ->
  stem +:+ String "." ext <> EmptyString /\ stem +:+ String "." ext <> "."
  /\ stem +:+ String "." ext <> "..".
Proof.
  destruct stem as [|a [|b stem]]; simpl; [done|..]; intros _ He Hd; split_and!; try done.
  - intros [= -> ->]. done.
  - intros [= -> -> Hs]. destruct stem as [|c stem]; simpl in Hs; done.
Qed.

Lemma no_char_app c s t : no_char c (s +:+ t) = no_char c s && no_char c t.
Proof. induction s as [|d s IH]; simpl; [done|]. by rewrite IH, andb_assoc. Qed.

(** The extension of [dir/stem.ext]. *)
Lemma extension_of dir stem ext :
  stem <> EmptyString -> no_char "/" stem = true ->
  ext <> EmptyString -> no_char "." ext = true -> no_char "/" ext = true ->
  extension (dir +:+ String "/" (stem +:+ String "." ext)) = Some ext.
Proof.
  intros Hs Hs1 He Hd Hs2. unfold extension, file_name.
  destruct (app_dot_not_dots stem ext Hs He Hd) as (H1 & H2 & H3).
  rewrite split_on_app, (split_on_single "/" (stem +:+ String "." ext)).
  2:{ rewrite no_char_app, Hs1. simpl. done. }
  rewrite filter_app, filter_cons_True, filter_nil, last_snoc by done.
  rewrite decide_False by done. rewrite rsplit_dot_app by done. by rewrite decide_False.
Qed.

(** A batch of file events triggers a reload exactly when it contains a file
    whose extension is a configured one, up to case and leading dots of the
    configured spelling. *)
Theorem reload_on_extension dev dir stem ext before after
    (Hstem : stem <> EmptyString) (Hslash : no_char "/" stem = true)
    (Hext : ext <> EmptyString) (Hdot : no_char "." ext = true) (Hslash' : no_char "/" ext = true)
    (Hutf8 : valid_utf8 (as_bytes ext) = true)
    (Hothers : Forall (fun path => extension path = None) (before ++ after)) :
  on_debounced dev (Ok (before ++ (dir +:+ String "/" (stem +:+ String "." ext)) :: after)) = true
  <-> exists c, c ∈ watch_extensions dev
        /\ to_ascii_lowercase ext = to_ascii_lowercase (trim_start_dots c).
Proof.
  unfold on_debounced. apply Forall_app in Hothers as [Hb Ha].
  assert (forall l, Forall (fun path => extension path = None) l ->
    existsb (fun path => matches_extension path (normalise_extension <$> watch_extensions dev)) l = false) as Hno.
  { induction 1 as [|path l Hp _ IH]; simpl; [done|]. unfold matches_extension at 1. by rewrite Hp. }
  rewrite existsb_app, (Hno before Hb). simpl. rewrite (Hno after Ha), orb_false_r.
  unfold matches_extension. rewrite extension_of, Hutf8 by done.
  rewrite bool_decide_eq_true, list_elem_of_fmap. unfold normalise_extension. naive_solver.
Qed.

(** A configured extension with an inner dot ([blade.php]) matches no file. *)
Lemma rsplit_dot_after s : no_char "." (rsplit_dot s).2 = true.
Proof.
  induction s as [|c s IH]; simpl; [done|]. destruct (rsplit_dot s) as [[b|] a]; simpl in *; [done|].
  destruct (Ascii.eqb c ".") eqn:Hc; simpl; [done|]. by rewrite Hc.
Qed.

Lemma reload_on_extension_witness :
  on_debounced {| dev_watch := true; watch_paths := ["src"]; watch_extensions := [".PHP"]; debounce := 0 |}
    (Ok ["README"; "src/a.b.php"]) = true.
Proof.
  refine (proj2 (reload_on_extension
    {| dev_watch := true; watch_paths := ["src"]; watch_extensions := [".PHP"]; debounce := 0 |}
    "src" "a.b" "php" ["README"] [] _ _ _ _ _ _ _) _); try reflexivity; try discriminate.
  - repeat constructor.
  - exists ".PHP". split; [by left|reflexivity].
Defined.
