(* ===== verification/F64.v ===== *)
(** [f64] as the sources use it: conversions from and to 64-bit integers, and
    additions.

    Values and operations are those of the Standard Library's [SpecFloat], with
    53 bits of precision.  The casts follow the Rust reference: [as f64] rounds to
    nearest, [as u64] and [as i64] truncate and saturate, and NaN becomes 0. *)

From Stdlib Require Import Floats.SpecFloat.
From S2P Require Import Prelude.

Local Open Scope Z_scope.

Abbreviation f64 := spec_float.

(** [n as f64]. *)
Definition f64_of_int (n : Z) : f64 := binary_normalize 53 1024 n 0 false.

Definition f64_add : f64 -> f64 -> f64 := SFadd 53 1024.

(** Truncation of a finite value towards zero. *)
Definition f64_trunc (m : positive) (e : Z) : Z :=
  if 0 <=? e then Zpos m * 2 ^ e else Zpos m / 2 ^ (- e).

Definition clamp (lo hi n : Z) : Z := Z.max lo (Z.min hi n).

(** The value cast to an integer type with the given bounds. *)
Definition f64_to_int (lo hi : Z) (x : f64) : Z :=
  match x with
  | S754_nan | S754_zero _ => 0
  | S754_infinity false => hi
  | S754_infinity true => lo
  | S754_finite false m e => clamp lo hi (f64_trunc m e)
  | S754_finite true m e => clamp lo hi (- f64_trunc m e)
  end.

Definition i64_min : Z := - 2 ^ 63.
Definition i64_max : Z := 2 ^ 63 - 1.

Definition f64_as_u64 : f64 -> Z := f64_to_int 0 u64_max.
Definition f64_as_i64 : f64 -> Z := f64_to_int i64_min i64_max.

(** * Digits and shifts *)

Definition dig (v : Z) : Z := Z.log2 v + 1.

Lemma digits2_pos_dig p : Zpos (digits2_pos p) = dig (Zpos p).
Proof.
  unfold dig. induction p as [p IH|p IH|]; cbn [digits2_pos]; rewrite ?Pos2Z.inj_succ, ?IH; [| |done].
  - rewrite (Pos2Z.inj_xI p), Z.log2_succ_double by lia. lia.
  - rewrite (Pos2Z.inj_xO p), Z.log2_double by lia. lia.
Qed.

Lemma dig_shift v k : 0 < v -> 0 <= k -> dig (v * 2 ^ k) = dig v + k.
Proof. intros Hv Hk. unfold dig. rewrite Z.log2_mul_pow2 by lia. lia. Qed.

(** Below [2^53], at most 53 digits. *)
Lemma dig_bound v : 0 < v < 2 ^ 53 -> 1 <= dig v <= 53.
Proof.
  intros Hv. unfold dig. pose proof (Z.log2_nonneg v).
  assert (Z.log2 v < 53) by (apply Z.log2_lt_pow2; lia). lia.
Qed.

Lemma iter_pos_nat {A} (f : A -> A) n x : SpecFloat.iter_pos f n x = Nat.iter (Pos.to_nat n) f x.
Proof.
  revert x; induction n as [n IH|n IH|]; intros x; cbn [SpecFloat.iter_pos].
  - rewrite !IH, <- Nat.iter_add, Pos2Nat.inj_xI, <- Nat.iter_succ_r. f_equal. lia.
  - rewrite !IH, <- Nat.iter_add, Pos2Nat.inj_xO. f_equal. lia.
  - done.
Qed.

(** Shifting out zeros loses nothing. *)
Lemma shr_exact m n :
  0 < m -> Nat.iter n shr_1 (Build_shr_record (m * 2 ^ Z.of_nat n) false false) = Build_shr_record m false false.
Proof.
  revert m; induction n as [|n IH]; intros m Hm; [simpl; f_equal; lia|].
  replace (m * 2 ^ Z.of_nat (S n)) with (2 * m * 2 ^ Z.of_nat n)
    by (rewrite Nat2Z.inj_succ, Z.pow_succ_r by lia; lia).
  rewrite Nat.iter_succ, IH by lia. by destruct m.
Qed.

Lemma iter_xO m d : Zpos (Pos.iter xO m d) = Zpos m * 2 ^ Zpos d.
Proof.
  induction d as [|d IH] using Pos.peano_ind; [simpl; lia|].
  rewrite Pos.iter_succ, Pos2Z.inj_xO, IH, Pos2Z.inj_succ, Z.pow_succ_r by lia. lia.
Qed.

(** * Rounding is exact below 2^53 *)

(** The mantissa and the exponent of a positive integer. *)
Definition mant (v : Z) : positive := Z.to_pos (v * 2 ^ (53 - dig v)).
Definition expo (v : Z) : Z := dig v - 53.

Lemma mant_Zpos v : 0 < v < 2 ^ 53 -> Zpos (mant v) = v * 2 ^ (53 - dig v).
Proof.
  intros Hv. pose proof (dig_bound v Hv). unfold mant. rewrite Z2Pos.id; [done|].
  apply Z.mul_pos_pos; [lia|]. apply Z.pow_pos_nonneg; lia.
Qed.

Lemma fexp_dig v : 0 < v < 2 ^ 53 -> fexp 53 1024 (dig v) = expo v.
Proof. intros Hv. pose proof (dig_bound v Hv). unfold fexp, emin, expo. lia. Qed.

Lemma shr_fexp_exact v j M :
  0 < v < 2 ^ 53 -> 53 - dig v <= j -> Zpos M = v * 2 ^ j ->
  shr_fexp 53 1024 (Zpos M) (- j) loc_Exact = (Build_shr_record (Zpos (mant v)) false false, expo v).
Proof.
  intros Hv Hj HM. pose proof (dig_bound v Hv). unfold shr_fexp. cbn [Zdigits2 shr_record_of_loc].
  rewrite digits2_pos_dig, HM, dig_shift by lia.
  replace (dig v + j + - j) with (dig v) by lia. rewrite fexp_dig by done.
  assert (expo v - - j = j - (53 - dig v)) as Hd by (unfold expo; lia).
  assert (v * 2 ^ j = Zpos (mant v) * 2 ^ (expo v - - j)) as Hm.
  { rewrite mant_Zpos by done. rewrite Hd, <- Z.mul_assoc, <- Z.pow_add_r by lia. do 2 f_equal. lia. }
  rewrite Hm. destruct (expo v - - j) as [|d|d] eqn:Hs; [| |lia]; unfold shr.
  - f_equal; [f_equal; lia|lia].
  - rewrite iter_pos_nat, <- (positive_nat_Z d), shr_exact by lia. f_equal. rewrite positive_nat_Z. lia.
Qed.

Lemma round_aux_exact sx v j M :
  0 < v < 2 ^ 53 -> 53 - dig v <= j -> Zpos M = v * 2 ^ j ->
  binary_round_aux 53 1024 sx (Zpos M) (- j) loc_Exact = S754_finite sx (mant v) (expo v).
Proof.
  intros Hv Hj HM. pose proof (dig_bound v Hv). unfold binary_round_aux.
  rewrite (shr_fexp_exact v j M Hv Hj HM). cbn [shr_m loc_of_shr_record round_nearest_even].
  replace (expo v) with (- (53 - dig v)) at 1 by (unfold expo; lia).
  rewrite (shr_fexp_exact v (53 - dig v) (mant v) Hv) by (done || by apply mant_Zpos).
  cbn [shr_m]. by destruct (Z.leb_spec (expo v) (1024 - 53)); [|unfold expo in *; lia].
Qed.

Lemma round_exact sx v k M :
  0 < v < 2 ^ 53 -> 0 <= k -> Zpos M = v * 2 ^ k ->
  binary_round 53 1024 sx M (- k) = S754_finite sx (mant v) (expo v).
Proof.
  intros Hv Hk HM. pose proof (dig_bound v Hv). unfold binary_round.
  rewrite digits2_pos_dig, HM, dig_shift by lia.
  replace (dig v + k + - k) with (dig v) by lia. rewrite fexp_dig by done. unfold shl_align.
  destruct (expo v - - k) as [|d|d] eqn:Hd.
  - apply round_aux_exact; [done|unfold expo in *; lia|done].
  - apply round_aux_exact; [done|unfold expo in *; lia|done].
  - replace (expo v) with (- (53 - dig v)) at 1 by (unfold expo; lia).
    apply round_aux_exact; [done|lia|]. rewrite iter_xO, HM, <- Z.mul_assoc, <- Z.pow_add_r by lia.
    do 2 f_equal. unfold expo in *. lia.
Qed.

(** * Integers below 2^53 *)

Definition exact_int (n : Z) : Prop := Z.abs n < 2 ^ 53.

Lemma f64_of_int_exact n :
  exact_int n ->
  f64_of_int n = match n with
                 | Z0 => S754_zero false
                 | Zpos _ => S754_finite false (mant (Z.abs n)) (expo (Z.abs n))
                 | Zneg _ => S754_finite true (mant (Z.abs n)) (expo (Z.abs n))
                 end.
Proof.
  unfold exact_int, f64_of_int, binary_normalize. intros Hn. destruct n as [|p|p]; [done| |];
    apply (round_exact _ _ 0); simpl in *; lia.
Qed.

(** Both operands of an addition, aligned to the smaller exponent. *)
Lemma align_exact v k :
  0 < v < 2 ^ 53 -> 0 <= - k -> k <= expo v ->
  Zpos (fst (shl_align (mant v) (expo v) k)) = v * 2 ^ (- k).
Proof.
  intros Hv Hk Hle. pose proof (dig_bound v Hv). pose proof (mant_Zpos v Hv) as Hm. unfold shl_align.
  destruct (k - expo v) as [|d|d] eqn:Hd; [|lia|]; simpl fst.
  - rewrite Hm. do 2 f_equal. unfold expo in *. lia.
  - rewrite iter_xO, Hm, <- Z.mul_assoc, <- Z.pow_add_r by (unfold expo in *; lia).
    do 2 f_equal. unfold expo in *. lia.
Qed.

Lemma normalize_exact n k :
  exact_int n -> 0 <= k -> binary_normalize 53 1024 (n * 2 ^ k) (- k) false = f64_of_int n.
Proof.
  intros Hn Hk. rewrite f64_of_int_exact by done. unfold exact_int, binary_normalize in *.
  assert (0 < 2 ^ k) as Hp by (apply Z.pow_pos_nonneg; lia).
  destruct n as [|p|p]; [done| |].
  - destruct (Zpos p * 2 ^ k) as [|q|q] eqn:Hq; [lia| |lia]. apply round_exact; simpl in *; lia.
  - destruct (Zneg p * 2 ^ k) as [|q|q] eqn:Hq; [lia|lia|]. apply round_exact; simpl in *; [lia|lia|].
    change (Zneg p) with (- Zpos p) in Hq. lia.
Qed.

(** Adding integers is exact as long as everything stays below 2^53. *)
Lemma f64_add_exact a b :
  exact_int a -> exact_int b -> exact_int (a + b) ->
  f64_add (f64_of_int a) (f64_of_int b) = f64_of_int (a + b).
Proof.
  intros Ha Hb Hab.
  assert (forall n, exact_int n -> n <> 0 -> 0 < Z.abs n < 2 ^ 53) as Hpos.
  { unfold exact_int. lia. }
  destruct (Z.eq_dec a 0) as [->|Hna].
  { rewrite Z.add_0_l, (f64_of_int_exact 0), (f64_of_int_exact b) by done. by destruct b. }
  destruct (Z.eq_dec b 0) as [->|Hnb].
  { rewrite Z.add_0_r, (f64_of_int_exact 0), (f64_of_int_exact a) by done. by destruct a. }
  pose proof (dig_bound _ (Hpos a Ha Hna)). pose proof (dig_bound _ (Hpos b Hb Hnb)).
  set (k := - Z.min (expo (Z.abs a)) (expo (Z.abs b))).
  assert (Z.min (expo (Z.abs a)) (expo (Z.abs b)) = - k) as Hmin by (unfold k; lia).
  rewrite <- (normalize_exact (a + b) k) by (done || unfold k, expo; lia).
  pose proof (align_exact (Z.abs a) (- k) (Hpos a Ha Hna)) as HA.
  pose proof (align_exact (Z.abs b) (- k) (Hpos b Hb Hnb)) as HB.
  rewrite Z.opp_involutive in HA, HB.
  rewrite (f64_of_int_exact a), (f64_of_int_exact b) by done. rewrite Z.mul_add_distr_r.
  destruct a as [|pa|pa], b as [|pb|pb]; try done; cbn [f64_add SFadd cond_Zopp];
    unfold f64_add, SFadd; rewrite Hmin, HA, HB by (unfold k, expo in *; lia); unfold cond_Zopp;
    f_equal; simpl Z.abs; lia.
Qed.

(** The casts back are exact. *)
Lemma f64_to_int_exact lo hi n :
  exact_int n -> lo <= 0 -> 0 <= hi -> f64_to_int lo hi (f64_of_int n) = clamp lo hi n.
Proof.
  intros Hn Hlo Hhi. rewrite f64_of_int_exact by done.
  assert (forall v, 0 < v < 2 ^ 53 -> f64_trunc (mant v) (expo v) = v) as Htr.
  { intros v Hv. pose proof (dig_bound v Hv). unfold f64_trunc. rewrite mant_Zpos by done.
    destruct (Z.leb_spec 0 (expo v)); unfold expo in *.
    - assert (dig v = 53) as -> by lia. rewrite Z.sub_diag. simpl. lia.
    - replace (- (dig v - 53)) with (53 - dig v) by lia. apply Z.div_mul.
      apply Z.pow_nonzero; lia. }
  unfold exact_int in Hn. destruct n as [|p|p]; simpl in *; [unfold clamp; lia|..]; rewrite Htr by lia; done.
Qed.

Lemma f64_u64_roundtrip n : 0 <= n < 2 ^ 53 -> f64_as_u64 (f64_of_int n) = n.
Proof.
  intros Hn. unfold f64_as_u64. rewrite f64_to_int_exact; unfold exact_int, clamp, u64_max; lia.
Qed.

Lemma f64_i64_roundtrip n : exact_int n -> f64_as_i64 (f64_of_int n) = n.
Proof.
  unfold exact_int. intros Hn. unfold f64_as_i64.
  rewrite f64_to_int_exact; unfold exact_int, clamp, i64_min, i64_max; lia.
Qed.

(** From 2^53 on it is not: adding 1 changes nothing. *)
Lemma f64_add_absorbs : f64_add (f64_of_int (2 ^ 53)) (f64_of_int 1) = f64_of_int (2 ^ 53).
Proof. reflexivity. Qed.

Global Opaque f64_of_int f64_add.
