(* ===== verification/Metrics.v ===== *)
(** The metrics registry ([crates/folk-core/src/metrics_registry.rs]): an adapter
    from the integer counters and gauges of [folk_api] to the [prometheus] crate,
    whose values are [f64].

    [prometheus] is the class [Prometheus]: a shared store [World] and operations
    on it, with what the crate documents in [PrometheusLaws].  A vector handle and
    its clones share their children, and so do the adapters for the same labels.
    [None] is a panic.  Warnings are not modelled. *)

From S2P Require Import Prelude Text F64.

Local Open Scope Z_scope.

(** * The prometheus crate *)

Inductive MetricKind := KCounter | KGauge | KHistogram.

#[export] Instance MetricKind_eq_dec : EqDecision MetricKind.
Proof. solve_decision. Defined.

(** What a vector is created with, and what [gather] reports of a child. *)
Record Opts := mkOpts { o_name : string; o_help : string; o_keys : list string }.
Record Sample := mkSample { s_kind : MetricKind; s_name : string; s_labels : list string; s_value : f64 }.

Class Prometheus := {
  World : Type;
  Registry : Type;
  MetricVec : Type;
  Metric : Type;
  #[export] MetricVec_eq_dec :: EqDecision MetricVec;
  #[export] Metric_eq_dec :: EqDecision Metric;
  Registry_new : World -> Registry * World;
  (** [CounterVec::new], [GaugeVec::new], [HistogramVec::new]. *)
  vec_new : MetricKind -> Opts -> World -> result (MetricVec * World);
  register : Registry -> MetricVec -> World -> result World;
  with_label_values : MetricVec -> list string -> World -> option (Metric * World);
  counter_inc : Metric -> World -> World;
  counter_inc_by : Metric -> f64 -> World -> World;
  counter_get : Metric -> World -> f64;
  gauge_set : Metric -> f64 -> World -> World;
  gauge_inc : Metric -> World -> World;
  gauge_dec : Metric -> World -> World;
  gauge_get : Metric -> World -> f64;
  histogram_observe : Metric -> f64 -> World -> World;
  gather : Registry -> World -> list Sample;
  encode : list Sample -> result bytes;
  (** What the documentation speaks of: valid options, the descriptor of a
      vector, its children by label values, the value of a counter or gauge, the
      collectors of a registry. *)
  valid_opts : MetricKind -> Opts -> bool;
  vec_desc : MetricVec -> World -> option (MetricKind * Opts);
  child : MetricVec -> list string -> World -> option Metric;
  value : Metric -> World -> f64;
  collectors : Registry -> World -> list MetricVec;
}.

Section laws.
Context `{Prometheus}.

(** [w'] differs from [w] at most in the value of [m], which is [x]. *)
Record updates (m : Metric) (x : f64) (w w' : World) : Prop := {
  up_desc v : vec_desc v w' = vec_desc v w;
  up_child v ls : child v ls w' = child v ls w;
  up_value m' : value m' w' = if decide (m' = m) then x else value m' w;
  up_collectors r : collectors r w' = collectors r w;
}.

(** [w'] differs from [w] in the new vector [v]. *)
Record creates (v : MetricVec) (k : MetricKind) (o : Opts) (w w' : World) : Prop := {
  cr_valid : valid_opts k o = true;
  cr_fresh : vec_desc v w = None;
  cr_desc v' : vec_desc v' w' = if decide (v' = v) then Some (k, o) else vec_desc v' w;
  cr_child v' ls : child v' ls w' = if decide (v' = v) then None else child v' ls w;
  cr_value v' ls m : child v' ls w = Some m -> value m w' = value m w;
  cr_collectors r : collectors r w' = collectors r w;
}.

(** [w'] differs from [w] in the new child [m] of [v], whose value is 0. *)
Record adds_child (v : MetricVec) (ls : list string) (m : Metric) (w w' : World) : Prop := {
  ad_fresh v' ls' : child v' ls' w <> Some m;
  ad_desc v' : vec_desc v' w' = vec_desc v' w;
  ad_child v' ls' : child v' ls' w' = if decide (v' = v /\ ls' = ls) then Some m else child v' ls' w;
  ad_value m' : value m' w' = if decide (m' = m) then f64_of_int 0 else value m' w;
  ad_collectors r : collectors r w' = collectors r w;
}.

(** [w'] differs from [w] in the collectors of [r], to which [v] is added. *)
Record collects (r : Registry) (v : MetricVec) (w w' : World) : Prop := {
  co_desc v' : vec_desc v' w' = vec_desc v' w;
  co_child v' ls : child v' ls w' = child v' ls w;
  co_value m : value m w' = value m w;
  co_collectors : collectors r w' = collectors r w ++ [v];
}.

(** A name the collectors of [r] already use. *)
Definition name_taken (r : Registry) (name : string) (w : World) : Prop :=
  exists v k o, v ∈ collectors r w /\ vec_desc v w = Some (k, o) /\ o_name o = name.
End laws.

Class PrometheusLaws `{Prometheus} := {
  registry_new_law w r w' : Registry_new w = (r, w') -> collectors r w' = [];
  vec_new_law k o w :
    match vec_new k o w with
    | Ok (v, w') => creates v k o w w'
    | Err _ => valid_opts k o = false
    end;
  (** Descriptors without constant labels are unique by name. *)
  register_law r v w k o :
    vec_desc v w = Some (k, o) ->
    match register r v w with
    | Ok w' => ~ name_taken r (o_name o) w /\ collects r v w w'
    | Err _ => name_taken r (o_name o) w
    end;
  (** A panic when the number of labels is wrong. *)
  with_label_values_law v ls w k o :
    vec_desc v w = Some (k, o) ->
    match with_label_values v ls w with
    | None => length ls <> length (o_keys o)
    | Some (m, w') =>
        length ls = length (o_keys o) /\
        match child v ls w with
        | Some m0 => m = m0 /\ w' = w
        | None => adds_child v ls m w w'
        end
    end;
  child_inj v v' ls ls' m w :
    child v ls w = Some m -> child v' ls' w = Some m -> v = v' /\ ls = ls';
  counter_inc_law v ls m w : child v ls w = Some m ->
    updates m (f64_add (value m w) (f64_of_int 1)) w (counter_inc m w);
  counter_inc_by_law v ls m x w : child v ls w = Some m ->
    updates m (f64_add (value m w) x) w (counter_inc_by m x w);
  counter_get_law m w : counter_get m w = value m w;
  gauge_set_law v ls m x w : child v ls w = Some m -> updates m x w (gauge_set m x w);
  gauge_inc_law v ls m w : child v ls w = Some m ->
    updates m (f64_add (value m w) (f64_of_int 1)) w (gauge_inc m w);
  gauge_dec_law v ls m w : child v ls w = Some m ->
    updates m (f64_add (value m w) (f64_of_int (-1))) w (gauge_dec m w);
  gauge_get_law m w : gauge_get m w = value m w;
  histogram_observe_law v ls m x w : child v ls w = Some m ->
    exists y, updates m y w (histogram_observe m x w);
  (** A registry reports the counters and gauges of its collectors. *)
  gather_law r w s :
    s_kind s <> KHistogram ->
    s ∈ gather r w <->
    exists v o m, v ∈ collectors r w /\ vec_desc v w = Some (s_kind s, o) /\ o_name o = s_name s
      /\ child v (s_labels s) w = Some m /\ value m w = s_value s;
  (** What [gather] returns can be encoded, as text. *)
  encode_law r w : exists b, encode (gather r w) = Ok b /\ valid_utf8 b = true;
}.

(** * The registry and its adapters *)

Section metrics.
Context `{Prometheus}.

Record MetricsRegistryImpl := mkMetricsRegistryImpl { registry : Registry }.

(** [CounterVecAdapter], [GaugeVecAdapter] and [HistogramVecAdapter]; likewise
    [CounterAdapter], [GaugeAdapter] and [HistogramAdapter]: structs with one
    field, told apart by the kind. *)
Record VecAdapter := mkVecAdapter { va_kind : MetricKind; va_inner : MetricVec }.
Record MetricAdapter := mkMetricAdapter { ma_kind : MetricKind; ma_inner : Metric }.

Definition MetricsRegistryImpl_new (w : World) : MetricsRegistryImpl * World :=
  let '(r, w) := Registry_new w in (mkMetricsRegistryImpl r, w).

(** [counter_vec], [gauge_vec] and [histogram_vec]: [expect] panics on an invalid
    specification, a failed registration only warns. *)
Definition metric_vec (kind : MetricKind) (name help : string) (label_keys : list string)
    (self : MetricsRegistryImpl) (w : World) : option (VecAdapter * World) :=
  match vec_new kind (mkOpts name help label_keys) w with
  | Err _ => None
  | Ok (v, w) =>
      let w := match register (registry self) v w with Ok w' => w' | Err _ => w end in
      Some (mkVecAdapter kind v, w)
  end.

Definition counter_vec := metric_vec KCounter.
Definition gauge_vec := metric_vec KGauge.
Definition histogram_vec := metric_vec KHistogram.

Definition render (self : MetricsRegistryImpl) (w : World) : option string :=
  match encode (gather (registry self) w) with
  | Err _ => None
  | Ok buf => if valid_utf8 buf then Some (String.string_of_list_byte buf) else None
  end.

Definition with_labels (labels : list string) (self : VecAdapter) (w : World) :
    option (MetricAdapter * World) :=
  match with_label_values (va_inner self) labels w with
  | None => None
  | Some (m, w) => Some (mkMetricAdapter (va_kind self) m, w)
  end.

Definition Counter_inc (self : MetricAdapter) : World -> World := counter_inc (ma_inner self).
Definition Counter_inc_by (v : Z) (self : MetricAdapter) : World -> World :=
  counter_inc_by (ma_inner self) (f64_of_int v).
Definition Counter_get (self : MetricAdapter) (w : World) : Z :=
  f64_as_u64 (counter_get (ma_inner self) w).

Definition Gauge_set (v : Z) (self : MetricAdapter) : World -> World :=
  gauge_set (ma_inner self) (f64_of_int v).
Definition Gauge_inc (self : MetricAdapter) : World -> World := gauge_inc (ma_inner self).
Definition Gauge_dec (self : MetricAdapter) : World -> World := gauge_dec (ma_inner self).
Definition Gauge_get (self : MetricAdapter) (w : World) : Z :=
  f64_as_i64 (gauge_get (ma_inner self) w).

Definition Histogram_observe (v : f64) (self : MetricAdapter) : World -> World :=
  histogram_observe (ma_inner self) v.

(** * Programs that use the registry

    A program keeps the adapters it was given, and addresses them in the order it
    got them. *)
Record Client := mkClient {
  c_self : MetricsRegistryImpl;
  c_vecs : list VecAdapter;
  c_metrics : list MetricAdapter;
  c_world : World;
}.

Inductive MetricCall :=
| CallVec (kind : MetricKind) (name help : string) (label_keys : list string)
| CallLabels (i : nat) (labels : list string)
| CallInc (j : nat)
| CallIncBy (j : nat) (n : Z)
| CallSet (j : nat) (n : Z)
| CallDec (j : nat)
| CallObserve (j : nat) (x : f64).

(** A method of the adapter [j]. *)
Definition on_metric (j : nat) (f : MetricAdapter -> option (World -> World)) (c : Client) : option Client :=
  a ← c_metrics c !! j; g ← f a; Some (mkClient (c_self c) (c_vecs c) (c_metrics c) (g (c_world c))).

(** [None] is a panic, or a call the types rule out. *)
Definition client_step (call : MetricCall) (c : Client) : option Client :=
  match call with
  | CallVec kind name help keys =>
      '(a, w) ← metric_vec kind name help keys (c_self c) (c_world c);
      Some (mkClient (c_self c) (c_vecs c ++ [a]) (c_metrics c) w)
  | CallLabels i labels =>
      a ← c_vecs c !! i;
      '(m, w) ← with_labels labels a (c_world c);
      Some (mkClient (c_self c) (c_vecs c) (c_metrics c ++ [m]) w)
  | CallInc j =>
      on_metric j (fun a => match ma_kind a with
        | KCounter => Some (Counter_inc a) | KGauge => Some (Gauge_inc a) | KHistogram => None end) c
  | CallIncBy j n =>
      on_metric j (fun a => match ma_kind a with
        | KCounter => Some (Counter_inc_by n a) | _ => None end) c
  | CallSet j n =>
      on_metric j (fun a => match ma_kind a with KGauge => Some (Gauge_set n a) | _ => None end) c
  | CallDec j =>
      on_metric j (fun a => match ma_kind a with KGauge => Some (Gauge_dec a) | _ => None end) c
  | CallObserve j x =>
      on_metric j (fun a => match ma_kind a with
        | KHistogram => Some (Histogram_observe x a) | _ => None end) c
  end.

Definition client_new (w : World) : Client :=
  let '(self, w) := MetricsRegistryImpl_new w in mkClient self [] [] w.

(** What [get] returns through the adapter [j]. *)
Definition client_get (c : Client) (j : nat) : option Z :=
  a ← c_metrics c !! j;
  match ma_kind a with
  | KCounter => Some (Counter_get a (c_world c))
  | KGauge => Some (Gauge_get a (c_world c))
  | KHistogram => None
  end.
End metrics.

(** * Specification: integers *)

Section spec.
Context (valid : MetricKind -> Opts -> bool).

Record MetricsSpec := mkMetricsSpec {
  sp_vecs : list (MetricKind * Opts);
  sp_metrics : list (nat * list string);
  sp_totals : gmap (nat * list string) Z;
}.

Definition spec_new : MetricsSpec := mkMetricsSpec [] [] ∅.

(** The total behind the adapter [j] becomes [f kind total], which a double must
    be able to hold. *)
Definition spec_update (j : nat) (f : MetricKind -> Z -> option Z) (s : MetricsSpec) :
    option MetricsSpec :=
  p ← sp_metrics s !! j;
  '(k, _) ← sp_vecs s !! p.1;
  t ← sp_totals s !! p;
  t' ← f k t;
  if decide (exact_int t')
  then Some (mkMetricsSpec (sp_vecs s) (sp_metrics s) (<[p := t']> (sp_totals s)))
  else None.

Definition spec_step (call : MetricCall) (s : MetricsSpec) : option MetricsSpec :=
  match call with
  | CallVec kind name help keys =>
      let o := mkOpts name help keys in
      if valid kind o then Some (mkMetricsSpec (sp_vecs s ++ [(kind, o)]) (sp_metrics s) (sp_totals s))
      else None
  | CallLabels i labels =>
      '(_, o) ← sp_vecs s !! i;
      if decide (length labels = length (o_keys o))
      then Some (mkMetricsSpec (sp_vecs s) (sp_metrics s ++ [(i, labels)])
                   (<[(i, labels) := default 0 (sp_totals s !! (i, labels))]> (sp_totals s)))
      else None
  | CallInc j =>
      spec_update j (fun k t => match k with KHistogram => None | _ => Some (t + 1) end) s
  | CallIncBy j n =>
      if decide (0 <= n <= u64_max)
      then spec_update j (fun k t => match k with KCounter => Some (t + n) | _ => None end) s
      else None
  | CallSet j n =>
      spec_update j (fun k _ => match k with KGauge => Some n | _ => None end) s
  | CallDec j =>
      spec_update j (fun k t => match k with KGauge => Some (t - 1) | _ => None end) s
  | CallObserve j x =>
      spec_update j (fun k t => match k with KHistogram => Some t | _ => None end) s
  end.

Definition spec_get (s : MetricsSpec) (j : nat) : option Z :=
  p ← sp_metrics s !! j;
  '(k, _) ← sp_vecs s !! p.1;
  match k with KHistogram => None | _ => sp_totals s !! p end.

(** The vector [render] shows under a name: the first created with it. *)
Definition first_named (name : string) (s : MetricsSpec) : option (nat * (MetricKind * Opts)) :=
  list_find (fun ko => o_name ko.2 = name) (sp_vecs s).
End spec.

(** * Proofs *)

Section proofs.
Context `{PL : PrometheusLaws}.

(** A double that stands for a total. *)
Record holds (k : MetricKind) (t : Z) (x : f64) : Prop := {
  h_exact : exact_int t;
  h_counter : k = KCounter -> 0 <= t;
  h_value : k <> KHistogram -> x = f64_of_int t;
}.

(** The program's adapters and the library's store agree with the specification. *)
Record related (s : MetricsSpec) (c : Client) : Prop := {
  rl_vlen : length (c_vecs c) = length (sp_vecs s);
  rl_desc i k o : sp_vecs s !! i = Some (k, o) ->
    exists v, c_vecs c !! i = Some (mkVecAdapter k v) /\ vec_desc v (c_world c) = Some (k, o);
  rl_distinct i j a b : c_vecs c !! i = Some a -> c_vecs c !! j = Some b ->
    va_inner a = va_inner b -> i = j;
  rl_child i a ls : c_vecs c !! i = Some a ->
    match sp_totals s !! (i, ls) with
    | None => child (va_inner a) ls (c_world c) = None
    | Some t => exists m, child (va_inner a) ls (c_world c) = Some m /\ holds (va_kind a) t (value m (c_world c))
    end;
  rl_total p t : sp_totals s !! p = Some t -> (p.1 < length (sp_vecs s))%nat;
  rl_mlen : length (c_metrics c) = length (sp_metrics s);
  rl_metric j i ls : sp_metrics s !! j = Some (i, ls) ->
    exists a m, c_vecs c !! i = Some a /\ c_metrics c !! j = Some (mkMetricAdapter (va_kind a) m)
      /\ child (va_inner a) ls (c_world c) = Some m;
  rl_collectors v : v ∈ collectors (registry (c_self c)) (c_world c) <->
    exists i k o, first_named (o_name o) s = Some (i, (k, o)) /\ c_vecs c !! i = Some (mkVecAdapter k v);
}.

Lemma vec_lookup s c i a :
  related s c -> c_vecs c !! i = Some a ->
  exists o, sp_vecs s !! i = Some (va_kind a, o) /\ vec_desc (va_inner a) (c_world c) = Some (va_kind a, o).
Proof.
  intros HR Hi. destruct (lookup_lt_is_Some_2 (sp_vecs s) i) as [[k o] Hs].
  { rewrite <- (rl_vlen _ _ HR). by eapply lookup_lt_Some. }
  destruct (rl_desc _ _ HR _ _ _ Hs) as (v & Hv & Hd). simplify_eq/=. eauto.
Qed.

Lemma client_new_related w : related spec_new (client_new w).
Proof.
  unfold client_new, MetricsRegistryImpl_new.
  destruct (Registry_new w) as [r w'] eqn:Hr. apply registry_new_law in Hr.
  split; simpl; try done.
  intros v. rewrite Hr. split; [by intros ?%elem_of_nil|]. intros (i & k & o & Hf & _). done.
Qed.

(** A call that changes one value. *)
Lemma update_related s s' c j f g :
  related s c -> spec_update j f s = Some s' ->
  (forall v ls k m t t', child v ls (c_world c) = Some m -> holds k t (value m (c_world c)) ->
     f k t = Some t' -> exact_int t' ->
     exists h x, g (mkMetricAdapter k m) = Some h /\ updates m x (c_world c) (h (c_world c)) /\ holds k t' x) ->
  exists c', on_metric j g c = Some c' /\ related s' c'.
Proof.
  intros HR Hs Hg. unfold spec_update in Hs.
  destruct (sp_metrics s !! j) as [[i ls]|] eqn:Hj; simplify_eq/=.
  destruct (sp_vecs s !! i) as [[k o]|] eqn:Hi; simplify_eq/=.
  destruct (sp_totals s !! (i, ls)) as [t|] eqn:Ht; simplify_eq/=.
  destruct (f k t) as [t'|] eqn:Hf; simplify_eq/=. case_decide as Hex; simplify_eq/=.
  destruct (rl_desc _ _ HR _ _ _ Hi) as (v & Hv & Hd).
  destruct (rl_metric _ _ HR _ _ _ Hj) as (a & m & Ha & Hm & Hc). simplify_eq/=.
  pose proof (rl_child _ _ HR _ _ ls Hv) as Hch. rewrite Ht in Hch. simpl in Hch.
  destruct Hch as (m' & Hc' & Hh). rewrite Hc in Hc'. simplify_eq.
  destruct (Hg _ _ _ _ _ _ Hc Hh Hf Hex) as (h & x & Hgm & Hu & Hx).
  unfold on_metric. rewrite Hm. simpl. rewrite Hgm. simpl. eexists; split; [done|].
  destruct HR as [Hvl Hde Hdi Hcd Hto Hml Hme Hco]. destruct Hu as [Hud Huc Huv Hul]. split; simpl; try done.
  - intros i' k' o' H'. destruct (Hde _ _ _ H') as (v' & ? & ?). exists v'. by rewrite Hud.
  - intros i' a' ls' Ha'. rewrite Huc. destruct (decide ((i', ls') = (i, ls))) as [Heq|Hne].
    + simplify_eq. rewrite lookup_insert_eq. simpl. exists m'. split; [done|].
      rewrite Huv, decide_True by done. done.
    + rewrite lookup_insert_ne by done. pose proof (Hcd _ _ ls' Ha') as Hold.
      destruct (sp_totals s !! (i', ls')) as [u|]; [|done]. destruct Hold as (m1 & Hm1 & Hh1).
      exists m1. split; [done|]. rewrite Huv, decide_False; [done|]. intros ->.
      destruct (child_inj _ _ _ _ _ _ Hm1 Hc) as [Hvv ->]. destruct Hne.
      f_equal. by eapply Hdi.
  - intros p u Hp. apply lookup_insert_Some in Hp as [[<- _]|[_ Hp]]; [by eapply lookup_lt_Some|eauto].
  - intros j' i' ls' Hj'. destruct (Hme _ _ _ Hj') as (a' & m1 & ? & ? & ?). exists a', m1. by rewrite Huc.
  - intros v'. rewrite Hul. apply Hco.
Qed.

(** [with_labels] gives the child of the labels, new or not. *)
Lemma with_labels_related s s' c i ls :
  related s c -> spec_step valid_opts (CallLabels i ls) s = Some s' ->
  exists c', client_step (CallLabels i ls) c = Some c' /\ related s' c'.
Proof.
  intros HR Hs. simpl in Hs. destruct (sp_vecs s !! i) as [[k o]|] eqn:Hi; simplify_eq/=.
  case_decide as Hlen; simplify_eq/=.
  destruct (rl_desc _ _ HR _ _ _ Hi) as (v & Hv & Hd). rewrite Hv. simpl.
  pose proof (with_label_values_law v ls _ k o Hd) as Hl. unfold with_labels. simpl.
  pose proof (rl_child _ _ HR _ _ ls Hv) as Hch. simpl in Hch.
  destruct (with_label_values v ls (c_world c)) as [[m w']|]; [|done]. destruct Hl as [_ Hl]. simpl.
  eexists; split; [done|].
  destruct HR as [Hvl Hde Hdi Hcd Hto Hml Hme Hco].
  destruct (sp_totals s !! (i, ls)) as [t|] eqn:Ht.
  - destruct Hch as (m0 & Hm0 & Hh). rewrite Hm0 in Hl. destruct Hl as [-> ->].
    split; simpl; try done; rewrite ?(insert_id _ _ _ Ht); try done.
    + rewrite !length_app. simpl. lia.
    + intros j i' ls' Hj. apply lookup_snoc_Some in Hj as [[_ Hj]|[-> Hj]].
      * destruct (Hme _ _ _ Hj) as (a' & m1 & ? & ? & ?). exists a', m1.
        rewrite lookup_app_l by (by eapply lookup_lt_Some). done.
      * simplify_eq. exists (mkVecAdapter k v), m0. split_and!; [done| |done].
        by rewrite <- Hml, list_lookup_middle.
  - rewrite Hch in Hl. destruct Hl as [Hfr Hld Hlc Hlv Hlo]. simpl default.
    assert (forall i' a', c_vecs c !! i' = Some a' -> va_inner a' = v -> i' = i) as Hidx
      by (intros; by eapply Hdi).
    split; simpl; try done.
    + intros i' k' o' H'. destruct (Hde _ _ _ H') as (v' & ? & ?). exists v'. by rewrite Hld.
    + intros i' a' ls' Ha'. rewrite Hlc. destruct (decide ((i', ls') = (i, ls))) as [Heq|Hne].
      * simplify_eq. rewrite lookup_insert_eq, decide_True by done. exists m. split; [done|].
        rewrite Hlv, decide_True by done. simpl. by split.
      * rewrite lookup_insert_ne by done. rewrite decide_False.
        2:{ intros [Hvv ->]. destruct Hne. f_equal. eauto. }
        pose proof (Hcd _ _ ls' Ha') as Hold. destruct (sp_totals s !! (i', ls')); [|done].
        destruct Hold as (m1 & Hm1 & Hh1). exists m1. split; [done|].
        rewrite Hlv, decide_False; [done|]. intros ->. by eapply Hfr.
    + intros p u Hp. apply lookup_insert_Some in Hp as [[<- _]|[_ Hp]]; [by eapply lookup_lt_Some|eauto].
    + rewrite !length_app. simpl. lia.
    + intros j i' ls' Hj. apply lookup_snoc_Some in Hj as [[_ Hj]|[-> Hj]].
      * destruct (Hme _ _ _ Hj) as (a' & m1 & Ha' & ? & Hm1). exists a', m1.
        rewrite lookup_app_l by (by eapply lookup_lt_Some). split_and!; [done..|].
        rewrite Hlc, decide_False; [done|]. intros [Hv' ->]. by rewrite Hv', Hch in Hm1.
      * simplify_eq. exists (mkVecAdapter k v), m. split_and!; [done| |].
        -- by rewrite <- Hml, list_lookup_middle.
        -- by rewrite Hlc, decide_True.
    + intros v'. rewrite Hlo. apply Hco.
Qed.

Lemma first_named_Some name s i k o :
  first_named name s = Some (i, (k, o)) <->
  sp_vecs s !! i = Some (k, o) /\ o_name o = name
  /\ forall j ko, sp_vecs s !! j = Some ko -> (j < i)%nat -> o_name ko.2 <> name.
Proof. unfold first_named. by rewrite list_find_Some. Qed.

Lemma name_taken_iff s c name :
  related s c ->
  name_taken (registry (c_self c)) name (c_world c) <-> is_Some (first_named name s).
Proof.
  intros HR. split.
  - intros (v & k & o & Hv & Hd & <-). apply (rl_collectors _ _ HR) in Hv as (i & k' & o' & Hf & Hc).
    destruct (vec_lookup _ _ _ _ HR Hc) as (o'' & Hs & Hd'). simplify_eq/=.
    apply first_named_Some in Hf as Hf'. destruct Hf' as (Hs' & _). simplify_eq. by rewrite Hf.
  - intros [[i [k o]] Hf]. apply first_named_Some in Hf as Hf'. destruct Hf' as (Hs & <- & _).
    destruct (rl_desc _ _ HR _ _ _ Hs) as (v & Hv & Hd). exists v, k, o. split_and!; [|done..].
    apply (rl_collectors _ _ HR). eauto.
Qed.

Lemma first_named_snoc name vecs k o sm st :
  first_named name (mkMetricsSpec (vecs ++ [(k, o)]) sm st) =
    match first_named name (mkMetricsSpec vecs sm st) with
    | Some r => Some r
    | None => if decide (o_name o = name) then Some (length vecs, (k, o)) else None
    end.
Proof.
  unfold first_named. simpl. destruct (list_find _ vecs) as [[i ko]|] eqn:Hf.
  - by rewrite (list_find_app_l _ _ _ _ _ Hf).
  - rewrite list_find_app_r by done. simpl. case_decide; simpl; [do 2 f_equal; lia|done].
Qed.

(** A new vector, collected if its name is new. *)
Lemma new_vec_related s c k o v w' :
  related s c -> vec_desc v (c_world c) = None ->
  (forall v', vec_desc v' w' = if decide (v' = v) then Some (k, o) else vec_desc v' (c_world c)) ->
  (forall v' ls, child v' ls w' = if decide (v' = v) then None else child v' ls (c_world c)) ->
  (forall v' ls m, child v' ls (c_world c) = Some m -> value m w' = value m (c_world c)) ->
  collectors (registry (c_self c)) w' = collectors (registry (c_self c)) (c_world c)
    ++ (if first_named (o_name o) s then [] else [v]) ->
  related (mkMetricsSpec (sp_vecs s ++ [(k, o)]) (sp_metrics s) (sp_totals s))
    (mkClient (c_self c) (c_vecs c ++ [mkVecAdapter k v]) (c_metrics c) w').
Proof.
  intros HR Hnew Hd Hc Hv Hcol.
  assert (forall i a, c_vecs c !! i = Some a -> va_inner a <> v) as Hne.
  { intros i a Ha Hav. destruct (vec_lookup _ _ _ _ HR Ha) as (? & _ & Hd'). congruence. }
  destruct s as [vs ms ts]. destruct HR as [Hvl Hde Hdi Hcd Hto Hml Hme Hco]. simpl in *. split; simpl; try done.
  - rewrite !length_app. simpl. lia.
  - intros i k' o' Hi. apply lookup_snoc_Some in Hi as [[_ Hi]|[-> Hi]].
    + destruct (Hde _ _ _ Hi) as (v' & Hv' & Hd'). exists v'.
      rewrite lookup_app_l by (by eapply lookup_lt_Some). split; [done|].
      rewrite Hd, decide_False; [done|]. exact (Hne _ _ Hv').
    + simplify_eq. exists v. split; [by rewrite <- Hvl, list_lookup_middle|]. by rewrite Hd, decide_True.
  - intros i j a b Hi Hj Hab. apply lookup_snoc_Some in Hi as [[_ Hi]|[-> <-]], Hj as [[_ Hj]|[-> <-]];
      simplify_eq/=; eauto; exfalso; by eapply Hne.
  - intros i a ls Hi. apply lookup_snoc_Some in Hi as [[_ Hi]|[-> <-]]; simpl.
    + rewrite Hc, decide_False by eauto. pose proof (Hcd _ _ ls Hi) as Hold.
      destruct (ts !! (i, ls)); [|done]. destruct Hold as (m & Hm & Hh). exists m. by erewrite Hv.
    + destruct (ts !! _) as [t|] eqn:Ht; [apply Hto in Ht; simpl in Ht; lia|]. by rewrite Hc, decide_True.
  - intros p t Hp%Hto. rewrite length_app. lia.
  - intros j i ls Hj. destruct (Hme _ _ _ Hj) as (a & m & Ha & Hm & Hch). exists a, m.
    rewrite lookup_app_l by (by eapply lookup_lt_Some). rewrite Hc, decide_False by eauto. done.
  - intros v'. rewrite Hcol, elem_of_app, Hco. setoid_rewrite first_named_snoc. split.
    + intros [(i & k' & o' & Hf & Hi)|Hin].
      * exists i, k', o'. rewrite Hf. by rewrite lookup_app_l by (by eapply lookup_lt_Some).
      * destruct (first_named (o_name o) _) eqn:Hf; [by apply elem_of_nil in Hin|].
        apply list_elem_of_singleton in Hin as ->. exists (length vs), k, o.
        rewrite Hf, decide_True by done. by rewrite <- Hvl, list_lookup_middle.
    + intros (i & k' & o' & Hf & Hi). destruct (first_named (o_name o') _) as [[j ko]|] eqn:Hfo.
      * simplify_eq. left. apply first_named_Some in Hfo as Hs. destruct Hs as (Hs & _). simpl in Hs.
        rewrite lookup_app_l in Hi by (rewrite Hvl; by eapply lookup_lt_Some). eauto.
      * case_decide as Hn; [|done]. simplify_eq. rewrite <- Hvl, list_lookup_middle in Hi by done.
        simplify_eq. right. rewrite Hfo. by apply list_elem_of_singleton.
Qed.

Lemma metric_vec_related s s' c k name help keys :
  related s c -> spec_step valid_opts (CallVec k name help keys) s = Some s' ->
  exists c', client_step (CallVec k name help keys) c = Some c' /\ related s' c'.
Proof.
  intros HR Hs. simpl in Hs. destruct (valid_opts k _) eqn:Hvalid; [|done]. simplify_eq.
  simpl. unfold metric_vec. set (o := mkOpts name help keys) in *.
  pose proof (vec_new_law k o (c_world c)) as Hn. destruct (vec_new k o (c_world c)) as [[v w1]|]; [|congruence].
  destruct Hn as [_ Hfr Hd Hc Hv Hco].
  assert (name_taken (registry (c_self c)) (o_name o) w1 <-> is_Some (first_named (o_name o) s)) as Htk.
  { rewrite <- (name_taken_iff _ _ _ HR). unfold name_taken. rewrite Hco.
    split; intros (v' & k' & o' & Hin & Hd' & Ho); exists v', k', o'; split_and!; try done;
      apply (rl_collectors _ _ HR) in Hin as (i & k2 & o2 & _ & Hi);
      destruct (vec_lookup _ _ _ _ HR Hi) as (o3 & _ & Hd3); simpl in Hd3;
      [rewrite Hd, decide_False in Hd'|rewrite Hd, decide_False]; congruence. }
  assert (vec_desc v w1 = Some (k, o)) as Hdv by (by rewrite Hd, decide_True).
  pose proof (register_law (registry (c_self c)) v w1 k o Hdv) as Hreg.
  destruct (register (registry (c_self c)) v w1) as [w2|]; simpl; (eexists; split; [done|]);
    apply new_vec_related; try done.
  - intros v'. by rewrite (co_desc _ _ _ _ (proj2 Hreg)).
  - intros v' ls. by rewrite (co_child _ _ _ _ (proj2 Hreg)).
  - intros v' ls m Hm. rewrite (co_value _ _ _ _ (proj2 Hreg)). eauto.
  - rewrite (co_collectors _ _ _ _ (proj2 Hreg)), Hco.
    destruct Hreg as [Hno _]. rewrite Htk in Hno. destruct (first_named (o_name o) s); [|done].
    destruct Hno. eauto.
  - rewrite Hco. apply Htk in Hreg as [x Hx]. by rewrite Hx, app_nil_r.
Qed.

(** Adding [d] to the value adds [d] to the total. *)
Lemma holds_add k t x d :
  holds k t x -> exact_int d -> exact_int (t + d) -> (k = KCounter -> 0 <= d) ->
  holds k (t + d) (f64_add x (f64_of_int d)).
Proof.
  intros [He Hk Hx] Hd Htd Hpos. split; [done|intros Hc; specialize (Hk Hc); specialize (Hpos Hc); lia|].
  intros Hh. rewrite (Hx Hh). by apply f64_add_exact.
Qed.

Lemma client_step_related s s' c call :
  related s c -> spec_step valid_opts call s = Some s' ->
  exists c', client_step call c = Some c' /\ related s' c'.
Proof.
  intros HR Hs. destruct call; [by eapply metric_vec_related|by eapply with_labels_related|..];
    simpl in *; try case_decide; try done; eapply update_related; try done;
    intros v ls k m t t' Hc Hh Hf Ht'; destruct k; simplify_eq/=.
  - do 2 eexists. split; [done|]. split; [by eapply counter_inc_law|by apply holds_add].
  - do 2 eexists. split; [done|]. split; [by eapply gauge_inc_law|by apply holds_add].
  - do 2 eexists. split; [done|]. split; [by eapply counter_inc_by_law|].
    destruct Hh as [He Hk Hx]. apply holds_add; [done| |done|lia].
    specialize (Hk eq_refl). unfold exact_int in *. lia.
  - do 2 eexists. split; [done|]. split; [by eapply gauge_set_law|done].
  - do 2 eexists. split; [done|]. split; [by eapply gauge_dec_law|by apply holds_add].
  - destruct (histogram_observe_law v ls m x _ Hc) as [y Hy]. do 2 eexists.
    split; [done|]. split; [done|by split].
Qed.

Lemma run_related s s' c calls :
  related s c -> run (spec_step valid_opts) calls s = Some s' ->
  exists c', run client_step calls c = Some c' /\ related s' c'.
Proof.
  revert s c; induction calls as [|call calls IH]; intros s c HR Hs; simpl in *; [simplify_eq; eauto|].
  destruct (spec_step valid_opts call s) as [s1|] eqn:H1; [|done].
  destruct (client_step_related _ _ _ _ HR H1) as (c1 & -> & HR1). eauto.
Qed.

(** [get] converts back without loss. *)
Lemma get_related s c j : related s c -> client_get c j = spec_get s j.
Proof.
  intros HR. unfold client_get, spec_get. destruct (sp_metrics s !! j) as [[i ls]|] eqn:Hj; simpl.
  2:{ destruct (c_metrics c !! j) eqn:Hc; [|done]. apply lookup_lt_Some in Hc.
      apply lookup_ge_None in Hj. pose proof (rl_mlen _ _ HR). lia. }
  destruct (rl_metric _ _ HR _ _ _ Hj) as (a & m & Ha & -> & Hc). simpl.
  destruct (vec_lookup _ _ _ _ HR Ha) as (o & -> & _). simpl.
  pose proof (rl_child _ _ HR _ _ ls Ha) as Hch. rewrite Hc in Hch.
  destruct (sp_totals s !! (i, ls)) as [t|]; [|done]. destruct Hch as (m' & Hm' & [He Hk Hx]). simplify_eq.
  destruct (va_kind a); unfold Counter_get, Gauge_get; simpl;
    rewrite ?counter_get_law, ?gauge_get_law, ?Hx by done.
  - rewrite f64_u64_roundtrip; [done|]. specialize (Hk eq_refl). unfold exact_int in He. lia.
  - by rewrite f64_i64_roundtrip.
  - done.
Qed.

Lemma gather_related s c k name ls x :
  related s c -> k <> KHistogram ->
  mkSample k name ls x ∈ gather (registry (c_self c)) (c_world c) <->
  exists i o t, first_named name s = Some (i, (k, o)) /\ sp_totals s !! (i, ls) = Some t /\ x = f64_of_int t.
Proof.
  intros HR Hk. rewrite gather_law by done. simpl. split.
  - intros (v & o & m & Hin & Hd & <- & Hc & <-).
    apply (rl_collectors _ _ HR) in Hin as (i & k' & o' & Hf & Hi).
    destruct (vec_lookup _ _ _ _ HR Hi) as (o2 & Hs & Hd'). simplify_eq/=.
    apply first_named_Some in Hf as Hf'. destruct Hf' as (Hs' & _). simplify_eq.
    pose proof (rl_child _ _ HR _ _ ls Hi) as Hch. simpl in Hch. rewrite Hc in Hch.
    destruct (sp_totals s !! (i, ls)) as [t|] eqn:Ht; [|done]. destruct Hch as (m' & Hm' & [_ _ Hx]).
    simplify_eq. exists i. eexists. exists t. split_and!; [exact Hf|exact Ht|by apply Hx].
  - intros (i & o & t & Hf & Ht & ->). apply first_named_Some in Hf as Hf'. destruct Hf' as (Hs & <- & _).
    destruct (rl_desc _ _ HR _ _ _ Hs) as (v & Hv & Hd).
    pose proof (rl_child _ _ HR _ _ ls Hv) as Hch. rewrite Ht in Hch. destruct Hch as (m & Hm & [_ _ Hx]).
    exists v, o, m. split_and!; try done; [|by apply Hx].
    apply (rl_collectors _ _ HR). eauto.
Qed.

Lemma render_text self w :
  exists b, encode (gather (registry self) w) = Ok b /\ render self w = Some (String.string_of_list_byte b).
Proof.
  destruct (encode_law (registry self) w) as (b & Hb & Hu). exists b. split; [done|].
  unfold render. by rewrite Hb, Hu.
Qed.
End proofs.

(** C31. Any program using one registry, with any vectors, labels and duplicate
    registrations: as long as every total stays below 2^53 in absolute value and
    the specifications are valid, no call panics, [get] through every adapter
    returns exactly the integer total of the adapter's vector and labels (adapters
    for the same labels share it), and [render] succeeds on samples that are
    exactly the totals of the vectors that were the first to be created with
    their name. *)
Theorem metrics_refine_integers `{PL : PrometheusLaws} w calls s :
  run (spec_step valid_opts) calls spec_new = Some s ->
  exists c, run client_step calls (client_new w) = Some c
  /\ (forall j, client_get c j = spec_get s j)
  /\ (forall k name ls x, k <> KHistogram ->
        mkSample k name ls x ∈ gather (registry (c_self c)) (c_world c) <->
        exists i o t, first_named name s = Some (i, (k, o)) /\ sp_totals s !! (i, ls) = Some t
          /\ x = f64_of_int t)
  /\ exists b, encode (gather (registry (c_self c)) (c_world c)) = Ok b
        /\ render (c_self c) (c_world c) = Some (String.string_of_list_byte b).
Proof.
  intros Hs. destruct (run_related _ _ _ _ (client_new_related w) Hs) as (c & Hc & HR).
  exists c. split_and!; [done|intros; by apply get_related|intros; by apply gather_related|apply render_text].
Qed.

(** * Examples *)

Module Store_sample.

(** A store of vectors with their children, and the collected vectors. *)
Definition Store : Type := list (MetricKind * Opts * gmap (list string) f64) * list nat.

Definition put (m : nat * list string) (f : f64 -> f64) (w : Store) : Store :=
  (alter (fun d => (d.1, alter f m.2 d.2)) m.1 w.1, w.2).

Definition children (v : nat) (w : Store) : gmap (list string) f64 :=
  from_option snd ∅ (w.1 !! v).

Definition content (v : nat) (w : Store) : option (MetricKind * Opts) := fst <$> w.1 !! v.

Definition find_child (v : nat) (ls : list string) (w : Store) : option (nat * list string) :=
  _ ← children v w !! ls; Some (v, ls).

Definition samples (w : Store) (v : nat) : list Sample :=
  match w.1 !! v with
  | Some (k, o, cs) => (fun '(ls, x) => mkSample k (o_name o) ls x) <$> map_to_list cs
  | None => []
  end.

Definition named (name : string) (w : Store) (v : nat) : Prop :=
  from_option (fun ko => o_name ko.2 = name) False (content v w).

#[export] Instance named_dec name w v : Decision (named name w v).
Proof. unfold named. destruct (content v w); simpl; solve_decision. Defined.

#[export] Instance prom : Prometheus := {|
  World := Store; Registry := unit; MetricVec := nat; Metric := nat * list string;
  Registry_new w := (tt, (w.1, []));
  vec_new k o w :=
    if bool_decide (o_name o = "") then Err "empty name" else Ok (length w.1, (w.1 ++ [(k, o, ∅)], w.2));
  register _ v w :=
    let name := from_option (fun ko => o_name ko.2) "" (content v w) in
    if bool_decide (Exists (named name w) w.2) then Err "duplicate" else Ok (w.1, w.2 ++ [v]);
  with_label_values v ls w :=
    match content v w with
    | None => None
    | Some (_, o) =>
        if bool_decide (length ls = length (o_keys o)) then
          Some ((v, ls), match children v w !! ls with
                         | Some _ => w
                         | None => (alter (fun d => (d.1, <[ls := f64_of_int 0]> d.2)) v w.1, w.2)
                         end)
        else None
    end;
  counter_inc m := put m (fun x => f64_add x (f64_of_int 1));
  counter_inc_by m y := put m (fun x => f64_add x y);
  counter_get m w := default (f64_of_int 0) (children m.1 w !! m.2);
  gauge_set m y := put m (fun _ => y);
  gauge_inc m := put m (fun x => f64_add x (f64_of_int 1));
  gauge_dec m := put m (fun x => f64_add x (f64_of_int (-1)));
  gauge_get m w := default (f64_of_int 0) (children m.1 w !! m.2);
  histogram_observe m y := put m (fun x => f64_add x y);
  gather _ w := w.2 ≫= samples w;
  encode ss := Ok (replicate (length ss) x41);
  valid_opts _ o := negb (bool_decide (o_name o = ""));
  vec_desc := content;
  child := find_child;
  value m w := default (f64_of_int 0) (children m.1 w !! m.2);
  collectors _ w := w.2;
|}.

Lemma content_put m f w v : content v (put m f w) = content v w.
Proof.
  unfold content, put. simpl. destruct (decide (v = m.1)) as [->|Hne].
  - rewrite list_lookup_alter_eq. by destruct (w.1 !! m.1).
  - by rewrite list_lookup_alter_ne by done.
Qed.

Lemma children_put m f w v : children v (put m f w) = if decide (v = m.1) then alter f m.2 (children v w) else children v w.
Proof.
  unfold children, put. simpl. case_decide as Hv; [subst|by rewrite list_lookup_alter_ne by done].
  rewrite list_lookup_alter_eq. destruct (w.1 !! m.1); simpl; [done|]. by rewrite alter_empty.
Qed.

Lemma put_updates m f (w : Store) v ls :
  find_child v ls w = Some m -> updates (H := prom) m (f (value m w)) w (put m f w).
Proof.
  unfold find_child. destruct (children v w !! ls) as [x|] eqn:Hx; intros ?; simplify_eq/=.
  split; simpl.
  - intros. apply content_put.
  - intros v' ls'. unfold find_child. rewrite children_put. case_decide as Hv; [|done]. simpl in Hv. subst.
    destruct (decide (ls' = ls)) as [->|Hne]; simpl.
    + by rewrite lookup_alter_eq, Hx.
    + by rewrite lookup_alter_ne.
  - intros [v' ls']. simpl. rewrite children_put. simpl. case_decide as Hv; case_decide; simplify_eq/=; try done.
    + by rewrite lookup_alter_eq, Hx.
    + rewrite lookup_alter_ne; [done|]. by intros ->.
  - done.
Qed.

Lemma find_child_Some v ls w m :
  find_child v ls w = Some m <-> m = (v, ls) /\ is_Some (children v w !! ls).
Proof.
  unfold find_child. destruct (children v w !! ls); simpl; split; intros Hm; simplify_eq; eauto.
  - by destruct Hm as [-> _].
  - destruct Hm as [_ [? ?]]. done.
Qed.

Lemma creates_new (w : Store) k o :
  o_name o <> "" -> creates (H := prom) (length w.1) k o w (w.1 ++ [(k, o, ∅)], w.2).
Proof.
  intros Ho. assert (forall v, v <> length w.1 -> (w.1 ++ [(k, o, ∅)]) !! v = w.1 !! v) as Hl.
  { intros v Hv. destruct (decide (v < length w.1)%nat); [by apply lookup_app_l|].
    rewrite !lookup_ge_None_2; [done|lia|rewrite length_app; simpl; lia]. }
  split; simpl.
  - by rewrite bool_decide_eq_false_2.
  - unfold content. by rewrite lookup_ge_None_2 by lia.
  - intros v. unfold content. simpl. case_decide as Hv; [subst; by rewrite list_lookup_middle|by rewrite Hl].
  - intros v ls. unfold find_child, children. simpl.
    case_decide as Hv; [subst; by rewrite list_lookup_middle|by rewrite Hl].
  - intros v ls m. rewrite find_child_Some. intros (-> & [x Hx]). unfold children in *. simpl in *.
    rewrite Hl; [done|]. intros ->. by rewrite lookup_ge_None_2 in Hx by lia.
  - done.
Qed.

Lemma adds_child_new (v : nat) (ls : list string) (w : Store) k o cs :
  w.1 !! v = Some (k, o, cs) -> cs !! ls = None ->
  adds_child (H := prom) v ls (v, ls) w (alter (fun d => (d.1, <[ls := f64_of_int 0]> d.2)) v w.1, w.2).
Proof.
  intros Hv Hls. set (w' := (_, w.2)).
  assert (forall v', content v' w' = content v' w) as Hc.
  { intros v'. unfold content. simpl. destruct (decide (v' = v)) as [->|]; [|by rewrite list_lookup_alter_ne].
    by rewrite list_lookup_alter_eq, Hv. }
  assert (forall v', children v' w' = if decide (v' = v) then <[ls := f64_of_int 0]> (children v' w) else children v' w) as Hch.
  { intros v'. unfold children. simpl. case_decide; [subst|by rewrite list_lookup_alter_ne].
    by rewrite list_lookup_alter_eq, Hv. }
  split; simpl; try done.
  - intros v' ls' Hs. apply find_child_Some in Hs as [? [x Hx]]. simplify_eq.
    unfold children in Hx. rewrite Hv in Hx. simpl in Hx. congruence.
  - intros v' ls'. unfold find_child. rewrite Hch.
    destruct (decide (v' = v)) as [->|]; [|by rewrite decide_False by naive_solver].
    destruct (decide (ls' = ls)) as [->|].
    + by rewrite lookup_insert_eq, decide_True.
    + by rewrite lookup_insert_ne, decide_False by naive_solver.
  - intros [v' ls']. simpl. rewrite Hch. destruct (decide (v' = v)) as [->|]; [|by rewrite decide_False by naive_solver].
    destruct (decide (ls' = ls)) as [->|].
    + by rewrite lookup_insert_eq, decide_True.
    + by rewrite lookup_insert_ne, decide_False by naive_solver.
Qed.

Lemma named_content name w v : named name w v <-> exists k o, content v w = Some (k, o) /\ o_name o = name.
Proof.
  unfold named. destruct (content v w) as [[k o]|]; simpl; naive_solver.
Qed.

Lemma gather_sample w s :
  s ∈ w.2 ≫= samples w <->
  exists v o m, v ∈ w.2 /\ content v w = Some (s_kind s, o) /\ o_name o = s_name s
    /\ find_child v (s_labels s) w = Some m /\ default (f64_of_int 0) (children m.1 w !! m.2) = s_value s.
Proof.
  rewrite list_elem_of_bind. unfold content, samples. split.
  - intros (v & Hs & Hv). destruct (w.1 !! v) as [[[k o] cs]|] eqn:Hw; [|by apply elem_of_nil in Hs].
    apply list_elem_of_fmap in Hs as ([ls x] & -> & Hin%elem_of_map_to_list).
    exists v, o, (v, ls). assert (children v w = cs) as Hcs by (unfold children; by rewrite Hw).
    simpl. rewrite Hcs, Hin, Hw. split_and!; try done. apply find_child_Some. rewrite Hcs. eauto.
  - intros (v & o & m & Hv & Hd & Hn & Hc & Hx). exists v. split; [|done].
    apply find_child_Some in Hc as [-> [x Hls]]. unfold children in *. simpl in *.
    destruct (w.1 !! v) as [[[k o'] cs]|]; simplify_eq/=. apply list_elem_of_fmap. exists (s_labels s, x).
    rewrite Hls in Hx. rewrite elem_of_map_to_list, Hls. split; [|done]. by destruct s; simplify_eq/=.
Qed.

#[export] Instance prom_laws : PrometheusLaws (H := prom).
Proof.
  split; simpl.
  - intros w [] w' ?. by simplify_eq.
  - intros k o w. case_bool_decide; simpl; [done|]. by apply creates_new.
  - intros [] v w k o Hd. rewrite Hd. simpl. case_bool_decide as Hex; [|split].
    + apply Exists_exists in Hex as (v' & Hv' & Hn). apply named_content in Hn as (k' & o' & ? & ?). by exists v', k', o'.
    + intros (v' & k' & o' & ? & ? & ?). destruct Hex. apply Exists_exists. exists v'. split; [done|].
      apply named_content. eauto.
    + by split.
  - intros v ls w k o Hd. rewrite Hd. case_bool_decide; [|done]. split; [done|].
    unfold find_child. destruct (children v w !! ls) eqn:Hc; simpl; [done|].
    unfold content, children in *. destruct (w.1 !! v) as [[[? ?] cs]|] eqn:Hv; simplify_eq/=. by eapply adds_child_new.
  - intros v v' ls ls' m w [-> _]%find_child_Some [? _]%find_child_Some. by simplify_eq.
  - intros v ls m w Hc. by eapply (put_updates m (fun x => f64_add x (f64_of_int 1))).
  - intros v ls m x w Hc. by eapply (put_updates m (fun y => f64_add y x)).
  - done.
  - intros v ls m x w Hc. by eapply (put_updates m (fun _ => x)).
  - intros v ls m w Hc. by eapply (put_updates m (fun x => f64_add x (f64_of_int 1))).
  - intros v ls m w Hc. by eapply (put_updates m (fun x => f64_add x (f64_of_int (-1)))).
  - done.
  - intros v ls m x w Hc. eexists. by eapply (put_updates m (fun y => f64_add y x)).
  - intros _ w s _. apply gather_sample.
  - intros _ w. eexists. split; [done|]. by induction (length _).
Qed.
End Store_sample.

Module Examples.
Import Store_sample.

(** Two counters of one name: the second counts, but only the first is shown. *)
Definition program : list MetricCall :=
  [CallVec KCounter "jobs" "Jobs" ["queue"]; CallVec KGauge "busy" "Busy" [];
   CallVec KCounter "jobs" "Jobs again" ["queue"];
   CallLabels 0 ["mail"]; CallLabels 0 ["mail"]; CallLabels 1 []; CallLabels 2 ["mail"];
   CallInc 0; CallIncBy 1 41; CallSet 2 (-3); CallDec 2; CallIncBy 3 7].

End Examples.
Import Store_sample.

Lemma metrics_refine_integers_witness :
  exists c, run client_step Examples.program (client_new (H := prom) ([], [])) = Some c
  /\ client_get c 0 = Some 42 /\ client_get c 1 = Some 42 /\ client_get c 2 = Some (-4)
  /\ client_get c 3 = Some 7
  /\ mkSample KCounter "jobs" ["mail"] (f64_of_int 42) ∈ gather (registry (c_self c)) (c_world c)
  /\ mkSample KCounter "jobs" ["mail"] (f64_of_int 7) ∉ gather (registry (c_self c)) (c_world c).
Proof.
  pose (s := mkMetricsSpec
    [(KCounter, mkOpts "jobs" "Jobs" ["queue"]); (KGauge, mkOpts "busy" "Busy" []);
     (KCounter, mkOpts "jobs" "Jobs again" ["queue"])]
    [(0%nat, ["mail"]); (0%nat, ["mail"]); (1%nat, []); (2%nat, ["mail"])]
    (<[(2%nat, ["mail"]) := 7]> (<[(1%nat, []) := -4]> (<[(0%nat, ["mail"]) := 42]> ∅)))).
  destruct (metrics_refine_integers (H := prom) ([], []) Examples.program s) as (c & Hc & Hget & Hs & _).
  - vm_compute. reflexivity.
  - exists c. rewrite !Hget. split; [exact Hc|]. do 4 (split; [vm_compute; reflexivity|]). split.
    + apply Hs; [discriminate|]. exists 0%nat, (mkOpts "jobs" "Jobs" ["queue"]), 42.
      split; [vm_compute; reflexivity|]. split; [vm_compute; reflexivity|reflexivity].
    + intros Hin. apply Hs in Hin; [|discriminate]. destruct Hin as (i & o & t & Hf & Ht & Hx).
      vm_compute in Hf. injection Hf as <- <-. vm_compute in Ht. injection Ht as <-.
      vm_compute in Hx. discriminate.
Defined.
