(* ===== verification/Server.v ===== *)
(** The server's life ([crates/folk-core/src/server.rs]): the order of start-up
    and shutdown.

    [server_run] lists what [FolkServer::run] does, in order, with its result.
    What the environment decides is an argument: the outcomes that are logged
    and ignored, how far the plugins' shutdown gets
    before [shutdown_timeout], and whether and which signal arrives. *)

From S2P Require Import Prelude.
From S2P Require Import Config.
From S2P Require Import PluginRegistry.

(** [wait_for_signal]: each handler is installed, or [expect] panics; then the
    first signal to arrive ends the wait. *)
Inductive Signal := SIGTERM | SIGINT.

Definition wait_for_signal (installed : Signal -> bool) (first : Signal) : option Signal :=
  if installed SIGTERM && installed SIGINT then Some first else None.

Section server.
Context {PluginContext Registrar : Type}.

Record FolkServer := mkFolkServer {
  config : FolkConfig;
  plugins : PluginRegistry (PluginContext := PluginContext);
  rpc_registrar : option Registrar;
}.

Definition server_new (config : FolkConfig) : FolkServer :=
  {| config := config; plugins := registry_new; rpc_registrar := None |}.

Definition set_rpc_registrar (registrar : Registrar) (s : FolkServer) : FolkServer :=
  {| config := config s; plugins := plugins s; rpc_registrar := Some registrar |}.

Definition register_plugin (p : Plugin PluginContext) (s : FolkServer) : FolkServer :=
  {| config := config s; plugins := register (plugins s) p; rpc_registrar := rpc_registrar s |}.

Inductive ServerAction :=
| SLogInit
| SSetDevMode
| SWarmup
| SPoolNew (cfg : WorkersConfig)
| SWatch
| SPlugin (c : PluginCall PluginContext)
| SWaitSignal
| SShutdownSent.

(** [shutdown_started]: how many shutdowns begin before the timeout, [None]
    when all of them finish in time. *)
Definition drain (shutdown_started : option nat) (calls : list (PluginCall PluginContext)) :
    list (PluginCall PluginContext) :=
  match shutdown_started with Some n => take n calls | None => calls end.

(** [make_context] is the [PluginContext] of this run, around the registrar.  The
    result [None] is the panic of [wait_for_signal]. *)
Definition server_run (make_context : option Registrar -> PluginContext) (signal : option Signal)
    (shutdown_started : option nat) (self : FolkServer) : list ServerAction * option (result unit) :=
  let workers := normalize (workers (config self)) in
  let dev := dev (config self) in
  let startup :=
    [SLogInit] ++ (if dev_watch dev then [SSetDevMode] else [])
    ++ (if warmup workers then [SWarmup] else [])
    ++ [SPoolNew workers] ++ (if dev_watch dev then [SWatch] else []) in
  let ctx := make_context (rpc_registrar self) in
  match boot_all (plugins self) ctx with
  | (calls, Err e) => (startup ++ (SPlugin <$> calls), Some (context "plugin boot failed" (Err e)))
  | (calls, Ok _) =>
      match signal with
      | None => (startup ++ (SPlugin <$> calls) ++ [SWaitSignal], None)
      | Some _ =>
          (startup ++ (SPlugin <$> calls) ++ [SWaitSignal; SShutdownSent]
           ++ (SPlugin <$> drain shutdown_started (shutdown_all (plugins self))), Some (Ok tt))
      end
  end.

(** * Properties *)

Definition plugin_calls (trace : list ServerAction) : list (PluginCall PluginContext) :=
  omap (fun a => match a with SPlugin c => Some c | _ => None end) trace.

Definition pools (trace : list ServerAction) : list WorkersConfig :=
  omap (fun a => match a with SPoolNew w => Some w | _ => None end) trace.

Lemma plugin_calls_app t1 t2 : plugin_calls (t1 ++ t2) = plugin_calls t1 ++ plugin_calls t2.
Proof. apply omap_app. Qed.

Lemma pools_app t1 t2 : pools (t1 ++ t2) = pools t1 ++ pools t2.
Proof. apply omap_app. Qed.

Lemma plugin_calls_calls calls : plugin_calls (SPlugin <$> calls) = calls.
Proof. unfold plugin_calls. induction calls as [|c calls IH]; csimpl; [done|by rewrite IH]. Qed.

Lemma pools_calls calls : pools (SPlugin <$> calls) = [].
Proof. unfold pools. by induction calls. Qed.

(** The order of start-up, each step at most once and only if it is configured. *)
Record started_up (self : FolkServer) (startup : list ServerAction) : Prop := {
  su_order : sublist startup
    [SLogInit; SSetDevMode; SWarmup; SPoolNew (normalize (workers (config self))); SWatch];
  su_log : SLogInit ∈ startup;
  su_dev : SSetDevMode ∈ startup <-> dev_watch (dev (config self)) = true;
  su_warmup : SWarmup ∈ startup <-> warmup (normalize (workers (config self))) = true;
  su_pool : SPoolNew (normalize (workers (config self))) ∈ startup;
  su_watch : SWatch ∈ startup <-> dev_watch (dev (config self)) = true;
}.

Lemma sublist_omap {A B} (f : A -> option B) l k : sublist l k -> sublist (omap f l) (omap f k).
Proof. induction 1 as [|x l k _ IH|x l k _ IH]; csimpl; [done|..]; destruct (f x); try done; by constructor. Qed.

Lemma started_up_calls self startup :
  started_up self startup ->
  plugin_calls startup = [] /\ pools startup = [normalize (workers (config self))] /\ SWaitSignal ∉ startup.
Proof.
  intros [Hsub _ _ _ Hpool _]. set (w := normalize _) in *. clearbody w. split_and!.
  - apply elem_of_nil_inv. intros c Hc%list_elem_of_omap.
    destruct Hc as (a & Ha & Heq). apply (elem_of_sublist _ _ _ Ha) in Hsub. set_solver.
  - assert (sublist (pools startup) [w]) as Hp by exact (sublist_omap _ _ _ Hsub).
    assert (w ∈ pools startup) as Hin by (apply list_elem_of_omap; by exists (SPoolNew w)).
    destruct (pools startup) as [|x l]; [by apply elem_of_nil in Hin|].
    apply sublist_length in Hp as Hlen. simpl in Hlen. destruct l; [|simpl in *; lia]. set_solver.
  - intros Hin. apply (elem_of_sublist _ _ _ Hin) in Hsub. set_solver.
Qed.

(** C37. The server starts up in one order: logging, then [FOLK_DEV_MODE] (if files
    are watched), then the opcache warm-up (if configured), so that what is warmed
    sees the mode, then the one worker pool, with the normalised configuration,
    then the file watcher (if files are watched), and only then the plugins.  It
    waits for the signal only after every plugin has booted with the registrar that
    was set; the signal is broadcast before the first plugin is shut down.  Whatever
    happens, plugins go up and down like brackets: all are down again after a failed
    boot, in which case no signal is awaited, and after a shutdown within the time
    limit.  Only when a signal handler cannot be installed are the booted plugins
    left up. *)
Theorem server_lifecycle make_context signal started self :
  let '(trace, r) := server_run make_context signal started self in
  let ctx := make_context (rpc_registrar self) in
  pools trace = [normalize (workers (config self))]
  /\ exists startup, started_up self startup /\ plugin_calls startup = []
     /\ match r with
        | Some (Err _) => SWaitSignal ∉ trace
                   /\ stack_run ctx (plugin_calls trace) [] []
                   /\ exists calls, trace = startup ++ (SPlugin <$> calls)
        | None => signal = None /\ trace = startup ++ (SPlugin <$> (Boot <$> plugins self)) ++ [SWaitSignal]
        | Some (Ok _) => exists downs,
            trace = startup ++ (SPlugin <$> (Boot <$> plugins self)) ++ [SWaitSignal; SShutdownSent]
                    ++ (SPlugin <$> downs)
            /\ downs = drain started (Shutdown <$> rev (plugins self))
            /\ (started = None -> stack_run ctx (plugin_calls trace) [] [])
        end.
Proof.
  unfold server_run. set (ctx := make_context _). pose proof (boot_all_run ctx (plugins self)) as Hb.
  set (startup := [SLogInit] ++ _).
  assert (started_up self startup) as Hup.
  { unfold startup. destruct (dev_watch (dev (config self))) eqn:Hd, (warmup (normalize (workers (config self)))) eqn:Hw;
      split; rewrite ?Hd, ?Hw; try set_solver; repeat constructor. }
  destruct (started_up_calls _ _ Hup) as (Hcalls & Hpools & Hwait). clearbody startup.
  destruct (boot_all (plugins self) ctx) as [calls [u|e]]; simpl is_ok in Hb.
  - destruct Hb as [-> Hrun]. destruct signal as [sig|].
    2:{ split; [by rewrite !pools_app, Hpools, !pools_calls|]. by exists startup. }
    split; [by rewrite !pools_app, Hpools, !pools_calls|].
    exists startup. split_and!; [done|done|]. eexists. split_and!; [reflexivity| |].
    { by rewrite shutdown_all_rev. }
    intros ->. rewrite !plugin_calls_app, Hcalls, !plugin_calls_calls. simpl.
    eapply stack_run_app; [exact Hrun|]. apply shutdown_all_run.
  - rename Hb into Hrun. split.
    { by rewrite pools_app, Hpools, pools_calls. }
    exists startup. split_and!; [done|done|]. split_and!.
    + rewrite elem_of_app. intros [?|Hin]; [done|].
      apply list_elem_of_fmap in Hin as (c & ? & _). done.
    + by rewrite plugin_calls_app, Hcalls, plugin_calls_calls.
    + by exists calls.
Qed.
End server.
