(* ===== verification/ZvalConvert.v ===== *)
(** Conversion between JSON values and PHP values
    ([crates/folk-ext/src/zval_convert.rs]), and the call of the PHP dispatch
    function ([call_dispatch] of [crates/folk-ext/src/zts.rs]).

    PHP values and hash tables belong to [ext_php_rs]: the class [ZvalApi] has
    the functions the source calls on them, [ZvalLaws] what they are documented to
    do.  [zval_to_value] recurses on a PHP value; the depth it may reach is its
    fuel. *)

From stdpp Require Import pretty.
From S2P Require Import Prelude.
From S2P Require Import Text.
From S2P Require Import Protocol.

(** [ArrayKey]; a [ZendString] may fail to be UTF-8. *)
Inductive ArrayKey :=
| KLong (i : Z)
| KString (s : string)
| KStr (s : string)
| KZendString (s : option string).

Section api.
Context `{SJ : SerdeJson}.

(** Numbers and PHP values, as far as the conversions use them.  [json_i64] and
    [json_f64] are the [json!] macro on an [i64] and an [f64]; [double] is the
    type of the latter. *)
Class ZvalApi := {
  zval : Type;
  zend_hash : Type;
  double : Type;
  as_i64 : number -> option Z;
  as_f64 : number -> option double;
  json_i64 : Z -> value;
  json_f64 : double -> value;
  zval_new : zval;
  zval_null : zval;
  zval_bool : bool -> zval;
  zval_long : Z -> zval;
  zval_double : double -> zval;
  (** [set_string] on a fresh value. *)
  zval_string : string -> result zval;
  zval_hashtable : zend_hash -> zval;
  is_null : zval -> bool;
  is_bool : zval -> bool;
  is_long : zval -> bool;
  is_double : zval -> bool;
  is_string : zval -> bool;
  is_array : zval -> bool;
  get_bool : zval -> option bool;
  get_long : zval -> option Z;
  get_double : zval -> option double;
  get_str : zval -> option string;
  get_array : zval -> option zend_hash;
  double_zero : double;
  ht_new : zend_hash;
  ht_push : zval -> zend_hash -> option zend_hash;
  ht_insert : string -> zval -> zend_hash -> option zend_hash;
  ht_iter : zend_hash -> list (ArrayKey * zval);
}.
End api.

Section convert.
Context `{SJ : SerdeJson} `{ZA : !ZvalApi}.

(** [.ok()]: a failed insertion leaves the table as it was. *)
Definition push_ok (ht : zend_hash) (z : zval) : zend_hash := default ht (ht_push z ht).
Definition insert_ok (ht : zend_hash) (kz : string * zval) : zend_hash :=
  default ht (ht_insert kz.1 kz.2 ht).

Fixpoint value_to_zval (v : value) : zval :=
  match v with
  | VNull => zval_null
  | VBool b => zval_bool b
  | VNumber n =>
      match as_i64 n with
      | Some i => zval_long i
      | None => match as_f64 n with Some f => zval_double f | None => zval_new end
      end
  | VString s => match zval_string s with Ok z => z | Err _ => zval_new end
  | VArray arr => zval_hashtable (foldl push_ok ht_new (map value_to_zval arr))
  | VObject m =>
      zval_hashtable (foldl insert_ok ht_new (map (fun kv => (kv.1, value_to_zval kv.2)) m))
  end.

Definition is_string_key (key : ArrayKey) : bool :=
  match key with KLong _ => false | _ => true end.

Definition key_string (key : ArrayKey) : string :=
  match key with
  | KString s => s
  | KStr s => s
  | KZendString s => default EmptyString s
  | KLong i => pretty i
  end.

Fixpoint zval_to_value (fuel : nat) (z : zval) : option value :=
  match fuel with
  | O => None
  | S fuel =>
      if is_null z then Some VNull
      else if is_bool z then Some (VBool (default false (get_bool z)))
      else if is_long z then Some (json_i64 (default 0%Z (get_long z)))
      else if is_double z then Some (json_f64 (default double_zero (get_double z)))
      else if is_string z then Some (VString (default EmptyString (get_str z)))
      else if is_array z then
        match get_array z with
        | None => Some VNull
        | Some ht =>
            let entries := ht_iter ht in
            if existsb (fun kv => is_string_key kv.1) entries then
              kvs ← mapM (fun kv => v ← zval_to_value fuel kv.2; Some (key_string kv.1, v)) entries;
              Some (VObject (map_collect kvs))
            else
              vs ← mapM (fun kv => zval_to_value fuel kv.2) entries;
              Some (VArray vs)
        end
      else Some VNull
  end.

(** * What the PHP side is documented to do *)

(** A decimal number, which PHP and [ext_php_rs] may take for an integer key. *)
Definition is_digit (c : Ascii.ascii) : bool :=
  (Nat.leb 48 (Ascii.nat_of_ascii c)) && (Nat.leb (Ascii.nat_of_ascii c) 57).
Definition digits (s : string) : bool :=
  negb (String.eqb s "") && forallb is_digit (String.list_ascii_of_string s).
Definition int_like (k : string) : bool :=
  match k with
  | String c s => if Ascii.eqb c "-" || Ascii.eqb c "+" then digits s else digits k
  | EmptyString => false
  end.

(** The type tests separate the kinds of values, the accessors return what was
    stored; tables iterate in insertion order, pushes get integer keys, distinct
    string keys stay string keys.  A key with a null byte is no [CString]: its
    insertion fails.  Nothing is said of keys that look like integers. *)
Class ZvalLaws := {
  null_law : is_null zval_null = true;
  bool_law b : is_null (zval_bool b) = false /\ is_bool (zval_bool b) = true
               /\ get_bool (zval_bool b) = Some b;
  long_law i : is_null (zval_long i) = false /\ is_bool (zval_long i) = false
               /\ is_long (zval_long i) = true /\ get_long (zval_long i) = Some i;
  double_law f : is_null (zval_double f) = false /\ is_bool (zval_double f) = false
                 /\ is_long (zval_double f) = false /\ is_double (zval_double f) = true
                 /\ get_double (zval_double f) = Some f;
  string_law s : exists z, zval_string s = Ok z
                 /\ is_null z = false /\ is_bool z = false /\ is_long z = false
                 /\ is_double z = false /\ is_string z = true /\ get_str z = Some s;
  table_law ht : let z := zval_hashtable ht in
                 is_null z = false /\ is_bool z = false /\ is_long z = false /\ is_double z = false
                 /\ is_string z = false /\ is_array z = true /\ get_array z = Some ht;
  new_iter : ht_iter ht_new = [];
  push_iter z ht :
    Forall (fun kv => is_string_key kv.1 = false) (ht_iter ht) ->
    exists ht' i, ht_push z ht = Some ht' /\ ht_iter ht' = ht_iter ht ++ [(KLong i, z)];
  insert_iter k z ht :
    has_nul k = false -> int_like k = false ->
    Forall (fun kv => is_string_key kv.1 = true /\ key_string kv.1 <> k) (ht_iter ht) ->
    exists ht' key, ht_insert k z ht = Some ht' /\ ht_iter ht' = ht_iter ht ++ [(key, z)]
      /\ is_string_key key = true /\ key_string key = k;
  insert_nul k z ht : has_nul k = true -> ht_insert k z ht = None;
}.

(** * Round trip *)








Context `{ZL : !ZvalLaws}.










Context `{SL : !SerdeJsonLaws}.




(** * Calling PHP *)

(** [call_dispatch]; [php] is [folk_zts_call_dispatch]: its return code and the
    value it stores, from the function's name and its two arguments. *)
Definition call_dispatch (fuel : nat) (php : string -> zval -> zval -> Z * zval)
    (func_name method : string) (params : value) : option (result value) :=
  if has_nul func_name then Some (Err "func_name contains null byte")
  else
    match zval_string method with
    | Err e => Some (Err ("set_string failed: " +:+ e))
    | Ok method_zval =>
        let '(ret, retval) := php func_name method_zval (value_to_zval params) in
        if decide (ret <> 0%Z) then
          Some (Err ("call_user_function(" +:+ func_name +:+ ") failed (code " +:+ pretty ret +:+ ")"))
        else v ← zval_to_value fuel retval; Some (Ok v)
    end.
End convert.

(** * A sample PHP *)

Module SampleZval.
Import Sample.

Inductive pz :=
| PUndef
| PNull
| PBool (b : bool)
| PLong (i : Z)
| PDouble (f : Z)
| PString (s : string)
| PArray (ht : list (ArrayKey * pz)).

Definition test (k : nat) (z : pz) : bool :=
  match z with
  | PUndef => false
  | PNull => Nat.eqb k 0 | PBool _ => Nat.eqb k 1 | PLong _ => Nat.eqb k 2
  | PDouble _ => Nat.eqb k 3 | PString _ => Nat.eqb k 4 | PArray _ => Nat.eqb k 5
  end.

(** Sample numbers are integers; those outside the [i64] range count as
    floats. *)
Definition in_i64 (n : Z) : bool := ((-(2 ^ 63) <=? n) && (n <? 2 ^ 63))%Z.

#[export] Instance zvals : ZvalApi := {|
  zval := pz; zend_hash := list (ArrayKey * pz); double := Z;
  as_i64 n := if in_i64 n then Some n else None;
  as_f64 n := Some n;
  json_i64 i := VNumber i; json_f64 f := VNumber f;
  zval_new := PUndef; zval_null := PNull; zval_bool := PBool; zval_long := PLong;
  zval_double := PDouble; zval_string s := Ok (PString s); zval_hashtable := PArray;
  is_null := test 0; is_bool := test 1; is_long := test 2; is_double := test 3;
  is_string := test 4; is_array := test 5;
  get_bool z := match z with PBool b => Some b | _ => None end;
  get_long z := match z with PLong i => Some i | _ => None end;
  get_double z := match z with PDouble f => Some f | _ => None end;
  get_str z := match z with PString s => Some s | _ => None end;
  get_array z := match z with PArray ht => Some ht | _ => None end;
  double_zero := 0%Z;
  ht_new := [];
  ht_push z ht := Some (ht ++ [(KLong (Z.of_nat (length ht)), z)]);
  ht_insert k z ht := if has_nul k then None else Some (ht ++ [(KZendString (Some k), z)]);
  ht_iter ht := ht;
|}.

#[export] Instance zvals_laws : ZvalLaws.
Proof.
  split; simpl; try done; eauto 10.
  - intros k z ht ->. eauto 10.
  - intros k z ht ->. done.
Defined.

End SampleZval.
Import Sample SampleZval.

