(* ===== verification/ZtsWorker.v ===== *)
(** ZTS worker threads ([crates/folk-ext/src/worker.rs]), the wrappers of the PHP
    thread functions ([crates/folk-ext/src/zts.rs]) and the opcache warm-up
    ([warmup] of [crates/folk-ext/src/runtime.rs]).

    The C functions are calls with a return code: the codes are the
    environment's, the calls are listed in the order they are made, a call made by
    a script after the call that runs it.  A PHP script is a tree of calls of the
    bridge, the dispatch loop among them. *)

From stdpp Require Import pretty.
From S2P Require Import Prelude.
From S2P Require Import Text.
From S2P Require Import Protocol.
From S2P Require Import Bridge.
From S2P Require Import BridgeSpec.
From S2P Require Import BridgeProps.
From S2P Require Import BridgeIso.
From S2P Require Import WorkerThread.
From S2P Require Import ThreadLive.

(** The calls of [folk_zts.c] a thread makes, and the installation and removal
    of its bridge state. *)
Inductive ZtsCall :=
| ThreadInit
| ThreadShutdown
| RequestStartup
| RequestShutdown
| ExecuteScript (filename : string)
| EvalString (code : string)
| Chdir (path : string)
| BridgeInit
| BridgeCleanup.

(** Return codes. *)
Record ZtsEnv := mkZtsEnv {
  rc_request_startup : Z;
  rc_execute_script : Z;
  rc_eval_string : Z;
  rc_chdir : Z;
  rc_is_enabled : Z;
}.

Definition is_zts (env : ZtsEnv) : bool := bool_decide (rc_is_enabled env <> 0%Z).

Definition chdir (env : ZtsEnv) (path : string) : list ZtsCall * result unit :=
  if has_nul path then ([], Err "path contains null byte")
  else ([Chdir path],
        if decide (rc_chdir env = 0%Z) then Ok tt else Err ("VCWD_CHDIR failed for " +:+ path)).

Definition request_startup (env : ZtsEnv) : list ZtsCall * result unit :=
  ([RequestStartup],
   if decide (rc_request_startup env = 0%Z) then Ok tt
   else Err ("php_request_startup failed (code " +:+ pretty (rc_request_startup env) +:+ ")")).

Definition request_shutdown : list ZtsCall := [RequestShutdown].

(** [ZtsThreadGuard]: construction registers the thread, the drop frees it. *)
Definition ZtsThreadGuard_new : list ZtsCall := [ThreadInit].
Definition ZtsThreadGuard_drop : list ZtsCall := [ThreadShutdown].

(** [eval_string] and [execute_script] succeed on a code other than 0. *)
Definition eval_string (env : ZtsEnv) (code : string) : list ZtsCall * result unit :=
  if has_nul code then ([], Err "code contains null byte")
  else ([EvalString code],
        if decide (rc_eval_string env <> 0%Z) then Ok tt else Err "zend_eval_string failed").

Definition execute_script (env : ZtsEnv) (filename : string) : list ZtsCall * result unit :=
  if has_nul filename then ([], Err "filename contains null byte")
  else ([ExecuteScript filename],
        if decide (rc_execute_script env <> 0%Z) then Ok tt
        else Err ("php_execute_script failed for " +:+ filename)).

Section worker.
Context `{FA : FolkApi}.

(** A worker script: it calls the functions of the bridge, and may hand the thread
    over to the dispatch loop with handlers [php], and go on when the loop has
    returned. *)
Inductive Script :=
| SExit
| SCall (c : ApiCall) (k : ApiResult -> Script)
| SRun (php : string -> value -> Handler) (k : result unit -> Script).

(** What a script does, with the calls of PHP it makes on the way: entering the
    loop, a worker thread changes to the project root.  The loop has fuel for the
    requests that reach the thread; [None] is a loop that does not return. *)
Fixpoint run_script (env : ZtsEnv) (root : option string) (sc : Script) (b : Bridge) :
    option (list ZtsCall * Bridge) :=
  match sc with
  | SExit => Some ([], b)
  | SCall c k => let '(b, r) := api_call c b in run_script env root (k r) b
  | SRun php k =>
      let moves :=
        match worker b, root with Some _, Some dir => (chdir env dir).1 | _, _ => [] end in
      match run_dispatch_loop (S (queue b)) root (fun dir => is_ok (chdir env dir).2) php b with
      | (b, Some r) => '(calls, b) ← run_script env root (k r) b; Some (moves ++ calls, b)
      | (_, None) => None
      end
  end.

(** The thread of [spawn_zts_worker], from [run_zts_worker] to its end.  The
    script, when it runs, does [php]; [panics] says whether a panic unwinds out
    of it into [catch_unwind].  The thread's bridge state, if still there, is
    dropped with the thread.  [root] is the project root. *)
Definition run_zts_worker (env : ZtsEnv) (root : option string) (panics : bool) (php : Script)
    (worker_id : Z) (script : string) (task_rx : list TaskRequest) (b : Bridge) :
    option (list ZtsCall * Bridge) :=
  let enter := ZtsThreadGuard_new in
  let leave := ZtsThreadGuard_drop in
  match request_startup env with
  | (start, Err _) => Some (enter ++ start ++ leave, foldl drop_request b task_rx)
  | (start, Ok _) =>
      let b := init_worker_state worker_id task_rx b in
      match execute_script env script with
      | ([], _) =>
          Some (enter ++ start ++ [BridgeInit] ++ [BridgeCleanup] ++ request_shutdown ++ leave,
                cleanup_worker_state b)
      | (exec, _) =>
          '(calls, b) ← run_script env root php b;
          let running := enter ++ start ++ [BridgeInit] ++ exec ++ calls in
          if panics then Some (running ++ leave, cleanup_worker_state b)
          else Some (running ++ [BridgeCleanup] ++ request_shutdown ++ leave, cleanup_worker_state b)
      end
  end.

(** A thread about to start: the channels of the requests that will reach
    it. *)
Definition thread_start (reqs : list TaskRequest) (left : nat -> option nat) : Bridge := {|
  worker := None;
  streams := list_to_map ((fun req => (stream_tx req, fresh_chan (left (stream_tx req)))) <$> reqs);
  dones := list_to_map ((fun req => (done_tx req, DonePending)) <$> reqs);
  ready_signals := 0; joins := 0; vcwd := None;
|}.

Lemma never_started_released reqs left : all_released (foldl drop_request (thread_start reqs left) reqs).
Proof.
  destruct (drop_requests_releases reqs (thread_start reqs left)) as [Hdone Hstream]. split.
  - intros did Hl. destruct (Hdone did Hl) as [Hl1 Hn]. apply Hn.
    apply elem_of_list_to_map_2 in Hl1. apply list_elem_of_fmap in Hl1 as (req & [= ->] & Hin).
    by apply list_elem_of_fmap_2.
  - intros sid ch Hl. destruct (sc_closed ch) eqn:Hc; [done|].
    destruct (Hstream sid ch Hl Hc) as [Hl1 Hn]. destruct Hn.
    apply elem_of_list_to_map_2 in Hl1. apply list_elem_of_fmap in Hl1 as (req & [= -> _] & Hin).
    by apply list_elem_of_fmap_2.
Qed.

(** The PHP thread context: what is up, innermost first. *)
Inductive Level := LThread | LRequest.

Definition level_step (startup_ok : bool) (c : ZtsCall) (st : list Level) : option (list Level) :=
  match c, st with
  | ThreadInit, [] => Some [LThread]
  | RequestStartup, [LThread] => Some (if startup_ok then [LRequest; LThread] else [LThread])
  | RequestShutdown, [LRequest; LThread] => Some [LThread]
  | ThreadShutdown, [LThread] => Some []
  | (ExecuteScript _ | BridgeInit | BridgeCleanup | EvalString _ | Chdir _), LRequest :: _ => Some st
  | _, _ => None
  end.

(** Scripts end, keep the bridge's invariant, and use PHP within its request. *)
Lemma run_script_ends env root sc b :
  bridge_inv b ->
  exists calls b', run_script env root sc b = Some (calls, b') /\ bridge_inv b'
    /\ Forall (fun c => exists dir, c = Chdir dir) calls.
Proof.
  revert b; induction sc as [|c k IH|php k IH]; intros b Hinv; cbn [run_script]; [naive_solver constructor| |].
  - pose proof (api_call_inv c b Hinv) as Hinv'. destruct (api_call c b) as [b' r]. by apply IH.
  - pose proof (run_dispatch_loop_returns php (S (queue b)) root (fun dir => is_ok (chdir env dir).2) b Hinv) as Hrun.
    destruct (run_dispatch_loop _ _ _ _ b) as [b' r]. destruct Hrun as (Hinv' & Hr & _).
    destruct Hr as [r' ->]; [lia|]. destruct (IH r' b' Hinv') as (calls & b'' & -> & Hb & Hcalls).
    eexists _, _. split_and!; [done|done|]. apply Forall_app. split; [|done].
    destruct (worker b), root as [dir|]; try constructor. unfold chdir. destruct (has_nul dir); repeat constructor. eauto.
Qed.

Lemma chdir_levels up calls more st st' :
  Forall (fun c => exists dir, c = Chdir dir) calls -> head st = Some LRequest ->
  run (level_step up) more st = st' -> run (level_step up) (calls ++ more) st = st'.
Proof.
  intros Hcalls Hst Hmore. induction Hcalls as [|c calls [dir ->] _ IH]; [done|]. simpl.
  destruct st as [|[] st]; done.
Qed.

(** C35. A worker thread uses PHP in the right order and leaves nothing behind,
    whatever its script calls, dispatch loops with any handlers included: it comes
    to its end; unless the script panics, thread and request context are set up
    and torn down like brackets, whether or not PHP starts or the script's name is
    usable; the bridge is used only within a started request; and however the
    thread ends, panics included, every caller whose request reached it is
    released. *)
Theorem zts_worker_clean_exit env root panics php id script reqs left (Hd : distinct reqs) :
  exists calls b,
    run_zts_worker env root panics php id script reqs (thread_start reqs left) = Some (calls, b)
    /\ all_released b
    /\ head calls = Some ThreadInit /\ last calls = Some ThreadShutdown
    /\ (panics = false ->
        run (level_step (bool_decide (rc_request_startup env = 0%Z))) calls [] = Some []).
Proof.
  unfold run_zts_worker, request_startup, execute_script.
  pose proof (bridge_start_inv id reqs left Hd) as Hinv.
  change (bridge_start id reqs left) with (init_worker_state id reqs (thread_start reqs left)) in Hinv.
  destruct (run_script_ends env root php _ Hinv) as (calls & b & Hrun & Hinv' & Hcalls).
  case_decide as Hrc; [rewrite bool_decide_eq_true_2 by done|rewrite bool_decide_eq_false_2 by done].
  2:{ eexists _, _. split_and!; try done. apply never_started_released. }
  destruct (has_nul script); [eexists _, _; split_and!; try done; by apply cleanup_all_released|].
  rewrite Hrun. simpl.
  destruct panics; eexists _, _; (split_and!; [done|by apply cleanup_all_released|done| |]).
  - by rewrite !app_comm_cons, last_app.
  - done.
  - by rewrite !app_comm_cons, last_app.
  - intros _. simpl. by apply chdir_levels.
Qed.
End worker.

(** * Examples *)

Module Examples.
Import Sample.

Definition reqs : list TaskRequest :=
  [{| request_id := "r"; method := "m"; payload := VNull; stream_tx := 0; done_tx := 0; request_body := None |};
   {| request_id := "s"; method := "m"; payload := VNull; stream_tx := 1; done_tx := 1; request_body := None |}].

Lemma two_reqs_distinct : distinct reqs.
Proof. split; apply (bool_decide_unpack _); reflexivity. Qed.

(** The script takes one request itself, leaves the rest to the dispatch loop, and
    dies. *)
Definition script : Script :=
  SCall CRecv (fun _ => SCall (CWrite [x61]) (fun _ =>
    SRun (fun _ _ => HReturn (Ok VNull)) (fun _ => SExit))).
Definition env : ZtsEnv := {|
  rc_request_startup := 0; rc_execute_script := 0; rc_eval_string := 1; rc_chdir := 0; rc_is_enabled := 1;
|}.
End Examples.
Import Sample.

Lemma zts_worker_clean_exit_witness :
  let run_it := run_zts_worker Examples.env (Some "/app") false Examples.script 3 "worker.php" Examples.reqs
    (thread_start Examples.reqs (fun _ => None)) in
  (exists calls b, run_it = Some (calls, b) /\ all_released b /\ run (level_step true) calls [] = Some [])
  /\ fst <$> run_it = Some [ThreadInit; RequestStartup; BridgeInit; ExecuteScript "worker.php"; Chdir "/app";
                            BridgeCleanup; RequestShutdown; ThreadShutdown]
  /\ (fun end_ => sc_sent <$> streams end_.2 !! 1) <$> run_it = Some (Some [Return VNull; End]).
Proof.
  intros run_it. split_and!; [|vm_compute; reflexivity..].
  destruct (zts_worker_clean_exit Examples.env (Some "/app") false Examples.script 3 "worker.php" Examples.reqs
    (fun _ => None) Examples.two_reqs_distinct) as (calls & b & Hrun & Hall & _ & _ & Hlevels).
  exists calls, b. split; [exact Hrun|]. split; [exact Hall|exact (Hlevels eq_refl)].
Defined.

(** * Warm-up *)

Definition warmup_code (classmap_path : string) : string :=
  "
$classmap = require '" +:+ classmap_path +:+ "';
$loaded = 0;
foreach ($classmap as $class => $file) {
    if (is_file($file) && function_exists('opcache_compile_file')) {
        @opcache_compile_file($file);
        $loaded++;
    }
}
".

(** The blocking thread's closure; the [?] leaves the guard to be dropped. *)
Definition warmup_thread (env : ZtsEnv) (code : string) : list ZtsCall * result unit :=
  match request_startup env with
  | (start, Err e) => (ZtsThreadGuard_new ++ start ++ ZtsThreadGuard_drop, Err e)
  | (start, Ok _) =>
      let '(eval, r) := eval_string env code in
      (ZtsThreadGuard_new ++ start ++ eval ++ request_shutdown ++ ZtsThreadGuard_drop, r)
  end.

(** [Path::join] with a relative path. *)
Definition path_join (dir path : string) : string :=
  match String.get (String.length dir - 1) dir with
  | Some "/"%char => dir +:+ path
  | _ => dir +:+ "/" +:+ path
  end.

(** [warmup]: [cwd] is the current directory, [exists_] whether a file exists,
    [joined] the outcome of the blocking task. *)
Definition warmup (env : ZtsEnv) (cwd : result string) (exists_ : string -> bool) (joined : result unit) :
    list ZtsCall * result unit :=
  if negb (is_zts env) then ([], Ok tt)
  else
    match context "cannot determine current directory" cwd with
    | Err e => ([], Err e)
    | Ok project_dir =>
        let classmap_path := path_join project_dir "vendor/composer/autoload_classmap.php" in
        if negb (exists_ classmap_path) then ([], Ok tt)
        else
          let '(calls, _) := warmup_thread env (warmup_code classmap_path) in
          match joined with
          | Err e => (calls, Err ("warmup thread panicked: " +:+ e))
          | Ok _ => (calls, Ok tt)
          end
    end.

(** The warm-up thread's calls are balanced too, and a script that fails does not
    fail the warm-up. *)
Lemma warmup_balanced env cwd exists_ joined :
  let '(calls, r) := warmup env cwd exists_ joined in
  run (level_step (bool_decide (rc_request_startup env = 0%Z))) calls [] = Some []
  /\ (joined = Ok tt -> is_ok cwd = true -> r = Ok tt).
Proof.
  unfold warmup, warmup_thread, request_startup, eval_string.
  destruct (is_zts env); simpl; [|done]. destruct cwd as [d|e]; simpl; [|done].
  destruct (exists_ _); simpl; [|done].
  case_decide; [rewrite bool_decide_eq_true_2 by done|rewrite bool_decide_eq_false_2 by done].
  - destruct (has_nul _); destruct joined as [[]|e]; done.
  - destruct joined as [[]|e]; done.
Qed.
