(* ===== verification/PhpApi.v ===== *)
(** The extension's entry points ([crates/folk-ext/src/lib.rs]): the PHP
    functions over the bridge, calls into plugins, and the process-wide state of
    the server.

    A PHP function is a function of its PHP arguments that makes at most one
    call of the bridge; a [PhpException] is the message it carries. *)

From stdpp Require Import pretty.
From S2P Require Import Prelude.
From S2P Require Import Protocol.
From S2P Require Import Config.
From S2P Require Import PluginRegistry.
From S2P Require Import Server.
From S2P Require Import Registries.
From S2P Require Import Bridge.
From S2P Require Import BridgeSpec.
From S2P Require Import BridgeProps.
From S2P Require Import ThreadLive.

(** * PHP functions *)

(** [version()] and [folk_version()]; the package version is the workspace's. *)
Definition version : string := "folk-ext " +:+ "0.3.10".
Definition folk_version : string := version.

Section functions.
Context `{FA : FolkApi}.

(** [map_err(|e| PhpException::default(format!("<name>: {e}")))]. *)
Definition php_error {A} (name : string) (r : result A) : result A := context name r.

Definition folk_worker_ready (b : Bridge) : Bridge * result bool :=
  prod_map id (php_error "folk_worker_ready") (do_ready b).

(** The pair of method and payload becomes a list of two binaries. *)
Definition folk_worker_recv (b : Bridge) : Bridge * result (option (list bytes)) :=
  match do_recv b with
  | (b, Ok (Some (method, payload))) => (b, Ok (Some [String.list_byte_of_string method; payload]))
  | (b, Ok None) => (b, Ok None)
  | (b, Err e) => (b, php_error "folk_worker_recv" (Err e))
  end.

Definition folk_worker_send (data : bytes) (b : Bridge) : Bridge * result unit :=
  prod_map id (php_error "folk_worker_send") (do_send data b).

Definition folk_worker_send_error (message : string) (b : Bridge) : Bridge * result unit :=
  prod_map id (php_error "folk_worker_send_error") (do_send_error message b).

Definition folk_is_worker_thread (b : Bridge) : bool := has_worker_state b.

Definition folk_request_id (b : Bridge) : string := default EmptyString (get_current_request_id b).

(** [u16::try_from]. *)
Definition u16_try_from (n : Z) : option Z :=
  if ((0 <=? n) && (n <=? u16_max))%Z then Some n else None.

(** [parse_headers] is [serde_json::from_str] into a map of strings. *)
Definition folk_write_head (parse_headers : string -> result (gmap string string)) (status : Z)
    (headers_json : string) (b : Bridge) : Bridge * result unit :=
  match context "folk_write_head: invalid headers JSON" (parse_headers headers_json) with
  | Err e => (b, Err e)
  | Ok headers =>
      match u16_try_from status with
      | None => (b, Err ("folk_write_head: invalid status code " +:+ pretty status))
      | Some status_u16 => prod_map id (php_error "folk_write_head") (do_write_head status_u16 headers b)
      end
  end.

Definition folk_write (data : string) (b : Bridge) : Bridge * result unit :=
  prod_map id (php_error "folk_write") (do_write (String.list_byte_of_string data) b).

Definition folk_write_end (b : Bridge) : Bridge * result unit :=
  prod_map id (php_error "folk_write_end") (do_write_end b).

(** A PHP length, an [i64], as a [usize] of a 64-bit target. *)
Definition read_length (length : Z) : nat := if (length <=? 0)%Z then Z.to_nat 8192 else Z.to_nat length.

Definition folk_read (length : Z) (b : Bridge) : Bridge * bytes := do_read (read_length length) b.
Definition folk_read_all (b : Bridge) : Bridge * bytes := do_read_all b.
Definition folk_next_part (b : Bridge) : Bridge * option string := do_next_part b.
Definition folk_part_read (length : Z) (b : Bridge) : Bridge * bytes :=
  do_part_read (read_length length) b.
Definition folk_part_read_all (b : Bridge) : Bridge * bytes := do_part_read_all b.

(** [folk_worker_run], for at most [fuel] requests. *)
Definition folk_worker_run (fuel : nat) (project_root : option string) (chdir_ok : string -> bool)
    (php : string -> value -> Handler) (b : Bridge) : Bridge * option (result unit) :=
  prod_map id (fmap (php_error "folk_worker_run")) (run_dispatch_loop fuel project_root chdir_ok php b).

(** Outside a worker thread no PHP function has an effect: those that can
    fail throw, naming themselves, the others return nothing. *)
Theorem php_functions_outside_worker b (Hout : worker b = None) :
  folk_worker_ready b = (b, Err "folk_worker_ready: not in a worker thread")
  /\ folk_worker_recv b = (b, Err "folk_worker_recv: not in a worker thread")
  /\ (forall d, folk_worker_send d b = (b, Err "folk_worker_send: not in a worker thread"))
  /\ (forall m, folk_worker_send_error m b = (b, Err "folk_worker_send_error: not in a worker thread"))
  /\ (forall d, folk_write d b = (b, Err "folk_write: not in a worker thread"))
  /\ folk_write_end b = (b, Err "folk_write_end: not in a worker thread")
  /\ (forall fuel root cd php, folk_worker_run fuel root cd php b
        = (b, Some (Err "folk_worker_run: not in a worker thread")))
  /\ (forall n, folk_read n b = (b, [])) /\ folk_read_all b = (b, [])
  /\ folk_next_part b = (b, None)
  /\ (forall n, folk_part_read n b = (b, [])) /\ folk_part_read_all b = (b, [])
  /\ folk_is_worker_thread b = false /\ folk_request_id b = EmptyString.
Proof.
  unfold folk_worker_ready, folk_worker_recv, folk_worker_send, folk_worker_send_error, folk_write,
    folk_write_end, folk_worker_run, folk_read, folk_read_all, folk_next_part, folk_part_read,
    folk_part_read_all, folk_is_worker_thread, folk_request_id, run_dispatch_loop,
    do_ready, do_recv, do_send, do_send_error, do_write, do_write_end, do_read, do_read_all,
    do_next_part, do_part_read, do_part_read_all, on_state, se_bind, get_state, has_worker_state,
    get_current_request_id.
  by rewrite Hout.
Qed.

(** C40. [folk_write_head] sends exactly the head PHP asked for: a status outside
    [u16] or headers that do not parse throw and change nothing, and otherwise
    the head reaches the stream as the next chunk with the status as given. *)
Theorem folk_write_head_exact parse_headers status json b s sid ch
    (Hw : worker b = Some s) (Hsid : current_stream_tx s = Some sid)
    (Hch : streams b !! sid = Some ch) (Hopen : rx_left ch = None) (Hfirst : stream_started s = false) :
  let '(b', r) := folk_write_head parse_headers status json b in
  match parse_headers json with
  | Ok headers =>
      if decide (0 <= status <= 65535)%Z then
        r = Ok tt
        /\ sc_sent <$> streams b' !! sid = Some (sc_sent ch ++ [Headers status headers])
        /\ (forall sid', sid' <> sid -> streams b' !! sid' = streams b !! sid')
      else b' = b /\ is_ok r = false
  | Err _ => b' = b /\ is_ok r = false
  end.
Proof.
  unfold folk_write_head. destruct (parse_headers json) as [headers|e]; simpl; [|done].
  unfold u16_try_from. change u16_max with 65535%Z.
  destruct (Z.leb_spec 0 status), (Z.leb_spec status 65535); simpl;
    [rewrite decide_True by lia|rewrite decide_False by lia; done..].
  unfold do_write_head, se_bind, get_state. rewrite Hw, Hsid. simpl. rewrite Hfirst.
  unfold blocking_send. simpl. rewrite Hch, Hopen. simpl.
  split_and!; [done|by rewrite lookup_insert_eq|]. intros sid' Hne. by rewrite lookup_insert_ne.
Qed.
End functions.

(** * The process *)

(** The statics of [lib.rs]: the registry and the runtime handle once set, the
    project root, and the threads to join. *)
Record Statics := mkStatics {
  REGISTRY : option nat;
  TOKIO_HANDLE : bool;
  PROJECT_ROOT : option string;
  ZTS_WORKERS : option (list nat);
}.

Definition statics_init : Statics :=
  {| REGISTRY := None; TOKIO_HANDLE := false; PROJECT_ROOT := None; ZTS_WORKERS := None |}.

(** [OnceLock::set]: the first value stays. *)
Definition once_set {A} (o : option A) (a : A) : option A :=
  match o with Some a => Some a | None => Some a end.

Definition project_root (st : Statics) : option string := PROJECT_ROOT st.

Definition register_zts_worker (handle : nat) (st : Statics) : Statics := {|
  REGISTRY := REGISTRY st; TOKIO_HANDLE := TOKIO_HANDLE st; PROJECT_ROOT := PROJECT_ROOT st;
  ZTS_WORKERS := Some (default [] (ZTS_WORKERS st) ++ [handle]);
|}.

(** The threads joined, and the state without them. *)
Definition join_all_zts_workers (st : Statics) : Statics * list nat :=
  match ZTS_WORKERS st with
  | None => (st, [])
  | Some handles =>
      ({| REGISTRY := REGISTRY st; TOKIO_HANDLE := TOKIO_HANDLE st; PROJECT_ROOT := PROJECT_ROOT st;
          ZTS_WORKERS := Some [] |}, handles)
  end.

Section server.
Context `{FA : FolkApi}.
Context {RpcHandler : Type} (run_rpc : RpcHandler -> bytes -> result bytes).

(** [start_server], up to the barrier.  [registry] names the registry created by
    this call; [rx] is what will reach the main worker; [thread] is the outcome of
    starting the tokio thread. *)
Definition start_server (cwd : result string) (registry : nat) (rx : list TaskRequest)
    (thread : result unit) (st : Statics) (b : Bridge) : Statics * Bridge * result unit :=
  match context "cannot determine current directory" cwd with
  | Err e => (st, b, Err e)
  | Ok cwd =>
      let b := init_worker_state 1 rx b in
      let st := {| REGISTRY := once_set (REGISTRY st) registry; TOKIO_HANDLE := TOKIO_HANDLE st;
                   PROJECT_ROOT := once_set (PROJECT_ROOT st) cwd; ZTS_WORKERS := ZTS_WORKERS st |} in
      match thread with
      | Err e => (st, b, Err e)
      | Ok _ => ({| REGISTRY := REGISTRY st; TOKIO_HANDLE := true; PROJECT_ROOT := PROJECT_ROOT st;
                    ZTS_WORKERS := ZTS_WORKERS st |}, b, Ok tt)
      end
  end.

(** The server the tokio thread runs. *)
Definition tokio_server {PluginContext} (config : FolkConfig) (plugins : list (Plugin PluginContext))
    (registry : nat) : FolkServer (PluginContext := PluginContext) (Registrar := nat) :=
  foldl (fun server plugin => register_plugin plugin server)
    (set_rpc_registrar registry (server_new config)) plugins.

Lemma tokio_server_fields {PluginContext} config (ps : list (Plugin PluginContext)) registry :
  let server := tokio_server config ps registry in
  Server.config server = config /\ plugins server = ps /\ rpc_registrar server = Some registry.
Proof.
  unfold tokio_server. simpl. generalize (eq_refl (plugins (set_rpc_registrar registry
    (server_new (PluginContext := PluginContext) config)))).
  assert (forall srv : FolkServer (PluginContext := PluginContext) (Registrar := nat),
    let r := foldl (fun server plugin => register_plugin plugin server) srv ps in
    Server.config r = Server.config srv /\ plugins r = plugins srv ++ ps
    /\ rpc_registrar r = rpc_registrar srv) as Hf.
  { induction ps as [|p ps IH]; intros srv; simpl; [by rewrite app_nil_r|].
    destruct (IH (register_plugin p srv)) as (-> & -> & ->). simpl. unfold register.
    by rewrite <- app_assoc. }
  intros _. destruct (Hf (set_rpc_registrar registry (server_new config))) as (-> & -> & ->). done.
Qed.

(** [Folk\Server].  [{e}] shows the outermost message of an error, so what
    [figment] says is lost, and so is why there is no current directory. *)
Record Server := mkServer { config_path : string }.

Definition Server_construct (config_path : string) : Server := mkServer config_path.

Definition Server_start `{Figment} (path_exists : bool) (cwd : result string) (registry : nat)
    (rx : list TaskRequest) (thread : result unit) (self : Server) (st : Statics) (b : Bridge) :
    Statics * Bridge * result unit :=
  match load_from (config_path self) path_exists with
  | Err _ => (st, b, Err "Config error: failed to parse Folk configuration")
  | Ok config =>
      match start_server cwd registry rx thread st b with
      | (st, b, Ok _) => (st, b, Ok tt)
      | (st, b, Err _) =>
          (st, b, Err ("Start error: " +:+
            match cwd, thread with
            | Err _, _ => "cannot determine current directory"
            | Ok _, Err e => e
            | Ok _, Ok _ => ""
            end))
      end
  end.

(** [call_method]; [registries] are the registries by name. *)
Definition call_method (registries : nat -> InProcessRegistry (RpcHandler := RpcHandler)) (method : string)
    (payload : bytes) (st : Statics) : result bytes :=
  match REGISTRY st with
  | None => Err "server not started"
  | Some r =>
      if TOKIO_HANDLE st then call run_rpc method payload (registries r)
      else Err "runtime not available"
  end.

Definition folk_call (registries : nat -> InProcessRegistry (RpcHandler := RpcHandler)) (method : string)
    (payload : bytes) (st : Statics) : result bytes :=
  php_error ("folk_call(" +:+ method +:+ ")") (call_method registries method payload st).

(** The functions PHP can call, with their arguments. *)
Inductive PhpCall :=
| PVersion | PCall (method : string) (payload : bytes)
| PWorkerReady | PWorkerRecv | PWorkerSend (data : bytes) | PWorkerSendError (message : string)
| PIsWorkerThread | PRequestId
| PWriteHead (status : Z) (headers_json : string) | PWrite (data : string) | PWriteEnd
| PRead (length : Z) | PReadAll | PNextPart | PPartRead (length : Z) | PPartReadAll
| PWorkerRun (dispatch_fn : string).

Inductive PhpReturn :=
| RNull | RBool (v : bool) | RString (s : string) | RBinary (bs : bytes) | RBinaries (l : list bytes).

Definition function_name (c : PhpCall) : string :=
  match c with
  | PVersion => "folk_version" | PCall _ _ => "folk_call"
  | PWorkerReady => "folk_worker_ready" | PWorkerRecv => "folk_worker_recv"
  | PWorkerSend _ => "folk_worker_send" | PWorkerSendError _ => "folk_worker_send_error"
  | PIsWorkerThread => "folk_is_worker_thread" | PRequestId => "folk_request_id"
  | PWriteHead _ _ => "folk_write_head" | PWrite _ => "folk_write" | PWriteEnd => "folk_write_end"
  | PRead _ => "folk_read" | PReadAll => "folk_read_all" | PNextPart => "folk_next_part"
  | PPartRead _ => "folk_part_read" | PPartReadAll => "folk_part_read_all"
  | PWorkerRun _ => "folk_worker_run"
  end.

(** The classes and functions of the module, by the names PHP knows. *)
Definition get_module : list string * list string :=
  (["Folk\Server"],
   ["folk_version"; "folk_call"; "folk_worker_ready"; "folk_worker_recv"; "folk_worker_send";
    "folk_worker_send_error"; "folk_is_worker_thread"; "folk_request_id"; "folk_write_head";
    "folk_write"; "folk_write_end"; "folk_read"; "folk_read_all"; "folk_next_part";
    "folk_part_read"; "folk_part_read_all"; "folk_worker_run"]).

(** What the functions meet: JSON, the registries, and the PHP side of
    [folk_worker_run]. *)
Record PhpEnv := mkPhpEnv {
  parse_headers : string -> result (gmap string string);
  registries : nat -> InProcessRegistry (RpcHandler := RpcHandler);
  loop_fuel : nat;
  chdir_ok : string -> bool;
  dispatch_php : string -> string -> value -> Handler;
}.

Definition returns {A} (f : A -> PhpReturn) (p : Bridge * result A) : Bridge * option (result PhpReturn) :=
  prod_map id (fun r => Some (result_map f r)) p.

(** A call of PHP; [None] is a dispatch loop that has not returned yet. *)
Definition php_call (env : PhpEnv) (st : Statics) (c : PhpCall) (b : Bridge) :
    Bridge * option (result PhpReturn) :=
  match c with
  | PVersion => (b, Some (Ok (RString folk_version)))
  | PCall method payload => (b, Some (result_map RBinary (folk_call (registries env) method payload st)))
  | PWorkerReady => returns RBool (folk_worker_ready b)
  | PWorkerRecv => returns (fun o => match o with Some l => RBinaries l | None => RNull end) (folk_worker_recv b)
  | PWorkerSend data => returns (fun _ => RNull) (folk_worker_send data b)
  | PWorkerSendError message => returns (fun _ => RNull) (folk_worker_send_error message b)
  | PIsWorkerThread => (b, Some (Ok (RBool (folk_is_worker_thread b))))
  | PRequestId => (b, Some (Ok (RString (folk_request_id b))))
  | PWriteHead status json => returns (fun _ => RNull) (folk_write_head (parse_headers env) status json b)
  | PWrite data => returns (fun _ => RNull) (folk_write data b)
  | PWriteEnd => returns (fun _ => RNull) (folk_write_end b)
  | PRead n => prod_map id (fun bs => Some (Ok (RBinary bs))) (folk_read n b)
  | PReadAll => prod_map id (fun bs => Some (Ok (RBinary bs))) (folk_read_all b)
  | PNextPart =>
      prod_map id (fun o => Some (Ok (match o with Some s => RString s | None => RNull end))) (folk_next_part b)
  | PPartRead n => prod_map id (fun bs => Some (Ok (RBinary bs))) (folk_part_read n b)
  | PPartReadAll => prod_map id (fun bs => Some (Ok (RBinary bs))) (folk_part_read_all b)
  | PWorkerRun f =>
      prod_map id (fmap (result_map (fun _ => RNull)))
        (folk_worker_run (loop_fuel env) (project_root st) (chdir_ok env) (dispatch_php env f) b)
  end.

(** The module's functions are those of [PhpCall], each once. *)
Lemma module_functions :
  NoDup get_module.2 /\ forall name, name ∈ get_module.2 <-> exists c, function_name c = name.
Proof.
  split; [apply (bool_decide_unpack _); vm_compute; reflexivity|]. intros name. split.
  - simpl. rewrite !elem_of_cons, elem_of_nil. intros Hn. repeat (destruct Hn as [->|Hn]).
    all: first [by exists PVersion|by exists (PCall "" [])|by exists PWorkerReady|by exists PWorkerRecv
      |by exists (PWorkerSend [])|by exists (PWorkerSendError "")|by exists PIsWorkerThread|by exists PRequestId
      |by exists (PWriteHead 0 "")|by exists (PWrite "")|by exists PWriteEnd|by exists (PRead 0)|by exists PReadAll
      |by exists PNextPart|by exists (PPartRead 0)|by exists PPartReadAll|by exists (PWorkerRun "")].
  - intros [c <-]. destruct c; apply (bool_decide_unpack _); vm_compute; exact I.
Qed.

(** The name an exception starts with. *)
Definition thrown_as (c : PhpCall) : string :=
  match c with PCall method _ => "folk_call(" +:+ method +:+ ")" | _ => function_name c end.

(** ** What throwing does to the bridge *)

Lemma get_state_fails {A} (k : WorkerState -> SE Bridge A) b :
  worker b = None -> (state <-- get_state;; k state) b = (b, Err "not in a worker thread").
Proof. intros Hs. unfold se_bind, get_state. by rewrite Hs. Qed.

Lemma blocking_send_fails sid c b b' e : blocking_send sid c b = (b', Err e) -> b' = b.
Proof. unfold blocking_send. intros Hc. by repeat case_match; simplify_eq. Qed.

Lemma do_send_throws data b b' e :
  bridge_inv b -> do_send data b = (b', Err e) ->
  b' = b \/ exists s sid did msg, worker b = Some s /\ current_stream_tx s = Some sid
    /\ current_done_tx s = Some did /\ from_slice data = Err msg
    /\ b' = finish b s sid did [Error (worker_error_new ("PHP returned malformed JSON: " +:+ msg)); End].
Proof.
  intros Hinv Hc. destruct (worker b) as [s|] eqn:Hs.
  2:{ unfold do_send in Hc. rewrite get_state_fails in Hc by done. by simplify_eq; auto. }
  destruct (current_stream_tx s) as [sid|] eqn:Hsid.
  - destruct (stream_has_done b s sid Hinv Hs Hsid) as [did Hdid].
    rewrite (do_send_spec _ _ s sid did) in Hc by done. destruct (from_slice data) as [v|msg] eqn:Hf; [done|].
    right. injection Hc as <- _. by exists s, sid, did, msg.
  - unfold do_send, se_bind, get_state in Hc. rewrite Hs in Hc. simpl in Hc. rewrite Hsid in Hc.
    unfold se_fail in Hc. by simplify_eq; auto.
Qed.

Lemma do_write_end_throws b b' e : bridge_inv b -> do_write_end b = (b', Err e) -> b' = b.
Proof.
  intros Hinv Hc. destruct (worker b) as [s|] eqn:Hs.
  2:{ unfold do_write_end in Hc. rewrite get_state_fails in Hc by done. by simplify_eq; auto. }
  destruct (current_stream_tx s) as [sid|] eqn:Hsid.
  - destruct (stream_has_done b s sid Hinv Hs Hsid) as [did Hdid].
    by rewrite (do_write_end_spec _ s sid did) in Hc by done.
  - unfold do_write_end, se_bind, get_state in Hc. rewrite Hs in Hc. simpl in Hc. rewrite Hsid in Hc.
    unfold se_fail in Hc. by simplify_eq; auto.
Qed.

Lemma do_write_throws data b b' e : do_write data b = (b', Err e) -> b' = b.
Proof.
  unfold do_write. bridge_unfold. destruct (worker b) as [s|]; [|by intros; simplify_eq; auto].
  destruct (current_stream_tx s) as [sid|]; simpl; [|by intros; simplify_eq; auto]. case_decide; [done|].
  destruct (blocking_send sid (Body data) b) as [b1 [|e1]] eqn:Hb; [done|].
  intros [= <- _]. by eapply blocking_send_fails.
Qed.

Lemma do_write_head_throws status headers b b' e :
  do_write_head status headers b = (b', Err e) ->
  b' = b \/ exists s, worker b = Some s /\ b' = set_worker (Some (set_started true s)) b.
Proof.
  unfold do_write_head. bridge_unfold. destruct (worker b) as [s|]; [|by intros; simplify_eq; auto].
  destruct (current_stream_tx s) as [sid|]; simpl; [|by intros; simplify_eq; auto]. destruct (stream_started s); [by intros; simplify_eq; auto|].
  destruct (blocking_send _ _ _) as [b1 [|e1]] eqn:Hb; [done|].
  intros [= <- _]. right. exists s. split; [done|]. by eapply blocking_send_fails.
Qed.

(** What a call that throws has done: nothing, or the
    response has been marked as started for a reader that is gone, or the request
    has been answered with the fatal its malformed result is. *)
Definition harmless (c : PhpCall) b b' : Prop :=
  b' = b
  \/ (exists status json s, c = PWriteHead status json /\ worker b = Some s
      /\ b' = set_worker (Some (set_started true s)) b)
  \/ (exists data s sid did msg ch, c = PWorkerSend data /\ from_slice data = Err msg /\ worker b = Some s
      /\ current_stream_tx s = Some sid /\ current_done_tx s = Some did /\ streams b !! sid = Some ch
      /\ b' = {|
        worker := Some (clear_request s);
        streams := <[sid := close_chan (push_chan ch
          [Error (worker_error_new ("PHP returned malformed JSON: " +:+ msg)); End])]> (streams b);
        dones := <[did := DoneSent]> (dones b);
        ready_signals := ready_signals b; joins := joins b; vcwd := vcwd b |}).

(** C39. An exception of a PHP function names the function that throws it, exactly,
    and is harmless, in every state the bridge can be in: the function has done
    nothing, neither to the current request nor to those waiting, save that a head
    refused by a reader that is gone counts as sent, and that a malformed result
    has answered its request, with a fatal, the end of the stream and the signal
    of completion. *)
Theorem php_exceptions_harmless env st c b b' e
    (Hinv : bridge_inv b) (Hc : php_call env st c b = (b', Some (Err e))) :
  (exists cause, e = thrown_as c +:+ ": " +:+ cause) /\ harmless c b b'.
Proof.
  destruct c; simpl in Hc; try done; unfold returns, folk_worker_ready, folk_worker_send,
    folk_worker_send_error, folk_write, folk_write_end, folk_worker_run in Hc.
  - unfold folk_call in Hc. destruct (call_method _ _ _ _); simplify_eq/=. split; [by eexists|by left].
  - destruct (do_ready b) as [b1 []] eqn:Hd; simplify_eq/=. split; [by eexists|left].
    unfold do_ready in Hd. destruct (worker b) as [s|] eqn:Hs.
    + revert Hd. bridge_unfold. rewrite Hs. by destruct (ready_tx s).
    + rewrite get_state_fails in Hd by done. by simplify_eq; auto.
  - unfold folk_worker_recv in Hc. destruct (do_recv b) as [b1 [[[]|]|]] eqn:Hd; simplify_eq/=.
    split; [by eexists|left]. unfold do_recv in Hd. destruct (worker b) as [s|] eqn:Hs.
    + revert Hd. unfold se_bind, get_state. rewrite Hs. by destruct (task_rx s).
    + rewrite get_state_fails in Hd by done. by simplify_eq; auto.
  - destruct (do_send data b) as [b1 []] eqn:Hd; simplify_eq/=. split; [by eexists|].
    destruct (do_send_throws _ _ _ _ Hinv Hd) as [->|(s & sid & did & msg & Hs & Hsid & Hdid & Hf & ->)]; [by left|].
    destruct (current_open b s sid Hinv Hs Hsid) as (_ & ch & _ & _ & Hch & _).
    do 2 right. exists data, s, sid, did, msg, ch. split_and!; try done. by apply finish_spec.
  - destruct (do_send_error message b) as [b1 []] eqn:Hd; simplify_eq/=. split; [by eexists|left].
    destruct (worker b) as [s|] eqn:Hs; unfold do_send_error in Hd.
    + revert Hd. bridge_unfold. rewrite Hs. by destruct (current_stream_tx s), (current_done_tx s).
    + rewrite get_state_fails in Hd by done. by simplify_eq; auto.
  - unfold folk_write_head in Hc.
    destruct (parse_headers env headers_json); simpl in Hc; [|simplify_eq/=; split; [by eexists|by left]].
    destruct (u16_try_from status) as [n|]; [|simplify_eq/=; split; [by eexists|by left]].
    destruct (do_write_head _ _ b) as [b1 []] eqn:Hd; simplify_eq/=. split; [by eexists|].
    destruct (do_write_head_throws _ _ _ _ _ Hd) as [->|(s & Hs & ->)]; [by left|right; left].
    by exists status, headers_json, s.
  - destruct (do_write _ b) as [b1 []] eqn:Hd; simplify_eq/=. split; [by eexists|left]. by eapply do_write_throws.
  - destruct (do_write_end b) as [b1 []] eqn:Hd; simplify_eq/=. split; [by eexists|left].
    by eapply do_write_end_throws.
  - pose proof (run_dispatch_loop_returns (dispatch_php env dispatch_fn) (loop_fuel env) (project_root st)
      (chdir_ok env) b Hinv) as Hrun.
    destruct (run_dispatch_loop _ _ _ _ b) as [b1 [[]|]]; simplify_eq/=.
    destruct Hrun as (_ & _ & Hr). destruct (Hr _ eq_refl) as (-> & _). split; [by eexists|by left].
Qed.

(** After [start_server] the main thread is worker 1 with a fresh state, and
    calls reach the registry this server hands to its plugins. *)
Lemma start_server_first {PluginContext} config (ps : list (Plugin PluginContext)) cwd registry rx b
    registries method payload :
  let '(st, b', r) := start_server (Ok cwd) registry rx (Ok tt) statics_init b in
  r = Ok tt /\ project_root st = Some cwd
  /\ worker_id <$> worker b' = Some 1%Z
  /\ rpc_registrar (tokio_server config ps registry) = REGISTRY st
  /\ folk_call registries method payload st
     = php_error ("folk_call(" +:+ method +:+ ")") (call run_rpc method payload (registries registry)).
Proof. destruct (tokio_server_fields config ps registry) as (_ & _ & ->). done. Qed.

(** A second server does not replace the registry: its plugins register in one
    that [folk_call] never reaches. *)
Lemma start_server_again cwd cwd' r1 r2 rx b registries method payload :
  let '(st1, b1, _) := start_server (Ok cwd) r1 rx (Ok tt) statics_init b in
  let '(st2, _, r) := start_server (Ok cwd') r2 rx (Ok tt) st1 b1 in
  r = Ok tt /\ call_method registries method payload st2 = call run_rpc method payload (registries r1).
Proof. done. Qed.
End server.

(** * Examples *)

Module Examples.
Import Sample.

Definition req : TaskRequest := {|
  request_id := "r"; method := "m"; payload := VNull; stream_tx := 0; done_tx := 0;
  request_body := None;
|}.
Definition b : Bridge := (do_recv (bridge_start 1 [req] (fun _ => None))).1.
Definition rpc : unit -> bytes -> result bytes := fun _ _ => Ok [].
Definition env : PhpEnv (RpcHandler := unit) := {|
  parse_headers _ := Ok ∅; registries _ := ∅; loop_fuel := 1; chdir_ok _ := true;
  dispatch_php _ _ _ := HReturn (Ok VNull);
|}.
End Examples.
Import Sample.

Lemma php_functions_outside_worker_witness :
  folk_request_id (cleanup_worker_state Examples.b) = EmptyString.
Proof.
  exact (proj2 (proj2 (proj2 (proj2 (proj2 (proj2 (proj2 (proj2 (proj2 (proj2 (proj2 (proj2 (proj2
    (php_functions_outside_worker (cleanup_worker_state Examples.b) eq_refl)))))))))))))).
Defined.

Lemma folk_write_head_exact_witness :
  sc_sent <$> streams (folk_write_head (fun _ => Ok ∅) 404 "{}" Examples.b).1 !! 0
    = Some [Headers 404 ∅]
  /\ (folk_write_head (fun _ => Ok ∅) 404 "{}" Examples.b).2 = Ok tt.
Proof.
  split; [vm_compute; reflexivity|].
  exact (proj1 (folk_write_head_exact (fun _ => Ok ∅) 404 "{}" Examples.b _ 0 _
    eq_refl eq_refl eq_refl eq_refl eq_refl)).
Defined.

(** A result that is no JSON throws, and the request it was for is answered. *)
Lemma php_exceptions_harmless_witness :
  let '(b', r) := php_call Examples.rpc Examples.env statics_init (PWorkerSend []) Examples.b in
  r = Some (Err "folk_worker_send: PHP returned malformed JSON")
  /\ harmless (PWorkerSend []) Examples.b b' /\ dones b' !! 0 = Some DoneSent.
Proof.
  assert (bridge_inv Examples.b) as Hinv.
  { apply do_recv_inv, bridge_start_inv. split; apply NoDup_singleton. }
  destruct (php_call _ _ _ _ _) as [b' r] eqn:Hc.
  assert (r = Some (Err "folk_worker_send: PHP returned malformed JSON")) as ->.
  { apply (f_equal snd) in Hc. simpl in Hc. rewrite <- Hc. vm_compute. reflexivity. }
  split; [reflexivity|]. split; [exact (proj2 (php_exceptions_harmless _ _ _ _ _ _ _ Hinv Hc))|].
  apply (f_equal fst) in Hc. simpl in Hc. rewrite <- Hc. vm_compute. reflexivity.
Defined.
