(* ===== verification/Build.v ===== *)
(** The build script ([crates/folk-ext/build.rs]): finding [php-config], reading
    its include directories, and what is told to the C compiler and to cargo.

    The programs run and the crates [ext_php_rs_build] and [cc] are the
    environment; [None] is a failed [expect]. *)

From S2P Require Import Prelude Text.

(** * Words *)

(** [char::is_whitespace] (Unicode [White_Space]) on a character in UTF-8. *)
Definition is_whitespace (c : bytes) : bool :=
  match c with
  | [b] => in_range 9 13 b || Byte.eqb b x20
  | [a; b] => Byte.eqb a xc2 && (Byte.eqb b x85 || Byte.eqb b xa0)
  | [xe1; x9a; x80] => true
  | [xe2; x80; d] =>
      in_range 128 138 d || Byte.eqb d xa8 || Byte.eqb d xa9 || Byte.eqb d xaf
  | [xe2; x81; x9f] => true
  | [xe3; x80; x80] => true
  | _ => false
  end.

(** The characters of [String::from_utf8_lossy]. *)
Definition lossy_chars (bs : bytes) : list bytes :=
  (fun s => match s with Char c => c | Invalid _ => replacement end) <$> utf8_chunks bs.

Definition flush (word : bytes) : list bytes := match word with [] => [] | _ => [word] end.

(** [str::split_whitespace], with the word read so far. *)
Fixpoint split_whitespace (word : bytes) (cs : list bytes) : list bytes :=
  match cs with
  | [] => flush word
  | c :: cs =>
      if is_whitespace c then flush word ++ split_whitespace [] cs else split_whitespace (word ++ c) cs
  end.

(** [strip_prefix("-I")]. *)
Definition strip_include (word : bytes) : option bytes :=
  match word with x2d :: x49 :: dir => Some dir | _ => None end.

(** * The script *)

(** [status name]: whether [name --version] ran, and succeeded. *)
Definition find_php_config (status : string -> option bool) : string :=
  default "php-config"
    (head (base.filter (fun name => status name = Some true)
      ["php-config"; "php-config8.3"; "php-config8.2"])).

(** [stdout] is the output of [--includes]. *)
Definition get_php_includes (stdout : bytes) : list bytes :=
  omap strip_include (split_whitespace [] (lossy_chars stdout)).

Inductive BuildAction :=
| EmitPhpCfgFlags
| EmitCheckCfg
| CcFile (file : string)
| CcInclude (dir : bytes)
| CcDefine (name : string) (val : option string)
| CcWarnings (enabled : bool)
| CcCompile (lib : string)
| CargoLine (line : string).

Record BuildEnv := mkBuildEnv {
  (** PHP was found, asked for its version, and is supported. *)
  api_version : bool;
  thread_safety : option bool;
  status : string -> option bool;
  includes : string -> option bytes;
  target_os : option string;
}.

Definition build_main (env : BuildEnv) : option (list BuildAction) :=
  if api_version env then
    let php_config := find_php_config (status env) in
    stdout ← includes env php_config;
    let is_zts := default false (thread_safety env) in
    Some ([EmitPhpCfgFlags; EmitCheckCfg; CcFile "src/folk_zts.c"]
      ++ (CcInclude <$> get_php_includes stdout)
      ++ (if is_zts then
            [CcDefine "ZTS" None; CcDefine "ZEND_ENABLE_STATIC_TSRMLS_CACHE" (Some "1");
             CargoLine "cargo:rustc-cfg=php_zts"]
          else [])
      ++ [CcWarnings false; CcCompile "folk_zts"]
      ++ (if decide (default "" (target_os env) = "macos") then
            [CargoLine "cargo:rustc-cdylib-link-arg=-undefined";
             CargoLine "cargo:rustc-cdylib-link-arg=dynamic_lookup"]
          else [])
      ++ [CargoLine "cargo:rerun-if-changed=src/folk_zts.c"])
  else None.

(** * Properties *)

(** What [php-config --includes] prints for the directories, each a list of
    characters. *)
Fixpoint includes_output (dirs : list (list bytes)) : bytes :=
  match dirs with
  | [] => [x0a]
  | dir :: dirs => [x2d] ++ [x49] ++ concat dir ++ (if dirs then [] else [x20]) ++ includes_output dirs
  end.

(** A character that does not end a word. *)
Definition word_char (c : bytes) : Prop := is_char c /\ is_whitespace c = false.

Lemma lossy_chars_cons c rest : is_char c -> lossy_chars (c ++ rest) = c :: lossy_chars rest.
Proof. intros Hc. unfold lossy_chars. by rewrite Hc. Qed.

Lemma split_word word dir rest :
  Forall word_char dir ->
  split_whitespace word (lossy_chars (concat dir ++ rest)) = split_whitespace (word ++ concat dir) (lossy_chars rest).
Proof.
  intros Hd; revert word; induction Hd as [|c dir [Hc Hw] _ IH]; intros word; simpl concat.
  - by rewrite app_nil_r.
  - rewrite <- app_assoc, lossy_chars_cons by done. simpl. by rewrite Hw, IH, app_assoc.
Qed.

(** Reading back the include directories: the words [php-config] prints are split
    again into exactly the directories, in order, as long as their names are UTF-8
    without white space, of whatever script. *)
Theorem php_includes_roundtrip dirs (Hd : Forall (Forall word_char) dirs) :
  get_php_includes (includes_output dirs) = concat (A:=byte) <$> dirs.
Proof.
  unfold get_php_includes. induction Hd as [|dir dirs Hdir Hd IH]; [done|].
  cbn [includes_output]. rewrite (lossy_chars_cons [x2d]), (lossy_chars_cons [x49]) by (intros r; reflexivity).
  simpl split_whitespace. rewrite split_word by done. destruct dirs as [|dir' dirs]; [done|].
  change ((if dir' :: dirs then [] else [x20]) ++ includes_output (dir' :: dirs))
    with ([x20] ++ includes_output (dir' :: dirs)).
  rewrite (lossy_chars_cons [x20]) by (intros r; reflexivity). cbn [split_whitespace].
  change (is_whitespace [x20]) with true. cbv iota. by rewrite omap_app, IH.
Qed.

(** * Examples *)

Module Examples.

Lemma ascii_word b : in_range 33 126 b = true -> word_char [b].
Proof. destruct b; intros Hb; try discriminate Hb; split; try (intros r; reflexivity); reflexivity. Qed.

(** [/é] with an e acute, and [/usr]. *)
Definition dirs : list (list bytes) := [[[x2f]; [xc3; xa9]]; [[x2f]; [x75]; [x73]; [x72]]].
End Examples.

Lemma php_includes_roundtrip_witness :
  get_php_includes (includes_output Examples.dirs) = [[x2f; xc3; xa9]; [x2f; x75; x73; x72]].
Proof.
  apply (php_includes_roundtrip Examples.dirs).
  repeat (constructor; [repeat (constructor; [first [by apply Examples.ascii_word
    |split; [intros r; reflexivity|reflexivity]]|])|]); constructor.
Defined.
